(* ===== verification/_CoqProject ===== *)
-Q . S2P
Prelude.v
Qt.v
Records.v
Demo.v
RecordLaws.v
Namespace.v
Base64.v
Files.v
DemoFiles.v
Store.v
DemoStore.v
Merge.v
Scan.v
Drive.v
Requests.v
Invariants.v
MergeLaws.v
Protocol.v
ReplicaLaws.v
Applications.v
Delivery.v
Presence.v
PresenceLaws.v
Providers.v
Binding.v
BindingLaws.v
Objects.v
ObjectsLaws.v
Codec.v
Credentials.v
GroupState.v
Pairing.v
Json.v
Monitor.v
Utf8.v
Posix.v
PosixLaws.v
Confined.v
ConfinedPaths.v
ConfinedLaws.v
ConfinedFacts.v
Synchronizer.v
SynchronizerReplica.v
SynchronizerLaws.v
SynchronizerTurns.v
SynchronizerFacts.v
SynchronizerOrder.v
SynchronizerEnds.v
WatchPaths.v
Controller.v
ControllerLaws.v
ControllerBooks.v
ControllerOwner.v
ControllerFacts.v
ControllerEnds.v
ControllerCloses.v
ControllerDemo.v
RemoteFiles.v
RemoteFilesFacts.v
Nearby.v
NearbyFacts.v
Client.v
ClientFacts.v
FileSystem.v
FileSystemFacts.v
