(* ===== verification/Prelude.v ===== *)
(** * iiSocietyHelper, a verification library

    iiSocietyHelper is the C++ library of the Society applications: it keeps one
    container of files (a "drive") in step between the devices of an account, lets the
    applications of one device observe and message each other, keeps account secrets,
    and pairs devices on the local network. This library models its core as executable
    functions on explicit states, close to the sources under src/src/, and proves what
    each part promises.

    ** The parts, and where they are

    Replication (src/src/Sync).
    - Records.v, RecordLaws.v: the vocabulary of Replica.cpp's anonymous namespace:
      records, vector clocks ([compare], [joined]), logical and physical paths, conflict
      names, [validRecord].
    - Namespace.v: NamespaceJournal.cpp, the authority's hash-chained journal of
      revisions, the pages it serves and the import of a mirror.
    - Files.v: the operations of ConfinedFiles.h as a class [FileStore] with the laws
      [FileLaws] the replica relies on; Base64.v: the encoding of bytes in requests.
    - Posix.v, PosixLaws.v: the system calls on descriptors, names and inodes, with faults
      and short transfers; Utf8.v: the encoding of file names; Confined.v: every operation
      of ConfinedFiles.cpp on them; ConfinedPaths.v, ConfinedLaws.v, ConfinedFacts.v: it is
      an instance of [FileStore] that keeps [FileLaws], and loses no bytes.
    - Store.v: Replica::Private: its tables, metadata, [save] with its savepoint,
      [observed] and [refresh]; Merge.v: Private::merge; Scan.v: Replica::scan; Drive.v:
      driveRequest; Requests.v: Replica::handle; Binding.v: open, bindHost,
      completeBootstrap, claimPrimaryHost; Objects.v: metadata without bytes, previews,
      restoring from providers; Providers.v: ObjectProvider.cpp as a class with two
      instances.
    - Invariants.v: preorders between stores before and after, with the lemmas that carry
      one through every handler; MergeLaws.v, Protocol.v, ReplicaLaws.v, BindingLaws.v,
      ObjectsLaws.v: the theorems.
    - Synchronizer.v: Synchronizer.cpp, the session with one peer: its requests, what each
      reply makes it do, its timers; a function object given to [send] or to a timer is a
      constructor of [Callback], [Action] or [Ready] with the values it captures, and
      [history] is a list of calls, replies, expired timers, ticks and uses of the replica
      by others. The replica is the class [ReplicaOps]; SynchronizerReplica.v makes the
      modelled replica an instance and shows that its pages of changes advance.
      SynchronizerLaws.v, SynchronizerTurns.v: the invariant of a session, handler by
      handler; SynchronizerFacts.v, SynchronizerOrder.v, SynchronizerEnds.v: the theorems.
    - WatchPaths.v: WatchPaths.h, the bounded walk that chooses what to watch.
    - RemoteFiles.v: RemoteFiles.cpp, the file service of a Windows host over FileStore, and
      the client with its download worker; RemoteFilesFacts.v: the theorem.
    - Controller.v: Controller.cpp and Status::publish: the [Owner] is Controller::Private
      on the application's thread, the [Worker] is SyncWorker with its session and replica
      (class [ReplicaControl]); what either invokes or emits is a [Call] or a [Note] in
      the other's queue, and [history] interleaves the steps of both. ControllerLaws.v:
      what the worker's operations leave alone; ControllerBooks.v: the life of a request
      in the log; ControllerOwner.v: the owner's operations; ControllerFacts.v,
      ControllerEnds.v, ControllerCloses.v: invariant and theorems; ControllerDemo.v: the
      modelled replica as the one a controller owns, and the witnesses.

    One device (src/src/Core, src/src/Delivery, src/src/Objects).
    - Applications.v, Presence.v, PresenceLaws.v: Helper.cpp and iiSocietyHelper.h: who
      is observed, presence records, scans, the two workers and the event loop.
    - Delivery.v: DeliveryStore.cpp, the durable outbox and inbox.
    - Codec.v: ObjectCodec.cpp: limits of values, snapshots of object graphs, envelopes.

    Accounts and pairing (src/src/Storage, src/src/Discovery).
    - GroupState.v: GroupSessionStore.cpp and StateCrypto.cpp: several stores, in several
      processes, on one disk.
    - Credentials.v: PairingCredentials.cpp; Pairing.v: AutomaticPairing.cpp.
    - Nearby.v: NearbyDevices.cpp, the devices of the account on the local network;
      NearbyFacts.v: the theorems.
    - Client.v: Client.cpp, an application's session with the host of the account, its
      requests to the drive and the mirror of the catalog; ClientFacts.v: the theorem.

    Files (src/src/Files).
    - FileSystem.v: FileSystem.cpp, an application's view of the drive: the selection, the
      mirror of the files with the threads that scan it, the monitor, and the operations
      on files, as steps of [history] with a disk that may change between and during them;
      FileSystemFacts.v: the mirror is always the selected drive's.

    Monitoring (src/src/Monitoring).
    - Json.v: the bounded parser and the printer of Monitor.cpp; Monitor.v: identity,
      Publisher, read, Subscription.

    Prelude.v and Qt.v hold what all share: notation, tactics, lists, machine integers,
    and the Qt types (QString as UTF-16 code units, QJsonValue with QJsonObject as a
    finite map, decimal conversions). Demo.v, DemoFiles.v and DemoStore.v give concrete
    instances of the parameters, on which the witnesses evaluate.

    ** How the code is rendered

    A member function is a function from the object's state, and an environment that
    answers for the outside (SQL statements that fail, clocks, files, replies of other
    objects), to a result and the new state. Replica code runs in the state monad of
    Store.v; the capture of objects in the monad of Codec.v; the event loops of Presence.v,
    Pairing.v and GroupState.v are steps on a state, with reachability by [rtc] or lists of
    events. Names follow the sources. Counters, sequence numbers and fingerprints are kept
    at their width ([wrap64]) where the code lets them wrap; protocol numbers are the
    decimal strings that the code exchanges, limited to 2^53-1.

    Code outside the repository is a parameter: JSON text and SHA-256 ([Platform], with
    [PlatformLaws]), AES-GCM, HMAC, dates, the metatype system with the stream operators
    of applications, the container library, the serialization library. Hypotheses about
    them are documented behaviour, and each theorem that has one has a witness on a
    concrete instance.

    ** What the theorems show

    - Replication: merging accounts for the bytes of both sides and touches no other path;
      a stale proposal yields; saving is atomic and keeps the catalog's invariant, which
      every request keeps; manifests that are served are authentic; transfers and receipts
      require an announced member; mirrors accept exactly what the journal serves; binding
      moves through its phases only; one device claims to be the primary host; a provider
      gives back what it was handed. Several of these need a healthy database, and say so:
      the code reads a SELECT that fails as an absent row.
    - Sessions: a session waits for one request, one scheduled action or the chunks of one
      window; the order of its replies does not matter; success needs the peer's receipt
      for the last announcement; listeners hear a consistent story; silence ends it.
    - Controller: a request of a peer is executed once and its answer kept for it, through
      retries, eviction and changes of the container; every request is answered; nothing
      remains of a container after closeAndWait. The walk over watched paths stays within
      its budget.
    - Downloads: the client, its worker and the host's service bring a file over whole; an application
      gets one answer to each request to the host's drive.
    - One device: messages are delivered once, in order, all or none; presence cycles
      complete and listeners are told what a scan found; envelopes are decoded to the value
      they were made of, within their limits; capturing a graph of objects ends.
    - Accounts and pairing: what was removed stays removed, whatever other processes do;
      signatures are accepted in their window; attempts to pair keep their discipline;
      the link of an invitation names the device that sent it and its address only; a device
      finds its host again by signed packets.
    - Files: whatever overtakes a scan, the mirror shows rows of the selected drive only.
    - Monitoring: the parser reads what the printer writes; what is published is read.

    ** Fuel and bounds

    [Scan.visit] recurses on the depth bound that the code has; [Codec.captureValue] has
    fuel 17, one more than the 16 levels the code allows, and [capture_terminates] shows
    that it is never used up; [Json.value_] recurses on the 25 levels of the parser, its
    loops on the length of the input, which [items_fuel] and [members_fuel] show to be
    enough; [Confined.hashLoop] and [writeLoop] have the size of the file and of the chunk,
    since every read or write that works moves at least a byte ([hash_total],
    [append_resumes]); [Synchronizer.announceRounds] has the distance of the cursors, since
    a page that announces more moves its cursor (the hypothesis [rounds] of the sessions'
    theorems, which [changes_rounds] proves of a mirror whose records fit a page), its drain
    loops the number of chunks that arrived; all other loops are structural. The session
    counter of a synchronizer (64 bits) does not wrap in the lifetime of a process, and the
    theorems of the controller bound the calls of the application by 2^64 ([callings]):
    its generations are 64-bit counters too. [Controller.makeRoom] has the number of jobs,
    since each round forgets one; [WatchPaths.walkDirectories] has the limit of paths,
    since no more directories than that are collected.

    ** Not modelled, and next

    The macOS and Windows branches of ConfinedFiles (copies between volumes, handles), and
    other processes that change the container's files while an operation runs. The slots
    connected to a synchronizer call it back only to stop it; its trace message is left
    out. A step of the controller's worker reads the shared counters once, while the code
    may see a cancellation in its middle; the threads that index, archive and place
    objects report outcomes that the model is given; the destructors are left out.
    The file service that RemoteFiles.cpp uses outside Windows is a class of a library.
    A datagram or a timer of NearbyDevices.cpp is one step, in which the clock is read once,
    and the slots connected to its signals run after the step.
    In Client.cpp too the slots run after the step that emits, and what other objects answer
    is read at its start and again at its end; so in FileSystem.cpp, whose branches for
    Android are left out with its destructor. Next is AccountSession.cpp. Platform adapters
    (Objective-C++, JNI, Windows access control, DNS-SD, Bluetooth) and the calls of
    third-party libraries are left out. Failures of SQL statements, files and other objects are inputs of the
    models; the failure of memory allocation is not. *)
From Stdlib Require Export ZArith NArith Lia Bool Ascii String List.
From stdpp Require Export gmap strings fin_maps sorting option base tactics list.
Export ListNotations.
#[export] Set Default Goal Selector "!".
Set Warnings "-register-all".

Declare Scope society_scope.
Delimit Scope society_scope with soc.

(** Sequential composition of fallible steps: [let? x := a in b] stops with the
    failure of [a]; the source's early returns. *)
Notation "'let?' x ':=' a 'in' b" :=
  (match a with Some x => b | None => None end)
  (at level 10, x pattern, a at level 100, b at level 200, only parsing) : society_scope.
Open Scope society_scope.

(* Comparisons reduce by computation or by their specifications, not by [simpl]. *)
#[global] Arguments N.eqb : simpl never.
#[global] Arguments N.ltb : simpl never.
#[global] Arguments N.leb : simpl never.
#[global] Arguments Z.eqb : simpl never.
#[global] Arguments Z.ltb : simpl never.
#[global] Arguments Z.leb : simpl never.

(** ** Automation *)
Create HintDb society discriminated.

(** Split a conjunction of boolean guards that is known to hold. *)
Ltac bool_hyps :=
  repeat match goal with
  | H : (_ && _) = true |- _ => apply andb_true_iff in H; destruct H
  | H : (_ || _) = false |- _ => apply orb_false_iff in H; destruct H
  | H : negb _ = true |- _ => apply negb_true_iff in H
  | H : negb _ = false |- _ => apply negb_false_iff in H
  | H : bool_decide _ = true |- _ => apply bool_decide_eq_true in H
  | H : bool_decide _ = false |- _ => apply bool_decide_eq_false in H
  | H : (_ <? _)%Z = true |- _ => apply Z.ltb_lt in H
  | H : (_ <? _)%Z = false |- _ => apply Z.ltb_ge in H
  | H : (_ <=? _)%Z = true |- _ => apply Z.leb_le in H
  | H : (_ <=? _)%Z = false |- _ => apply Z.leb_gt in H
  | H : (_ =? _)%Z = true |- _ => apply Z.eqb_eq in H
  | H : (_ =? _)%Z = false |- _ => apply Z.eqb_neq in H
  end.

(** Case analysis on the guard of the first [if] of the goal, or of a hypothesis. *)
Ltac guard_case :=
  match goal with
  | |- context [if ?b then _ else _] => destruct b eqn:?
  end.
Ltac guard_case_in H :=
  match type of H with
  | context [if ?b then _ else _] => destruct b eqn:?
  end.

(** A closed literal is not in a closed list of literals. *)
Ltac not_listed H :=
  by repeat (apply elem_of_cons in H as [H|H]; [discriminate H|]); apply elem_of_nil in H.
(** Membership and other decidable facts of closed terms. *)
Ltac by_compute := by apply (bool_decide_unpack _); vm_compute.

(** ** Lists *)
Section list_lemmas.
Context {A : Type}.
Implicit Types l : list A.

Lemma last_app_singleton l x : last (l ++ [x]) = Some x.
Proof. rewrite last_snoc. done. Qed.

Lemma snoc_inv l : l = [] ∨ ∃ l' x, l = l' ++ [x].
Proof. destruct l as [|x l' _] using rev_ind; [by left|right; eauto]. Qed.

Lemma filter_none (P : A → Prop) `{!∀ x, Decision (P x)} l :
  Forall (λ x, ¬ P x) l → filter P l = [].
Proof.
  induction 1 as [|x l Hx _ IH]; [done|].
  by rewrite filter_cons, decide_False.
Qed.

Lemma filter_all (P : A → Prop) `{!∀ x, Decision (P x)} l :
  Forall P l → filter P l = l.
Proof.
  induction 1 as [|x l Hx _ IH]; [done|].
  by rewrite filter_cons, decide_True, IH.
Qed.

Lemma existsb_false l (f : A → bool) :
  existsb f l = false ↔ ∀ x, x ∈ l → f x = false.
Proof.
  split.
  - intros H x Hx. destruct (f x) eqn:E; [|done].
    assert (existsb f l = true) as H'; [|congruence].
    apply existsb_exists. exists x. split; [by apply list_elem_of_In|done].
  - intros H. destruct (existsb f l) eqn:E; [|done].
    apply existsb_exists in E as (x & Hx & Hf). apply list_elem_of_In in Hx.
    rewrite (H x Hx) in Hf. done.
Qed.

Lemma existsb_true l (f : A → bool) :
  existsb f l = true ↔ ∃ x, x ∈ l ∧ f x = true.
Proof.
  rewrite existsb_exists. split; intros (x & Hx & Hf); exists x; split; auto;
    by apply list_elem_of_In.
Qed.
(** The Standard Library's boolean filter. *)
Lemma list_elem_of_filter_bool (f : A → bool) l x : x ∈ List.filter f l ↔ f x = true ∧ x ∈ l.
Proof. rewrite !list_elem_of_In, filter_In. tauto. Qed.
Lemma filter_bool_sublist (f : A → bool) l : List.filter f l `sublist_of` l.
Proof. induction l as [|x l IH]; cbn; [done|]. destruct (f x); by constructor. Qed.
End list_lemmas.

(** Results paired with a state. *)
Lemma pair_inv {A B} (a a' : A) (b b' : B) : (a, b) = (a', b') → a' = a ∧ b' = b.
Proof. by intros [= -> ->]. Qed.
Lemma some_pair_inv {A B} (a a' : A) (b b' : B) : (Some a, b) = (Some a', b') → a' = a ∧ b' = b.
Proof. by intros [= -> ->]. Qed.

(** ** Machine integers *)
Definition int64_max : Z := 9223372036854775807.
Definition int64_min : Z := -9223372036854775808.
Definition wrap64 (z : Z) : Z := z mod 2 ^ 64.

Lemma wrap64_range z : (0 ≤ wrap64 z < 2 ^ 64)%Z.
Proof. unfold wrap64. apply Z.mod_pos_bound. lia. Qed.

Lemma wrap64_id z : (0 ≤ z < 2 ^ 64)%Z → wrap64 z = z.
Proof. intros. unfold wrap64. by apply Z.mod_small. Qed.
