(* ===== verification/Qt.v ===== *)
(** The Qt value types the sources are written with: [QString] as a list of
    UTF-16 code units, [QJsonValue]/[QJsonObject], and the decimal conversions.
    Only the operations the sources call are here, as documented by Qt. *)
From S2P Require Import Prelude.

(** ** Strings *)
Definition QString : Type := list N.
#[global] Instance QString_eq_dec : EqDecision QString := _.
#[global] Instance QString_countable : Countable QString := _.
#[global] Instance QString_inhabited : Inhabited QString := populate [].

(** A literal of the source. *)
Definition u (s : string) : QString := map N_of_ascii (list_ascii_of_string s).

#[global] Arguments u : simpl never.

Lemma u_inj (a b : string) : u a = u b → a = b.
Proof.
  unfold u. intros H.
  rewrite <- (string_of_list_ascii_of_string a), <- (string_of_list_ascii_of_string b).
  f_equal. apply (f_equal (map ascii_of_N)) in H. rewrite !map_map in H.
  assert (∀ l, map (λ c, ascii_of_N (N_of_ascii c)) l = l) as E.
  { induction l as [|c l IH]; simpl; [done|]. by rewrite ascii_N_embedding, IH. }
  by rewrite !E in H.
Qed.

#[global] Instance u_Inj : Inj (=) (=) u := u_inj.

(** Two different literals are different strings. *)
Ltac lit_ne :=
  let H := fresh in intros H; apply u_inj in H; discriminate H.
#[export] Hint Extern 1 (u _ ≠ u _) => lit_ne : society.
#[export] Hint Extern 1 (u _ = u _ → False) => lit_ne : society.

Definition slash : N := 47.
Definition qsize (s : QString) : Z := Z.of_nat (List.length s).
Definition isEmpty (s : QString) : bool := bool_decide (s = []).

Definition highSurrogate (c : N) : bool := (55296 <=? c)%N && (c <=? 56319)%N.
Definition lowSurrogate (c : N) : bool := (56320 <=? c)%N && (c <=? 57343)%N.

(** QString::isValidUtf16: every surrogate is one of a pair. *)
Fixpoint isValidUtf16 (s : QString) : bool :=
  match s with
  | [] => true
  | c :: r =>
      if highSurrogate c then
        match r with
        | d :: r' => lowSurrogate d && isValidUtf16 r'
        | [] => false
        end
      else if lowSurrogate c then false else isValidUtf16 r
  end.

(** Bytes of the UTF-8 form of a valid UTF-16 string: each unit of a surrogate
    pair accounts for two of the pair's four bytes. *)
Definition utf8Units (c : N) : Z :=
  if (c <? 128)%N then 1 else if (c <? 2048)%N then 2
  else if highSurrogate c || lowSurrogate c then 2 else 3.
Definition utf8Size (s : QString) : Z := fold_right (λ c n, utf8Units c + n)%Z 0%Z s.

(** QString::toUtf8: the UTF-8 form; a lone surrogate becomes a question mark. *)
Definition utf8Of (c : N) : list N :=
  if (c <? 128)%N then [c]
  else if (c <? 2048)%N then [192 + c / 64; 128 + c mod 64]%N
  else if (c <? 65536)%N then [224 + c / 4096; 128 + c / 64 mod 64; 128 + c mod 64]%N
  else [240 + c / 262144; 128 + c / 4096 mod 64; 128 + c / 64 mod 64; 128 + c mod 64]%N.
Fixpoint toUtf8 (s : QString) : list N :=
  match s with
  | [] => []
  | c :: r =>
      if highSurrogate c then
        match r with
        | d :: r' => if lowSurrogate d
                     then utf8Of (65536 + (c - 55296) * 1024 + (d - 56320))%N ++ toUtf8 r'
                     else 63%N :: toUtf8 r
        | [] => [63%N]
        end
      else if lowSurrogate c then 63%N :: toUtf8 r else utf8Of c ++ toUtf8 r
  end.

Definition containsChar (c : N) (s : QString) : bool := existsb (N.eqb c) s.
Definition countChar (c : N) (s : QString) : Z :=
  Z.of_nat (List.length (List.filter (N.eqb c) s)).

Fixpoint startsWith (s prefix : QString) : bool :=
  match prefix, s with
  | [], _ => true
  | p :: prefix', c :: s' => (c =? p)%N && startsWith s' prefix'
  | _ :: _, [] => false
  end.
Definition endsWith (s suffix : QString) : bool :=
  startsWith (reverse s) (reverse suffix).
(** QString::contains of a substring. *)
Fixpoint containsStr (s pat : QString) : bool :=
  startsWith s pat || match s with [] => false | _ :: s' => containsStr s' pat end.

(** QString::split with KeepEmptyParts: never empty. *)
Fixpoint qsplit (c : N) (s : QString) : list QString :=
  match s with
  | [] => [[]]
  | x :: s' =>
      match qsplit c s' with
      | part :: rest => if (x =? c)%N then [] :: part :: rest else (x :: part) :: rest
      | [] => [[]]
      end
  end.
Fixpoint qjoin (c : N) (parts : list QString) : QString :=
  match parts with
  | [] => []
  | [p] => p
  | p :: rest => p ++ c :: qjoin c rest
  end.
(** QString::section(c, 0, 0), section(c, 1) and section(c, -1). *)
Definition sectionFirst (c : N) (s : QString) : QString := default [] (head (qsplit c s)).
Definition sectionTail (c : N) (s : QString) : QString := qjoin c (tail (qsplit c s)).
Definition sectionLast (c : N) (s : QString) : QString := default [] (last (qsplit c s)).

(** QString::left: the whole string when [n] is out of range. *)
Definition qleft (n : Z) (s : QString) : QString :=
  if (n <? 0)%Z then s else take (Z.to_nat n) s.
Definition qmid (pos : Z) (s : QString) : QString := drop (Z.to_nat pos) s.
Fixpoint lastIndexOf_go (c : N) (s : QString) (i acc : Z) : Z :=
  match s with
  | [] => acc
  | x :: s' => lastIndexOf_go c s' (i + 1) (if (x =? c)%N then i else acc)
  end.
Definition lastIndexOf (c : N) (s : QString) : Z := lastIndexOf_go c s 0 (-1).

(** QString's operator<: lexicographic on code units. *)
Fixpoint qlt (a b : QString) : bool :=
  match a, b with
  | _, [] => false
  | [], _ :: _ => true
  | x :: a', y :: b' => if (x <? y)%N then true else if (y <? x)%N then false else qlt a' b'
  end.

(** QString::removeDuplicates keeps the first occurrence of each string. *)
Fixpoint removeDuplicates (l : list QString) : list QString :=
  match l with
  | [] => []
  | x :: r => x :: List.filter (λ y, bool_decide (y ≠ x)) (removeDuplicates r)
  end.

(** ** Decimal conversions *)
Definition isDigit (c : N) : bool := (48 <=? c)%N && (c <=? 57)%N.
(** QChar::isSpace. *)
Definition isSpace (c : N) : bool :=
  ((9 <=? c)%N && (c <=? 13)%N) || (c =? 32)%N || (c =? 133)%N || (c =? 160)%N
  || (c =? 5760)%N || ((8192 <=? c)%N && (c <=? 8202)%N) || (c =? 8232)%N || (c =? 8233)%N
  || (c =? 8239)%N || (c =? 8287)%N || (c =? 12288)%N.
Fixpoint dropSpace (s : QString) : QString :=
  match s with
  | [] => []
  | c :: r => if isSpace c then dropSpace r else s
  end.
Definition trimmed (s : QString) : QString := reverse (dropSpace (reverse (dropSpace s))).

Fixpoint digits (acc : Z) (s : QString) : option Z :=
  match s with
  | [] => Some acc
  | c :: r => if isDigit c then digits (acc * 10 + (Z.of_N c - 48)) r else None
  end.
Definition unsignedNumber (s : QString) : option Z :=
  match s with [] => None | _ => digits 0 s end.
(** QString::toLongLong in base 10 and the C locale: surrounding white space and
    one sign are accepted, anything else or a value out of range is refused. *)
Definition toLongLong (s : QString) : option Z :=
  let? n := match trimmed s with
            | c :: r => if (c =? 45)%N then Z.opp <$> unsignedNumber r
                        else if (c =? 43)%N then unsignedNumber r
                        else unsignedNumber (c :: r)
            | [] => None
            end in
  if (int64_min <=? n)%Z && (n <=? int64_max)%Z then Some n else None.
(** The value without the flag: zero when the conversion fails. *)
Definition toLongLong0 (s : QString) : Z := default 0%Z (toLongLong s).

(** QString::number in base 10. *)
Fixpoint decimal_go (fuel : nat) (n : Z) (acc : QString) : QString :=
  match fuel with
  | O => acc
  | S fuel' =>
      let acc' := Z.to_N (48 + n mod 10) :: acc in
      if (n <? 10)%Z then acc' else decimal_go fuel' (n / 10) acc'
  end.
Definition decimal (n : Z) : QString := decimal_go (S (Z.to_nat (Z.log2 n))) n [].
Definition numberStr (n : Z) : QString :=
  if (n <? 0)%Z then 45%N :: decimal (- n) else decimal n.

(** ** JSON values *)
(** QJsonValue. A number with an integral value is [JNum]; one without is
    [JFrac n d] for the reduced fraction n/d. A QJsonObject is a finite map. *)
Inductive jval :=
| JUndef
| JNull
| JBool (b : bool)
| JNum (z : Z)
| JFrac (n : Z) (d : positive)
| JStr (s : QString)
| JArr (l : list jval)
| JObj (m : gmap QString jval).

Abbreviation jobj := (gmap QString jval).

#[global] Instance jval_eq_dec : EqDecision jval.
Proof.
  refine (fix go x y :=
    let _ : EqDecision jval := @go in
    match x, y with
    | JUndef, JUndef => left _
    | JNull, JNull => left _
    | JBool a, JBool b => cast_if (decide (a = b))
    | JNum a, JNum b => cast_if (decide (a = b))
    | JFrac a c, JFrac b d => cast_if_and (decide (a = b)) (decide (c = d))
    | JStr a, JStr b => cast_if (decide (a = b))
    | JArr a, JArr b => cast_if (decide (a = b))
    | JObj a, JObj b => cast_if (decide (a = b))
    | _, _ => right _
    end); abstract congruence.
Defined.
#[global] Instance jval_inhabited : Inhabited jval := populate JUndef.

Definition JS (s : string) : jval := JStr (u s).

(** QJsonObject::value: undefined for an absent key. *)
Definition jvalue (o : jobj) (k : string) : jval := default JUndef (o !! u k).
Notation "o .[ k ]" := (jvalue o k) (at level 1, format "o .[ k ]") : society_scope.
(** QJsonObject::contains, insert (an undefined value removes the key), remove. *)
Definition jcontains (o : jobj) (k : string) : bool := bool_decide (is_Some (o !! u k)).
Definition jset (o : jobj) (k : QString) (v : jval) : jobj :=
  match v with JUndef => delete k o | _ => <[k := v]> o end.
Definition jinsert (o : jobj) (k : string) (v : jval) : jobj := jset o (u k) v.
Definition jremove (o : jobj) (k : string) : jobj := delete (u k) o.
(** The initializer list of a QJsonObject inserts its pairs in order. *)
Definition obj (l : list (string * jval)) : jobj :=
  foldl (λ o kv, jinsert o kv.1 kv.2) ∅ l.
Definition jempty (o : jobj) : bool := bool_decide (o = ∅).

Definition toStr (v : jval) : QString := match v with JStr s => s | _ => [] end.
Definition toStrOr (d : QString) (v : jval) : QString := match v with JStr s => s | _ => d end.
Definition toBool (v : jval) : bool := match v with JBool b => b | _ => false end.
(** QJsonValue::toInt: the default unless the number is an integral int. *)
Definition toIntOr (d : Z) (v : jval) : Z :=
  match v with
  | JNum z => if (-2147483648 <=? z)%Z && (z <=? 2147483647)%Z then z else d
  | _ => d
  end.
Definition toInt (v : jval) : Z := toIntOr 0 v.
Definition toIntegerOr (d : Z) (v : jval) : Z :=
  match v with
  | JNum z => if (int64_min <=? z)%Z && (z <=? int64_max)%Z then z else d
  | _ => d
  end.
Definition toObj (v : jval) : jobj := match v with JObj m => m | _ => ∅ end.
Definition toArr (v : jval) : list jval := match v with JArr l => l | _ => [] end.
Definition isString (v : jval) : bool := match v with JStr _ => true | _ => false end.
Definition isArray (v : jval) : bool := match v with JArr _ => true | _ => false end.
Definition isObject (v : jval) : bool := match v with JObj _ => true | _ => false end.
Definition isBool (v : jval) : bool := match v with JBool _ => true | _ => false end.
Definition isDouble (v : jval) : bool :=
  match v with JNum _ | JFrac _ _ => true | _ => false end.
(** The keys of an object; Qt lists them in ascending order. *)
Definition qle (a b : QString) : Prop := qlt b a = false.
#[global] Instance qle_dec : RelDecision qle := λ a b, decide (qlt b a = false).
Definition jkeys (o : jobj) : list QString := merge_sort qle (map fst (map_to_list o)).

(** The numbers the protocol exchanges are decimal strings. *)
Definition jnum (n : Z) : jval := JStr (numberStr n).
Definition jlong (v : jval) : Z := toLongLong0 (toStr v).

(** ** Lemmas: decimal round trip *)
Lemma digits_app a s t : digits a (s ++ t) = (let? b := digits a s in digits b t).
Proof.
  revert a. induction s as [|c s IH]; intros a; simpl; [done|].
  destruct (isDigit c); [apply IH|done].
Qed.

Lemma isDigit_digit n : (0 ≤ n)%Z → isDigit (Z.to_N (48 + n mod 10)) = true.
Proof.
  intros Hn. unfold isDigit. pose proof (Z.mod_pos_bound n 10 ltac:(lia)).
  apply andb_true_iff. split; apply N.leb_le; lia.
Qed.

Lemma isDigit_isSpace c : isDigit c = true → isSpace c = false.
Proof.
  unfold isDigit, isSpace. intros H. apply andb_true_iff in H as [H1 H2].
  apply N.leb_le in H1, H2.
  repeat rewrite ?orb_false_iff, ?andb_false_iff, ?N.eqb_neq, ?N.leb_gt. lia.
Qed.

Lemma decimal_go_spec fuel n acc :
  (0 ≤ n < 2 ^ Z.of_nat fuel)%Z → fuel ≠ O →
  ∃ d, decimal_go fuel n acc = d ++ acc ∧ d ≠ [] ∧ Forall (λ c, isDigit c = true) d
       ∧ ∀ a, digits a d = Some (a * 10 ^ Z.of_nat (List.length d) + n)%Z.
Proof.
  revert n acc. induction fuel as [|fuel IH]; intros n acc Hn Hf; [done|]. cbn [decimal_go].
  pose proof (isDigit_digit n ltac:(lia)) as Hd.
  assert (Hv : (Z.of_N (Z.to_N (48 + n mod 10)) - 48 = n mod 10)%Z).
  { clear -Hn. pose proof (Z.mod_pos_bound n 10 ltac:(lia)). lia. }
  destruct (Z.ltb_spec n 10).
  - exists [Z.to_N (48 + n mod 10)]. split_and!; [done|done|by constructor|].
    intros a. cbn [digits]. rewrite Hd, Hv, Z.mod_small by lia. simpl. f_equal; lia.
  - assert (fuel ≠ O) as Hf'.
    { intros ->. change (2 ^ Z.of_nat 1)%Z with 2%Z in Hn. lia. }
    assert (0 ≤ n / 10 < 2 ^ Z.of_nat fuel)%Z as Hn'.
    { split; [apply Z.div_pos; lia|]. apply Z.div_lt_upper_bound; [lia|].
      rewrite Nat2Z.inj_succ, Z.pow_succ_r in Hn by lia. lia. }
    destruct (IH (n / 10)%Z (Z.to_N (48 + n mod 10) :: acc) Hn' Hf') as (d & -> & Hne & Hall & Hdig).
    exists (d ++ [Z.to_N (48 + n mod 10)]). split_and!.
    + by rewrite <- app_assoc.
    + by destruct d.
    + apply Forall_app. split; [done|by constructor].
    + intros a. rewrite digits_app, Hdig. cbn [digits]. rewrite Hd, Hv. f_equal.
      rewrite length_app, Nat2Z.inj_add. cbn [List.length].
      rewrite Z.pow_add_r by lia. change (10 ^ Z.of_nat 1)%Z with 10%Z.
      pose proof (Z.div_mod n 10 ltac:(lia)). lia.
Qed.

Lemma decimal_spec n :
  (0 ≤ n)%Z →
  decimal n ≠ [] ∧ Forall (λ c, isDigit c = true) (decimal n) ∧ digits 0 (decimal n) = Some n.
Proof.
  intros Hn. unfold decimal.
  destruct (decimal_go_spec (S (Z.to_nat (Z.log2 n))) n []) as (d & E & Hne & Hall & Hd).
  - split; [done|]. rewrite Nat2Z.inj_succ, Z2Nat.id by apply Z.log2_nonneg.
    destruct (decide (n = 0%Z)) as [->|]; [done|]. apply Z.log2_spec. lia.
  - done.
  - rewrite app_nil_r in E. rewrite E. by rewrite Hd.
Qed.

Lemma trimmed_id s : Forall (λ c, isSpace c = false) s → trimmed s = s.
Proof.
  assert (∀ l, Forall (λ c, isSpace c = false) l → dropSpace l = l) as E.
  { intros l Hl. destruct Hl as [|c l Hc _]; simpl; [done|]. by rewrite Hc. }
  intros H. unfold trimmed. rewrite (E s) by done.
  rewrite E by (by apply Forall_reverse). apply reverse_involutive.
Qed.

Lemma toLongLong_numberStr n :
  (int64_min ≤ n ≤ int64_max)%Z → toLongLong (numberStr n) = Some n.
Proof.
  intros Hn. unfold numberStr, toLongLong.
  assert (∀ m, (0 ≤ m)%Z → unsignedNumber (decimal m) = Some m) as Hu.
  { intros m Hm. destruct (decimal_spec m Hm) as (Hne & _ & Hd). unfold unsignedNumber.
    by destruct (decimal m). }
  destruct (Z.ltb_spec n 0).
  - destruct (decimal_spec (- n)) as (Hne & Hall & Hd); [lia|].
    rewrite trimmed_id.
    + rewrite N.eqb_refl, Hu by lia. change (Z.opp <$> Some (- n)%Z) with (Some (- - n)%Z).
      rewrite Z.opp_involutive.
      rewrite (proj2 (Z.leb_le _ _)), (proj2 (Z.leb_le _ _)) by lia. done.
    + constructor; [done|]. eapply Forall_impl; [exact Hall|]. apply isDigit_isSpace.
  - destruct (decimal_spec n) as (Hne & Hall & Hd); [lia|].
    rewrite trimmed_id.
    2:{ eapply Forall_impl; [exact Hall|]. apply isDigit_isSpace. }
    specialize (Hu n ltac:(lia)). destruct (decimal n) as [|c r]; [done|].
    assert (isDigit c = true) as Hc by (by inversion Hall).
    unfold isDigit in Hc. apply andb_true_iff in Hc as [H1 H2]. apply N.leb_le in H1, H2.
    rewrite (proj2 (N.eqb_neq c 45)), (proj2 (N.eqb_neq c 43)), Hu by lia.
    rewrite (proj2 (Z.leb_le _ _)), (proj2 (Z.leb_le _ _)) by lia. done.
Qed.

Lemma jlong_range v : (int64_min ≤ jlong v ≤ int64_max)%Z.
Proof.
  unfold jlong, toLongLong0. destruct (toLongLong (toStr v)) as [n|] eqn:E; cbn; [|by split].
  unfold toLongLong in E. repeat case_match; try done; bool_hyps; simplify_eq; lia.
Qed.
Lemma jlong_jnum n : (int64_min ≤ n ≤ int64_max)%Z → jlong (jnum n) = n.
Proof. intros. unfold jlong, jnum, toLongLong0. cbn. by rewrite toLongLong_numberStr. Qed.

(** ** Lemmas: objects *)
Lemma jvalue_jinsert_eq o k v : (jinsert o k v).[k] = v.
Proof.
  unfold jvalue, jinsert, jset. destruct v; by simplify_map_eq.
Qed.

Lemma jvalue_jinsert_ne o k k' v : k ≠ k' → (jinsert o k v).[k'] = o.[k'].
Proof.
  intros Hk. assert (u k ≠ u k') by (by intros ?%u_inj).
  unfold jvalue, jinsert, jset. destruct v; by simplify_map_eq.
Qed.

Lemma jvalue_jremove_eq o k : (jremove o k).[k] = JUndef.
Proof. unfold jvalue, jremove. by simplify_map_eq. Qed.

Lemma jvalue_jremove_ne o k k' : k ≠ k' → (jremove o k).[k'] = o.[k'].
Proof.
  intros Hk. assert (u k ≠ u k') by (by intros ?%u_inj).
  unfold jvalue, jremove. by simplify_map_eq.
Qed.

Lemma jvalue_empty k : jvalue ∅ k = JUndef.
Proof. unfold jvalue. by rewrite lookup_empty. Qed.

(** A key of an initializer list: the last pair that names it. *)
Fixpoint jassoc (l : list (string * jval)) (k : string) (d : jval) : jval :=
  match l with
  | [] => d
  | (k', v) :: l' => jassoc l' k (if String.eqb k' k then v else d)
  end.

Lemma jvalue_obj l k : (obj l).[k] = jassoc l k JUndef.
Proof.
  unfold obj. rewrite <- (jvalue_empty k). generalize (∅ : jobj) as o.
  induction l as [|[k' v] l IH]; intros o; cbn [foldl jassoc]; [done|].
  rewrite IH. f_equal. cbn. destruct (String.eqb_spec k' k) as [->|].
  - apply jvalue_jinsert_eq.
  - by apply jvalue_jinsert_ne.
Qed.

Lemma jinsert_id o k v : v ≠ JUndef → o !! u k = Some v → jinsert o k v = o.
Proof. intros Hv Hk. unfold jinsert, jset. destruct v; try done; by apply insert_id. Qed.

(** Evaluate the lookup of closed keys in objects built by the source. *)
Lemma jinsert_lookup o k v : v ≠ JUndef → jinsert o k v !! u k = Some v.
Proof. unfold jinsert, jset. destruct v; by simplify_map_eq. Qed.

Lemma jremove_jinsert o k v : jremove (jinsert o k v) k = jremove o k.
Proof.
  unfold jremove, jinsert, jset. destruct v; by rewrite ?delete_insert_eq, ?delete_delete_eq.
Qed.

Lemma jremove_jremove o k : jremove (jremove o k) k = jremove o k.
Proof. apply delete_delete_eq. Qed.

(** Taking a member out and putting it back. *)
Lemma jinsert_jremove o k v : v ≠ JUndef → o.[k] = v → jinsert (jremove o k) k v = o.
Proof.
  intros Hv E. unfold jvalue in E. destruct (o !! u k) as [w|] eqn:Ek; cbn in E; [|congruence].
  subst w. unfold jinsert, jset, jremove.
  destruct v; try done; rewrite insert_delete_eq; by apply insert_id.
Qed.

Lemma jinsert_lookup_ne o k k' v : k ≠ k' → jinsert o k v !! u k' = o !! u k'.
Proof.
  intros Hk. assert (u k ≠ u k') by (intros E; by apply u_inj in E).
  unfold jinsert, jset. destruct v; by simplify_map_eq.
Qed.

(** A member the initializer does not name is absent. *)
Lemma obj_absent l k : forallb (λ kv, negb (String.eqb kv.1 k)) l = true → obj l !! u k = None.
Proof.
  induction l as [|[k' v] l IH] using rev_ind; intros H; [done|].
  rewrite forallb_app in H. cbn in H. bool_hyps. unfold obj. rewrite foldl_app. cbn [foldl fst snd].
  rewrite jinsert_lookup_ne; [by apply IH|]. by apply String.eqb_neq.
Qed.

Lemma jremove_obj l k : forallb (λ kv, negb (String.eqb kv.1 k)) l = true → jremove (obj l) k = obj l.
Proof. intros H. unfold jremove. by rewrite delete_id by (by apply obj_absent). Qed.

Lemma jinsert_nonempty o k v : v ≠ JUndef → jempty (jinsert o k v) = false.
Proof.
  intros Hv. unfold jempty. apply bool_decide_eq_false. intros E.
  pose proof (jinsert_lookup o k v Hv) as H. by rewrite E, lookup_empty in H.
Qed.

Ltac jsimp :=
  repeat first
    [ rewrite jvalue_jinsert_eq
    | rewrite jvalue_jinsert_ne by (intros ?; discriminate)
    | rewrite jvalue_jremove_eq
    | rewrite jvalue_jremove_ne by (intros ?; discriminate)
    | rewrite jvalue_obj; cbn [jassoc String.eqb Ascii.eqb Bool.eqb] ].
Tactic Notation "jsimp" "in" hyp(H) :=
  repeat first
    [ rewrite jvalue_jinsert_eq in H
    | rewrite jvalue_jinsert_ne in H by (intros ?; discriminate)
    | rewrite jvalue_jremove_eq in H
    | rewrite jvalue_jremove_ne in H by (intros ?; discriminate)
    | rewrite jvalue_obj in H; cbn [jassoc String.eqb Ascii.eqb Bool.eqb] in H ].

(** ** Lemmas: splitting at a separator *)
Lemma qsplit_nonempty c s : qsplit c s ≠ [].
Proof. induction s as [|x s IH]; cbn; [done|]. destruct (qsplit c s); [done|]. by case_match. Qed.

Lemma qsplit_cons c s : ∃ p r, qsplit c s = p :: r.
Proof. pose proof (qsplit_nonempty c s). destruct (qsplit c s) as [|p r]; [done|eauto]. Qed.

Lemma qjoin_qsplit c s : qjoin c (qsplit c s) = s.
Proof.
  induction s as [|x s IH]; [done|]. cbn. destruct (qsplit_cons c s) as (p & r & E). rewrite E in *.
  destruct (N.eqb_spec x c) as [->|].
  - change (qjoin c ([] :: p :: r)) with (c :: qjoin c (p :: r)). by rewrite IH.
  - destruct r as [|p' r]; cbn in *; by rewrite IH.
Qed.

Lemma qsplit_no_sep c s : Forall (λ p, c ∉ p) (qsplit c s).
Proof.
  induction s as [|x s IH]; cbn; [by repeat constructor; apply not_elem_of_nil|].
  destruct (qsplit_cons c s) as (p & r & E). rewrite E in *. apply Forall_cons in IH as [Hp Hr].
  destruct (N.eqb_spec x c) as [->|].
  - repeat constructor; [apply not_elem_of_nil|done|done].
  - constructor; [|done]. rewrite not_elem_of_cons. split; [congruence|done].
Qed.

Lemma qsplit_sep c p s : c ∉ p → qsplit c (p ++ c :: s) = p :: qsplit c s.
Proof.
  induction p as [|x p IH]; intros Hp; cbn.
  - rewrite N.eqb_refl. by destruct (qsplit_cons c s) as (p & r & ->).
  - apply not_elem_of_cons in Hp as [Hx Hp]. rewrite IH by done.
    by rewrite (proj2 (N.eqb_neq x c)) by congruence.
Qed.

Lemma qsplit_single c p : c ∉ p → qsplit c p = [p].
Proof.
  induction p as [|x p IH]; intros Hp; cbn; [done|].
  apply not_elem_of_cons in Hp as [Hx Hp]. rewrite IH by done.
  by rewrite (proj2 (N.eqb_neq x c)) by congruence.
Qed.

Lemma containsChar_elem c s : containsChar c s = true ↔ c ∈ s.
Proof.
  unfold containsChar. rewrite existsb_true. split.
  - by intros (x & Hx & ->%N.eqb_eq).
  - intros H. exists c. by rewrite N.eqb_refl.
Qed.
Lemma containsChar_false c s : containsChar c s = false ↔ c ∉ s.
Proof. rewrite <- containsChar_elem. by destruct (containsChar c s). Qed.

(** A string with a separator is its first section, the separator and the rest. *)
Lemma section_decompose c s :
  c ∈ s → (s = sectionFirst c s ++ c :: sectionTail c s) ∧ (c ∉ sectionFirst c s)
          ∧ (qsplit c s = sectionFirst c s :: qsplit c (sectionTail c s)).
Proof.
  intros (p & t & -> & Hp)%list_elem_of_split_l.
  unfold sectionFirst, sectionTail. rewrite qsplit_sep by done. cbn. by rewrite qjoin_qsplit.
Qed.

(** ... and everything before the last separator, the separator and the last section. *)
Lemma last_section_decompose c s :
  ∃ pre, qsplit c s = pre ++ [sectionLast c s]
         ∧ s = concat (map (λ p, p ++ [c]) pre) ++ sectionLast c s ∧ c ∉ sectionLast c s.
Proof.
  unfold sectionLast. destruct (snoc_inv (qsplit c s)) as [E|(pre & x & E)];
    [by apply qsplit_nonempty in E|].
  exists pre. pose proof (qsplit_no_sep c s) as Hn. pose proof (qjoin_qsplit c s) as J.
  rewrite E, last_snoc in *. cbn. apply Forall_app in Hn as [_ Hx]. apply Forall_cons in Hx as [Hx _].
  split_and!; [done| |done]. rewrite <- J. clear.
  induction pre as [|p pre IH]; [done|]. cbn [concat map app].
  rewrite <- !app_assoc. cbn [app]. rewrite <- IH. clear IH.
  by destruct pre as [|p' pre].
Qed.

Lemma lastIndexOf_go_none c s i acc : c ∉ s → lastIndexOf_go c s i acc = acc.
Proof.
  revert i acc. induction s as [|x s IH]; intros i acc Hs; cbn; [done|].
  apply not_elem_of_cons in Hs as [Hx Hs]. rewrite IH by done.
  by rewrite (proj2 (N.eqb_neq x c)) by congruence.
Qed.
Lemma lastIndexOf_go_sep c p s i acc :
  c ∉ s → lastIndexOf_go c (p ++ c :: s) i acc = (i + Z.of_nat (List.length p))%Z.
Proof.
  intros Hs. revert i acc. induction p as [|x p IH]; intros i acc; cbn.
  - rewrite N.eqb_refl, lastIndexOf_go_none by done. lia.
  - rewrite IH. lia.
Qed.

(** [path.left(path.lastIndexOf('/') + 1)]: everything up to the last section. *)
Lemma directory_prefix c s pre :
  qsplit c s = pre ++ [sectionLast c s] →
  qleft (lastIndexOf c s + 1) s = concat (map (λ p, p ++ [c]) pre).
Proof.
  intros E. destruct (last_section_decompose c s) as (pre' & E' & Hs & Hn).
  rewrite E in E'. apply app_inj_tail in E' as [<- _].
  destruct (snoc_inv pre) as [->|(pre' & x & ->)].
  - cbn in *. unfold lastIndexOf. rewrite lastIndexOf_go_none by (by rewrite Hs).
    unfold qleft. change (-1 + 1 <? 0)%Z with false. cbn. by rewrite take_0.
  - rewrite map_app, concat_app in *. cbn [map concat] in *. rewrite app_nil_r in *.
    set (d := concat _) in *. rewrite <- app_assoc in Hs. cbn in Hs. rewrite <- app_assoc in Hs.
    unfold lastIndexOf. rewrite Hs at 1. rewrite app_assoc.
    change ([c] ++ sectionLast c s) with (c :: sectionLast c s).
    rewrite lastIndexOf_go_sep by done. unfold qleft.
    rewrite (proj2 (Z.ltb_ge _ _)) by lia. rewrite Hs.
    change ([c] ++ sectionLast c s) with (c :: sectionLast c s).
    replace (d ++ x ++ c :: sectionLast c s) with (((d ++ x) ++ [c]) ++ sectionLast c s)
      by (by rewrite <- !app_assoc).
    rewrite take_app_length'; [by rewrite app_assoc|].
    rewrite !length_app. cbn. lia.
Qed.

Lemma qleft_take n s : (0 ≤ n)%Z → qleft n s = take (Z.to_nat n) s.
Proof. intros. unfold qleft. by rewrite (proj2 (Z.ltb_ge _ _)) by lia. Qed.

(** ** Lemmas: the order of strings *)
Lemma qlt_asym a b : qlt a b = true → qlt b a = false.
Proof.
  revert b. induction a as [|x a IH]; intros [|y b]; cbn; try done.
  destruct (N.ltb_spec x y), (N.ltb_spec y x); try done; try lia. apply IH.
Qed.
Lemma qlt_total a b : a ≠ b → qlt a b = true ∨ qlt b a = true.
Proof.
  revert b. induction a as [|x a IH]; intros [|y b] H; cbn; auto.
  destruct (N.ltb_spec x y), (N.ltb_spec y x); auto. apply IH. intros ->. apply H. f_equal. lia.
Qed.

(** ** Lemmas: prefixes and UTF-16 *)
Lemma startsWith_spec s p : startsWith s p = true ↔ (p `prefix_of` s).
Proof.
  revert s. induction p as [|x p IH]; intros s; cbn.
  - split; [intros _; apply prefix_nil|by destruct s].
  - destruct s as [|c s]; [split; [done|intros []%prefix_nil_not]|].
    cbn. rewrite andb_true_iff, N.eqb_eq, IH. split.
    + intros [-> H]. by apply prefix_cons.
    + intros H. split; [by apply prefix_cons_inv_1 in H|by apply prefix_cons_inv_2 in H].
Qed.

Lemma isValidUtf16_app s t :
  isValidUtf16 s = true → isValidUtf16 (s ++ t) = isValidUtf16 t.
Proof.
  remember (List.length s) as n eqn:Hn. revert s Hn.
  induction n as [n IH] using lt_wf_ind. intros s -> Hs.
  destruct s as [|c s]; [done|]. cbn in *.
  destruct (highSurrogate c).
  - destruct s as [|d s]; [done|]. cbn in *. bool_hyps. rewrite H. cbn. apply (IH (List.length s)); [lia|done|done].
  - destruct (lowSurrogate c); [done|]. apply (IH (List.length s)); [lia|done|done].
Qed.

(** Cutting a valid string after a unit that is not half of a pair. *)
Lemma isValidUtf16_cut s c t :
  highSurrogate c = false → lowSurrogate c = false →
  isValidUtf16 (s ++ c :: t) = true → isValidUtf16 s = true ∧ isValidUtf16 t = true.
Proof.
  intros Hh Hl. remember (List.length s) as n eqn:Hn. revert s Hn.
  induction n as [n IH] using lt_wf_ind. intros s -> Hs.
  destruct s as [|x s]; cbn in *; [rewrite Hh, Hl in Hs; done|].
  destruct (highSurrogate x).
  - destruct s as [|d s]; cbn in *.
    + bool_hyps. congruence.
    + bool_hyps. rewrite H. cbn. apply (IH (List.length s)); [lia|done|done].
  - destruct (lowSurrogate x); [done|]. apply (IH (List.length s)); [lia|done|done].
Qed.

Lemma utf8Size_app s t : utf8Size (s ++ t) = (utf8Size s + utf8Size t)%Z.
Proof. unfold utf8Size. induction s as [|c s IH]; cbn; [done|]. rewrite IH. lia. Qed.
Lemma utf8Size_nonneg s : (0 ≤ utf8Size s)%Z.
Proof.
  induction s as [|c s IH]; cbn; [done|]. fold (utf8Size s).
  unfold utf8Units. repeat case_match; lia.
Qed.
