(* ===== verification/Records.v ===== *)
(** Replication records: the vocabulary of src/Sync/Replica.cpp's anonymous
    namespace and [Replica::validRecord].  A record is a JSON object with a
    path, a kind, a size, a content hash, a vector clock and the digest that
    names this version of it. *)
From S2P Require Import Prelude Qt.
Open Scope Z_scope.

(** ** What the code takes from its libraries
    [toJson] is the compact form of QJsonDocument, [sha256] the digest of
    QCryptographicHash, [parseUuid] the QUuid constructor (nothing for a null
    identifier, else its text without braces) and [sections] the package
    iiSocietyContainer's allStoreSections() as pairs of key and directory name. *)
Class Platform := {
  toJson : jobj → list N;
  sha256 : list N → list N;
  parseUuid : QString → option QString;
  sections : list (QString * QString)
}.

(** A path component: not empty, no separator. *)
Definition component (s : QString) : Prop := s ≠ [] ∧ slash ∉ s.

Class PlatformLaws {PF : Platform} := {
  (** Compact JSON does not grow when members are left out. *)
  toJson_mono (a b : jobj) : a ⊆ b → (List.length (toJson a) ≤ List.length (toJson b))%nat;
  sha256_length b : List.length (sha256 b) = 32%nat;
  sha256_bytes b : Forall (λ c, (c < 256)%N) (sha256 b);
  sections_keys : NoDup sections.*1;
  sections_names : NoDup sections.*2;
  (** No area has the name of the replica's own directory. *)
  sections_public : Forall (λ s : QString * QString, s.2 ≠ u ".society-sync") sections;
  sections_components : Forall (λ s, component s.1 ∧ component s.2) sections
}.

Module Records.
Section with_platform.
Context {PF : Platform}.

Definition MaxCounter : Z := 9007199254740991.
Definition json (o : jobj) : list N := toJson o.

(** QByteArray::toHex. *)
Definition hexDigit (n : N) : N := if (n <? 10)%N then (48 + n)%N else (87 + n)%N.
Definition toHex (b : list N) : QString :=
  flat_map (λ c, [hexDigit (c / 16); hexDigit (c mod 16)]%N) b.
Definition digest (bytes : list N) : QString := toHex (sha256 bytes).

Definition hexChar (c : N) : bool :=
  ((97 <=? c)%N && (c <=? 102)%N) || ((48 <=? c)%N && (c <=? 57)%N).
Definition hex (s : QString) : bool := (qsize s =? 64) && forallb hexChar s.

(** A counter of the protocol: a decimal string of a non-negative safe integer. *)
Definition number (v : jval) : option Z :=
  let? n := toLongLong (toStr v) in
  if (0 <=? n) && (n <=? MaxCounter) then Some n else None.

Definition payload (e : jobj) : jobj :=
  obj [("path", e.["path"]); ("kind", e.["kind"]); ("size", e.["size"]);
       ("hash", e.["hash"]); ("clock", e.["clock"])]%string.
Definition versioned (e : jobj) : jobj :=
  let e := payload e in jinsert e "version" (JStr (digest (json e))).

Definition badPart (part : QString) : bool :=
  isEmpty part || bool_decide (part = u ".") || bool_decide (part = u "..")
  || (220 <? utf8Size part) || startsWith part (u ".society-")
  || startsWith part (u ".iiwebserver-") || bool_decide (part = u ".iisacc-temporary.lock").
(** The path inside the container of a logical key; empty when the key is refused. *)
Definition physical (key : QString) : QString :=
  let section := sectionFirst slash key in
  let tail := sectionTail slash key in
  if isEmpty tail || negb (containsChar slash key) || (3500 <? qsize key)
     || negb (isValidUtf16 key) || containsChar 92 key || containsChar 58 key
     || containsChar 0 key
  then []
  else if existsb badPart (qsplit slash key) then []
  else match List.find (λ s, bool_decide (section = s.1)) sections with
       | Some s => s.2 ++ slash :: tail
       | None => []
       end.

Definition contentEqual (a b : jobj) : bool :=
  bool_decide (a.["kind"] = b.["kind"]) && bool_decide (a.["hash"] = b.["hash"])
  && bool_decide (a.["size"] = b.["size"]).

Definition validSnapshot (snapshot : jobj) : bool :=
  bool_decide (snapshot.["schema"] = JNum 1)
  && bool_decide (is_Some (parseUuid (toStr snapshot.["id"])))
  && match number snapshot.["capturedAt"] with Some captured => 0 <? captured | None => false end
  && match number snapshot.["baseSequence"] with
     | Some base =>
         isString snapshot.["baseRevision"]
         && (if base =? 0 then isEmpty (toStr snapshot.["baseRevision"])
             else hex (toStr snapshot.["baseRevision"]))
     | None => false
     end
  && bool_decide (dom snapshot =
       list_to_set (map u ["schema"; "id"; "capturedAt"; "baseSequence"; "baseRevision"]%string)).

(** The component of a clock for a replica; an absent one counts as zero. *)
Definition clockAt (clock : jobj) (k : QString) : Z := jlong (default JUndef (clock !! k)).

(** 1: incoming dominates; -1: local dominates; 0: equal; 2: concurrent. *)
Definition compare (incoming local : jobj) : Z :=
  let keys := elements (dom incoming ∪ dom local) in
  let '(greater, less) :=
    foldl (λ gl k, let a := clockAt incoming k in let b := clockAt local k in
                   (gl.1 || (b <? a), gl.2 || (a <? b))) (false, false) keys in
  if greater && less then 2 else if greater then 1 else if less then -1 else 0.

Definition joined (a b : jobj) : jobj :=
  map_fold (λ k v acc, if clockAt acc k <? jlong v then jset acc k v else acc) a b.

Definition rank (e : jobj) : Z :=
  if bool_decide (e.["kind"] = JS "directory") then 2
  else if bool_decide (e.["kind"] = JS "file") then 1 else 0.

Definition conflictPath (loser : jobj) : QString :=
  let path := toStr loser.["path"] in
  let name := sectionLast slash path in
  qleft (lastIndexOf slash path + 1) path
    ++ (if utf8Size name <=? 160 then name else u "file")
    ++ u ".sync-conflict-" ++ qleft 32 (toStr loser.["version"]).

(** Replica::validRecord. *)
Definition validClock (clock : jobj) : bool :=
  negb (jempty clock) && (Z.of_nat (size clock) <=? 64)
  && forallb (λ kv, bool_decide (is_Some (parseUuid kv.1))
                    && match number kv.2 with Some n => negb (n =? 0) | None => false end)
       (map_to_list clock).
Definition validRecord (e : jobj) : bool :=
  if isEmpty (physical (toStr e.["path"]))
     || bool_decide (toStr e.["version"] ≠ toStr (versioned e).["version"]) then false else
  let kind := toStr e.["kind"] in
  match number e.["size"] with
  | None => false
  | Some size =>
      if bool_decide (kind ≠ u "file") && bool_decide (kind ≠ u "directory")
         && bool_decide (kind ≠ u "deleted") then false
      else if (if bool_decide (kind = u "file") then negb (hex (toStr e.["hash"]))
               else negb (size =? 0) || negb (isEmpty (toStr e.["hash"]))) then false
      else if jcontains e "baseRevision"
              && (negb (isString e.["baseRevision"])
                  || (negb (isEmpty (toStr e.["baseRevision"]))
                      && negb (hex (toStr e.["baseRevision"])))) then false
      else validClock (toObj e.["clock"])
           && (Z.of_nat (List.length (json e)) <=? 16384)
  end.

(** ** Vector clocks
    Two clocks are the same when every replica's component is: an explicit zero
    and an absent key are not told apart by [compare]. *)
Definition clock_le (a b : jobj) : Prop := ∀ k, clockAt a k ≤ clockAt b k.
Definition clock_equiv (a b : jobj) : Prop := ∀ k, clockAt a k = clockAt b k.
(** Components are counters: what [validClock] and the replica's own counter give. *)
Definition clock_nonneg (a : jobj) : Prop := ∀ k, 0 ≤ clockAt a k.

#[global] Instance clock_equiv_equivalence : Equivalence clock_equiv.
Proof.
  split; [intros a k; done|intros a b H k; by rewrite H|].
  intros a b c H1 H2 k. by rewrite H1, H2.
Qed.
#[global] Instance clockAt_proper : Proper (clock_equiv ==> (=) ==> (=)) clockAt.
Proof. intros a b H k ? <-. apply H. Qed.
#[global] Instance clock_le_preorder : PreOrder clock_le.
Proof. split; [intros a k; lia|]. intros a b c H1 H2 k. specialize (H1 k). specialize (H2 k). lia. Qed.
#[global] Instance clock_le_proper : Proper (clock_equiv ==> clock_equiv ==> iff) clock_le.
Proof. intros a a' Ha b b' Hb. unfold clock_le. setoid_rewrite Ha. by setoid_rewrite Hb. Qed.

Lemma clockAt_absent c k : k ∉ dom c → clockAt c k = 0.
Proof. intros H%not_elem_of_dom. unfold clockAt. by rewrite H. Qed.

(** The loop of [compare] computes two existentials. *)
Lemma compare_loop a b keys g l :
  foldl (λ gl k, let x := clockAt a k in let y := clockAt b k in
                 (gl.1 || (y <? x), gl.2 || (x <? y))) (g, l) keys
  = (g || existsb (λ k, clockAt b k <? clockAt a k) keys,
     l || existsb (λ k, clockAt a k <? clockAt b k) keys).
Proof.
  revert g l. induction keys as [|k keys IH]; intros g l; cbn [foldl existsb].
  - by rewrite !orb_false_r.
  - rewrite IH. cbn. by rewrite !orb_assoc.
Qed.

Lemma existsb_keys a b :
  existsb (λ k, clockAt b k <? clockAt a k) (elements (dom a ∪ dom b)) = true
  ↔ ∃ k, clockAt b k < clockAt a k.
Proof.
  rewrite existsb_true. split.
  - intros (k & _ & H). exists k. by apply Z.ltb_lt.
  - intros (k & H). exists k. split; [|by apply Z.ltb_lt].
    apply elem_of_elements, elem_of_union.
    destruct (decide (k ∈ dom a)), (decide (k ∈ dom b)); auto.
    rewrite !clockAt_absent in H by done. lia.
Qed.

Lemma not_lt_le a b : (¬ ∃ k, clockAt b k < clockAt a k) ↔ clock_le a b.
Proof.
  split; intros H.
  - intros k. destruct (Z.le_gt_cases (clockAt a k) (clockAt b k)); [done|]. destruct H; eauto.
  - intros [k Hk]. specialize (H k). lia.
Qed.

(** [compare] by cases: the four outcomes of two boolean tests. *)
Lemma compare_cases a b :
  (clock_le a b ∧ clock_le b a ∧ compare a b = 0)
  ∨ (clock_le b a ∧ ¬ clock_le a b ∧ compare a b = 1)
  ∨ (clock_le a b ∧ ¬ clock_le b a ∧ compare a b = -1)
  ∨ (¬ clock_le a b ∧ ¬ clock_le b a ∧ compare a b = 2).
Proof.
  unfold compare. rewrite compare_loop. cbn [orb].
  pose proof (existsb_keys a b) as H1. pose proof (existsb_keys b a) as H2.
  rewrite (union_comm_L (dom b) (dom a)) in H2.
  pose proof (not_lt_le a b) as L1. pose proof (not_lt_le b a) as L2.
  destruct (existsb _ _); destruct (existsb _ _); cbn [andb];
    [right; right; right|right; left|right; right; left|left];
    rewrite <- L1, <- L2, <- H1, <- H2; intuition congruence.
Qed.

Lemma compare_le a b : compare a b = 0 ∨ compare a b = -1 ↔ clock_le a b.
Proof. destruct (compare_cases a b) as [H|[H|[H|H]]]; destruct H as (?&?&->); intuition lia. Qed.
Lemma compare_ge a b : compare a b = 0 ∨ compare a b = 1 ↔ clock_le b a.
Proof. destruct (compare_cases a b) as [H|[H|[H|H]]]; destruct H as (?&?&->); intuition lia. Qed.
Lemma compare_eq a b : compare a b = 0 ↔ clock_equiv a b.
Proof.
  assert (clock_equiv a b ↔ clock_le a b ∧ clock_le b a) as ->.
  { split; [intros H; split; by rewrite H|]. intros [H1 H2] k. specialize (H1 k). specialize (H2 k). lia. }
  destruct (compare_cases a b) as [H|[H|[H|H]]]; destruct H as (?&?&->); intuition lia.
Qed.

#[global] Instance compare_proper : Proper (clock_equiv ==> clock_equiv ==> (=)) compare.
Proof.
  intros a a' Ha b b' Hb.
  destruct (compare_cases a b) as [H|[H|[H|H]]]; destruct H as (H1&H2&->);
  rewrite Ha, Hb in H1, H2;
  destruct (compare_cases a' b') as [H|[H|[H|H]]]; destruct H as (?&?&->); tauto.
Qed.

(** The entry [joined] leaves under a key of [b]. *)
Lemma joined_lookup a b k :
  joined a b !! k = match b !! k with
                    | Some v => if clockAt a k <? jlong v
                                then match v with JUndef => None | _ => Some v end
                                else a !! k
                    | None => a !! k
                    end.
Proof.
  unfold joined. revert k.
  apply (map_fold_weak_ind (λ acc b, ∀ k, acc !! k = match b !! k with
     | Some v => if clockAt a k <? jlong v
                 then match v with JUndef => None | _ => Some v end else a !! k
     | None => a !! k end)).
  - intros k. by rewrite lookup_empty.
  - intros i v m acc Hi IH k.
    assert (clockAt acc i = clockAt a i) as Ei.
    { unfold clockAt. by rewrite IH, Hi. }
    rewrite Ei. destruct (decide (i = k)) as [->|Hne].
    + rewrite lookup_insert_eq. destruct (_ <? _); [|by rewrite IH, Hi].
      unfold jset. destruct v; by simplify_map_eq.
    + rewrite lookup_insert_ne by done. rewrite <- IH.
      destruct (_ <? _); [|done]. unfold jset. destruct v; by simplify_map_eq.
Qed.

Lemma clockAt_joined a b k :
  clock_nonneg a → clockAt (joined a b) k = Z.max (clockAt a k) (clockAt b k).
Proof.
  intros Ha. specialize (Ha k). unfold clockAt at 1. rewrite joined_lookup.
  assert (clockAt b k = jlong (default JUndef (b !! k))) as Eb by done.
  destruct (b !! k) as [v|]; cbn in Eb.
  - rewrite Eb. destruct (Z.ltb_spec (clockAt a k) (jlong v)).
    + rewrite Z.max_r by lia. destruct v; try done.
    + rewrite Z.max_l by lia. done.
  - change (jlong JUndef) with 0 in Eb. rewrite Eb, Z.max_l by done. done.
Qed.

#[global] Instance clock_nonneg_proper : Proper (clock_equiv ==> iff) clock_nonneg.
Proof. intros a b H. unfold clock_nonneg. by setoid_rewrite H. Qed.

Lemma joined_nonneg a b : clock_nonneg a → clock_nonneg (joined a b).
Proof. intros Ha k. rewrite clockAt_joined by done. specialize (Ha k). lia. Qed.

Lemma joined_proper a a' b b' :
  clock_nonneg a → clock_equiv a a' → clock_equiv b b' → clock_equiv (joined a b) (joined a' b').
Proof.
  intros Hn Ha Hb k. rewrite !clockAt_joined; [by rewrite Ha, Hb| |done]. by rewrite <- Ha.
Qed.

(** A clock that passes [validClock] has counters for components. *)
Lemma validClock_nonneg c : validClock c = true → clock_nonneg c.
Proof.
  unfold validClock. intros H. bool_hyps. rewrite forallb_forall in H0. intros k. unfold clockAt.
  destruct (c !! k) as [v|] eqn:E; [|done]. cbn.
  specialize (H0 (k, v)). rewrite <- list_elem_of_In, elem_of_map_to_list in H0.
  specialize (H0 E). bool_hyps. cbn in *. unfold number in *.
  unfold jlong, toLongLong0. destruct (toLongLong (toStr v)) as [n|]; [|done]. cbn.
  destruct ((0 <=? n) && (n <=? MaxCounter)) eqn:B; [|done]. bool_hyps. done.
Qed.

(** ** Digests *)
Lemma hexDigit_char n : (n < 16)%N → hexChar (hexDigit n) = true.
Proof.
  intros Hn. unfold hexDigit, hexChar. destruct (N.ltb_spec n 10).
  - apply orb_true_iff. right. apply andb_true_iff. split; apply N.leb_le; lia.
  - apply orb_true_iff. left. apply andb_true_iff. split; apply N.leb_le; lia.
Qed.

Lemma toHex_hex b :
  Forall (λ c, (c < 256)%N) b →
  List.length (toHex b) = (2 * List.length b)%nat ∧ Forall (λ c, hexChar c = true) (toHex b).
Proof.
  induction 1 as [|c b Hc _ [IHl IHc]]; [done|].
  change (toHex (c :: b)) with (hexDigit (c / 16) :: hexDigit (c mod 16) :: toHex b)%N.
  cbn [List.length]. split; [lia|].
  repeat constructor; [..|done]; apply hexDigit_char.
  - apply N.Div0.div_lt_upper_bound. lia.
  - apply N.mod_lt. lia.
Qed.

Lemma digest_hex `{PL : !PlatformLaws} b : hex (digest b) = true.
Proof.
  destruct (toHex_hex (sha256 b)) as [Hl Hc]; [apply sha256_bytes|].
  rewrite sha256_length in Hl. unfold hex, digest, qsize. rewrite Hl. cbn.
  apply forallb_forall. intros c Hin%list_elem_of_In. by eapply Forall_forall in Hc.
Qed.

(** ** Paths *)
Record legalKey (k : QString) : Prop := {
  legal_parts : Forall (λ p, badPart p = false) (qsplit slash k);
  legal_size : qsize k ≤ 3500;
  legal_utf16 : isValidUtf16 k = true;
  legal_backslash : 92%N ∉ k;
  legal_colon : 58%N ∉ k;
  legal_nul : 0%N ∉ k
}.

Lemma physical_legal k s :
  legalKey k → slash ∈ k → sectionTail slash k ≠ [] →
  List.find (λ s, bool_decide (sectionFirst slash k = s.1)) sections = Some s →
  physical k = s.2 ++ slash :: sectionTail slash k.
Proof.
  intros [Hp Hz Hv H1 H2 H3] Hs Ht Hf. unfold physical.
  apply containsChar_elem in Hs. apply containsChar_false in H1, H2, H3.
  rewrite Hs, Hv, H1, H2, H3. unfold isEmpty. rewrite bool_decide_eq_false_2 by done.
  rewrite (proj2 (Z.ltb_ge _ _)) by done. cbn.
  rewrite (proj2 (existsb_false _ _)) by (by apply Forall_forall). by rewrite Hf.
Qed.

Lemma physical_nonempty k :
  physical k ≠ [] ↔
  legalKey k ∧ slash ∈ k ∧ sectionTail slash k ≠ []
  ∧ ∃ s, List.find (λ s, bool_decide (sectionFirst slash k = s.1)) sections = Some s
         ∧ physical k = s.2 ++ slash :: sectionTail slash k.
Proof.
  split.
  - unfold physical. intros H. do 2 (guard_case; [done|]). bool_hyps.
    rewrite containsChar_elem in *. rewrite containsChar_false in *.
    destruct (List.find _ _) as [s|]; [|done]. unfold isEmpty in *. bool_hyps.
    split; [|eauto]. split; try done.
    rewrite Forall_forall. intros p Hp. by eapply existsb_false in Heqb0.
  - intros (Hk & Hs & Ht & s & Hf & _). rewrite (physical_legal _ _ Hk Hs Ht Hf). by destruct (s.2).
Qed.

Lemma find_section k s :
  List.find (λ s, bool_decide (sectionFirst slash k = s.1)) sections = Some s →
  s ∈ sections ∧ sectionFirst slash k = s.1.
Proof. intros [H1%list_elem_of_In H2]%find_some. by bool_hyps. Qed.

Lemma physical_inv `{PL : !PlatformLaws} k :
  physical k ≠ [] →
  ∃ s, s ∈ sections ∧ (k = s.1 ++ slash :: sectionTail slash k)
       ∧ (physical k = s.2 ++ slash :: sectionTail slash k) ∧ component s.1 ∧ component s.2.
Proof.
  intros (Hk & Hs & Ht & s & Hf & E)%physical_nonempty. apply find_section in Hf as [Hin Es].
  exists s. split; [done|]. destruct (section_decompose slash k Hs) as (Ek & _ & _).
  rewrite Es in Ek. split_and!; [done|done|..];
    pose proof sections_components as Hc; rewrite Forall_forall in Hc; by apply Hc.
Qed.

Lemma app_sep_inj (c : N) (a b x y : list N) :
  c ∉ a → c ∉ b → a ++ c :: x = b ++ c :: y → a = b ∧ x = y.
Proof.
  revert b. induction a as [|p a IH]; intros [|q b] Ha Hb E; cbn in E; simplify_eq.
  - done.
  - by apply not_elem_of_cons in Hb as [? _].
  - by apply not_elem_of_cons in Ha as [? _].
  - apply not_elem_of_cons in Ha as [_ Ha]. apply not_elem_of_cons in Hb as [_ Hb].
    by destruct (IH b Ha Hb) as [-> ->].
Qed.

(** ** Conflict copies *)
Lemma startsWith_dot n t p : 46%N ∉ p → startsWith (n ++ 46%N :: t) p = true → startsWith n p = true.
Proof.
  revert n. induction p as [|x p IH]; intros n Hp H; [by destruct n|].
  apply not_elem_of_cons in Hp as [Hx Hp]. destruct n as [|c n]; cbn in *; bool_hyps.
  - apply N.eqb_eq in H. congruence.
  - rewrite H. cbn. eauto.
Qed.

Lemma startsWith_dotted n t p :
  n ≠ [] → 46%N ∉ p → startsWith n (46%N :: p) = false → startsWith (n ++ 46%N :: t) (46%N :: p) = false.
Proof.
  destruct n as [|c n]; [done|]. intros _ Hp. cbn. destruct (c =? 46)%N; [|done]. cbn.
  destruct (startsWith (n ++ _) p) eqn:E; [|done]. apply startsWith_dot in E; [intros; congruence|done].
Qed.

Lemma ascii_utf16 s : Forall (λ c, (c < 128)%N) s → isValidUtf16 s = true ∧ utf8Size s = qsize s.
Proof.
  induction 1 as [|c s Hc _ [IH1 IH2]]; [done|]. cbn. unfold highSurrogate, lowSurrogate in *.
  rewrite (proj2 (N.leb_gt 55296 c)), (proj2 (N.leb_gt 56320 c)) by lia. cbn. split; [done|].
  fold (utf8Size s). rewrite IH2. unfold utf8Units, qsize. rewrite (proj2 (N.ltb_lt c 128)) by lia.
  cbn [List.length]. lia.
Qed.

Definition conflictSuffix (version : QString) : QString := u ".sync-conflict-" ++ qleft 32 version.

Lemma hexChar_ascii c : hexChar c = true → (48 ≤ c ≤ 102 ∧ c ≠ 92 ∧ c ≠ 58)%N.
Proof.
  unfold hexChar. rewrite orb_true_iff, !andb_true_iff, !N.leb_le. lia.
Qed.

Lemma conflictSuffix_spec v :
  hex v = true →
  List.length (conflictSuffix v) = 47%nat
  ∧ Forall (λ c, (c < 128 ∧ c ≠ 47 ∧ c ≠ 92 ∧ c ≠ 58 ∧ c ≠ 0)%N) (conflictSuffix v)
  ∧ ∃ t, conflictSuffix v = 46%N :: t.
Proof.
  intros H. unfold hex in H. bool_hyps. unfold conflictSuffix, qsize in *.
  rewrite qleft_take by lia.
  split_and!.
  - rewrite length_app, length_take. change (List.length (u ".sync-conflict-")) with 15%nat. lia.
  - apply Forall_app. split; [by_compute|].
    apply Forall_take, Forall_forall. intros c Hc%list_elem_of_In.
    eapply forallb_forall in H0; [|done]. apply hexChar_ascii in H0. lia.
  - by eexists.
Qed.

Lemma badPart_conflict n v :
  hex v = true → n ≠ [] → utf8Size n ≤ 160 →
  startsWith n (u ".society-") = false → startsWith n (u ".iiwebserver-") = false →
  badPart (n ++ conflictSuffix v) = false.
Proof.
  intros Hv Hn Hz Hs Hw. destruct (conflictSuffix_spec v Hv) as (Hl & Hc & t & Et).
  assert (Hu : utf8Size (conflictSuffix v) = 47).
  { rewrite (proj2 (ascii_utf16 _ (Forall_impl _ _ _ Hc (λ c H, proj1 H)))). unfold qsize. by rewrite Hl. }
  assert (Hlen : (47 < List.length (n ++ conflictSuffix v))%nat).
  { rewrite length_app, Hl. destruct n; [done|]. cbn. lia. }
  unfold badPart. rewrite !orb_false_iff. unfold isEmpty. rewrite !bool_decide_eq_false.
  split_and!; try (intros E; rewrite E in Hlen; vm_compute in Hlen; lia).
  - apply Z.ltb_ge. rewrite utf8Size_app, Hu. lia.
  - rewrite Et. apply startsWith_dotted; [done| |done]. by_compute.
  - rewrite Et. apply startsWith_dotted; [done| |done]. by_compute.
Qed.

Lemma qsplit_concat c pre x :
  Forall (λ p, c ∉ p) pre → c ∉ x →
  qsplit c (concat (map (λ p, p ++ [c]) pre) ++ x) = pre ++ [x].
Proof.
  intros Hp Hx. induction Hp as [|p pre Hp _ IH]; cbn; [by apply qsplit_single|].
  rewrite <- !app_assoc. cbn. by rewrite qsplit_sep, IH.
Qed.

Definition conflictBase (name : QString) : QString := if utf8Size name <=? 160 then name else u "file".

Lemma conflictPath_eq e pre :
  qsplit slash (toStr e.["path"]) = pre ++ [sectionLast slash (toStr e.["path"])] →
  conflictPath e = concat (map (λ p, p ++ [slash]) pre)
                   ++ conflictBase (sectionLast slash (toStr e.["path"]))
                   ++ conflictSuffix (toStr e.["version"]).
Proof. intros E. unfold conflictPath. by rewrite (directory_prefix slash _ pre E). Qed.

Lemma path_parts k :
  slash ∈ k →
  ∃ pre, qsplit slash k = sectionFirst slash k :: pre ++ [sectionLast slash k]
         ∧ k = concat (map (λ p, p ++ [slash]) (sectionFirst slash k :: pre)) ++ sectionLast slash k.
Proof.
  intros Hs. destruct (section_decompose slash k Hs) as (_ & _ & E).
  destruct (last_section_decompose slash k) as (pre & E' & Hk & _).
  destruct pre as [|p pre].
  - rewrite E' in E. cbn in E. injection E as _ E. by apply eq_sym, qsplit_nonempty in E.
  - rewrite E' in E. cbn in E. injection E as E1 E2. subst p. exists pre. by rewrite E'.
Qed.

Lemma sections_concat (pre : list QString) : ∃ d, concat (map (λ p, p ++ [slash]) pre) = d ∧
  (pre ≠ [] → ∃ d', d = d' ++ [slash]).
Proof.
  eexists; split; [done|]. destruct (snoc_inv pre) as [->|(pre' & x & ->)]; [done|]. intros _.
  rewrite map_app, concat_app. cbn. rewrite app_nil_r, app_assoc. eauto.
Qed.

Lemma conflictBase_spec n :
  badPart n = false →
  conflictBase n ≠ [] ∧ utf8Size (conflictBase n) ≤ 160
  ∧ startsWith (conflictBase n) (u ".society-") = false
  ∧ startsWith (conflictBase n) (u ".iiwebserver-") = false
  ∧ (conflictBase n = n ∨ conflictBase n = u "file").
Proof.
  intros H. unfold conflictBase. destruct (Z.leb_spec (utf8Size n) 160).
  - unfold badPart in H. bool_hyps. unfold isEmpty in *. bool_hyps. auto 6.
  - by split_and!; try (by vm_compute); [..|right].
Qed.

(** The characters and the encoding of a conflict copy's path are those of the
    original and of ASCII text. *)
Lemma conflictPath_units e c :
  slash ∈ toStr e.["path"] → hex (toStr e.["version"]) = true → badPart (sectionLast slash (toStr e.["path"])) = false →
  c ∉ toStr e.["path"] → (c = 92 ∨ c = 58 ∨ c = 0)%N → c ∉ conflictPath e.
Proof.
  intros Hs Hv Hb Hc Hcc. destruct (path_parts _ Hs) as (pre & E & Hk).
  rewrite (conflictPath_eq e (sectionFirst slash (toStr e.["path"]) :: pre) E).
  rewrite Hk in Hc. rewrite not_elem_of_app in *. destruct Hc as [Hc1 Hc2]. split; [done|].
  rewrite not_elem_of_app. split.
  - destruct (conflictBase_spec _ Hb) as (_ & _ & _ & _ & [->| ->]); [done|].
    destruct Hcc as [->|[->| ->]]; by_compute.
  - destruct (conflictSuffix_spec _ Hv) as (_ & Hf & _). rewrite Forall_forall in Hf.
    intros Hin. apply Hf in Hin. lia.
Qed.

Lemma conflictPath_utf16 e :
  slash ∈ toStr e.["path"] → hex (toStr e.["version"]) = true → badPart (sectionLast slash (toStr e.["path"])) = false →
  isValidUtf16 (toStr e.["path"]) = true → isValidUtf16 (conflictPath e) = true.
Proof.
  intros Hs Hv Hb Hu. destruct (path_parts _ Hs) as (pre & E & Hk).
  rewrite (conflictPath_eq e (sectionFirst slash (toStr e.["path"]) :: pre) E).
  destruct (sections_concat (sectionFirst slash (toStr e.["path"]) :: pre)) as (d & Ed & Hd).
  destruct Hd as (d' & ->); [done|]. rewrite Ed in *. rewrite Hk, <- app_assoc in Hu. rewrite <- app_assoc.
  apply isValidUtf16_cut in Hu as [Hu1 Hu2]; [|done..].
  rewrite isValidUtf16_app by done. cbn.
  rewrite isValidUtf16_app.
  - destruct (conflictSuffix_spec _ Hv) as (_ & Hf & _).
    apply ascii_utf16. eapply Forall_impl; [exact Hf|]. by intros ? [? _].
  - by destruct (conflictBase_spec _ Hb) as (_ & _ & _ & _ & [->| ->]).
Qed.

(** ** Versions *)
Lemma versioned_payload e : (versioned e).["version"] = JStr (digest (json (payload e))).
Proof. unfold versioned. by jsimp. Qed.

(** The payload only depends on five members of a record. *)
Lemma payload_ext a b :
  a.["path"] = b.["path"] → a.["kind"] = b.["kind"] → a.["size"] = b.["size"] →
  a.["hash"] = b.["hash"] → a.["clock"] = b.["clock"] → payload a = payload b.
Proof. unfold payload. by intros -> -> -> -> ->. Qed.

Lemma payload_versioned e : payload (versioned e) = payload e.
Proof. apply payload_ext; unfold versioned, payload; by jsimp. Qed.

Lemma validRecord_path e : validRecord e = true → physical (toStr e.["path"]) ≠ [].
Proof. unfold validRecord. guard_case; [done|]. bool_hyps. intros _. unfold isEmpty in *. by bool_hyps. Qed.

Lemma validRecord_version `{PL : !PlatformLaws} e :
  validRecord e = true →
  toStr e.["version"] = digest (json (payload e)) ∧ hex (toStr e.["version"]) = true.
Proof.
  unfold validRecord. guard_case; [done|]. intros _. bool_hyps.
  match goal with H : ¬ _ ≠ _ |- _ => apply dec_stable in H; rewrite H end.
  rewrite versioned_payload. cbn [toStr]. split; [done|apply digest_hex].
Qed.

Lemma validRecord_clock e : validRecord e = true → clock_nonneg (toObj e.["clock"]).
Proof.
  unfold validRecord. guard_case; [done|]. destruct (number _); [|done].
  do 3 (guard_case; [done|]). intros H. bool_hyps. by apply validClock_nonneg.
Qed.

Lemma validRecord_hash e : validRecord e = true → e.["kind"] = JS "file" → toStr e.["hash"] ≠ [].
Proof.
  unfold validRecord. intros Hv Hk E. rewrite Hk, E in Hv. revert Hv. cbv zeta. cbn [toStr].
  guard_case; [done|]. destruct (number _); [|done]. guard_case; [done|]. rewrite bool_decide_eq_true_2 by done. done.
Qed.

(** ** Legality of conflict copies *)
Lemma conflictPath_parts `{PL : !PlatformLaws} e pre :
  qsplit slash (toStr e.["path"]) = sectionFirst slash (toStr e.["path"]) :: pre ++ [sectionLast slash (toStr e.["path"])] →
  slash ∈ toStr e.["path"] → hex (toStr e.["version"]) = true →
  badPart (sectionLast slash (toStr e.["path"])) = false →
  qsplit slash (conflictPath e)
  = sectionFirst slash (toStr e.["path"]) :: pre ++ [conflictBase (sectionLast slash (toStr e.["path"]))
                                                    ++ conflictSuffix (toStr e.["version"])].
Proof.
  intros E Hs Hv Hb. rewrite (conflictPath_eq e (sectionFirst slash (toStr e.["path"]) :: pre) E).
  pose proof (qsplit_no_sep slash (toStr e.["path"])) as Hn. rewrite E, app_comm_cons in Hn.
  apply Forall_app in Hn as [Hn Hl]. apply Forall_cons in Hl as [Hl _].
  rewrite qsplit_concat; [done|done|]. rewrite not_elem_of_app. split.
  - destruct (conflictBase_spec _ Hb) as (_ & _ & _ & _ & [->| ->]); [done|].
    by_compute.
  - destruct (conflictSuffix_spec _ Hv) as (_ & Hf & _). rewrite Forall_forall in Hf.
    intros Hin. apply Hf in Hin. unfold slash in Hin. lia.
Qed.

Lemma split_section c k first rest :
  qsplit c k = first :: rest → rest ≠ [] → c ∈ k ∧ sectionFirst c k = first ∧ qsplit c (sectionTail c k) = rest.
Proof.
  intros E Hr. destruct (decide (c ∈ k)) as [Hk|Hk].
  - destruct (section_decompose c k Hk) as (_ & _ & E'). rewrite E in E'. by injection E' as <- <-.
  - rewrite qsplit_single in E by done. injection E as _ <-. done.
Qed.

Lemma conflict_legal `{PL : !PlatformLaws} e :
  physical (toStr e.["path"]) ≠ [] → hex (toStr e.["version"]) = true →
  qsize (conflictPath e) ≤ 3500 → physical (conflictPath e) ≠ [].
Proof.
  intros (Hk & Hs & Ht & s & Hf & E)%physical_nonempty Hv Hz. set (k := toStr e.["path"]) in *.
  destruct (path_parts k Hs) as (pre & Ek & _).
  pose proof (legal_parts _ Hk) as Hp. rewrite Ek, app_comm_cons in Hp.
  apply Forall_app in Hp as [Hp Hl]. apply Forall_cons in Hl as [Hl _].
  pose proof (conflictPath_parts e pre Ek Hs Hv Hl) as Ec. fold k in Ec.
  destruct (split_section slash _ _ _ Ec) as (Hsc & Ef & Etl); [by destruct pre|].
  assert (Hlegal : legalKey (conflictPath e)).
  { constructor; [|done|by apply conflictPath_utf16; [..|apply Hk]|apply conflictPath_units..]; try done; try tauto; try apply Hk.
    rewrite Ec, app_comm_cons. apply Forall_app. split; [done|]. constructor; [|done].
    destruct (conflictBase_spec _ Hl) as (? & ? & ? & ? & _). by apply badPart_conflict. }
  assert (Htail : sectionTail slash (conflictPath e) ≠ []).
  { intros E0. rewrite E0 in Etl. change (qsplit slash []) with [[] : list N] in Etl.
    destruct pre as [|p pre]; [|by destruct pre]. injection Etl as Etl.
    destruct (conflictSuffix_spec _ Hv) as (_ & _ & t & Es). rewrite Es in Etl.
    by destruct (conflictBase _). }
  rewrite (physical_legal _ s Hlegal Hsc Htail); [by destruct (s.2)|by rewrite Ef].
Qed.

(** The copy stays next to the original, under another name. *)
Lemma conflict_directory e :
  ∃ d n n', (toStr e.["path"] = d ++ n) ∧ (conflictPath e = d ++ n') ∧ slash ∉ n
            ∧ n' = conflictBase n ++ conflictSuffix (toStr e.["version"]).
Proof.
  set (k := toStr e.["path"]). destruct (last_section_decompose slash k) as (pre & Epre & Hk & Hn).
  do 3 eexists. split_and!; [exact Hk|by apply conflictPath_eq|done|done].
Qed.

Lemma conflict_name `{PL : !PlatformLaws} n v :
  slash ∉ n → hex v = true → slash ∉ conflictBase n ++ conflictSuffix v.
Proof.
  intros Hn Hv. rewrite not_elem_of_app. split.
  - unfold conflictBase. case_match; [done|by_compute].
  - destruct (conflictSuffix_spec _ Hv) as (_ & Hf & _). rewrite Forall_forall in Hf.
    intros Hin. apply Hf in Hin. unfold slash in Hin. lia.
Qed.

Lemma conflict_differs `{PL : !PlatformLaws} e :
  hex (toStr e.["version"]) = true → conflictPath e ≠ toStr e.["path"].
Proof.
  intros Hv. destruct (conflict_directory e) as (d & n & n' & Ek & Ek' & _ & En').
  destruct (conflictSuffix_spec _ Hv) as (Hl & Hf & _).
  rewrite Ek, Ek'. intros Eq%app_inv_head. rewrite En' in Eq. unfold conflictBase in Eq.
  destruct (Z.leb_spec (utf8Size n) 160) as [Hs|Hs].
  - apply (f_equal List.length) in Eq. rewrite length_app, Hl in Eq. lia.
  - rewrite <- Eq, utf8Size_app in Hs.
    rewrite (proj2 (ascii_utf16 _ (Forall_impl _ _ _ Hf (λ c H, proj1 H)))) in Hs.
    unfold qsize in Hs. rewrite Hl in Hs. by vm_compute in Hs.
Qed.

(** Two keys that are stored at one place are one key. *)
Lemma physical_inj `{PL : !PlatformLaws} k k' : physical k ≠ [] → physical k = physical k' → k = k'.
Proof.
  intros Hk E. assert (physical k' ≠ []) as Hk' by (by rewrite <- E).
  destruct (physical_inv k Hk) as (s & Hs & Ek & Ep & _ & Hc).
  destruct (physical_inv k' Hk') as (s' & Hs' & Ek' & Ep' & _ & Hc').
  rewrite Ep, Ep' in E. apply app_sep_inj in E as [En Et]; [|apply Hc|apply Hc'].
  assert (s = s') as ->; [|by rewrite Ek, Ek', Et].
  apply list_elem_of_lookup in Hs as (i & Hi). apply list_elem_of_lookup in Hs' as (i' & Hi').
  assert (i = i') as ->; [|congruence].
  apply (NoDup_lookup _ i i' s.2 sections_names); rewrite list_lookup_fmap.
  + exact (f_equal (fmap snd) Hi).
  + rewrite En. exact (f_equal (fmap snd) Hi').
Qed.

(** ... and never inside the replica's own directory. *)
Lemma physical_public `{PL : !PlatformLaws} k :
  physical k ≠ [] → startsWith (physical k) (u ".society-sync/") = false.
Proof.
  intros Hk. destruct (physical_inv k Hk) as (s & Hs & _ & -> & _ & Hc).
  destruct (startsWith _ _) eqn:E; [|done]. apply startsWith_spec in E as [t E].
  change (u ".society-sync/") with (u ".society-sync" ++ [slash]) in E. rewrite <- app_assoc in E. cbn [app] in E.
  apply app_sep_inj in E as [E _]; [|apply Hc|by_compute].
  pose proof sections_public as Hp. rewrite Forall_forall in Hp. by apply Hp in Hs.
Qed.
End with_platform.
End Records.
