(* ===== verification/Demo.v ===== *)
(** A concrete platform, on which the examples of the development evaluate.  Its
    serialiser and digest are toys with the documented shape of the real ones
    (compact text without the absent members, 32 bytes); the storage areas are
    those of src/Monitoring/Monitor.cpp. *)
From S2P Require Import Prelude Qt Records.
Open Scope Z_scope.

Module Demo.
Fixpoint encode (v : jval) : list N :=
  match v with
  | JUndef | JNull => u "null"
  | JBool b => if b then u "true" else u "false"
  | JNum z => numberStr z
  | JFrac n d => numberStr n ++ 47%N :: numberStr (Zpos d)
  | JStr s => 34%N :: s ++ [34%N]
  | JArr l => 91%N :: concat (map (λ x, encode x ++ [44%N]) l) ++ [93%N]
  | JObj m => 123%N :: map_fold (λ k x acc, k ++ 58%N :: encode x ++ 44%N :: acc) [] m ++ [125%N]
  end.
Definition member (kv : QString * jval) : list N := kv.1 ++ 58%N :: encode kv.2 ++ [44%N].
Definition toJson (o : jobj) : list N := 123%N :: flat_map member (map_to_list o) ++ [125%N].

(** A small checksum, written on two of 32 bytes. *)
Definition checksum (b : list N) : N := foldl (λ h c, (h * 31 + c) mod 65521)%N 7%N b.
Definition sha256 (b : list N) : list N :=
  let h := checksum b in (h / 256 :: h mod 256 :: replicate 30 0)%N.

#[global] Instance platform : Platform := {
  toJson := toJson;
  sha256 := sha256;
  parseUuid s := if bool_decide (List.length s = 36%nat) then Some s else None;
  sections := map (λ s, (u s.1, u s.2))
    [("files", "Files"); ("photos", "Photos"); ("asset-library", "Asset Library");
     ("generation-history", "Generation History"); ("models", "Models");
     ("thinking-space", "Thinking Space"); ("forked", "Forked");
     ("published", "Published"); ("deleted", "Deleted")]%string
}.

Lemma flat_map_submseteq {A} (f : A → list N) l k :
  l ⊆+ k → (List.length (flat_map f l) <= List.length (flat_map f k))%nat.
Proof.
  induction 1 as [|x l k _ IH|x y l|x l k _ IH|l k m _ IH1 _ IH2]; cbn; rewrite ?length_app; lia.
Qed.

Lemma checksum_range b : (checksum b < 65536)%N.
Proof.
  unfold checksum. assert (7 < 65536)%N as H by lia. revert H. generalize 7%N.
  induction b as [|c b IH]; intros h H; cbn [foldl]; [done|]. apply IH.
  pose proof (N.mod_lt (h * 31 + c) 65521 ltac:(lia)). lia.
Qed.

#[global] Instance platform_laws : PlatformLaws.
Proof.
  split.
  - intros a b H. cbn. rewrite !length_app. pose proof (flat_map_submseteq member _ _ (map_to_list_submseteq _ _ H)). lia.
  - done.
  - intros b. pose proof (checksum_range b). unfold sha256, Demo.sha256. repeat constructor.
    + by apply N.Div0.div_lt_upper_bound.
    + by apply N.mod_lt.
  - by_compute.
  - by_compute.
  - by_compute.
  - repeat constructor; try done; by_compute.
Qed.

(** The text of an array is that of its elements, each with a comma. *)
Lemma toJson_insert o k v : v ≠ JUndef →
  List.length (toJson (jinsert o k v)) = (2 + List.length (member (u k, v)) + List.length (flat_map member (map_to_list (delete (u k) o))))%nat.
Proof.
  intros Hv. unfold toJson, jinsert, jset. replace (match v with JUndef => _ | _ => _ end) with (<[u k := v]> o) by by destruct v.
  rewrite <- insert_delete_eq. cbn [List.length]. rewrite length_app.
  assert (Hp := map_to_list_insert (delete (u k) o) (u k) v (lookup_delete_eq o (u k))).
  assert (List.length (flat_map member (map_to_list (<[u k := v]> (delete (u k) o)))) = List.length (flat_map member ((u k, v) :: map_to_list (delete (u k) o)))) as ->.
  { apply Nat.le_antisymm; apply flat_map_submseteq; by rewrite Hp. }
  cbn [flat_map]. rewrite length_app. cbn [List.length]. lia.
Qed.
Lemma encode_object m : List.length (encode (JObj m)) = List.length (toJson m).
Proof.
  cbn [encode]. unfold toJson. cbn [List.length]. rewrite !length_app. do 2 f_equal. rewrite map_fold_foldr.
  induction (map_to_list m) as [|[k x] l IH]; [done|]. cbn [foldr flat_map uncurry]. unfold member at 1.
  cbn [fst snd]. rewrite !length_app in *. cbn [List.length]. rewrite !length_app. cbn [List.length]. rewrite IH. lia.
Qed.
Lemma toJson_array o k l :
  (List.length (toJson (jinsert o k (JArr (map JObj l))))
    <= List.length (toJson (jinsert o k (JArr []))) + sum_list_with (λ e, S (List.length (toJson e))) l)%nat.
Proof.
  assert (E : List.length (encode (JArr (map JObj l))) = (2 + sum_list_with (λ e, S (List.length (toJson e))) l)%nat).
  { change (encode (JArr (map JObj l))) with (91%N :: concat (map (λ x, encode x ++ [44%N]) (map JObj l)) ++ [93%N]).
    cbn [List.length]. rewrite length_app. cbn [List.length].
    enough (List.length (concat (map (λ x, encode x ++ [44%N]) (map JObj l))) = sum_list_with (λ e, S (List.length (toJson e))) l) by lia.
    induction l as [|e l IH]; [done|]. cbn [map concat]. rewrite !length_app, IH, encode_object. cbn [List.length sum_list_with]. lia. }
  rewrite !toJson_insert by done. unfold member. cbn [fst snd]. rewrite !length_app. cbn [List.length]. rewrite !length_app, E. cbn. lia.
Qed.

(** A file record of one replica. *)
Definition uuid : QString := u "11111111-2222-3333-4444-555555555555".
Definition record (path : string) (n : Z) : jobj :=
  Records.versioned (obj [("path", JS path); ("kind", JS "file"); ("size", JS "3");
    ("hash", JStr (Records.digest (u "abc"))); ("clock", JObj {[ uuid := jnum n ]})]%string).
Example record_valid : Records.validRecord (record "photos/a.png" 1) = true.
Proof. by vm_compute. Qed.
End Demo.
