(* ===== verification/RecordLaws.v ===== *)
(** What the replication records of src/Sync/Replica.cpp promise: the clock order,
    the join of clocks, the map from logical keys to container paths and the
    names of conflict copies. *)
From S2P Require Import Prelude Qt Records Demo.
Open Scope Z_scope.

Module RecordLaws.
Import Records.
Section properties.
Context {PF : Platform} {PL : PlatformLaws}.

(** [compare] decides the product order of vector clocks: its four answers say
    exactly whether the incoming clock is the same as, above, below or concurrent
    to the local one, absent components counting as zero. *)
Theorem compare_decides_clock_order a b :
  (compare a b = 0 ↔ clock_equiv a b)
  ∧ (compare a b = 1 ↔ clock_le b a ∧ ¬ clock_le a b)
  ∧ (compare a b = -1 ↔ clock_le a b ∧ ¬ clock_le b a)
  ∧ (compare a b = 2 ↔ ¬ clock_le a b ∧ ¬ clock_le b a).
Proof.
  split; [apply compare_eq|].
  destruct (compare_cases a b) as [H|[H|[H|H]]]; destruct H as (?&?&->); intuition lia.
Qed.

(** [joined] is the least upper bound of two clocks of counters, so it dominates
    both and adds nothing that neither has seen; joining is commutative,
    associative and idempotent up to clock equality. *)
Theorem joined_least_upper_bound a b c :
  clock_nonneg a → clock_nonneg b → clock_nonneg c →
  clock_le a (joined a b) ∧ clock_le b (joined a b)
  ∧ (clock_le a c → clock_le b c → clock_le (joined a b) c)
  ∧ clock_equiv (joined a b) (joined b a)
  ∧ clock_equiv (joined (joined a b) c) (joined a (joined b c))
  ∧ clock_equiv (joined a a) a.
Proof.
  intros Ha Hb Hc. pose proof (joined_nonneg a b Ha) as Hab.
  split_and!; [| |intros H1 H2|..]; intros k; [..|specialize (H1 k); specialize (H2 k)| | |];
    rewrite ?clockAt_joined by (done || by apply joined_nonneg); lia.
Qed.

(** Two different logical keys never name the same place of the container, and
    an accepted key cannot leave its area: no component of the key is empty, ".",
    ".." or private to the store, and the path is the area's directory followed by
    the rest of the key. *)
Theorem physical_confined k k' :
  physical k ≠ [] →
  (physical k = physical k' → k = k')
  ∧ Forall (λ p, p ≠ [] ∧ p ≠ u "." ∧ p ≠ u "..") (qsplit slash k)
  ∧ ∃ s, s ∈ sections ∧ k = s.1 ++ slash :: sectionTail slash k
         ∧ physical k = s.2 ++ slash :: sectionTail slash k.
Proof.
  intros Hk. destruct (physical_inv k Hk) as (s & Hs & Ek & Ep & _ & Hc). split_and!.
  - by apply physical_inj.
  - apply physical_nonempty in Hk as (Hl & _). eapply Forall_impl; [apply (legal_parts _ Hl)|].
    intros p Hp. unfold badPart, isEmpty in Hp. by bool_hyps.
  - eauto.
Qed.

(** A conflict copy of a valid record can be stored: it lies in the directory of
    the original, has another name, and is itself an accepted key as long as it
    keeps within the length the store allows. *)
Theorem conflict_copy_legal e :
  validRecord e = true → qsize (conflictPath e) ≤ 3500 →
  physical (conflictPath e) ≠ []
  ∧ conflictPath e ≠ toStr e.["path"]
  ∧ ∃ d n n', (toStr e.["path"] = d ++ n) ∧ (conflictPath e = d ++ n') ∧ slash ∉ n ∧ slash ∉ n'.
Proof.
  intros Hv Hz. pose proof (validRecord_path e Hv) as Hp. destruct (validRecord_version e Hv) as [_ Hh].
  split; [by apply conflict_legal|]. split; [by apply conflict_differs|].
  destruct (conflict_directory e) as (d & n & n' & Ek & Ek' & Hn & En').
  exists d, n, n'. split_and!; [done..|]. rewrite En'. by apply conflict_name.
Qed.
End properties.

(** ** Examples *)
Lemma joined_least_upper_bound_witness :
  let a : jobj := {[ u "r1" := jnum 3 ]} in
  let b : jobj := {[ u "r1" := jnum 1; u "r2" := jnum 2 ]} in
  compare a b = 2 ∧ clock_le b (joined a b).
Proof.
  intros a b. split; [by vm_compute|].
  assert (∀ c : jobj, Forall (λ kv, 0 ≤ jlong kv.2) (map_to_list c) → clock_nonneg c) as Hc.
  { intros c Hf k. unfold clockAt. destruct (c !! k) eqn:E; [|done]. rewrite Forall_forall in Hf.
    apply (Hf (k, _)). by apply elem_of_map_to_list. }
  refine (proj1 (proj2 (joined_least_upper_bound a b a _ _ _))); apply Hc;
    by_compute.
Defined.

Lemma physical_confined_witness :
  physical (u "photos/a/b.png") = u "Photos/a/b.png"
  ∧ Forall (λ p, p ≠ [] ∧ p ≠ u "." ∧ p ≠ u "..") (qsplit slash (u "photos/a/b.png")).
Proof.
  split; [by vm_compute|].
  refine (proj1 (proj2 (physical_confined (u "photos/a/b.png") (u "photos/a/b.png") _))).
  by_compute.
Defined.

Lemma conflict_copy_legal_witness : physical (conflictPath (Demo.record "photos/a.png" 1)) ≠ [].
Proof.
  refine (proj1 (conflict_copy_legal (Demo.record "photos/a.png" 1) _ _)); by vm_compute.
Defined.
End RecordLaws.
