(* ===== verification/Namespace.v ===== *)
(** src/Sync/NamespaceJournal.cpp: the authority's append-only journal of
    namespace revisions, the pages it serves and the checks with which a mirror
    imports them. *)
From S2P Require Import Prelude Qt Records Demo.
Open Scope Z_scope.

Module Namespace.
Section with_platform.
Context {PF : Platform}.
Import Records.

(** ** The two tables of the journal
    [namespace_revisions(sequence PRIMARY KEY, revision UNIQUE, path, data)] is
    the list of its rows in ascending sequence; [object_locations] has the
    primary key (version, provider).  A data blob is the object it serialises. *)
Record NsRow := mkRow {
  sequence : Z;
  revision : QString;
  path : QString;
  data : jobj
}.
Record Journal := mkJournal {
  rows : list NsRow;
  locations : list (QString * QString * jobj);
  space : QString;
  authority : QString;
  error : QString
}.
#[global] Instance NsRow_eq_dec : EqDecision NsRow.
Proof. solve_decision. Defined.

Definition set_rows (r : list NsRow) (j : Journal) : Journal :=
  mkJournal r (locations j) (space j) (authority j) (error j).
Definition set_locations (l : list (QString * QString * jobj)) (j : Journal) : Journal :=
  mkJournal (rows j) l (space j) (authority j) (error j).
Definition set_error (e : QString) (j : Journal) : Journal :=
  mkJournal (rows j) (locations j) (space j) (authority j) e.

(** The statements the journal executes: [sql s] tells whether SQLite runs [s]. *)
Inductive stmt :=
| SelectHead
| SelectRevision (id : QString)
| SelectObject (path : QString)
| SelectLocations (version : QString)
| SelectPage
| InsertRevision (sequence : Z)
| UpsertLocation
| DeleteRevisions
| DeleteLocations.
Variable sql : stmt → bool.
(** The text of QSqlQuery::lastError after a refused statement. *)
Variable lastError : QString.

Definition bytes (v : jobj) : list N := toJson v.
Definition hash (v : jobj) : QString := digest (bytes v).
Definition content (e : jobj) : jobj :=
  foldl (λ result key, jinsert result key e.[key]) ∅
    ["path"; "kind"; "size"; "hash"; "clock"; "version"]%string.
Definition projected (r : jobj) : jobj :=
  foldl (λ e key, jinsert e key r.[key]) (toObj r.["object"])
    ["namespace"; "authority"; "revision"; "sequence"]%string.
Definition counter (v : jval) : Z :=
  match toLongLong (toStr v) with
  | Some n => if (0 <=? n) && (n <=? 9007199254740991) then n else -1
  | None => -1
  end.
Definition failure (error : QString) : jobj :=
  obj [("ok", JBool false); ("error", JStr error)]%string.

(** Both DELETEs, in order; the first failure stops and is reported. *)
Definition clear (j : Journal) : Journal * bool :=
  if sql DeleteRevisions then
    let j := set_rows [] j in
    if sql DeleteLocations then (set_locations [] j, true) else (set_error lastError j, false)
  else (set_error lastError j, false).

Definition state (j : Journal) : jobj :=
  let found := if sql SelectHead then last (rows j) else None in
  obj [("namespace", JStr (space j)); ("authority", JStr (authority j));
       ("sequence", match found with Some r => jnum (sequence r) | None => JS "0" end);
       ("head", JStr match found with Some r => revision r | None => [] end);
       ("namespaceVersion", JNum 1)]%string.

Definition findRevision (j : Journal) (id : QString) : jobj :=
  if sql (SelectRevision id)
  then match List.find (λ r, bool_decide (revision r = id)) (rows j) with
       | Some r => data r
       | None => ∅
       end
  else ∅.

(** The last row of a path, in sequence order. *)
Definition lastOfPath (l : list NsRow) (p : QString) : option NsRow :=
  last (filter (λ r, path r = p) l).

Definition byProvider (a b : QString * QString * jobj) : Prop := qle a.1.2 b.1.2.
#[global] Instance byProvider_dec : RelDecision byProvider := λ a b, decide (qle a.1.2 b.1.2).
Definition locationsOf (j : Journal) (version : QString) : list jval :=
  let rows := filter (λ l : QString * QString * jobj, l.1.1 = version) (locations j) in
  map (λ l : QString * QString * jobj, JObj l.2) (merge_sort byProvider rows).

Definition object (j : Journal) (p : QString) : jobj :=
  if sql (SelectObject p)
  then match lastOfPath (rows j) p with
       | None => ∅
       | Some r =>
           let result := projected (data r) in
           let version := toStr result.["version"] in
           jinsert result "locations"
             (JArr (if sql (SelectLocations version) then locationsOf j version else []))
       end
  else ∅.

(** INSERT INTO namespace_revisions: refused on a duplicate sequence or revision. *)
Fixpoint insertRow (r : NsRow) (l : list NsRow) : list NsRow :=
  match l with
  | [] => [r]
  | x :: l' => if sequence r <? sequence x then r :: l else x :: insertRow r l'
  end.
Definition append (j : Journal) (r : jobj) : Journal * bool :=
  let row := mkRow (counter r.["sequence"]) (toStr r.["revision"])
                   (toStr (toObj r.["object"]).["path"]) r in
  if sql (InsertRevision (sequence row))
     && forallb (λ x, negb (sequence x =? sequence row)
                      && bool_decide (revision x ≠ revision row)) (rows j)
  then (set_rows (insertRow row (rows j)) j, true)
  else (set_error lastError j, false).

(** The revision [commit] would add for [record] after [old] and [head]. *)
Definition parentsOf (j : Journal) (old : jobj) (base : QString) : list jval :=
  (if jempty old then [] else [old.["revision"]])
  ++ (if negb (isEmpty base) && bool_decide (old.["revision"] ≠ JStr base)
         && negb (jempty (findRevision j base))
      then [JStr base] else []).
Definition revisionOf (j : Journal) (record old head : jobj) (sequence : Z)
    (proposal base : QString) : jobj :=
  let r := obj [("namespace", JStr (space j)); ("authority", JStr (authority j));
                ("sequence", jnum sequence); ("previous", head.["head"]);
                ("parents", JArr (parentsOf j old base));
                ("object", JObj (content record)); ("proposal", JStr proposal)]%string in
  jinsert r "revision" (JStr (hash r)).
Definition commit (j : Journal) (record : jobj) (proposal base : QString) : Journal * jobj :=
  let old := object j (toStr record.["path"]) in
  if bool_decide (old.["version"] = record.["version"]) then (j, jremove old "locations") else
  let head := state j in
  let sequence := counter head.["sequence"] + 1 in
  if (9007199254740991 <? sequence) || negb (validRecord record)
  then (set_error (u "invalid_namespace_commit") j, ∅) else
  let r := revisionOf j record old head sequence proposal base in
  let '(j', ok) := append j r in
  (j', if ok then projected r else ∅).

(** ** Pages *)
(** The rows of a page's SELECT: the whole history, or each path's newest
    revision within the bound. *)
Definition superseded (j : Journal) (r : NsRow) (through : Z) : bool :=
  existsb (λ newer, bool_decide (path newer = path r)
                    && (sequence r <? sequence newer) && (sequence newer <=? through)) (rows j).
Definition selectPage (j : Journal) (after through : Z) (history : bool) : list NsRow :=
  take 128
    (List.filter (λ r, (after <? sequence r) && (sequence r <=? through)
                       && (history || negb (superseded j r through))) (rows j)).
(** The loop over the result set: entries, next, total, limited. *)
Fixpoint fillPage (l : list NsRow) (history : bool) (entries : list jval) (next total : Z)
    : list jval * Z * bool :=
  match l with
  | [] => (entries, next, false)
  | r :: l' =>
      let value := if history then data r else projected (data r) in
      let length := Z.of_nat (List.length (bytes value)) in
      if 256 * 1024 <? total + length then (entries, next, true)
      else fillPage l' history (entries ++ [JObj value]) (sequence r) (total + length)
  end.
Definition changes (j : Journal) (after through : Z) (history : bool) : jobj :=
  let current := jlong (state j).["sequence"] in
  let through := if through =? 0 then current else through in
  if (after <? 0) || (through <? after) || (current <? through)
  then failure (u "invalid_namespace_cursor") else
  if negb (sql SelectPage) then failure (u "namespace_read_failed") else
  let '(entries, next, limited) := fillPage (selectPage j after through history) history [] after 0 in
  let more := limited || ((Z.of_nat (List.length entries) =? 128) && (next <? through)) in
  obj [("ok", JBool true); ("namespace", JStr (space j)); ("authority", JStr (authority j));
       ("entries", JArr entries); ("through", jnum through);
       ("next", jnum (if more then next else through)); ("more", JBool more)]%string.

(** ** Import *)
Definition validPage (j : Journal) (page : jobj) (sequence : Z) : bool :=
  let next := counter page.["next"] in let through := counter page.["through"] in
  negb (bool_decide (page.["namespace"] ≠ JStr (space j))
        || bool_decide (page.["authority"] ≠ JStr (authority j))
        || negb (isArray page.["entries"]) || negb (toBool page.["ok"])
        || negb (isBool page.["more"]) || (next <? sequence) || (through <? next)
        || (if toBool page.["more"] then (next <=? sequence) || (through <=? next)
            else negb (next =? through))
        || (128 <? Z.of_nat (List.length (toArr page.["entries"])))
        || (400000 <? Z.of_nat (List.length (bytes page)))).
(** One entry of a page: the journal with its row, or the error. *)
Definition acceptEntry (j : Journal) (sequence : Z) (previous : QString) (value : jval)
    : Journal * option QString :=
  let r := toObj value in
  let id := toStr r.["revision"] in
  let r := jremove r "revision" in
  let parents := toArr r.["parents"] in
  if bool_decide (id ≠ hash r) || bool_decide (r.["namespace"] ≠ JStr (space j))
     || bool_decide (r.["authority"] ≠ JStr (authority j))
     || negb (counter r.["sequence"] =? sequence + 1)
     || bool_decide (r.["previous"] ≠ JStr previous)
     || negb (isArray r.["parents"]) || (2 <? Z.of_nat (List.length parents))
     || negb (validRecord (toObj r.["object"]))
  then (set_error (u "invalid_namespace_revision") j, None) else
  let old := object j (toStr (toObj r.["object"]).["path"]) in
  if negb (jempty old) && negb (bool_decide (old.["revision"] ∈ parents))
  then (set_error (u "namespace_parent_missing") j, None) else
  if existsb (λ p, negb (isString p) || jempty (findRevision j (toStr p))) parents
  then (set_error (u "namespace_parent_missing") j, None) else
  let '(j', ok) := append j (jinsert r "revision" (JStr id)) in
  (j', if ok then Some id else None).
Fixpoint acceptEntries (j : Journal) (sequence : Z) (previous : QString) (entries : list jval)
    : Journal * option Z :=
  match entries with
  | [] => (j, Some sequence)
  | value :: rest =>
      match acceptEntry j sequence previous value with
      | (j', Some id) => acceptEntries j' (sequence + 1) id rest
      | (j', None) => (j', None)
      end
  end.
Definition accept (j : Journal) (page : jobj) : Journal * bool :=
  let head := state j in
  let sequence := counter head.["sequence"] in
  let previous := toStr head.["head"] in
  if negb (validPage j page sequence) then (set_error (u "invalid_namespace_page") j, false) else
  match acceptEntries j sequence previous (toArr page.["entries"]) with
  | (j', Some s) =>
      if counter page.["next"] =? s then (j', true)
      else (set_error (u "namespace_sequence_gap") j', false)
  | (j', None) => (j', false)
  end.

Definition contains (j : Journal) (record : jobj) : bool :=
  let r := findRevision j (toStr record.["revision"]) in
  negb (jempty r) && bool_decide (record.["namespace"] = JStr (space j))
  && bool_decide (record.["authority"] = JStr (authority j))
  && bool_decide (projected r = record).

(** INSERT ... ON CONFLICT(version,provider) DO UPDATE. *)
Definition locate (j : Journal) (version : QString) (location : jobj) : Journal * bool :=
  let provider := toStr location.["provider"] in
  if sql UpsertLocation
  then (set_locations (filter (λ l, l.1 ≠ (version, provider)) (locations j)
                       ++ [(version, provider, location)]) j, true)
  else (set_error lastError j, false).

(** ** Well-formed journals
    The row that follows the rows [prev]: its number is the next one, it names the
    previous head, it is named by the digest of its own body, its parents are known
    and include the path's newest revision. *)
Record row_ok (space authority : QString) (prev : list NsRow) (r : NsRow) : Prop := {
  ok_sequence : sequence r = Z.of_nat (List.length prev) + 1;
  ok_bound : sequence r ≤ MaxCounter;
  ok_revision : (data r).["revision"] = JStr (revision r);
  ok_hash : revision r = hash (jremove (data r) "revision");
  ok_path : path r = toStr (toObj (data r).["object"]).["path"];
  ok_space : (data r).["namespace"] = JStr space;
  ok_authority : (data r).["authority"] = JStr authority;
  ok_counter : counter (data r).["sequence"] = sequence r;
  ok_previous : (data r).["previous"] = JStr (match last prev with Some p => revision p | None => [] end);
  ok_parents_array : isArray (data r).["parents"] = true;
  ok_parents_length : Z.of_nat (List.length (toArr (data r).["parents"])) ≤ 2;
  ok_record : validRecord (toObj (data r).["object"]) = true;
  ok_parent old : lastOfPath prev (path r) = Some old →
    JStr (revision old) ∈ toArr (data r).["parents"];
  ok_known p : p ∈ toArr (data r).["parents"] → ∃ x, x ∈ prev ∧ p = JStr (revision x);
  ok_fresh x : x ∈ prev → revision x ≠ revision r
}.

(** A journal grown one well-formed row at a time. *)
Inductive chain (space authority : QString) : list NsRow → Prop :=
| chain_nil : chain space authority []
| chain_snoc l r : chain space authority l → row_ok space authority l r →
    chain space authority (l ++ [r]).
Definition wf (j : Journal) : Prop := chain (space j) (authority j) (rows j).

Definition headOf (l : list NsRow) : QString :=
  match last l with Some r => revision r | None => [] end.

Lemma chain_app_inv s a l1 l2 : chain s a (l1 ++ l2) → chain s a l1.
Proof.
  induction l2 as [|x l2 IH] using rev_ind; [by rewrite app_nil_r|].
  rewrite app_assoc. intros H. apply IH. inversion H as [E|l r Hl Hr E].
  - by destruct (l1 ++ l2).
  - by apply app_inj_tail in E as [-> _].
Qed.

Lemma chain_snoc_inv s a l r : chain s a (l ++ [r]) → chain s a l ∧ row_ok s a l r.
Proof.
  intros H. inversion H as [E|l' r' Hl Hr E].
  - by destruct l.
  - by apply app_inj_tail in E as [-> ->].
Qed.

Lemma chain_row s a l1 r l2 : chain s a (l1 ++ r :: l2) → chain s a l1 ∧ row_ok s a l1 r.
Proof.
  intros H. apply chain_snoc_inv, (chain_app_inv _ _ _ l2). by rewrite <- app_assoc.
Qed.

Lemma chain_lookup s a l i r : chain s a l → l !! i = Some r → row_ok s a (take i l) r.
Proof.
  intros H Hi. rewrite <- (take_drop_middle l i r Hi) in H. by apply chain_row in H as [_ H].
Qed.

Lemma chain_sequence s a l i r : chain s a l → l !! i = Some r → sequence r = Z.of_nat i + 1.
Proof.
  intros H Hi. rewrite (ok_sequence _ _ _ _ (chain_lookup _ _ _ _ _ H Hi)).
  rewrite length_take. apply lookup_lt_Some in Hi. lia.
Qed.

Lemma chain_bound s a l : chain s a l → Z.of_nat (List.length l) ≤ MaxCounter.
Proof.
  intros H. destruct (snoc_inv l) as [->|(l' & r & ->)]; [done|].
  apply chain_snoc_inv in H as [_ H]. pose proof (ok_sequence _ _ _ _ H). pose proof (ok_bound _ _ _ _ H).
  rewrite length_app. cbn. lia.
Qed.

Lemma chain_elem s a l r : chain s a l → r ∈ l → 1 ≤ sequence r ≤ Z.of_nat (List.length l).
Proof.
  intros H (i & Hi)%list_elem_of_lookup. rewrite (chain_sequence _ _ _ _ _ H Hi).
  apply lookup_lt_Some in Hi. lia.
Qed.

Lemma last_sequence s a l r : chain s a l → last l = Some r → sequence r = Z.of_nat (List.length l).
Proof.
  intros H (l' & ->)%last_Some. apply chain_snoc_inv in H as [_ H].
  rewrite (ok_sequence _ _ _ _ H), length_app. cbn. lia.
Qed.

Lemma data_nonempty s a prev r : row_ok s a prev r → jempty (data r) = false.
Proof.
  intros H. unfold jempty. apply bool_decide_eq_false. intros E.
  pose proof (ok_revision _ _ _ _ H) as H'. rewrite E, jvalue_empty in H'. done.
Qed.

Lemma counter_jnum n : 0 ≤ n ≤ MaxCounter → counter (jnum n) = n.
Proof.
  intros H. unfold counter, jnum. cbn [toStr]. unfold MaxCounter in H.
  rewrite toLongLong_numberStr by (unfold int64_min, int64_max; lia).
  rewrite (proj2 (Z.leb_le _ _)), (proj2 (Z.leb_le _ _)) by lia. done.
Qed.

Lemma jlong_jnum_counter n : 0 ≤ n ≤ MaxCounter → jlong (jnum n) = n.
Proof. intros. unfold MaxCounter in *. apply jlong_jnum. unfold int64_min, int64_max. lia. Qed.

Lemma insertRow_last r l :
  (∀ x, x ∈ l → sequence x ≤ sequence r) → insertRow r l = l ++ [r].
Proof.
  induction l as [|x l IH]; intros H; cbn; [done|].
  rewrite (proj2 (Z.ltb_ge _ _)) by (apply H; left). rewrite IH; [done|].
  intros y Hy. apply H. by right.
Qed.

(** ** The statements of a healthy database *)
Section healthy.
Hypothesis sql_ok : ∀ s, sql s = true.

Lemma state_head j : wf j → counter (state j).["sequence"] = Z.of_nat (List.length (rows j)).
Proof.
  intros H. unfold state. rewrite sql_ok. jsimp. destruct (last (rows j)) as [r|] eqn:E.
  - pose proof (chain_bound _ _ _ H). rewrite counter_jnum; rewrite (last_sequence _ _ _ _ H E); lia.
  - apply last_None in E as ->. by vm_compute.
Qed.

Lemma state_sequence j : wf j → jlong (state j).["sequence"] = Z.of_nat (List.length (rows j)).
Proof.
  intros H. unfold state. rewrite sql_ok. jsimp. destruct (last (rows j)) as [r|] eqn:E.
  - pose proof (chain_bound _ _ _ H). rewrite jlong_jnum_counter; rewrite (last_sequence _ _ _ _ H E); lia.
  - apply last_None in E as ->. by vm_compute.
Qed.

Lemma state_previous j : (state j).["head"] = JStr (headOf (rows j)).
Proof. unfold state. rewrite sql_ok. by jsimp. Qed.

Lemma findRevision_known j r :
  wf j → r ∈ rows j → jempty (findRevision j (revision r)) = false.
Proof.
  intros H Hr. unfold findRevision. rewrite sql_ok.
  destruct (List.find _ _) as [x|] eqn:E.
  - apply find_some in E as [Hx%list_elem_of_In _]. apply list_elem_of_lookup in Hx as (i & Hi).
    eapply data_nonempty, chain_lookup; [exact H|exact Hi].
  - exfalso. apply list_elem_of_In in Hr. eapply find_none in E; [|exact Hr]. by bool_hyps.
Qed.

Lemma findRevision_some j id :
  jempty (findRevision j id) = false → ∃ r, r ∈ rows j ∧ revision r = id.
Proof.
  unfold findRevision. rewrite sql_ok. destruct (List.find _ _) as [x|] eqn:E; [|done]. intros _.
  apply find_some in E as [Hx%list_elem_of_In Hid]. bool_hyps. eauto.
Qed.

Lemma object_none j p : lastOfPath (rows j) p = None → object j p = ∅.
Proof. intros E. unfold object. by rewrite sql_ok, E. Qed.

Lemma object_some j p r :
  lastOfPath (rows j) p = Some r →
  jempty (object j p) = false ∧ ∀ k, k ≠ "locations"%string → (object j p).[k] = (projected (data r)).[k].
Proof.
  intros E. unfold object. rewrite sql_ok, E. split.
  - unfold jempty. apply bool_decide_eq_false. intros H.
    apply (f_equal (λ o, jvalue o "locations")) in H. rewrite jvalue_jinsert_eq, jvalue_empty in H. done.
  - intros k Hk. by rewrite jvalue_jinsert_ne.
Qed.

Lemma lastOfPath_elem l p r : lastOfPath l p = Some r → r ∈ l ∧ path r = p.
Proof.
  unfold lastOfPath. intros (l' & E)%last_Some.
  assert (r ∈ filter (λ r, path r = p) l) as H by (rewrite E; apply elem_of_app; right; by left).
  by apply list_elem_of_filter in H as [? ?].
Qed.

Lemma projected_revision d : (projected d).["revision"] = d.["revision"].
Proof. unfold projected. cbn [foldl]. by jsimp. Qed.

Lemma object_revision j p r :
  wf j → lastOfPath (rows j) p = Some r → (object j p).["revision"] = JStr (revision r).
Proof.
  intros H E. rewrite (proj2 (object_some _ _ _ E)) by done. rewrite projected_revision.
  apply lastOfPath_elem in E as [(i & Hi)%list_elem_of_lookup _].
  by rewrite (ok_revision _ _ _ _ (chain_lookup _ _ _ _ _ H Hi)).
Qed.

(** Appending the next row of a well-formed journal. *)
Lemma append_next j d :
  wf j → counter d.["sequence"] = Z.of_nat (List.length (rows j)) + 1 →
  (∀ x, x ∈ rows j → revision x ≠ toStr d.["revision"]) →
  append j d = (set_rows (rows j ++ [mkRow (counter d.["sequence"]) (toStr d.["revision"])
                                        (toStr (toObj d.["object"]).["path"]) d]) j, true).
Proof.
  intros H Hs Hf. unfold append. rewrite sql_ok. cbn [revision sequence andb].
  replace (forallb _ (rows j)) with true.
  - do 2 f_equal. apply insertRow_last. intros x Hx. cbn. pose proof (chain_elem _ _ _ _ H Hx). lia.
  - symmetry. apply forallb_forall. intros x Hx%list_elem_of_In.
    pose proof (chain_elem _ _ _ _ H Hx). apply andb_true_iff. split.
    + apply negb_true_iff, Z.eqb_neq. lia.
    + by apply bool_decide_eq_true, Hf.
Qed.

Lemma append_inv j d j' :
  append j d = (j', true) →
  (∀ x, x ∈ rows j → revision x ≠ toStr d.["revision"])
  ∧ j' = set_rows (insertRow (mkRow (counter d.["sequence"]) (toStr d.["revision"])
                                   (toStr (toObj d.["object"]).["path"]) d) (rows j)) j.
Proof.
  unfold append. guard_case; intros [= <-]. split; [|done]. bool_hyps. intros x Hx%list_elem_of_In.
  eapply forallb_forall in H0; [|done]. bool_hyps. done.
Qed.

(** ** Import of one entry *)
Lemma append_chain j d :
  wf j → row_ok (space j) (authority j) (rows j)
           (mkRow (counter d.["sequence"]) (toStr d.["revision"]) (toStr (toObj d.["object"]).["path"]) d) →
  wf (set_rows (insertRow (mkRow (counter d.["sequence"]) (toStr d.["revision"])
                                 (toStr (toObj d.["object"]).["path"]) d) (rows j)) j).
Proof.
  intros H Hr. unfold wf. cbn. rewrite insertRow_last; [by constructor|].
  intros x Hx. rewrite (ok_sequence _ _ _ _ Hr). pose proof (chain_elem _ _ _ _ H Hx). lia.
Qed.

Lemma parents_known j parents :
  existsb (λ p, negb (isString p) || jempty (findRevision j (toStr p))) parents = false →
  ∀ p, p ∈ parents → ∃ x, x ∈ rows j ∧ p = JStr (revision x).
Proof.
  intros H p Hp. eapply existsb_false in H; [|done]. bool_hyps.
  match goal with Hf : jempty _ = false |- _ => apply findRevision_some in Hf as (x & Hx & Ex) end.
  exists x. split; [done|]. destruct p; try done. cbn in Ex. by rewrite Ex.
Qed.

Lemma lastOfPath_parent j p (parents : list jval) old :
  wf j → negb (jempty (object j p)) && negb (bool_decide ((object j p).["revision"] ∈ parents)) = false →
  lastOfPath (rows j) p = Some old → JStr (revision old) ∈ parents.
Proof.
  intros H E Ho. pose proof (object_some j _ _ Ho) as [Hne _]. rewrite Hne in E. cbn in E. bool_hyps.
  by rewrite <- (object_revision j p old).
Qed.

Lemma counter_range v : counter v = -1 ∨ 0 ≤ counter v ≤ MaxCounter.
Proof.
  unfold counter. destruct (toLongLong _); [|by left]. guard_case; [right|by left].
  unfold MaxCounter. bool_hyps. lia.
Qed.

Lemma acceptEntry_chain j value j' id :
  wf j → acceptEntry j (Z.of_nat (List.length (rows j))) (headOf (rows j)) value = (j', Some id) →
  wf j' ∧ ∃ r, rows j' = rows j ++ [r] ∧ revision r = id
               ∧ space j' = space j ∧ authority j' = authority j.
Proof.
  intros H. unfold acceptEntry. set (r := toObj value). set (b := jremove r "revision").
  guard_case; [done|]. guard_case; [done|]. guard_case; [done|].
  destruct (append _ _) as [j1 []] eqn:Ea; [|done]. intros [= -> <-].
  apply append_inv in Ea as [Hf ->]. bool_hyps.
  repeat match goal with Hn : ¬ _ ≠ _ |- _ => apply dec_stable in Hn end.
  set (d := jinsert b "revision" _) in *. set (row := mkRow _ _ _ d).
  assert (Hd : ∀ k, k ≠ "revision"%string → d.[k] = b.[k]) by (intros k Hk; by apply jvalue_jinsert_ne).
  assert (Hrev : d.["revision"] = JStr (toStr r.["revision"])) by (unfold d; by jsimp).
  assert (Hb : jremove d "revision" = b).
  { unfold d, b. by rewrite jremove_jinsert, jremove_jremove. }
  assert (row_ok (space j) (authority j) (rows j) row) as Hok.
  { constructor; unfold row; cbn [sequence revision path data]; rewrite ?Hb, ?Hrev, ?Hd by done; cbn [toStr]; try done.
    - pose proof (counter_range b.["sequence"]). lia.
    - intros old Ho. by eapply lastOfPath_parent.
    - by apply parents_known.
    - rewrite Hrev in Hf. done. }
  assert (insertRow row (rows j) = rows j ++ [row]) as Ei.
  { apply insertRow_last. intros x Hx. rewrite (ok_sequence _ _ _ _ Hok).
    pose proof (chain_elem _ _ _ _ H Hx). lia. }
  split; [by apply append_chain|]. exists row. split_and!; [exact Ei| |done|done].
  unfold row. cbn [revision]. by rewrite Hrev.
Qed.

Lemma acceptEntry_rows j s p value j' :
  acceptEntry j s p value = (j', None) →
  rows j' = rows j ∧ space j' = space j ∧ authority j' = authority j.
Proof.
  unfold acceptEntry. do 3 (guard_case; [by intros [= <-]|]).
  unfold append. guard_case; by intros [= <-].
Qed.

Lemma acceptEntries_chain entries j j' res :
  wf j →
  acceptEntries j (Z.of_nat (List.length (rows j))) (headOf (rows j)) entries = (j', res) →
  wf j' ∧ rows j `prefix_of` rows j'
  ∧ ∀ s, res = Some s → s = Z.of_nat (List.length (rows j')) ∧
      (List.length (rows j') = List.length (rows j) + List.length entries)%nat.
Proof.
  revert j. induction entries as [|v entries IH]; intros j H; cbn [acceptEntries].
  - intros [= <- <-]. split_and!; [done|done|]. intros s [= <-]. cbn. lia.
  - destruct (acceptEntry _ _ _ _) as [j1 [id|]] eqn:E.
    + apply acceptEntry_chain in E as (H1 & r & Er & <- & Es & Ea); [|done].
      intros E. specialize (IH j1 H1). rewrite Er, length_app in IH. cbn [List.length] in IH.
      rewrite Nat2Z.inj_add in IH. unfold headOf in IH. rewrite last_app_singleton in IH.
      apply IH in E as (Hw & Hp & Hs). split_and!; [done|..].
      * etransitivity; [|exact Hp]. by eexists.
      * intros s Hres. destruct (Hs s Hres) as [-> Hl]. cbn [List.length]. lia.
    + intros [= <- <-]. apply acceptEntry_rows in E as (Er & Es & Ea).
      unfold wf. rewrite Er, Es, Ea. split_and!; done.
Qed.

(** ** Replication: a well-formed row is accepted, and is stored as it was *)
Lemma row_eta s a l r :
  row_ok s a l r →
  mkRow (counter (data r).["sequence"]) (toStr (data r).["revision"])
        (toStr (toObj (data r).["object"]).["path"]) (data r) = r.
Proof.
  intros H. rewrite (ok_counter _ _ _ _ H), (ok_revision _ _ _ _ H), <- (ok_path _ _ _ _ H).
  by destruct r.
Qed.

Lemma acceptEntry_row j r :
  wf j → row_ok (space j) (authority j) (rows j) r →
  acceptEntry j (Z.of_nat (List.length (rows j))) (headOf (rows j)) (JObj (data r))
  = (set_rows (rows j ++ [r]) j, Some (revision r)).
Proof.
  intros H Hr. unfold acceptEntry. cbn [toObj].
  assert (Hd : ∀ k, k ≠ "revision"%string → (jremove (data r) "revision").[k] = (data r).[k])
    by (intros k Hk; by apply jvalue_jremove_ne).
  rewrite !Hd by done. rewrite (ok_revision _ _ _ _ Hr). cbn [toStr].
  rewrite <- (ok_hash _ _ _ _ Hr), (ok_space _ _ _ _ Hr), (ok_authority _ _ _ _ Hr),
    (ok_counter _ _ _ _ Hr), (ok_previous _ _ _ _ Hr), (ok_sequence _ _ _ _ Hr),
    (ok_parents_array _ _ _ _ Hr), (ok_record _ _ _ _ Hr), Z.eqb_refl.
  rewrite (proj2 (Z.ltb_ge _ _)) by (apply (ok_parents_length _ _ _ _ Hr)).
  fold (headOf (rows j)). rewrite !bool_decide_eq_false_2 by (intros Hn; by apply Hn). cbn [orb negb].
  replace (negb (jempty (object j (toStr (toObj (data r).["object"]).["path"]))) && _) with false.
  2: { rewrite <- (ok_path _ _ _ _ Hr). destruct (lastOfPath (rows j) (path r)) as [old|] eqn:E.
       - rewrite (object_revision j _ _ H E), bool_decide_eq_true_2; [by rewrite andb_false_r|].
         by apply (ok_parent _ _ _ _ Hr).
       - by rewrite (object_none _ _ E). }
  replace (existsb (λ p, negb (isString p) || jempty (findRevision j (toStr p))) (toArr (data r).["parents"])) with false.
  2: { symmetry. apply existsb_false. intros p Hp.
       destruct (ok_known _ _ _ _ Hr p Hp) as (x & Hx & ->). cbn. by apply findRevision_known. }
  rewrite jinsert_jremove; [|done|apply (ok_revision _ _ _ _ Hr)].
  rewrite append_next; [|done|..].
  - by rewrite (row_eta _ _ _ _ Hr).
  - by rewrite (ok_counter _ _ _ _ Hr), (ok_sequence _ _ _ _ Hr).
  - intros x Hx. rewrite (ok_revision _ _ _ _ Hr). cbn. by apply (ok_fresh _ _ _ _ Hr).
Qed.

Lemma acceptEntries_rows j more :
  chain (space j) (authority j) (rows j ++ more) →
  acceptEntries j (Z.of_nat (List.length (rows j))) (headOf (rows j)) (map (JObj ∘ data) more)
  = (set_rows (rows j ++ more) j, Some (Z.of_nat (List.length (rows j) + List.length more))).
Proof.
  revert j. induction more as [|r more IH]; intros j H; cbn [map acceptEntries].
  - rewrite app_nil_r, Nat.add_0_r. by destruct j.
  - pose proof (chain_row _ _ _ _ _ H) as [Hw Hr]. cbn [compose].
    rewrite acceptEntry_row by done.
    specialize (IH (set_rows (rows j ++ [r]) j)). cbn [rows space authority set_rows] in IH.
    rewrite <- app_assoc in IH. cbn [app] in IH. specialize (IH H).
    unfold headOf in IH. rewrite last_app_singleton, length_app in IH. cbn [List.length] in IH.
    rewrite Nat2Z.inj_add in IH. change (Z.of_nat 1) with 1 in IH. rewrite IH.
    cbn [List.length]. do 3 f_equal. lia.
Qed.

(** ** The rows a page carries *)
Lemma fillPage_spec l history entries next total :
  ∃ k, (k <= List.length l)%nat ∧
    fillPage l history entries next total
    = (entries ++ map (λ r, JObj (if history then data r else projected (data r))) (take k l),
       match last (take k l) with Some r => sequence r | None => next end,
       bool_decide (k < List.length l)%nat).
Proof.
  revert entries next total. induction l as [|r l IH]; intros entries next total; cbn [fillPage].
  - exists 0%nat. split; [done|]. by rewrite app_nil_r.
  - guard_case.
    + exists 0%nat. split; [lia|]. cbn [take map last]. rewrite app_nil_r.
      by rewrite bool_decide_eq_true_2 by (cbn; lia).
    + destruct (IH (entries ++ [JObj (if history then data r else projected (data r))])
        (sequence r) (total + Z.of_nat (List.length (bytes (if history then data r else projected (data r)))))) as (k & Hk & ->).
      exists (S k). split; [cbn; lia|]. cbn [take map]. rewrite <- app_assoc. cbn [app].
      f_equal; [f_equal|].
      * rewrite last_cons. by destruct (last (take k l)).
      * cbn [List.length]. apply bool_decide_ext. lia.
Qed.

(** What a page carries is at most 256 KiB of JSON text. *)
Lemma fillPage_bytes l history entries next total : total ≤ 256 * 1024 →
  ∃ vs, (fillPage l history entries next total).1.1 = entries ++ map JObj vs ∧ (List.length vs <= List.length l)%nat
    ∧ total + Z.of_nat (sum_list_with (λ v, List.length (bytes v)) vs) ≤ 256 * 1024.
Proof.
  revert entries next total. induction l as [|r l IH]; intros entries next total Ht; cbn [fillPage].
  - exists []. rewrite app_nil_r. split_and!; [done|done|cbn; lia].
  - guard_case; [exists []; rewrite app_nil_r; split_and!; [done|cbn; lia|cbn; lia]|].
    set (v := if history then data r else projected (data r)) in *.
    destruct (IH (entries ++ [JObj v]) (sequence r) (total + Z.of_nat (List.length (bytes v)))) as (vs & -> & Hl & Hb); [lia|].
    exists (v :: vs). rewrite <- app_assoc. split_and!; [done|cbn; lia|cbn [sum_list_with]; lia].
Qed.
Lemma changes_carries j after through :
  toBool (changes j after through true).["ok"] = true →
  ∃ vs, (changes j after through true).["entries"] = JArr (map JObj vs) ∧ (List.length vs <= 128)%nat
    ∧ Z.of_nat (sum_list_with (λ v, List.length (bytes v)) vs) ≤ 256 * 1024.
Proof.
  unfold changes. set (t := if through =? 0 then _ else _). intros H.
  destruct (_ || _); [by vm_compute in H|]. destruct (negb _); [by vm_compute in H|].
  destruct (fillPage_bytes (selectPage j after t true) true [] after 0) as (vs & Ev & Hl & Hb); [lia|].
  assert (List.length vs <= 128)%nat by (etransitivity; [exact Hl|]; unfold selectPage; rewrite length_take; lia).
  destruct (fillPage _ _ _ _ _) as [[es nx] lim]. cbn [fst app] in Ev. subst es. exists vs. split_and!; [by jsimp|done|lia].
Qed.
(** A page with short names is one that [accept] takes: compact JSON text of an array
    is that of its elements, each with a comma. *)
Lemma changes_small j after through :
  let page := changes j after through true in
  (∀ o l, (List.length (toJson (jinsert o "entries" (JArr (map JObj l))))
    <= List.length (toJson (jinsert o "entries" (JArr []))) + sum_list_with (λ e, S (List.length (toJson e))) l)%nat) →
  toBool page.["ok"] = true → Z.of_nat (List.length (bytes (jinsert page "entries" (JArr [])))) ≤ 128 * 1024 →
  Z.of_nat (List.length (bytes page)) ≤ 400000.
Proof.
  intros page Hc Hok Hs. destruct (changes_carries j after through Hok) as (vs & Ev & Hl & Hb).
  specialize (Hc page vs). assert (page = jinsert page "entries" (JArr (map JObj vs))) as E.
  { fold page in Ev. rewrite <- Ev. symmetry. apply jinsert_id; [by rewrite Ev|].
    revert Ev. unfold jvalue. destruct (page !! _); [done|by intros]. }
  rewrite <- E in Hc. unfold bytes in *.
  assert (sum_list_with (λ e : jobj, S (List.length (toJson e))) vs = sum_list_with (λ e : jobj, List.length (toJson e)) vs + List.length vs)%nat.
  { clear. induction vs as [|v vs IH]; [done|]. cbn [sum_list_with List.length]. lia. }
  lia.
Qed.

(** The first row of a page is always carried when it fits alone. *)
Lemma fillPage_first r l (history : bool) next :
  Z.of_nat (List.length (bytes (if history then data r else projected (data r)))) ≤ 256 * 1024 →
  (fillPage (r :: l) history [] next 0).1.1 ≠ [].
Proof.
  intros H. cbn [fillPage]. rewrite (proj2 (Z.ltb_ge _ _)) by lia.
  destruct (fillPage_spec l history ([] ++ [JObj (if history then data r else projected (data r))]) (sequence r)
    (0 + Z.of_nat (List.length (bytes (if history then data r else projected (data r)))))) as (k & _ & ->).
  done.
Qed.

Lemma filter_range l n m :
  (∀ i r, l !! i = Some r → sequence r = Z.of_nat i + 1) → (m ≤ List.length l)%nat →
  List.filter (λ r, (Z.of_nat n <? sequence r) && (sequence r <=? Z.of_nat m)) l = drop n (take m l).
Proof.
  revert m. induction l as [|r l IH] using rev_ind; intros m Hs Hm; [by rewrite take_nil, drop_nil|].
  assert (∀ i x, l !! i = Some x → sequence x = Z.of_nat i + 1) as Hs'
    by (intros i x Hi; apply Hs, lookup_app_l_Some, Hi).
  assert (sequence r = Z.of_nat (List.length l) + 1) as Hr
    by (apply Hs; rewrite lookup_app_r, Nat.sub_diag by lia; done).
  rewrite length_app in Hm. cbn in Hm. rewrite List.filter_app. cbn [List.filter]. rewrite Hr.
  destruct (decide (m ≤ List.length l)%nat).
  - rewrite (proj2 (Z.leb_gt (Z.of_nat (List.length l) + 1) (Z.of_nat m))) by lia.
    rewrite andb_false_r, app_nil_r, IH, take_app_le by done. done.
  - assert (m = S (List.length l)) as -> by lia.
    rewrite (take_ge (l ++ [r])) by (rewrite length_app; cbn; lia).
    rewrite (List.filter_ext_in _ (λ x, (Z.of_nat n <? sequence x) && (sequence x <=? Z.of_nat (List.length l)))).
    + rewrite IH, take_ge by (done || lia).
      rewrite (proj2 (Z.leb_le (Z.of_nat (List.length l) + 1) _)) by lia. rewrite andb_true_r.
      destruct (Z.ltb_spec (Z.of_nat n) (Z.of_nat (List.length l) + 1)).
      * by rewrite drop_app_le by lia.
      * rewrite app_nil_r, !drop_ge; [done|rewrite ?length_app; cbn; lia..].
    + intros x (i & Hi)%list_elem_of_In%list_elem_of_lookup. rewrite (Hs' _ _ Hi).
      apply lookup_lt_Some in Hi. f_equal. rewrite !(proj2 (Z.leb_le _ _)) by lia. done.
Qed.

(** ** A page of history
    What [changes] answers over a well-formed journal: a run of rows that starts
    after the cursor; [more] tells whether the bound was reached. *)
Record history_page (j : Journal) (n m k : nat) (page : jobj) : Prop := {
  page_ok : toBool page.["ok"] = true;
  page_space : page.["namespace"] = JStr (space j);
  page_authority : page.["authority"] = JStr (authority j);
  page_entries : page.["entries"] = JArr (map (JObj ∘ data) (take k (drop n (rows j))));
  page_through : page.["through"] = jnum (Z.of_nat m);
  page_next : page.["next"] = jnum (Z.of_nat (n + k));
  page_more : page.["more"] = JBool (bool_decide (n + k < m)%nat);
  page_count : (k <= 128)%nat;
  page_bound : (n + k <= m)%nat
}.

Lemma selectPage_history j n m :
  wf j → (m <= List.length (rows j))%nat →
  selectPage j (Z.of_nat n) (Z.of_nat m) true = take 128 (drop n (take m (rows j))).
Proof.
  intros H Hm. unfold selectPage. f_equal. rewrite <- filter_range; [|intros i r; by apply (chain_sequence _ _ _ _ _ H)|done].
  apply List.filter_ext. intros r. cbn [orb]. by rewrite andb_true_r.
Qed.

Lemma take_drop_take {A} (l : list A) k n m :
  (n + k <= m)%nat → take k (drop n (take m l)) = take k (drop n l).
Proof. intros H. rewrite !take_drop_commute, take_take. do 2 f_equal. lia. Qed.

Lemma changes_history j n m through :
  wf j → (n <= m <= List.length (rows j))%nat →
  through = 0 ∧ m = List.length (rows j) ∨ 0 < through ∧ through = Z.of_nat m →
  (∀ r, r ∈ rows j → Z.of_nat (List.length (bytes (data r))) ≤ 256 * 1024) →
  ∃ k, history_page j n m k (changes j (Z.of_nat n) through true) ∧ ((n < m)%nat → (0 < k)%nat).
Proof.
  intros H Hnm Ht Hfit. unfold changes. rewrite state_sequence by done.
  assert (Et : (if through =? 0 then Z.of_nat (List.length (rows j)) else through) = Z.of_nat m).
  { destruct (Z.eqb_spec through 0); lia. }
  rewrite Et, !(proj2 (Z.ltb_ge _ _)) by lia. cbn [orb]. rewrite sql_ok. cbn [negb].
  rewrite selectPage_history by (done || lia).
  set (sel := take 128 (drop n (take m (rows j)))).
  assert (Hsel : List.length sel = (128 `min` (m - n))%nat)
    by (unfold sel; rewrite length_take, length_drop, length_take; lia).
  assert (Hfirst : (n < m)%nat → (fillPage sel true [] (Z.of_nat n) 0).1.1 ≠ []).
  { intros Hlt. destruct sel as [|r l] eqn:E; [cbn [List.length] in Hsel; lia|]. apply fillPage_first, Hfit.
    assert (r ∈ sel) as Hr by (rewrite E; left). unfold sel in Hr.
    apply elem_of_take in Hr as (i & Hi & _). rewrite lookup_drop in Hi.
    apply lookup_take_Some in Hi as [Hi _]. by apply list_elem_of_lookup_2 in Hi. }
  destruct (fillPage_spec sel true [] (Z.of_nat n) 0) as (k & Hk & E). rewrite E in *. clear E.
  cbn [fst app] in *. rewrite length_map, length_take, Nat.min_l by done.
  assert (Hnk : (n + k <= m)%nat) by lia.
  assert (Etk : take k sel = take k (drop n (rows j))).
  { unfold sel. rewrite take_take, Nat.min_l by lia. by apply take_drop_take. }
  assert (Enext : match last (take k sel) with Some r => sequence r | None => Z.of_nat n end = Z.of_nat (n + k)).
  { rewrite Etk. destruct (snoc_inv (take k (drop n (rows j)))) as [E|(l & r & E)].
    - rewrite E. cbn. apply (f_equal List.length) in E. rewrite length_take, length_drop in E. cbn in E. lia.
    - assert (Hlen := E). apply (f_equal List.length) in Hlen.
      rewrite length_take, length_drop, length_app in Hlen. cbn in Hlen.
      rewrite E, last_app_singleton.
      assert (rows j !! (n + (k - 1))%nat = Some r) as Hr.
      { rewrite <- lookup_drop, <- (lookup_take_lt _ k) by lia. rewrite E.
        rewrite lookup_app_r by lia. replace (k - 1 - List.length l)%nat with 0%nat by lia. done. }
      rewrite (chain_sequence _ _ _ _ _ H Hr). lia. }
  rewrite Enext.
  assert (Emore : bool_decide (k < List.length sel)%nat || (Z.of_nat k =? 128) && (Z.of_nat (n + k) <? Z.of_nat m)
                  = bool_decide (n + k < m)%nat).
  { apply eq_true_iff_eq. rewrite orb_true_iff, andb_true_iff, !bool_decide_eq_true, Z.eqb_eq, Z.ltb_lt. lia. }
  rewrite Emore. exists k. split.
  - constructor; try (by jsimp); try lia.
    { jsimp. by rewrite Etk. }
    jsimp. destruct (bool_decide_reflect (n + k < m)%nat); [done|]. do 2 f_equal. lia.
  - intros Hlt. specialize (Hfirst Hlt). destruct k; [done|lia].
Qed.

(** A mirror that holds a prefix of the authority's rows takes the page. *)
Lemma accept_history a mirror n m k page :
  wf a → space mirror = space a → authority mirror = authority a → rows mirror = take n (rows a) →
  history_page a n m k page → (m <= List.length (rows a))%nat → ((n < m)%nat → (0 < k)%nat) →
  Z.of_nat (List.length (bytes page)) ≤ 400000 →
  accept mirror page = (set_rows (take (n + k) (rows a)) mirror, true).
Proof.
  intros Ha Es Eu Er Hp Hm Hk Hb. destruct Hp.
  assert (Hw : wf mirror).
  { unfold wf. rewrite Es, Eu, Er. eapply chain_app_inv. by rewrite take_drop. }
  pose proof (chain_bound _ _ _ Ha) as Hbound.
  assert (Hl : List.length (rows mirror) = n) by (rewrite Er, length_take; lia).
  unfold accept. rewrite state_head, Hl, state_previous by done. cbn [toStr].
  replace (validPage _ _ _) with true.
  - cbn [negb]. rewrite page_entries0. cbn [toArr].
    assert (Ej : rows mirror ++ take k (drop n (rows a)) = take (n + k) (rows a))
      by (rewrite Er; by rewrite take_take_drop).
    pose proof (acceptEntries_rows mirror (take k (drop n (rows a)))) as E.
    rewrite Ej, Hl, Es, Eu in E. rewrite E.
    + rewrite page_next0, counter_jnum by lia. rewrite length_take, length_drop, Nat.min_l by lia.
      by rewrite Z.eqb_refl.
    + eapply chain_app_inv. by rewrite take_drop.
  - unfold validPage. rewrite page_next0, page_through0, page_more0, page_entries0, page_ok0, page_space0, page_authority0.
    rewrite !counter_jnum by lia. symmetry. cbn [isArray isBool toBool negb toArr].
    rewrite length_map, length_take, length_drop, Nat.min_l by lia.
    rewrite !bool_decide_eq_false_2 by (intros Hn; apply Hn; congruence).
    rewrite !(proj2 (Z.ltb_ge _ _)) by lia. cbn [orb]. rewrite orb_false_r, negb_involutive_reverse, negb_involutive.
    destruct (bool_decide_reflect (n + k < m)%nat).
    + rewrite !(proj2 (Z.leb_gt _ _)) by lia. done.
    + replace (n + k)%nat with m by lia. by rewrite Z.eqb_refl.
Qed.

(** ** Committing a record *)
Lemma jinsert_subseteq (a b : jobj) k : a ⊆ b → jinsert a k b.[k] ⊆ b.
Proof.
  intros H. apply map_subseteq_spec. intros i v. unfold jinsert, jset, jvalue.
  rewrite map_subseteq_spec in H.
  destruct (b !! u k) as [w|] eqn:E; cbn [default].
  - assert (w ≠ JUndef → <[u k := w]> a !! i = Some v → b !! i = Some v) as Hw.
    { intros _ [[<- <-]|[_ Hi]]%lookup_insert_Some; eauto. }
    destruct w; try (by apply Hw).
    intros [_ Hi]%lookup_delete_Some. eauto.
  - intros [_ Hi]%lookup_delete_Some. eauto.
Qed.

Lemma content_subseteq e : content e ⊆ e.
Proof. unfold content. cbn [foldl]. repeat apply jinsert_subseteq. apply map_empty_subseteq. Qed.

Lemma content_value e k :
  k ∈ ["path"; "kind"; "size"; "hash"; "clock"; "version"]%string → (content e).[k] = e.[k].
Proof.
  intros H. repeat (apply elem_of_cons in H as [->|H]; [unfold content; cbn [foldl]; by jsimp|]).
  by apply elem_of_nil in H.
Qed.

Lemma content_baseRevision e : (content e).["baseRevision"] = JUndef.
Proof. unfold content. cbn [foldl]. jsimp. apply jvalue_empty. Qed.

Lemma jvalue_jcontains o k : o.[k] = JUndef → jcontains o k = true → o !! u k = Some JUndef.
Proof.
  unfold jvalue, jcontains. intros E H. bool_hyps. destruct H as [v Hv]. rewrite Hv in *. cbn in E. congruence.
Qed.

Lemma content_no_baseRevision e : jcontains (content e) "baseRevision" = false.
Proof.
  unfold jcontains. apply bool_decide_eq_false. rewrite <- not_eq_None_Some. intros Hn. apply Hn.
  unfold content, jinsert. cbn [foldl].
  assert (∀ o k v, k ≠ "baseRevision"%string → o !! u "baseRevision" = None → jset o (u k) v !! u "baseRevision" = None) as Hs.
  { intros o k v Hk Ho. unfold jset. assert (u k ≠ u "baseRevision") by (intros E; by apply u_inj in E).
    destruct v; by simplify_map_eq. }
  repeat (apply Hs; [done|]). apply lookup_empty.
Qed.

Lemma validRecord_content `{PL : !PlatformLaws} e : validRecord e = true → validRecord (content e) = true.
Proof.
  assert (∀ k, k ∈ ["path"; "kind"; "size"; "hash"; "clock"; "version"]%string → (content e).[k] = e.[k]) as Hc
    by apply content_value.
  assert (Ev : (versioned (content e)).["version"] = (versioned e).["version"]).
  { rewrite !versioned_payload. do 3 f_equal.
    apply payload_ext; apply Hc; by_compute. }
  unfold validRecord. rewrite Ev, content_no_baseRevision.
  rewrite !Hc by by_compute.
  guard_case; [done|]. destruct (number _); [|done]. do 2 (guard_case; [done|]). cbn [andb].
  guard_case; [done|]. intros Hv. bool_hyps. apply andb_true_iff. split.
  { rewrite Hc; [done|]. by_compute. }
  apply Z.leb_le. pose proof (toJson_mono _ _ (content_subseteq e)). unfold json in *. lia.
Qed.

Lemma commit_same j record proposal base :
  (object j (toStr record.["path"])).["version"] = record.["version"] →
  commit j record proposal base = (j, jremove (object j (toStr record.["path"])) "locations").
Proof. intros E. unfold commit. by rewrite bool_decide_eq_true_2. Qed.

Section revisionOf.
Variables (j : Journal) (record : jobj) (proposal base : QString).
Let old := object j (toStr record.["path"]).
Let head := state j.
Let d := revisionOf j record old head (counter head.["sequence"] + 1) proposal base.

Lemma revisionOf_row `{PL : !PlatformLaws} :
  wf j → validRecord record = true → Z.of_nat (List.length (rows j)) < MaxCounter →
  (∀ x, x ∈ rows j → revision x ≠ toStr d.["revision"]) →
  row_ok (space j) (authority j) (rows j)
    (mkRow (counter d.["sequence"]) (toStr d.["revision"]) (toStr (toObj d.["object"]).["path"]) d).
Proof.
  intros H Hv Hb Hf.
  assert (Hd : d.["object"] = JObj (content record)) by (unfold d, revisionOf; by jsimp).
  assert (Hp : d.["parents"] = JArr (parentsOf j old base)) by (unfold d, revisionOf; by jsimp).
  assert (Hs : counter d.["sequence"] = Z.of_nat (List.length (rows j)) + 1).
  { unfold d, revisionOf. jsimp. unfold head. rewrite state_head by done. apply counter_jnum. lia. }
  constructor; cbn [sequence revision path data]; rewrite ?Hs, ?Hd, ?Hp; try done; try (unfold d, revisionOf; by jsimp); try lia.
  - unfold d, revisionOf. rewrite jvalue_jinsert_eq, jremove_jinsert. cbn [toStr].
    by rewrite jremove_obj.
  - unfold d, revisionOf. jsimp. unfold head. apply state_previous.
  - unfold parentsOf. repeat guard_case; cbn; lia.
  - cbn [toObj]. by apply validRecord_content.
  - intros o. cbn [toObj toArr]. rewrite content_value by by_compute.
    intros Ho. unfold parentsOf. apply elem_of_app. left. fold old in Ho.
    pose proof (object_some j _ _ Ho) as [Hne _]. fold old in Hne. rewrite Hne.
    apply list_elem_of_singleton. symmetry. by apply object_revision.
  - cbn [toArr]. intros p. unfold parentsOf. rewrite elem_of_app. intros [Hp'|Hp'].
    + destruct (lastOfPath (rows j) (toStr record.["path"])) as [o|] eqn:Eo.
      * assert (old.["revision"] = JStr (revision o)) as Er by (by apply object_revision).
        destruct (jempty old); [by apply elem_of_nil in Hp'|]. apply list_elem_of_singleton in Hp'.
        exists o. apply lastOfPath_elem in Eo as [? _]. split; [done|]. congruence.
      * unfold old in Hp'. rewrite (object_none _ _ Eo) in Hp'. by apply elem_of_nil in Hp'.
    + guard_case_in Hp'; [|by apply elem_of_nil in Hp'].
      apply list_elem_of_singleton in Hp' as ->. bool_hyps.
      match goal with Hx : jempty _ = false |- _ => apply findRevision_some in Hx as (x & Hx & <-) end.
      eauto.
Qed.
End revisionOf.

Lemma append_failed j d j' : append j d = (j', false) → j' = set_error lastError j.
Proof. unfold append. guard_case; by intros [= <-]. Qed.

(** Committing never removes or rewrites a row, and what it adds is a
    well-formed successor. *)
Lemma commit_cases `{PL : !PlatformLaws} j record proposal base j' e :
  wf j → commit j record proposal base = (j', e) →
  wf j' ∧ (rows j' = rows j
           ∨ ∃ r, rows j' = rows j ++ [r] ∧ e = projected (data r) ∧ path r = toStr record.["path"]
                  ∧ (data r).["object"] = JObj (content record)).
Proof.
  intros H. unfold commit. guard_case; [intros [= <- <-]; auto|].
  guard_case; [intros [= <- <-]; auto|]. bool_hyps.
  destruct (append j _) as [j1 []] eqn:Ea; intros [= <- <-].
  - apply append_inv in Ea as [Hf ->].
    assert (Hs := state_head j H). pose proof (chain_bound _ _ _ H). unfold MaxCounter in *.
    assert (Hok := revisionOf_row j record proposal base H H1 ltac:(unfold MaxCounter; lia) Hf).
    split; [by apply append_chain|]. right. eexists. split; [apply insertRow_last|].
    + intros x Hx. rewrite (ok_sequence _ _ _ _ Hok). pose proof (chain_elem _ _ _ _ H Hx). lia.
    + cbn [data path]. split_and!; [done|..]; unfold revisionOf; jsimp; [|done].
      cbn [toObj]. by rewrite content_value by by_compute.
  - apply append_failed in Ea as ->. auto.
Qed.

(** A fresh record of a valid shape is appended unless its digest is taken. *)
Lemma commit_appends `{PL : !PlatformLaws} j record proposal base :
  wf j → validRecord record = true → Z.of_nat (List.length (rows j)) < MaxCounter →
  (object j (toStr record.["path"])).["version"] ≠ record.["version"] →
  (∀ x, x ∈ rows j → revision x ≠ toStr (revisionOf j record (object j (toStr record.["path"])) (state j)
     (counter (state j).["sequence"] + 1) proposal base).["revision"]) →
  ∃ r, commit j record proposal base = (set_rows (rows j ++ [r]) j, projected (data r))
       ∧ path r = toStr record.["path"] ∧ (data r).["object"] = JObj (content record)
       ∧ (data r).["proposal"] = JStr proposal.
Proof.
  intros H Hv Hb Hne Hf. unfold commit. rewrite bool_decide_eq_false_2 by done.
  rewrite Hv. assert (Hs := state_head j H). unfold MaxCounter in *.
  rewrite (proj2 (Z.ltb_ge _ _)) by lia. cbn [orb negb].
  rewrite append_next; [|done| |exact Hf].
  - set (d := revisionOf _ _ _ _ _ _ _).
    exists (mkRow (counter d.["sequence"]) (toStr d.["revision"]) (toStr (toObj d.["object"]).["path"]) d).
    split; [reflexivity|]. split_and!; cbn [path data]; unfold d, revisionOf; jsimp; [|done..].
    cbn [toObj]. by rewrite content_value by by_compute.
  - unfold revisionOf. jsimp. rewrite Hs. apply counter_jnum. unfold MaxCounter. lia.
Qed.

Lemma lastOfPath_snoc l r p : lastOfPath (l ++ [r]) p = if decide (path r = p) then Some r else lastOfPath l p.
Proof.
  unfold lastOfPath. rewrite filter_app, filter_cons, filter_nil. case_decide.
  - by rewrite last_app_singleton.
  - by rewrite app_nil_r.
Qed.

(** The object of a path is its newest row; the others do not move. *)
Lemma object_appended j r p :
  object (set_rows (rows j ++ [r]) j) p
  = if decide (path r = p)
    then jinsert (projected (data r)) "locations"
           (JArr (locationsOf j (toStr (projected (data r)).["version"])))
    else object j p.
Proof.
  unfold object. cbn [rows set_rows]. rewrite lastOfPath_snoc, !sql_ok.
  case_decide.
  - by rewrite sql_ok.
  - by destruct (lastOfPath (rows j) p).
Qed.

Lemma projected_object d e k :
  d.["object"] = JObj (content e) →
  k ∈ ["path"; "kind"; "size"; "hash"; "clock"; "version"]%string → (projected d).[k] = e.[k].
Proof.
  intros Ho Hk. rewrite <- (content_value e k Hk). unfold projected. rewrite Ho. cbn [foldl toObj].
  repeat (apply elem_of_cons in Hk as [->|Hk]; [by jsimp|]). by apply elem_of_nil in Hk.
Qed.

(** ** Evidence of tampering *)
Lemma row_determined s a l l' r r' :
  row_ok s a l r → row_ok s a l' r' → revision r = revision r' →
  (r = r' ∧ headOf l = headOf l') ∨ ∃ x y : jobj, x ≠ y ∧ hash x = hash y.
Proof.
  intros H H' E.
  destruct (decide (jremove (data r) "revision" = jremove (data r') "revision")) as [Ed|Hne].
  - left. assert (data r = data r') as Edata.
    { rewrite <- (jinsert_jremove (data r) "revision" (JStr (revision r))),
        <- (jinsert_jremove (data r') "revision" (JStr (revision r'))); try done.
      + by rewrite Ed, E.
      + apply (ok_revision _ _ _ _ H').
      + apply (ok_revision _ _ _ _ H). }
    split.
    + rewrite <- (row_eta _ _ _ _ H), <- (row_eta _ _ _ _ H'). by rewrite Edata.
    + pose proof (ok_previous _ _ _ _ H) as P. pose proof (ok_previous _ _ _ _ H') as P'.
      rewrite Edata, P' in P. injection P as P. symmetry. exact P.
  - right. do 2 eexists. split; [exact Hne|].
    by rewrite <- (ok_hash _ _ _ _ H), <- (ok_hash _ _ _ _ H').
Qed.

Lemma hash_nonempty `{PL : !PlatformLaws} e : hash e ≠ [].
Proof. intros E. pose proof (digest_hex (bytes e)) as H. unfold hash in E. by rewrite E in H. Qed.

Lemma chain_determined `{PL : !PlatformLaws} s a l l' :
  chain s a l → chain s a l' → headOf l = headOf l' →
  l = l' ∨ ∃ x y : jobj, x ≠ y ∧ hash x = hash y.
Proof.
  intros H. revert l'. induction H as [|l r Hl IH Hr]; intros l' H' E.
  - destruct H' as [|l' r' Hl' Hr']; [by left|]. unfold headOf in E. rewrite last_app_singleton in E.
    cbn in E. rewrite (ok_hash _ _ _ _ Hr') in E. by apply eq_sym, hash_nonempty in E.
  - destruct H' as [|l' r' Hl' Hr'].
    + unfold headOf in E. rewrite last_app_singleton in E. cbn in E.
      rewrite (ok_hash _ _ _ _ Hr) in E. by apply hash_nonempty in E.
    + unfold headOf in E. rewrite !last_app_singleton in E.
      destruct (row_determined _ _ _ _ _ _ Hr Hr' E) as [[-> Eh]|Hc]; [|by right].
      destruct (IH l' Hl' Eh) as [->|Hc]; [by left|by right].
Qed.

Lemma accept_page j page j' ok :
  wf j → accept j page = (j', ok) →
  wf j' ∧ rows j `prefix_of` rows j'
  ∧ (ok = true → List.length (rows j') = (List.length (rows j) + List.length (toArr page.["entries"]))%nat
                 ∧ counter page.["next"] = Z.of_nat (List.length (rows j'))).
Proof.
  intros H. unfold accept. guard_case; [intros [= <- <-]; by split_and!|].
  rewrite state_head, state_previous by done. cbn [toStr].
  destruct (acceptEntries _ _ _ _) as [j1 res] eqn:E. apply acceptEntries_chain in E as (Hw & Hp & Hs); [|done].
  destruct res as [s|]; [|by intros [= <- <-]]. destruct (Hs s eq_refl) as [-> Hl].
  destruct (Z.eqb_spec (counter page.["next"]) (Z.of_nat (List.length (rows j1)))); by intros [= <- <-].
Qed.

(** ** The answer of a commit *)
Lemma jempty_jremove o k : jempty (jremove o k) = false → jempty o = false.
Proof.
  unfold jempty. rewrite !bool_decide_eq_false. intros H ->. apply H. unfold jremove. apply delete_empty.
Qed.

Lemma projected_member d k :
  k ∉ ["namespace"; "authority"; "revision"; "sequence"]%string → (projected d).[k] = (toObj d.["object"]).[k].
Proof.
  intros H. unfold projected. cbn [foldl].
  rewrite !jvalue_jinsert_ne; [done|..]; intros <-; apply H; by_compute.
Qed.

Lemma object_path j p : wf j → jempty (object j p) = false → toStr (object j p).["path"] = p.
Proof.
  intros H Hne. destruct (lastOfPath (rows j) p) as [r|] eqn:E; [|by rewrite (object_none _ _ E) in Hne].
  rewrite (proj2 (object_some _ _ _ E)), projected_member by
    (try done; by_compute).
  apply lastOfPath_elem in E as [(i & Hi)%list_elem_of_lookup <-].
  by rewrite <- (ok_path _ _ _ _ (chain_lookup _ _ _ _ _ H Hi)).
Qed.

Lemma insertRow_length r l : List.length (insertRow r l) = S (List.length l).
Proof. induction l as [|x l IH]; cbn; [done|]. destruct (_ <? _); cbn; [done|]. by rewrite IH. Qed.

(** A successful commit answers the record's own version and path, makes that
    version current, and moves nothing else. *)
Lemma commit_current `{PL : !PlatformLaws} j record proposal base j' e :
  wf j → commit j record proposal base = (j', e) →
  wf j' ∧ space j' = space j ∧ authority j' = authority j ∧ locations j' = locations j
  ∧ (jempty e = true → rows j' = rows j)
  ∧ (jempty e = false →
     e.["version"] = record.["version"] ∧ toStr e.["path"] = toStr record.["path"]
     ∧ (object j' (toStr record.["path"])).["version"] = record.["version"]
     ∧ ∀ q, q ≠ toStr record.["path"] → object j' q = object j q).
Proof.
  intros H Hc. assert (Hcases := commit_cases _ _ _ _ _ _ H Hc). destruct Hcases as [Hw Hrows].
  split; [done|]. revert Hc. unfold commit. set (old := object j _).
  destruct (bool_decide_reflect (old.["version"] = record.["version"])) as [Hv|Hv].
  { intros [= <- <-]. split_and!; [done..|]. intros He. split_and!; [by jsimp| |done|done].
    jsimp. apply jempty_jremove in He. by apply object_path. }
  guard_case; [intros [= <- <-]; by split_and!|].
  destruct (append j _) as [j1 []] eqn:Ea; intros [= <- <-]; cycle 1.
  { apply append_failed in Ea as ->. by split_and!. }
  apply append_inv in Ea as [Hf ->]. split_and!; [done..| |].
  - unfold projected. cbn [foldl]. rewrite jinsert_nonempty; [done|]. unfold revisionOf. by jsimp.
  - intros _. destruct Hrows as [Hr|(r & Hr & Ee & Hp & Ho)].
    { apply (f_equal List.length) in Hr. cbn [rows set_rows] in Hr.
      rewrite insertRow_length in Hr. lia. }
    rewrite Ee. cbn [rows set_rows] in Hr. rewrite Hr.
    assert (∀ k, k ∈ ["path"; "kind"; "size"; "hash"; "clock"; "version"]%string → (projected (data r)).[k] = record.[k])
      as Hk by (intros k Hk; by apply projected_object).
    assert (Hver : (projected (data r)).["version"] = record.["version"])
      by (apply Hk; by_compute).
    split_and!; [done| | |].
    + rewrite Hk; [done|]. by_compute.
    + rewrite object_appended, decide_True by done. by jsimp.
    + intros q Hq. by rewrite object_appended, decide_False by congruence.
Qed.

(** Where a version is stored does not change what the object is. *)
Lemma object_rows j j' p k :
  rows j = rows j' → k ≠ "locations"%string → (object j p).[k] = (object j' p).[k].
Proof.
  intros E Hk. unfold object. rewrite E, !sql_ok. destruct (lastOfPath (rows j') p); [|done].
  by rewrite !jvalue_jinsert_ne.
Qed.
End healthy.
End with_platform.

(** ** Properties *)
Section properties.
Context {PF : Platform} {PL : PlatformLaws}.
Variable sql : stmt → bool.
Variable lastError : QString.
Hypothesis sql_ok : ∀ s, sql s = true.

(** Committing keeps the journal append-only and well formed: whatever the
    record, [NamespaceJournal::commit] leaves the rows as they were or appends one
    row that is numbered next, links to the previous head, is named by the digest of
    its body and descends from the path's newest revision; the answer is that row. *)
Theorem commit_preserves_journal j record proposal base j' e :
  wf j → commit sql lastError j record proposal base = (j', e) →
  wf j' ∧ (rows j' = rows j
           ∨ ∃ r, rows j' = rows j ++ [r] ∧ e = projected (data r) ∧ path r = toStr record.["path"]
                  ∧ (data r).["object"] = JObj (content record)).
Proof. by apply commit_cases. Qed.

(** A valid record with a new version, whose revision digest is not taken, becomes
    the current object of its path with every content member unchanged, and no
    other path's object moves. *)
Theorem commit_publishes j record proposal base :
  wf j → Records.validRecord record = true →
  Z.of_nat (List.length (rows j)) < Records.MaxCounter →
  (object sql j (toStr record.["path"])).["version"] ≠ record.["version"] →
  (∀ x, x ∈ rows j → revision x ≠ toStr (revisionOf sql j record
     (object sql j (toStr record.["path"])) (state sql j)
     (counter (state sql j).["sequence"] + 1) proposal base).["revision"]) →
  let j' := (commit sql lastError j record proposal base).1 in
  (∀ k, k ∈ ["path"; "kind"; "size"; "hash"; "clock"; "version"]%string →
        (object sql j' (toStr record.["path"])).[k] = record.[k])
  ∧ (∀ p, p ≠ toStr record.["path"] → object sql j' p = object sql j p).
Proof.
  intros H Hv Hb Hne Hf.
  destruct (commit_appends _ lastError sql_ok j record proposal base) as (r & -> & Hp & Ho & _); [done..|].
  cbn [fst]. split.
  - intros k Hk. rewrite object_appended, decide_True by done. rewrite jvalue_jinsert_ne.
    + by eapply projected_object.
    + intros <-. not_listed Hk.
  - intros p Hne'. by rewrite object_appended, decide_False by congruence.
Qed.

(** C38: Import is safe against any peer.  On a healthy database (no statement is
    refused; a refused SELECT would read as a path without a revision), whatever page
    [NamespaceJournal::accept] is given, the mirror's rows are only extended, the result
    is again a well-formed journal (numbering, hash chain, digests, parents, records),
    and success means every entry was stored and the page's cursor is the mirror's new
    length. *)
Theorem accept_preserves_journal j page j' ok :
  wf j → accept sql lastError j page = (j', ok) →
  wf j' ∧ rows j `prefix_of` rows j'
  ∧ (ok = true → List.length (rows j') = (List.length (rows j) + List.length (toArr page.["entries"]))%nat
                 ∧ counter page.["next"] = Z.of_nat (List.length (rows j'))).
Proof. by apply accept_page. Qed.

(** C14: Serving and importing agree.  On a healthy database (no statement is refused)
    and with every revision of the authority's journal at most 256 KiB of JSON text, a
    mirror that holds the first [n] rows of that journal accepts the page the authority
    serves after [n] up to [m], although it refuses pages of more than 400000 bytes, and
    then holds the first [n + k]; it makes progress unless it was already there, and
    [more] is set exactly when rows of the bound remain.  (The names of the namespace
    and of the authority are short: a page without its entries is at most 128 KiB; and
    the compact text of an array is that of its elements, each with a comma.) *)
Theorem mirror_accepts_page a mirror n m :
  wf a → space mirror = space a → authority mirror = authority a → rows mirror = take n (rows a) →
  (n <= m <= List.length (rows a))%nat → (0 < m)%nat →
  (∀ r, r ∈ rows a → Z.of_nat (List.length (bytes (data r))) ≤ 256 * 1024) →
  (∀ o l, (List.length (toJson (jinsert o "entries" (JArr (map JObj l))))
    <= List.length (toJson (jinsert o "entries" (JArr []))) + sum_list_with (λ e, S (List.length (toJson e))) l)%nat) →
  let page := changes sql a (Z.of_nat n) (Z.of_nat m) true in
  Z.of_nat (List.length (bytes (jinsert page "entries" (JArr [])))) ≤ 128 * 1024 →
  ∃ k, accept sql lastError mirror page = (set_rows (take (n + k) (rows a)) mirror, true)
       ∧ (n + k <= m)%nat ∧ ((n < m)%nat → (0 < k)%nat)
       ∧ toBool page.["more"] = bool_decide (n + k < m)%nat.
Proof.
  intros Ha Es Eu Er Hnm Hm Hfit Hcompact page Hnames.
  destruct (changes_history _ sql_ok a n m (Z.of_nat m)) as (k & Hk & Hpos); [done|lia|lia|done|].
  pose proof (changes_small sql a (Z.of_nat n) (Z.of_nat m) Hcompact (page_ok _ _ _ _ _ Hk) Hnames) as Hpage.
  exists k. split_and!; [|by apply page_bound in Hk|done|].
  - eapply accept_history; eauto; lia.
  - unfold page. by rewrite (page_more _ _ _ _ _ Hk).
Qed.

(** The head names the whole history: two well-formed journals of one namespace
    with the same head are equal row for row, unless two different objects with
    the same digest are exhibited. *)
Theorem head_determines_journal j j' :
  wf j → wf j' → space j = space j' → authority j = authority j' →
  toStr (state sql j).["head"] = toStr (state sql j').["head"] →
  rows j = rows j' ∨ ∃ x y : jobj, x ≠ y ∧ hash x = hash y.
Proof.
  intros H H' Es Ea. rewrite !state_previous by done. cbn [toStr]. unfold wf in *. rewrite Es, Ea in H.
  by apply (chain_determined (space j') (authority j')).
Qed.
End properties.

(** ** Examples *)
Definition ledger : Journal := mkJournal [] [] (u "space") (u "host") [].
Definition yes (_ : stmt) : bool := true.
Definition ledger1 : Journal :=
  (commit yes [] ledger (Demo.record "photos/a.png" 1) (u "p1") []).1.
Definition ledger2 : Journal :=
  (commit yes [] ledger1 (Demo.record "photos/b.png" 1) (u "p2") []).1.

Lemma ledger_wf : wf ledger.
Proof. apply chain_nil. Qed.
Lemma ledger1_wf : wf ledger1.
Proof.
  unfold ledger1. destruct (commit _ _ _ _ _ _) as [j e] eqn:E.
  exact (proj1 (commit_cases yes [] (λ s, eq_refl) _ _ _ _ _ _ ledger_wf E)).
Qed.
Lemma ledger2_wf : wf ledger2.
Proof.
  unfold ledger2. destruct (commit _ _ _ _ _ _) as [j e] eqn:E.
  exact (proj1 (commit_cases yes [] (λ s, eq_refl) _ _ _ _ _ _ ledger1_wf E)).
Qed.
Example ledger2_rows : map sequence (rows ledger2) = [1; 2].
Proof. by vm_compute. Qed.
Example ledger2_page :
  List.length (toArr (changes yes ledger2 0 0 true).["entries"]) = 2%nat.
Proof. by vm_compute. Qed.

Lemma commit_preserves_journal_witness :
  wf ledger1 ∧ wf (commit yes [] ledger1 (Demo.record "photos/b.png" 1) (u "p2") []).1.
Proof.
  split; [exact ledger1_wf|].
  destruct (commit yes [] ledger1 (Demo.record "photos/b.png" 1) (u "p2") []) as [j e] eqn:E.
  exact (proj1 (commit_preserves_journal yes [] (λ s, eq_refl) _ _ _ _ _ _ ledger1_wf E)).
Defined.

Lemma commit_publishes_witness :
  (object yes ledger2 (u "photos/b.png")).["version"] = (Demo.record "photos/b.png" 1).["version"]
  ∧ object yes ledger2 (u "photos/a.png") = object yes ledger1 (u "photos/a.png").
Proof.
  assert (H := commit_publishes yes [] (λ s, eq_refl) ledger1 (Demo.record "photos/b.png" 1) (u "p2") []
    ledger1_wf ltac:(by vm_compute) ltac:(by vm_compute) ltac:(by_compute)).
  assert (Forall (λ x, revision x ≠ toStr (revisionOf yes ledger1 (Demo.record "photos/b.png" 1)
     (object yes ledger1 (toStr (Demo.record "photos/b.png" 1).["path"])) (state yes ledger1)
     (counter (state yes ledger1).["sequence"] + 1) (u "p2") []).["revision"]) (rows ledger1)) as Hf
    by (apply (bool_decide_unpack _); by vm_compute).
  rewrite Forall_forall in Hf. destruct (H Hf) as [H1 H2]. split.
  - apply (H1 "version"%string). by_compute.
  - apply (H2 (u "photos/a.png")). by_compute.
Defined.

Lemma accept_preserves_journal_witness :
  (accept yes [] ledger1 (changes yes ledger2 1 0 true)).2 = true
  ∧ wf (accept yes [] ledger1 (changes yes ledger2 1 0 true)).1.
Proof.
  split; [by vm_compute|].
  destruct (accept yes [] ledger1 (changes yes ledger2 1 0 true)) as [j ok] eqn:E.
  exact (proj1 (accept_preserves_journal yes [] (λ s, eq_refl) _ _ _ _ ledger1_wf E)).
Defined.

Lemma mirror_accepts_page_witness :
  let page := changes yes ledger2 (Z.of_nat 0) (Z.of_nat 2) true in
  ∃ k, accept yes [] ledger page = (set_rows (take (0 + k) (rows ledger2)) ledger, true)
       ∧ (0 + k <= 2)%nat ∧ ((0 < 2)%nat → (0 < k)%nat)
       ∧ toBool page.["more"] = bool_decide (0 + k < 2)%nat.
Proof.
  assert (Forall (λ r, Z.of_nat (List.length (bytes (data r))) ≤ 256 * 1024) (rows ledger2)) as Hf
    by (apply (bool_decide_unpack _); by vm_compute).
  rewrite Forall_forall in Hf.
  apply (mirror_accepts_page yes [] (λ s, eq_refl) ledger2 ledger 0 2 ledger2_wf);
    [by vm_compute|by vm_compute|by vm_compute|by vm_compute; lia|lia|exact Hf|apply (λ o l, Demo.toJson_array o "entries" l)|by vm_compute].
Defined.

Lemma head_determines_journal_witness :
  rows ledger2 = rows (accept yes [] ledger1 (changes yes ledger2 1 0 true)).1
  ∨ ∃ x y : jobj, x ≠ y ∧ hash x = hash y.
Proof.
  apply (head_determines_journal yes (λ s, eq_refl)); [exact ledger2_wf| |by vm_compute..].
  destruct (accept yes [] ledger1 (changes yes ledger2 1 0 true)) as [j ok] eqn:E.
  exact (proj1 (accept_page yes [] (λ s, eq_refl) _ _ _ _ ledger1_wf E)).
Defined.
End Namespace.
