(* ===== verification/Base64.v ===== *)
(** QByteArray::toBase64 and the strict QByteArray::fromBase64Encoding, in which
    the protocol carries the bytes of files. *)
From S2P Require Import Prelude Qt.
Open Scope Z_scope.

Module Base64.
Definition encodeChar (v : Z) : N :=
  Z.to_N (if v <? 26 then 65 + v else if v <? 52 then 71 + v else if v <? 62 then v - 4
          else if v =? 62 then 43 else 47).
Definition decodeChar (c : N) : option Z :=
  let c := Z.of_N c in
  if (65 <=? c) && (c <=? 90) then Some (c - 65)
  else if (97 <=? c) && (c <=? 122) then Some (c - 71)
  else if (48 <=? c) && (c <=? 57) then Some (c + 4)
  else if c =? 43 then Some 62 else if c =? 47 then Some 63 else None.

(** Three bytes to four characters, padded at the end. *)
Fixpoint toBase64 (b : list N) : QString :=
  match b with
  | x :: y :: z :: r =>
      let v := (Z.of_N x * 256 + Z.of_N y) * 256 + Z.of_N z in
      encodeChar (v / 262144) :: encodeChar (v / 4096 mod 64)
        :: encodeChar (v / 64 mod 64) :: encodeChar (v mod 64) :: toBase64 r
  | [x; y] =>
      let v := (Z.of_N x * 256 + Z.of_N y) * 4 in
      [encodeChar (v / 4096); encodeChar (v / 64 mod 64); encodeChar (v mod 64); 61%N]
  | [x] =>
      let v := Z.of_N x * 16 in
      [encodeChar (v / 64); encodeChar (v mod 64); 61%N; 61%N]
  | [] => []
  end.

(** Six bits at a time into a buffer; a byte leaves when eight are there.  An
    equals sign is accepted as the last character or the last two of a text
    whose length is a multiple of four. *)
Fixpoint decode (n : nat) (s : QString) (buf nbits : Z) : option (list N) :=
  match s with
  | [] => Some []
  | c :: r =>
      match decodeChar c with
      | Some d =>
          let buf := buf * 64 + d in
          let nbits := nbits + 6 in
          if 8 <=? nbits
          then let? rest := decode n r (buf mod 2 ^ (nbits - 8)) (nbits - 8) in
               Some (Z.to_N (buf / 2 ^ (nbits - 8)) :: rest)
          else decode n r buf nbits
      | None =>
          if (c =? 61)%N && (Nat.modulo n 4 =? 0)%nat
             && match r with [] => true | [d] => (d =? 61)%N | _ => false end
          then Some [] else None
      end
  end.
(** [text.toLatin1()], then the decoder: a character outside Latin-1 is illegal. *)
Definition fromBase64 (s : QString) : option (list N) := decode (List.length s) s 0 0.

(** ** Round trip *)
Lemma decodeChar_encode v : 0 ≤ v < 64 → decodeChar (encodeChar v) = Some v.
Proof.
  intros H. unfold encodeChar, decodeChar.
  destruct (Z.ltb_spec v 26); [|destruct (Z.ltb_spec v 52); [|destruct (Z.ltb_spec v 62); [|destruct (Z.eqb_spec v 62)]]];
    rewrite Z2N.id by lia;
    repeat match goal with
    | |- context [?a <=? ?b] => destruct (Z.leb_spec a b); try lia
    | |- context [?a =? ?b] => destruct (Z.eqb_spec a b); try lia
    end; cbn [andb]; f_equal; lia.
Qed.

Lemma decode_step n v r buf nbits :
  0 ≤ v < 64 →
  decode n (encodeChar v :: r) buf nbits
  = if 8 <=? nbits + 6
    then let? rest := decode n r ((buf * 64 + v) mod 2 ^ (nbits - 2)) (nbits - 2) in
         Some (Z.to_N ((buf * 64 + v) / 2 ^ (nbits - 2)) :: rest)
    else decode n r (buf * 64 + v) (nbits + 6).
Proof.
  intros H. cbn [decode]. rewrite decodeChar_encode by done. by replace (nbits + 6 - 8) with (nbits - 2) by lia.
Qed.

(** The division of a packed group into sextets and back into bytes. *)
Ltac sextets := Z.div_mod_to_equations; lia.

Lemma decode_group n x y z r :
  (x < 256)%N → (y < 256)%N → (z < 256)%N →
  let v := (Z.of_N x * 256 + Z.of_N y) * 256 + Z.of_N z in
  decode n (encodeChar (v / 262144) :: encodeChar (v / 4096 mod 64)
            :: encodeChar (v / 64 mod 64) :: encodeChar (v mod 64) :: r) 0 0
  = let? rest := decode n r 0 0 in Some (x :: y :: z :: rest).
Proof.
  intros Hx Hy Hz v.
  assert (Hv : 0 ≤ v < 16777216) by lia.
  rewrite decode_step by sextets. change (8 <=? 0 + 6) with false. cbv iota.
  rewrite decode_step by sextets. change (8 <=? 0 + 6 + 6) with true. cbv iota.
  change (0 + 6 - 2) with 4. change (2 ^ 4) with 16.
  rewrite decode_step by sextets. change (8 <=? 4 + 6) with true. cbv iota.
  change (4 - 2) with 2. change (2 ^ 2) with 4.
  rewrite decode_step by sextets. change (8 <=? 2 + 6) with true. cbv iota.
  change (2 - 2) with 0. change (2 ^ 0) with 1.
  rewrite Z.mod_1_r, Z.div_1_r.
  destruct (decode n r 0 0); [|done]. repeat f_equal; subst v; sextets.
Qed.

Lemma toBase64_length b : (List.length (toBase64 b) mod 4 = 0)%nat.
Proof.
  assert (∀ k b, (List.length b <= k)%nat → (List.length (toBase64 b) mod 4 = 0)%nat) as H; [|by eapply H].
  clear b. induction k as [|k IH]; intros b Hb; [by destruct b; [|cbn in Hb; lia]|].
  destruct b as [|x [|y [|z r]]]; try done. cbn [toBase64 List.length] in *.
  replace (S (S (S (S (List.length (toBase64 r)))))) with (List.length (toBase64 r) + 1 * 4)%nat by lia.
  rewrite Nat.Div0.mod_add. apply IH. lia.
Qed.

Lemma decode_encode n b :
  Forall (λ c, (c < 256)%N) b → (n mod 4 = 0)%nat → decode n (toBase64 b) 0 0 = Some b.
Proof.
  intros Hb Hn. remember (List.length b) as k eqn:Hk. revert b Hb Hk.
  induction k as [k IH] using lt_wf_ind. intros b Hb Hk.
  destruct b as [|x [|y [|z r]]]; [done|..].
  - apply Forall_cons in Hb as [Hx _]. cbn [toBase64]. rewrite decode_step by sextets.
    change (8 <=? 0 + 6) with false. cbv iota. rewrite decode_step by sextets.
    change (8 <=? 0 + 6 + 6) with true. cbv iota. change (0 + 6 - 2) with 4. change (2 ^ 4) with 16.
    cbn [decode]. change (decodeChar 61) with (@None Z). cbv iota. rewrite Hn. cbn [andb Nat.eqb N.eqb].
    change (61 =? 61)%N with true. cbn [andb]. repeat f_equal. sextets.
  - apply Forall_cons in Hb as [Hx Hb]. apply Forall_cons in Hb as [Hy _]. cbn [toBase64].
    rewrite decode_step by sextets. change (8 <=? 0 + 6) with false. cbv iota.
    rewrite decode_step by sextets. change (8 <=? 0 + 6 + 6) with true. cbv iota.
    change (0 + 6 - 2) with 4. change (2 ^ 4) with 16.
    rewrite decode_step by sextets. change (8 <=? 4 + 6) with true. cbv iota.
    change (4 - 2) with 2. change (2 ^ 2) with 4.
    cbn [decode]. change (decodeChar 61) with (@None Z). cbv iota. rewrite Hn.
    change (61 =? 61)%N with true. cbn [andb Nat.eqb]. repeat f_equal; sextets.
  - apply Forall_cons in Hb as [Hx Hb]. apply Forall_cons in Hb as [Hy Hb]. apply Forall_cons in Hb as [Hz Hb].
    cbn [toBase64]. cbv zeta. rewrite decode_group by done. cbn [List.length] in Hk.
    rewrite (IH (List.length r)) by (done || lia). done.
Qed.

Lemma fromBase64_toBase64 b : Forall (λ c, (c < 256)%N) b → fromBase64 (toBase64 b) = Some b.
Proof. intros Hb. apply decode_encode; [done|apply toBase64_length]. Qed.
End Base64.
