(* ===== verification/Files.v ===== *)
(** The file operations a replica is written against: the interface of
    src/Sync/ConfinedFiles.h.  The replica is proved against this interface and its
    laws, which speak of files that no other process changes meanwhile. *)
From S2P Require Import Prelude Qt Records.
Open Scope Z_scope.

(** What [ConfinedFiles::state] reports of a path; an absent one is "deleted". *)
Record FileState := mkState {
  kind : QString;
  stamp : QString;
  fsize : Z
}.
Definition absent : FileState := mkState (u "deleted") [] 0.

#[global] Instance FileState_eq_dec : EqDecision FileState.
Proof. solve_decision. Defined.

(** One operation per member function; [None] and [false] are the failures that
    leave their reason in [ferror]. *)
Class FileStore := {
  world : Type;
  ferror : world → QString;
  clearError : world → world;
  intact : world → bool * world;
  fstate : QString → world → option FileState * world;
  flist : QString → world → option (list QString) * world;
  fread : QString → Z → Z → QString → world → option (list N) * world;
  fhash : QString → QString → world → QString * world;
  fmkdir : QString → world → bool * world;
  fappend : QString → Z → list N → world → bool * world;
  finstall : QString → QString → world → bool * world;
  fpreserve : QString → QString → world → bool * world;
  fdetach : QString → QString → world → bool * world;
  fremove : QString → world → bool * world;
  fexactPath : QString → world → bool * world
}.

(** The replica's own directory: transfers, recovery copies, the journal. *)
Definition private (p : QString) : bool := startsWith p (u ".society-sync/").
(** Where replaced and removed files are kept. *)
Definition archival (p : QString) : bool :=
  startsWith p (u ".society-sync/recovery/") || startsWith p (u ".society-sync/detached/").
Lemma public_archival p : private p = false → archival p = false.
Proof.
  unfold private, archival. intros H. apply orb_false_iff. split; apply not_true_iff_false;
    intros [t ->]%startsWith_spec; revert H; apply eq_true_false_abs, startsWith_spec.
  - exists (u "recovery/" ++ t). by rewrite app_assoc.
  - exists (u "detached/" ++ t). by rewrite app_assoc.
Qed.

(** A path's directory, its separator included, and the name in it. *)
Definition dirOf (p : QString) : QString := qleft (lastIndexOf slash p + 1) p.
(** Everything a directory holds, at any depth. *)
Definition below (p q : QString) : bool := startsWith q (p ++ [slash]).
(** The Finder preview that the provider keeps beside a file and removes with it. *)
Definition previewOf (p : QString) : QString :=
  dirOf p ++ u "." ++ sectionLast slash p ++ u ".iisacc-preview".
(** A file that no operation on [p] reaches, a removed file's preview apart. *)
Record clear (p q : QString) : Prop := {
  clear_ne : q ≠ p;
  clear_below : below p q = false;
  clear_archival : archival q = false
}.

(** What a client may rely on about the bytes of files.  An operation that fails may
    have done part of its work, but only to its own paths.  Moving a directory moves
    what is below it; removing a file removes its preview; a replaced file goes to
    the recovery area; and since a preserved copy may share its bytes with the
    original, only an append that creates or adds nothing leaves the others alone. *)
Class FileLaws {PF : Platform} {FS : FileStore} := {
  bytesAt : world → QString → option (list N);
  state_frame p w q : bytesAt (fstate p w).2 q = bytesAt w q;
  list_frame p w q : bytesAt (flist p w).2 q = bytesAt w q;
  hash_bytes p st w : (fhash p st w).1 ≠ [] → ∃ b, bytesAt w p = Some b ∧ (fhash p st w).1 = Records.digest b;
  hash_frame p st w q : bytesAt (fhash p st w).2 q = bytesAt w q;
  exact_frame p w q : bytesAt (fexactPath p w).2 q = bytesAt w q;
  install_bytes s t w w' : archival s = false → finstall s t w = (true, w') → bytesAt w' t = bytesAt w s;
  install_frame s t w q : clear s q → clear t q → bytesAt (finstall s t w).2 q = bytesAt w q;
  preserve_bytes s t w w' : fpreserve s t w = (true, w') → bytesAt w' t = bytesAt w s;
  preserve_frame s t w q : q ≠ t → bytesAt (fpreserve s t w).2 q = bytesAt w q;
  append_frame p o b w q : bytesAt w p = None ∨ b = [] → q ≠ p → bytesAt (fappend p o b w).2 q = bytesAt w q;
  mkdir_frame p w q : bytesAt (fmkdir p w).2 q = bytesAt w q;
  remove_frame p w q : clear p q → q ≠ previewOf p → bytesAt (fremove p w).2 q = bytesAt w q
}.

(** ** Paths that keep clear of each other *)
Definition directory (d : QString) : Prop := d = [] ∨ ∃ x, d = x ++ [slash].
Lemma dirOf_spec s : directory (dirOf s) ∧ s = dirOf s ++ sectionLast slash s ∧ slash ∉ sectionLast slash s.
Proof.
  destruct (last_section_decompose slash s) as (pre & E & Hs & Hn). unfold dirOf.
  rewrite (directory_prefix slash s pre E). split_and!; [|done|done].
  destruct (snoc_inv pre) as [->|(pre' & x & ->)]; [by left|right].
  rewrite map_app, concat_app. cbn. rewrite app_nil_r. eexists. by rewrite app_assoc.
Qed.
Lemma directory_inj d d' n n' :
  directory d → directory d' → slash ∉ n → slash ∉ n' → d ++ n = d' ++ n' → d = d' ∧ n = n'.
Proof.
  intros [->|[x ->]] [->|[x' ->]] Hn Hn' E; [done|..].
  - cbn in E. subst. destruct Hn. rewrite <- app_assoc. apply elem_of_app. right. by left.
  - cbn in E. subst. destruct Hn'. rewrite <- app_assoc. apply elem_of_app. right. by left.
  - rewrite <- !app_assoc in E. apply (f_equal reverse) in E. rewrite !reverse_app in E. cbn in E.
    rewrite <- !app_assoc in E. cbn in E. apply Records.app_sep_inj in E as [E1 E2]; [|by rewrite elem_of_reverse..].
    apply (inj reverse) in E1 as ->. by apply (inj reverse) in E2 as ->.
Qed.
Lemma dirOf_app d n : directory d → slash ∉ n → dirOf (d ++ n) = d ∧ sectionLast slash (d ++ n) = n.
Proof.
  intros Hd Hn. destruct (dirOf_spec (d ++ n)) as (H1 & H2 & H3).
  by destruct (directory_inj d (dirOf (d ++ n)) n (sectionLast slash (d ++ n))) as [E1 E2].
Qed.

Lemma private_spec p : private p = true ↔ ∃ t, p = u ".society-sync" ++ slash :: t.
Proof. unfold private. rewrite startsWith_spec. done. Qed.
Lemma below_spec p q : below p q = true ↔ ∃ t, q = p ++ slash :: t.
Proof.
  unfold below. rewrite startsWith_spec. split; intros [t E]; exists t; rewrite E; by rewrite <- app_assoc.
Qed.
Lemma private_below p q : private p = true → private q = false → below p q = false.
Proof.
  intros [t ->]%private_spec Hq. apply not_true_iff_false. intros [t' ->]%below_spec.
  revert Hq. apply eq_true_false_abs, private_spec. exists (t ++ slash :: t'). by rewrite <- app_assoc.
Qed.
(** The replica's own directory is clear of the shared ones. *)
Lemma clear_public p q : private p = true → private q = false → clear p q.
Proof. intros Hp Hq. split; [congruence|by apply private_below|by apply public_archival]. Qed.
Lemma private_slash p : private p = true → slash ∈ p.
Proof. intros [t ->]%private_spec. apply elem_of_app. right. by left. Qed.
Lemma private_dir d m : (∃ x, d = x ++ [slash]) → private (d ++ m) = private d.
Proof.
  intros [x ->]. apply eq_true_iff_eq. rewrite !private_spec, <- app_assoc. cbn [app]. split; intros [t E].
  - destruct (app_eq_inv _ _ _ _ E) as [(k & -> & Hk)|(k & Hk & Hk')].
    + destruct k as [|c k]; [exists []; by rewrite app_nil_r|injection Hk as <- Hk].
      exists (k ++ [slash]). by rewrite <- app_assoc.
    + destruct k as [|c k]; [rewrite app_nil_r in Hk; exists []; by rewrite Hk|].
      exfalso. assert (slash ∈ u ".society-sync") as Hin; [|by revert Hin; by_compute].
      rewrite Hk. apply elem_of_app. right. injection Hk' as <- _. by left.
  - exists (t ++ m). change (slash :: m) with ([slash] ++ m). rewrite app_assoc, E, <- app_assoc. done.
Qed.
Lemma private_preview p : slash ∈ p → private (previewOf p) = private p.
Proof.
  intros Hs. destruct (dirOf_spec p) as ([Ed|Hd] & E & Hn).
  - rewrite Ed in E. cbn in E. by rewrite <- E in Hn.
  - rewrite E at 2. unfold previewOf. by rewrite !private_dir.
Qed.
Lemma clear_public_private p q :
  private p = false → p ≠ u ".society-sync" → private q = true → archival q = false → clear p q.
Proof.
  intros Hp Hne Hq Ha. split; [congruence| |done]. apply not_true_iff_false. intros [t ->]%below_spec.
  apply private_spec in Hq as [t' E]. destruct (app_eq_inv _ _ _ _ E) as [(k & -> & Hk)|(k & Hk & Hk')].
  - destruct k as [|c k]; [by rewrite app_nil_r in Hne|]. injection Hk as <- Hk.
    revert Hp. apply eq_true_false_abs, private_spec. by exists k.
  - destruct k as [|c k]; [by rewrite app_nil_r in Hk|].
    assert (slash ∈ u ".society-sync") as Hin; [|by revert Hin; by_compute].
    rewrite Hk. apply elem_of_app. right. injection Hk' as <- _. by left.
Qed.
(** Two names of one directory are clear of each other. *)
Lemma clear_sibling d n n' :
  directory d → slash ∉ n → slash ∉ n' → n ≠ n' → archival (d ++ n') = false → clear (d ++ n) (d ++ n').
Proof.
  intros Hd Hn Hn' Hne Ha. split; [|apply not_true_iff_false|done].
  - by intros E%app_inv_head.
  - intros [t E]%below_spec. rewrite <- app_assoc in E. apply app_inv_head in E. destruct Hn'. rewrite E.
    apply elem_of_app. right. by left.
Qed.

(** ** A record's file and its conflict copy *)
Section conflicts.
Context {PF : Platform} {PL : PlatformLaws}.
Import Records.

Lemma section_sep f t : slash ∉ f → sectionFirst slash (f ++ slash :: t) = f ∧ sectionTail slash (f ++ slash :: t) = t.
Proof.
  intros Hf. destruct (section_decompose slash (f ++ slash :: t)) as (E & Hn & _); [apply elem_of_app; right; by left|].
  by apply app_sep_inj in E as [<- <-].
Qed.
Lemma physical_eq k f t :
  physical k ≠ [] → k = f ++ slash :: t → slash ∉ f →
  ∃ s, List.find (λ s, bool_decide (f = s.1)) sections = Some s ∧ physical k = s.2 ++ slash :: t.
Proof.
  intros (_ & _ & _ & s & Hf & E)%physical_nonempty -> Hn. destruct (section_sep f t Hn) as [E1 E2].
  rewrite E1 in Hf. rewrite E2 in E. by exists s.
Qed.
(** Keys of one directory are stored in one directory, under their own names. *)
Lemma physical_sibling d n n' :
  (∃ x, d = x ++ [slash]) → slash ∉ n → slash ∉ n' → physical (d ++ n) ≠ [] → physical (d ++ n') ≠ [] →
  ∃ d', (∃ x, d' = x ++ [slash]) ∧ physical (d ++ n) = d' ++ n ∧ physical (d ++ n') = d' ++ n'.
Proof.
  intros [x ->] Hn Hn' Hk Hk'. destruct (decide (slash ∈ x)) as [(f & y & -> & Hf)%list_elem_of_split_l|Hx].
  - destruct (physical_eq _ f (y ++ slash :: n) Hk) as (s & Hs & E); [by rewrite <- !app_assoc|done..|].
    destruct (physical_eq _ f (y ++ slash :: n') Hk') as (s' & Hs' & E'); [by rewrite <- !app_assoc|done..|].
    rewrite Hs in Hs'. injection Hs' as <-. exists (s.2 ++ slash :: y ++ [slash]). split_and!.
    + exists (s.2 ++ slash :: y). by rewrite <- app_assoc.
    + rewrite E, <- app_assoc. cbn. by rewrite <- app_assoc.
    + rewrite E', <- app_assoc. cbn. by rewrite <- app_assoc.
  - destruct (physical_eq _ x n Hk) as (s & Hs & E); [by rewrite <- app_assoc|done..|].
    destruct (physical_eq _ x n' Hk') as (s' & Hs' & E'); [by rewrite <- app_assoc|done..|].
    rewrite Hs in Hs'. injection Hs' as <-. exists (s.2 ++ [slash]). split_and!; [by exists s.2|..].
    + by rewrite E, <- app_assoc.
    + by rewrite E', <- app_assoc.
Qed.

Lemma conflict_name_ends n v : hex v = true → ∃ m c, conflictBase n ++ conflictSuffix v = m ++ [c] ∧ c ≠ 119%N.
Proof.
  unfold hex. intros [Hz Hf]%andb_true_iff. apply Z.eqb_eq in Hz. unfold qsize, conflictSuffix in *. rewrite qleft_take by lia.
  destruct (snoc_inv (take (Z.to_nat 32) v)) as [E|(m & c & E)].
  - apply (f_equal List.length) in E. rewrite length_take in E. cbn in E. lia.
  - rewrite E. exists (conflictBase n ++ u ".sync-conflict-" ++ m), c. split; [by rewrite <- !app_assoc|].
    assert (c ∈ v) as Hc%list_elem_of_In.
    { rewrite <- (take_drop (Z.to_nat 32) v), E. apply elem_of_app. left. apply elem_of_app. right. by left. }
    eapply forallb_forall in Hf; [|done]. apply hexChar_ascii in Hf. lia.
Qed.

(** A conflict copy keeps clear of the file, and the file's preview of the copy. *)
Lemma conflict_clear e :
  physical (toStr e.["path"]) ≠ [] → physical (conflictPath e) ≠ [] → hex (toStr e.["version"]) = true →
  clear (physical (toStr e.["path"])) (physical (conflictPath e))
  ∧ clear (physical (conflictPath e)) (physical (toStr e.["path"]))
  ∧ physical (conflictPath e) ≠ previewOf (physical (toStr e.["path"])).
Proof.
  intros Hk Hc Hv. pose proof (conflict_differs e Hv) as Hne. set (k := toStr e.["path"]) in *.
  destruct (dirOf_spec k) as (Hd & Ek & Hn). set (n := sectionLast slash k) in *.
  set (n' := conflictBase n ++ conflictSuffix (toStr e.["version"])).
  assert (conflictPath e = dirOf k ++ n') as Ec by done.
  assert (slash ∉ n') as Hn' by (by apply conflict_name).
  assert (∃ x, dirOf k = x ++ [slash]) as Hx.
  { destruct Hd as [Hd|Hd]; [|done]. rewrite Hd in Ek. cbn in Ek. destruct Hn. rewrite <- Ek.
    by apply physical_nonempty in Hk as (_ & Hs & _). }
  pose proof (physical_public _ Hk) as Hpk. pose proof (physical_public _ Hc) as Hpc.
  apply public_archival in Hpk, Hpc. rewrite Ek in Hk, Hpk, Hne |- *. rewrite Ec in Hc, Hpc, Hne |- *.
  assert (n ≠ n') as Hnn by congruence.
  destruct (physical_sibling (dirOf k) n n') as (d & [x Ed] & E1 & E2); [done..|].
  rewrite E1 in Hpk |- *. rewrite E2 in Hpc |- *. assert (directory d) as Hdd by (right; by exists x).
  split_and!; [by apply clear_sibling..|]. unfold previewOf. destruct (dirOf_app d n) as [-> ->]; [done..|].
  intros E%app_inv_head. destruct (conflict_name_ends n _ Hv) as (m & c & Em & Hcw). fold n' in Em. rewrite Em in E.
  change (u ".iisacc-preview") with (u ".iisacc-previe" ++ [119%N]) in E. rewrite !app_assoc in E.
  by apply app_inj_tail in E as [_ ->].
Qed.
End conflicts.
