(* ===== verification/DemoFiles.v ===== *)
(** A concrete file store for the examples: a flat map from path to bytes.  A
    directory is a path without bytes of its own that other paths continue. *)
From S2P Require Import Prelude Qt Records Files Demo.
Open Scope Z_scope.

Module DemoFiles.
Abbreviation Flat := (gmap QString (list N)).
Definition isDirectory (w : Flat) (p : QString) : bool :=
  existsb (λ kv : QString * list N, startsWith kv.1 (p ++ [slash])) (map_to_list w).
Definition stateOf (w : Flat) (p : QString) : FileState :=
  match w !! p with
  | Some b => mkState (u "file") (u "stamp:" ++ Demo.toJson {[ p := JArr (map (λ c, JNum (Z.of_N c)) b) ]})
                (Z.of_nat (List.length b))
  | None => if isDirectory w p then mkState (u "directory") (u "d") 0 else absent
  end.
Definition rename (s t : QString) (w : Flat) : bool * Flat :=
  match w !! s with
  | Some b => (true, <[t := b]> (delete s w))
  | None => (false, w)
  end.
(** The names directly below a directory. *)
Definition childrenOf (w : Flat) (p : QString) : list QString :=
  removeDuplicates (flat_map (λ kv : QString * list N,
    if startsWith kv.1 (p ++ [slash])
    then [sectionFirst slash (qmid (qsize p + 1) kv.1)] else []) (map_to_list w)).

#[global] Instance flat : FileStore := {
  world := Flat;
  ferror _ := u "file_error";
  clearError w := w;
  intact w := (true, w);
  fstate p w := (Some (if bool_decide (p = u ".society-sync") then mkState (u "directory") [] 0 else stateOf w p), w);
  flist p w := (Some (childrenOf w p), w);
  fread p o n _ w := (option_map (λ b, take (Z.to_nat n) (drop (Z.to_nat o) b)) (w !! p), w);
  fhash p _ w := (match w !! p with Some b => Records.digest b | None => [] end, w);
  fmkdir _ w := (true, w);
  fappend p o b w := (true, <[p := default [] (w !! p) ++ b]> w);
  finstall s t w := rename s t w;
  fpreserve s t w := match w !! s with Some b => (true, <[t := b]> w) | None => (false, w) end;
  fdetach s t w := rename s t w;
  fremove p w := (true, delete p w);
  fexactPath _ w := (true, w)
}.

Definition flatBytes (w : Flat) (p : QString) : option (list N) := w !! p.
Lemma rename_bytes s t (w w' : Flat) : rename s t w = (true, w') → w' !! t = w !! s.
Proof. unfold rename. destruct (w !! s); [|done]. intros [= <-]. apply lookup_insert_eq. Qed.
Lemma rename_frame s t (w : Flat) q : q ≠ s → q ≠ t → (rename s t w).2 !! q = w !! q.
Proof.
  intros Hs Ht. unfold rename. destruct (w !! s); [|done]. cbn [snd].
  rewrite lookup_insert_ne by done. by apply lookup_delete_ne.
Qed.
Lemma preserve_eq s t (w w' : Flat) :
  match w !! s with Some b => (true, <[t := b]> w) | None => (false, w) end = (true, w') → w' !! t = w !! s.
Proof. destruct (w !! s); [|done]. intros [= <-]. apply lookup_insert_eq. Qed.
Lemma preserve_ne s t (w : Flat) q : q ≠ t →
  (match w !! s with Some b => (true, <[t := b]> w) | None => (false, w) end).2 !! q = w !! q.
Proof. intros Ht. destruct (w !! s); [|done]. by apply lookup_insert_ne. Qed.

#[global] Instance flat_laws : FileLaws.
Proof.
  refine {| bytesAt := flatBytes : world → _ |}; try done.
  - intros p st w. cbn [fhash flat fst]. unfold flatBytes. intros H.
    destruct (lookup p (w : Flat)) as [b|] eqn:E; [by exists b|done].
  - intros s t w w' _. apply rename_bytes.
  - intros s t w q [Hs _ _] [Ht _ _]. by apply rename_frame.
  - apply preserve_eq.
  - intros s t w q Ht. by apply preserve_ne.
  - intros p o b w q _ Hp. by apply lookup_insert_ne.
  - intros p w q [Hp _ _] _. by apply lookup_delete_ne.
Defined.
End DemoFiles.
