(* ===== verification/Store.v ===== *)
(** The replica's store, src/Sync/Replica.cpp's class Private: its tables, the
    metadata, the catalog of entries and how a local observation or a decided
    merge is written to it. *)
From S2P Require Import Prelude Qt Records Namespace Files.
Open Scope Z_scope.

Module Store.
Import Records.
Create HintDb store discriminated.

(** ** State *)
(** A row of the table entries(path, data, stamp, sequence). *)
Record Row := mkEntry { edata : jobj; estamp : QString; eseq : Z }.
(** A row of the table peers(peer, replica, container, pulled, pushed). *)
Record Peer := mkPeer { preplica : QString; pcontainer : QString; pulled : Z; pushed : Z }.
(** The database: a transaction is undone by putting an earlier value back. *)
Record Db := mkDb {
  metadata : gmap QString QString;
  entries : gmap QString Row;
  peers : gmap QString Peer;
  snapshots : gmap QString jobj;
  plan : gmap QString QString;
  nsRows : list Namespace.NsRow;
  nsLocations : list (QString * QString * jobj)
}.
(** Private::Manifest; [digested] are the bytes fed to its digest. *)
Record Manifest := mkManifest {
  mid : QString;
  mreplica : QString;
  msnapshot : jobj;
  members : gmap QString QString;
  applied : gset QString;
  added : Z; updated : Z; deleted : Z; unchanged : Z; conflicts : Z;
  next : Z; total : Z; after : Z; through : Z; msequence : Z;
  complete : bool;
  digested : list N
}.
Record Store `{FileStore} := mkStore {
  db : Db;
  files : world;
  manifests : gmap QString Manifest;
  leases : gset QString;
  container : QString;
  scope : QString;
  id : QString;
  error : QString;
  proposal : QString;
  proposalBase : QString
}.

(** The statements the store executes; [sql E s] tells whether SQLite runs [s]. *)
Inductive Stmt :=
| SelectMeta (key : QString) | UpsertMeta (key : QString)
| SelectEntry (path : QString) | UpsertEntry (path : QString) | SelectEntries
| SelectPeer (peer : QString) | UpsertPeer (peer : QString) | DeletePeer
| UpsertSnapshot | SelectSnapshot | SelectPlan | InsertPlan | DeletePlan
| Savepoint | RollbackTo | Release | Begin | Commit | DeleteEntries | DeletePeers | DeleteSnapshots
| ResetPeers | Pragma
| Ledger (s : Namespace.stmt).
(** What a call finds around it: the database, the drive of iiSocietyContainer,
    the operation lock, redirected state files, free space, the clock, identifiers. *)
Record Env := mkEnv {
  sql : Stmt → bool;
  lastError : QString;
  driveValid : bool;
  driveReady : bool;
  lockFree : bool;
  leaseFree : bool;
  redirected : QString → bool;
  bytesAvailable : Z;
  now : Z;
  freshId : QString
}.

Section with_files.
Context {PF : Platform} {FS : FileStore} (E : Env).

(** ** A state monad for the calls that change the store *)
Definition M (A : Type) : Type := Store → A * Store.
Definition ret {A} (a : A) : M A := λ s, (a, s).
Definition bind {A B} (m : M A) (k : A → M B) : M B := λ s, let '(a, s') := m s in k a s'.
Definition get : M Store := λ s, (s, s).
Definition modify (f : Store → Store) : M unit := λ s, (tt, f s).
End with_files.

Notation "'let!' x ':=' a 'in' b" := (bind a (fun x => b))
  (at level 10, x pattern, a at level 100, b at level 200, only parsing) : society_scope.

Section operations.
Context {PF : Platform} {FS : FileStore} (E : Env).

Definition set_db (d : Db) (s : Store) : Store :=
  mkStore _ d (files s) (manifests s) (leases s) (container s) (scope s) (id s) (error s) (proposal s) (proposalBase s).
Definition set_files (w : world) (s : Store) : Store :=
  mkStore _ (db s) w (manifests s) (leases s) (container s) (scope s) (id s) (error s) (proposal s) (proposalBase s).
Definition set_manifests (m : gmap QString Manifest) (s : Store) : Store :=
  mkStore _ (db s) (files s) m (leases s) (container s) (scope s) (id s) (error s) (proposal s) (proposalBase s).
Definition set_leases (l : gset QString) (s : Store) : Store :=
  mkStore _ (db s) (files s) (manifests s) l (container s) (scope s) (id s) (error s) (proposal s) (proposalBase s).
Definition set_error (e : QString) (s : Store) : Store :=
  mkStore _ (db s) (files s) (manifests s) (leases s) (container s) (scope s) (id s) e (proposal s) (proposalBase s).
Definition set_proposal (p b : QString) (s : Store) : Store :=
  mkStore _ (db s) (files s) (manifests s) (leases s) (container s) (scope s) (id s) (error s) p b.
Definition set_container (c : QString) (s : Store) : Store :=
  mkStore _ (db s) (files s) (manifests s) (leases s) c (scope s) (id s) (error s) (proposal s) (proposalBase s).
Definition set_id (i : QString) (s : Store) : Store :=
  mkStore _ (db s) (files s) (manifests s) (leases s) (container s) (scope s) i (error s) (proposal s) (proposalBase s).
Definition set_scope (i : QString) (s : Store) : Store :=
  mkStore _ (db s) (files s) (manifests s) (leases s) (container s) i (id s) (error s) (proposal s) (proposalBase s).

Definition set_metadata (m : gmap QString QString) (d : Db) : Db :=
  mkDb m (entries d) (peers d) (snapshots d) (plan d) (nsRows d) (nsLocations d).
Definition set_entries (e : gmap QString Row) (d : Db) : Db :=
  mkDb (metadata d) e (peers d) (snapshots d) (plan d) (nsRows d) (nsLocations d).
Definition set_peers (p : gmap QString Peer) (d : Db) : Db :=
  mkDb (metadata d) (entries d) p (snapshots d) (plan d) (nsRows d) (nsLocations d).
Definition set_snapshots (p : gmap QString jobj) (d : Db) : Db :=
  mkDb (metadata d) (entries d) (peers d) p (plan d) (nsRows d) (nsLocations d).
Definition set_plan (p : gmap QString QString) (d : Db) : Db :=
  mkDb (metadata d) (entries d) (peers d) (snapshots d) p (nsRows d) (nsLocations d).
Definition set_ledger (r : list Namespace.NsRow) (l : list (QString * QString * jobj)) (d : Db) : Db :=
  mkDb (metadata d) (entries d) (peers d) (snapshots d) (plan d) r l.
Definition onDb (f : Db → Db) : M unit := modify (λ s, set_db (f (db s)) s).

(** A call into the files, which keep their own error text. *)
Definition onFiles {A} (f : world → A * world) : M A :=
  λ s, let '(a, w) := f (files s) in (a, set_files w s).

Definition fail (e : QString) : M bool := let! _ := modify (set_error e) in ret false.
(** [return fail(files.error)] *)
Definition failFiles : M bool := λ s, fail (ferror (files s)) s.
Definition failed (message : QString) : M jobj := λ s,
  (obj [("ok", JBool false); ("error", JStr (if isEmpty message then error s else message))]%string, s).
Definition failedFiles : M jobj := λ s, failed (ferror (files s)) s.
Definition result : jobj := obj [("ok", JBool true); ("complete", JBool true)]%string.

(** [sql(text)]: a statement whose failure is recorded. *)
Definition run (s : Stmt) : M bool := if sql E s then ret true else fail (lastError E).

Definition meta (key : QString) : M QString :=
  if sql E (SelectMeta key) then λ s, (default [] (metadata (db s) !! key), s)
  else let! _ := fail (lastError E) in ret [].
Definition setMeta (key value : QString) : M bool :=
  let! ok := run (UpsertMeta key) in
  if ok then let! _ := onDb (λ d, set_metadata (<[key := value]> (metadata d)) d) in ret true
  else ret false.

Definition journal : M Namespace.Journal :=
  let! host := meta (u "host") in
  let! authority := (if isEmpty host then λ s, (id s, s) else meta (u "hostReplica")) in
  λ s, (Namespace.mkJournal (nsRows (db s)) (nsLocations (db s)) (container s) authority [], s).
(** What a journal call did to its tables. *)
Definition keep (j : Namespace.Journal) : M unit :=
  onDb (set_ledger (Namespace.rows j) (Namespace.locations j)).
Definition nsSql (s : Namespace.stmt) : bool := sql E (Ledger s).

Definition ready : M bool :=
  let! _ := modify (set_error []) in
  let! _ := onFiles (λ w, (tt, clearError w)) in
  let! s := get in
  let! whole := (if isEmpty (scope s) || isEmpty (id s) || negb (driveValid E) then ret false else onFiles intact) in
  if negb whole then fail (u "container_unavailable_or_replaced") else
  let! state := onFiles (fstate (u ".society-sync")) in
  match state with
  | Some st =>
      if bool_decide (kind st ≠ u "directory") then fail (u "sync_state_redirected")
      else if existsb (redirected E) (map u ["journal.sqlite"; "journal.sqlite-wal"; "journal.sqlite-shm"; "operation.lock"]%string)
      then fail (u "sync_state_redirected") else ret true
  | None => fail (u "sync_state_redirected")
  end.
Definition lock : M bool :=
  let! ok := ready in
  if negb ok then ret false else if lockFree E then ret true else fail (u "sync_store_busy").

(** The catalog entry of a path with its stamp; empty when there is none. *)
Definition entry (path : QString) : M (jobj * QString) :=
  if sql E (SelectEntry path) then λ s,
    match entries (db s) !! path with
    | Some r => ((jinsert (edata r) "sequence" (jnum (eseq r)), estamp r), s)
    | None => ((∅, []), s)
    end
  else let! _ := fail (lastError E) in ret (∅, []).

(** ** Writing a record *)
(** The revision an edit of a mirror is based on. *)
Definition baseOf (input previous confirmed : jobj) : jval :=
  if jcontains input "baseRevision" then input.["baseRevision"]
  else if jcontains previous "baseRevision" then previous.["baseRevision"]
  else if jcontains previous "revision" then previous.["revision"]
  else confirmed.["revision"].
(** [abort]: undo to the savepoint that was taken at [d]. *)
Definition abort (d : Db) : M bool :=
  let! undone := run RollbackTo in
  let! _ := (if undone then modify (set_db d) else ret tt) in
  let! _ := run Release in ret false.
(** The record that is stored for [e]: the committed revision on the authority,
    the confirmed one or a proposal with its base on a mirror. *)
Definition settle (input e previous : jobj) : M (option jobj) :=
  let! ledger := journal in
  let! host := meta (u "host") in
  if isEmpty host then
    let! s := get in
    let '(ledger', e') := Namespace.commit nsSql (lastError E) ledger e (proposal s) (proposalBase s) in
    let! _ := keep ledger' in
    if jempty e' then let! _ := fail (Namespace.error ledger') in ret None else ret (Some e')
  else if jcontains input "revision" then
    ret (Some (foldl (λ e key, jinsert e key input.[key]) e ["namespace"; "authority"; "revision"; "sequence"]%string))
  else
    let base := baseOf input previous (Namespace.object nsSql ledger (toStr e.["path"])) in
    ret (Some (jinsert e "baseRevision" (JStr (toStr base)))).
Definition nextSequence (previous e : jobj) : M (option Z) :=
  let seq := jlong previous.["sequence"] in
  if bool_decide (previous.["version"] = e.["version"]) then ret (Some seq) else
  let! top := meta (u "sequence") in
  let seq := toLongLong0 top + 1 in
  if MaxCounter <? seq then let! _ := fail (u "journal_sequence_limit") in ret None else
  let! ok := setMeta (u "sequence") (numberStr seq) in
  if ok then ret (Some seq) else let! _ := fail (u "journal_sequence_limit") in ret None.
(** A verified local file is one of its version's locations. *)
Definition locateLocal (e : jobj) (stamp : QString) : M bool :=
  if bool_decide (stamp ≠ u "remote") && bool_decide (e.["kind"] = JS "file") && jcontains e "revision"
  then let! ledger := journal in
       let '(ledger', ok) := Namespace.locate nsSql (lastError E) ledger (toStr e.["version"])
         (obj [("provider", JS "local"); ("kind", JS "local"); ("key", JStr (physical (toStr e.["path"])))]%string) in
       let! _ := keep ledger' in
       if ok then ret true else fail (Namespace.error ledger')
  else ret true.
Definition save (e : jobj) (stamp : QString) : M bool :=
  let input := e in
  let e := versioned e in
  let! (previous, _) := entry (toStr e.["path"]) in
  let! begun := run Savepoint in
  if negb begun then ret false else
  let! s := get in
  let undo := abort (db s) in
  let! settled := settle input e previous in
  match settled with
  | None => undo
  | Some e =>
      let! seq := nextSequence previous e in
      match seq with
      | None => undo
      | Some seq =>
          let path := toStr e.["path"] in
          let! written := run (UpsertEntry path) in
          if negb written then undo else
          let! _ := onDb (λ d, set_entries (<[path := mkEntry e stamp seq]> (entries d)) d) in
          let! located := locateLocal e stamp in
          if located then run Release else undo
      end
  end.

(** ** Observing the files *)
(** The clock after one more local change. *)
Definition tick (id : QString) (counter : Z) (clock : jobj) : jobj := jset clock id (jnum counter).
Definition observed (path : QString) (state : FileState) (verifiedHash : QString) : M bool :=
  let! (old, oldStamp) := entry path in
  let! s := get in
  if negb (isEmpty (error s)) then ret false
  else if bool_decide (oldStamp = u "remote") && bool_decide (kind state = u "deleted") then ret true
  else if jempty old && bool_decide (kind state = u "deleted") then ret true
  else if bool_decide (toStr old.["kind"] = kind state) && bool_decide (oldStamp = stamp state) then ret true
  else
  let file := bool_decide (kind state = u "file") in
  let! hash := (if file then if isEmpty verifiedHash then onFiles (fhash (physical path) (stamp state))
                             else ret verifiedHash
                else ret []) in
  if file && isEmpty hash then failFiles else
  let e := obj [("path", JStr path); ("kind", JStr (kind state)); ("size", jnum (fsize state));
                ("hash", JStr hash); ("clock", JObj (toObj old.["clock"]))]%string in
  if contentEqual e old then save old (stamp state) else
  let clock := toObj e.["clock"] in
  let! top := meta (u "counter") in
  let counter := Z.max (toLongLong0 top) (clockAt clock (id s)) + 1 in
  if (MaxCounter <? counter) || ((63 <? Z.of_nat (size clock)) && negb (bool_decide (is_Some (clock !! id s))))
  then fail (u "replica_clock_limit") else
  let! ok := setMeta (u "counter") (numberStr counter) in
  if negb ok then fail (u "replica_clock_limit") else
  save (jinsert e "clock" (JObj (tick (id s) counter clock))) (stamp state).
Definition refresh (path : QString) : M bool :=
  let! exact := onFiles (fexactPath (physical path)) in
  if negb exact then failFiles else
  let! state := onFiles (fstate (physical path)) in
  match state with
  | None => failFiles
  | Some st => observed path st []
  end.

(** ** Reading leaves the store alone *)
(** A computation that only ever touches the error text. *)
Definition quiet {A} (m : M A) : Prop :=
  ∀ s, ∃ e, (m s).2 = set_error e s.

Lemma set_error_same s : set_error (error s) s = s.
Proof. by destruct s. Qed.
Lemma set_error_twice e e' s : set_error e (set_error e' s) = set_error e s.
Proof. done. Qed.

Lemma quiet_ret {A} (a : A) : quiet (ret a).
Proof. intros s. exists (error s). by rewrite set_error_same. Qed.
Lemma quiet_fail e : quiet (fail e).
Proof. intros s. by exists e. Qed.
Lemma quiet_bind {A B} (m : M A) (k : A → M B) : quiet m → (∀ a, quiet (k a)) → quiet (bind m k).
Proof.
  intros Hm Hk s. unfold bind. destruct (Hm s) as [e He]. destruct (m s) as [a s']. cbn in He. subst s'.
  destruct (Hk a (set_error e s)) as [e' ->]. by exists e'.
Qed.
Lemma quiet_get {A} (f : Store → A) : quiet (λ s, (f s, s)).
Proof. intros s. exists (error s). by rewrite set_error_same. Qed.
Lemma quiet_run st : quiet (run st).
Proof. unfold run. destruct (sql E st); [apply quiet_ret|apply quiet_fail]. Qed.
Lemma quiet_meta k : quiet (meta k).
Proof.
  unfold meta. destruct (sql E _); [apply quiet_get|]. apply quiet_bind; [apply quiet_fail|]. intros. apply quiet_ret.
Qed.
Lemma quiet_journal : quiet journal.
Proof.
  unfold journal. apply quiet_bind; [apply quiet_meta|]. intros h. apply quiet_bind.
  - destruct (isEmpty h); [apply quiet_get|apply quiet_meta].
  - intros a. apply quiet_get.
Qed.
Lemma quiet_entry p : quiet (entry p).
Proof.
  unfold entry. destruct (sql E _).
  - intros s. exists (error s). destruct (entries (db s) !! p); by rewrite set_error_same.
  - apply quiet_bind; [apply quiet_fail|]. intros. apply quiet_ret.
Qed.

(** The result and the error text of a quiet computation, on any store. *)
Lemma quiet_elim {A} (m : M A) s : quiet m → ∃ a e, m s = (a, set_error e s).
Proof. intros H. destruct (H s) as [e He]. destruct (m s) as [a s']. cbn in He. subst. eauto. Qed.

(** ** Writes are all or nothing *)
(** Everything but the database and the error text is kept. *)
Definition frame (s s' : Store) : Prop := ∃ d e, s' = set_db d (set_error e s).

#[local] Instance frame_preorder : PreOrder frame.
Proof.
  split.
  - intros s. exists (db s), (error s). by destruct s.
  - intros a b c (d & e & ->) (d' & e' & ->). by exists d', e'.
Qed.

Definition framed {A} (m : M A) : Prop := ∀ s, frame s (m s).2.

Lemma framed_bind {A B} (m : M A) (k : A → M B) : framed m → (∀ a, framed (k a)) → framed (bind m k).
Proof.
  intros Hm Hk s. unfold bind. specialize (Hm s). destruct (m s) as [a s']. etransitivity; [exact Hm|apply Hk].
Qed.
Lemma framed_quiet {A} (m : M A) : quiet m → framed m.
Proof. intros H s. destruct (H s) as [e ->]. exists (db s), e. by destruct s. Qed.
Lemma framed_onDb f : framed (onDb f).
Proof. intros s. exists (f (db s)), (error s). by destruct s. Qed.
Lemma framed_if {A} (b : bool) (m1 m2 : M A) : framed m1 → framed m2 → framed (if b then m1 else m2).
Proof. by destruct b. Qed.

Hint Resolve framed_bind framed_quiet framed_onDb framed_if quiet_ret quiet_fail quiet_get quiet_run quiet_meta
  quiet_journal quiet_entry : store.
#[local] Hint Extern 1 (framed (let '(_, _) := ?x in _)) => destruct x : store.

Lemma framed_setMeta k v : framed (setMeta k v).
Proof. unfold setMeta. auto 6 with store. Qed.
Hint Resolve framed_setMeta : store.

Lemma framed_settle input e previous : framed (settle input e previous).
Proof.
  unfold settle. apply framed_bind; [auto with store|]. intros j. apply framed_bind; [auto with store|]. intros h.
  destruct (isEmpty h); [|destruct (jcontains _ _); auto with store].
  apply framed_bind; [apply framed_quiet, quiet_get|]. intros s. destruct (Namespace.commit _ _ _ _ _ _) as [j' e'].
  unfold keep. destruct (jempty e'); auto 6 with store.
Qed.

Lemma framed_nextSequence previous e : framed (nextSequence previous e).
Proof.
  unfold nextSequence. destruct (bool_decide _); [auto with store|]. apply framed_bind; [auto with store|].
  intros top. destruct (_ <? _); [auto with store|]. apply framed_bind; [auto with store|]. intros []; auto with store.
Qed.

Lemma abort_db d s : sql E RollbackTo = true → sql E Release = true → abort d s = (false, set_db d s).
Proof. intros Hr Hl. unfold abort, run, bind, ret, modify. by rewrite Hr, Hl. Qed.

Lemma frame_set_db d s s' : frame s s' → ∃ e, set_db d s' = set_db d (set_error e s).
Proof. intros (d' & e & ->). by exists e. Qed.

Lemma framed_locateLocal e stamp : framed (locateLocal e stamp).
Proof.
  apply framed_if; [|auto with store]. apply framed_bind; [auto with store|]. intros j.
  destruct (Namespace.locate _ _ _ _ _) as [j' ok]. unfold keep. destruct ok; auto with store.
Qed.

(** [save] only changes the database and the error text. *)
Lemma framed_abort d : framed (abort d).
Proof.
  unfold abort. apply framed_bind; [auto with store|]. intros b. apply framed_bind; [|auto with store].
  apply framed_if; [|auto with store]. intros s. exists d, (error s). by destruct s.
Qed.
#[local] Hint Resolve framed_abort framed_settle framed_nextSequence framed_locateLocal : store.

Lemma framed_save e stamp : framed (save e stamp).
Proof.
  unfold save. apply framed_bind; [auto with store|]. intros [previous ?]. apply framed_bind; [auto with store|].
  intros []; cbn [negb]; [|auto with store]. apply framed_bind; [apply framed_quiet, quiet_get|]. intros s.
  apply framed_bind; [auto with store|]. intros [e'|]; [|auto with store].
  apply framed_bind; [auto with store|]. intros [seq|]; [|auto with store].
  apply framed_bind; [auto with store|]. intros []; cbn [negb]; [|auto with store].
  apply framed_bind; [auto with store|]. intros _. apply framed_bind; [auto with store|]. intros []; auto with store.
Qed.

Definition undone (s : Store) (m : bool * Store) : Prop :=
  frame s m.2 ∧ (m.1 = false → db m.2 = db s).

(** Any result of [abort] is an undone one. *)
Lemma undone_abort s s' :
  sql E RollbackTo = true → sql E Release = true → frame s s' → undone s (abort (db s) s').
Proof.
  intros Hr Hl (d & e & ->). rewrite abort_db by done. split; [|done]. by exists (db s), e.
Qed.

Lemma save_undone e stamp s :
  sql E RollbackTo = true → sql E Release = true → undone s (save e stamp s).
Proof.
  intros Hr Hl. unfold save. cbv zeta. set (e0 := versioned e). unfold bind at 1.
  destruct (quiet_elim (entry (toStr e0.["path"])) s (quiet_entry _)) as ([previous ?] & err & ->).
  unfold bind at 1. destruct (quiet_elim (run Savepoint) (set_error err s) (quiet_run _)) as (begun & err' & ->).
  destruct begun; [|by split; [exists (db s), err'; by destruct s|]]. cbn [negb].
  unfold bind at 1, get. change (db (set_error err' (set_error err s))) with (db s).
  set (s1 := set_error err' (set_error err s)).
  assert (F1 : frame s s1) by (exists (db s), err'; by destruct s).
  unfold bind at 1. pose proof (framed_settle e e0 previous s1) as F2.
  destruct (settle e e0 previous s1) as [[e'|] s2]; cbn in F2; [|by apply undone_abort; [..|transitivity s1]].
  unfold bind at 1. pose proof (framed_nextSequence previous e' s2) as F3.
  destruct (nextSequence previous e' s2) as [[seq|] s3]; cbn in F3;
    [|by apply undone_abort; [..|transitivity s1; [|transitivity s2]]].
  assert (F : frame s s3) by (transitivity s1; [done|by transitivity s2]).
  unfold bind at 1. destruct (quiet_elim (run (UpsertEntry (toStr e'.["path"]))) s3 (quiet_run _)) as (written & err'' & ->).
  assert (F4 : frame s (set_error err'' s3)) by (etransitivity; [exact F|by exists (db s3), err''; destruct s3]).
  destruct written; [|by apply undone_abort]. cbn [negb].
  unfold bind at 1. pose proof (framed_onDb (λ d, set_entries (<[toStr e'.["path"]:=mkEntry e' stamp seq]> (entries d)) d)
    (set_error err'' s3)) as F5. destruct (onDb _ _) as [[] s4]. cbn in F5.
  unfold bind at 1. pose proof (framed_locateLocal e' stamp s4) as F6.
  destruct (locateLocal e' stamp s4) as [located s5]. cbn in F6.
  assert (F7 : frame s s5) by (etransitivity; [exact F4|]; by etransitivity).
  destruct located; [|by apply undone_abort].
  unfold run. rewrite Hl. split; [exact F7|done].
Qed.

(** ** A healthy database *)
Section healthy.
Hypothesis sql_ok : ∀ st, sql E st = true.

Definition metaOf (d : Db) (k : string) : QString := default [] (metadata d !! u k).
Definition journalOf (s : Store) : Namespace.Journal :=
  Namespace.mkJournal (nsRows (db s)) (nsLocations (db s)) (container s)
    (if isEmpty (metaOf (db s) "host") then id s else metaOf (db s) "hostReplica") [].
Definition entryOf (d : Db) (p : QString) : jobj * QString :=
  match entries d !! p with
  | Some r => (jinsert (edata r) "sequence" (jnum (eseq r)), estamp r)
  | None => (∅, [])
  end.

Lemma run_ok st s : run st s = (true, s).
Proof. unfold run. by rewrite sql_ok. Qed.
Lemma meta_ok k s : meta (u k) s = (metaOf (db s) k, s).
Proof. unfold meta. by rewrite sql_ok. Qed.
Lemma setMeta_ok k v s :
  setMeta k v s = (true, set_db (set_metadata (<[k := v]> (metadata (db s))) (db s)) s).
Proof. unfold setMeta, bind. by rewrite run_ok. Qed.
Lemma entry_ok p s : entry p s = (entryOf (db s) p, s).
Proof. unfold entry, entryOf. rewrite sql_ok. by destruct (_ !! _). Qed.
Lemma journal_ok s : journal s = (journalOf s, s).
Proof.
  unfold journal, bind. rewrite meta_ok. unfold journalOf.
  destruct (isEmpty _); [done|]. by rewrite meta_ok.
Qed.
Lemma nsSql_ok st : nsSql st = true.
Proof. apply sql_ok. Qed.

(** ** The catalog invariant
    Every row is filed under its own path with a change number of its own below
    the store's counter; the ledger is well formed; on the authority a row's
    version is the current one of the ledger. *)
Definition top (d : Db) : Z := toLongLong0 (metaOf d "sequence").
Record catalog (s : Store) : Prop := {
  cat_ledger : Namespace.wf (journalOf s);
  cat_top : 0 ≤ top (db s) ≤ MaxCounter;
  cat_seq p r : entries (db s) !! p = Some r → 1 ≤ eseq r ≤ top (db s);
  cat_distinct p q r r' : entries (db s) !! p = Some r → entries (db s) !! q = Some r' →
    eseq r = eseq r' → p = q;
  cat_path p r : entries (db s) !! p = Some r → toStr (edata r).["path"] = p;
  cat_agrees p r : isEmpty (metaOf (db s) "host") = true → entries (db s) !! p = Some r →
    (Namespace.object nsSql (journalOf s) p).["version"] = (edata r).["version"]
}.

Lemma entryOf_data d p :
  (∀ r, entries d !! p = Some r → (entryOf d p).1 = jinsert (edata r) "sequence" (jnum (eseq r)) ∧ (entryOf d p).2 = estamp r)
  ∧ (entries d !! p = None → entryOf d p = (∅, [])).
Proof. unfold entryOf. split; [intros r ->|intros ->]; done. Qed.

Lemma versioned_ext e : (versioned e).["path"] = e.["path"] ∧ (versioned e).["version"] ≠ JUndef.
Proof. split; [unfold versioned, payload; by jsimp|by rewrite versioned_payload]. Qed.

(** What [settle] stores: the given version of the given path; on the authority it
    is then the ledger's, and nothing else of the ledger moves. *)
Record settled (s s' : Store) (e e' : jobj) : Prop := {
  set_version : e'.["version"] = e.["version"];
  set_path : toStr e'.["path"] = toStr e.["path"];
  set_frame : s' = set_db (set_ledger (nsRows (db s')) (nsLocations (db s')) (db s)) s;
  set_wf : Namespace.wf (journalOf s');
  set_current : isEmpty (metaOf (db s) "host") = true →
    (Namespace.object nsSql (journalOf s') (toStr e.["path"])).["version"] = e.["version"]
    ∧ ∀ q, q ≠ toStr e.["path"] → Namespace.object nsSql (journalOf s') q = Namespace.object nsSql (journalOf s) q
}.

Lemma keep_journal j s :
  Namespace.space j = Namespace.space (journalOf s) → Namespace.authority j = Namespace.authority (journalOf s) →
  ∃ err, journalOf (keep j s).2 = Namespace.set_error err j.
Proof. intros Es Ea. exists []. destruct j; cbn in *. unfold journalOf. cbn. by rewrite Es, Ea. Qed.

Lemma settle_ok `{PL : !PlatformLaws} input e0 previous s s' e' :
  Namespace.wf (journalOf s) →
  settle input (versioned e0) previous s = (Some e', s') → settled s s' (versioned e0) e'.
Proof.
  intros Hw. unfold settle, bind at 1. rewrite journal_ok. unfold bind at 1. rewrite meta_ok.
  destruct (isEmpty (metaOf (db s) "host")) eqn:Eh.
  - unfold bind at 1, get. destruct (Namespace.commit _ _ _ _ _ _) as [j' c] eqn:Ec.
    apply (Namespace.commit_current _ _ nsSql_ok) in Ec as (Hw' & Es & Ea & El & _ & Hc); [|done].
    unfold bind at 1. destruct (keep_journal j' s Es Ea) as [err Ek].
    destruct (keep j' s) as [[] s2] eqn:E2. cbn [snd] in Ek. unfold keep, onDb, modify in E2. injection E2 as <-.
    destruct (jempty c) eqn:Ej; [done|]. intros [= <- <-]. destruct (Hc eq_refl) as (Hv & Hpath & Hcur & Hoth).
    split; [done|done|done| |].
    + rewrite Ek. exact Hw'.
    + intros _. rewrite Ek. split; [exact Hcur|exact Hoth].
  - assert (set_db (set_ledger (nsRows (db s)) (nsLocations (db s)) (db s)) s = s) as Es
      by (by destruct s as [[] ? ? ? ? ? ? ? ? ?]).
    destruct (jcontains input "revision"); cbv zeta; unfold ret; intros [-> ->]%some_pair_inv;
      (split; [| |by rewrite Es|done|intros; congruence]); cbn [foldl]; by jsimp.
Qed.

Lemma metaOf_set k k' v d : k ≠ k' → metaOf (set_metadata (<[u k := v]> (metadata d)) d) k' = metaOf d k'.
Proof. intros Hk. unfold metaOf. cbn. rewrite lookup_insert_ne; [done|]. intros E'. by apply u_inj in E'. Qed.
Lemma metaOf_set_eq k v d : metaOf (set_metadata (<[u k := v]> (metadata d)) d) k = v.
Proof. unfold metaOf. cbn. by rewrite lookup_insert_eq. Qed.

(** The change number a record is filed under. *)
Lemma nextSequence_ok previous e s r s' :
  0 ≤ top (db s) →
  nextSequence previous e s = (r, s') →
  (previous.["version"] = e.["version"] ∧ r = Some (jlong previous.["sequence"]) ∧ s' = s)
  ∨ (previous.["version"] ≠ e.["version"] ∧ MaxCounter < top (db s) + 1 ∧ r = None ∧ ∃ e, s' = set_error e s)
  ∨ (previous.["version"] ≠ e.["version"] ∧ top (db s) + 1 ≤ MaxCounter ∧ r = Some (top (db s) + 1)
     ∧ s' = set_db (set_metadata (<[u "sequence" := numberStr (top (db s) + 1)]> (metadata (db s))) (db s)) s).
Proof.
  intros Ht. unfold nextSequence. destruct (bool_decide_reflect (previous.["version"] = e.["version"])) as [Hv|Hv].
  { intros [-> ->]%pair_inv. auto. }
  unfold bind at 1. rewrite meta_ok. fold (top (db s)). destruct (Z.ltb_spec MaxCounter (top (db s) + 1)).
  - intros [-> ->]%pair_inv. right. left. split_and!; [done|done|done|]. eexists. reflexivity.
  - unfold bind. rewrite setMeta_ok. intros [-> ->]%pair_inv. auto 6.
Qed.

Lemma locateLocal_ok e stamp s :
  ∃ b l err, locateLocal e stamp s = (b, set_error err (set_db (set_ledger (nsRows (db s)) l (db s)) s)).
Proof.
  assert (Hid : set_error (error s) (set_db (set_ledger (nsRows (db s)) (nsLocations (db s)) (db s)) s) = s)
    by (by destruct s as [[] ? ? ? ? ? ? ? ? ?]).
  unfold locateLocal. destruct (_ && _ && _).
  - unfold bind at 1. rewrite journal_ok. unfold Namespace.locate. rewrite nsSql_ok. eexists _, _, _. cbn. reflexivity.
  - exists true, (nsLocations (db s)), (error s). by rewrite Hid.
Qed.

Lemma wf_locations s l : Namespace.wf (journalOf s) →
  Namespace.wf (journalOf (set_db (set_ledger (nsRows (db s)) l (db s)) s)).
Proof. done. Qed.

(** What a successful [save] leaves: the row of the path, and its change number. *)
Record saved (s s' : Store) (e : jobj) (stamp : QString) (r : Row) : Prop := {
  saved_entries : entries (db s') = <[toStr e.["path"] := r]> (entries (db s));
  saved_stamp : estamp r = stamp;
  saved_version : (edata r).["version"] = (versioned e).["version"];
  saved_order :
    (entryOf (db s) (toStr e.["path"])).1.["version"] = (versioned e).["version"]
      ∧ top (db s') = top (db s) ∧ eseq r = jlong (entryOf (db s) (toStr e.["path"])).1.["sequence"]
    ∨ (entryOf (db s) (toStr e.["path"])).1.["version"] ≠ (versioned e).["version"]
      ∧ top (db s') = top (db s) + 1 ∧ eseq r = top (db s');
  saved_top : top (db s') ≤ MaxCounter;
  saved_path : toStr (edata r).["path"] = toStr e.["path"];
  saved_wf : Namespace.wf (journalOf s');
  saved_host : metaOf (db s') "host" = metaOf (db s) "host";
  saved_current : isEmpty (metaOf (db s) "host") = true →
    (Namespace.object nsSql (journalOf s') (toStr e.["path"])).["version"] = (edata r).["version"]
    ∧ ∀ q, q ≠ toStr e.["path"] → (Namespace.object nsSql (journalOf s') q).["version"]
                                  = (Namespace.object nsSql (journalOf s) q).["version"];
  saved_frame : frame s s'
}.

Lemma numberStr_top n : 0 ≤ n ≤ MaxCounter → toLongLong0 (numberStr n) = n.
Proof. intros H. unfold MaxCounter in H. apply jlong_jnum. unfold int64_min, int64_max. lia. Qed.

Lemma top_set d n : 0 ≤ n ≤ MaxCounter →
  top (set_metadata (<[u "sequence" := numberStr n]> (metadata d)) d) = n.
Proof. intros H. unfold top. rewrite metaOf_set_eq. by apply numberStr_top. Qed.

(** The last steps of [save] over a store [s3] that has the settled ledger. *)
Lemma saved_intro s s2 s3 e e' stamp seq l err :
  settled s s2 (versioned e) e' →
  frame s s3 → entries (db s3) = entries (db s) → journalOf s3 = journalOf s2 →
  metaOf (db s3) "host" = metaOf (db s) "host" → top (db s3) ≤ MaxCounter →
  (let p := toStr e.["path"] in
   (entryOf (db s) p).1.["version"] = (versioned e).["version"]
      ∧ top (db s3) = top (db s) ∧ seq = jlong (entryOf (db s) p).1.["sequence"]
   ∨ (entryOf (db s) p).1.["version"] ≠ (versioned e).["version"]
      ∧ top (db s3) = top (db s) + 1 ∧ seq = top (db s3)) →
  let s4 := set_db (set_entries (<[toStr e'.["path"] := mkEntry e' stamp seq]> (entries (db s3))) (db s3)) s3 in
  saved s (set_error err (set_db (set_ledger (nsRows (db s4)) l (db s4)) s4)) e stamp (mkEntry e' stamp seq).
Proof.
  intros [Hv Hp Hf Hw2 Hcur] Hfr He Hj Hh Htop Hord s4.
  assert (Ep : toStr (versioned e).["path"] = toStr e.["path"]) by (f_equal; apply versioned_ext).
  rewrite Ep in *.
  assert (J : journalOf (set_error err (set_db (set_ledger (nsRows (db s4)) l (db s4)) s4))
              = Namespace.set_locations l (journalOf s2)) by (by rewrite <- Hj).
  split; try done.
  - cbn. by rewrite Hp, He.
  - rewrite J. exact Hw2.
  - rewrite J. intros Hhost. destruct (Hcur Hhost) as [H1 H2]. cbn [edata]. rewrite Hv.
    assert (∀ q, (Namespace.object nsSql (Namespace.set_locations l (journalOf s2)) q).["version"]
                 = (Namespace.object nsSql (journalOf s2) q).["version"]) as Hq
      by (intros q; apply Namespace.object_rows; [apply nsSql_ok|done|done]).
    split; [by rewrite Hq|]. intros q Hne. rewrite Hq. by rewrite H2.
  - etransitivity; [exact Hfr|]. eexists _, _. unfold s4. cbn. reflexivity.
Qed.

Lemma save_ok `{PL : !PlatformLaws} e stamp s s' :
  Namespace.wf (journalOf s) → 0 ≤ top (db s) ≤ MaxCounter →
  save e stamp s = (true, s') → ∃ r, saved s s' e stamp r.
Proof.
  intros Hw Ht. unfold save. cbv zeta. unfold bind at 1. rewrite entry_ok.
  assert (Ep : (versioned e).["path"] = e.["path"]) by apply versioned_ext. rewrite !Ep.
  destruct (entryOf (db s) (toStr e.["path"])) as [previous st] eqn:Eprev.
  unfold bind at 1. rewrite run_ok. cbn [negb]. unfold bind at 1, get.
  unfold bind at 1. destruct (settle e (versioned e) previous s) as [[e'|] s2] eqn:Es; [|by rewrite abort_db].
  assert (Hset : settled s s2 (versioned e) e') by (eapply settle_ok; [done|exact Es]). clear Es.
  assert (Hf := set_frame _ _ _ _ Hset). assert (Hv := set_version _ _ _ _ Hset).
  assert (Hfr : frame s s2) by (rewrite Hf; by exists (set_ledger (nsRows (db s2)) (nsLocations (db s2)) (db s)), (error s); destruct s).
  assert (Hm : metadata (db s2) = metadata (db s)) by (by rewrite Hf).
  assert (He : entries (db s2) = entries (db s)) by (by rewrite Hf).
  assert (Etop : top (db s2) = top (db s)) by (unfold top, metaOf; by rewrite Hm).
  assert (Hh : metaOf (db s2) "host" = metaOf (db s) "host") by (unfold metaOf; by rewrite Hm).
  unfold bind at 1. destruct (nextSequence previous e' s2) as [r s3] eqn:En.
  apply nextSequence_ok in En; [|lia].
  destruct En as [(Evv & -> & ->)|[(_ & _ & -> & _)|(Evv & Hle & -> & ->)]]; [|by rewrite abort_db|];
    unfold bind at 1; rewrite run_ok; cbn [negb]; unfold bind at 1; unfold onDb, modify;
    unfold bind at 1;
    match goal with |- context [locateLocal e' stamp ?x] => set (s4 := x) end;
    destruct (locateLocal_ok e' stamp s4) as (b & l & err & ->);
    (destruct b; [|by rewrite abort_db]); rewrite run_ok; intros [_ ->]%pair_inv; rewrite Hv in Evv.
  - eexists. eapply (saved_intro s s2 s2); eauto; [lia|]. cbv zeta. rewrite Eprev. auto.
  - assert (Et := top_set (db s2) (top (db s2) + 1) ltac:(lia)).
    eexists. eapply (saved_intro s s2 (set_db (set_metadata _ (db s2)) s2)); eauto.
    + etransitivity; [exact Hfr|]. eexists _, (error s2). by destruct s2.
    + unfold journalOf. cbn [db set_db]. by rewrite !metaOf_set by done.
    + cbn [db set_db]. by rewrite metaOf_set.
    + cbn [db set_db]. by rewrite Et.
    + cbv zeta. rewrite Eprev. right. cbn [db set_db]. rewrite Et. split_and!; [done|lia|done].
Qed.

(** The change number of a saved row is its old one, or a new one above all others. *)
Lemma saved_sequence s s' e stamp r :
  catalog s → saved s s' e stamp r →
  (∃ r0, entries (db s) !! toStr e.["path"] = Some r0 ∧ eseq r = eseq r0 ∧ top (db s') = top (db s))
  ∨ top (db s') = top (db s) + 1 ∧ eseq r = top (db s').
Proof.
  intros [_ Ht Hs _ _ _] [_ _ _ Ho _ _ _ _ _ _]. destruct Ho as [(Ev & Et & Es)|(_ & Et & Es)]; [left|by right].
  destruct (entryOf_data (db s) (toStr e.["path"])) as [Hd Hn].
  destruct (entries (db s) !! toStr e.["path"]) as [r0|] eqn:E0.
  - exists r0. split_and!; [done| |done]. rewrite (proj1 (Hd r0 eq_refl)), jvalue_jinsert_eq in Es.
    specialize (Hs _ r0 E0). rewrite Es. apply jlong_jnum. unfold MaxCounter, int64_min, int64_max in *. lia.
  - rewrite (Hn eq_refl) in Ev. cbn [fst] in Ev. rewrite jvalue_empty in Ev. symmetry in Ev. by apply versioned_ext in Ev.
Qed.

(** Saving keeps the catalog, whether it succeeds or not. *)
Lemma saved_catalog s s' e stamp r : catalog s → saved s s' e stamp r → catalog s'.
Proof.
  intros Hc Hr. pose proof (saved_sequence _ _ _ _ _ Hc Hr) as Hseq.
  destruct Hc as [Hw Ht Hs Hd Hp Ha], Hr as [He _ _ _ Htop Hpath Hw' Hh Hcur _].
  assert (Hn : top (db s) ≤ top (db s') ∧ 1 ≤ eseq r ≤ top (db s')).
  { destruct Hseq as [(r0 & H0 & -> & ->)|[-> ->]]; [specialize (Hs _ _ H0)|]; lia. }
  assert (Hnew : ∀ q r', q ≠ toStr e.["path"] → entries (db s) !! q = Some r' → eseq r' ≠ eseq r).
  { intros q r' Hne Hq E'. destruct Hseq as [(r0 & H0 & Er & _)|[Et Er]].
    - apply Hne. eapply Hd; [exact Hq|exact H0|congruence].
    - specialize (Hs _ _ Hq). lia. }
  split; [done|lia|..].
  - intros q r'. rewrite He. intros [[<- <-]|[_ Hq]]%lookup_insert_Some; [lia|]. specialize (Hs _ _ Hq). lia.
  - intros q q' r1 r2. rewrite He.
    intros [[<- <-]|[Hne Hq]]%lookup_insert_Some [[<- <-]|[Hne' Hq']]%lookup_insert_Some; [done|..|by eauto].
    + intros E'. by destruct (Hnew q' r2); [congruence|done|].
    + intros E'. by destruct (Hnew q r1); [congruence|done|].
  - intros q r'. rewrite He. intros [[<- <-]|[_ Hq]]%lookup_insert_Some; [done|eauto].
  - intros q r'. rewrite Hh, He. intros Hhost. destruct (Hcur Hhost) as [H1 H2].
    intros [[<- <-]|[Hne Hq]]%lookup_insert_Some; [done|]. rewrite H2 by congruence. eauto.
Qed.

Lemma catalog_error s e : catalog s → catalog (set_error e s).
Proof. intros []. by split. Qed.

Lemma save_catalog `{PL : !PlatformLaws} e stamp s ok s' :
  catalog s → save e stamp s = (ok, s') →
  catalog s' ∧ (ok = false → db s' = db s) ∧ (ok = true → ∃ r, saved s s' e stamp r).
Proof.
  intros Hc H. destruct (save_undone e stamp s (sql_ok _) (sql_ok _)) as [Hfr Hundo].
  rewrite H in Hfr, Hundo. cbn in Hfr, Hundo. destruct ok.
  - apply save_ok in H as [r Hr]; [|apply Hc|apply Hc]. split; [by eapply saved_catalog|eauto].
  - specialize (Hundo eq_refl). destruct Hfr as (d & err & ->). cbn in Hundo. subst d.
    split; [|done]. apply (catalog_error _ err) in Hc. by destruct s.
Qed.

(** ** Observations *)
Lemma clockAt_tick c k n q :
  int64_min ≤ n ≤ int64_max → clockAt (tick k n c) q = if decide (q = k) then n else clockAt c q.
Proof.
  intros Hn. unfold tick, jset, jnum, clockAt. destruct (decide (q = k)) as [->|Hq].
  - rewrite lookup_insert_eq. cbn [default]. by apply jlong_jnum.
  - by rewrite lookup_insert_ne.
Qed.
Lemma tick_dominates c k n :
  clockAt c k < n → int64_min ≤ n ≤ int64_max → compare (tick k n c) c = 1.
Proof.
  intros Hlt Hn. destruct (compare_cases (tick k n c) c) as [(H1 & _ & _)|[(_ & _ & ->)|[(H1 & _ & _)|(_ & H2 & _)]]]; [|done| |].
  1,2: specialize (H1 k); rewrite clockAt_tick, decide_True in H1 by done; lia.
  exfalso. apply H2. intros q. rewrite clockAt_tick by done. destruct (decide (q = k)) as [->|]; lia.
Qed.

(** The record of a new content of a path: the old one's clock after a tick. *)
Record tickedFrom (id : QString) (path : QString) (st : FileState) (old e : jobj) : Prop := {
  ticked_path : toStr e.["path"] = path;
  ticked_kind : e.["kind"] = JStr (kind st);
  ticked_size : e.["size"] = jnum (fsize st);
  ticked_after : compare (toObj e.["clock"]) (toObj old.["clock"]) = 1;
  ticked_own : clockAt (toObj old.["clock"]) id < clockAt (toObj e.["clock"]) id;
  ticked_others q : q ≠ id → clockAt (toObj e.["clock"]) q = clockAt (toObj old.["clock"]) q
}.

Lemma observed_cases path st h s s' :
  error s = [] →
  observed path st h s = (true, s') →
  let old := (entryOf (db s) path).1 in
  db s' = db s
  ∨ (∃ s1, db s1 = db s ∧ container s1 = container s ∧ id s1 = id s ∧ save old (stamp st) s1 = (true, s'))
  ∨ (∃ s1 e counter, db s1 = set_metadata (<[u "counter" := counter]> (metadata (db s))) (db s)
       ∧ container s1 = container s ∧ id s1 = id s ∧ tickedFrom (id s) path st old e ∧ save e (stamp st) s1 = (true, s')).
Proof.
  intros Herr. unfold observed. cbv zeta. unfold bind at 1. rewrite entry_ok.
  destruct (entryOf (db s) path) as [old oldStamp] eqn:Eo. cbn [fst] in *.
  unfold bind at 1, get. rewrite Herr. cbn [isEmpty negb].
  change (isEmpty []) with true. cbn [negb].
  guard_case; [intros [_ ->]%pair_inv; by left|]. guard_case; [intros [_ ->]%pair_inv; by left|].
  guard_case; [intros [_ ->]%pair_inv; by left|]. unfold bind at 1.
  match goal with |- context [match ?m s with (_, _) => _ end] => destruct (m s) as [hash s1] eqn:Eh end.
  assert (db s1 = db s ∧ container s1 = container s ∧ id s1 = id s) as (Hd & Hc & Hi).
  { revert Eh. destruct (bool_decide (kind st = u "file")); [destruct (isEmpty h)|]; [|by intros [_ ->]%pair_inv..].
    unfold onFiles. destruct (fhash _ _ _). by intros [_ ->]%pair_inv. }
  destruct (_ && isEmpty hash); [done|]. set (e := obj _).
  destruct (contentEqual e old); [intros Hsv; right; left; by exists s1|]. unfold bind at 1. rewrite meta_ok.
  assert (Ec : toObj e.["clock"] = toObj old.["clock"]) by (unfold e; by jsimp). rewrite !Ec.
  set (counter := Z.max _ _ + 1).
  destruct (_ || _) eqn:Eg; [done|]. apply orb_false_iff in Eg as [Eg _]. apply Z.ltb_ge in Eg.
  unfold bind at 1. rewrite setMeta_ok. cbn [negb]. rewrite Hd.
  assert (Hlt : clockAt (toObj old.["clock"]) (id s) < counter) by (unfold counter; lia).
  assert (Hr : int64_min ≤ counter ≤ int64_max)
    by (pose proof (jlong_range (default JUndef (toObj old.["clock"] !! id s))); unfold clockAt, MaxCounter, int64_min, int64_max in *; lia).
  intros Hsv. right. right. 
  refine (ex_intro _ _ (ex_intro _ _ (ex_intro _ (numberStr counter) (conj _ (conj _ (conj _ (conj _ Hsv))))))); [done..|].
  split; unfold e; jsimp; try done; cbn [toObj].
  - by apply tick_dominates.
  - rewrite clockAt_tick, decide_True by done. done.
  - intros q Hq. by rewrite clockAt_tick, decide_False by done.
Qed.
End healthy.
End operations.
End Store.
