(* ===== verification/DemoStore.v ===== *)
(** A concrete replica for the examples: an authority with one container, a
    healthy database and the flat file store of DemoFiles.v. *)
From S2P Require Import Prelude Qt Records Demo DemoFiles Namespace Files Store.
Open Scope Z_scope.

Module DemoStore.
Import Records Store.

(** Every statement runs, the drive is there and nothing is locked. *)
Definition healthy : Env := {|
  sql _ := true; lastError := u "database_error"; driveValid := true; driveReady := true; lockFree := true;
  leaseFree := true; redirected _ := false; bytesAvailable := 1024 * 1024 * 1024; now := 0;
  freshId := u "fresh"
|}.
(** A disk on which no row of the catalog can be written. *)
Definition full : Env := {|
  sql st := match st with UpsertEntry _ => false | _ => true end; lastError := u "database or disk is full";
  driveValid := true; driveReady := true; lockFree := true; leaseFree := true; redirected _ := false;
  bytesAvailable := 0; now := 0; freshId := u "fresh"
|}.
Definition emptyDb : Db := mkDb ∅ ∅ ∅ ∅ ∅ [] [].
Definition storeOf (d : Db) (w : world) : Store :=
  mkStore _ d w ∅ ∅ (u "container") (u "scope") Demo.uuid [] [] [].
Definition empty : Store := storeOf emptyDb (∅ : DemoFiles.Flat).

(** A mirror of the host "host", whose own identity is [Demo.uuid]. *)
Definition mirrorDb : Db :=
  set_metadata {[ u "host" := u "host"; u "hostReplica" := u "host-replica" ]} emptyDb.
Definition mirror : Store := storeOf mirrorDb (∅ : DemoFiles.Flat).

Lemma empty_catalog d w :
  nsRows d = [] → entries d = ∅ → metaOf d "sequence" = [] → catalog healthy (storeOf d w).
Proof.
  intros Hr He Hm. split; cbn [storeOf db].
  - unfold Namespace.wf, journalOf. cbn [storeOf db Namespace.rows]. rewrite Hr. apply Namespace.chain_nil.
  - change (db (storeOf d w)) with d. unfold top. rewrite Hm. by_compute.
  - intros p r. by rewrite He.
  - intros p q r r'. by rewrite He.
  - intros p r. by rewrite He.
  - intros p r _. by rewrite He.
Qed.
End DemoStore.
