(* ===== verification/Merge.v ===== *)
(** Replica::Private::merge, src/Sync/Replica.cpp: how one incoming record is
    decided against the local entry, the conflict copies it leaves, and the
    transfer files its bytes arrive in. *)
From S2P Require Import Prelude Qt Records Namespace Files Store.
Open Scope Z_scope.

Module Merge.
Import Records Store.
Section with_files.
Context {PF : Platform} {FS : FileStore} (E : Env).

(** The file a peer's upload of a version is collected in. *)
Definition transfer (peer : QString) (e : jobj) : QString :=
  u ".society-sync/transfers/" ++ digest (toUtf8 peer ++ 10%N :: toUtf8 (toStr e.["version"])) ++ u ".part".
Definition protectTransfer (part : QString) : M bool := λ s,
  if bool_decide (part ∈ leases s) then (true, s)
  else if leaseFree E then (true, set_leases ({[ part ]} ∪ leases s) s)
  else fail (u "temporary_area_unavailable") s.

(** ** The decision *)
(** 0 or below: nothing to store; 1: incoming follows local; 2: concurrent. *)
Definition relationOf (mirror proposed absentPayload : bool) (local incoming confirmed : jobj) : Z :=
  if mirror then
    if bool_decide (local.["version"] = incoming.["version"]) && negb absentPayload then 0 else 1
  else if proposed then
    if bool_decide (local.["version"] = incoming.["version"]) then 0
    else if bool_decide (toStr incoming.["baseRevision"] = toStr confirmed.["revision"]) then 1 else 2
  else if jempty local then 1
  else compare (toObj incoming.["clock"]) (toObj local.["clock"]).
(** Without a base to tell them apart: the higher rank, then the higher hash. *)
Definition outranks (incoming local : jobj) : bool :=
  (rank local <? rank incoming)
  || ((rank incoming =? rank local) && qlt (toStr local.["hash"]) (toStr incoming.["hash"])).
Definition incomingWinsOf (retainDirectory mirror proposed same : bool) (relation : Z)
    (incoming local : jobj) : bool :=
  negb retainDirectory
  && (mirror || (relation =? 1) || same || bool_decide (incoming.["kind"] = JS "directory")
      || (negb proposed && outranks incoming local)).
Definition structuralOf (incoming local : jobj) : bool :=
  (bool_decide (incoming.["kind"] = JS "directory") && bool_decide (local.["kind"] = JS "file"))
  || (bool_decide (incoming.["kind"] = JS "file") && bool_decide (local.["kind"] = JS "directory")).
Definition withoutRevision (e : jobj) : jobj :=
  foldl jremove e ["namespace"; "authority"; "revision"; "sequence"]%string.
(** The record of a conflict copy. *)
Definition conflictCopy (loser clock : jobj) : jobj :=
  let copy := jinsert loser "path" (JStr (conflictPath loser)) in
  let copy := withoutRevision (jinsert copy "clock" (JObj clock)) in
  jinsert copy "baseRevision" (JS "").

(** ** The steps *)
(** A nonempty local directory is not replaced by a file or a deletion. *)
Definition retained (path : QString) (local incoming : jobj) : M (option bool) :=
  if bool_decide (local.["kind"] = JS "directory") && bool_decide (incoming.["kind"] ≠ JS "directory") then
    let! children := onFiles (flist (physical path)) in
    match children with
    | None => ret None
    | Some names => ret (Some (existsb (λ name, bool_decide (name ≠ u ".iisacc-temporary.lock")) names))
    end
  else ret (Some false).
(** The first pass: where the upload of the bytes resumes. *)
Definition resumeAt (part : QString) (incoming : jobj) : M jobj :=
  let! state := onFiles (fstate part) in
  match state with
  | None => failedFiles
  | Some partial =>
      let! ok := (if bool_decide (kind partial = u "deleted") then onFiles (fappend part 0 []) else ret true) in
      if negb ok then failedFiles
      else if jlong incoming.["size"] <? fsize partial then failed (u "invalid_partial_transfer")
      else ret (obj [("ok", JBool true); ("complete", JBool false); ("offset", jnum (fsize partial))]%string)
  end.
(** The collected bytes are those the record names; a corrupt file is dropped. *)
Definition verifyPart (part : QString) (incoming : jobj) : M (option jobj) :=
  let! state := onFiles (fstate part) in
  match state with
  | Some partial =>
      if bool_decide (kind partial ≠ u "file") || negb (fsize partial =? jlong incoming.["size"])
      then let! r := failed (u "incomplete_or_corrupt_transfer") in ret (Some r) else
      let! hash := onFiles (fhash part (stamp partial)) in
      if isEmpty hash then let! r := failedFiles in ret (Some r)
      else if bool_decide (hash ≠ toStr incoming.["hash"]) then
        let! removed := onFiles (fremove part) in
        if negb removed then let! r := failedFiles in ret (Some r)
        else let! r := failed (u "incomplete_or_corrupt_transfer") in ret (Some r)
      else ret None
  | None => let! r := failed (u "incomplete_or_corrupt_transfer") in ret (Some r)
  end.
(** The losing file is kept under the conflict name, then recorded. *)
Definition storeConflict (incomingWins : bool) (path part : QString) (loser clock : jobj) : M (option jobj) :=
  let copy := conflictCopy loser clock in
  let target := physical (toStr copy.["path"]) in
  if isEmpty target then let! r := failed (u "conflict_path_too_long") in ret (Some r) else
  let! state := onFiles (fstate target) in
  match state with
  | None => let! r := failedFiles in ret (Some r)
  | Some existing =>
      let! placed :=
        (if bool_decide (kind existing ≠ u "deleted") then
           if bool_decide (kind existing ≠ u "file") then ret (Some (u "conflict_name_collision")) else
           let! hash := onFiles (fhash target (stamp existing)) in
           ret (if bool_decide (hash ≠ toStr loser.["hash"]) then Some (u "conflict_name_collision") else None)
         else
           let! ok := onFiles (if incomingWins then fpreserve (physical path) target else finstall part target) in
           let! s := get in
           ret (if ok then None else Some (ferror (files s)))) in
      match placed with
      | Some why => let! r := failed why in ret (Some r)
      | None =>
          let! state := onFiles (fstate target) in
          match state with
          | None => let! r := failedFiles in ret (Some r)
          | Some existing =>
              let! ok := save E copy (stamp existing) in
              if ok then ret None else let! r := failedFiles in ret (Some r)
          end
      end
  end.
(** The winning incoming record takes the place of the local one. *)
Definition place (part target : QString) (winner local : jobj) : M bool :=
  let kind := toStr winner.["kind"] in
  if bool_decide (kind = u "file") then
    let! cleared := (if bool_decide (local.["kind"] = JS "directory") then onFiles (fremove target) else ret true) in
    if negb cleared then ret false else onFiles (finstall part target)
  else if bool_decide (kind = u "directory") then
    let! cleared := (if bool_decide (local.["kind"] = JS "file") then onFiles (fremove target) else ret true) in
    if negb cleared then ret false else onFiles (fmkdir target)
  else onFiles (fremove target).

(** What the decision needs of the path, after [refresh]. *)
Record Plan := mkPlan {
  relation : Z;
  clock : jobj;
  same : bool;
  retainDirectory : bool;
  incomingWins : bool;
  conflict : bool
}.
Definition planOf (mirror proposed absentPayload retainDirectory : bool) (relation : Z)
    (incoming local : jobj) : Plan :=
  let a := toObj incoming.["clock"] in
  let b := toObj local.["clock"] in
  let same := negb absentPayload && contentEqual incoming local in
  let pending := mirror && negb (jempty local) && negb (jcontains local "revision") in
  let concurrent := (relation =? 2) || retainDirectory || pending || structuralOf incoming local in
  let incomingWins := incomingWinsOf retainDirectory mirror proposed same relation incoming local in
  let loser := if incomingWins then local else incoming in
  mkPlan relation (if mirror then a else joined a b) same retainDirectory incomingWins
    (concurrent && negb same && bool_decide (loser.["kind"] = JS "file") && negb (incomingWins && absentPayload)).
(** Applying a plan: bytes first, the loser's copy, then the winner. *)
Definition applyPlan (peer path : QString) (commit : bool) (incoming local : jobj) (p : Plan) : M jobj :=
  let winner := if incomingWins p then incoming else local in
  let loser := if incomingWins p then local else incoming in
  let bytesNeeded := bool_decide (incoming.["kind"] = JS "file") && negb (same p)
                     && (incomingWins p || conflict p) in
  let part := transfer peer incoming in
  if bytesNeeded && negb commit then resumeAt part incoming else
  let! broken := (if bytesNeeded then verifyPart part incoming else ret None) in
  match broken with
  | Some r => ret r
  | None =>
      let! refused := (if conflict p then storeConflict (incomingWins p) path part loser (clock p) else ret None) in
      match refused with
      | Some r => ret r
      | None =>
          let target := physical path in
          let! placed := (if incomingWins p && negb (same p) then place part target winner local else ret true) in
          if negb placed then failedFiles else
          let winner := jinsert winner "clock" (JObj (clock p)) in
          let! state := onFiles (fstate target) in
          match state with
          | None => failedFiles
          | Some st => let! ok := save E winner (stamp st) in if ok then ret result else failed []
          end
      end
  end.

Definition merge (peer : QString) (incoming : jobj) (commit : bool) : M jobj :=
  let path := toStr incoming.["path"] in
  let! fresh := refresh E path in
  if negb fresh then failed [] else
  let! (local, localStamp) := entry E path in
  let absentPayload := bool_decide (localStamp = u "remote") in
  let a := toObj incoming.["clock"] in
  let b := toObj local.["clock"] in
  let! host := meta E (u "host") in
  let mirror := negb (isEmpty host) in
  let proposed := negb mirror && jcontains incoming "baseRevision" in
  let! ledger := journal E in
  if mirror && (bool_decide (peer ≠ host) || negb (Namespace.contains (nsSql E) ledger incoming))
  then failed (u "host_revision_required") else
  if mirror && negb (jcontains local "revision") && (compare b a =? 1) then
    let! ok := save E (jinsert local "baseRevision" incoming.["revision"]) localStamp in
    if ok then ret result else failed []
  else
  let confirmed := Namespace.object (nsSql E) ledger path in
  let relation := relationOf mirror proposed absentPayload local incoming confirmed in
  if (relation =? 0) && negb (contentEqual incoming local) then failed (u "inconsistent_version_clock") else
  if relation <=? 0 then
    if mirror then
      let! ok := save E incoming localStamp in
      if ok then ret result else failed []
    else ret result
  else
  if 64 <? Z.of_nat (size (if mirror then a else joined a b)) then failed (u "replica_clock_limit") else
  let! kept := retained path local incoming in
  match kept with
  | None => failedFiles
  | Some retainDirectory =>
      let p := planOf mirror proposed absentPayload retainDirectory relation incoming local in
      if mirror && retainDirectory && negb (same p) then
        let local := jinsert (withoutRevision local) "baseRevision" incoming.["revision"] in
        let! ok := save E (jinsert local "clock" (JObj (joined a b))) localStamp in
        if ok then ret result else failed []
      else applyPlan peer path commit incoming local p
  end.

(** ** Two replicas decide alike *)
Lemma contentEqual_spec a b :
  contentEqual a b = true ↔ a.["kind"] = b.["kind"] ∧ a.["hash"] = b.["hash"] ∧ a.["size"] = b.["size"].
Proof. unfold contentEqual. rewrite !andb_true_iff, !bool_decide_eq_true. tauto. Qed.
Lemma contentEqual_refl a : contentEqual a a = true.
Proof. by apply contentEqual_spec. Qed.
Lemma contentEqual_sym a b : contentEqual a b = contentEqual b a.
Proof. apply eq_true_iff_eq. rewrite !contentEqual_spec. intuition congruence. Qed.

(** What a replica keeps of a concurrent or newer record it is sent, where neither
    is a proposal: the record and its clock. *)
Definition decided (incoming local : jobj) : jobj * jobj :=
  let r := relationOf false false false local incoming ∅ in
  if r <=? 0 then (local, toObj local.["clock"]) else
  let p := planOf false false false false r incoming local in
  (if incomingWins p then incoming else local, clock p).

(** The records of one path that two replicas may hold. *)
Record comparable (x y : jobj) : Prop := {
  cmp_present : jempty x = false ∧ jempty y = false;
  cmp_clocks : clock_nonneg (toObj x.["clock"]) ∧ clock_nonneg (toObj y.["clock"]);
  cmp_kinds e : e = x ∨ e = y → e.["kind"] ∈ [JS "file"; JS "directory"; JS "deleted"];
  cmp_hashes e : e = x ∨ e = y → e.["kind"] ≠ JS "file" → toStr e.["hash"] = [];
  cmp_content : x.["kind"] = y.["kind"] → toStr x.["hash"] = toStr y.["hash"] → contentEqual x y = true;
  cmp_version : compare (toObj x.["clock"]) (toObj y.["clock"]) = 0 → contentEqual x y = true
}.

Lemma comparable_sym x y : comparable x y → comparable y x.
Proof.
  intros [[Hp1 Hp2] [Hn1 Hn2] Hk Hh Hc Hv]. split; [done|done| | | |].
  - intros e He. apply Hk. tauto.
  - intros e He. apply Hh. tauto.
  - intros H1 H2. rewrite contentEqual_sym. by apply Hc.
  - intros H1. rewrite contentEqual_sym. apply Hv. rewrite compare_eq in *. by symmetry.
Qed.

Lemma rank_kind e : e.["kind"] ∈ [JS "file"; JS "directory"; JS "deleted"] →
  (e.["kind"] = JS "file" ∧ rank e = 1) ∨ (e.["kind"] = JS "directory" ∧ rank e = 2)
  ∨ (e.["kind"] = JS "deleted" ∧ rank e = 0).
Proof.
  intros H. unfold rank. repeat (apply elem_of_cons in H as [->|H]; [auto|]). by apply elem_of_nil in H.
Qed.

(** Different concurrent contents: exactly one of the two sides keeps its own. *)
Lemma winner_antisymmetric x y :
  comparable x y → contentEqual x y = false →
  incomingWinsOf false false false false 2 y x = negb (incomingWinsOf false false false false 2 x y).
Proof.
  intros [_ _ Hk Hh Hc _] Hne. unfold incomingWinsOf, outranks. cbn [negb andb orb]. change (2 =? 1) with false. cbn [orb].
  assert (x.["kind"] = y.["kind"] → toStr x.["hash"] ≠ toStr y.["hash"]) as Hd
    by (intros Ek Eh; rewrite Hc in Hne by done; done).
  destruct (rank_kind x (Hk x (or_introl eq_refl))) as [[Ex ->]|[[Ex ->]|[Ex ->]]];
  destruct (rank_kind y (Hk y (or_intror eq_refl))) as [[Ey ->]|[[Ey ->]|[Ey ->]]]; rewrite Ex, Ey in *;
    try (exfalso; apply Hd; [done|]; rewrite !Hh by (tauto || (rewrite ?Ex, ?Ey; discriminate)); done);
    try (by vm_compute).
  rewrite !bool_decide_eq_false_2 by (intros H; discriminate). cbn [orb].
  change (1 <? 1) with false. change (1 =? 1) with true. cbn [orb andb].
  destruct (qlt_total _ _ (Hd eq_refl)) as [H|H]; rewrite H, (qlt_asym _ _ H); done.
Qed.

Lemma decided_converge x y :
  comparable x y →
  contentEqual (decided x y).1 (decided y x).1 = true ∧ clock_equiv (decided x y).2 (decided y x).2.
Proof.
  intros Hxy. assert (Hyx := comparable_sym _ _ Hxy).
  assert (Px := proj1 (cmp_present _ _ Hxy)). assert (Py := proj2 (cmp_present _ _ Hxy)).
  assert (Cx := proj1 (cmp_clocks _ _ Hxy)). assert (Cy := proj2 (cmp_clocks _ _ Hxy)).
  assert (Hver := cmp_version _ _ Hxy).
  set (a := toObj x.["clock"]) in *. set (b := toObj y.["clock"]) in *.
  unfold decided, relationOf. rewrite Px, Py. fold a b.
  destruct (compare_cases a b) as [(H1 & H2 & E1)|[(H1 & H2 & E1)|[(H1 & H2 & E1)|(H1 & H2 & E1)]]];
  destruct (compare_cases b a) as [(H1' & H2' & E2)|[(H1' & H2' & E2)|[(H1' & H2' & E2)|(H1' & H2' & E2)]]];
    try tauto; rewrite E1, E2; cbn [fst snd].
  - change (0 <=? 0) with true. cbv iota. cbn [fst snd]. split; [rewrite contentEqual_sym; by apply Hver|].
    intros k. specialize (H1 k). specialize (H2 k). lia.
  - change (1 <=? 0) with false. change (-1 <=? 0) with true. cbv iota. unfold planOf, incomingWinsOf. cbn [negb andb orb incomingWins clock fst snd].
    change (1 =? 1) with true. cbn [orb]. split; [apply contentEqual_refl|]. fold a b. intros k.
    rewrite clockAt_joined by done. specialize (H1 k). lia.
  - change (1 <=? 0) with false. change (-1 <=? 0) with true. cbv iota. unfold planOf, incomingWinsOf. cbn [negb andb orb incomingWins clock fst snd].
    change (1 =? 1) with true. cbn [orb]. split; [apply contentEqual_refl|]. fold a b. intros k.
    rewrite clockAt_joined by done. specialize (H1 k). lia.
  - change (2 <=? 0) with false. cbv iota. unfold planOf. cbn [negb andb incomingWins clock fst snd]. split.
    + destruct (contentEqual x y) eqn:Es.
      * rewrite (contentEqual_sym y x), Es. unfold incomingWinsOf. cbn [negb andb]. rewrite !orb_true_r. cbn [orb]. done.
      * rewrite (contentEqual_sym y x), Es.
        rewrite (winner_antisymmetric x y) by done.
        destruct (incomingWinsOf _ _ _ _ _ x y); apply contentEqual_refl.
    + fold a b. intros k. rewrite !clockAt_joined by done. lia.
Qed.
End with_files.
End Merge.
