(* ===== verification/Scan.v ===== *)
(** Replica::scan, src/Sync/Replica.cpp: the walk over the areas of a container,
    the batches in which what changed is recorded, and the deletions found last. *)
From S2P Require Import Prelude Qt Records Files Store.
Open Scope Z_scope.

Module Scan.
Import Records Store.

(** ** Names that are never replicated (src/Sync/NativeControlPaths_p.h) *)
Definition lowerAscii (s : QString) : QString :=
  map (λ c, if (65 <=? c)%N && (c <=? 90)%N then (c + 32)%N else c) s.
Definition providerIndexControlName (name : QString) : bool :=
  let name := lowerAscii name in
  startsWith name (u ".society-") || startsWith name (u ".iiwebserver-")
  || bool_decide (name = u ".iisacc-temporary.lock") || endsWith name (u ".iisacc-preview")
  || startsWith name (u ".iifile-stage-") || bool_decide (name = u ".iisacc-file-provider")
  || endsWith name (u ".iisacc-lock").

(** ** The walk *)
Record Work := mkWork { wpath : QString; wstate : FileState; whash : QString }.
Record Walk := mkWalk {
  seen : gset QString;
  work : list Work;
  walkedChildren : gmap QString (gset QString)
}.
Inductive Outcome :=
| Done (w : Walk)
| Refused
| OutOfFuel.
Definition addChild (key name : QString) (w : Walk) : Walk :=
  mkWalk (seen w) (work w) (<[key := {[ name ]} ∪ default ∅ (walkedChildren w !! key)]> (walkedChildren w)).
Definition addWork (path : QString) (st : FileState) (w : Walk) : Walk :=
  mkWalk ({[ path ]} ∪ seen w) (work w ++ [mkWork path st []]) (walkedChildren w).

(** Directories first, the outer before the inner; then by size and by path. *)
Definition workBefore (a b : Work) : bool :=
  if bool_decide (kind (wstate a) ≠ kind (wstate b)) then bool_decide (kind (wstate a) = u "directory")
  else if bool_decide (kind (wstate a) = u "directory")
          && negb (countChar slash (wpath a) =? countChar slash (wpath b))
  then countChar slash (wpath a) <? countChar slash (wpath b)
  else if negb (fsize (wstate a) =? fsize (wstate b)) then fsize (wstate a) <? fsize (wstate b)
  else qlt (wpath a) (wpath b).
Definition workLe (a b : Work) : Prop := workBefore b a = false.
#[global] Instance workLe_dec : RelDecision workLe := λ a b, decide (workBefore b a = false).

Section with_files.
Context {PF : Platform} {FS : FileStore} (E : Env).
(** Whether 50 ms have passed since the last flush when a path is queued. *)
Variable late : QString → bool.

Definition refuse (m : M bool) : M Outcome := let! _ := m in ret Refused.
(** The loop of [visit] over the names of one directory. *)
Fixpoint visitNames (visit : QString → QString → Walk → M Outcome) (native key : QString)
    (names : list QString) (w : Walk) : M Outcome :=
  match names with
  | [] => ret (Done w)
  | name :: rest =>
      if providerIndexControlName name then visitNames visit native key rest w else
      let w := addChild key name w in
      let path := key ++ slash :: name in
      if isEmpty (physical path) || (250000 <=? Z.of_nat (size (seen w)))
      then refuse (fail (u "unsupported_or_unavailable_entry")) else
      let! state := onFiles (fstate (native ++ slash :: name)) in
      match state with
      | None => refuse (fail (u "unsupported_or_unavailable_entry"))
      | Some st =>
          if bool_decide (kind st = u "deleted") then refuse (fail (u "directory_changed_during_scan")) else
          let w := addWork path st w in
          if bool_decide (kind st = u "directory") then
            let! r := visit (native ++ slash :: name) path w in
            match r with
            | Done w => visitNames visit native key rest w
            | _ => ret r
            end
          else visitNames visit native key rest w
      end
  end.
Fixpoint visit (fuel : nat) (native key : QString) (w : Walk) : M Outcome :=
  match fuel with
  | O => ret OutOfFuel
  | S fuel =>
      let! names := onFiles (flist native) in
      match names with
      | None => refuse failFiles
      | Some names => visitNames (visit fuel) native key names w
      end
  end.
(** Every key is at most 3500 units long and grows at each level. *)
Definition visitFuel : nat := 3502.
Fixpoint visitSections (l : list (QString * QString)) (w : Walk) : M Outcome :=
  match l with
  | [] => ret (Done w)
  | (key, name) :: l =>
      let! r := visit visitFuel name key w in
      match r with Done w => visitSections l w | _ => ret r end
  end.

(** ** Recording *)
Definition transaction (body : M bool) : M bool :=
  if negb (sql E Begin) then fail (u "journal_transaction_failed") else
  let! s := get in
  let! ok := body in
  if negb ok then let! _ := modify (set_db (db s)) in ret false
  else if sql E Commit then ret true
  else let! _ := modify (set_db (db s)) in fail (lastError E).

(** The names a directory shows are those the walk has seen. *)
Definition sameDirectory (walk : Walk) (item : Work) (current : FileState) : M bool :=
  if bool_decide (kind current = u "directory") && bool_decide (kind (wstate item) = u "directory")
     && bool_decide (stamp current ≠ stamp (wstate item)) then
    let! names := onFiles (flist (physical (wpath item))) in
    match names with
    | None => ret false
    | Some names =>
        ret (bool_decide (list_to_set (List.filter (λ n, negb (providerIndexControlName n)) names)
                          = default (∅ : gset QString) (walkedChildren walk !! wpath item)))
    end
  else ret false.
Fixpoint flushItems (walk : Walk) (pending : list Work) : M bool :=
  match pending with
  | [] => ret true
  | item :: rest =>
      let! state := onFiles (fstate (physical (wpath item))) in
      match state with
      | None => failFiles
      | Some current =>
          let! same := sameDirectory walk item current in
          if bool_decide (kind current ≠ kind (wstate item))
             || (bool_decide (stamp current ≠ stamp (wstate item)) && negb same)
          then fail (u "file_changed_during_scan") else
          let! ok := observed E (wpath item) current (whash item) in
          if ok then flushItems walk rest else ret false
      end
  end.
Definition flush (walk : Walk) (pending : list Work) : M bool :=
  if bool_decide (List.length pending = 0%nat) then ret true else
  let! ok := lock E in
  if ok then transaction (flushItems walk pending) else ret false.

(** The bytes above which a file is hashed with nothing pending. *)
Definition large (item : Work) : bool := 1024 * 1024 <? fsize (wstate item).
Fixpoint recordWork (walk : Walk) (items pending : list Work) : M bool :=
  match items with
  | [] => flush walk pending
  | item :: rest =>
      let! (old, oldStamp) := entry E (wpath item) in
      let! s := get in
      if negb (isEmpty (error s)) then ret false else
      if bool_decide (old.["kind"] = JStr (kind (wstate item))) && bool_decide (oldStamp = stamp (wstate item))
      then recordWork walk rest pending else
      let file := bool_decide (kind (wstate item) = u "file") in
      let! flushed := (if file && large item then flush walk pending else ret true) in
      if negb flushed then ret false else
      let pending := if file && large item then [] else pending in
      let! hash := (if file then onFiles (fhash (physical (wpath item)) (stamp (wstate item))) else ret []) in
      if file && isEmpty hash then failFiles else
      let pending := pending ++ [mkWork (wpath item) (wstate item) hash] in
      if (64 <=? Z.of_nat (List.length pending)) || late (wpath item) || large item then
        let! flushed := flush walk pending in
        if flushed then recordWork walk rest [] else ret false
      else recordWork walk rest pending
  end.

(** ** Deletions *)
(** The rows the walk has not met and that are not deletions already. *)
Definition absentPaths (walk : Walk) (d : Db) : list QString :=
  map fst (List.filter (λ pr : QString * Row,
    bool_decide (pr.1 ∉ seen walk) && bool_decide ((edata pr.2).["kind"] ≠ JS "deleted")) (map_to_list (entries d))).
Fixpoint recordAbsent (paths : list QString) : M bool :=
  match paths with
  | [] => ret true
  | path :: rest =>
      let! state := onFiles (fstate (physical path)) in
      match state with
      | None => failFiles
      | Some current =>
          let! ok := (if bool_decide (kind current = u "deleted") then observed E path current [] else ret true) in
          if ok then recordAbsent rest else ret false
      end
  end.

(** [None] when the walk runs out of fuel, which [scan_terminates] excludes. *)
Definition scan : M (option bool) :=
  let! ok := ready E in
  if negb ok then ret (Some false) else
  let! r := visitSections sections (mkWalk ∅ [] ∅) in
  match r with
  | OutOfFuel => ret None
  | Refused => ret (Some false)
  | Done walk =>
      let! recorded := recordWork walk (merge_sort workLe (work walk)) [] in
      if negb recorded then ret (Some false) else
      let! read := run E SelectEntries in
      if negb read then ret (Some false) else
      let! s := get in
      let absent := absentPaths walk (db s) in
      if bool_decide (absent = []) then ret (Some true) else
      let! ok := lock E in
      if negb ok then ret (Some false) else
      let! done := transaction (recordAbsent absent) in ret (Some done)
  end.

(** ** Termination *)
Lemma physical_size k : physical k ≠ [] → qsize k ≤ 3500.
Proof. intros (Hk & _)%physical_nonempty. apply (legal_size _ Hk). Qed.

Lemma visitNames_fuel vis native key names w s :
  (∀ name w s, physical (key ++ slash :: name) ≠ [] → (vis (native ++ slash :: name) (key ++ slash :: name) w s).1 ≠ OutOfFuel) →
  (visitNames vis native key names w s).1 ≠ OutOfFuel.
Proof.
  intros Hv. revert w s. induction names as [|name names IH]; intros w s; [done|]. cbn [visitNames].
  destruct (providerIndexControlName name); [apply IH|].
  destruct (isEmpty _ || _) eqn:Eg; [done|]. bool_hyps. unfold isEmpty in *. bool_hyps.
  unfold bind at 1. destruct (onFiles _ s) as [[st|] s1]; [|done].
  destruct (bool_decide (kind st = u "deleted")); [done|].
  destruct (bool_decide (kind st = u "directory")); [|apply IH].
  unfold bind. pose proof (Hv name (addWork (key ++ slash :: name) st (addChild key name w)) s1) as Hn.
  destruct (vis _ _ _ s1) as [[w'| |] s2]; [apply IH|done|]. by destruct Hn.
Qed.

Lemma visit_fuel fuel native key w s :
  3501 < Z.of_nat fuel + qsize key → (fuel = 0%nat → qsize key ≤ 3500) →
  (visit fuel native key w s).1 ≠ OutOfFuel.
Proof.
  revert native key w s. induction fuel as [|fuel IH]; intros native key w s H H0; [specialize (H0 eq_refl); lia|].
  cbn [visit]. unfold bind at 1. destruct (onFiles _ s) as [[names|] s1]; [|done].
  apply visitNames_fuel. intros name w' s2 Hp%physical_size. apply IH; [|done].
  unfold qsize in *. rewrite length_app. cbn [List.length]. lia.
Qed.

Lemma visitSections_fuel l w s : (visitSections l w s).1 ≠ OutOfFuel.
Proof.
  revert w s. induction l as [|[key name] l IH]; intros w s; [done|]. cbn [visitSections]. unfold bind.
  pose proof (visit_fuel visitFuel name key w s) as Hf. destruct (visit _ _ _ _ s) as [[w'| |] s1]; [apply IH|done|].
  exfalso. apply Hf; [|done|done]. unfold visitFuel, qsize. lia.
Qed.

Lemma scan_answers s : (scan s).1 ≠ None.
Proof.
  unfold scan, bind at 1. destruct (ready E s) as [[] s1]; [|done]. cbn [negb]. unfold bind at 1.
  pose proof (visitSections_fuel sections (mkWalk ∅ [] ∅) s1) as Hf.
  destruct (visitSections _ _ s1) as [[w| |] s2]; [|done|done]. unfold bind at 1.
  destruct (recordWork _ _ _ s2) as [[] s3]; [|done]. cbn [negb]. unfold bind at 1.
  destruct (run _ _ s3) as [[] s4]; [|done]. cbn [negb]. unfold bind at 1, get.
  destruct (bool_decide _); [done|]. unfold bind at 1. destruct (lock E s4) as [[] s5]; [|done]. cbn [negb].
  unfold bind. by destruct (transaction _ s5).
Qed.
End with_files.
End Scan.
