(* ===== verification/Drive.v ===== *)
(** Replica::Private::driveRequest, src/Sync/Replica.cpp: the authority's drive
    actions on one container, over the catalog and the files. *)
From S2P Require Import Prelude Qt Records Base64 Namespace Files Store.
Open Scope Z_scope.

Module Drive.
Import Records Store Base64.

(** Replica::ChunkBytes. *)
Definition ChunkBytes : Z := 256 * 1024.

Section with_files.
Context {PF : Platform} {FS : FileStore} (E : Env).
(** Presentation::isControlFile of iiFileProvider on one component, the time
    iiSocietyContainer reports for a native path, the information iiFileProvider
    has about a file and the identifier of the storage it comes from, and what
    Presentation::prepare does to the files. *)
Variable isControlFile : QString → bool.
Variable modifiedAt : QString → option Z.
Variable sharedStorage : option QString.
Variable fileInformation : QString → QString → jobj.
Variable prepare : QString → world → world.

Definition providerControlPath (path : QString) : bool := existsb isControlFile (qsplit slash path).
Definition success (r : jobj) : M jobj := λ s,
  (jinsert (jinsert r "ok" (JBool true)) "container" (JStr (container s)), s).
Definition sectionList : list jval :=
  map (λ sc : QString * QString, JObj (obj [("path", JStr sc.1); ("key", JStr sc.1); ("name", JStr sc.2);
                                ("kind", JS "directory"); ("size", JS "0")]%string)) sections.
Definition informationLink : jval :=
  JObj (obj [("provider", JS "iiFileProvider"); ("action", JS "drive.inspect"); ("schema", JNum 1)]%string).

(** ** drive.catalog *)
(** The public view of a row: no clocks, addresses or credentials. *)
Definition catalogValue (path : QString) (r : Row) : M jobj :=
  let e := edata r in
  let value := obj [("path", e.["path"]); ("kind", e.["kind"]); ("size", e.["size"]);
                    ("version", e.["version"]); ("hash", e.["hash"])]%string in
  let value := if bool_decide (e.["kind"] = JS "file") then jinsert value "information" informationLink else value in
  let native := physical path in
  match modifiedAt native with
  | None => ret value
  | Some time =>
      let! state := onFiles (fstate native) in
      ret (match state with
           | Some st => if bool_decide (stamp st = estamp r) then jinsert value "modified" (jnum time) else value
           | None => value
           end)
  end.
Fixpoint catalogPage (rows : list (QString * Row)) (page : list jval) (last : QString) (bytes : Z)
    : M (list jval * QString * bool) :=
  match rows with
  | [] => ret (page, last, false)
  | (path, r) :: rest =>
      if bool_decide ((edata r).["kind"] = JS "deleted") || isEmpty (physical path) || providerControlPath path
      then catalogPage rest page last bytes else
      let! value := catalogValue path r in
      let length := Z.of_nat (List.length (json value)) in
      if (Z.of_nat (List.length page) =? 128) || (240 * 1024 <? bytes + length)
      then ret (page, last, true)
      else catalogPage rest (page ++ [JObj value]) path (bytes + length)
  end.
Definition byPath (a b : QString * Row) : Prop := qle a.1 b.1.
#[global] Instance byPath_dec : RelDecision byPath := λ a b, decide (qle a.1 b.1).
(** SELECT ... WHERE path>? ORDER BY path *)
Definition rowsAfter (cursor : QString) (d : Db) : list (QString * Row) :=
  merge_sort byPath (List.filter (λ pr : QString * Row, qlt cursor pr.1) (map_to_list (entries d))).
Definition catalogRequest (request : jobj) : M jobj :=
  let! ledger := journal E in
  let revision := toStr (Namespace.state (nsSql E) ledger).["sequence"] in
  let cursor := toStr request.["cursor"] in
  if (jcontains request "cursor" && negb (isString request.["cursor"]))
     || (negb (isEmpty cursor) && isEmpty (physical cursor)) then failed (u "invalid_drive_cursor") else
  if (negb (isEmpty cursor) || jcontains request "revision")
     && bool_decide (toStr request.["revision"] ≠ revision) then failed (u "drive_snapshot_changed") else
  if negb (sql E SelectEntries) then failed (u "drive_catalog_unavailable") else
  let! s := get in
  let! (page, last, more) := catalogPage (rowsAfter cursor (db s)) [] [] 0 in
  if more && isEmpty last then failed (u "drive_entry_too_large") else
  success (obj [("entries", JArr page); ("revision", JStr revision);
                ("nextCursor", JStr (if more then last else []))]%string).

(** ** One path *)
Definition metadata (key : QString) (st : FileState) : jobj :=
  let r := obj [("path", JStr key); ("name", JStr (sectionLast slash key)); ("kind", JStr (kind st));
                ("size", jnum (fsize st)); ("version", JStr (stamp st))]%string in
  if bool_decide (kind st = u "file") then jinsert r "information" informationLink else r.

Definition inspectRequest (request : jobj) (path native : QString) (state : FileState) : M jobj :=
  if bool_decide (kind state ≠ u "file")
  then failed (if bool_decide (kind state = u "deleted") then u "drive_entry_unavailable" else u "not_file") else
  match (if jcontains request "offset" then number request.["offset"] else Some 0) with
  | None => failed (u "invalid_offset")
  | Some offset =>
      let expected := toStr request.["version"] in
      let informationVersion := toStr request.["informationVersion"] in
      if jcontains request "version" && (negb (isString request.["version"]) || bool_decide (expected ≠ stamp state))
      then failed (u "drive_file_changed") else
      if negb (offset =? 0) && (isEmpty expected || negb (hex informationVersion))
      then failed (u "inspection_version_required") else
      if jcontains request "informationVersion" && negb (hex informationVersion)
      then failed (u "invalid_information_version") else
      let! s := get in
      if bool_decide (sharedStorage ≠ Some (container s)) then failed (u "remote_container_changed") else
      if negb (existsb (λ sc, bool_decide (sc.1 = sectionFirst slash path)) sections) || negb (containsChar slash path)
      then failed (u "invalid_drive_path") else
      let information := fileInformation (sectionFirst slash path) (sectionTail slash path) in
      if jempty information then failed (u "drive_information_unavailable") else
      let! after := onFiles (fstate native) in
      match after with
      | None => failed (u "drive_file_changed")
      | Some after =>
          if bool_decide (stamp after ≠ stamp state) then failed (u "drive_file_changed") else
          let document := json information in
          let token := digest document in
          let length := Z.of_nat (List.length document) in
          if negb (isEmpty informationVersion) && bool_decide (token ≠ informationVersion)
          then failed (u "drive_information_changed") else
          if length <? offset then failed (u "invalid_offset") else
          let bytes := take (Z.to_nat ChunkBytes) (drop (Z.to_nat offset) document) in
          success (obj [("path", JStr path); ("kind", JS "file"); ("version", JStr (stamp after));
            ("informationVersion", JStr token); ("format", JS "iiFileProvider.FileInformation"); ("schema", JNum 1);
            ("offset", jnum offset); ("size", jnum length); ("data", JStr (toBase64 bytes));
            ("eof", JBool (offset + Z.of_nat (List.length bytes) =? length)%Z)]%string)
      end
  end.

Fixpoint listPage (path native cursor : QString) (names : list QString) (page : list jval)
    (last : QString) (bytes : Z) : M (list jval * QString * bool) :=
  match names with
  | [] => ret (page, last, false)
  | name :: rest =>
      let key := path ++ slash :: name in
      if negb (qlt cursor name) || isEmpty (physical key) || providerControlPath key
      then listPage path native cursor rest page last bytes else
      let! state := onFiles (fstate (native ++ slash :: name)) in
      match state with
      | None => listPage path native cursor rest page last bytes
      | Some child =>
          if bool_decide (kind child = u "deleted") then listPage path native cursor rest page last bytes else
          let value := metadata key child in
          let length := Z.of_nat (List.length (json value)) in
          if (Z.of_nat (List.length page) =? 128) || (240 * 1024 <? bytes + length)
          then ret (page, last, true)
          else listPage path native cursor rest (page ++ [JObj value]) name (bytes + length)
      end
  end.
Definition listRequest (request : jobj) (path native : QString) (state : FileState) : M jobj :=
  if bool_decide (kind state ≠ u "directory") then failed (u "not_directory") else
  let cursor := toStr request.["cursor"] in
  if (jcontains request "cursor" && negb (isString request.["cursor"])) || containsChar slash cursor
     || (negb (isEmpty cursor) && isEmpty (physical (path ++ slash :: cursor)))
  then failed (u "invalid_drive_cursor") else
  if (negb (isEmpty cursor) || jcontains request "version")
     && bool_decide (toStr request.["version"] ≠ stamp state) then failed (u "drive_directory_changed") else
  let! names := onFiles (flist native) in
  match names with
  | None => failedFiles
  | Some names =>
      let! (page, last, more) := listPage path native cursor names [] [] 0 in
      let! after := onFiles (fstate native) in
      match after with
      | None => failed (u "drive_directory_changed")
      | Some after =>
          if bool_decide (stamp after ≠ stamp state) then failed (u "drive_directory_changed") else
          success (obj [("entries", JArr page); ("nextCursor", JStr (if more then last else []));
                        ("version", JStr (stamp state))]%string)
      end
  end.
Definition readRequest (request : jobj) (read : bool) (path native : QString) (state : FileState) : M jobj :=
  if bool_decide (kind state = u "deleted") then failed (u "drive_entry_unavailable") else
  if jcontains request "version" && bool_decide (toStr request.["version"] ≠ stamp state)
  then failed (u "drive_file_changed") else
  let r := metadata path state in
  if negb read then success r else
  if bool_decide (kind state ≠ u "file") then failed (u "not_file") else
  match number request.["offset"] with
  | None => failed (u "invalid_offset")
  | Some offset =>
      if fsize state <? offset then failed (u "invalid_offset") else
      let! data := onFiles (fread native offset ChunkBytes (stamp state)) in
      match data with
      | None => failedFiles
      | Some data =>
          let r := jinsert r "data" (JStr (toBase64 data)) in
          let r := jinsert r "offset" (jnum offset) in
          success (jinsert r "eof" (JBool (offset + Z.of_nat (List.length data) =? fsize state)))
      end
  end.

(** ** drive.write and drive.mkdir *)
(** The bytes are staged beside their place and published by a link that never
    replaces a target; the staging file goes in any case. *)
Definition publish (parent native : QString) (data : list N) : M bool :=
  let temporary := parent ++ u "/.society-write-" ++ freshId E in
  let! staged := onFiles (fappend temporary 0 data) in
  let! linked := (if staged then onFiles (fpreserve temporary native) else ret false) in
  let! _ := onFiles (fremove temporary) in ret linked.
Definition changeRequest (request : jobj) (write : bool) (path native : QString) (state : FileState) : M jobj :=
  if negb (containsChar slash path) || bool_decide (kind state ≠ u "deleted")
  then failed (u "drive_entry_exists_or_protected") else
  let parent := qleft (lastIndexOf slash native) native in
  let! directory := onFiles (fstate parent) in
  if negb (match directory with Some d => bool_decide (kind d = u "directory") | None => false end)
  then failed (u "not_directory") else
  let! refused :=
    (if negb write then let! ok := onFiles (fmkdir native) in
                        let! s := get in ret (if ok then None else Some (ferror (files s)))
     else
       let data := request.["data"] in
       if negb (isString data) || ((ChunkBytes + 2) / 3 * 4 <? qsize (toStr data))
       then ret (Some (u "invalid_drive_data")) else
       match fromBase64 (toStr data) with
       | None => ret (Some (u "invalid_drive_data"))
       | Some decoded =>
           if ChunkBytes <? Z.of_nat (List.length decoded) then ret (Some (u "invalid_drive_data"))
           else if negb (leaseFree E) then ret (Some (u "temporary_area_unavailable")) else
           let! ok := publish parent native decoded in
           ret (if ok then None else Some (u "drive_write_failed_or_exists"))
       end) in
  match refused with
  | Some why => failed why
  | None =>
      let! indexed := refresh E path in
      let! state := onFiles (fstate native) in
      match state with
      | None => success (obj [("path", JStr path); ("indexPending", JBool true)]%string)
      | Some st => success (jinsert (metadata path st) "indexPending" (JBool (negb indexed)))
      end
  end.

Definition nativeOf (path : QString) : QString :=
  if containsChar slash path then physical path else
  match List.find (λ sc, bool_decide (path = sc.1)) sections with
  | Some sc => sc.2
  | None => physical path
  end.
Definition driveRequest (request : jobj) : M jobj :=
  let! locked := lock E in
  if negb locked then failed [] else
  let! host := meta E (u "host") in
  if negb (isEmpty host) then failed (u "mirror_cannot_be_primary_host") else
  let! s := get in
  if bool_decide (toStr request.["container"] ≠ container s) || negb (driveReady E)
  then failed (u "remote_container_changed") else
  let action := toStr request.["action"] in
  if bool_decide (action = u "drive.describe") then
    success (obj [("driveProtocol", JNum 1); ("sections", JArr sectionList); ("chunkBytes", jnum ChunkBytes);
      ("fileInformationSchema", JNum 1);
      ("operations", JArr (map JS ["catalog"; "list"; "stat"; "inspect"; "read"; "write"; "mkdir"]))]%string)
  else if bool_decide (action = u "drive.catalog") then catalogRequest request else
  let path := toStr request.["path"] in
  if jcontains request "path" && negb (isString request.["path"]) then failed (u "invalid_drive_path") else
  let native := nativeOf path in
  if isEmpty path && bool_decide (action = u "drive.list") then
    success (obj [("entries", JArr sectionList); ("nextCursor", JS ""); ("version", JStr (container s))]%string) else
  if isEmpty native || providerControlPath path then failed (u "invalid_drive_path") else
  let! state := onFiles (fstate native) in
  match state with
  | None => failedFiles
  | Some state =>
      if bool_decide (action = u "drive.inspect") then inspectRequest request path native state else
      let! state :=
        (if bool_decide (action = u "drive.stat") && bool_decide (kind state = u "file") then
           let! _ := onFiles (λ w, (tt, prepare native w)) in onFiles (fstate native)
         else ret (Some state)) in
      match state with
      | None => failedFiles
      | Some state =>
          if bool_decide (action = u "drive.list") then listRequest request path native state
          else if bool_decide (action = u "drive.stat") || bool_decide (action = u "drive.read")
          then readRequest request (bool_decide (action = u "drive.read")) path native state
          else if bool_decide (action ≠ u "drive.write") && bool_decide (action ≠ u "drive.mkdir")
          then failed (u "unsupported_drive_action")
          else changeRequest request (bool_decide (action = u "drive.write")) path native state
      end
  end.
End with_files.
End Drive.
