(* ===== verification/Requests.v ===== *)
(** Replica::handle, src/Sync/Replica.cpp: what an authenticated peer may ask of a
    replica.  Manifests announce an upload, transfers collect its bytes, a
    receipt closes a snapshot, cursors remember how far two replicas agree. *)
From S2P Require Import Prelude Qt Records Base64 Namespace Files Store Merge Scan Drive.
Open Scope Z_scope.

Module Requests.
Import Records Store Merge Base64.

Definition InlineBytes : Z := 64 * 1024.
Definition ChunkBytes : Z := 256 * 1024.

Section with_files.
Context {PF : Platform} {FS : FileStore} (E : Env).

(** ** Reading the changes *)
Definition readSnapshot (read : M jobj) : M jobj :=
  let! ok := ready E in
  if negb ok then failed [] else
  let! ok := run E Savepoint in
  if negb ok then failed [] else
  let! r := read in
  let! released := run E Release in
  if released then ret r else
  let! f := failed [] in
  let! _ := run E Release in ret f.

Definition bySequence (a b : Row) : Prop := eseq a ≤ eseq b.
#[global] Instance bySequence_dec : RelDecision bySequence := λ a b, decide (eseq a ≤ eseq b).
(** The rows of a mirror's page: its catalog in change order. *)
Definition changedRows (d : Db) (after through : Z) : list Row :=
  take 128 (merge_sort bySequence
    (List.filter (λ r, (after <? eseq r) && (eseq r <=? through)) (map snd (map_to_list (entries d))))).
(** The loop over them: confirmed rows advance the cursor, proposals are listed. *)
Fixpoint fillChanges (rows : list Row) (page : list jval) (next bytes : Z) : list jval * Z * bool :=
  match rows with
  | [] => (page, next, false)
  | r :: rest =>
      let e := jinsert (edata r) "sequence" (jnum (eseq r)) in
      if jcontains e "revision" then fillChanges rest page (eseq r) bytes else
      let e := if jcontains e "baseRevision" then e else jinsert e "baseRevision" (JS "") in
      let length := Z.of_nat (List.length (json e)) + 1 in
      if 256 * 1024 <? bytes + length then (page, next, true)
      else fillChanges rest (page ++ [JObj e]) (eseq r) (bytes + length)
  end.
Definition mirrorChanges (after through : Z) : M jobj :=
  let! current := meta E (u "sequence") in
  let current := toLongLong0 current in
  let through := if through =? 0 then current else through in
  if (after <? 0) || (through <? after) || (current <? through) then failed (u "invalid_change_cursor") else
  if negb (sql E SelectEntries) then failed (lastError E) else
  let! s := get in
  let rows := changedRows (db s) after through in
  let '(page, next, limited) := fillChanges rows [] after 0 in
  let more := limited || ((Z.of_nat (List.length rows) =? 128) && (next <? through)) in
  ret (obj [("ok", JBool true); ("container", JStr (container s)); ("replica", JStr (id s));
            ("entries", JArr page); ("through", jnum through);
            ("next", jnum (if more then next else through)); ("more", JBool more)]%string).
Definition changes (after through : Z) : M jobj :=
  readSnapshot (
    let! host := meta E (u "host") in
    if isEmpty host then
      let! ledger := journal E in
      let! s := get in
      let r := Namespace.changes (nsSql E) ledger after through false in
      ret (jinsert (jinsert r "container" (JStr (container s))) "replica" (JStr (id s)))
    else mirrorChanges after through).
(** Replica::journal: the authority's pages of history. *)
Definition journalPage (after through : Z) : M jobj :=
  readSnapshot (let! ledger := journal E in ret (Namespace.changes (nsSql E) ledger after through true)).
Definition namespaceState : M jobj :=
  let! ledger := journal E in
  let! host := meta E (u "host") in
  ret (jinsert (Namespace.state (nsSql E) ledger) "role" (if isEmpty host then JS "authority" else JS "replica")).
(** Replica::acceptJournal: only the bound host's pages, all of a page or nothing. *)
Definition acceptJournal (peer : QString) (page : jobj) : M bool :=
  let! ok := ready E in
  if negb ok then ret false else
  let! host := meta E (u "host") in
  if bool_decide (peer ≠ host) || isEmpty peer then fail (u "host_revision_required") else
  if isArray page.["entries"] && bool_decide (toArr page.["entries"] = []) then
    let! ledger := journal E in
    let '(ledger', ok) := Namespace.accept (nsSql E) (lastError E) ledger page in
    let! _ := keep ledger' in
    if ok then ret true else fail (Namespace.error ledger')
  else
  let! ok := lock E in
  if negb ok then ret false else
  let! host := meta E (u "host") in
  if bool_decide (peer ≠ host) || isEmpty peer then fail (u "host_revision_required") else
  if negb (sql E Begin) then fail (u "journal_transaction_failed") else
  let! s := get in
  let! ledger := journal E in
  let '(ledger', ok) := Namespace.accept (nsSql E) (lastError E) ledger page in
  let! _ := keep ledger' in
  if ok && sql E Commit then ret true else
  let! _ := modify (set_db (db s)) in
  fail (if isEmpty (Namespace.error ledger') then u "namespace_commit_failed" else Namespace.error ledger').

(** ** Manifests *)
Definition allowedKeys : gset QString :=
  list_to_set (map u ["path"; "kind"; "size"; "hash"; "clock"; "version"; "sequence"; "baseRevision"]%string).
Definition diff (m : Manifest) : jobj :=
  obj [("added", JNum (added m)); ("updated", JNum (updated m)); ("deleted", JNum (deleted m));
       ("unchanged", JNum (unchanged m)); ("conflicts", JNum (conflicts m))]%string.
Definition startManifest (mid replica : QString) (snapshot : jobj) (total after through : Z) : Manifest :=
  mkManifest mid replica snapshot ∅ ∅ 0 0 0 0 0 0 total after through after false [].
Definition digestEntry (m : Manifest) (entry : jobj) (sequence : Z) : Manifest :=
  mkManifest (mid m) (mreplica m) (msnapshot m) (members m) (applied m) (added m) (updated m) (deleted m)
    (unchanged m) (conflicts m) (next m) (total m) (after m) (through m) sequence (complete m)
    (digested m ++ json entry ++ [10%N]).
(** The plan counts what the entry would do to the current object of its path. *)
Definition planEntry (m : Manifest) (entry current : jobj) : Manifest :=
  let bump (a u d n c : Z) :=
    mkManifest (mid m) (mreplica m) (msnapshot m)
      (<[toStr entry.["path"] := digest (json entry)]> (members m)) (applied m)
      (added m + a) (updated m + u) (deleted m + d) (unchanged m + n) (conflicts m + c)
      (next m) (total m) (after m) (through m) (msequence m) (complete m) (digested m) in
  if negb (jempty current) && contentEqual entry current then bump 0 0 0 1 0
  else if bool_decide (toStr entry.["baseRevision"] ≠ toStr current.["revision"]) then bump 0 0 0 0 1
  else if bool_decide (entry.["kind"] = JS "deleted") then bump 0 0 1 0 0
  else if jempty current || bool_decide (current.["kind"] = JS "deleted") then bump 1 0 0 0 0
  else bump 0 1 0 0 0.
Fixpoint manifestEntries (current : QString → jobj) (m : Manifest) (entries : list jval)
    : Manifest + QString :=
  match entries with
  | [] => inl m
  | value :: rest =>
      let entry := toObj value in
      match number entry.["sequence"] with
      | Some sequence =>
          if negb (validRecord entry) || (sequence <=? msequence m) || (through m <? sequence)
             || negb (bool_decide (dom entry ⊆ allowedKeys))
          then inr (u "invalid_manifest_entry") else
          let m := digestEntry m entry sequence in
          if jempty (msnapshot m) then manifestEntries current m rest else
          let path := toStr entry.["path"] in
          if negb (jcontains entry "baseRevision") || bool_decide (is_Some (members m !! path))
          then inr (u "invalid_snapshot_entry")
          else manifestEntries current (planEntry m entry (current path)) rest
      | None => inr (u "invalid_manifest_entry")
      end
  end.
Definition advance (m : Manifest) (n : Z) (done : bool) : Manifest :=
  mkManifest (mid m) (mreplica m) (msnapshot m) (members m) (applied m) (added m) (updated m) (deleted m)
    (unchanged m) (conflicts m) (next m + n) (total m) (after m) (through m) (msequence m) done (digested m).
(** One page of a manifest over the manifest of the peer, if it continues it. *)
Definition manifestStep (current : QString → jobj) (m : Manifest) (entries : list jval) : Manifest + QString :=
  match manifestEntries current m entries with
  | inr why => inr why
  | inl m =>
      let n := Z.of_nat (List.length entries) in
      if next m + n =? total m then
        if bool_decide (digest (digested m) ≠ mid m) then inr (u "manifest_hash_mismatch")
        else inl (advance m n true)
      else inl (advance m n false)
  end.
Definition putManifest (peer : QString) (m : Manifest) : M unit :=
  modify (λ s, set_manifests (<[peer := m]> (manifests s)) s).
Definition dropManifest (peer : QString) : M unit :=
  modify (λ s, set_manifests (delete peer (manifests s)) s).

(** The fields of a manifest page. *)
Record Page := mkPage { offset : Z; ptotal : Z; pafter : Z; pthrough : Z }.
Definition pageOf (request : jobj) (self : QString) : option Page :=
  let? offset := number request.["offset"] in
  let? total := number request.["total"] in
  let? after := number request.["after"] in
  let? through := number request.["through"] in
  let count := Z.of_nat (List.length (toArr request.["entries"])) in
  if negb (hex (toStr request.["manifest"])) || bool_decide (parseUuid (toStr request.["replica"]) = None)
     || bool_decide (toStr request.["replica"] = self)
     || (through <? after) || (250000 <? total) || (total <? offset) || (128 <? count)
     || (total - offset <? count) || negb (isArray request.["entries"]) || ((count =? 0) && negb (total =? 0))
  then None else Some (mkPage offset total after through).
(** The page continues the manifest it names. *)
Definition continues (request snapshot : jobj) (p : Page) (m : Manifest) : bool :=
  negb (complete m) && bool_decide (mid m = toStr request.["manifest"])
  && bool_decide (mreplica m = toStr request.["replica"]) && (next m =? offset p) && (total m =? ptotal p)
  && (after m =? pafter p) && (through m =? pthrough p) && bool_decide (msnapshot m = snapshot).
Definition openManifest (peer : QString) (request snapshot : jobj) (p : Page) : M (option QString) :=
  if negb (offset p =? 0) then ret None else
  let! ledger := journal E in
  let base := jlong snapshot.["baseSequence"] in
  if negb (jempty snapshot) && negb (base =? 0)
     && bool_decide ((Namespace.findRevision (nsSql E) ledger (toStr snapshot.["baseRevision"])).["sequence"]
                     ≠ snapshot.["baseSequence"])
  then ret (Some (u "snapshot_base_unknown")) else
  let! s := get in
  if bool_decide (manifests s !! peer = None) && (32 <=? Z.of_nat (size (manifests s)))
  then ret (Some (u "manifest_capacity")) else
  let! _ := putManifest peer (startManifest (toStr request.["manifest"]) (toStr request.["replica"]) snapshot
                                (ptotal p) (pafter p) (pthrough p)) in
  ret None.
Definition manifestRequest (peer : QString) (request : jobj) : M jobj :=
  let! ok := ready E in
  if negb ok then failed [] else
  let snapshot := toObj request.["snapshot"] in
  let! host := meta E (u "host") in
  if jcontains request "snapshot" && (negb (validSnapshot snapshot) || negb (isEmpty host))
  then failed (u "invalid_snapshot") else
  let! s := get in
  match pageOf request (id s) with
  | None => failed (u "invalid_manifest_page")
  | Some p =>
      let! refused := openManifest peer request snapshot p in
      match refused with
      | Some why => failed why
      | None =>
          let! s := get in
          match manifests s !! peer with
          | None => failed (u "manifest_page_out_of_order")
          | Some m =>
              if negb (continues request snapshot p m) then failed (u "manifest_page_out_of_order") else
              let! ledger := journal E in
              match manifestStep (Namespace.object (nsSql E) ledger) m (toArr request.["entries"]) with
              | inr why => let! _ := dropManifest peer in failed why
              | inl m =>
                  let! _ := putManifest peer m in
                  let r := obj [("ok", JBool true); ("manifest", JStr (mid m)); ("next", jnum (next m));
                                ("complete", JBool (complete m))]%string in
                  ret (if complete m && negb (jempty snapshot)
                       then jinsert (jinsert r "snapshot" (JObj snapshot)) "diff" (JObj (diff m)) else r)
              end
          end
      end
  end.

(** ** Snapshot receipts *)
Definition lastSnapshot (peer : QString) : M jobj := λ s,
  (if sql E SelectSnapshot then default ∅ (snapshots (db s) !! peer) else ∅, s).
Definition receiptOf (r : jobj) : jobj := obj [("ok", JBool true); ("receipt", JObj r)]%string.
Definition snapshotComplete (peer : QString) (request : jobj) : M jobj :=
  let! s := get in
  let! previous := lastSnapshot peer in
  let known := match manifests s !! peer with
               | Some m => if complete m && negb (jempty (msnapshot m))
                              && bool_decide (JStr (mid m) = request.["manifest"])
                              && bool_decide ((msnapshot m).["id"] = request.["snapshot"])
                           then Some m else None
               | None => None
               end in
  match known with
  | None =>
      if negb (jempty previous) && bool_decide (previous.["manifest"] = request.["manifest"])
         && bool_decide ((toObj previous.["snapshot"]).["id"] = request.["snapshot"])
      then ret (receiptOf previous) else failed (u "manifest_required_before_transfer")
  | Some m =>
      if negb (Z.of_nat (size (applied m)) =? Z.of_nat (size (members m)))
      then failed (u "snapshot_transfers_incomplete")
      else if bool_decide (previous.["snapshot"] = JObj (msnapshot m))
              && bool_decide (previous.["manifest"] = JStr (mid m)) then ret (receiptOf previous) else
      let receipt := obj [("snapshot", JObj (msnapshot m)); ("manifest", JStr (mid m));
        ("replica", JStr (mreplica m)); ("container", JStr (container s)); ("after", jnum (after m));
        ("through", jnum (through m)); ("diff", JObj (diff m)); ("receivedAt", jnum (now E))]%string in
      if negb (sql E UpsertSnapshot) then failed (u "snapshot_receipt_write_failed") else
      let! _ := onDb (λ d, set_snapshots (<[peer := receipt]> (snapshots d)) d) in
      ret (receiptOf receipt)
  end.

(** ** Transfers *)
Definition removeLease (part : QString) : M unit := modify (λ s, set_leases (leases s ∖ {[ part ]}) s).
Definition markApplied (peer path : QString) : M unit :=
  modify (λ s, match manifests s !! peer with
               | Some m => set_manifests (<[peer := mkManifest (mid m) (mreplica m) (msnapshot m) (members m)
                   ({[ path ]} ∪ applied m) (added m) (updated m) (deleted m) (unchanged m) (conflicts m)
                   (next m) (total m) (after m) (through m) (msequence m) (complete m) (digested m)]> (manifests s)) s
               | None => s
               end).
(** The payload an inline commit carries. *)
Definition inlinePayload (request e : jobj) : option (list N) :=
  let? bytes := fromBase64 (toStr request.["inlineData"]) in
  let? size := number e.["size"] in
  if negb (isString request.["inlineData"]) || bool_decide (e.["kind"] ≠ JS "file") || (InlineBytes <? size)
     || negb (Z.of_nat (List.length bytes) =? size) || bool_decide (digest bytes ≠ toStr e.["hash"])
  then None else Some bytes.
Definition stageInline (part : QString) (bytes : list N) : M bool :=
  let! state := onFiles (fstate part) in
  match state with
  | None => ret false
  | Some staged =>
      let! cleared := (if bool_decide (kind staged ≠ u "deleted") then onFiles (fremove part) else ret true) in
      if cleared then onFiles (fappend part 0 bytes) else ret false
  end.
(** A finished transfer, and a begin that failed, give their lease back; a failed
    commit keeps it while the collected file is there. *)
Definition settleLease (action part : QString) (r : jobj) : M unit :=
  if toBool r.["complete"] || (bool_decide (action = u "begin") && negb (toBool r.["ok"]))
  then removeLease part
  else if negb (toBool r.["ok"]) then
    let! state := onFiles (fstate part) in
    if match state with Some st => bool_decide (kind st ≠ u "file") | None => true end
    then removeLease part else ret tt
  else ret tt.
Definition storeRequest (peer action : QString) (request e : jobj) (announced : option Manifest) : M jobj :=
  if bool_decide (action = u "apply") && bool_decide (e.["kind"] = JS "file")
  then failed (u "file_requires_transfer") else
  let part := transfer peer e in
  let inlineCommit := bool_decide (action = u "commit") && jcontains request "inlineData" in
  match (if inlineCommit then inlinePayload request e else Some []) with
  | None => failed (u "invalid_inline_payload")
  | Some payload =>
      if inlineCommit && (0 <=? bytesAvailable E) && (bytesAvailable E <? jlong e.["size"] + 1024 * 1024)
      then failed (u "insufficient_storage") else
      let! leased := (if bool_decide (e.["kind"] = JS "file") then protectTransfer E part else ret true) in
      if negb leased then failed [] else
      let! staged := (if inlineCommit then stageInline part payload else ret true) in
      if negb staged then failedFiles else
      let! _ := modify (set_proposal (toStr e.["version"]) (toStr e.["baseRevision"])) in
      let! r := merge E peer e (bool_decide (action ≠ u "begin") || inlineCommit) in
      let! _ := modify (set_proposal [] []) in
      let! cleared := (if inlineCommit && toBool r.["complete"] then onFiles (fremove part) else ret true) in
      if negb cleared then failedFiles else
      let! _ := settleLease action part r in
      let! _ := (match announced with
                 | Some m => if negb (jempty (msnapshot m)) && toBool r.["ok"] && toBool r.["complete"]
                             then markApplied peer (toStr e.["path"]) else ret tt
                 | None => ret tt
                 end) in
      ret r
  end.
Definition chunkRequest (peer : QString) (request e : jobj) : M jobj :=
  match number request.["offset"], fromBase64 (toStr request.["data"]) with
  | Some offset, Some bytes =>
      let length := Z.of_nat (List.length bytes) in
      if bool_decide (e.["kind"] ≠ JS "file") || negb (isString request.["data"]) || (ChunkBytes <? length)
         || (jlong e.["size"] - length <? offset)
      then failed (u "invalid_chunk") else
      let part := transfer peer e in
      let! leased := protectTransfer E part in
      if negb leased then failed [] else
      let! state := onFiles (fstate part) in
      if negb (match state with Some st => bool_decide (kind st = u "file") | None => false end)
      then let! _ := removeLease part in failed (u "begin_transfer_first")
      else if (0 <=? bytesAvailable E) && (bytesAvailable E <? length + 1024 * 1024)
      then failed (u "insufficient_storage") else
      let! ok := onFiles (fappend part offset bytes) in
      if negb ok then failedFiles
      else ret (obj [("ok", JBool true); ("offset", jnum (offset + length))]%string)
  | _, _ => failed (u "invalid_chunk")
  end.
Definition readRequest (request e : jobj) : M jobj :=
  let path := toStr e.["path"] in
  let! fresh := refresh E path in
  if negb fresh then failed [] else
  let! (current, stamp) := entry E path in
  match number request.["offset"] with
  | Some offset =>
      if bool_decide (current.["version"] ≠ e.["version"]) || bool_decide (e.["kind"] ≠ JS "file")
      then failed (u "file_changed_or_invalid_offset") else
      let! data := onFiles (fread (physical path) offset ChunkBytes stamp) in
      match data with
      | None => failedFiles
      | Some bytes => ret (obj [("ok", JBool true); ("offset", jnum offset); ("data", JStr (toBase64 bytes));
                                ("version", e.["version"])]%string)
      end
  | None => failed (u "file_changed_or_invalid_offset")
  end.

(** ** Previews *)
(** The suffix after the last dot of a path's name, in lower case. *)
Definition suffixOf (path : QString) : QString :=
  let name := sectionLast slash path in
  if containsChar 46 name then Scan.lowerAscii (sectionLast 46 name) else [].
Definition formats : list QString := map u ["png"; "jpg"; "jpeg"; "webp"; "heic"; "heif"]%string.
(** The image codec: the JPEG preview of an image file's bytes, empty when it has none. *)
Variable renderPreview : list N → list N.
Fixpoint readBlocks (fuel : nat) (native stamp : QString) (offset size : Z) (source : list N)
    : M (option (list N)) :=
  match fuel with
  | O => ret (Some source)
  | S fuel =>
      if size <=? offset then ret (Some source) else
      let! block := onFiles (fread native offset (Z.min (1024 * 1024) (size - offset)) stamp) in
      match block with
      | None => ret None
      | Some block => readBlocks fuel native stamp (offset + 1024 * 1024) size (source ++ block)
      end
  end.
Definition previewRequest (e : jobj) : M jobj :=
  let path := toStr e.["path"] in
  let! host := meta E (u "host") in
  let! fresh := (if isEmpty host then refresh E path else ret false) in
  if negb fresh then failed (u "preview_requires_authority") else
  let! (current, _) := entry E path in
  if bool_decide (current.["version"] ≠ e.["version"]) then failed (u "file_changed_or_invalid_offset") else
  let! state := onFiles (fstate (physical path)) in
  match state with
  | None => failedFiles
  | Some st =>
      let! source :=
        (if bool_decide (kind st = u "file") && (fsize st <=? 32 * 1024 * 1024)
            && bool_decide (suffixOf path ∈ formats)
         then let! blocks := readBlocks 33 (physical path) (stamp st) 0 (fsize st) [] in
              ret (option_map renderPreview blocks)
         else ret (Some [])) in
      match source with
      | None => failedFiles
      | Some preview => ret (obj [("ok", JBool true); ("version", e.["version"]); ("data", JStr (toBase64 preview))]%string)
      end
  end.

(** ** The dispatcher *)
Variable drive : jobj → M jobj.
Variable indexing : M (option bool).
(** The manifest a request names, and the guards that tie a transfer to it. *)
Definition announcedFor (peer : QString) (request : jobj) : M (option (option Manifest)) :=
  let! s := get in
  let action := toStr request.["action"] in
  let transfer := existsb (λ a, bool_decide (action = u a)) ["begin"; "chunk"; "commit"; "apply"]%string in
  let announced := manifests s !! peer in
  if transfer && match announced with Some m => negb (jempty (msnapshot m)) | None => false end
     && negb (jcontains request "manifest") then ret None else
  if jcontains request "manifest" then
    match announced with
    | Some m => if complete m && bool_decide (mid m = toStr request.["manifest"]) then ret (Some (Some m)) else ret None
    | None => ret None
    end
  else ret (Some None).
(** The entry is the member of the announced snapshot that its path names. *)
Definition isMember (request e : jobj) (m : Manifest) : bool :=
  bool_decide ((msnapshot m).["id"] = request.["snapshot"])
  && bool_decide (default [] (members m !! toStr e.["path"]) = digest (json e)).
(** [expectedVersion] pins a transfer to the current local version. *)
Definition pinned (request e : jobj) : M bool :=
  if negb (jcontains request "expectedVersion") then ret true else
  if negb (isString request.["expectedVersion"]) then ret false else
  let! fresh := refresh E (toStr e.["path"]) in
  if negb fresh then ret false else
  let! (current, _) := entry E (toStr e.["path"]) in
  ret (bool_decide (current.["version"] = request.["expectedVersion"])
       && bool_decide (e.["version"] = request.["expectedVersion"])).
Definition lockedRequest (peer action : QString) (request : jobj) : M jobj :=
  let! locked := lock E in
  if negb locked then failed [] else
  if bool_decide (action = u "snapshot.complete") then snapshotComplete peer request else
  let! announced := announcedFor peer request in
  match announced with
  | None => failed (u "manifest_required_before_transfer")
  | Some manifest =>
      let e := toObj request.["entry"] in
      let inSnapshot := match manifest with Some m => negb (jempty (msnapshot m)) | None => false end in
      if negb (validRecord e) then failed (u "invalid_entry")
      else if jcontains request "snapshot" && negb inSnapshot then failed (u "manifest_required_before_transfer")
      else if match manifest with Some m => inSnapshot && negb (isMember request e m) | None => false end
      then failed (u "snapshot_entry_mismatch") else
      let! current := pinned request e in
      if negb current then failed (u "object_changed_select_again")
      else if bool_decide (action = u "preview") then previewRequest e
      else if bool_decide (action = u "read") then readRequest request e
      else if bool_decide (action = u "begin") || bool_decide (action = u "commit") || bool_decide (action = u "apply")
      then storeRequest peer action request e manifest
      else if bool_decide (action = u "chunk") then chunkRequest peer request e
      else failed (u "unsupported_sync_action")
  end.
Definition describeRequest : M jobj :=
  let! ok := ready E in
  if negb ok then failed [] else
  let! host := meta E (u "host") in
  if negb (isEmpty host) then failed (u "mirror_cannot_be_primary_host") else
  let! state := namespaceState in
  let! s := get in
  ret (obj [("ok", JBool true); ("protocol", JNum 2); ("namespaceVersion", JNum 1); ("namespace", JObj state);
    ("manifestVersion", JNum 1); ("snapshotVersion", JNum 1); ("transferWindow", JNum 4);
    ("inlineBytes", JNum InlineBytes); ("container", JStr (container s)); ("replica", JStr (id s))]%string).
Definition journalRequest (request : jobj) : M jobj :=
  let! host := meta E (u "host") in
  if negb (isEmpty host) then failed (u "mirror_cannot_be_primary_host") else
  match number request.["after"], number request.["through"] with
  | Some after, Some through => journalPage after through
  | _, _ => failed (u "invalid_namespace_cursor")
  end.
Definition changesRequest (refreshIndex : bool) (request : jobj) : M jobj :=
  let cursor k := if jcontains request k then number request.[k] else Some 0 in
  match cursor "after"%string, cursor "through"%string with
  | Some after, Some through =>
      let! scanned := (if refreshIndex && (through =? 0) then indexing else ret (Some true)) in
      match scanned with
      | Some true => changes after through
      | _ => failed []
      end
  | _, _ => failed (u "invalid_change_cursor")
  end.
Definition handle (peer : QString) (request : jobj) (refreshIndex : bool) : M jobj :=
  let! s := get in
  if isEmpty peer || (256 <? qsize peer) || (400000 <? Z.of_nat (List.length (json request)))
  then failed (u "invalid_peer_or_request") else
  let action := toStr request.["action"] in
  if jcontains request "container" && bool_decide (toStr request.["container"] ≠ container s)
  then failed (u "remote_container_changed")
  else if startsWith action (u "drive.") then drive request
  else if bool_decide (action = u "describe") then describeRequest
  else if bool_decide (action = u "journal") then journalRequest request
  else if bool_decide (action = u "changes") then changesRequest refreshIndex request
  else if bool_decide (action = u "manifest") then manifestRequest peer request
  else lockedRequest peer action request.

(** ** Cursors *)
Definition peerState (peer : QString) : M jobj :=
  if negb (sql E (SelectPeer peer)) then let! _ := fail (lastError E) in ret ∅ else λ s,
  (match peers (db s) !! peer with
   | Some p => obj [("replica", JStr (preplica p)); ("container", JStr (pcontainer p));
                    ("pulled", jnum (pulled p)); ("pushed", jnum (pushed p))]%string
   | None => ∅
   end, s).
(** INSERT ... ON CONFLICT(peer) DO UPDATE SET pulled=MAX(...), pushed=MAX(...). *)
Definition upsertPeer (peer replica container : QString) (pull push : Z) (d : Db) : Db :=
  set_peers (<[peer := match peers d !! peer with
                       | Some p => mkPeer (preplica p) (pcontainer p) (Z.max (pulled p) pull) (Z.max (pushed p) push)
                       | None => mkPeer replica container pull push
                       end]> (peers d)) d.
Definition savePeerState (peer replica container : QString) (pull push : Z) : M bool :=
  let! ok := ready E in
  if negb ok then ret false else
  if isEmpty peer || (256 <? qsize peer) || bool_decide (parseUuid replica = None)
     || bool_decide (parseUuid container = None) || (pull <? 0) || (push <? 0)
  then fail (u "invalid_peer_state") else
  let changed (p : jobj) := negb (jempty p) && (bool_decide (toStr p.["replica"] ≠ replica)
                                      || bool_decide (toStr p.["container"] ≠ container)) in
  let! before := peerState peer in
  if changed before then fail (u "remote_container_changed")
  else if negb (jempty before) && (pull <=? jlong before.["pulled"]) && (push <=? jlong before.["pushed"])
  then ret true else
  let! ok := lock E in
  if negb ok then ret false else
  let! before := peerState peer in
  if changed before then fail (u "remote_container_changed") else
  let! ok := run E (UpsertPeer peer) in
  if ok then let! _ := onDb (upsertPeer peer replica container pull push) in ret true else ret false.
End with_files.
End Requests.
