(* ===== verification/Invariants.v ===== *)
(** What every request leaves true of the store.  An invariant is given as a
    preorder between the stores before and after; it passes from the basic
    operations to each composed handler by the lemmas of this file. *)
From S2P Require Import Prelude Qt Records Base64 Namespace Files Store Merge Scan Drive Requests.
Open Scope Z_scope.

Module Invariants.
Import Records Store.
Create HintDb tame discriminated.

Section with_files.
Context {PF : Platform} {FS : FileStore} (E : Env).

Definition respects (R : relation Store) {A} (m : M A) : Prop := ∀ s, R s (m s).2.

(** The interface of an invariant: what the handlers are composed of keeps it. *)
Class Tame (R : relation Store) := {
  #[global] tame_preorder :: PreOrder R;
  tame_error e s : R s (set_error e s);
  tame_world w s : R s (set_files w s);
  tame_leases l s : R s (set_leases l s);
  tame_proposal p b s : R s (set_proposal p b s);
  tame_counter v s : R s (set_db (set_metadata (<[u "counter" := v]> (metadata (db s))) (db s)) s);
  tame_save e stamp s : R s (save E e stamp s).2;
  tame_snapshots x s : R s (set_db (set_snapshots x (db s)) s);
  tame_restore s s' : R s s' → R s (set_db (db s) s')
}.

Section structure.
Context {R : relation Store} {P : PreOrder R}.

Lemma respects_ret {A} (a : A) : respects R (ret a).
Proof. intros s. reflexivity. Qed.
Lemma respects_read {A} (f : Store → A) : respects R (λ s, (f s, s)).
Proof. intros s. reflexivity. Qed.
Lemma respects_get : respects R get.
Proof. intros s. reflexivity. Qed.
Lemma respects_bind {A B} (m : M A) (k : A → M B) : respects R m → (∀ a, respects R (k a)) → respects R (bind m k).
Proof.
  intros Hm Hk s. unfold bind. specialize (Hm s). destruct (m s) as [a s']. etransitivity; [exact Hm|apply Hk].
Qed.
Lemma respects_if {A} (b : bool) (m1 m2 : M A) : respects R m1 → respects R m2 → respects R (if b then m1 else m2).
Proof. by destruct b. Qed.
Lemma respects_option {A B} (o : option A) (f : A → M B) (m : M B) :
  (∀ a, respects R (f a)) → respects R m → respects R (match o with Some a => f a | None => m end).
Proof. by destruct o. Qed.
Lemma respects_pair {A B C} (p : A * B) (f : A → B → M C) :
  (∀ a b, respects R (f a b)) → respects R (let '(a, b) := p in f a b).
Proof. by destruct p. Qed.
Lemma respects_failed e : respects R (failed e).
Proof. intros s. reflexivity. Qed.
Lemma respects_failedFiles : respects R failedFiles.
Proof. intros s. reflexivity. Qed.
End structure.

Section tame.
Context {R : relation Store} {T : Tame R}.

Lemma respects_quiet {A} (m : M A) : quiet m → respects R m.
Proof. intros H s. destruct (H s) as [e ->]. apply tame_error. Qed.
Lemma respects_onFiles {A} (f : world → A * world) : respects R (onFiles f).
Proof. intros s. unfold onFiles. destruct (f (files s)). apply tame_world. Qed.
Lemma respects_fail e : respects R (fail e).
Proof. apply respects_quiet, quiet_fail. Qed.
Lemma respects_failFiles : respects R failFiles.
Proof. intros s. apply tame_error. Qed.
Lemma respects_run st : respects R (run E st).
Proof. apply respects_quiet, quiet_run. Qed.
Lemma respects_meta k : respects R (meta E k).
Proof. apply respects_quiet, quiet_meta. Qed.
Lemma respects_journal : respects R (journal E).
Proof. apply respects_quiet, quiet_journal. Qed.
Lemma respects_entry p : respects R (entry E p).
Proof. apply respects_quiet, quiet_entry. Qed.
Lemma respects_save e stamp : respects R (save E e stamp).
Proof. intros s. apply tame_save. Qed.
Lemma respects_set_error e : respects R (modify (set_error e)).
Proof. intros s. apply tame_error. Qed.
Lemma respects_set_proposal p b : respects R (modify (set_proposal p b)).
Proof. intros s. apply tame_proposal. Qed.
Lemma respects_counter v : respects R (setMeta E (u "counter") v).
Proof.
  unfold setMeta. apply respects_bind; [apply respects_run|]. intros [].
  - apply respects_bind; [|intros; apply respects_ret]. intros s. apply tame_counter.
  - apply respects_ret.
Qed.
End tame.
End with_files.

#[export] Hint Resolve respects_ret respects_read respects_get respects_bind respects_if respects_option respects_pair
  respects_onFiles respects_fail respects_failFiles respects_failed respects_failedFiles respects_run respects_meta
  respects_journal respects_entry respects_save respects_set_error respects_set_proposal respects_counter : tame.

(** The basic operations, for an invariant that is a declared instance. *)
Ltac tame_leaf :=
  first [ solve [simple eapply respects_ret; apply _]
        | solve [simple eapply respects_read; apply _]
        | solve [simple eapply respects_get; apply _]
        | solve [simple eapply respects_onFiles; apply _]
        | solve [simple eapply respects_fail; apply _]
        | solve [simple eapply respects_failFiles; apply _]
        | solve [simple eapply respects_failed; apply _]
        | solve [simple eapply respects_failedFiles; apply _]
        | solve [simple eapply respects_run; apply _]
        | solve [simple eapply respects_meta; apply _]
        | solve [simple eapply respects_journal; apply _]
        | solve [simple eapply respects_entry; apply _]
        | solve [simple eapply respects_save; apply _]
        | solve [simple eapply respects_set_error; apply _]
        | solve [simple eapply respects_set_proposal; apply _]
        | solve [simple eapply respects_counter; apply _] ].

(** Follow the structure of a handler down to the basic operations. *)
Ltac tame_step :=
  match goal with
  | |- respects _ (bind _ _) => apply respects_bind; [|intros ?]
  | |- respects _ (if ?b then _ else _) => apply respects_if
  | |- respects _ (match ?x with _ => _ end) => destruct x
  | |- respects _ _ => solve [eauto 2 with tame]
  | |- respects _ _ => tame_leaf
  end.
Ltac tame := repeat (cbv zeta; tame_step).

Section handlers.
Context {PF : Platform} {FS : FileStore} (E : Env).
Context {R : relation Store} {T : Tame E R}.

Lemma respects_ready : respects R (ready E).
Proof. unfold ready. tame. Qed.
#[local] Hint Resolve respects_ready : tame.
Lemma respects_lock : respects R (lock E).
Proof. unfold lock. tame. Qed.
#[local] Hint Resolve respects_lock : tame.
Lemma respects_observed path st h : respects R (observed E path st h).
Proof. unfold observed. tame. Qed.
#[local] Hint Resolve respects_observed : tame.
Lemma respects_refresh path : respects R (refresh E path).
Proof. unfold refresh. tame. Qed.
#[local] Hint Resolve respects_refresh : tame.

(** *** Merging *)
Lemma respects_protect part : respects R (Merge.protectTransfer E part).
Proof.
  intros s. unfold Merge.protectTransfer. destruct (bool_decide _); [reflexivity|].
  destruct (leaseFree E); [apply (tame_leases E)|apply (tame_error E)].
Qed.
#[local] Hint Resolve respects_protect : tame.
Lemma respects_storeConflict w path part loser clock : respects R (Merge.storeConflict E w path part loser clock).
Proof. unfold Merge.storeConflict. tame. Qed.
#[local] Hint Resolve respects_storeConflict : tame.
Lemma respects_applyPlan peer path c incoming local p : respects R (Merge.applyPlan E peer path c incoming local p).
Proof. unfold Merge.applyPlan, Merge.resumeAt, Merge.verifyPart, Merge.place. tame. Qed.
#[local] Hint Resolve respects_applyPlan : tame.
Lemma respects_merge peer incoming c : respects R (Merge.merge E peer incoming c).
Proof. unfold Merge.merge, Merge.retained. tame. Qed.
#[local] Hint Resolve respects_merge : tame.

(** *** Scanning *)
Lemma respects_transaction body : respects R body → respects R (Scan.transaction E body).
Proof.
  intros Hb s. unfold Scan.transaction. destruct (sql E Begin); [|apply (tame_error E)]. cbn [negb].
  unfold bind at 1, get. unfold bind at 1. specialize (Hb s). destruct (body s) as [[] s1]; cbn [negb snd] in *.
  - destruct (sql E Commit); [exact Hb|]. unfold bind, modify. etransitivity; [by apply (tame_restore E)|apply (tame_error E)].
  - by apply (tame_restore E).
Qed.
Lemma respects_flushItems walk items : respects R (Scan.flushItems E walk items).
Proof. induction items; cbn [Scan.flushItems]; unfold Scan.sameDirectory; tame. Qed.
Lemma respects_flush walk items : respects R (Scan.flush E walk items).
Proof.
  unfold Scan.flush. destruct (bool_decide _); [tame|]. apply respects_bind; [tame|]. intros ok.
  apply respects_if; [|tame]. apply respects_transaction, respects_flushItems.
Qed.
#[local] Hint Resolve respects_flush : tame.
Lemma respects_recordWork late walk items pending : respects R (Scan.recordWork E late walk items pending).
Proof. revert pending. induction items; intros pending; cbn [Scan.recordWork]; tame. Qed.
#[local] Hint Resolve respects_recordWork : tame.
Lemma respects_recordAbsent paths : respects R (Scan.recordAbsent E paths).
Proof. induction paths; cbn [Scan.recordAbsent]; tame. Qed.
Lemma respects_visitNames vis native key names w :
  (∀ n k w, respects R (vis n k w)) → respects R (Scan.visitNames vis native key names w).
Proof.
  intros Hv. revert w. induction names as [|name names IH]; intros w; cbn [Scan.visitNames]; [tame|].
  unfold Scan.refuse. tame.
Qed.
Lemma respects_visit fuel native key w : respects R (Scan.visit fuel native key w).
Proof.
  revert native key w. induction fuel as [|fuel IH]; intros native key w; cbn [Scan.visit]; [tame|].
  unfold Scan.refuse. tame. by apply respects_visitNames.
Qed.
#[local] Hint Resolve respects_visit : tame.
Lemma respects_visitSections l w : respects R (Scan.visitSections l w).
Proof.
  revert w. induction l as [|[key name] l IH]; intros w; cbn [Scan.visitSections]; tame.
Qed.
#[local] Hint Resolve respects_visitSections : tame.
Lemma respects_scan late : respects R (Scan.scan E late).
Proof.
  unfold Scan.scan. tame. apply respects_transaction, respects_recordAbsent.
Qed.

(** *** The drive *)
Lemma respects_catalogPage control modified rows page last bytes :
  respects R (Drive.catalogPage control modified rows page last bytes).
Proof.
  revert page last bytes. induction rows as [|[path r] rows IH]; intros page last bytes; cbn [Drive.catalogPage];
    unfold Drive.catalogValue; tame.
Qed.
Lemma respects_listPage control path native cursor names page last bytes :
  respects R (Drive.listPage control path native cursor names page last bytes).
Proof. revert page last bytes. induction names; intros page last bytes; cbn [Drive.listPage]; tame. Qed.
#[local] Hint Resolve respects_catalogPage respects_listPage : tame.
Lemma respects_success r : respects R (Drive.success r).
Proof. intros s. reflexivity. Qed.
#[local] Hint Resolve respects_success : tame.
Lemma respects_driveRequest control modified storage information prepare request :
  respects R (Drive.driveRequest E control modified storage information prepare request).
Proof.
  unfold Drive.driveRequest, Drive.catalogRequest, Drive.inspectRequest, Drive.listRequest, Drive.readRequest,
    Drive.changeRequest, Drive.publish. tame.
Qed.

(** *** The protocol *)
Lemma respects_readSnapshot m : respects R m → respects R (Requests.readSnapshot E m).
Proof. intros Hm. unfold Requests.readSnapshot. tame. Qed.
Lemma respects_changes a t : respects R (Requests.changes E a t).
Proof. apply respects_readSnapshot. unfold Requests.mirrorChanges. tame. Qed.
Lemma respects_journalPage a t : respects R (Requests.journalPage E a t).
Proof. apply respects_readSnapshot. tame. Qed.
#[local] Hint Resolve respects_changes respects_journalPage : tame.
Lemma respects_describe : respects R (Requests.describeRequest E).
Proof. unfold Requests.describeRequest, Requests.namespaceState. tame. Qed.
Lemma respects_readBlocks n native st o size src : respects R (Requests.readBlocks n native st o size src).
Proof. revert o src. induction n; intros o src; cbn [Requests.readBlocks]; tame. Qed.
#[local] Hint Resolve respects_readBlocks : tame.
Lemma respects_preview render e : respects R (Requests.previewRequest E render e).
Proof. unfold Requests.previewRequest. tame. Qed.
Lemma respects_readRequest request e : respects R (Requests.readRequest E request e).
Proof. unfold Requests.readRequest. tame. Qed.
Lemma respects_removeLease part : respects R (Requests.removeLease part).
Proof. intros s. apply (tame_leases E). Qed.
#[local] Hint Resolve respects_removeLease respects_protect : tame.
Lemma respects_chunk peer request e : respects R (Requests.chunkRequest E peer request e).
Proof. unfold Requests.chunkRequest. tame. Qed.
Lemma respects_snapshotComplete peer request : respects R (Requests.snapshotComplete E peer request).
Proof.
  unfold Requests.snapshotComplete, Requests.lastSnapshot. tame. intros s. apply (tame_snapshots E).
Qed.
Lemma respects_pinned request e : respects R (Requests.pinned E request e).
Proof. unfold Requests.pinned. tame. Qed.
Lemma respects_announcedFor peer request : respects R (Requests.announcedFor peer request).
Proof. unfold Requests.announcedFor. tame. Qed.
#[local] Hint Resolve respects_describe respects_preview respects_readRequest respects_chunk respects_snapshotComplete
  respects_pinned respects_announcedFor : tame.
End handlers.

(** An invariant that the bookkeeping of manifests does not touch either. *)
Class TameManifests {PF : Platform} {FS : FileStore} (E : Env) (R : relation Store) `{!Tame E R} := {
  tame_manifests m s : R s (set_manifests m s)
}.
Section protocol.
Context {PF : Platform} {FS : FileStore} (E : Env).
Context {R : relation Store} {T : Tame E R} {TM : TameManifests E R}.
#[local] Hint Resolve respects_changes respects_journalPage respects_describe respects_preview respects_readRequest
  respects_chunk respects_snapshotComplete respects_pinned respects_announcedFor respects_ready respects_lock
  respects_protect respects_merge respects_removeLease : tame.

Lemma respects_putManifest peer m : respects R (Requests.putManifest peer m).
Proof. intros s. apply tame_manifests. Qed.
Lemma respects_dropManifest peer : respects R (Requests.dropManifest peer).
Proof. intros s. apply tame_manifests. Qed.
Lemma respects_markApplied peer path : respects R (Requests.markApplied peer path).
Proof. intros s. unfold Requests.markApplied, modify. destruct (_ !! _); [apply tame_manifests|reflexivity]. Qed.
#[local] Hint Resolve respects_putManifest respects_dropManifest respects_markApplied : tame.
Lemma respects_manifestRequest peer request : respects R (Requests.manifestRequest E peer request).
Proof. unfold Requests.manifestRequest, Requests.openManifest. tame. Qed.
Lemma respects_storeRequest peer action request e m : respects R (Requests.storeRequest E peer action request e m).
Proof. unfold Requests.storeRequest, Requests.stageInline, Requests.settleLease. tame. Qed.
#[local] Hint Resolve respects_manifestRequest respects_storeRequest : tame.
Lemma respects_handle render drive indexing peer request refresh :
  (∀ r, respects R (drive r)) → respects R indexing →
  respects R (Requests.handle E render drive indexing peer request refresh).
Proof.
  intros Hd Hi. unfold Requests.handle, Requests.lockedRequest, Requests.changesRequest, Requests.journalRequest. tame.
Qed.
End protocol.
End Invariants.
