(* ===== verification/MergeLaws.v ===== *)
(** What a merge promises of the files, src/Sync/Replica.cpp: a conflict never
    costs the bytes of the side that loses. *)
From S2P Require Import Prelude Qt Records Namespace Files Store Merge Invariants.
Open Scope Z_scope.

Module MergeLaws.
Import Records Store Merge Invariants.
Section with_files.
Context {PF : Platform} {FS : FileStore} (E : Env).

(** ** A conflict keeps the loser's bytes *)
Section keeping.
Context {PL : PlatformLaws} {FL : FileLaws}.

Lemma bytes_save e stamp s q : bytesAt (files (save E e stamp s).2) q = bytesAt (files s) q.
Proof. destruct (framed_save E e stamp s) as (d & err & ->). done. Qed.

Lemma onFiles_eq {A} (f : world → A * world) s a s' :
  onFiles f s = (a, s') → a = (f (files s)).1 ∧ files s' = (f (files s)).2.
Proof. unfold onFiles. destruct (f (files s)). by intros [= <- <-]. Qed.

(** What the conflict name holds after the copy was recorded. *)
Definition kept (s s' : Store) (target source : QString) (loser : jobj) : Prop :=
  bytesAt (files s') target = bytesAt (files s) source
  ∨ ∃ b, bytesAt (files s') target = Some b ∧ digest b = toStr loser.["hash"].

Lemma copy_path loser clock : toStr (conflictCopy loser clock).["path"] = conflictPath loser.
Proof. unfold conflictCopy, withoutRevision. cbn [foldl]. by jsimp. Qed.

Lemma storeConflict_keeps wins path part loser clock s s' :
  toStr loser.["hash"] ≠ [] → archival part = false →
  storeConflict E wins path part loser clock s = (None, s') →
  physical (conflictPath loser) ≠ []
  ∧ kept s s' (physical (conflictPath loser)) (if wins then physical path else part) loser.
Proof.
  intros Hh Ha. unfold storeConflict. cbv zeta. rewrite copy_path. set (t := physical (conflictPath loser)).
  unfold isEmpty. destruct (bool_decide_reflect (t = [])) as [|Ht]; [done|].
  unfold bind at 1. destruct (onFiles (fstate t) s) as [st s1] eqn:E1. apply onFiles_eq in E1 as [-> F1].
  destruct (fstate t (files s)).1 as [existing|]; [|done].
  assert (B1 : ∀ q, bytesAt (files s1) q = bytesAt (files s) q) by (intros q; by rewrite F1, state_frame).
  unfold bind at 1. match goal with |- context [match ?m s1 with (_, _) => _ end] => destruct (m s1) as [placed s2] eqn:Ep end.
  destruct placed as [why|]; [done|].
  assert (kept s1 s2 t (if wins then physical path else part) loser) as Hk2.
  { revert Ep. destruct (bool_decide (kind existing ≠ u "deleted")).
    - destruct (bool_decide (kind existing ≠ u "file")); [done|].
      unfold bind. destruct (onFiles _ s1) as [h s2'] eqn:E2. apply onFiles_eq in E2 as [-> F2].
      destruct (bool_decide_reflect ((fhash t (stamp existing) (files s1)).1 ≠ toStr loser.["hash"])) as [|Hd]; [done|].
      intros [_ ->]%pair_inv. apply dec_stable in Hd. right.
      destruct (hash_bytes t (stamp existing) (files s1)) as (b & Hb & Ed); [by rewrite Hd|].
      exists b. rewrite F2, hash_frame. split; [done|congruence].
    - unfold bind. destruct (onFiles _ s1) as [ok s2'] eqn:E2. apply onFiles_eq in E2 as [-> F2]. unfold get.
      destruct wins.
      + destruct (fpreserve (physical path) t (files s1)) as [[] w'] eqn:Eo; [|done]. cbn in F2.
        intros [_ ->]%pair_inv. left. rewrite F2. by eapply preserve_bytes.
      + destruct (finstall part t (files s1)) as [[] w'] eqn:Eo; [|done]. cbn in F2.
        intros [_ ->]%pair_inv. left. rewrite F2. by eapply install_bytes. }
  unfold bind at 1. destruct (onFiles (fstate t) s2) as [st s3] eqn:E3. apply onFiles_eq in E3 as [-> F3].
  destruct (fstate t (files s2)).1 as [ex2|]; [|done].
  unfold bind. pose proof (bytes_save (conflictCopy loser clock) (stamp ex2) s3) as Hs.
  destruct (save E _ _ s3) as [[] s4]; [|done]. cbn [snd] in Hs. intros [_ ->]%pair_inv. split; [done|].
  destruct Hk2 as [Hk|(b & Hb & Hd)].
  - left. by rewrite Hs, F3, state_frame, Hk, B1.
  - right. exists b. by rewrite Hs, F3, state_frame.
Qed.

(** The bytes of one path stay. *)
Definition sameAt (q : QString) (s s' : Store) : Prop := bytesAt (files s') q = bytesAt (files s) q.
#[local] Instance sameAt_preorder q : PreOrder (sameAt q).
Proof. split; [intros s; reflexivity|]. intros a b c H1 H2. unfold sameAt in *. congruence. Qed.

Lemma sameAt_onFiles {A} q (f : world → A * world) :
  (∀ w, bytesAt (f w).2 q = bytesAt w q) → respects (sameAt q) (onFiles f).
Proof. intros H s. unfold sameAt. destruct (onFiles f s) as [a s'] eqn:E1. apply onFiles_eq in E1 as [_ E1].
  cbn [snd]. rewrite E1. apply H. Qed.
Lemma sameAt_quiet {A} q (m : M A) : quiet m → respects (sameAt q) m.
Proof. intros H s. destruct (H s) as [e ->]. reflexivity. Qed.
Lemma sameAt_save q e stamp : respects (sameAt q) (save E e stamp).
Proof. intros s. apply bytes_save. Qed.

Lemma sameAt_failFiles q : respects (sameAt q) failFiles.
Proof. intros s. reflexivity. Qed.
Lemma sameAt_setMeta q k v : respects (sameAt q) (setMeta E k v).
Proof. intros s. destruct (framed_setMeta E k v s) as (d & err & ->). reflexivity. Qed.

Ltac same_bytes :=
  repeat match goal with
  | |- respects _ (bind _ _) => apply respects_bind; [|intros ?]
  | |- respects _ (if _ then _ else _) => apply respects_if
  | |- respects _ (match ?x with _ => _ end) => destruct x
  | |- respects _ (ret _) => apply respects_ret
  | |- respects _ (failed _) => apply respects_failed
  | |- respects _ failedFiles => apply respects_failedFiles
  | |- respects _ (save _ _ _) => apply sameAt_save
  | |- respects _ (onFiles _) => apply sameAt_onFiles; intros ?
  | |- bytesAt ((if ?b then _ else _) _).2 _ = _ => destruct b
  | |- bytesAt (fstate _ _).2 _ = _ => apply state_frame
  | |- bytesAt (fhash _ _ _).2 _ = _ => apply hash_frame
  | |- bytesAt (fmkdir _ _).2 _ = _ => apply mkdir_frame
  | |- bytesAt (flist _ _).2 _ = _ => apply list_frame
  | |- bytesAt (fexactPath _ _).2 _ = _ => apply exact_frame
  | |- bytesAt (fappend _ _ _ _).2 _ = _ => by apply append_frame; [right|]
  | |- bytesAt (fpreserve _ _ _).2 _ = _ => by apply preserve_frame
  | |- respects _ (meta _ _) => apply sameAt_quiet, quiet_meta
  | |- respects _ (entry _ _) => apply sameAt_quiet, quiet_entry
  | |- respects _ (journal _) => apply sameAt_quiet, quiet_journal
  | |- respects _ (fail _) => apply sameAt_quiet, quiet_fail
  | |- respects _ failFiles => apply sameAt_failFiles
  | |- respects _ (setMeta _ _ _) => apply sameAt_setMeta
  | |- respects _ get => apply respects_get
  | |- bytesAt (finstall _ _ _).2 _ = _ => by apply install_frame
  | |- bytesAt (fremove _ _).2 _ = _ => by apply remove_frame
  end.

Lemma place_frame part target winner local q :
  clear part q → clear target q → q ≠ previewOf target → respects (sameAt q) (place part target winner local).
Proof. intros Hp Ht Hq. unfold place. cbv zeta. same_bytes. Qed.

Lemma verifyPart_frame part incoming q : clear part q → q ≠ previewOf part → respects (sameAt q) (verifyPart part incoming).
Proof. intros Hp Hq. unfold verifyPart. same_bytes. Qed.

Lemma transfer_private peer e : private (transfer peer e) = true.
Proof.
  unfold private, transfer. apply startsWith_spec.
  change (u ".society-sync/transfers/") with (u ".society-sync/" ++ u "transfers/"). rewrite <- !app_assoc. eexists. reflexivity.
Qed.

Lemma transfer_clear peer e q : private q = false → clear (transfer peer e) q ∧ q ≠ previewOf (transfer peer e).
Proof.
  intros Hq. pose proof (transfer_private peer e) as Ht. split; [by apply clear_public|].
  intros ->. rewrite private_preview in Hq by (by apply private_slash). congruence.
Qed.
Lemma transfer_archival peer e : archival (transfer peer e) = false.
Proof. reflexivity. Qed.

Lemma verifyPart_bytes part incoming s s' :
  toStr incoming.["hash"] ≠ [] → verifyPart part incoming s = (None, s') →
  ∃ b, bytesAt (files s') part = Some b ∧ digest b = toStr incoming.["hash"].
Proof.
  intros Hh. unfold verifyPart, bind at 1. destruct (onFiles (fstate part) s) as [st s1] eqn:E1.
  apply onFiles_eq in E1 as [-> F1]. destruct (fstate part (files s)).1 as [partial|]; [|done].
  destruct (_ || _); [done|]. unfold bind at 1. destruct (onFiles _ s1) as [h s2] eqn:E2.
  apply onFiles_eq in E2 as [-> F2]. set (h := (fhash part (stamp partial) (files s1)).1) in *.
  unfold isEmpty. destruct (bool_decide_reflect (h = [])) as [|Hne]; [done|].
  destruct (bool_decide_reflect (h ≠ toStr incoming.["hash"])) as [|Hd].
  { unfold bind at 1. destruct (onFiles _ s2) as [[] s3]; done. }
  intros [_ ->]%pair_inv. apply dec_stable in Hd. destruct (hash_bytes part (stamp partial) (files s1) Hne) as (b & Hb & Ed).
  exists b. rewrite F2, hash_frame. split; [done|]. fold h in Ed. congruence.
Qed.

(** A refused step makes the request fail. *)
Definition refusing {A} (P : A → Prop) (m : M A) : Prop := ∀ s, P (m s).1.
Lemma refusing_bind {A B} (P : B → Prop) (m : M A) (k : A → M B) :
  (∀ a, refusing P (k a)) → refusing P (bind m k).
Proof. intros Hk s. unfold bind. destruct (m s) as [a s1]. apply Hk. Qed.
Lemma refusing_failed (P : option jobj → Prop) e :
  (∀ r, toBool r.["ok"] = false → P (Some r)) → refusing P (let! r := failed e in ret (Some r)).
Proof. intros HP s. apply HP. reflexivity. Qed.
Lemma refusing_failedFiles (P : option jobj → Prop) :
  (∀ r, toBool r.["ok"] = false → P (Some r)) → refusing P (let! r := failedFiles in ret (Some r)).
Proof. intros HP s. apply HP. reflexivity. Qed.

Definition negative (r : option jobj) : Prop := match r with Some r => toBool r.["ok"] = false | None => True end.
Ltac refuses :=
  repeat match goal with
  | |- refusing _ (let! r := failed _ in ret (Some r)) => by apply refusing_failed
  | |- refusing _ (let! r := failedFiles in ret (Some r)) => by apply refusing_failedFiles
  | |- refusing _ (bind _ _) => apply refusing_bind; intros ?
  | |- refusing _ (if ?b then _ else _) => destruct b
  | |- refusing _ (match ?x with _ => _ end) => destruct x
  | |- refusing _ (ret None) => intros ?; exact I
  end.
Lemma verifyPart_refuses part e : refusing negative (verifyPart part e).
Proof. unfold verifyPart. refuses. Qed.
Lemma storeConflict_refuses w path part l clock : refusing negative (storeConflict E w path part l clock).
Proof. unfold storeConflict. cbv zeta. refuses. Qed.

(** The last steps of a plan, once the conflict copy stands. *)
Definition finishPlan (path part : QString) (p : Plan) (winner local : jobj) : M jobj :=
  let! placed := (if incomingWins p && negb (same p) then place part (physical path) winner local else ret true) in
  if negb placed then failedFiles else
  let! state := onFiles (fstate (physical path)) in
  match state with
  | None => failedFiles
  | Some st => let! ok := save E (jinsert winner "clock" (JObj (clock p))) (stamp st) in
               if ok then ret result else failed []
  end.
Lemma finishPlan_frame path part (p : Plan) winner local q :
  clear part q → clear (physical path) q → q ≠ previewOf (physical path) →
  respects (sameAt q) (finishPlan path part p winner local).
Proof.
  intros Hp Ht Hq. unfold finishPlan. apply respects_bind; [apply respects_if; [by apply place_frame|apply respects_ret]|].
  intros placed. same_bytes.
Qed.

(** The plan that [merge] makes. *)
Section plan.
Variables (mirror proposed absentPayload retainDirectory : bool) (relation : Z) (incoming local : jobj).
Let p := planOf mirror proposed absentPayload retainDirectory relation incoming local.
Let loser := if incomingWins p then local else incoming.

Lemma plan_conflict : conflict p = true →
  same p = false ∧ loser.["kind"] = JS "file" ∧ (incomingWins p = true → absentPayload = false).
Proof.
  unfold loser. unfold p, planOf. cbn [conflict same incomingWins]. intros H. bool_hyps.
  split_and!; [done|done|]. intros Hw. rewrite Hw in *. done.
Qed.

Lemma applyPlan_conflict peer path s s' r :
  conflict p = true →
  applyPlan E peer path true incoming local p s = (r, s') → toBool r.["ok"] = true →
  let part := transfer peer incoming in
  let winner := if incomingWins p then incoming else local in
  ∃ s1 s2,
    (if bool_decide (incoming.["kind"] = JS "file") && negb (same p) then verifyPart part incoming s = (None, s1) else s1 = s)
    ∧ storeConflict E (incomingWins p) path part loser (clock p) s1 = (None, s2)
    ∧ finishPlan path part p winner local s2 = (r, s').
Proof.
  intros Hc H Hok part winner. revert H. unfold applyPlan. cbv zeta.
  rewrite Hc, orb_true_r, andb_true_r, andb_false_r. fold part loser winner.
  set (need := bool_decide _ && negb (same p)).
  unfold bind at 1.
  destruct ((if need then verifyPart part incoming else ret None) s) as [broken s1] eqn:Eb.
  destruct broken as [why|].
  { intros [-> ->]%pair_inv. destruct need; [|done]. pose proof (verifyPart_refuses part incoming s) as Hn.
    rewrite Eb in Hn. cbn in Hn. congruence. }
  unfold bind at 1. destruct (storeConflict E _ _ _ _ _ s1) as [refused s2] eqn:Es.
  destruct refused as [why|].
  { intros [-> ->]%pair_inv. pose proof (storeConflict_refuses (incomingWins p) path part loser (clock p) s1) as Hn.
    rewrite Es in Hn. cbn in Hn. congruence. }
  intros H. exists s1, s2. split_and!; [|done|exact H].
  destruct need; [done|]. by apply pair_inv in Eb as [_ ->].
Qed.

(** A plan that stands and leaves a conflict: the conflict name is a place of its own
    that ends up with the loser's bytes, those of the replaced file or those that
    were verified on arrival. *)
Lemma applyPlan_keeps peer path s s' r :
  physical path ≠ [] → toStr loser.["path"] = path →
  let target := physical (conflictPath loser) in
  hex (toStr loser.["version"]) = true → toStr loser.["hash"] ≠ [] → conflict p = true →
  applyPlan E peer path true incoming local p s = (r, s') → toBool r.["ok"] = true →
  target ≠ [] ∧ target ≠ physical path
  ∧ (incomingWins p = true ∧ bytesAt (files s') target = bytesAt (files s) (physical path)
     ∨ ∃ b, bytesAt (files s') target = Some b ∧ digest b = toStr loser.["hash"]).
Proof.
  intros Hp Hlp target Hv Hh Hc H Hok. destruct (plan_conflict Hc) as (Hsame & Hkind & _).
  apply applyPlan_conflict in H as (s1 & s2 & H1 & H2 & H3); [|done..].
  apply storeConflict_keeps in H2 as [Ht Hk]; [|done|apply transfer_archival]. fold target in Ht, Hk.
  destruct (conflict_clear loser) as (Hcl & _ & Hpv); [by rewrite Hlp|done..|]. rewrite Hlp in Hcl, Hpv. fold target in Hcl, Hpv.
  pose proof (clear_ne _ _ Hcl) as Hd.
  destruct (transfer_clear peer incoming target) as [Htc Htv]; [by apply physical_public|].
  destruct (transfer_clear peer incoming (physical path)) as [Hpc Hpp]; [by apply physical_public|].
  assert (bytesAt (files s') target = bytesAt (files s2) target) as E3.
  { rewrite <- (f_equal snd H3 : _ = s'). by apply finishPlan_frame. }
  split_and!; [done|done|]. rewrite E3. rewrite Hsame in H1. cbn [negb] in H1. rewrite andb_true_r in H1.
  destruct Hk as [Hk|Hk]; [|by right]. unfold loser in *. destruct (incomingWins p) eqn:Ew.
  - left. split; [done|]. rewrite Hk. case_bool_decide; [|by subst].
    rewrite <- (f_equal snd H1 : _ = s1). by apply verifyPart_frame.
  - right. rewrite Hk. rewrite Hkind in H1. rewrite bool_decide_eq_true_2 in H1 by done.
    by eapply verifyPart_bytes.
Qed.
End plan.

(** ** What a merge may touch *)
Lemma observed_frame path st h q : respects (sameAt q) (observed E path st h).
Proof. unfold observed. cbv zeta. same_bytes. Qed.
Lemma refresh_frame path q : respects (sameAt q) (refresh E path).
Proof. unfold refresh. same_bytes. apply observed_frame. Qed.
Lemma retained_frame path local incoming q : respects (sameAt q) (retained path local incoming).
Proof. unfold retained. same_bytes. Qed.
Lemma storeConflict_frame w path part l clock q :
  clear part q → (physical (conflictPath l) ≠ [] → clear (physical (conflictPath l)) q) →
  respects (sameAt q) (storeConflict E w path part l clock).
Proof.
  intros Hp Ht. unfold storeConflict. cbv zeta. rewrite copy_path. unfold isEmpty. case_bool_decide as Hc; [same_bytes|].
  specialize (Ht Hc). pose proof (clear_ne _ _ Ht). same_bytes.
Qed.
Lemma resumeAt_frame part incoming q : q ≠ part → respects (sameAt q) (resumeAt part incoming).
Proof. intros Hp. unfold resumeAt. same_bytes. Qed.
Lemma applyPlan_frame peer path commit incoming local p q :
  clear (physical path) q → q ≠ previewOf (physical path) →
  clear (physical (conflictPath incoming)) q → clear (physical (conflictPath local)) q → private q = false →
  respects (sameAt q) (applyPlan E peer path commit incoming local p).
Proof.
  intros Hp Hv Hi Hl Hq. destruct (transfer_clear peer incoming q Hq) as [Ht Htv]. pose proof (clear_ne _ _ Ht).
  unfold applyPlan. cbv zeta. apply respects_if; [by apply resumeAt_frame|].
  apply respects_bind; [apply respects_if; [by apply verifyPart_frame|apply respects_ret]|]. intros [r|]; [apply respects_ret|].
  apply respects_bind; [apply respects_if; [apply storeConflict_frame; [done|intros _; by destruct (incomingWins p)]|apply respects_ret]|].
  intros [r|]; [apply respects_ret|].
  apply respects_bind; [apply respects_if; [by apply place_frame|apply respects_ret]|]. intros placed. same_bytes.
Qed.
(** The local record a merge decides against. *)
Definition localRecord (path : QString) (s : Store) : jobj := (entry E path (refresh E path s).2).1.1.
Lemma merge_untouched peer incoming commit q s :
  let path := toStr incoming.["path"] in
  clear (physical path) q → q ≠ previewOf (physical path) →
  clear (physical (conflictPath incoming)) q → clear (physical (conflictPath (localRecord path s))) q →
  private q = false → sameAt q s (merge E peer incoming commit s).2.
Proof.
  intros path Hp Hv Hi Hl Hq. unfold merge. cbv zeta. fold path. unfold bind at 1. unfold localRecord in Hl.
  pose proof (refresh_frame path q s) as H1.
  destruct (refresh E path s) as [fresh s1]. cbn [snd] in *. transitivity s1; [done|]. clear H1. revert Hl.
  destruct (negb fresh); [intros; apply respects_failed|].
  unfold bind at 1. pose proof (sameAt_quiet q _ (quiet_entry E path) s1) as H2.
  destruct (entry E path s1) as [[local st] s2]. cbn [fst snd] in *. intros Hl. transitivity s2; [done|]. clear H2.
  match goal with |- sameAt q s2 (?m s2).2 => revert s2; change (respects (sameAt q) m) end.
  do 2 (apply respects_bind; [same_bytes|]; intros ?).
  do 4 (apply respects_if; [same_bytes|]).
  apply respects_if; [same_bytes|]. apply respects_bind; [apply retained_frame|]. intros [retain|]; [|same_bytes].
  apply respects_if; [same_bytes|]. by apply applyPlan_frame.
Qed.

(** A plan that the local record wins leaves its file alone. *)
Lemma applyPlan_yields peer path commit incoming local p :
  physical path ≠ [] → (conflict p = true → toStr incoming.["path"] = path ∧ hex (toStr incoming.["version"]) = true) →
  incomingWins p = false →
  respects (sameAt (physical path)) (applyPlan E peer path commit incoming local p).
Proof.
  intros Hp Hc Hw. destruct (transfer_clear peer incoming (physical path)) as [Ht Htv]; [by apply physical_public|].
  pose proof (clear_ne _ _ Ht).
  unfold applyPlan. cbv zeta. rewrite Hw. cbn [andb]. apply respects_if; [by apply resumeAt_frame|].
  apply respects_bind; [apply respects_if; [by apply verifyPart_frame|apply respects_ret]|]. intros [r|]; [apply respects_ret|].
  apply respects_bind.
  { destruct (conflict p); [|apply respects_ret]. destruct (Hc eq_refl) as [Hi Hv]. apply storeConflict_frame; [done|]. intros Hn.
    rewrite <- Hi in Hp |- *. by apply conflict_clear. }
  intros [r|]; [apply respects_ret|]. same_bytes.
Qed.

Lemma transfer_ne peer e k : transfer peer e ≠ physical k.
Proof.
  intros Eq. pose proof (transfer_private peer e) as Hx. rewrite Eq in Hx. unfold private in Hx.
  destruct (decide (physical k = [])) as [E0|Hk]; [by rewrite E0 in Hx|].
  apply physical_public in Hk. congruence.
Qed.
Lemma winning_conflict_frame path part l clock q :
  q ≠ physical (conflictPath l) → respects (sameAt q) (storeConflict E true path part l clock).
Proof. intros Ht. unfold storeConflict. cbv beta zeta iota. rewrite copy_path. same_bytes. Qed.
Lemma clear_transfer peer e k :
  physical k ≠ [] → clear (physical k) (transfer peer e) ∧ transfer peer e ≠ previewOf (physical k).
Proof.
  intros Hk. pose proof (transfer_private peer e) as Ht. pose proof (physical_public _ Hk) as Hp.
  change (private (physical k) = false) in Hp.
  assert (slash ∈ physical k) as Hs.
  { destruct (physical_inv k Hk) as (s & _ & _ & -> & _). apply elem_of_app. right. by left. }
  split.
  - apply clear_public_private; [done| |done|apply transfer_archival]. intros E0. rewrite E0 in Hs. by revert Hs; by_compute.
  - intros E0. rewrite E0, private_preview in Ht by done. congruence.
Qed.
(** A file that is put in its place has the bytes of its transfer. *)
Lemma place_installs part target winner local s s' :
  clear target part → part ≠ previewOf target → winner.["kind"] = JS "file" →
  place part target winner local s = (true, s') → bytesAt (files s') target = bytesAt (files s) part.
Proof.
  intros Hne Hp Hk. pose proof (clear_archival _ _ Hne). unfold place. rewrite Hk. cbv zeta. rewrite bool_decide_eq_true_2 by done.
  unfold bind. destruct (bool_decide (local.["kind"] = JS "directory")); cbn [negb ret].
  - destruct (onFiles (fremove target) s) as [ok s1] eqn:E1. apply onFiles_eq in E1 as [_ F1].
    destruct ok; cbn [negb]; [|done]. intros [Hok F2]%onFiles_eq. destruct (finstall _ _ _) as [b w] eqn:Ei.
    cbn in Hok, F2. subst b. rewrite F2. apply install_bytes in Ei as ->; [|done]. rewrite F1. by apply remove_frame.
  - intros [Hok F2]%onFiles_eq. destruct (finstall _ _ _) as [b w] eqn:Ei.
    cbn in Hok, F2. subst b. rewrite F2. by apply install_bytes in Ei.
Qed.

(** A winning file is at its path with the bytes its record names. *)
Lemma applyPlan_installs peer path incoming local p s s' r :
  physical path ≠ [] →
  incomingWins p = true → same p = false → incoming.["kind"] = JS "file" → toStr incoming.["hash"] ≠ [] →
  applyPlan E peer path true incoming local p s = (r, s') → toBool r.["ok"] = true →
  ∃ b, bytesAt (files s') (physical path) = Some b ∧ digest b = toStr incoming.["hash"].
Proof.
  intros Hph Hw Hs Hk Hh. set (part := transfer peer incoming).
  unfold applyPlan. cbv zeta. rewrite Hw, Hs, Hk. rewrite bool_decide_eq_true_2 by done. cbn [andb orb negb]. fold part.
  unfold bind at 1. destruct (verifyPart part incoming s) as [broken s1] eqn:Eb.
  destruct broken as [why|].
  { intros [-> ->]%pair_inv Hok. pose proof (verifyPart_refuses part incoming s) as Hn. rewrite Eb in Hn. cbn in Hn. congruence. }
  apply verifyPart_bytes in Eb as (b & Hb & Hd); [|done].
  unfold bind at 1.
  assert (sameAt part s1 ((if conflict p then storeConflict E true path part local (clock p) else ret None) s1).2) as Hsame.
  { apply respects_if; [|apply respects_ret]. apply winning_conflict_frame, transfer_ne. }
  destruct ((if conflict p then storeConflict E true path part local (clock p) else ret None) s1) as [refused s2] eqn:Es.
  cbn [snd] in Hsame.
  destruct refused as [why|].
  { intros [-> ->]%pair_inv Hok. destruct (conflict p); [|done].
    pose proof (storeConflict_refuses true path part local (clock p) s1) as Hn. rewrite Es in Hn. cbn in Hn. congruence. }
  unfold bind at 1. destruct (place _ _ _ _ s2) as [placed s3] eqn:Ep. destruct placed; cbn [negb]; [|by intros [-> ->]%pair_inv].
  apply place_installs in Ep; [|by apply clear_transfer|by apply clear_transfer|done].
  unfold bind at 1. destruct (onFiles _ s3) as [st s4] eqn:E4. apply onFiles_eq in E4 as [_ F4].
  destruct st as [st|]; [|by intros [-> ->]%pair_inv]. unfold bind at 1.
  match goal with |- context [save E ?e ?x s4] => pose proof (bytes_save e x s4) as Hsv; destruct (save E e x s4) as [[] s5] end;
    [|by intros [-> ->]%pair_inv].
  intros [-> ->]%pair_inv _. exists b. split; [|done]. cbn [snd] in Hsv. by rewrite Hsv, F4, state_frame, Ep, Hsame.
Qed.

(** ** Where a merge that succeeds has gone *)
Section outcomes.
Hypothesis sql_ok : ∀ st, sql E st = true.
Variables (peer : QString) (incoming : jobj) (commit : bool).
Let path := toStr incoming.["path"].

(** The plan a store makes for the incoming record. *)
Definition mirrors (s : Store) : bool := negb (isEmpty (metaOf (db s) "host")).
Definition localOf (s : Store) : jobj := (entryOf (db s) path).1.
Definition payloadAbsent (s : Store) : bool := bool_decide ((entryOf (db s) path).2 = u "remote").
Definition proposedTo (s : Store) : bool := negb (mirrors s) && jcontains incoming "baseRevision".
Definition relationIn (s : Store) : Z :=
  relationOf (mirrors s) (proposedTo s) (payloadAbsent s) (localOf s) incoming
    (Namespace.object (nsSql E) (journalOf s) path).
Definition planIn (s : Store) (retain : bool) : Plan :=
  planOf (mirrors s) (proposedTo s) (payloadAbsent s) retain (relationIn s) incoming (localOf s).

(** It failed, or only the catalog was written, or the plan was carried out. *)
Inductive outcome (s : Store) (r : jobj) (s' : Store) : Prop :=
| failedMerge : toBool r.["ok"] = false → (∀ q, sameAt q s s') → outcome s r s'
| settledMerge : (∀ q, sameAt q s s') → outcome s r s'
| plannedMerge s1 retain :
    (∀ q, sameAt q s s1) → db s1 = db (refresh E path s).2 → journalOf s1 = journalOf (refresh E path s).2 →
    0 < relationIn s1 →
    (mirrors s1 = true → peer = metaOf (db s1) "host"
       ∧ Namespace.contains (nsSql E) (journalOf s1) incoming = true) →
    (retain = true → (localOf s1).["kind"] = JS "directory" ∧ incoming.["kind"] ≠ JS "directory") →
    applyPlan E peer path commit incoming (localOf s1) (planIn s1 retain) s1 = (r, s') →
    outcome s r s'.

Lemma failed_outcome s why s1 r s' : (∀ q, sameAt q s s1) → failed why s1 = (r, s') → outcome s r s'.
Proof. intros Hs [-> ->]%pair_inv. by apply failedMerge. Qed.
Lemma saved_outcome s s1 e stamp r s' :
  (∀ q, sameAt q s s1) →
  (let! ok := save E e stamp in if ok then ret result else failed []) s1 = (r, s') → outcome s r s'.
Proof.
  intros Hs. unfold bind. pose proof (λ q, sameAt_save q e stamp s1) as Hq.
  destruct (save E e stamp s1) as [[] s2]; [|apply failed_outcome; intros q; etransitivity; [apply Hs|apply Hq]].
  intros [_ ->]%pair_inv. apply settledMerge. intros q. etransitivity; [apply Hs|apply Hq].
Qed.

Lemma merge_outcome s r s' : merge E peer incoming commit s = (r, s') → outcome s r s'.
Proof.
  unfold merge. cbv zeta. fold path. unfold bind at 1. pose proof (λ q, refresh_frame path q s) as H1.
  destruct (refresh E path s) as [[] s1] eqn:Er; cbn [negb snd] in *; [|by apply failed_outcome].
  unfold bind at 1. rewrite entry_ok by done.
  destruct (entryOf (db s1) path) as [local st] eqn:El.
  unfold bind at 1. rewrite meta_ok by done. unfold bind at 1. rewrite journal_ok by done.
  fold (mirrors s1). destruct (mirrors s1 && _) eqn:Eh; [by apply failed_outcome|].
  destruct (mirrors s1 && _ && _); [by apply saved_outcome|].
  set (rel := relationOf _ _ _ _ _ _).
  destruct ((rel =? 0) && _); [by apply failed_outcome|].
  destruct (Z.leb_spec rel 0) as [Hrel|Hrel].
  { destruct (mirrors s1); [by apply saved_outcome|]. intros [_ ->]%pair_inv. by apply settledMerge. }
  destruct (64 <? _); [by apply failed_outcome|].
  unfold bind at 1. destruct (retained path local incoming s1) as [kept s2] eqn:Ek.
  assert (H2 : ∀ q, sameAt q s s2).
  { intros q. etransitivity; [apply H1|]. pose proof (retained_frame path local incoming q s1) as Hq. by rewrite Ek in Hq. }
  destruct kept as [retain|]; [|by apply failed_outcome].
  assert (Hdb : db s2 = db s1 ∧ container s2 = container s1 ∧ id s2 = id s1
    ∧ (retain = true → local.["kind"] = JS "directory" ∧ incoming.["kind"] ≠ JS "directory")).
  { revert Ek. unfold retained. guard_case; [|by intros [= <- <-]].
    unfold bind, onFiles. destruct (flist _ _) as [[names|] w]; [|done]. intros [[= <-] <-]%pair_equal_spec.
    bool_hyps. by split_and!. }
  destruct Hdb as (Hdb & Hco & Hid & Hret). destruct (mirrors s1 && retain && _); [by apply saved_outcome|].
  intros Hp. assert (mirrors s2 = mirrors s1) as Em by (unfold mirrors; by rewrite Hdb).
  assert (journalOf s2 = journalOf s1) as Ej by (unfold journalOf; by rewrite Hdb, Hco, Hid).
  assert (relationIn s2 = rel) as Erel
    by (unfold relationIn, proposedTo, payloadAbsent, localOf; by rewrite Em, Ej, Hdb, El).
  assert (localOf s2 = local) as Elo by (unfold localOf; by rewrite Hdb, El).
  apply (plannedMerge _ _ _ s2 retain); [done|by rewrite Er|by rewrite Er|lia| |by rewrite Elo|].
  - rewrite Em, Hdb, Ej. intros Hm. rewrite Hm in Eh. cbn in Eh. bool_hyps. split; [|done].
    by apply dec_stable.
  - rewrite Elo. unfold planIn. rewrite Erel, Em, Elo. unfold proposedTo, payloadAbsent. by rewrite Em, Hdb, El.
Qed.
End outcomes.

(** A carried out plan accounts for the bytes of both sides. *)
Lemma applyPlan_accounts peer path incoming local p s s' r :
  physical path ≠ [] → toStr incoming.["path"] = path →
  validRecord incoming = true → (jempty local = false → validRecord local = true ∧ toStr local.["path"] = path) →
  (∃ mirror proposed absent retain rel, p = planOf mirror proposed absent retain rel incoming local) →
  applyPlan E peer path true incoming local p s = (r, s') → toBool r.["ok"] = true →
  let loser := if incomingWins p then local else incoming in
  let target := physical (conflictPath loser) in
  (incomingWins p = false → bytesAt (files s') (physical path) = bytesAt (files s) (physical path))
  ∧ (incomingWins p = true → same p = false → incoming.["kind"] = JS "file" →
     ∃ b, bytesAt (files s') (physical path) = Some b ∧ digest b = toStr incoming.["hash"])
  ∧ (conflict p = true → target ≠ [] ∧ target ≠ physical path
     ∧ (incomingWins p = true ∧ bytesAt (files s') target = bytesAt (files s) (physical path)
        ∨ ∃ b, bytesAt (files s') target = Some b ∧ digest b = toStr loser.["hash"])).
Proof.
  intros Hp Hi Hv Hl (mirror & proposed & absent & retain & rel & ->) Hr Hok. cbv zeta.
  set (p := planOf _ _ _ _ _ _ _) in *. destruct (validRecord_version _ Hv) as [_ Hhex]. split_and!.
  - intros Hw. pose proof (applyPlan_yields peer path true incoming local p Hp (λ _, conj Hi Hhex) Hw s) as Hy.
    by rewrite Hr in Hy.
  - intros Hw Hs Hk. eapply applyPlan_installs; [done..| |exact Hr|done]. by apply validRecord_hash.
  - intros Hc. destruct (plan_conflict _ _ _ _ _ _ _ Hc) as (_ & Hkind & _). fold p in Hkind.
    assert (jempty local = false → toStr local.["path"] = path) as Hlp by (intros; by apply Hl).
    assert (validRecord (if incomingWins p then local else incoming) = true
      ∧ toStr (if incomingWins p then local else incoming).["path"] = path) as [Hvl Hpl].
    { destruct (incomingWins p); [|done]. apply Hl. destruct (jempty local) eqn:E0; [|done].
      unfold jempty in E0. bool_hyps. rewrite E0 in Hkind. done. }
    eapply (applyPlan_keeps mirror proposed absent retain rel incoming local peer path s s' r); try done.
    + by apply validRecord_version.
    + by apply validRecord_hash.
Qed.
End keeping.
End with_files.
End MergeLaws.
