(* ===== verification/Protocol.v ===== *)
(** The promises of Replica::handle, src/Sync/Replica.cpp, proved of whole
    requests: the catalog, the manifests, the receipts and the cursors. *)
From S2P Require Import Prelude Qt Records Base64 Namespace Files Store Merge Scan Drive Requests Invariants.
Open Scope Z_scope.

Module Protocol.
Import Records Store Requests Invariants.

Section with_files.
Context {PF : Platform} {PL : PlatformLaws} {FS : FileStore} (E : Env).

(** ** The catalog *)
Definition keepsCatalog (s s' : Store) : Prop :=
  container s' = container s ∧ id s' = id s
  ∧ (catalog E s → catalog E s' ∧ metaOf (db s') "host" = metaOf (db s) "host").

Lemma catalog_same s s' : db s' = db s → container s' = container s → id s' = id s → catalog E s → catalog E s'.
Proof.
  intros Hd Hc Hi [H1 H2 H3 H4 H5 H6].
  assert (journalOf s' = journalOf s) as Hj by (unfold journalOf; by rewrite Hd, Hc, Hi).
  split; rewrite ?Hj, ?Hd; done.
Qed.

Lemma catalog_counter v s :
  catalog E s → catalog E (set_db (set_metadata (<[u "counter" := v]> (metadata (db s))) (db s)) s).
Proof.
  intros [H1 H2 H3 H4 H5 H6].
  assert (∀ k, k ≠ "counter"%string → metaOf (set_metadata (<[u "counter" := v]> (metadata (db s))) (db s)) k = metaOf (db s) k)
    as Hm by (intros k Hk; by apply metaOf_set).
  assert (journalOf (set_db (set_metadata (<[u "counter" := v]> (metadata (db s))) (db s)) s) = journalOf s) as Hj
    by (unfold journalOf; cbn [db set_db]; by rewrite !Hm).
  split; rewrite ?Hj; cbn [db set_db]; unfold top; rewrite ?Hm by done; done.
Qed.

#[local] Instance keepsCatalog_tame : (∀ st, sql E st = true) → Tame E keepsCatalog.
Proof.
  intros sql_ok. split.
  - split; [intros s; split_and!; auto|]. intros a b c (H1 & H2 & H3) (H1' & H2' & H3').
    split_and!; [congruence..|]. intros H. apply H3 in H as [H Eh]. apply H3' in H as [H Eh']. split; congruence.
  - intros e s. split_and!; [done..|]. intros H. split; [by apply (catalog_same s)|done].
  - intros w s. split_and!; [done..|]. intros H. split; [by apply (catalog_same s)|done].
  - intros l s. split_and!; [done..|]. intros H. split; [by apply (catalog_same s)|done].
  - intros p b s. split_and!; [done..|]. intros H. split; [by apply (catalog_same s)|done].
  - intros v s. split_and!; [done..|]. intros H. split; [by apply catalog_counter|]. cbn. by apply metaOf_set.
  - intros e stamp s. destruct (framed_save E e stamp s) as (d & err & Es).
    destruct (save E e stamp s) as [ok s'] eqn:Ev. cbn in *. split_and!; [by rewrite Es|by rewrite Es|].
    intros H. destruct (save_catalog E sql_ok e stamp s ok s' H Ev) as (Hc & Hf & Ht). split; [done|].
    destruct ok; [|by rewrite (Hf eq_refl)]. destruct (Ht eq_refl) as [r Hr]. by apply (saved_host _ _ _ _ _ _ Hr).
  - intros x s. split_and!; [done..|]. intros [H1 H2 H3 H4 H5 H6]. split; [|done]. by split.
  - intros s s' (Hc & Hi & _). split_and!; [done..|]. intros H. split; [by apply (catalog_same s)|done].
Qed.
#[local] Instance keepsCatalog_manifests (sql_ok : ∀ st, sql E st = true) :
  @TameManifests _ _ E keepsCatalog (keepsCatalog_tame sql_ok).
Proof. split. intros m s. split_and!; [done..|]. intros H. split; [by apply (catalog_same s)|done]. Qed.

(** ** Manifests *)
Definition sameManifests (s s' : Store) : Prop := manifests s' = manifests s.
#[local] Instance sameManifests_tame : Tame E sameManifests.
Proof.
  split; try done.
  - split; [intros s; reflexivity|]. intros a b c H1 H2. unfold sameManifests in *. congruence.
  - intros e stamp s. destruct (framed_save E e stamp s) as (d & err & Es). unfold sameManifests. by rewrite Es.
Qed.

(** The bytes a manifest's identifier is the digest of. *)
Definition lines (es : list jobj) : list N := concat (map (λ e, json e ++ [10%N]) es).
Definition entrySequence (e : jobj) : Z := jlong e.["sequence"].
(** The change numbers of entries, each above the one before it. *)
Fixpoint ascending (from : Z) (es : list jobj) (to : Z) : Prop :=
  match es with
  | [] => from = to
  | e :: es => from < entrySequence e ∧ ascending (entrySequence e) es to
  end.
Definition enrolment (es : list jobj) : list (QString * QString) :=
  map (λ e : jobj, (toStr e.["path"], digest (json e))) es.
(** What a manifest has digested and enrolled is exactly a list of entries. *)
Record enrolled (m : Manifest) (es : list jobj) : Prop := {
  enr_digested : digested m = lines es;
  enr_valid : Forall (λ e, validRecord e = true ∧ entrySequence e ≤ through m) es;
  enr_ascending : ascending (after m) es (msequence m);
  enr_members : jempty (msnapshot m) = false →
    NoDup (enrolment es).*1 ∧ members m = list_to_map (enrolment es);
  enr_applied : applied m ⊆ dom (members m)
}.
(** It is complete only when the digest of that list is what the peer announced. *)
Definition manifest_ok (m : Manifest) : Prop :=
  ∃ es, enrolled m es ∧ next m = Z.of_nat (List.length es)
        ∧ (complete m = true → digest (lines es) = mid m ∧ next m = total m).
(** The fields a page never changes. *)
Definition heading (m : Manifest) := (mid m, mreplica m, msnapshot m, (next m, total m, after m, through m), complete m).

Lemma ascending_snoc from es mid e to :
  ascending from es mid → mid < entrySequence e → entrySequence e = to → ascending from (es ++ [e]) to.
Proof.
  revert from. induction es as [|x es IH]; intros from; cbn.
  - intros -> H <-. done.
  - intros [H1 H2] H3 H4. split; [done|]. by apply IH.
Qed.

Lemma number_spec v n : number v = Some n → jlong v = n ∧ 0 ≤ n ≤ MaxCounter.
Proof.
  unfold number, jlong, toLongLong0. destruct (toLongLong (toStr v)) as [z|]; [|done]. cbn.
  guard_case; [|done]. bool_hyps. by intros [= <-].
Qed.

Lemma lines_snoc es e : lines (es ++ [e]) = lines es ++ json e ++ [10%N].
Proof. unfold lines. rewrite map_app, concat_app. cbn. by rewrite app_nil_r. Qed.

Lemma digestEntry_enrolled m es e n :
  enrolled m es → validRecord e = true → number e.["sequence"] = Some n → msequence m < n ≤ through m →
  jempty (msnapshot m) = true → enrolled (digestEntry m e n) (es ++ [e]).
Proof.
  intros [Hd Hv Ha Hm Hp] Hval [En _]%number_spec Hn Hs. split; cbn.
  - by rewrite Hd, lines_snoc.
  - apply Forall_app. split; [done|]. constructor; [|done]. split; [done|]. unfold entrySequence. lia.
  - eapply ascending_snoc; [done| |done]. unfold entrySequence. lia.
  - congruence.
  - done.
Qed.

Lemma planEntry_fields m e current :
  digested (planEntry m e current) = digested m ∧ msequence (planEntry m e current) = msequence m
  ∧ members (planEntry m e current) = <[toStr e.["path"] := digest (json e)]> (members m)
  ∧ applied (planEntry m e current) = applied m ∧ heading (planEntry m e current) = heading m.
Proof. unfold planEntry. repeat guard_case; by split_and!. Qed.

Lemma planEntry_enrolled m es e n current :
  enrolled m es → validRecord e = true → number e.["sequence"] = Some n → msequence m < n ≤ through m →
  jempty (msnapshot m) = false → members m !! toStr e.["path"] = None →
  enrolled (planEntry (digestEntry m e n) e current) (es ++ [e]).
Proof.
  intros [Hd Hv Ha Hm Hp] Hval [En _]%number_spec Hn Hs Hnone.
  destruct (planEntry_fields (digestEntry m e n) e current) as (F1 & F2 & F3 & F4 & F5).
  injection F5 as _ _ F6 _ _ F7 F8 _. destruct (Hm Hs) as [Hnd Hmem].
  split; rewrite ?F1, ?F2, ?F3, ?F4, ?F6, ?F7, ?F8; cbn [digested digestEntry through after msequence members applied msnapshot].
  - by rewrite Hd, lines_snoc.
  - apply Forall_app. split; [done|]. constructor; [|done]. split; [done|]. unfold entrySequence. lia.
  - eapply ascending_snoc; [done| |done]. unfold entrySequence. lia.
  - intros _. rewrite Hmem in Hnone. apply not_elem_of_list_to_map in Hnone.
    unfold enrolment. rewrite map_app. cbn [map]. split.
    + rewrite fmap_app. apply NoDup_app. split_and!; [done| |by apply NoDup_singleton].
      intros x Hx ->%list_elem_of_singleton. done.
    + rewrite list_to_map_snoc by done. by rewrite Hmem.
  - rewrite dom_insert. set_solver.
Qed.

Lemma manifestEntries_enrolled current m es entries m' :
  enrolled m es → manifestEntries current m entries = inl m' →
  enrolled m' (es ++ map toObj entries) ∧ heading m' = heading m.
Proof.
  revert m es. induction entries as [|v entries IH]; intros m es He; cbn [manifestEntries map].
  - intros [= <-]. by rewrite app_nil_r.
  - destruct (number _) as [n|] eqn:En; [|done]. guard_case; [done|]. bool_hyps.
    change (jempty (msnapshot (digestEntry m (toObj v) n))) with (jempty (msnapshot m)).
    destruct (jempty (msnapshot m)) eqn:Es.
    + intros Hr. apply (IH _ (es ++ [toObj v])) in Hr; [|by eapply digestEntry_enrolled; eauto].
      by rewrite <- app_assoc in Hr.
    + guard_case; [done|]. bool_hyps. intros Hr.
      match goal with Hn : ¬ is_Some _ |- _ => apply eq_None_not_Some in Hn end.
      apply (IH _ (es ++ [toObj v])) in Hr; [|by eapply planEntry_enrolled; eauto].
      rewrite <- app_assoc in Hr. destruct Hr as [Hx ->]. split; [done|].
      destruct (planEntry_fields (digestEntry m (toObj v) n) (toObj v) (current (toStr (toObj v).["path"]))) as (_ & _ & _ & _ & ->).
      done.
Qed.

Lemma manifestStep_ok current m entries m' :
  manifest_ok m → complete m = false → manifestStep current m entries = inl m' → manifest_ok m'.
Proof.
  intros (es & He & Hn & _) Hc. unfold manifestStep. destruct (manifestEntries _ _ _) as [m1|] eqn:Em; [|done].
  apply (manifestEntries_enrolled _ _ es) in Em as [H1 H2]; [|done]. injection H2 as Hid _ Hsn Hnx Ht Ha Hth Hco.
  assert (∀ d, manifest_ok (advance m1 (Z.of_nat (List.length entries)) d) ∨
    d = true ∧ ¬ (digest (digested m1) = mid m1 ∧ next m1 + Z.of_nat (List.length entries) = total m1)) as Hadv.
  { intros d. destruct (decide (d = true ∧ ¬ (digest (digested m1) = mid m1 ∧ next m1 + Z.of_nat (List.length entries) = total m1)))
      as [|Hd]; [by right|left]. exists (es ++ map toObj entries). split_and!.
    - destruct H1. by split.
    - cbn. rewrite Hnx, Hn, length_app, length_map. lia.
    - cbn. intros ->. rewrite <- (enr_digested _ _ H1). apply dec_stable. intros Hx. by apply Hd. }
  guard_case.
  - guard_case; [done|]. intros [= <-]. bool_hyps. destruct (Hadv true) as [|[_ Hx]]; [done|].
    exfalso. apply Hx. split; [|done]. by apply dec_stable.
  - intros [= <-]. destruct (Hadv false) as [|[Hx _]]; done.
Qed.

Definition manifests_ok (s : Store) : Prop := ∀ peer m, manifests s !! peer = Some m → manifest_ok m.
Definition keepsManifests (s s' : Store) : Prop := manifests_ok s → manifests_ok s'.
#[local] Instance keepsManifests_preorder : PreOrder keepsManifests.
Proof. split; [intros s H; exact H|]. intros a b c H1 H2 H. by apply H2, H1. Qed.

Lemma keeps_same {A} (m : M A) : respects sameManifests m → respects keepsManifests m.
Proof. intros H s Hs. unfold manifests_ok. rewrite (H s). exact Hs. Qed.

Lemma startManifest_ok i r sn t a th : manifest_ok (startManifest i r sn t a th).
Proof.
  exists []. split_and!; [|done|done]. split; cbn; try done. split; [constructor|done].
Qed.

Lemma manifests_ok_put peer m s : manifests_ok s → manifest_ok m → manifests_ok (putManifest peer m s).2.
Proof. intros Hs Hm peer' m'. cbn. intros [[_ <-]|[_ H]]%lookup_insert_Some; [done|eauto]. Qed.

Lemma openManifest_ok peer request snapshot p : respects keepsManifests (openManifest E peer request snapshot p).
Proof.
  unfold openManifest. apply respects_if; [apply respects_ret|]. apply respects_bind; [apply keeps_same; tame|].
  intros ledger. cbv zeta. apply respects_if; [apply respects_ret|]. apply respects_bind; [apply respects_get|].
  intros s. apply respects_if; [apply respects_ret|]. apply respects_bind; [|intros _; apply respects_ret].
  intros s' Hs'. apply manifests_ok_put; [done|apply startManifest_ok].
Qed.

Lemma manifestRequest_ok peer request : respects keepsManifests (manifestRequest E peer request).
Proof.
  unfold manifestRequest. apply respects_bind; [apply keeps_same, (respects_ready E)|]. intros [|]; cbn [negb];
    [|apply respects_failed]. cbv zeta. apply respects_bind; [apply keeps_same; tame|]. intros host.
  apply respects_if; [apply respects_failed|]. apply respects_bind; [apply respects_get|]. intros s0.
  destruct (pageOf _ _) as [p|]; [|apply respects_failed].
  apply respects_bind; [apply openManifest_ok|]. intros [why|]; [apply respects_failed|].
  intros s Hs. unfold bind at 1, get. destruct (manifests s !! peer) as [m|] eqn:Em; [|done].
  destruct (continues request _ p m) eqn:Ec; [|done]. cbn [negb].
  unfold bind at 1. pose proof (respects_journal E s : sameManifests _ _) as Hj.
  destruct (journal E s) as [ledger s1]. cbn in Hj.
  assert (manifests_ok s1) as Hs1 by (unfold manifests_ok; by rewrite Hj).
  destruct (manifestStep _ m _) as [m'|why] eqn:Est; unfold bind.
  - assert (manifest_ok m') as Hm'.
    { eapply manifestStep_ok; [by eapply Hs| |exact Est]. unfold continues in Ec. by bool_hyps. }
    exact (manifests_ok_put peer m' s1 Hs1 Hm').
  - intros peer' m'. cbn. intros [_ H]%lookup_delete_Some. eauto.
Qed.

(** *** The mark that a member has been applied *)
Section marking.
Variables (peer path : QString) (announced : option Manifest).
Definition marked (s s' : Store) : Prop :=
  manifests s' = manifests s
  ∨ (∃ m, announced = Some m ∧ jempty (msnapshot m) = false) ∧ manifests s' = manifests (markApplied peer path s).2.
Definition marks {A} (m : M A) : Prop := ∀ s, marked s (m s).2.

Lemma marks_same {A} (m : M A) : respects sameManifests m → marks m.
Proof. intros H s. left. apply H. Qed.
Lemma marks_bind {A B} (m : M A) (k : A → M B) : respects sameManifests m → (∀ a, marks (k a)) → marks (bind m k).
Proof.
  intros Hm Hk s. unfold bind. specialize (Hm s). destruct (m s) as [a s1]. cbn in Hm.
  destruct (Hk a s1) as [H|[H1 H]]; [left; by rewrite H|right; split; [done|]]. rewrite H.
  unfold markApplied, modify. cbn [snd]. rewrite Hm. by destruct (manifests s !! peer).
Qed.
Lemma marks_if {A} (b : bool) (m1 m2 : M A) : marks m1 → marks m2 → marks (if b then m1 else m2).
Proof. by destruct b. Qed.
End marking.

Lemma storeRequest_marks peer action request e announced :
  marks peer (toStr e.["path"]) announced (storeRequest E peer action request e announced).
Proof.
  unfold storeRequest. apply marks_if; [apply marks_same; tame|]. cbv zeta.
  destruct (if _ : bool then _ else _) as [payload|]; [|apply marks_same; tame].
  apply marks_if; [apply marks_same; tame|].
  apply marks_bind; [apply respects_if; [apply (respects_protect E)|tame]|]. intros leased.
  apply marks_if; [apply marks_same; tame|].
  apply marks_bind; [unfold stageInline; tame|]. intros staged. apply marks_if; [apply marks_same; tame|].
  apply marks_bind; [tame|]. intros _. apply marks_bind; [apply (respects_merge E)|]. intros r.
  apply marks_bind; [tame|]. intros _. apply marks_bind; [tame|]. intros cleared.
  apply marks_if; [apply marks_same; tame|].
  apply marks_bind; [unfold settleLease; tame; try apply (respects_removeLease E)|]. intros _.
  destruct announced as [m|]; [|apply marks_same; tame].
  destruct (jempty (msnapshot m)) eqn:Em; cbn [negb andb]; [apply marks_same; tame|].
  destruct (toBool r.["ok"] && toBool r.["complete"]); [|apply marks_same; tame].
  intros s. right. split; [eauto|]. unfold bind. done.
Qed.

Lemma markApplied_ok peer path m s :
  manifests_ok s → manifests s !! peer = Some m → path ∈ dom (members m) →
  manifests_ok (markApplied peer path s).2.
Proof.
  intros Hs Hm Hp peer' m'. unfold markApplied, modify. cbn [snd]. rewrite Hm. cbn.
  intros [[<- <-]|[_ H]]%lookup_insert_Some; [|eauto].
  destruct (Hs _ _ Hm) as (es & [] & Hn & Hc). exists es. split_and!; [|done|done].
  split; try done. cbn. set_solver.
Qed.

Lemma member_lookup request e m :
  isMember request e m = true → members m !! toStr e.["path"] = Some (digest (json e)).
Proof.
  unfold isMember. intros H. bool_hyps. pose proof (digest_hex (json e)) as Hx.
  destruct (members m !! _); cbn in *; [by f_equal|].
  match goal with H0 : [] = digest _ |- _ => rewrite <- H0 in Hx end. done.
Qed.
Lemma member_enrolled request e m : isMember request e m = true → toStr e.["path"] ∈ dom (members m).
Proof. intros H%member_lookup. apply elem_of_dom. by eexists. Qed.

Lemma lockedRequest_ok render peer action request :
  respects keepsManifests (lockedRequest E render peer action request).
Proof.
  unfold lockedRequest. apply respects_bind; [apply keeps_same, (respects_lock E)|]. intros [|]; cbn [negb];
    [|apply respects_failed].
  apply respects_if; [apply keeps_same, (respects_snapshotComplete E)|].
  intros s Hs. unfold bind at 1. pose proof (respects_announcedFor E peer request s : sameManifests _ _) as Ha.
  destruct (announcedFor peer request s) as [announced s1] eqn:Ea. cbn in Ha.
  assert (manifests_ok s1) as Hs1 by (unfold manifests_ok; by rewrite Ha).
  assert (∀ m, announced = Some (Some m) → manifests s1 !! peer = Some m) as Hm.
  { intros m ->. rewrite Ha. unfold announcedFor, bind, get in Ea. revert Ea.
    guard_case; [done|]. guard_case; [|done]. destruct (manifests s !! peer); [|done].
    guard_case; [|done]. by intros [= <- _]. }
  destruct announced as [manifest|]; [|done]. cbv zeta.
  set (e := toObj request.["entry"]).
  destruct (negb (validRecord e)); [done|]. guard_case; [done|].
  destruct (match manifest with Some m => _ | None => _ end) eqn:Emem in |- *; [done|].
  unfold bind at 1. pose proof (respects_pinned E request e s1 : sameManifests _ _) as Hp.
  destruct (pinned E request e s1) as [[|] s2]; cbn [negb snd] in *;
    assert (manifests_ok s2) as Hs2 by (unfold manifests_ok; by rewrite Hp); [|done].
  guard_case; [apply (keeps_same _ (respects_preview E _ _)), Hs2|].
  guard_case; [apply (keeps_same _ (respects_readRequest E _ _)), Hs2|].
  guard_case; [|guard_case; [apply (keeps_same _ (respects_chunk E _ _ _)), Hs2|exact Hs2]].
  destruct (storeRequest_marks peer action request e manifest s2) as [Hsame|[(m & -> & Hsn) Hmark]].
  - unfold manifests_ok. by rewrite Hsame.
  - specialize (Hm m eq_refl). cbn in Emem. rewrite Hsn in Emem. cbn in Emem. bool_hyps.
    pose proof (markApplied_ok peer (toStr e.["path"]) m s2 Hs2) as Hok. unfold manifests_ok. rewrite Hmark.
    apply Hok; [by rewrite Hp|by eapply member_enrolled].
Qed.

Lemma handle_manifests_ok render drive indexing peer request refreshIndex :
  (∀ r, respects sameManifests (drive r)) → respects sameManifests indexing →
  respects keepsManifests (handle E render drive indexing peer request refreshIndex).
Proof.
  intros Hd Hi. unfold handle. apply respects_bind; [apply respects_get|]. intros s0. cbv zeta.
  repeat (apply respects_if; [try apply respects_failed|]).
  - apply keeps_same, Hd.
  - apply keeps_same, (respects_describe E).
  - apply keeps_same. unfold journalRequest. tame. apply (respects_journalPage E).
  - apply keeps_same. unfold changesRequest. tame. apply (respects_changes E).
  - apply manifestRequest_ok.
  - apply lockedRequest_ok.
Qed.

(** ** Requests in sequence *)
(** One request of an authenticated peer, in the environment it is served in. *)
Record Event := mkEvent {
  env : Env;
  sender : QString;
  message : jobj;
  reindex : bool
}.
Section serving.
Variables (isControlFile : QString → bool) (modifiedAt : QString → option Z) (sharedStorage : option QString)
  (fileInformation : QString → QString → jobj) (prepare : QString → world → world)
  (renderPreview : list N → list N) (late : QString → bool).
Definition serveOne (E : Env) (peer : QString) (request : jobj) (refreshIndex : bool) : M jobj :=
  handle E renderPreview (Drive.driveRequest E isControlFile modifiedAt sharedStorage fileInformation prepare)
    (Scan.scan E late) peer request refreshIndex.
Definition serve (events : list Event) (s : Store) : Store :=
  foldl (λ s ev, (serveOne (env ev) (sender ev) (message ev) (reindex ev) s).2) s events.
End serving.

Section serving_laws.
Variables (isControlFile : QString → bool) (modifiedAt : QString → option Z) (sharedStorage : option QString)
  (fileInformation : QString → QString → jobj) (prepare : QString → world → world)
  (renderPreview : list N → list N) (late : QString → bool).
#[local] Abbreviation one := (serveOne isControlFile modifiedAt sharedStorage fileInformation prepare renderPreview late).

Lemma handle_keepsCatalog (sql_ok : ∀ st, sql E st = true) peer request refreshIndex :
  respects keepsCatalog (one E peer request refreshIndex).
Proof.
  apply (respects_handle E (T := keepsCatalog_tame sql_ok) (TM := keepsCatalog_manifests sql_ok)).
  - intros r. apply (respects_driveRequest E (T := keepsCatalog_tame sql_ok)).
  - apply (respects_scan E (T := keepsCatalog_tame sql_ok)).
Qed.

Lemma observed_keepsCatalog (sql_ok : ∀ st, sql E st = true) path st h : respects keepsCatalog (observed E path st h).
Proof. apply (respects_observed E (T := keepsCatalog_tame sql_ok)). Qed.
Lemma serveOne_manifests_ok peer request refreshIndex : respects keepsManifests (one E peer request refreshIndex).
Proof.
  apply handle_manifests_ok.
  - intros r. apply (respects_driveRequest E).
  - apply (respects_scan E).
Qed.
End serving_laws.

(** ** Transfers of an announced snapshot *)
Definition failing (m : M jobj) : Prop := ∀ s, toBool (m s).1.["ok"] = false.
Lemma failing_failed why : failing (failed why).
Proof. intros s. unfold failed. cbn [fst]. by jsimp. Qed.

Lemma locked_member render peer action request s m :
  manifests s !! peer = Some m → jempty (msnapshot m) = false →
  action ∈ ["begin"; "chunk"; "commit"; "apply"]%string →
  toStr request.["action"] = u action →
  toBool (lockedRequest E render peer (u action) request s).1.["ok"] = true →
  complete m = true ∧ mid m = toStr request.["manifest"] ∧ validRecord (toObj request.["entry"]) = true
  ∧ isMember request (toObj request.["entry"]) m = true.
Proof.
  intros Hm Hsn Hact Haction. unfold lockedRequest, bind at 1.
  pose proof (respects_lock E s : sameManifests _ _) as Hl. destruct (lock E s) as [[] s1]; cbn [negb snd] in *;
    [|by rewrite failing_failed].
  rewrite bool_decide_eq_false_2.
  2: { intros H. apply u_inj in H. subst action. not_listed Hact. }
  unfold bind at 1, announcedFor, bind at 1, get. rewrite Hl, Hm, Hsn, Haction.
  replace (existsb _ _) with true.
  2: { symmetry. apply existsb_true. exists action. split; [done|]. by apply bool_decide_eq_true. }
  cbn [andb negb]. destruct (jcontains request "manifest"); cbn [negb]; [|by rewrite failing_failed].
  destruct (complete m) eqn:Ec; cbn [andb]; [|by rewrite failing_failed].
  destruct (bool_decide_reflect (mid m = toStr request.["manifest"])); [|by rewrite failing_failed].
  unfold ret. cbv zeta. rewrite Hsn. cbn [negb andb].
  destruct (validRecord _); cbn [negb]; [|by rewrite failing_failed]. rewrite andb_false_r.
  destruct (isMember _ _ m); cbn [negb]; [done|by rewrite failing_failed].
Qed.

(** ** Cursors *)
(** The guards of a call leave every table as it is. *)
Definition sameDb (s s' : Store) : Prop := db s' = db s.
#[local] Instance sameDb_preorder : PreOrder sameDb.
Proof. split; [intros s; reflexivity|]. intros a b c H1 H2. unfold sameDb in *. congruence. Qed.
Lemma sameDb_quiet {A} (m : M A) : quiet m → respects sameDb m.
Proof. intros H s. destruct (H s) as [e ->]. reflexivity. Qed.
Lemma sameDb_onFiles {A} (f : world → A * world) : respects sameDb (onFiles f).
Proof. intros s. unfold onFiles. by destruct (f (files s)). Qed.
Ltac same_db :=
  repeat match goal with
  | |- respects _ (bind _ _) => apply respects_bind; [|intros ?]
  | |- respects _ (if _ then _ else _) => apply respects_if
  | |- respects _ (match ?x with _ => _ end) => destruct x
  | |- respects _ (ret _) => apply respects_ret
  | |- respects _ get => apply respects_get
  | |- respects _ (onFiles _) => apply sameDb_onFiles
  | |- respects _ (fail _) => apply sameDb_quiet, quiet_fail
  | |- respects _ (meta _ _) => apply sameDb_quiet, quiet_meta
  | |- respects _ (modify (set_error _)) => intros ?; reflexivity
  end.
Lemma ready_sameDb : respects sameDb (ready E).
Proof. unfold ready. same_db. Qed.
Lemma lock_sameDb : respects sameDb (lock E).
Proof. unfold lock. apply respects_bind; [apply ready_sameDb|intros ?]. same_db. Qed.

(** The cursors of a peer that was last seen as [p], after [pull] and [push]. *)
Definition advanced (p0 : option Peer) (replica container : QString) (pull push : Z) (p : Peer) : Prop :=
  preplica p = replica ∧ pcontainer p = container
  ∧ match p0 with
    | Some p0 => preplica p0 = replica ∧ pcontainer p0 = container
                 ∧ pulled p = Z.max (pulled p0) pull ∧ pushed p = Z.max (pushed p0) push
    | None => pulled p = pull ∧ pushed p = push
    end.
(** A cursor is a qint64. *)
Definition cursors (p : Peer) : Prop :=
  (int64_min ≤ pulled p ≤ int64_max) ∧ (int64_min ≤ pushed p ≤ int64_max).

Lemma peerState_ok peer s :
  sql E (SelectPeer peer) = true →
  peerState E peer s = (match peers (db s) !! peer with
     | Some p => obj [("replica", JStr (preplica p)); ("container", JStr (pcontainer p));
                      ("pulled", jnum (pulled p)); ("pushed", jnum (pushed p))]%string
     | None => ∅ end, s).
Proof. intros H. unfold peerState. by rewrite H. Qed.

Lemma savePeerState_cases peer replica container pull push s :
  sql E (SelectPeer peer) = true → (∀ p, peers (db s) !! peer = Some p → cursors p) →
  let r := savePeerState E peer replica container pull push s in
  (r.1 = false ∧ db r.2 = db s)
  ∨ r.1 = true ∧ ∃ p, advanced (peers (db s) !! peer) replica container pull push p
                     ∧ db r.2 = set_peers (<[peer := p]> (peers (db s))) (db s).
Proof.
  intros Hsql Hc r. destruct r as [ok s'] eqn:Er. subst r. cbn [fst snd]. revert Er.
  unfold savePeerState. cbv zeta. unfold bind at 1. pose proof (ready_sameDb s) as H1.
  destruct (ready E s) as [[] s1]; cbn [negb snd] in *; unfold sameDb in H1; [|intros [-> ->]%pair_inv; by left].
  destruct (_ || _ || _ || _ || _ || _); [intros [-> ->]%pair_inv; by left|].
  unfold bind at 1. rewrite peerState_ok by done. rewrite H1.
  set (now := match peers (db s) !! peer with Some _ => _ | None => _ end).
  destruct (negb (jempty now) && (_ || _)) eqn:Eid; [intros [-> ->]%pair_inv; by left|].
  assert (∀ p0, peers (db s) !! peer = Some p0 → preplica p0 = replica ∧ pcontainer p0 = container
    ∧ jlong now.["pulled"] = pulled p0 ∧ jlong now.["pushed"] = pushed p0) as Hnow.
  { intros p0 E0. destruct (Hc _ E0) as [Hl Hp]. unfold now in *. rewrite E0 in *. clear now.
    match type of Eid with context [jempty ?o] => change (jempty o) with false in Eid end. cbn [negb andb] in Eid.
    revert Eid. jsimp. cbn [toStr]. rewrite !jlong_jnum by done. intros Eid. bool_hyps.
    split_and!; try done; by apply dec_stable. }
  destruct (_ && _ && _) eqn:Eb.
  { intros [-> ->]%pair_inv. right. split; [done|]. bool_hyps. destruct (peers (db s) !! peer) as [p0|] eqn:E0.
    - destruct (Hnow _ eq_refl) as (Hr & Ho & H3 & H4). exists p0. split; [split_and!; try done; lia|].
      rewrite H1. destruct (db s); cbn in *. unfold set_peers. cbn. by rewrite insert_id.
    - done. }
  unfold bind at 1. pose proof (lock_sameDb s1) as H2.
  destruct (lock E s1) as [[] s2]; cbn [negb snd] in *; unfold sameDb in H2;
    [|intros [-> ->]%pair_inv; left; split; [done|congruence]].
  unfold bind at 1. rewrite peerState_ok by done. rewrite H2, H1. fold now. rewrite Eid. unfold bind, run.
  destruct (sql E (UpsertPeer peer)); [|intros [-> ->]%pair_inv; left; cbn; split; [done|congruence]].
  intros [-> ->]%pair_inv. right. split; [done|]. eexists. split; [|cbn; unfold upsertPeer; by rewrite H2, H1].
  destruct (peers (db s) !! peer) as [p0|]; [|by split_and!]. destruct (Hnow _ eq_refl) as (Hr & Ho & _). by split_and!.
Qed.

(** ** Receipts *)
Lemma snapshotComplete_receipt peer request s :
  manifests_ok s → snapshots (db (snapshotComplete E peer request s).2) ≠ snapshots (db s) →
  ∃ m es, manifests s !! peer = Some m ∧ enrolled m es ∧ complete m = true
          ∧ digest (lines es) = mid m ∧ applied m = dom (members m)
          ∧ JStr (mid m) = request.["manifest"] ∧ (msnapshot m).["id"] = request.["snapshot"].
Proof.
  intros Hs. unfold snapshotComplete, bind, get, lastSnapshot. cbv zeta.
  destruct (manifests s !! peer) as [m|] eqn:Em; cycle 1.
  { guard_case; done. }
  destruct (complete m && _ && _ && _) eqn:Ek; [|guard_case; done].
  guard_case; [done|]. guard_case; [done|]. guard_case; [done|]. intros _. bool_hyps.
  destruct (Hs _ _ Em) as (es & He & Hn & Hc). destruct (Hc H) as [Hd _].
  exists m, es. split_and!; try done.
  apply leibniz_equiv, set_subseteq_size_equiv; [apply (enr_applied _ _ He)|]. rewrite size_dom. lia.
Qed.
End with_files.

Lemma serve_manifests_ok {PF : Platform} {PL : PlatformLaws} {FS : FileStore}
  control modified storage information prepare render late events s :
  manifests_ok s → manifests_ok (serve control modified storage information prepare render late events s).
Proof.
  revert s. induction events as [|ev events IH]; intros s Hs; [exact Hs|]. apply IH.
  by apply (serveOne_manifests_ok (env ev)).
Qed.
End Protocol.
