(* ===== verification/ReplicaLaws.v ===== *)
(** What the replica promises, src/Sync/Replica.cpp: the theorems about whole
    operations of the store, of merging, of scanning and of the protocol, each with
    an example on the replica of DemoStore.v. *)
From S2P Require Import Prelude Qt Records Demo DemoFiles Namespace Files Store DemoStore Merge Scan Drive Requests.
From S2P Require Import Invariants MergeLaws Protocol.
Open Scope Z_scope.

Module ReplicaLaws.
Import Records Store Requests Invariants Protocol.

Section with_files.
Context {PF : Platform} {FS : FileStore} (E : Env).

(** C24: Saving a record is all or nothing: whatever statement the database refuses, a
    [save] that reports failure leaves every table as it was, as long as the
    savepoint can be undone; and no [save] touches the files, the manifests or the
    leases. *)
Theorem save_atomic e stamp s :
  sql E RollbackTo = true → sql E Release = true →
  let r := save E e stamp s in
  (r.1 = false → db r.2 = db s) ∧ frame s r.2.
Proof. intros Hr Hl r. destruct (save_undone E e stamp s Hr Hl) as [H1 H2]. by split. Qed.

(** C23: On a healthy database [save] keeps the catalog: every row under its own path
    with a change number of its own below the counter, the ledger a chain, the
    authority's rows at the ledger's current version.  A success files the record
    at its path with the stamp, under its old change number when the version is
    the one already there and else under a new one above all others. *)
Theorem save_keeps_catalog `{PL : !PlatformLaws} e stamp s :
  (∀ st, sql E st = true) → catalog E s →
  let r := save E e stamp s in
  catalog E r.2
  ∧ (r.1 = true → ∃ row, entries (db r.2) !! toStr e.["path"] = Some row
       ∧ estamp row = stamp ∧ (edata row).["version"] = (versioned e).["version"]
       ∧ ((∃ row0, entries (db s) !! toStr e.["path"] = Some row0 ∧ eseq row = eseq row0)
          ∨ ∀ p row', entries (db s) !! p = Some row' → eseq row' < eseq row)).
Proof.
  intros Hsql Hc r. destruct r as [ok s'] eqn:Er. subst r.
  destruct (save_catalog E Hsql e stamp s ok s' Hc Er) as (H1 & _ & H3). split; [done|]. cbn [fst snd].
  intros ->. destruct (H3 eq_refl) as [row Hrow]. exists row.
  pose proof (saved_sequence E _ _ _ _ _ Hc Hrow) as Hseq. destruct Hrow as [He Hst Hv _ _ _ _ _ _ _].
  split_and!; [by rewrite He, lookup_insert_eq|done|done|].
  destruct Hseq as [(r0 & H0 & E0 & _)|[Et ->]]; [left; eauto|right].
  intros p row' Hp. apply (cat_seq _ _ Hc) in Hp. lia.
Qed.

(** C13: A request never breaks the catalog. On a healthy database (no statement is
    refused; a refused SELECT would read as an object without a revision), whatever an
    authenticated peer sends, after [handle] the catalog invariant holds again, and
    neither the replica's identity, its container nor the host it is bound to have
    changed. *)
Theorem request_keeps_catalog `{PL : !PlatformLaws} control modified storage information prepare render late peer request refreshIndex s :
  (∀ st, sql E st = true) → catalog E s →
  let s' := (serveOne control modified storage information prepare render late E peer request refreshIndex s).2 in
  catalog E s' ∧ id s' = id s ∧ container s' = container s ∧ metaOf (db s') "host" = metaOf (db s) "host".
Proof.
  intros Hsql Hc s'. destruct (handle_keepsCatalog E control modified storage information prepare render late Hsql peer request refreshIndex s)
    as (H1 & H2 & H3). destruct (H3 Hc). by split_and!.
Qed.


(** C26: While a snapshot is announced, nothing of it is transferred that is not of it:
    a begin, chunk, commit or apply that succeeds names a complete manifest of
    that peer, and carries a valid record that is, byte for byte, the member that
    the manifest enrolled at its path. *)
Theorem transfer_requires_member `{PL : !PlatformLaws} render peer action request s m :
  manifests s !! peer = Some m → jempty (msnapshot m) = false →
  action ∈ ["begin"; "chunk"; "commit"; "apply"]%string → toStr request.["action"] = u action →
  toBool (lockedRequest E render peer (u action) request s).1.["ok"] = true →
  let e := toObj request.["entry"] in
  complete m = true ∧ mid m = toStr request.["manifest"] ∧ validRecord e = true
  ∧ members m !! toStr e.["path"] = Some (digest (json e)).
Proof.
  intros Hm Hs Ha Hr Hok e. destruct (locked_member E render peer action request s m Hm Hs Ha Hr Hok) as (H1 & H2 & H3 & H4).
  split_and!; [done..|]. by apply (member_lookup request).
Qed.

(** C27: A receipt is honest: [snapshot.complete] records one only for a snapshot whose
    manifest the peer completed in this process, whose digest is its name, and
    of which every member has been applied. *)
Theorem receipt_requires_all `{PL : !PlatformLaws} peer request s :
  manifests_ok s →
  snapshots (db (snapshotComplete E peer request s).2) ≠ snapshots (db s) →
  ∃ m es, manifests s !! peer = Some m ∧ enrolled m es ∧ complete m = true
          ∧ digest (lines es) = mid m ∧ applied m = dom (members m)
          ∧ JStr (mid m) = request.["manifest"] ∧ (msnapshot m).["id"] = request.["snapshot"].
Proof. apply snapshotComplete_receipt. Qed.

(** C1: A merge accounts for the bytes of both sides.  On a healthy database (no statement
    is refused) whose record of the path is a valid one of that path, when a committed
    merge of a valid record succeeds, either no file changed at all, or it carried out a plan:
    where the incoming file wins, its path holds bytes with the digest its record
    names; where the local record wins, the path's bytes stay; and where the two
    conflict, the loser's bytes are kept under the conflict name, a different
    place: the replaced file's own bytes, or bytes with the digest the loser names. *)
Theorem merge_accounts_for_bytes `{PL : !PlatformLaws} {FL : FileLaws} peer incoming s :
  (∀ st, sql E st = true) → validRecord incoming = true →
  let path := toStr incoming.["path"] in
  let local := (entryOf (db (refresh E path s).2) path).1 in
  (jempty local = false → validRecord local = true ∧ toStr local.["path"] = path) →
  let r := Merge.merge E peer incoming true s in
  let bytes := bytesAt (files s) in let bytes' := bytesAt (files r.2) in
  toBool r.1.["ok"] = true →
  (∀ q, bytes' q = bytes q)
  ∨ ∃ s1 retain, let p := MergeLaws.planIn E incoming s1 retain in
      db s1 = db (refresh E path s).2
      ∧ let loser := if Merge.incomingWins p then local else incoming in
      let target := physical (conflictPath loser) in
      (Merge.incomingWins p = false → bytes' (physical path) = bytes (physical path))
      ∧ (Merge.incomingWins p = true → Merge.same p = false → incoming.["kind"] = JS "file" →
         ∃ b, bytes' (physical path) = Some b ∧ digest b = toStr incoming.["hash"])
      ∧ (Merge.conflict p = true → target ≠ [] ∧ target ≠ physical path
         ∧ (Merge.incomingWins p = true ∧ bytes' target = bytes (physical path)
            ∨ ∃ b, bytes' target = Some b ∧ digest b = toStr loser.["hash"])).
Proof.
  intros Hsql Hv path local Hl r bytes bytes' Hok. subst bytes bytes'.
  destruct r as [v s'] eqn:Er. cbn [fst snd] in *.
  apply (MergeLaws.merge_outcome E Hsql) in Er. destruct Er as [H|H|s1 retain Hs Hdb Hj _ _ _ Hp]; [congruence|by left|right].
  assert (Hloc : MergeLaws.localOf incoming s1 = local) by (unfold MergeLaws.localOf; by rewrite Hdb).
  rewrite Hloc in Hp. exists s1, retain. split; [done|]. cbv zeta. rewrite <- !Hs.
  apply (MergeLaws.applyPlan_accounts E peer path incoming local (MergeLaws.planIn E incoming s1 retain) s1 s' v); try done.
  - by apply validRecord_path.
  - unfold MergeLaws.planIn. rewrite Hloc. eauto 7.
Qed.

(** A merge touches no file but its own: in every environment, failing ones
    included, the bytes of a public path are the same afterwards unless it is, or
    lies below, the record's own path or the conflict name of one of the two
    records, or is the preview kept beside the record's path. *)
Theorem merge_touches_only `{PL : !PlatformLaws} {FL : FileLaws} peer incoming commit s q :
  let path := toStr incoming.["path"] in
  clear (physical path) q → q ≠ previewOf (physical path) → clear (physical (conflictPath incoming)) q →
  clear (physical (conflictPath (MergeLaws.localRecord E path s))) q → private q = false →
  bytesAt (files (Merge.merge E peer incoming commit s).2) q = bytesAt (files s) q.
Proof. intros path H1 H2 H3 H4 H5. by apply MergeLaws.merge_untouched. Qed.

(** C21: No lost update. On the authority with a healthy database (no statement is
    refused; a refused SELECT would read as a path without a confirmed revision), a
    valid proposal that was made against another revision than the confirmed one never
    replaces the file of its path by other content, whether it is a file or a deletion,
    whatever its clock says and at whichever step of the transfer it is. *)
Theorem stale_proposal_yields `{PL : !PlatformLaws} {FL : FileLaws} peer incoming commit s :
  (∀ st, sql E st = true) → validRecord incoming = true →
  let path := toStr incoming.["path"] in let s1 := (refresh E path s).2 in
  isEmpty (metaOf (db s1) "host") = true → jcontains incoming "baseRevision" = true →
  toStr incoming.["baseRevision"] ≠ toStr (Namespace.object (nsSql E) (journalOf s1) path).["revision"] →
  contentEqual incoming (entryOf (db s1) path).1 = false → incoming.["kind"] ≠ JS "directory" →
  bytesAt (files (Merge.merge E peer incoming commit s).2) (physical path) = bytesAt (files s) (physical path).
Proof.
  intros Hsql Hv path s1 Hh Hb Hrev Hc Hk.
  destruct (Merge.merge E peer incoming commit s) as [v s'] eqn:Er. cbn [snd].
  apply (MergeLaws.merge_outcome E Hsql) in Er.
  destruct Er as [_ H|H|s2 retain Hs Hdb Hj Hrel _ _ Hp]; [apply H..|]. rewrite <- Hs.
  assert (Hm : MergeLaws.mirrors s2 = false) by (unfold MergeLaws.mirrors; rewrite Hdb; fold path s1; by rewrite Hh).
  assert (Hloc : MergeLaws.localOf incoming s2 = (entryOf (db s1) path).1) by (unfold MergeLaws.localOf; by rewrite Hdb).
  assert (Hprop : MergeLaws.proposedTo incoming s2 = true) by (unfold MergeLaws.proposedTo; by rewrite Hm, Hb).
  set (p := MergeLaws.planIn E incoming s2 retain) in *.
  assert (Hw : Merge.incomingWins p = false).
  { unfold p, MergeLaws.planIn, Merge.planOf, Merge.incomingWinsOf. cbn [Merge.incomingWins].
    rewrite Hm, Hprop, Hloc, Hc. rewrite andb_false_r. cbn [orb negb andb]. rewrite bool_decide_eq_false_2 by done.
    rewrite !orb_false_r. apply andb_false_iff. right. revert Hrel. unfold MergeLaws.relationIn, Merge.relationOf.
    rewrite Hm, Hprop. destruct (bool_decide _); [lia|]. fold path. rewrite Hj. fold path s1.
    rewrite bool_decide_eq_false_2 by done. done. }
  destruct (validRecord_version _ Hv) as [_ Hhex].
  pose proof (MergeLaws.applyPlan_yields E peer path commit incoming (MergeLaws.localOf incoming s2) p
    (validRecord_path _ Hv) (λ _, conj eq_refl Hhex) Hw s2) as Hy.
  fold path in Hp. by rewrite Hp in Hy.
Qed.

(** A local change is recorded as newer than everything the replica knew of the
    path: what an observation of a file state files is either nothing, or the old
    record under its new stamp, or a record whose clock dominates the old one in
    exactly the replica's own component; and the catalog stays whole. *)
Theorem local_change_dominates `{PL : !PlatformLaws} path st h s s' :
  (∀ q, sql E q = true) → catalog E s → error s = [] →
  observed E path st h s = (true, s') →
  let old := (entryOf (db s) path).1 in
  catalog E s'
  ∧ (db s' = db s
     ∨ ∃ e row, entries (db s') !! toStr e.["path"] = Some row ∧ estamp row = stamp st
         ∧ (edata row).["version"] = (versioned e).["version"]
         ∧ (e = old ∨ tickedFrom (id s) path st old e)).
Proof.
  intros Hsql Hc He Ho old.
  destruct (observed_cases E Hsql path st h s s' He Ho) as [Hd|[(s1 & Hd & Hco & Hi & Hs)|(s1 & e & n & Hd & Hco & Hi & Ht & Hs)]].
  - assert (keepsCatalog E s s') as (_ & _ & Hk); [|split; [by apply Hk|by left]].
    pose proof (observed_keepsCatalog E Hsql path st h s) as Hk. by rewrite Ho in Hk.
  - apply (save_catalog E Hsql) in Hs as (Hc' & _ & Hr); [|by apply (catalog_same E s)].
    destruct (Hr eq_refl) as [row [Hen Hst Hv _ _ _ _ _ _ _]]. split; [done|right]. exists old, row.
    split_and!; [by rewrite Hen, lookup_insert_eq|done|done|by left].
  - apply (save_catalog E Hsql) in Hs as (Hc' & _ & Hr);
      [|by apply (catalog_same E (set_db (set_metadata (<[u "counter" := n]> (metadata (db s))) (db s)) s)); [..|apply catalog_counter]].
    destruct (Hr eq_refl) as [row [Hen Hst Hv _ _ _ _ _ _ _]]. split; [done|right]. exists e, row.
    split_and!; [by rewrite Hen, lookup_insert_eq|done|done|by right].
Qed.

(** C36: A mirror takes revisions from its host only. While its database is healthy (no
    statement is refused), a record of anyone else, or one that the host's own journal
    does not confirm, is refused; nothing is recorded for it and no file changes. (When
    the SELECT of the host's name is refused, the mirror takes itself for the authority
    and this is not so, which is one of the findings.) *)
Theorem mirror_requires_host `{PL : !PlatformLaws} {FL : FileLaws} peer incoming commit s :
  (∀ st, sql E st = true) →
  let path := toStr incoming.["path"] in let s1 := (refresh E path s).2 in
  isEmpty (metaOf (db s1) "host") = false →
  peer ≠ metaOf (db s1) "host" ∨ Namespace.contains (nsSql E) (journalOf s1) incoming = false →
  let r := Merge.merge E peer incoming commit s in
  toBool r.1.["ok"] = false ∧ db r.2 = db s1 ∧ ∀ q, bytesAt (files r.2) q = bytesAt (files s) q.
Proof.
  intros Hsql path s1 Hm Hbad r. destruct r as [v s'] eqn:Er. subst r. cbn [fst snd].
  pose proof (λ q, MergeLaws.refresh_frame E path q s) as Hq. revert Er s1 Hm Hbad. unfold Merge.merge. cbv zeta. fold path.
  unfold bind at 1. destruct (refresh E path s) as [[] s1]; cbn [negb snd] in *; intros Er Hm Hbad.
  2: { apply pair_inv in Er as [-> ->]. by split_and!. }
  revert Er. unfold bind at 1. rewrite entry_ok by done. destruct (entryOf _ _) as [local st].
  unfold bind at 1. rewrite meta_ok by done. unfold bind at 1. rewrite journal_ok by done. rewrite Hm. cbn [negb andb].
  replace (_ || _) with true; [by intros [-> ->]%pair_inv|]. symmetry. apply orb_true_iff.
  destruct Hbad as [Hp|Hp]; [left; by apply bool_decide_eq_true|right; by rewrite Hp].
Qed.

(** Cursors only advance and a peer stays who it was: a successful update leaves
    for the peer the identity it has always had and the larger of the old and the
    new positions; a refused one leaves every table alone, and no update touches
    another peer's cursors. *)
Theorem cursors_advance peer replica container pull push s :
  sql E (SelectPeer peer) = true → (∀ p, peers (db s) !! peer = Some p → cursors p) →
  let r := savePeerState E peer replica container pull push s in
  (r.1 = false → db r.2 = db s)
  ∧ (r.1 = true → ∃ p, peers (db r.2) !! peer = Some p
                       ∧ advanced (peers (db s) !! peer) replica container pull push p)
  ∧ ∀ q, q ≠ peer → peers (db r.2) !! q = peers (db s) !! q.
Proof.
  intros Hsql Hc r. destruct (savePeerState_cases E peer replica container pull push s Hsql Hc) as [[Hf Hd]|(Ht & p & Ha & Hd)].
  - fold r in Hf, Hd. rewrite Hf, Hd. by split_and!.
  - fold r in Ht, Hd. rewrite Ht, Hd. split_and!; [done| |].
    + intros _. exists p. split; [by apply lookup_insert_eq|done].
    + intros q Hq. by apply lookup_insert_ne.
Qed.

(** A scan always answers: the walk over the areas never runs out of its fuel,
    because a key grows at each level and [physical] refuses keys beyond 3500. *)
Theorem scan_terminates late s : (Scan.scan E late s).1 ≠ None.
Proof. apply Scan.scan_answers. Qed.
End with_files.

(** ** Examples *)
Section examples.
Import Demo DemoFiles DemoStore.

Lemma save_atomic_witness :
  db (save full (Demo.record "photos/a.png" 1) (u "s") empty).2 = db empty.
Proof. refine (proj1 (save_atomic full (Demo.record "photos/a.png" 1) (u "s") empty eq_refl eq_refl) _). by vm_compute. Defined.

Lemma empty_ok : catalog healthy empty.
Proof. by apply empty_catalog. Qed.

Lemma save_keeps_catalog_witness :
  catalog healthy (save healthy (Demo.record "photos/a.png" 1) (u "s") empty).2.
Proof.
  exact (proj1 (save_keeps_catalog healthy (Demo.record "photos/a.png" 1) (u "s") empty (λ _, eq_refl) empty_ok)).
Defined.

Definition served := serveOne (λ _, false) (λ _, None) None (λ _ _, ∅) (λ _ w, w) (λ b, b) (λ _, false).
Lemma request_keeps_catalog_witness :
  catalog healthy (served healthy (u "peer") (obj [("action", JS "describe")]%string) false empty).2.
Proof.
  exact (proj1 (request_keeps_catalog healthy (λ _, false) (λ _, None) None (λ _ _, ∅) (λ _ w, w) (λ b, b) (λ _, false)
    (u "peer") (obj [("action", JS "describe")]%string) false empty (λ _, eq_refl) empty_ok)).
Defined.

Definition other : QString := u "99999999-2222-3333-4444-555555555555".

(** A snapshot of that record that has been announced completely. *)
Definition proposal : jobj := jinsert (Demo.record "photos/a.png" 1) "baseRevision" (JS "").
Definition snapshotId : jval := JStr other.
Definition enrolledManifest (members : gmap QString QString) (digested : list N) : Manifest :=
  mkManifest (digest digested) other (obj [("id", snapshotId)]%string) members ∅ 0 0 0 0 0 0 0 0 0 0 true digested.
Definition awaiting : Store :=
  set_manifests {[ u "peer" := enrolledManifest {[ u "photos/a.png" := digest (json proposal) ]} [] ]} empty.
Definition begin : jobj := obj [("action", JS "begin"); ("manifest", JStr (digest [])); ("snapshot", snapshotId);
  ("entry", JObj proposal)]%string.
Lemma transfer_requires_member_witness :
  toBool (lockedRequest healthy (λ b, b) (u "peer") (u "begin") begin awaiting).1.["ok"] = true
  ∧ validRecord proposal = true.
Proof.
  assert (toBool (lockedRequest healthy (λ b, b) (u "peer") (u "begin") begin awaiting).1.["ok"] = true) as Hok by (by vm_compute).
  split; [exact Hok|].
  refine (proj1 (proj2 (proj2 (transfer_requires_member healthy (λ b, b) (u "peer") "begin" begin awaiting
    (enrolledManifest {[ u "photos/a.png" := digest (json proposal) ]} []) _ _ _ _ Hok)))); [done|by_compute..].
Defined.

Definition delivered : Store := set_manifests {[ u "peer" := enrolledManifest ∅ [] ]} empty.
Definition completion : jobj := obj [("manifest", JStr (digest [])); ("snapshot", snapshotId)]%string.
Lemma receipt_requires_all_witness :
  ∃ m, manifests delivered !! u "peer" = Some m ∧ complete m = true ∧ applied m = dom (members m).
Proof.
  destruct (receipt_requires_all healthy (u "peer") completion delivered) as (m & es & H1 & _ & H2 & _ & H3 & _).
  - intros peer m. unfold delivered. cbn [manifests set_manifests]. intros [_ <-]%lookup_singleton_Some. exists []. split_and!; [|done|done].
    split; cbn; try done. split; [constructor|done].
  - intros E. assert (size (snapshots (db (snapshotComplete healthy (u "peer") completion delivered).2)) = 1%nat) as H
      by (by vm_compute). rewrite E in H. done.
  - by exists m.
Defined.

Definition stale : jobj := jinsert (Demo.record "photos/a.png" 1) "baseRevision" (JStr (digest (u "elsewhere"))).
Lemma stale_proposal_yields_witness :
  bytesAt (files (Merge.merge healthy (u "peer") stale true empty).2) (physical (toStr stale.["path"]))
  = bytesAt (files empty) (physical (toStr stale.["path"])).
Proof.
  refine (stale_proposal_yields healthy (u "peer") stale true empty (λ _, eq_refl) _ _ _ _ _ _); by_compute.
Defined.

(** The upload of a new file has arrived. *)
Definition fresh : jobj := Demo.record "photos/a.png" 1.
Definition uploaded : Store := set_files (<[Merge.transfer (u "peer") fresh := u "abc"]> ∅ : DemoFiles.Flat) empty.
Lemma merge_accounts_for_bytes_witness :
  toBool (Merge.merge healthy (u "peer") fresh true uploaded).1.["ok"] = true
  ∧ ((∀ q, bytesAt (files (Merge.merge healthy (u "peer") fresh true uploaded).2) q = bytesAt (files uploaded) q)
     ∨ ∃ s1, db s1 = db (refresh healthy (u "photos/a.png") uploaded).2).
Proof.
  assert (toBool (Merge.merge healthy (u "peer") fresh true uploaded).1.["ok"] = true) as Hok by (by vm_compute).
  split; [exact Hok|].
  destruct (merge_accounts_for_bytes healthy (u "peer") fresh uploaded (λ _, eq_refl)) as [H|(s1 & retain & H & _)].
  - by_compute.
  - intros H. exfalso. revert H. by vm_compute.
  - exact Hok.
  - by left.
  - right. by exists s1.
Defined.

Lemma local_change_dominates_witness :
  catalog healthy (observed healthy (u "photos/a.png") (mkState (u "directory") (u "d") 0) [] empty).2.
Proof.
  destruct (observed healthy (u "photos/a.png") (mkState (u "directory") (u "d") 0) [] empty) as [ok s'] eqn:E.
  assert (ok = true) as Hok.
  { change ok with (fst (ok, s')). rewrite <- E. by vm_compute. }
  subst ok. exact (proj1 (local_change_dominates healthy (u "photos/a.png") (mkState (u "directory") (u "d") 0) [] empty s'
    (λ _, eq_refl) empty_ok eq_refl E)).
Defined.

Lemma mirror_requires_host_witness :
  toBool (Merge.merge healthy (u "stranger") (Demo.record "photos/a.png" 1) true mirror).1.["ok"] = false.
Proof.
  refine (proj1 (mirror_requires_host healthy (u "stranger") (Demo.record "photos/a.png" 1) true mirror (λ _, eq_refl) _ _)).
  - by vm_compute.
  - left. by_compute.
Defined.

Lemma cursors_advance_witness :
  peers (db (savePeerState healthy (u "peer") Demo.uuid Demo.uuid 1 2 empty).2) !! u "other" = None.
Proof.
  refine (proj2 (proj2 (cursors_advance healthy (u "peer") Demo.uuid Demo.uuid 1 2 empty eq_refl _)) (u "other") _).
  - intros p [=].
  - by_compute.
Defined.

Lemma merge_touches_only_witness :
  bytesAt (files (Merge.merge healthy (u "peer") (Demo.record "photos/a.png" 1) true empty).2) (u "Photos/b.png") = None.
Proof.
  refine (eq_trans (merge_touches_only healthy (u "peer") (Demo.record "photos/a.png" 1) true empty (u "Photos/b.png") _ _ _ _ _) _);
    try split; by_compute.
Defined.
End examples.
End ReplicaLaws.
