(* ===== verification/Applications.v ===== *)
(** The values that describe an application on this device, src/Core/
    iiSocietyHelper.h and the anonymous namespace of src/Core/Helper.cpp: who is
    observed, and which metadata is accepted. *)
From S2P Require Import Prelude Qt Records.
Open Scope Z_scope.

Module Applications.
(** ** Patterns
    An anchored QRegularExpression: without DollarEndOnlyOption its [$] also
    matches before one line feed at the very end of the subject. *)
Definition newline : N := 10%N.
Definition anchored (body : QString → bool) (s : QString) : bool :=
  body s || match reverse s with c :: r => (c =? newline)%N && body (reverse r) | [] => false end.
Definition alphanumeric (c : N) : bool :=
  ((48 <=? c)%N && (c <=? 57)%N) || ((65 <=? c)%N && (c <=? 90)%N) || ((97 <=? c)%N && (c <=? 122)%N).
Definition separator (c : N) : bool := (c =? 46)%N || (c =? 45)%N.
Fixpoint splitWhen (f : N → bool) (s : QString) : list QString :=
  match s with
  | [] => [[]]
  | c :: r =>
      if f c then [] :: splitWhen f r
      else match splitWhen f r with p :: ps => (c :: p) :: ps | [] => [[c]] end
  end.
(** [A-Za-z0-9]+(?:[.-][A-Za-z0-9]+)+ *)
Definition reverseDns (s : QString) : bool :=
  let parts := splitWhen separator s in
  (2 <=? Z.of_nat (List.length parts)) && forallb (λ p, negb (isEmpty p) && forallb alphanumeric p) parts.
(** [A-Za-z0-9][A-Za-z0-9._-]{0,127} *)
Definition nameBody (s : QString) : bool :=
  match s with
  | c :: r => alphanumeric c && forallb (λ c, alphanumeric c || separator c || (c =? 95)%N) r && (qsize r <=? 127)
  | [] => false
  end.

(** ** Applications and peers *)
Inductive Activity := Unknown | Foreground | Background.
#[global] Instance Activity_eq_dec : EqDecision Activity.
Proof. solve_decision. Defined.
Record ApplicationInfo := mkApplication { appId : QString; appName : QString; appVersion : QString }.
#[global] Instance ApplicationInfo_eq_dec : EqDecision ApplicationInfo.
Proof. solve_decision. Defined.
(** A time is its ISO text with milliseconds, empty when it is not valid. *)
Record Peer := mkPeer {
  application : ApplicationInfo;
  instanceId : QString;
  processId : Z;
  activity : Activity;
  startedAt : QString;
  lastSeenAt : QString
}.
#[global] Instance Peer_eq_dec : EqDecision Peer.
Proof. solve_decision. Defined.

Definition activityName (a : Activity) : QString :=
  match a with Foreground => u "foreground" | Background => u "background" | Unknown => u "unknown" end.
Definition validApplication (app : ApplicationInfo) : bool :=
  (qsize (appId app) <=? 255) && anchored reverseDns (appId app)
  && negb (isEmpty (trimmed (appName app))) && (qsize (appName app) <=? 256) && (qsize (appVersion app) <=? 128).
Definition sameMetadata (a b : Peer) : bool :=
  bool_decide (application a = application b) && bool_decide (processId a = processId b)
  && bool_decide (activity a = activity b) && bool_decide (startedAt a = startedAt b).
Definition toVariantMap (p : Peer) : jobj :=
  obj [("applicationId", JStr (appId (application p))); ("name", JStr (appName (application p)));
       ("version", JStr (appVersion (application p))); ("instanceId", JStr (instanceId p));
       ("processId", JNum (processId p)); ("activity", JStr (activityName (activity p)));
       ("startedAt", JStr (startedAt p)); ("lastSeenAt", JStr (lastSeenAt p))]%string.
End Applications.
