(* ===== verification/Delivery.v ===== *)
(** The durable outbox and inbox of one device, src/Delivery/DeliveryStore.cpp,
    and the check of its directory, src/Delivery/LocalDirectory.cpp. *)
From S2P Require Import Prelude Qt Records Demo Applications.
Open Scope Z_scope.

Module Delivery.
Import Records Applications.

(** ** The directory (src/Delivery/LocalDirectory.cpp)
    A clean absolute path of a Unix system; [Facts] is what the file system and the
    container library answer about paths. *)
Record Facts := mkFacts {
  cleanPath : QString → QString;
  exists_ : QString → bool;
  canonicalFilePath : QString → QString;
  manifestAt : QString → bool;      (* .society-drive.json, a link included *)
  runtimeOf : QString → QString → bool;  (* the container at the first holds the second in its runtime directory *)
  fileSystemType : QString → QString
}.
(** QFileInfo::absolutePath of a clean absolute path. *)
Definition parentPath (p : QString) : QString :=
  let n := lastIndexOf slash p in if n <=? 0 then u "/" else qleft n p.
Definition isRoot (p : QString) : bool := bool_decide (p = u "/").
(** The directory itself and everything [cdUp] reaches: it stops below a parent that
    does not exist. *)
Fixpoint ancestors (F : Facts) (fuel : nat) (p : QString) : list QString :=
  match fuel with
  | O => [p]
  | S fuel => if isRoot p || negb (exists_ F (parentPath p)) then [p] else p :: ancestors F fuel (parentPath p)
  end.
(** The nearest path above that exists, at last the root. *)
Fixpoint existing (F : Facts) (fuel : nat) (p : QString) : QString :=
  match fuel with
  | O => p
  | S fuel => if exists_ F p || isRoot p then p else existing F fuel (parentPath p)
  end.
Definition remoteTypes : list QString := map u ["nfs"; "smb"; "cifs"; "afp"; "sshfs"; "webdav"; "9p"]%string.
Definition lower (s : QString) : QString := map (λ c, if (65 <=? c)%N && (c <=? 90)%N then (c + 32)%N else c) s.
Definition validateDirectory (F : Facts) (path : QString) : option QString :=
  if negb (startsWith path [slash]) || startsWith path (u "//") || startsWith path (u "\\")
  then Some (u "Society Helper needs a directory on this device.") else
  let there := existing F (List.length path) (cleanPath F path) in
  let starts := List.filter (λ p, negb (isEmpty p)) [cleanPath F path; canonicalFilePath F there] in
  if existsb (λ p, existsb (λ a, manifestAt F a && negb (runtimeOf F a path)) (ancestors F (List.length p) p)) starts
  then Some (u "Local Helper presence and messages require the Society container's private runtime directory.")
  else if existsb (containsStr (lower (fileSystemType F there))) remoteTypes
  then Some (u "Society Helper does not transport messages through a network filesystem. Use iiSocietyHelper::Sync between devices.")
  else None.

(** ** The database *)
Record Message := mkMessage {
  msgId : QString;
  msgSender : list N;
  msgTopic : QString;
  msgPayload : list N;
  queuedAt : QString
}.
Record Receipt := mkReceipt { sequence : Z; message : Message; receivedAt : QString }.
(** The tables; [outbox] in rowid order, [inbox] in sequence order, [counter] is
    what AUTOINCREMENT remembers. *)
Record Tables := mkTables {
  outbox : list Message;
  inbox : list Receipt;
  counter : Z;
  consumers : gmap QString Z;
  snapshot : option (list N)
}.
(** The file of the database: its schema, its journal mode and its tables. *)
Record Disk := mkDisk { present : bool; schema : Z; wal : bool; tables : Tables }.
Definition noTables : Tables := mkTables [] [] 0 ∅ None.
Definition noDisk : Disk := mkDisk false 0 false noTables.
Record Delivery := mkDelivery { isOpen : bool; disk : Disk; error : QString }.

Inductive Stmt :=
| Begin | Commit | InsertOutbox | SelectOutbox | InsertInbox (id : QString) | DeleteOutbox (id : QString)
| CountOutbox | SelectInbox | MaxInbox | UpsertConsumer | SelectConsumer | UpsertSnapshot | SelectSnapshot
| Synchronous | JournalMode | CreateTable (n : nat) | SetVersion.
Record Env := mkEnv {
  sql : Stmt → bool;
  lastError : QString;
  rootIntact : bool;          (* a directory, not a link, at its canonical path *)
  localDirectory : bool;      (* local::validateDirectory *)
  localError : QString;
  filesRedirected : bool;     (* one of delivery.sqlite and its companions is a link *)
  now : QString;
  freshId : QString
}.

Definition maxPayload : Z := 65536.
Definition validName (value : QString) : bool := anchored nameBody value.

Section with_platform.
Context {PF : Platform} (E : Env).
(** QJsonDocument::fromJson, read as an object. *)
Variable parseJson : list N → jobj.

(** ** State *)
Definition setError (e : QString) (s : Delivery) : Delivery := mkDelivery (isOpen s) (disk s) e.
Definition setTables (t : Tables) (s : Delivery) : Delivery :=
  mkDelivery (isOpen s) (mkDisk (present (disk s)) (schema (disk s)) (wal (disk s)) t) (error s).
Definition rows (s : Delivery) : Tables := tables (disk s).
Definition fail {A} (value : A) (e : QString) (s : Delivery) : A * Delivery := (value, setError e s).

Definition ready (s : Delivery) : bool * Delivery :=
  let s := setError [] s in
  if negb (isOpen s) then fail false (u "Society delivery storage is not open.") s
  else if negb (rootIntact E) then fail false (u "The Society delivery directory disappeared or was redirected.") s
  else if negb (localDirectory E) then fail false (localError E) s
  else if filesRedirected E then fail false (u "Society delivery files cannot be symbolic links.") s
  else (true, s).
(** A call that has made sure of its directory first. *)
Definition guarded {A} (refused : A) (body : Delivery → A * Delivery) (s : Delivery) : A * Delivery :=
  let '(ok, s) := ready s in if ok then body s else (refused, s).

(** ** Sending *)
Definition enqueue (sender : Peer) (topic : QString) (payload : jobj) : Delivery → QString * Delivery :=
  guarded [] (λ s,
    let bytes := json payload in
    if negb (validName topic) || isEmpty (appId (application sender)) || bool_decide (parseUuid (instanceId sender) = None)
       || (maxPayload <? Z.of_nat (List.length bytes))
    then fail [] (u "Provide a valid topic, sender instance and JSON object no larger than 64 KiB.") s
    else
      let m := mkMessage (freshId E) (json (toVariantMap sender)) topic bytes (now E) in
      (* PRIMARY KEY(id) *)
      if negb (sql E InsertOutbox) || existsb (λ m', bool_decide (msgId m' = freshId E)) (outbox (rows s))
      then fail [] (lastError E) s
      else
        let t := rows s in
        (freshId E, setTables (mkTables (outbox t ++ [m]) (inbox t) (counter t) (consumers t) (snapshot t)) s)).

(** ** Receiving *)
(** INSERT OR IGNORE INTO inbox, then DELETE FROM outbox. *)
Definition known (id : QString) (t : Tables) : bool := existsb (λ r, bool_decide (msgId (message r) = id)) (inbox t).
Definition insertInbox (m : Message) (t : Tables) : Tables :=
  if known (msgId m) t then t
  else mkTables (outbox t) (inbox t ++ [mkReceipt (counter t + 1) m (now E)]) (counter t + 1) (consumers t) (snapshot t).
Definition deleteOutbox (id : QString) (t : Tables) : Tables :=
  mkTables (List.filter (λ m, negb (bool_decide (msgId m = id))) (outbox t)) (inbox t) (counter t) (consumers t) (snapshot t).
(** AUTOINCREMENT refuses a row after the largest integer. *)
Definition insertable (m : Message) (t : Tables) : bool :=
  sql E (InsertInbox (msgId m)) && (known (msgId m) t || (counter t <? int64_max)).
Fixpoint moveRows (moved : list Message) (t : Tables) : option Tables :=
  match moved with
  | [] => Some t
  | m :: rest =>
      if negb (insertable m t) then None else
      let t := insertInbox m t in
      if negb (sql E (DeleteOutbox (msgId m))) then None else moveRows rest (deleteOutbox (msgId m) t)
  end.
Definition receivePending (limit : Z) : Delivery → Z * Delivery :=
  guarded (-1) (λ s,
    if (limit <? 1) || (256 <? limit) then fail (-1) (u "Receipt batch size must be 1" ++ 8211%N :: u "256.") s else
    if negb (sql E Begin) then fail (-1) (lastError E) s else
    if negb (sql E SelectOutbox) then fail (-1) (lastError E) s else
    let moved := take (Z.to_nat limit) (outbox (rows s)) in
    match moveRows moved (rows s) with
    | None => fail (-1) (lastError E) s
    | Some t => if negb (sql E Commit) then fail (-1) (lastError E) s
                else (Z.of_nat (List.length moved), setTables t s)
    end).
Definition pendingCount : Delivery → Z * Delivery :=
  guarded (-1) (λ s,
    if sql E CountOutbox then (Z.of_nat (List.length (outbox (rows s))), s) else fail (-1) (lastError E) s).

(** ** Reading and acknowledging *)
Definition receiptMap (r : Receipt) : jobj :=
  obj [("sequence", JNum (sequence r)); ("id", JStr (msgId (message r)));
       ("sender", JObj (parseJson (msgSender (message r)))); ("topic", JStr (msgTopic (message r)));
       ("payload", JObj (parseJson (msgPayload (message r)))); ("queuedAt", JStr (queuedAt (message r)));
       ("receivedAt", JStr (receivedAt r))]%string.
(** WHERE sequence>? ORDER BY sequence LIMIT ? *)
Definition pageAfter (after limit : Z) (t : Tables) : list Receipt :=
  take (Z.to_nat limit) (List.filter (λ r, after <? sequence r) (inbox t)).
Definition readAfter (after limit : Z) : Delivery → list jobj * Delivery :=
  guarded [] (λ s,
    if (after <? 0) || (limit <? 1) || (256 <? limit) then fail [] (u "Invalid Society inbox cursor or page size.") s
    else if negb (sql E SelectInbox) then fail [] (lastError E) s
    else (map receiptMap (pageAfter after limit (rows s)), s)).
Definition lastReceived (t : Tables) : Z := foldr (λ r n, Z.max (sequence r) n) 0 (inbox t).
Definition acknowledge (consumer : QString) (seq : Z) : Delivery → bool * Delivery :=
  guarded false (λ s,
    if negb (validName consumer) || (seq <? 0) then fail false (u "Invalid Society consumer or acknowledgement.") s
    else if negb (sql E MaxInbox) then fail false (lastError E) s
    else if lastReceived (rows s) <? seq then fail false (u "Cannot acknowledge data the daemon has not received.") s
    else if negb (sql E UpsertConsumer) then fail false (lastError E) s
    else
      let t := rows s in
      let seq := match consumers t !! consumer with Some old => Z.max old seq | None => seq end in
      (true, setTables (mkTables (outbox t) (inbox t) (counter t) (<[consumer := seq]> (consumers t)) (snapshot t)) s)).
Definition acknowledged (consumer : QString) : Delivery → Z * Delivery :=
  guarded (-1) (λ s,
    if sql E SelectConsumer then (default 0 (consumers (rows s) !! consumer), s) else fail (-1) (lastError E) s).
Definition setDaemonSnapshot (value : jobj) : Delivery → bool * Delivery :=
  guarded false (λ s,
    if sql E UpsertSnapshot then
      let t := rows s in
      (true, setTables (mkTables (outbox t) (inbox t) (counter t) (consumers t) (Some (json value))) s)
    else fail false (lastError E) s).
Definition daemonSnapshot : Delivery → jobj * Delivery :=
  guarded ∅ (λ s,
    if sql E SelectSnapshot then (match snapshot (rows s) with Some b => parseJson b | None => ∅ end, s)
    else fail ∅ (lastError E) s).

(** ** Opening *)
(** What [open] finds around the database; [waited] is what other processes did to
    it while this one waited for the initialization lock. *)
Record Opening := mkOpening {
  absolute : bool; root : bool; redirected : bool;
  boundary : bool; boundaryError : QString;
  deliveryLink : bool; madeDirectory : bool; existed : bool; restricted : bool;
  lockLink : bool; filesLink : bool;
  opensFirst : bool; readable : bool;
  locked : bool; waited : Disk → Disk; lockLinkAfter : bool; filesLinkAfter : bool;
  prepared : bool; opens : bool; databaseRestricted : bool
}.
Definition closed (d : Disk) (e : QString) : bool * Delivery := (false, mkDelivery false d e).
Definition schemaVersion (o : Opening) (d : Disk) : Z := if readable o then schema d else -1.
Definition configureConnection (o : Opening) (d : Disk) : bool * Delivery :=
  if negb (databaseRestricted o) then closed d (u "Cannot restrict the Society delivery database to its owner.")
  else if negb (sql E Synchronous) then closed d (lastError E)
  else (true, mkDelivery true d []).
Definition createSchema (d : Disk) : bool * Delivery :=
  if negb (sql E Begin) then closed d (lastError E)
  else if negb (forallb (sql E) [CreateTable 1; CreateTable 2; CreateTable 3; CreateTable 4; SetVersion])
  then closed d (lastError E)
  else if negb (sql E Commit) then closed d (lastError E)
  else (true, mkDelivery true (mkDisk true 1 (wal d) (tables d)) []).
Definition initialize (o : Opening) (d : Disk) : bool * Delivery :=
  if lockLinkAfter o || filesLinkAfter o then closed d (u "Society delivery files cannot be symbolic links.")
  else if negb (prepared o) then closed d (u "Cannot create delivery database.")
  else if negb (opens o) then closed d (lastError E)
  else
  let version := schemaVersion o d in
  if negb (version =? 0) && negb (version =? 1) then closed d (u "Unsupported Society delivery database schema.")
  else if negb (readable o && wal d) && negb (sql E JournalMode) then closed d (lastError E)
  else
  let d := mkDisk true (schema d) true (tables d) in
  let '(ok, s) := configureConnection o d in
  if negb ok then (false, s) else if version =? 0 then createSchema d else (true, s).
Definition open (o : Opening) (d : Disk) : bool * Delivery :=
  if negb (absolute o) || root o || redirected o
  then closed d (u "Provide a local absolute Society observation directory.")
  else if negb (boundary o) then closed d (boundaryError o)
  else if deliveryLink o || negb (madeDirectory o) then closed d (u "Cannot create the Society delivery directory.")
  else if negb (existed o) && negb (restricted o)
  then closed d (u "Cannot restrict Society delivery storage to its owner.")
  else if lockLink o then closed d (u "Invalid Society delivery initialization lock.")
  else if filesLink o then closed d (u "Society delivery files cannot be symbolic links.")
  else
  let opened := present d && opensFirst o in
  let version := schemaVersion o d in
  if opened && (1 <? version) then closed d (u "Unsupported Society delivery database schema.")
  else if opened && (version =? 1) && readable o && wal d then configureConnection o d
  else if negb (locked o) then closed d (u "Society delivery storage is being initialized by another app.")
  else initialize o (waited o d).

(** ** Calls in sequence *)
Inductive Op :=
| Open (o : Opening)
| Close
| Enqueue (sender : Peer) (topic : QString) (payload : jobj)
| Receive (limit : Z)
| Acknowledge (consumer : QString) (seq : Z)
| SetSnapshot (value : jobj).
(** One call, with the message it accepted, if it did. *)
Definition perform (op : Op) (s : Delivery) : option Message * Delivery :=
  match op with
  | Open o => (None, (open o (disk s)).2)
  | Close => (None, mkDelivery false (disk s) (error s))
  | Enqueue sender topic payload =>
      let '(id, s') := enqueue sender topic payload s in
      (if isEmpty id then None
       else Some (mkMessage id (json (toVariantMap sender)) topic (json payload) (now E)), s')
  | Receive limit => (None, (receivePending limit s).2)
  | Acknowledge consumer seq => (None, (acknowledge consumer seq s).2)
  | SetSnapshot value => (None, (setDaemonSnapshot value s).2)
  end.
End with_platform.

(** The calls of all the processes that share the database, in the order in which
    SQLite serialises them, with the messages that were accepted. *)
Fixpoint performAll {PF : Platform} (events : list (Env * Op)) (s : Delivery) : list Message * Delivery :=
  match events with
  | [] => ([], s)
  | (E, op) :: events =>
      let '(m, s) := perform E op s in
      let '(rest, s) := performAll events s in
      (match m with Some m => m :: rest | None => rest end, s)
  end.

(** ** The contract: one log
    A message is accepted once, at the end of the log, and received in the order
    of the log; a cursor is a position among what was received. *)
Record logged (sent : list Message) (t : Tables) : Prop := {
  log_messages : map message (inbox t) ++ outbox t = sent;
  log_ids : NoDup (map msgId sent);
  log_sequences : map sequence (inbox t) = seqZ 1 (counter t);
  log_counter : counter t = Z.of_nat (List.length (inbox t));
  log_bound : counter t ≤ int64_max;
  log_consumers c n : consumers t !! c = Some n → 0 ≤ n ≤ counter t
}.

Lemma logged_empty : logged [] noTables.
Proof. split; try done. constructor. Qed.

Section laws.
Context {PF : Platform} (E : Env).

Lemma ready_rows s b s' : ready E s = (b, s') → disk s' = disk s.
Proof. unfold ready. repeat guard_case; by intros [-> ->]%pair_inv. Qed.
(** A guarded call either stays out or runs its body on the same tables. *)
Lemma guarded_rows {A} (refused : A) body s r s' :
  guarded E refused body s = (r, s') →
  disk s' = disk s ∧ r = refused ∨ ∃ s1, disk s1 = disk s ∧ body s1 = (r, s').
Proof.
  unfold guarded. destruct (ready E s) as [b s1] eqn:Er. apply ready_rows in Er.
  destruct b; [intros H; right; by exists s1|intros [-> ->]%pair_inv; by left].
Qed.

Lemma seqZ_snoc n : 0 ≤ n → seqZ 1 (n + 1) = seqZ 1 n ++ [n + 1].
Proof. intros Hn. rewrite seqZ_app by lia. f_equal. rewrite seqZ_cons by lia. cbn. f_equal. lia. Qed.

Lemma logged_fresh sent t m :
  logged sent t → m.(msgId) ∉ map msgId sent →
  logged (sent ++ [m]) (mkTables (outbox t ++ [m]) (inbox t) (counter t) (consumers t) (snapshot t)).
Proof.
  intros [H1 H2 H3 H4 H5 H6] Hm. split; try done; cbn.
  - by rewrite app_assoc, H1.
  - rewrite map_app. apply NoDup_app. split_and!; [done| |apply NoDup_singleton].
    intros x Hx ->%list_elem_of_singleton. done.
Qed.

Lemma logged_known sent t m rest :
  logged sent t → outbox t = m :: rest → known (msgId m) t = false.
Proof.
  intros [H1 H2 _ _ _ _] Ho. apply existsb_false. intros r Hr. apply bool_decide_eq_false. intros Eq.
  rewrite <- H1, Ho, map_app in H2. apply NoDup_app in H2 as (_ & H2 & _). eapply (H2 (msgId m)).
  - rewrite <- Eq, map_map. apply (list_elem_of_fmap_2 (λ r, msgId (message r))). done.
  - left.
Qed.

(** Moving the first message of the outbox keeps the log. *)
Lemma logged_move sent t m rest :
  logged sent t → outbox t = m :: rest → insertable E m t = true →
  logged sent (deleteOutbox (msgId m) (insertInbox E m t))
  ∧ outbox (deleteOutbox (msgId m) (insertInbox E m t)) = rest.
Proof.
  intros Hl Ho Hi. pose proof (logged_known _ _ _ _ Hl Ho) as Hk. destruct Hl as [H1 H2 H3 H4 H5 H6].
  unfold insertInbox. rewrite Hk. unfold deleteOutbox. cbn [outbox inbox counter consumers].
  assert (Hrest : List.filter (λ m', negb (bool_decide (msgId m' = msgId m))) (outbox t) = rest).
  { rewrite Ho. cbn. rewrite bool_decide_eq_true_2 by done. cbn [negb].
    assert (∀ x, x ∈ rest → msgId x ≠ msgId m) as Hne.
    { intros x Hx Eq. rewrite <- H1, Ho, map_app in H2. apply NoDup_app in H2 as (_ & _ & H2). cbn in H2.
      apply NoDup_cons in H2 as [H2 _]. apply H2. rewrite <- Eq. by apply (list_elem_of_fmap_2 msgId). }
    clear - Hne. induction rest as [|x rest IH]; [done|]. cbn. rewrite bool_decide_eq_false_2 by (apply Hne; left).
    cbn. f_equal. apply IH. intros y Hy. apply Hne. by right. }
  split; [|done]. unfold insertable in Hi. rewrite Hk in Hi. bool_hyps. split; cbn.
  - rewrite map_app, Hrest. cbn. rewrite <- app_assoc. cbn. by rewrite <- Ho.
  - done.
  - rewrite map_app, H3. cbn. rewrite seqZ_snoc by lia. done.
  - rewrite length_app. cbn. lia.
  - lia.
  - intros c n Hc. specialize (H6 _ _ Hc). lia.
Qed.

Lemma moveRows_logged sent t t' n :
  logged sent t → moveRows E (take n (outbox t)) t = Some t' → logged sent t' ∧ outbox t' = drop n (outbox t).
Proof.
  revert t. induction n as [|n IH]; intros t Hl; [by intros [= <-]|].
  destruct (outbox t) as [|m rest] eqn:Ho; cbn [take drop moveRows]; [intros [= <-]; by rewrite Ho|].
  destruct (insertable E m t) eqn:Ei; cbn [negb]; [|done].
  destruct (sql E (DeleteOutbox (msgId m))); cbn [negb]; [|done].
  destruct (logged_move _ _ _ _ Hl Ho Ei) as [Hl' Ho']. pose proof (IH _ Hl') as IH'. rewrite Ho' in IH'. exact IH'.
Qed.

Lemma lastReceived_bound (l : list Receipt) n :
  map sequence l = seqZ 1 n → 0 ≤ n → foldr (λ r m, Z.max (sequence r) m) 0 l ≤ n.
Proof.
  intros Hs Hn. assert (∀ r, r ∈ l → sequence r ≤ n) as Hb.
  { intros r Hr. assert (sequence r ∈ seqZ 1 n) as Hin by (rewrite <- Hs; by apply (list_elem_of_fmap_2 sequence)).
    apply elem_of_seqZ in Hin. lia. }
  clear Hs. induction l as [|x l IH]; cbn; [lia|].
  assert (sequence x ≤ n) by (apply Hb; left). assert (foldr (λ r m, Z.max (sequence r) m) 0 l ≤ n); [|lia].
  apply IH. intros r Hr. apply Hb. by right.
Qed.

Lemma open_rows o d r s' : open E o d = (r, s') →
  tables (disk s') = tables d ∨ tables (disk s') = tables (waited o d).
Proof.
  unfold open. repeat (guard_case; [intros [_ ->]%pair_inv; by left|]).
  guard_case.
  { unfold configureConnection. intros H. left. revert H. do 2 (guard_case; [by intros [_ ->]%pair_inv|]).
    by intros [_ ->]%pair_inv. }
  guard_case; [intros [_ ->]%pair_inv; by left|]. intros H. right. revert H. unfold initialize.
  do 5 (guard_case; [by intros [_ ->]%pair_inv|]). unfold configureConnection.
  do 2 (guard_case; [cbn [negb]; by intros [_ ->]%pair_inv|]). cbn [negb].
  guard_case; [|by intros [_ ->]%pair_inv]. unfold createSchema.
  do 3 (guard_case; [by intros [_ ->]%pair_inv|]). by intros [_ ->]%pair_inv.
Qed.

(** One call: the log grows by the message that was accepted. *)
Lemma perform_logged op s m s' sent :
  logged sent (rows s) → freshId E ∉ map msgId sent → freshId E ≠ [] →
  (∀ o d, op = Open o → tables (waited o d) = tables d) →
  perform E op s = (m, s') → logged (sent ++ match m with Some m => [m] | None => [] end) (rows s').
Proof.
  intros Hl Hf Hne Hw. destruct op as [o| |sender topic payload|limit|consumer seq|value]; cbn [perform].
  - destruct (open E o (disk s)) as [r s1] eqn:Eo. apply open_rows in Eo. rewrite Hw in Eo by done.
    intros [-> ->]%pair_inv. rewrite app_nil_r. unfold rows in *. cbn [snd]. by destruct Eo as [-> | ->].
  - intros [-> ->]%pair_inv. by rewrite app_nil_r.
  - destruct (enqueue E sender topic payload s) as [i s1] eqn:Ee.
    apply guarded_rows in Ee as [[Hd ->]|(s2 & Hd & He)].
    { change (isEmpty []) with true. intros [-> ->]%pair_inv. rewrite app_nil_r. unfold rows in *. by rewrite Hd. }
    revert He. cbv beta zeta. destruct (negb (validName topic) || _ || _ || _);
      [|destruct (negb (sql E InsertOutbox) || _)]; [intros [-> ->]%pair_inv; change (isEmpty []) with true;
      intros [-> ->]%pair_inv; rewrite app_nil_r; unfold rows, setError in *; cbn; by rewrite Hd..|].
    intros [-> ->]%pair_inv. unfold isEmpty. rewrite bool_decide_eq_false_2 by done. intros [-> ->]%pair_inv.
    unfold rows in *. cbn. rewrite Hd. by apply logged_fresh.
  - destruct (receivePending E limit s) as [r s1] eqn:Ee. intros [-> ->]%pair_inv. rewrite app_nil_r. cbn [snd].
    apply guarded_rows in Ee as [[Hd ->]|(s2 & Hd & He)]; [unfold rows in *; by rewrite Hd|].
    assert (Hl2 : logged sent (rows s2)) by (unfold rows in *; by rewrite Hd).
    revert He. cbv beta zeta. destruct (_ || _); [intros [-> ->]%pair_inv; exact Hl2|].
    do 2 (destruct (negb _); [intros [-> ->]%pair_inv; exact Hl2|]).
    destruct (moveRows E _ _) as [t|] eqn:Em; [|intros [-> ->]%pair_inv; exact Hl2].
    destruct (negb _); intros [-> ->]%pair_inv; [exact Hl2|]. apply (moveRows_logged sent) in Em as [Hl' _]; [exact Hl'|done].
  - destruct (acknowledge E consumer seq s) as [r s1] eqn:Ee. intros [-> ->]%pair_inv. rewrite app_nil_r. cbn [snd].
    apply guarded_rows in Ee as [[Hd ->]|(s2 & Hd & He)]; [unfold rows in *; by rewrite Hd|].
    assert (Hl2 : logged sent (rows s2)) by (unfold rows in *; by rewrite Hd).
    revert He. destruct (_ || _) eqn:Eg; [intros [-> ->]%pair_inv; exact Hl2|]. bool_hyps.
    guard_case; [intros [-> ->]%pair_inv; exact Hl2|]. destruct (Z.ltb_spec (lastReceived (rows s2)) seq) as [|Hs];
      [intros [-> ->]%pair_inv; exact Hl2|].
    guard_case; intros [-> ->]%pair_inv; [exact Hl2|]. destruct Hl2 as [H1 H2 H3 H4 H5 H6].
    assert (0 ≤ counter (rows s2)) by lia. pose proof (lastReceived_bound _ _ H3 ltac:(lia)) as Hb.
    unfold rows in *. split; try done. cbn. intros c n.
    destruct (consumers (tables (disk s2)) !! consumer) as [old|] eqn:Eo;
      (intros [[<- <-]|[_ Hc]]%lookup_insert_Some; [|by apply H6 in Hc]); unfold lastReceived in Hs.
    + apply H6 in Eo. lia.
    + lia.
  - destruct (setDaemonSnapshot E value s) as [r s1] eqn:Ee. intros [-> ->]%pair_inv. rewrite app_nil_r. cbn [snd].
    apply guarded_rows in Ee as [[Hd ->]|(s2 & Hd & He)]; [unfold rows in *; by rewrite Hd|].
    assert (Hl2 : logged sent (rows s2)) by (unfold rows in *; by rewrite Hd).
    revert He. guard_case; intros [-> ->]%pair_inv; [|exact Hl2]. destruct Hl2. by split.
Qed.
End laws.

(** ** Histories *)
Section histories.
Context {PF : Platform}.

Lemma perform_id E op s m s' : perform E op s = (Some m, s') → msgId m = freshId E.
Proof.
  destruct op as [o| |sender topic payload|limit|consumer seq|value]; cbn [perform]; try done.
  destruct (enqueue E sender topic payload s) as [i s1] eqn:Ee.
  destruct (isEmpty i) eqn:Ei; [done|]. intros [= <- _]. cbn.
  apply guarded_rows in Ee as [[_ ->]|(s2 & _ & He)]; [done|]. revert He. cbv beta zeta.
  destruct (_ || _); [intros [-> _]%pair_inv; done|]. destruct (_ || _); intros [-> _]%pair_inv; done.
Qed.

Lemma performAll_logged events s sent :
  logged sent (rows s) →
  NoDup (map (λ ev : Env * Op, freshId ev.1) events) →
  Forall (λ ev : Env * Op, freshId ev.1 ≠ [] ∧ freshId ev.1 ∉ map msgId sent
          ∧ ∀ o d, ev.2 = Open o → tables (waited o d) = tables d) events →
  let r := performAll events s in logged (sent ++ r.1) (rows r.2).
Proof.
  revert s sent. induction events as [|[E op] events IH]; intros s sent Hl Hn Hf; cbn [performAll].
  - cbn. by rewrite app_nil_r.
  - apply Forall_cons in Hf as [(Hne & Hfr & Hw) Hf]. cbn in *. apply NoDup_cons in Hn as [Hni Hn].
    destruct (perform E op s) as [m s1] eqn:Ep.
    pose proof (perform_logged E op s m s1 sent Hl Hfr Hne Hw Ep) as Hl1.
    assert (Forall (λ ev : Env * Op, freshId ev.1 ≠ []
      ∧ freshId ev.1 ∉ map msgId (sent ++ match m with Some m => [m] | None => [] end)
      ∧ ∀ o d, ev.2 = Open o → tables (waited o d) = tables d) events) as Hf'.
    { rewrite Forall_forall in Hf |- *. intros ev Hev. destruct (Hf ev Hev) as (H1 & H2 & H3). split_and!; try done.
      rewrite map_app, not_elem_of_app. split; [done|]. destruct m as [m|]; [|apply not_elem_of_nil].
      cbn. intros Hin%list_elem_of_singleton. apply Hni. rewrite <- (perform_id _ _ _ _ _ Ep), <- Hin.
      by apply (list_elem_of_fmap_2 (λ ev : Env * Op, freshId ev.1)). }
    specialize (IH s1 _ Hl1 Hn Hf'). destruct (performAll events s1) as [rest s2]. cbn [fst snd] in *.
    destruct m; by rewrite <- app_assoc in IH.
Qed.
End histories.

(** ** Reading in pages *)
Lemma filter_after (l : list Receipt) a n c :
  map sequence l = seqZ a n → List.filter (λ r, c <? sequence r) l = drop (Z.to_nat (c + 1 - a)) l.
Proof.
  revert a n. induction l as [|r l IH]; intros a n Hs; [by rewrite drop_nil|]. cbn [map List.filter] in *.
  destruct (Z.ltb_spec 0 n) as [Hn|Hn]; [|by rewrite seqZ_nil in Hs by lia].
  rewrite seqZ_cons in Hs by done. injection Hs as Hr Hs. apply IH in Hs.
  destruct (Z.ltb_spec c (sequence r)).
  - replace (Z.to_nat (c + 1 - a)) with 0%nat by lia. cbn [drop]. f_equal.
    replace (Z.to_nat (c + 1 - Z.succ a)) with 0%nat in Hs by lia. exact Hs.
  - replace (Z.to_nat (c + 1 - a)) with (S (Z.to_nat (c + 1 - Z.succ a))) by lia. exact Hs.
Qed.

(** A reader that follows the pages: the last sequence of one is the cursor of the next. *)
Fixpoint readAll (fuel : nat) (limit cursor : Z) (t : Tables) : list Receipt :=
  match fuel with
  | O => []
  | S fuel =>
      match pageAfter cursor limit t with
      | [] => []
      | page => page ++ readAll fuel limit (match last page with Some r => sequence r | None => cursor end) t
      end
  end.

Section paging.
Context {PF : Platform}.
Lemma pageAfter_drop sent t limit c :
  logged sent t → pageAfter c limit t = take (Z.to_nat limit) (drop (Z.to_nat c) (inbox t)).
Proof.
  intros Hl. unfold pageAfter. rewrite (filter_after _ 1 (counter t)) by apply (log_sequences _ _ Hl).
  do 2 f_equal. lia.
Qed.
Lemma sequence_lookup sent t i r : logged sent t → inbox t !! i = Some r → sequence r = Z.of_nat i + 1.
Proof.
  intros Hl Hi. assert (map sequence (inbox t) !! i = Some (sequence r)) as H by (by rewrite list_lookup_fmap, Hi).
  rewrite (log_sequences _ _ Hl) in H. apply lookup_seqZ in H as [-> _]. lia.
Qed.
Lemma readAll_complete sent t limit fuel c :
  logged sent t → 1 ≤ limit → 0 ≤ c → (List.length (inbox t) - Z.to_nat c < fuel)%nat →
  readAll fuel limit c t = drop (Z.to_nat c) (inbox t).
Proof.
  intros Hl Hlim. revert c. induction fuel as [|fuel IH]; intros c Hc Hf; [lia|]. cbn [readAll].
  rewrite (pageAfter_drop sent) by done.
  set (rest := drop (Z.to_nat c) (inbox t)). destruct (decide (rest = [])) as [E0|Hne].
  { rewrite E0. by rewrite take_nil. }
  assert (0 < List.length rest)%nat as Hlen by (destruct rest; [done|cbn; lia]).
  set (page := take (Z.to_nat limit) rest).
  assert (List.length page = Nat.min (Z.to_nat limit) (List.length rest)) as Hp by apply length_take.
  destruct (last page) as [r|] eqn:El; cycle 1.
  { apply last_None in El. rewrite El in Hp. cbn in Hp. lia. }
  assert (sequence r = c + Z.of_nat (List.length page)) as Hr.
  { rewrite last_lookup in El. apply lookup_take_Some in El as [El _].
    unfold rest in El. rewrite lookup_drop in El. apply (sequence_lookup sent) in El; [|done]. rewrite El. lia. }
  assert (readAll fuel limit (sequence r) t = drop (Z.to_nat (sequence r)) (inbox t)) as Hnext.
  { assert (1 <= List.length page)%nat by lia. apply IH; [lia|].
    unfold rest in Hlen. rewrite length_drop in Hlen. lia. }
  assert (page ++ drop (Z.to_nat (sequence r)) (inbox t) = rest) as Hcat.
  { replace (drop (Z.to_nat (sequence r)) (inbox t)) with (drop (List.length page) rest).
    - unfold page. destruct (Nat.le_gt_cases (Z.to_nat limit) (List.length rest)).
      + rewrite length_take_le by done. apply take_drop.
      + rewrite take_ge by lia. rewrite drop_all. apply app_nil_r.
    - unfold rest. rewrite drop_drop. f_equal. lia. }
  destruct page as [|r0 l]; [done|]. by rewrite El, Hnext.
Qed.
End paging.

(** ** Theorems *)
Section theorems.
Context {PF : Platform}.

(** C17: Exactly once and in order.  Whatever processes call the store in whatever
    order, and whichever of their statements the database refuses, what has been
    received followed by what is still pending is the list of accepted messages in
    the order of their acceptance, none lost and none twice; the receipts are
    numbered 1, 2, 3, ... without a gap; and no consumer's cursor is beyond them.
    Identifiers must be unique, and what others do to the file while a process
    waits for the initialization lock is part of the sequence itself. *)
Theorem delivered_once_in_order events :
  NoDup (map (λ ev : Env * Op, freshId ev.1) events) →
  Forall (λ ev : Env * Op, freshId ev.1 ≠ [] ∧ ∀ o d, ev.2 = Open o → tables (waited o d) = tables d) events →
  let r := performAll events (mkDelivery false noDisk []) in
  let t := rows r.2 in
  map message (inbox t) ++ outbox t = r.1 ∧ NoDup (map msgId r.1)
  ∧ map sequence (inbox t) = seqZ 1 (Z.of_nat (List.length (inbox t)))
  ∧ ∀ c n, consumers t !! c = Some n → 0 ≤ n ≤ Z.of_nat (List.length (inbox t)).
Proof.
  intros Hn Hf r t. assert (logged r.1 t) as [H1 H2 H3 H4 H5 H6].
  { apply (performAll_logged events (mkDelivery false noDisk []) []); [exact logged_empty|done|].
    eapply Forall_impl; [exact Hf|]. intros ev [Ha Hb]. split_and!; [done|by apply not_elem_of_nil|done]. }
  rewrite <- H4. by split_and!.
Qed.

(** Nothing is missed by reading in pages: from any cursor, a reader that asks for
    the next page after the last sequence it got, until a page is empty, gets every
    receipt after its cursor, once and in order, whatever the page size. *)
Theorem pages_miss_nothing sent t limit cursor :
  logged sent t → 1 ≤ limit → 0 ≤ cursor →
  readAll (S (List.length (inbox t))) limit cursor t = List.filter (λ r, cursor <? sequence r) (inbox t).
Proof.
  intros Hl Hlim Hc. rewrite (readAll_complete sent) by (done || lia).
  rewrite (filter_after _ 1 (counter t)) by apply (log_sequences _ _ Hl). f_equal. lia.
Qed.

(** Receiving moves the oldest messages, up to the limit, all of them or none: the
    answer is how many, and a refusal, wherever in the transaction it happens,
    leaves both tables as they were. *)
Theorem receive_all_or_none E limit s sent :
  logged sent (rows s) →
  let r := receivePending E limit s in
  let t := rows s in let t' := rows r.2 in
  (r.1 = -1 ∧ t' = t)
  ∨ (1 ≤ limit ≤ 256 ∧ r.1 = Z.of_nat (List.length (take (Z.to_nat limit) (outbox t)))
     ∧ map message (inbox t') = map message (inbox t) ++ take (Z.to_nat limit) (outbox t)
     ∧ outbox t' = drop (Z.to_nat limit) (outbox t)).
Proof.
  intros Hl r t t'. subst t t'. destruct r as [n s'] eqn:Er. subst r. cbn [fst snd].
  apply guarded_rows in Er as [[Hd ->]|(s2 & Hd & He)]; [left; split; [done|by unfold rows; rewrite Hd]|].
  assert (Et : rows s2 = rows s) by (unfold rows; by rewrite Hd). revert He. cbv beta zeta.
  destruct (_ || _) eqn:Eg; [intros [-> ->]%pair_inv; left; by split|]. bool_hyps.
  do 2 (destruct (negb _); [intros [-> ->]%pair_inv; left; by split|]). rewrite Et.
  destruct (moveRows E _ _) as [t|] eqn:Em; [|intros [-> ->]%pair_inv; left; by split].
  destruct (negb _); intros [-> ->]%pair_inv; [left; by split|right].
  destruct (moveRows_logged E sent _ t _ Hl Em) as [Hl' Ho]. split_and!; [lia|lia|done| |exact Ho].
  apply (app_inv_tail (drop (Z.to_nat limit) (outbox (rows s)))). cbn [rows disk tables setTables].
  rewrite <- app_assoc, take_drop, <- Ho. rewrite (log_messages _ _ Hl'). symmetry. apply (log_messages _ _ Hl).
Qed.
End theorems.

(** ** Examples *)
Section examples.
Import Demo.
Definition openEnv (n : string) : Env := {|
  sql _ := true; lastError := u "database_error"; rootIntact := true; localDirectory := true; localError := [];
  filesRedirected := false; now := u "2024-01-01T00:00:00.000Z"; freshId := u n |}.
Definition opening : Opening := mkOpening true false false true [] false true true true false false true true
  true (λ d, d) false false true true true.
Definition app : Peer := mkPeer (mkApplication (u "com.example.app") (u "App") (u "1")) Demo.uuid 1 Foreground [] [].
(** The end of a batch that the disk refused is received with the next one. *)
Definition refusing (n : string) : Env := {|
  sql st := match st with Commit => false | _ => true end; lastError := u "database is locked"; rootIntact := true;
  localDirectory := true; localError := []; filesRedirected := false; now := []; freshId := u n |}.
Definition history : list (Env * Op) :=
  [(openEnv "0", Open opening); (openEnv "a", Enqueue app (u "topic") ∅); (openEnv "b", Enqueue app (u "topic") ∅);
   (refusing "1", Receive 8); (openEnv "2", Receive 1); (openEnv "c", Enqueue app (u "topic") ∅);
   (openEnv "3", Receive 8); (openEnv "4", Acknowledge (u "reader") 2)].
Example history_received :
  let r := performAll history (mkDelivery false noDisk []) in
  map msgId r.1 = map u ["a"; "b"; "c"]%string ∧ map sequence (inbox (rows r.2)) = [1; 2; 3]
  ∧ consumers (rows r.2) !! u "reader" = Some 2.
Proof. by vm_compute. Qed.

Lemma delivered_once_in_order_witness :
  let r := performAll history (mkDelivery false noDisk []) in
  map message (inbox (rows r.2)) ++ outbox (rows r.2) = r.1.
Proof.
  refine (proj1 (delivered_once_in_order history _ _)).
  - by_compute.
  - repeat constructor; try (by intros o d [= <-]); by_compute.
Defined.

Definition three : Tables := mkTables [] (map (λ n, mkReceipt n (mkMessage (numberStr n) [] [] [] []) []) [1; 2; 3]) 3 ∅ None.
Lemma three_logged : logged (map message (inbox three)) three.
Proof. split; try done; by_compute. Qed.
Lemma pages_miss_nothing_witness : map sequence (readAll (S (List.length (inbox three))) 2 1 three) = [2; 3].
Proof. rewrite (pages_miss_nothing _ three 2 1 three_logged) by done. reflexivity. Defined.

Lemma receive_all_or_none_witness :
  (receivePending (refusing "x") 8 (mkDelivery true (mkDisk true 1 true noTables) [])).1 = -1.
Proof.
  destruct (receive_all_or_none (refusing "x") 8 (mkDelivery true (mkDisk true 1 true noTables) []) [] logged_empty)
    as [[H _]|(_ & H & _)]; [exact H|]. exfalso. revert H. by vm_compute.
Defined.
End examples.
End Delivery.
