(* ===== verification/Presence.v ===== *)
(** The observation of applications on one device, src/Core/Helper.cpp: presence
    records, what a scan concludes from them, and the cycle of publishing and
    scanning, with the messages it queues. *)
From S2P Require Import Prelude Qt Records Demo Applications Delivery.
Open Scope Z_scope.

Module Presence.
Import Records Applications.

Definition maximumRecordBytes : Z := 8192.
Record Entry := mkEntry { peer : Peer; heartbeat : Z }.
Inductive DepartureReason := Withdrawn | TimedOut.
Record Observation := mkObservation { seen : Entry; lastAdvance : Z; visible : bool }.

(** QString::toULongLong in base 10. *)
Definition toULongLong (s : QString) : option Z :=
  let? n := match trimmed s with
            | c :: r => if (c =? 43)%N then unsignedNumber r else unsignedNumber (c :: r)
            | [] => None
            end in
  if n <? 2 ^ 64 then Some n else None.

(** ** Presence records *)
Section records.
Context {PF : Platform}.
(** QJsonDocument::fromJson read as an object, and QDateTime::fromString with
    Qt::ISODateWithMs: the text of the time, empty when it is not one. *)
Variables (parseJson : list N → jobj) (parseTime : QString → QString).

(** What [publish] writes for the instance. *)
Definition published (p : Peer) (sequence : Z) : jobj :=
  let o := jremove (toVariantMap p) "lastSeenAt" in
  let o := jinsert o "startedAt" (JStr (startedAt p)) in
  jinsert (jinsert o "protocol" (JNum 1)) "heartbeat" (JStr (numberStr sequence)).
(** The file of a record: its name without the extension, and its bytes when it is
    a file, not a link, that could be read. *)
Record Info := mkInfo { baseName : QString; isFile : bool; isLink : bool; size : Z; contents : option (list N) }.
Definition activityOf (s : QString) : option Activity :=
  if bool_decide (s = u "foreground") then Some Foreground
  else if bool_decide (s = u "background") then Some Background
  else if bool_decide (s = u "unknown") then Some Unknown else None.
Definition canonicalUuid (s : QString) : bool := bool_decide (parseUuid s = Some s).
Definition readRecord (info : Info) : option Entry :=
  if negb (isFile info) || isLink info || (maximumRecordBytes <? size info) then None
  else if negb (canonicalUuid (baseName info)) then None else
  let? data := contents info in
  if maximumRecordBytes <? Z.of_nat (List.length data) then None else
  let o := parseJson data in
  if negb (toInt o.["protocol"] =? 1) || bool_decide (toStr o.["instanceId"] ≠ baseName info) then None else
  let app := mkApplication (toStr o.["applicationId"]) (toStr o.["name"]) (toStr o.["version"]) in
  let started := parseTime (toStr o.["startedAt"]) in
  let? activity := activityOf (toStr o.["activity"]) in
  let? sequence := toULongLong (toStr o.["heartbeat"]) in
  if negb (validApplication app) || (toIntegerOr 0 o.["processId"] <=? 0) || isEmpty started || (sequence =? 0) then None
  else Some (mkEntry (mkPeer app (baseName info) (toIntegerOr 0 o.["processId"]) activity started []) sequence).

Record PresenceResult := mkResult {
  failure : QString;
  publishedAt : QString;
  records : list Entry;
  presentRecords : gset QString
}.
(** One pass over the directory: the record is replaced if asked to, then every other
    instance's record is read. [publication] is the outcome of the write. *)
Definition inspectPresence (intact : bool) (publication : QString) (now : QString) (listing : list Info)
    (self : QString) (publish scan : bool) : PresenceResult :=
  if negb intact
  then mkResult (u "The Society Helper observation directory disappeared or was redirected.") [] [] ∅ else
  if publish && negb (isEmpty publication) then mkResult publication [] [] ∅ else
  let publishedAt := if publish then now else [] in
  if scan then
    mkResult [] publishedAt
      (List.filter (λ r, negb (bool_decide (instanceId (peer r) = self))) (omap readRecord listing))
      (list_to_set (List.filter (λ n, canonicalUuid n && negb (bool_decide (n = self))) (map baseName listing)))
  else mkResult [] publishedAt [] ∅.
End records.

(** ** What a scan concludes *)
Inductive Signal :=
| Appeared (p : Peer) | Updated (p : Peer) | Disappeared (p : Peer) (reason : DepartureReason) | PeersChanged.
Record Scan := mkScan {
  observations : gmap QString Observation;
  appeared : list Peer;
  updated : list Peer;
  departed : list (Peer * DepartureReason)
}.
(** A QMap lists its keys in ascending order. *)
Definition byKey (a b : QString * Observation) : Prop := qle a.1 b.1.
#[global] Instance byKey_dec : RelDecision byKey := λ a b, decide (qlt b.1 a.1 = false).
Definition ordered (m : gmap QString Observation) : list (QString * Observation) := merge_sort byKey (map_to_list m).
Definition shown (m : gmap QString Observation) : list Peer :=
  map (λ kv : QString * Observation, peer (seen kv.2)) (List.filter (λ kv, visible kv.2) (ordered m)).

(** After our own event loop resumes, old files cannot prove current presence. *)
Definition lapsed (now lastScan timeout : Z) (m : gmap QString Observation) : Scan :=
  if timeout <=? now - lastScan then mkScan ∅ [] [] (map (λ p, (p, TimedOut)) (shown m)) else mkScan m [] [] [].
(** One record: first seen, advanced, or no news. *)
Definition admit_ (now : Z) (time : QString) (s : Scan) (r : Entry) : Scan :=
  let id := instanceId (peer r) in
  match observations s !! id with
  | None => mkScan (<[id := mkObservation r now false]> (observations s)) (appeared s) (updated s) (departed s)
  | Some o =>
      if heartbeat (seen o) <? heartbeat r then
        let p := mkPeer (application (peer r)) id (processId (peer r)) (activity (peer r)) (startedAt (peer r)) time in
        mkScan (<[id := mkObservation (mkEntry p (heartbeat r)) now true]> (observations s))
          (if visible o then appeared s else appeared s ++ [p])
          (if visible o && negb (sameMetadata p (peer (seen o))) then updated s ++ [p] else updated s)
          (departed s)
      else s
  end.
(** One observation: withdrawn, timed out, or kept. *)
Definition sweep (now timeout : Z) (present : gset QString) (s : Scan) (kv : QString * Observation) : Scan :=
  let '(id, o) := kv in
  if bool_decide (id ∉ present) then
    mkScan (delete id (observations s)) (appeared s) (updated s)
      (if visible o then departed s ++ [(peer (seen o), Withdrawn)] else departed s)
  else if visible o && (timeout <=? now - lastAdvance o) then
    mkScan (<[id := mkObservation (seen o) (lastAdvance o) false]> (observations s)) (appeared s) (updated s)
      (departed s ++ [(peer (seen o), TimedOut)])
  else s.
Definition scanned (now lastScan timeout : Z) (time : QString) (records : list Entry) (present : gset QString)
    (m : gmap QString Observation) : Scan :=
  let s := foldl (admit_ now time) (lapsed now lastScan timeout m) records in
  let present := present ∪ list_to_set (map (λ r, instanceId (peer r)) records) in
  foldl (sweep now timeout present) s (ordered (observations s)).
Definition signals (s : Scan) : list Signal :=
  let l := map Appeared (appeared s) ++ map Updated (updated s)
             ++ map (λ d : Peer * DepartureReason, Disappeared d.1 d.2) (departed s) in
  match l with [] => [] | _ => l ++ [PeersChanged] end.

(** ** What listeners are told *)
(** The instances a listener believes to be present, after each signal; [None] when a
    signal contradicts what it was told before. *)
Definition told (v : gset QString) (sig : Signal) : option (gset QString) :=
  match sig with
  | Appeared p => if decide (instanceId p ∈ v) then None else Some ({[ instanceId p ]} ∪ v)
  | Updated p => if decide (instanceId p ∈ v) then Some v else None
  | Disappeared p _ => if decide (instanceId p ∈ v) then Some (v ∖ {[ instanceId p ]}) else None
  | PeersChanged => Some v
  end.
Fixpoint toldAll (v : gset QString) (l : list Signal) : option (gset QString) :=
  match l with
  | [] => Some v
  | sig :: l => let? v := told v sig in toldAll v l
  end.
Definition visibleIds (m : gmap QString Observation) : gset QString :=
  dom (filter (λ kv : QString * Observation, visible kv.2 = true) m).
(** Each observation is filed under the instance it is of. *)
Definition keyed (m : gmap QString Observation) : Prop :=
  ∀ id o, m !! id = Some o → instanceId (peer (seen o)) = id.

Lemma elem_of_visibleIds m id : id ∈ visibleIds m ↔ ∃ o, m !! id = Some o ∧ visible o = true.
Proof.
  unfold visibleIds. rewrite elem_of_dom. split.
  - intros [o Ho]. apply map_lookup_filter_Some in Ho as [Ho Hv]. by exists o.
  - intros (o & Ho & Hv). exists o. by apply map_lookup_filter_Some.
Qed.
Lemma visibleIds_insert m id o :
  visibleIds (<[id := o]> m) = if visible o then {[ id ]} ∪ visibleIds m else visibleIds m ∖ {[ id ]}.
Proof.
  apply set_eq. intros x. destruct (visible o) eqn:Hv;
    rewrite ?elem_of_union, ?elem_of_difference, elem_of_singleton, !elem_of_visibleIds;
    destruct (decide (x = id)) as [->|Hx].
  - rewrite lookup_insert_eq. split; [by left|]. intros _. by exists o.
  - rewrite lookup_insert_ne by done. tauto.
  - rewrite lookup_insert_eq. split; [intros (o' & [= <-] & Hv'); congruence|tauto].
  - rewrite lookup_insert_ne by done. tauto.
Qed.
Lemma visibleIds_delete m id : visibleIds (delete id m) = visibleIds m ∖ {[ id ]}.
Proof.
  apply set_eq. intros x. rewrite elem_of_difference, elem_of_singleton, !elem_of_visibleIds.
  destruct (decide (x = id)) as [->|Hx]; [rewrite lookup_delete_eq|rewrite lookup_delete_ne by done]; naive_solver.
Qed.

Lemma ordered_spec m : ordered m ≡ₚ map_to_list m.
Proof. apply merge_sort_Permutation. Qed.
Lemma ordered_lookup m kv : kv ∈ ordered m → m !! kv.1 = Some kv.2.
Proof. rewrite ordered_spec. destruct kv. apply elem_of_map_to_list. Qed.
Lemma ordered_nodup m : NoDup (ordered m).*1.
Proof. rewrite ordered_spec. apply NoDup_fst_map_to_list. Qed.

Definition idsOf (l : list Peer) : gset QString := list_to_set (map instanceId l).

(** What one pass has found, starting from the visible set [v]. *)
Record found (v : gset QString) (s : Scan) : Prop := {
  found_keyed : keyed (observations s);
  found_appeared : NoDup (map instanceId (appeared s)) ∧ idsOf (appeared s) ## v;
  found_updated : idsOf (updated s) ⊆ v ∪ idsOf (appeared s);
  found_departed : NoDup (map (λ d, instanceId d.1) (departed s))
                   ∧ idsOf (map fst (departed s)) ⊆ v ∪ idsOf (appeared s);
  found_visible : visibleIds (observations s) = (v ∪ idsOf (appeared s)) ∖ idsOf (map fst (departed s))
}.

Lemma idsOf_snoc l p : idsOf (l ++ [p]) = idsOf l ∪ {[ instanceId p ]}.
Proof. unfold idsOf. rewrite map_app, list_to_set_app_L. cbn. set_solver. Qed.
Lemma elem_of_idsOf l id : id ∈ idsOf l ↔ id ∈ map instanceId l.
Proof. apply elem_of_list_to_set. Qed.

(** Nobody has departed before the sweep, unless the scan lapsed and then nobody is
    visible before or after the records. *)
Lemma admit_found v s now time r :
  found v s → departed s = [] → found v (admit_ now time s r) ∧ departed (admit_ now time s r) = [].
Proof.
  intros Hf Hnil. pose proof Hf as [Hk Ha Hu Hd Hv]. unfold admit_. set (id := instanceId (peer r)).
  rewrite Hnil in Hv. cbn in Hv. change (idsOf []) with (∅ : gset QString) in Hv. rewrite difference_empty_L in Hv.
  assert (Hkey : ∀ o, instanceId (peer (seen o)) = id → keyed (<[id := o]> (observations s))).
  { intros o Ho x o'. intros [[<- <-]|[_ H]]%lookup_insert_Some; [done|eauto]. }
  destruct (observations s !! id) as [o|] eqn:Eo.
  - destruct (heartbeat (seen o) <? heartbeat r); [|by split].
    destruct (visible o) eqn:Evis.
    + assert (id ∈ visibleIds (observations s)) as Hin by (apply elem_of_visibleIds; eauto).
      split; [|done]. split; cbn [observations appeared updated departed].
      * by apply Hkey.
      * done.
      * cbn [andb]. destruct (negb _); [|done]. rewrite idsOf_snoc. cbn [instanceId]. set_solver.
      * done.
      * rewrite visibleIds_insert. cbn [visible]. rewrite Hv, Hnil. cbn. change (idsOf []) with (∅ : gset QString).
        rewrite difference_empty_L. set_solver.
    + assert (id ∉ visibleIds (observations s)) as Hin by (rewrite elem_of_visibleIds; intros (o' & Ho & Hvo); congruence).
      rewrite Hv in Hin. split; [|done]. split; cbn [observations appeared updated departed andb].
      * by apply Hkey.
      * rewrite map_app, idsOf_snoc. cbn [map instanceId]. destruct Ha as [Ha1 Ha2]. split; [|set_solver].
        apply NoDup_app. split_and!; [done| |apply NoDup_singleton].
        intros x Hx ->%list_elem_of_singleton. apply Hin. rewrite elem_of_union, elem_of_idsOf. by right.
      * rewrite idsOf_snoc. set_solver.
      * rewrite Hnil. split; [constructor|set_solver].
      * rewrite visibleIds_insert, idsOf_snoc. cbn [visible instanceId]. rewrite Hv, Hnil. cbn.
        change (idsOf []) with (∅ : gset QString). set_solver.
  - assert (id ∉ visibleIds (observations s)) as Hin by (rewrite elem_of_visibleIds; intros (o' & Ho & Hvo); congruence).
    split; [|done]. split; cbn [observations appeared updated departed]; try done.
    + by apply Hkey.
    + rewrite visibleIds_insert. cbn [visible]. rewrite Hnil. cbn. change (idsOf []) with (∅ : gset QString).
      rewrite Hv in *. set_solver.
Qed.
Lemma admitAll_found v now time records s :
  found v s → departed s = [] →
  found v (foldl (admit_ now time) s records) ∧ departed (foldl (admit_ now time) s records) = [].
Proof.
  revert s. induction records as [|r records IH]; intros s Hf Hd; [done|]. cbn [foldl].
  destruct (admit_found v s now time r Hf Hd). by apply IH.
Qed.

Lemma minus_absent (X : gset QString) x : x ∉ X → X ∖ {[ x ]} = X.
Proof. set_solver. Qed.
Lemma sweep_found v now timeout present s id o :
  found v s → observations s !! id = Some o →
  found v (sweep now timeout present s (id, o))
  ∧ ∀ k, k ≠ id → observations (sweep now timeout present s (id, o)) !! k = observations s !! k.
Proof.
  intros Hf Ho. pose proof Hf as [Hk Ha Hu Hd Hv]. pose proof (Hk _ _ Ho) as Hid. cbn [sweep].
  assert (Hgone : ∀ reason, visible o = true →
    NoDup (map (λ d, instanceId d.1) (departed s ++ [(peer (seen o), reason)]))
    ∧ idsOf (map fst (departed s ++ [(peer (seen o), reason)])) = idsOf (map fst (departed s)) ∪ {[ id ]}
    ∧ id ∈ v ∪ idsOf (appeared s)).
  { intros reason Hvis. assert (id ∈ visibleIds (observations s)) as Hin by (apply elem_of_visibleIds; eauto).
    rewrite Hv in Hin. apply elem_of_difference in Hin as [Hin Hout]. split_and!; [| |done].
    - rewrite map_app. apply NoDup_app. split_and!; [apply Hd| |apply NoDup_singleton].
      intros x Hx ->%list_elem_of_singleton. apply Hout. rewrite elem_of_idsOf, map_map, <- Hid. exact Hx.
    - rewrite map_app. cbn [map fst]. by rewrite idsOf_snoc, Hid. }
  destruct (bool_decide (id ∉ present)); [|destruct (visible o && _) eqn:Et; [|by split]].
  - split; [|intros k Hne; by apply lookup_delete_ne]. split; cbn [observations appeared updated departed]; try done.
    + intros x o' Hx. apply lookup_delete_Some in Hx as [_ Hx]. eauto.
    + destruct (visible o) eqn:Hvis; [|done]. destruct (Hgone Withdrawn eq_refl) as (H1 & H2 & H3).
      split; [done|]. rewrite H2. apply union_subseteq. split; [apply Hd|by apply singleton_subseteq_l].
    + rewrite visibleIds_delete, Hv. destruct (visible o) eqn:Hvis.
      * destruct (Hgone Withdrawn eq_refl) as (H1 & -> & H3). by rewrite difference_difference_l_L.
      * assert (id ∉ visibleIds (observations s)) as Hout
          by (rewrite elem_of_visibleIds; intros (o' & Ho' & Hvo); congruence).
        rewrite Hv in Hout. by apply minus_absent.
  - apply andb_true_iff in Et as [Hvis _]. destruct (Hgone TimedOut Hvis) as (H1 & H2 & H3).
    split; [|intros k Hne; by apply lookup_insert_ne]. split; cbn [observations appeared updated departed]; try done.
    + intros x o'. intros [[<- <-]|[_ Hx]]%lookup_insert_Some; [done|eauto].
    + split; [done|]. rewrite H2. apply union_subseteq. split; [apply Hd|by apply singleton_subseteq_l].
    + rewrite visibleIds_insert. cbn [visible]. by rewrite H2, Hv, difference_difference_l_L.
Qed.

Lemma sweepAll_found v now timeout present l s :
  found v s → NoDup l.*1 → (∀ kv, kv ∈ l → observations s !! kv.1 = Some kv.2) →
  found v (foldl (sweep now timeout present) s l).
Proof.
  revert s. induction l as [|[id o] l IH]; intros s Hf Hn Hl; [done|]. cbn [foldl].
  cbn in Hn. apply NoDup_cons in Hn as [Hni Hn].
  destruct (sweep_found v now timeout present s id o Hf) as [Hf' Hk]; [apply (Hl (id, o)); left|].
  apply IH; [done|done|]. intros kv Hkv. rewrite Hk; [apply Hl; by right|].
  intros Eq. apply Hni. rewrite <- Eq. by apply list_elem_of_fmap_2.
Qed.

(** What is swept is exactly what is not present, or silent for too long. *)
Lemma sweepAll_live now timeout present l s id o :
  NoDup l.*1 → (∀ kv, kv ∈ l → observations s !! kv.1 = Some kv.2) →
  (∀ k o, observations s !! k = Some o → (k, o) ∈ l) →
  observations (foldl (sweep now timeout present) s l) !! id = Some o →
  id ∈ present ∧ (visible o = true → now - lastAdvance o < timeout).
Proof.
  intros Hn Hl Hall. assert (∀ k o, observations s !! k = Some o → (k, o) ∉ l → k ∈ present ∧ (visible o = true → now - lastAdvance o < timeout)) as H.
  { intros k o' Hk Hout. destruct Hout. by apply Hall. }
  clear Hall. revert s Hn Hl H. induction l as [|[k ok] l IH]; intros s Hn Hl H; cbn [foldl].
  { intros Ho. eapply H; [exact Ho|apply not_elem_of_nil]. }
  cbn in Hn. apply NoDup_cons in Hn as [Hni Hn].
  assert (Hk : observations s !! k = Some ok) by (apply (Hl (k, ok)); left).
  apply IH; [done| |].
  - intros kv Hkv. assert (kv.1 ≠ k) as Hne by (intros Eq; apply Hni; rewrite <- Eq; by apply list_elem_of_fmap_2).
    rewrite <- (Hl kv) by (by right). cbn [sweep]. repeat case_match; cbn [observations];
      rewrite ?lookup_delete_ne, ?lookup_insert_ne by done; done.
  - intros x o'. destruct (decide (x = k)) as [->|Hne].
    + cbn [sweep]. case_bool_decide as Hp; cbn [observations]; [by rewrite lookup_delete_eq|].
      destruct (visible ok) eqn:Hvis; cbn [andb].
      * destruct (Z.leb_spec timeout (now - lastAdvance ok)); cbn [observations].
        -- rewrite lookup_insert_eq. intros [= <-] _. by split.
        -- rewrite Hk. intros [= <-] _. split; [done|lia].
      * rewrite Hk. intros [= <-] _. split; [done|congruence].
    + assert (observations (sweep now timeout present s (k, ok)) !! x = observations s !! x) as ->.
      { cbn [sweep]. repeat case_match; cbn [observations]; rewrite ?lookup_delete_ne, ?lookup_insert_ne by done; done. }
      intros Hx Hout. apply (H x o' Hx). rewrite not_elem_of_cons. split; [congruence|done].
Qed.

Lemma shown_visible m : keyed m → idsOf (shown m) = visibleIds m ∧ NoDup (map instanceId (shown m)).
Proof.
  intros Hk. assert (map instanceId (shown m) = (List.filter (λ kv : QString * Observation, visible kv.2) (ordered m)).*1) as E.
  { unfold shown. rewrite map_map. apply map_ext_in. intros [id o] Hin%list_elem_of_In. cbn.
    apply list_elem_of_filter_bool in Hin as [_ Hin]. apply ordered_lookup in Hin. cbn in Hin. by apply Hk. }
  split.
  - apply set_eq. intros x. rewrite elem_of_idsOf, E, elem_of_visibleIds, list_elem_of_fmap. split.
    + intros ([id o] & -> & Hin). apply list_elem_of_filter_bool in Hin as [Hv Hin]. exists o. split; [by apply ordered_lookup in Hin|done].
    + intros (o & Ho & Hv). exists (x, o). split; [done|]. apply list_elem_of_filter_bool. split; [done|].
      rewrite ordered_spec. by apply elem_of_map_to_list.
  - rewrite E. eapply sublist_NoDup; [apply ordered_nodup|]. apply fmap_sublist, filter_bool_sublist.
Qed.

(** After a lapse every record is seen for the first time. *)
Lemma admit_lapsed now time records m d :
  keyed m → (∀ k o, m !! k = Some o → visible o = false) → NoDup (map (λ r, instanceId (peer r)) records) →
  (∀ r, r ∈ records → m !! instanceId (peer r) = None) →
  ∃ m', foldl (admit_ now time) (mkScan m [] [] d) records = mkScan m' [] [] d ∧ keyed m' ∧ visibleIds m' = ∅.
Proof.
  revert m. induction records as [|r records IH]; intros m Hk Hv Hn Hf; cbn [foldl].
  - exists m. split_and!; [done..|]. apply set_eq. intros x. rewrite elem_of_visibleIds, elem_of_empty.
    split; [|done]. intros (o & Ho & Hvo). apply Hv in Ho. congruence.
  - cbn in Hn. apply NoDup_cons in Hn as [Hni Hn].
    unfold admit_ at 2. cbn [observations appeared updated departed]. rewrite (Hf r) by left. apply IH; [..|done|].
    + intros x o. intros [[<- <-]|[_ H]]%lookup_insert_Some; [done|eauto].
    + intros x o. intros [[<- <-]|[_ H]]%lookup_insert_Some; [done|eauto].
    + intros r' Hr'. apply lookup_insert_None. split; [apply Hf; by right|].
      intros Eq. apply Hni. rewrite Eq. by apply (list_elem_of_fmap_2 (λ r, instanceId (peer r))).
Qed.

Lemma scanned_found now lastScan timeout time records present m :
  keyed m → NoDup (map (λ r, instanceId (peer r)) records) →
  found (visibleIds m) (scanned now lastScan timeout time records present m).
Proof.
  intros Hk Hn. unfold scanned. apply sweepAll_found; [|apply ordered_nodup|intros kv; apply ordered_lookup].
  unfold lapsed. destruct (timeout <=? now - lastScan).
  - destruct (admit_lapsed now time records ∅ (map (λ p, (p, TimedOut)) (shown m))) as (m' & -> & Hk' & Hv'); [done|done|done|done|].
    destruct (shown_visible m Hk) as [Hs Hs']. assert (map fst (map (λ p, (p, TimedOut)) (shown m)) = shown m) as Efst
      by (rewrite map_map; apply map_id).
    split; cbn [observations appeared updated departed]; rewrite ?Efst.
    + done.
    + split; [constructor|set_solver].
    + set_solver.
    + rewrite map_map. split; [done|set_solver].
    + rewrite Hv', Hs. set_solver.
  - apply admitAll_found; [|done]. split; cbn [observations appeared updated departed]; try done.
    + split; [constructor|set_solver].
    + split; [constructor|set_solver].
    + set_solver.
Qed.

(** *** The signals retell the scan *)
Lemma toldAll_app v l1 l2 : toldAll v (l1 ++ l2) = (let? v := toldAll v l1 in toldAll v l2).
Proof. revert v. induction l1 as [|x l1 IH]; intros v; cbn; [done|]. destruct (told v x); [apply IH|done]. Qed.
Lemma told_appeared v l :
  NoDup (map instanceId l) → idsOf l ## v → toldAll v (map Appeared l) = Some (v ∪ idsOf l).
Proof.
  revert v. induction l as [|p l IH]; intros v Hn Hd; cbn [map toldAll].
  - f_equal. set_solver.
  - apply NoDup_cons in Hn as [Hni Hn]. unfold idsOf in Hd. cbn in Hd. unfold told.
    rewrite decide_False by set_solver. rewrite IH; [|done|].
    + f_equal. unfold idsOf. cbn. set_solver.
    + assert (instanceId p ∉ idsOf l) by (by rewrite elem_of_idsOf). unfold idsOf in *. set_solver.
Qed.
Lemma told_updated v l : idsOf l ⊆ v → toldAll v (map Updated l) = Some v.
Proof.
  induction l as [|p l IH]; intros Hs; cbn [map toldAll]; [done|]. unfold idsOf in *. cbn in Hs. unfold told.
  rewrite decide_True by set_solver. apply IH. set_solver.
Qed.
Lemma told_departed v (l : list (Peer * DepartureReason)) :
  NoDup (map (λ d, instanceId d.1) l) → idsOf (map fst l) ⊆ v →
  toldAll v (map (λ d : Peer * DepartureReason, Disappeared d.1 d.2) l) = Some (v ∖ idsOf (map fst l)).
Proof.
  revert v. induction l as [|d l IH]; intros v Hn Hs; cbn [map toldAll].
  - f_equal. set_solver.
  - cbn in Hn. apply NoDup_cons in Hn as [Hni Hn]. unfold idsOf in Hs. cbn in Hs. unfold told.
    rewrite decide_True by set_solver.
    assert (instanceId d.1 ∉ idsOf (map fst l)) by (by rewrite elem_of_idsOf, map_map).
    unfold idsOf in *. rewrite IH; [|done|set_solver]. f_equal. cbn. set_solver.
Qed.
Lemma found_told v s : found v s → toldAll v (signals s) = Some (visibleIds (observations s)).
Proof.
  intros [_ [Ha1 Ha2] Hu [Hd1 Hd2] Hv].
  assert (toldAll v (map Appeared (appeared s) ++ map Updated (updated s)
            ++ map (λ d : Peer * DepartureReason, Disappeared d.1 d.2) (departed s)) = Some (visibleIds (observations s))) as H.
  { rewrite toldAll_app, told_appeared by done. cbv beta iota.
    rewrite toldAll_app, told_updated by done. cbv beta iota. rewrite told_departed by done. by rewrite Hv. }
  unfold signals. revert H. set (l := map Appeared _ ++ _). intros H. cbv zeta. destruct l as [|x l'] eqn:El; [exact H|].
  rewrite toldAll_app, H. done.
Qed.

(** ** The worker (src/Discovery/PresenceWorker_p.h)
    One operation runs, one waits; a later post takes the place of the waiting one. *)
Record Worker A := mkWorker { pending : option A; active : option A }.
Arguments mkWorker {A}.
Arguments pending {A}.
Arguments active {A}.
Definition idle {A} : Worker A := mkWorker None None.
Definition post {A} (x : A) (w : Worker A) : Worker A := mkWorker (Some x) (active w).
(** [run] takes the pending operation when the last one is finished. *)
Definition takeNext {A} (w : Worker A) : option (A * Worker A) :=
  match active w, pending w with
  | None, Some x => Some (x, mkWorker None (Some x))
  | _, _ => None
  end.
Definition finish {A} (w : Worker A) : Worker A := mkWorker (pending w) None.
Definition inHand {A} (w : Worker A) : list A := match active w with Some x => [x] | None => [] end.
Definition waiting {A} (w : Worker A) : list A := inHand w ++ match pending w with Some x => [x] | None => [] end.
(** What runs until [clearAndWait] and [drain] return. *)
Definition clearAndWait {A} (w : Worker A) : list A * Worker A := (inHand w, idle).
Definition drain {A} (w : Worker A) : list A * Worker A := (waiting w, idle).

(** ** The helper *)
Record Message := mkMessage { sender : Peer; topic : QString; payload : jobj }.
Record Task := mkTask { taskEpoch : Z; taskPeer : Peer; taskHeartbeat : Z; taskPublish : bool }.
Record Batch := mkBatch { batchEpoch : Z; batchMessages : list Message }.
Record Helper := mkHelper {
  running : bool;
  timeout : Z;
  lastScan : Z;
  observed : gmap QString Observation;
  local : Peer;
  sequence : Z;
  epoch : Z;
  cycleInFlight : bool; scanPending : bool; publishPending : bool;
  automaticInFlight : bool;
  automatic : list Message
}.
(** The helper, its two workers and the results on their way back to the event loop.
    [queued] and [handed] record the messages the helper asked to send of its own
    accord and those that were given to a delivery store. *)
Record World := mkWorld {
  helper : Helper;
  presence : Worker Task;
  results : list (Task * PresenceResult);
  mailer : Worker Batch;
  mailed : list Batch;
  queued : list Message;
  handed : list Message
}.
Definition withHelper (h : Helper) (w : World) : World :=
  mkWorld h (presence w) (results w) (mailer w) (mailed w) (queued w) (handed w).
Definition setCycle (inFlight scan publish : bool) (h : Helper) : Helper :=
  mkHelper (running h) (timeout h) (lastScan h) (observed h) (local h) (sequence h) (epoch h) inFlight scan publish
    (automaticInFlight h) (automatic h).
Definition setSequence (n : Z) (h : Helper) : Helper :=
  mkHelper (running h) (timeout h) (lastScan h) (observed h) (local h) n (epoch h) (cycleInFlight h) (scanPending h)
    (publishPending h) (automaticInFlight h) (automatic h).
Definition setLocal (p : Peer) (h : Helper) : Helper :=
  mkHelper (running h) (timeout h) (lastScan h) (observed h) p (sequence h) (epoch h) (cycleInFlight h) (scanPending h)
    (publishPending h) (automaticInFlight h) (automatic h).
Definition setObserved (now : Z) (m : gmap QString Observation) (h : Helper) : Helper :=
  mkHelper (running h) (timeout h) now m (local h) (sequence h) (epoch h) (cycleInFlight h) (scanPending h)
    (publishPending h) (automaticInFlight h) (automatic h).
Definition setAutomatic (inFlight : bool) (l : list Message) (h : Helper) : Helper :=
  mkHelper (running h) (timeout h) (lastScan h) (observed h) (local h) (sequence h) (epoch h) (cycleInFlight h)
    (scanPending h) (publishPending h) inFlight l.

Definition requestCycle (publish : bool) (w : World) : World :=
  let h := helper w in
  if negb (running h) then w else
  if cycleInFlight h then withHelper (setCycle true true (publishPending h || publish) h) w else
  let sequence' := if publish then sequence h + 1 else sequence h in
  let h' := setSequence sequence' (setCycle true (scanPending h) (publishPending h) h) in
  mkWorld h' (post (mkTask (epoch h) (local h) sequence' publish) (presence w)) (results w) (mailer w) (mailed w)
    (queued w) (handed w).

(** *** Automatic messages *)
Definition scheduleAutomatic (w : World) : World :=
  let h := helper w in
  if negb (running h) || automaticInFlight h || bool_decide (automatic h = []) then w else
  mkWorld (setAutomatic true [] h) (presence w) (results w) (post (mkBatch (epoch h) (automatic h)) (mailer w)) (mailed w)
    (queued w) (handed w).
Definition queueAutomatic (topic : string) (payload : jobj) (w : World) : World :=
  let h := helper w in
  if negb (running h) then w else
  let m := mkMessage (local h) (u topic) payload in
  scheduleAutomatic
    (mkWorld (setAutomatic (automaticInFlight h) (automatic h ++ [m]) h) (presence w) (results w) (mailer w) (mailed w)
       (queued w ++ [m]) (handed w)).
(** The slots that the helper connects to its own signals. *)
Definition react (sig : Signal) (w : World) : World :=
  match sig with
  | Appeared p => queueAutomatic "helper.peerAppeared" (toVariantMap p) w
  | Updated p => queueAutomatic "helper.peerUpdated" (toVariantMap p) w
  | Disappeared p reason =>
      queueAutomatic "helper.peerDisappeared"
        (jinsert (toVariantMap p) "reason" (JStr (match reason with Withdrawn => u "withdrawn" | TimedOut => u "timed-out" end))) w
  | PeersChanged => w
  end.
(** A batch is opened and enqueued by the worker, message by message. *)
Definition mail (batches : list Batch) (w : World) : World :=
  mkWorld (helper w) (presence w) (results w) (mailer w) (mailed w ++ batches) (queued w)
    (handed w ++ concat (map batchMessages batches)).
Definition mailCompleted (b : Batch) (w : World) : World :=
  let h := helper w in
  let h := if epoch h =? batchEpoch b then setAutomatic false (automatic h) h else h in
  let w := withHelper h w in
  if negb (running h) || negb (epoch h =? batchEpoch b) then w else scheduleAutomatic w.
Definition flushAutomatic (w : World) : World :=
  mkWorld (setAutomatic (automaticInFlight (helper w)) [] (helper w)) (presence w) (results w) (mailer w) (mailed w)
    (queued w) (handed w ++ automatic (helper w)).

(** [sendData], as [start] and [stop] use it: nothing waits before the message. *)
Definition announce (topic : string) (w : World) : World :=
  let m := mkMessage (local (helper w)) (u topic) (toVariantMap (local (helper w))) in
  mkWorld (helper w) (presence w) (results w) (mailer w) (mailed w) (queued w ++ [m]) (handed w ++ [m]).

(** *** Stopping, completing, starting *)
(** [finished] are the results of the inspection that was running when it stopped. *)
Definition stop (finished : PresenceResult) (w : World) : World :=
  let h := helper w in
  let h := mkHelper (running h) (timeout h) (lastScan h) (observed h) (local h) (sequence h) (epoch h + 1) (cycleInFlight h)
             (scanPending h) (publishPending h) (automaticInFlight h) (automatic h) in
  let '(ran, presence') := clearAndWait (presence w) in
  let '(sent, mailer') := drain (mailer w) in
  let w := mkWorld h presence' (results w ++ map (λ t, (t, finished)) ran) mailer' (mailed w) (queued w) (handed w) in
  let w := mail sent w in
  let w := withHelper (setAutomatic false (automatic (helper w)) (setCycle false false false (helper w))) w in
  let w := flushAutomatic w in
  let w := if running (helper w) then announce "helper.stopped" w else w in
  let h := helper w in
  withHelper (mkHelper false (timeout h) (lastScan h) ∅ (local h) (sequence h) (epoch h) false false false false []) w.
(** The part of a completed cycle that updates the collection, then tells. *)
Definition applyScan (now : Z) (time : QString) (result : PresenceResult) (w : World) : World :=
  let h := helper w in
  let s := scanned now (lastScan h) (timeout h) time (records result) (presentRecords result) (observed h) in
  foldl (λ w sig, react sig w) (withHelper (setObserved now (observations s) h) w) (signals s).
Definition cycleCompleted (now : Z) (time : QString) (finished : PresenceResult) (t : Task) (result : PresenceResult) (w : World) : World :=
  let h := helper w in
  if negb (running h) || negb (epoch h =? taskEpoch t) then w else
  let h := setCycle false (scanPending h) (publishPending h) h in
  if negb (isEmpty (failure result)) then stop finished (withHelper h w) else
  let p := local h in
  let h := if isEmpty (publishedAt result) then h
           else setLocal (mkPeer (application p) (instanceId p) (processId p) (activity p) (startedAt p) (publishedAt result)) h in
  let w := applyScan now time result (withHelper h w) in
  let h := helper w in
  if negb (scanPending h) then w
  else requestCycle (publishPending h) (withHelper (setCycle (cycleInFlight h) false false h) w).
Definition setActivity (a : Activity) (w : World) : World :=
  let h := helper w in
  let p := local h in
  if bool_decide (activity p = a) then w else
  let p := mkPeer (application p) (instanceId p) (processId p) a (startedAt p) (lastSeenAt p) in
  let w := withHelper (setLocal p h) w in
  if running h then queueAutomatic "helper.activity" (toVariantMap p) (requestCycle true w) else w.

Record Options := mkOptions { heartbeatIntervalMs : Z; peerTimeoutMs : Z }.
Definition validOptions (o : Options) : bool :=
  negb ((heartbeatIntervalMs o <? 20) || (60000 <? heartbeatIntervalMs o)
        || (peerTimeoutMs o <? heartbeatIntervalMs o * 3) || (300000 <? peerTimeoutMs o)).
(** [place]: the directory was accepted and made, and the delivery store opened;
    [publication]: the outcome of the first record, which is number 1. *)
Definition start (app : ApplicationInfo) (o : Options) (place : bool) (publication : QString)
    (instance started time : QString) (pid now : Z) (finished : PresenceResult) (w : World) : bool * World :=
  let h := helper w in
  if running h || negb (validApplication app) || negb (validOptions o) || negb place then (false, w) else
  let p := mkPeer app instance pid Unknown started [] in
  let h := mkHelper false (peerTimeoutMs o) now ∅ p 1 (epoch h + 1) (cycleInFlight h) (scanPending h) (publishPending h)
             (automaticInFlight h) (automatic h) in
  if negb (isEmpty publication) then (false, stop finished (withHelper h w)) else
  let p := mkPeer app instance pid Unknown started time in
  let h := mkHelper true (timeout h) (lastScan h) ∅ p 1 (epoch h) (cycleInFlight h) (scanPending h) (publishPending h)
             (automaticInFlight h) (automatic h) in
  (true, requestCycle false (announce "helper.started" (withHelper h w))).
Definition initial (p : Peer) : World :=
  mkWorld (mkHelper false 5000 0 ∅ p 0 0 false false false false []) idle [] idle [] [] [].

(** ** Steps *)
Inductive step : World → World → Prop :=
| step_timer w : step w (requestCycle true w)
| step_changed w : step w (requestCycle false w)
| step_inspect w t p : takeNext (presence w) = Some (t, p) →
    step w (mkWorld (helper w) p (results w) (mailer w) (mailed w) (queued w) (handed w))
| step_inspected w t r : active (presence w) = Some t →
    step w (mkWorld (helper w) (finish (presence w)) (results w ++ [(t, r)]) (mailer w) (mailed w) (queued w) (handed w))
| step_completed w now time f t r rest : results w = (t, r) :: rest →
    step w (cycleCompleted now time f t r
              (mkWorld (helper w) (presence w) rest (mailer w) (mailed w) (queued w) (handed w)))
| step_mail w b m : takeNext (mailer w) = Some (b, m) →
    step w (mkWorld (helper w) (presence w) (results w) m (mailed w) (queued w) (handed w))
| step_mailed w b : active (mailer w) = Some b →
    step w (mail [b] (mkWorld (helper w) (presence w) (results w) (finish (mailer w)) (mailed w) (queued w) (handed w)))
| step_mailCompleted w b rest : mailed w = b :: rest →
    step w (mailCompleted b (mkWorld (helper w) (presence w) (results w) (mailer w) rest (queued w) (handed w)))
| step_activity w a : step w (setActivity a w)
| step_start w app o place publication instance started time pid now f :
    step w (start app o place publication instance started time pid now f w).2
| step_stop w f : step w (stop f w).
Inductive reachable (p : Peer) : World → Prop :=
| reach_initial : reachable p (initial p)
| reach_step w w' : reachable p w → step w w' → reachable p w'.

(** ** One cycle at a time, and no message lost *)
Definition tasks (w : World) : list Task := waiting (presence w) ++ map fst (results w).
Definition batches (w : World) : list Batch := waiting (mailer w) ++ mailed w.
Definition current {A} (e : Z) (epochOf : A → Z) (l : list A) : list A := List.filter (λ x, epochOf x =? e) l.
Definition flag (b : bool) : nat := if b then 1%nat else 0%nat.

(** A worker together with the results it has left, for one kind of operation. *)
Record serial {A} (e : Z) (epochOf : A → Z) (worker : Worker A) (back : list A) (inFlight : bool) : Prop := {
  serial_one : List.length (current e epochOf (waiting worker ++ back)) = flag inFlight;
  serial_past : Forall (λ x, epochOf x ≤ e) (waiting worker ++ back);
  serial_worker : Forall (λ x, epochOf x = e) (waiting worker)
}.
Record sound (w : World) : Prop := {
  sound_cycle : serial (epoch (helper w)) taskEpoch (presence w) (map fst (results w)) (cycleInFlight (helper w));
  sound_mail : serial (epoch (helper w)) batchEpoch (mailer w) (mailed w) (automaticInFlight (helper w));
  sound_stopped : running (helper w) = false →
    cycleInFlight (helper w) = false ∧ automaticInFlight (helper w) = false ∧ automatic (helper w) = [];
  sound_messages : queued w = handed w ++ concat (map batchMessages (waiting (mailer w))) ++ automatic (helper w)
}.

Section serial_laws.
Context {A} (epochOf : A → Z).
Implicit Types (w : Worker A) (back : list A).

Lemma current_all e l : Forall (λ x, epochOf x = e) l → current e epochOf l = l.
Proof. induction 1 as [|x l Hx _ IH]; [done|]. cbn. rewrite (proj2 (Z.eqb_eq _ _) Hx). by f_equal. Qed.
Lemma current_none e l : Forall (λ x, epochOf x ≤ e) l → current (e + 1) epochOf l = [].
Proof. induction 1 as [|x l Hx _ IH]; [done|]. cbn. destruct (Z.eqb_spec (epochOf x) (e + 1)); [lia|done]. Qed.
Lemma current_app e l1 l2 : current e epochOf (l1 ++ l2) = current e epochOf l1 ++ current e epochOf l2.
Proof. apply List.filter_app. Qed.

Lemma current_permutation e l1 l2 : l1 ≡ₚ l2 → List.length (current e epochOf l1) = List.length (current e epochOf l2).
Proof. unfold current. induction 1; cbn; repeat case_match; cbn; congruence. Qed.

(** Nothing in flight: the worker is idle. *)
Lemma serial_idle e w back : serial e epochOf w back false → w = idle.
Proof.
  intros [H1 _ H3]. rewrite current_app, length_app in H1. cbn in H1.
  rewrite (current_all _ _ H3) in H1. destruct w as [[] []]; cbn in *; done || lia.
Qed.
Lemma serial_post e w back x :
  serial e epochOf w back false → epochOf x = e → serial e epochOf (post x w) back true.
Proof.
  intros H Hx. pose proof (serial_idle _ _ _ H) as ->. destruct H as [H1 H2 H3]. cbn in *. split; cbn.
  - rewrite (proj2 (Z.eqb_eq _ _) Hx). cbn. by rewrite H1.
  - constructor; [lia|done].
  - by repeat constructor.
Qed.
Lemma serial_take e w w' back b x :
  serial e epochOf w back b → takeNext w = Some (x, w') → serial e epochOf w' back b ∧ waiting w' = waiting w.
Proof. intros H. destruct w as [[p|] [a|]]; cbn; try done. intros [= <- <-].
  split; [by destruct H|done]. Qed.
Lemma serial_finish e w back b x :
  serial e epochOf w back b → active w = Some x →
  serial e epochOf (finish w) (back ++ [x]) b ∧ waiting w = x :: waiting (finish w).
Proof.
  intros [H1 H2 H3]. destruct w as [p [a|]]; cbn; [|done]. intros [= ->]. split; [|done].
  cbn in *. set (l := match p with Some x => [x] | None => [] end) in *.
  apply Forall_cons in H2 as [Hx H2]. apply Forall_cons in H3 as [Hxe H3].
  assert (x :: l ++ back ≡ₚ l ++ back ++ [x]) as Hp by (rewrite app_assoc; apply Permutation_cons_append).
  split; cbn; fold l.
  - rewrite <- H1. change (if epochOf x =? e then x :: _ else _) with (current e epochOf (x :: l ++ back)).
    by rewrite (current_permutation e _ _ Hp).
  - rewrite <- Hp. by constructor.
  - done.
Qed.
(** A result comes back: nothing is in flight any more, if it is of this epoch. *)
Lemma serial_back e w back b x :
  serial e epochOf w (x :: back) b → serial e epochOf w back (if epochOf x =? e then false else b).
Proof.
  intros [H1 H2 H3]. rewrite current_app, length_app in H1.
  apply Forall_app in H2 as [H2 H2']. apply Forall_cons in H2' as [_ H2'].
  split; [|by apply Forall_app|done]. rewrite current_app, length_app. unfold current in *. cbn in H1.
  destruct (epochOf x =? e); [|done]. cbn in *. destruct b; cbn in *; lia.
Qed.
(** A new epoch, once the worker is idle. *)
Lemma serial_next e w back b : serial e epochOf w back b → w = idle → serial (e + 1) epochOf idle back false.
Proof.
  intros [H1 H2 H3] ->. change (waiting idle ++ back) with back in H2.
  split; change (waiting idle ++ back) with back; [by rewrite current_none| |by apply Forall_nil_2].
  eapply Forall_impl; [exact H2|]. intros x Hx. cbn in Hx. lia.
Qed.
Lemma serial_stop e w back b l :
  serial e epochOf w back b → Forall (λ x, epochOf x ≤ e) l → serial (e + 1) epochOf idle (back ++ l) false.
Proof.
  intros [H1 H2 H3] Hl. apply Forall_app in H2 as [_ H2].
  assert (Forall (λ x, epochOf x ≤ e) (back ++ l)) as H by (by apply Forall_app).
  split; change (waiting idle ++ back ++ l) with (back ++ l); [by rewrite current_none| |by apply Forall_nil_2].
  eapply Forall_impl; [exact H|]. intros x Hx. cbn in Hx. lia.
Qed.
Lemma serial_waiting e w back b : serial e epochOf w back b → Forall (λ x, epochOf x ≤ e) (waiting w).
Proof. intros [_ H _]. by apply Forall_app in H as [H _]. Qed.
End serial_laws.

Lemma sound_initial p : sound (initial p).
Proof. split; [split; [done|apply Forall_nil_2..]|split; [done|apply Forall_nil_2..]|done|done]. Qed.
Lemma sound_mailer w : sound w → automaticInFlight (helper w) = false → mailer w = idle.
Proof. intros [_ H _ _] Hf. rewrite Hf in H. by eapply serial_idle. Qed.

Lemma requestCycle_sound b w : sound w → sound (requestCycle b w).
Proof.
  intros Hs. unfold requestCycle. cbv beta zeta. destruct (running (helper w)) eqn:Hr; [|done].
  destruct Hs as [H1 H2 H3 H4]. destruct (cycleInFlight (helper w)) eqn:Hc; cbn [negb].
  - split; cbn [withHelper helper setCycle presence results mailer mailed queued handed epoch cycleInFlight automaticInFlight running automatic];
      [done..|congruence|done].
  - split; cbn [helper setCycle setSequence presence results mailer mailed queued handed epoch cycleInFlight automaticInFlight running automatic];
      [by apply serial_post|done|congruence|done].
Qed.
Lemma scheduleAutomatic_sound w : sound w → sound (scheduleAutomatic w).
Proof.
  intros Hs. unfold scheduleAutomatic. cbv beta zeta. destruct (running (helper w)) eqn:Hr; [|done].
  destruct (automaticInFlight (helper w)) eqn:Hf; [done|]. cbn [negb orb]. case_bool_decide; [done|].
  pose proof (sound_mailer w Hs Hf) as Hm. destruct Hs as [H1 H2 H3 H4]. rewrite Hf in H2.
  split; cbn [helper setAutomatic presence results mailer mailed queued handed epoch cycleInFlight automaticInFlight running automatic];
    [done|by apply serial_post|congruence|].
  rewrite H4, Hm. cbn. by rewrite !app_nil_r.
Qed.
Lemma queueAutomatic_sound topic payload w : sound w → sound (queueAutomatic topic payload w).
Proof.
  intros Hs. pose proof Hs as [H1 H2 H3 H4]. unfold queueAutomatic. cbv beta zeta. destruct (running (helper w)) eqn:Hr; [|done].
  apply scheduleAutomatic_sound. cbn [negb].
  split; cbn [helper setAutomatic presence results mailer mailed queued handed epoch cycleInFlight automaticInFlight running automatic];
    [done|done|congruence|]. rewrite H4. by rewrite <- !app_assoc.
Qed.
Lemma react_sound sig w : sound w → sound (react sig w).
Proof. intros Hs. destruct sig; [by apply queueAutomatic_sound..|exact Hs]. Qed.
Lemma reactAll_sound l w : sound w → sound (foldl (λ w sig, react sig w) w l).
Proof. revert w. induction l as [|x l IH]; intros w Hs; [done|]. apply IH. by apply react_sound. Qed.

(** A result has come back: the event loop takes it off. *)
Lemma mailCompleted_sound b rest w :
  sound w → mailed w = b :: rest →
  sound (mailCompleted b (mkWorld (helper w) (presence w) (results w) (mailer w) rest (queued w) (handed w))).
Proof.
  intros [H1 H2 H3 H4] Hb. rewrite Hb in H2. apply serial_back in H2. rewrite Z.eqb_sym in H2.
  unfold mailCompleted. cbv beta zeta. cbn [helper]. destruct (epoch (helper w) =? batchEpoch b) eqn:He;
    cbn [setAutomatic epoch]; rewrite ?He; cbn [negb orb].
  - destruct (running (helper w)) eqn:Hr; cbn [running negb orb setAutomatic]; rewrite ?Hr; [apply scheduleAutomatic_sound|];
    (split; cbn [withHelper helper setAutomatic presence results mailer mailed queued handed epoch cycleInFlight automaticInFlight running automatic];
      [done|done|naive_solver|done]).
  - rewrite orb_true_r. by split.
Qed.

Definition farewell (w : World) : list Message :=
  if running (helper w) then [mkMessage (local (helper w)) (u "helper.stopped") (toVariantMap (local (helper w)))] else [].
(** What [stop] leaves, in one piece. *)
Lemma stop_eq f w :
  stop f w =
  mkWorld (mkHelper false (timeout (helper w)) (lastScan (helper w)) ∅ (local (helper w)) (sequence (helper w))
             (epoch (helper w) + 1) false false false false [])
    idle (results w ++ map (λ t, (t, f)) (inHand (presence w))) idle (mailed w ++ waiting (mailer w))
    (queued w ++ farewell w)
    (((handed w ++ concat (map batchMessages (waiting (mailer w)))) ++ automatic (helper w)) ++ farewell w).
Proof. destruct w as [[[] ? ? ? ? ? ? ? ? ? ? ?] p r m b q h]; cbv -[app concat map waiting inHand toVariantMap u]; [done|]. by rewrite !app_nil_r. Qed.
Lemma stop_sound f w : sound w → sound (stop f w).
Proof.
  intros [H1 H2 H3 H4]. rewrite stop_eq.
  assert (Forall (λ x, taskEpoch x ≤ epoch (helper w)) (inHand (presence w))) as Hran.
  { pose proof (serial_waiting _ _ _ _ _ H1) as H. unfold waiting in H. by apply Forall_app in H as [H _]. }
  split; cbn [helper presence results mailer mailed queued handed epoch cycleInFlight automaticInFlight running automatic].
  - rewrite map_app, map_map, map_id. by eapply serial_stop.
  - eapply serial_stop; [exact H2|]. by eapply serial_waiting.
  - done.
  - rewrite H4. cbn. by rewrite !app_nil_r, <- !app_assoc.
Qed.

Lemma cycleCompleted_sound now time f t r rest w :
  sound w → results w = (t, r) :: rest →
  sound (cycleCompleted now time f t r (mkWorld (helper w) (presence w) rest (mailer w) (mailed w) (queued w) (handed w))).
Proof.
  intros [H1 H2 H3 H4] Hb. rewrite Hb in H1. cbn [map fst] in H1. apply serial_back in H1. rewrite Z.eqb_sym in H1.
  unfold cycleCompleted. cbv beta zeta. cbn [helper].
  destruct (running (helper w)) eqn:Hr; cbn [negb orb].
  2:{ destruct (H3 eq_refl) as (Hc & Ha & Hq). split; cbn [helper presence results mailer mailed queued handed]; [|done..].
      rewrite Hc in *. by destruct (_ =? _). }
  destruct (epoch (helper w) =? taskEpoch t) eqn:He; cbn [negb]; [|split; cbn [helper presence results mailer mailed queued handed]; done || congruence].
  assert (∀ h, epoch h = epoch (helper w) → cycleInFlight h = false → automaticInFlight h = automaticInFlight (helper w) →
    running h = true → automatic h = automatic (helper w) →
    sound (mkWorld h (presence w) rest (mailer w) (mailed w) (queued w) (handed w))) as Hbase.
  { intros h E1 E2 E3 E4 E5. split; cbn [helper presence results mailer mailed queued handed]; rewrite ?E1, ?E2, ?E3, ?E5; done || congruence. }
  destruct (isEmpty (failure r)); cbn [negb]; [|apply stop_sound; by apply Hbase].
  assert (∀ l h, sound (withHelper h w) → sound (foldl (λ w sig, react sig w) (withHelper h w) l)) as _ by (intros; by apply reactAll_sound).
  match goal with |- sound (if negb (scanPending (helper ?v)) then _ else _) => assert (sound v) as Hv; [|set (x := v) in *; clearbody x] end.
  { unfold applyScan. apply reactAll_sound. apply Hbase; destruct (isEmpty (publishedAt r)); done. }
  destruct (scanPending (helper x)); cbn [negb]; [|done]. apply requestCycle_sound. by destruct Hv.
Qed.
Lemma setActivity_sound a w : sound w → sound (setActivity a w).
Proof.
  intros Hs. unfold setActivity. cbv beta zeta. case_bool_decide; [done|].
  match goal with |- context [withHelper ?h w] => assert (sound (withHelper h w)) as H' by (by destruct Hs) end.
  destruct (running (helper w)); [|done]. by apply queueAutomatic_sound, requestCycle_sound.
Qed.
Lemma start_sound app o place publication instance started time pid now f w :
  sound w → sound (start app o place publication instance started time pid now f w).2.
Proof.
  intros Hs. unfold start. cbv beta zeta. destruct (running (helper w)) eqn:Hr; [done|]. cbn [orb].
  destruct (negb (validApplication app) || negb (validOptions o) || negb place); [done|].
  pose proof (sound_mailer w Hs) as Hm. destruct Hs as [H1 H2 H3 H4]. destruct (H3 Hr) as (Hc & Ha & Hq).
  rewrite Hc in H1. rewrite Ha in H2. specialize (Hm Ha).
  pose proof (serial_next taskEpoch _ _ _ _ H1 (serial_idle _ _ _ _ H1)) as S1.
  pose proof (serial_next batchEpoch _ _ _ _ H2 Hm) as S2.
  pose proof (serial_idle _ _ _ _ H1) as Hp. 
  destruct (isEmpty publication); cbn [negb snd]; [apply requestCycle_sound|apply stop_sound];
    (split; cbn [announce withHelper helper presence results mailer mailed queued handed epoch cycleInFlight automaticInFlight running automatic];
     [by rewrite Hc, Hp|by rewrite Ha, Hm|by intros|]).

  - rewrite H4, Hm, Hq. cbn. by rewrite !app_nil_r.
  - done.
Qed.
Lemma step_sound w w' : sound w → step w w' → sound w'.
Proof.
  intros Hs H. revert Hs. destruct H; intros Hs.
  - by apply requestCycle_sound.
  - by apply requestCycle_sound.
  - destruct Hs as [H1 H2 H3 H4]. edestruct (serial_take taskEpoch) as [H' _]; [exact H1|eassumption|]. by split.
  - destruct Hs as [H1 H2 H3 H4]. edestruct (serial_finish taskEpoch) as [H' _]; [exact H1|eassumption|].
    split; [|done..]. cbn [results]. by rewrite map_app.
  - by apply cycleCompleted_sound.
  - destruct Hs as [H1 H2 H3 H4]. edestruct (serial_take batchEpoch) as [H' Hw]; [exact H2|eassumption|]. split; try done.
    cbn [queued handed mailer helper]. by rewrite Hw.
  - destruct Hs as [H1 H2 H3 H4]. edestruct (serial_finish batchEpoch) as [H' Hw]; [exact H2|eassumption|]. split; try done.
    cbn [mail queued handed mailer helper]. rewrite H4, Hw. cbn. by rewrite app_nil_r, <- !app_assoc.
  - by apply mailCompleted_sound.
  - by apply setActivity_sound.
  - by apply start_sound.
  - by apply stop_sound.
Qed.
Lemma reachable_sound p w : reachable p w → sound w.
Proof. induction 1; [apply sound_initial|by eapply step_sound]. Qed.
End Presence.
