(* ===== verification/PresenceLaws.v ===== *)
(** Properties of the observation of applications (Presence.v): what listeners are
    told after a scan, the record that goes through a file, the cycles of the event
    loop, and the messages the helper queues. *)
From S2P Require Import Prelude Qt Records Demo Applications Delivery Presence.
Open Scope Z_scope.

Module PresenceLaws.
Import Records Applications Presence.

(** ** The scan *)
Section scan.
Context {PF : Platform}.
Variables (parseJson : list N → jobj) (parseTime : QString → QString).

Lemma readRecord_instance info e : readRecord parseJson parseTime info = Some e → instanceId (peer e) = baseName info.
Proof. unfold readRecord. repeat case_match; try done. by intros [= <-]. Qed.
Lemma omap_instances listing :
  map (λ r, instanceId (peer r)) (omap (readRecord parseJson parseTime) listing) `sublist_of` map baseName listing.
Proof.
  induction listing as [|i l IH]; [done|]. cbn [omap list_omap map].
  destruct (readRecord parseJson parseTime i) as [e|] eqn:Er.
  - cbn [map]. rewrite (readRecord_instance _ _ Er). by constructor.
  - by constructor.
Qed.
Lemma inspected_cases intact publication now listing self publish scan
    (r := inspectPresence parseJson parseTime intact publication now listing self publish scan) :
  map (λ r, instanceId (peer r)) (records r) `sublist_of` map baseName listing
  ∧ ∀ id, id ∈ presentRecords r → id ∈ map baseName listing.
Proof.
  subst r. unfold inspectPresence. cbv zeta. destruct intact; cbn [negb]; [|split; [apply sublist_nil_l|set_solver]].
  destruct (publish && _); [split; [apply sublist_nil_l|set_solver]|].
  destruct scan; cbn [records presentRecords]; [|split; [apply sublist_nil_l|set_solver]]. split.
  - etransitivity; [|apply omap_instances]. apply (fmap_sublist (λ r, instanceId (peer r))), filter_bool_sublist.
  - intros id Hid. by apply elem_of_list_to_set, list_elem_of_filter_bool in Hid as [_ Hid].
Qed.
End scan.

Lemma admitted_unseen now time records s id :
  NoDup (map (λ r, instanceId (peer r)) records) →
  (∀ o, observations s !! id = Some o → visible o = false ∧ id ∉ map (λ r, instanceId (peer r)) records) →
  ∀ o, observations (foldl (admit_ now time) s records) !! id = Some o → visible o = false.
Proof.
  revert s. induction records as [|r records IH]; intros s Hn Hs o; cbn [foldl].
  { intros Ho. by apply Hs. }
  cbn [map] in Hn. apply NoDup_cons in Hn as [Hni Hn]. apply IH; [done|]. intros o'. unfold admit_.
  destruct (observations s !! instanceId (peer r)) as [o0|] eqn:Eo.
  - destruct (decide (instanceId (peer r) = id)) as [<-|Hne].
    { destruct (Hs o0 Eo) as [_ Hin]. destruct Hin. by left. }
    destruct (_ <? _); cbn [observations]; rewrite ?lookup_insert_ne by done; intros Ho';
      (destruct (Hs o' Ho') as [? Hin]; split; [done|]); intros Hin'; apply Hin; by right.
  - cbn [observations]. destruct (decide (instanceId (peer r) = id)) as [<-|Hne].
    + rewrite lookup_insert_eq. by intros [= <-].
    + rewrite lookup_insert_ne by done. intros Ho'. destruct (Hs o' Ho') as [? Hin]. split; [done|].
      intros Hin'. apply Hin. by right.
Qed.
Lemma sweep_visible now timeout present s kv id o :
  observations (sweep now timeout present s kv) !! id = Some o → visible o = true → observations s !! id = Some o.
Proof.
  destruct kv as [k ok]. cbn [sweep]. case_bool_decide; [|destruct (_ && _); [|done]]; cbn [observations].
  - intros [_ H']%lookup_delete_Some. done.
  - intros [[<- <-]|[_ H']]%lookup_insert_Some; done.
Qed.
Lemma sweepAll_visible now timeout present l s id o :
  observations (foldl (sweep now timeout present) s l) !! id = Some o → visible o = true → observations s !! id = Some o.
Proof.
  revert s. induction l as [|kv l IH]; intros s; [done|]. cbn [foldl]. intros Ho Hv.
  eapply sweep_visible; [by apply IH|done].
Qed.
(** A peer is shown only if an earlier scan, within the timeout, had seen its record. *)
Lemma scanned_known now lastScan timeout time records present m id o :
  NoDup (map (λ r, instanceId (peer r)) records) →
  observations (scanned now lastScan timeout time records present m) !! id = Some o → visible o = true →
  now - lastScan < timeout ∧ is_Some (m !! id).
Proof.
  intros Hn Ho Hv. unfold scanned in Ho. apply sweepAll_visible in Ho; [|done]. unfold lapsed in Ho.
  destruct (Z.leb_spec timeout (now - lastScan)).
  - eapply admitted_unseen in Ho; [congruence|done|]. cbn [observations]. intros o'. by rewrite lookup_empty.
  - split; [lia|]. destruct (m !! id) as [o'|] eqn:Em; [done|].
    eapply admitted_unseen in Ho; [congruence|done|]. cbn [observations]. intros o'. by rewrite Em.
Qed.
Lemma scanned_live now lastScan timeout time records present m id o :
  observations (scanned now lastScan timeout time records present m) !! id = Some o →
  id ∈ present ∪ list_to_set (map (λ r, instanceId (peer r)) records) ∧ (visible o = true → now - lastAdvance o < timeout).
Proof.
  unfold scanned. cbv zeta. intros Ho. eapply sweepAll_live; [..|exact Ho].
  - apply ordered_nodup.
  - intros kv Hkv. by apply ordered_lookup.
  - intros k ok Hk. rewrite ordered_spec. by apply elem_of_map_to_list.
Qed.

(** A scan tells its listeners the truth. For what one inspection of the directory
    found (its files have different names), replaying the signals of the scan on the
    set of peers a listener knew gives exactly the peers that are shown afterwards: no
    peer appears twice, is updated or departs without having appeared. Every peer shown
    afterwards has a file, was already observed before this scan (one sight of a record
    is never enough), no lapse of the event loop lies between, and its record advanced
    within the timeout. The observations stay filed under their instance. *)
Theorem scan_retells {PF : Platform} parseJson parseTime intact publication written listing self publish
    now lastScan timeout time m
    (r := inspectPresence parseJson parseTime intact publication written listing self publish true)
    (s := scanned now lastScan timeout time (records r) (presentRecords r) m)
    (Hdistinct : NoDup (map baseName listing)) (Hkeyed : keyed m) :
  toldAll (visibleIds m) (signals s) = Some (visibleIds (observations s))
  ∧ keyed (observations s)
  ∧ (∀ id o, observations s !! id = Some o → visible o = true →
       id ∈ map baseName listing ∧ is_Some (m !! id) ∧ now - lastScan < timeout ∧ now - lastAdvance o < timeout).
Proof.
  destruct (inspected_cases parseJson parseTime intact publication written listing self publish true) as [Hr Hp].
  fold r in Hr, Hp. assert (NoDup (map (λ r, instanceId (peer r)) (records r))) as Hn by (by eapply sublist_NoDup).
  pose proof (scanned_found now lastScan timeout time (records r) (presentRecords r) m Hkeyed Hn) as Hf.
  split_and!; [by apply found_told|by destruct Hf|]. intros id o Ho Hv.
  destruct (scanned_known _ _ _ _ _ _ _ _ _ Hn Ho Hv) as [H1 H2].
  destruct (scanned_live _ _ _ _ _ _ _ _ _ Ho) as [H3 H4].
  split_and!; [|done|done|by apply H4].
  apply elem_of_union in H3 as [H3|H3]; [by apply Hp|].
  apply elem_of_list_to_set in H3. by eapply elem_of_sublist.
Qed.

(** ** A concrete directory *)
Module Example_.
Definition app : ApplicationInfo := mkApplication (u "org.example.notes") (u "Notes") (u "1.0").
Definition self : Peer := mkPeer app (u "00000000-0000-0000-0000-000000000000") 7 Unknown (u "2024-01-01T00:00:00.000Z") [].
Definition other : Peer := mkPeer app Demo.uuid 8 Foreground (u "2024-01-01T00:00:00.000Z") [].
Definition parse (b : list N) : jobj := published other (Z.of_nat (List.length b)).
Definition file (heartbeat : nat) : Info := mkInfo Demo.uuid true false 400 (Some (replicate heartbeat 0%N)).
Definition known : gmap QString Observation := {[ Demo.uuid := mkObservation (mkEntry other 1) 900 false ]}.
Lemma known_keyed : keyed known.
Proof. intros id o. unfold known. intros [<- <-]%lookup_singleton_Some. done. Qed.
Definition inspected : PresenceResult :=
  inspectPresence parse id true [] (u "t") [file 2] (instanceId self) true true.
Definition result : Scan := scanned 1000 500 600 (u "now") (records inspected) (presentRecords inspected) known.
Example result_appears : signals result = [Appeared (mkPeer app Demo.uuid 8 Foreground (u "2024-01-01T00:00:00.000Z") (u "now")); PeersChanged].
Proof. by vm_compute. Qed.
End Example_.

Lemma scan_retells_witness :
  toldAll (visibleIds Example_.known) (signals Example_.result) = Some (visibleIds (observations Example_.result)).
Proof.
  refine (proj1 (scan_retells Example_.parse id true [] (u "t") [Example_.file 2] (instanceId Example_.self) true
            1000 500 600 (u "now") Example_.known _ Example_.known_keyed)).
  apply NoDup_singleton.
Defined.

(** ** Records through a file *)
Lemma toULongLong_numberStr n : 0 ≤ n < 2 ^ 64 → toULongLong (numberStr n) = Some n.
Proof.
  intros Hn. unfold numberStr. destruct (Z.ltb_spec n 0); [lia|].
  destruct (decimal_spec n ltac:(lia)) as (Hne & Hall & Hd). unfold toULongLong. rewrite trimmed_id.
  2:{ eapply Forall_impl; [exact Hall|]. intros c. apply isDigit_isSpace. }
  destruct (decimal n) as [|c r]; [done|].
  assert ((c =? 43)%N = false) as ->.
  { apply Forall_cons in Hall as [Hc _]. unfold isDigit in Hc. apply andb_true_iff in Hc as [Hc _].
    apply N.leb_le in Hc. apply N.eqb_neq. lia. }
  unfold unsignedNumber. rewrite Hd. cbn. destruct (Z.ltb_spec n (2 ^ 64)); [done|lia].
Qed.
Lemma activityOf_name a : activityOf (activityName a) = Some a.
Proof. by destruct a; vm_compute. Qed.

(** What one helper publishes is what another reads: for an application the
    starting helper accepts, an instance that is a canonical UUID, a positive process
    number of 64 bits, a valid starting time and a heartbeat of 64 bits that is not
    zero, the file of at most 8192 bytes whose text parses to the published object is
    read back as the same application, instance, process, activity, time and heartbeat. *)
Theorem record_roundtrip {PF : Platform} (parseJson : list N → jobj) (parseTime : QString → QString) p heartbeat info data
    (Hfile : isFile info = true ∧ isLink info = false ∧ size info ≤ maximumRecordBytes)
    (Hname : baseName info = instanceId p) (Huuid : canonicalUuid (instanceId p) = true)
    (Hdata : contents info = Some data) (Hlength : Z.of_nat (List.length data) ≤ maximumRecordBytes)
    (Hjson : parseJson data = published p heartbeat)
    (Htime : parseTime (startedAt p) = startedAt p) (Hstarted : startedAt p ≠ [])
    (Happ : validApplication (application p) = true)
    (Hprocess : 0 < processId p ≤ int64_max) (Hheartbeat : 0 < heartbeat < 2 ^ 64) :
  readRecord parseJson parseTime info =
    Some (mkEntry (mkPeer (application p) (instanceId p) (processId p) (activity p) (startedAt p) []) heartbeat).
Proof.
  destruct Hfile as (Hf & Hl & Hs). unfold readRecord. rewrite Hf, Hl, Hname, Huuid, Hdata. cbn [negb orb].
  rewrite (proj2 (Z.ltb_ge _ _) Hs), (proj2 (Z.ltb_ge _ _) Hlength), Hjson.
  assert (∀ k, k ≠ "heartbeat"%string → k ≠ "protocol"%string → k ≠ "startedAt"%string → k ≠ "lastSeenAt"%string →
    (published p heartbeat).[k] = (toVariantMap p).[k]) as Hk.
  { intros k H1 H2 H3 H4. unfold published. by rewrite !jvalue_jinsert_ne, jvalue_jremove_ne by congruence. }
  assert ((published p heartbeat).["startedAt"] = JStr (startedAt p)) as ->.
  { unfold published. rewrite !jvalue_jinsert_ne by done. by rewrite jvalue_jinsert_eq. }
  assert ((published p heartbeat).["protocol"] = JNum 1) as ->.
  { unfold published. rewrite jvalue_jinsert_ne by done. by rewrite jvalue_jinsert_eq. }
  assert ((published p heartbeat).["heartbeat"] = JStr (numberStr heartbeat)) as -> by (unfold published; by rewrite jvalue_jinsert_eq).
  rewrite !Hk by done. unfold toVariantMap. rewrite !jvalue_obj. cbn [jassoc String.eqb Ascii.eqb Bool.eqb toStr].
  change (negb (toInt (JNum 1) =? 1)) with false. rewrite bool_decide_false by (by intros []).
  cbn [orb]. rewrite Htime, activityOf_name, toULongLong_numberStr by lia.
  assert (toIntegerOr 0 (JNum (processId p)) = processId p) as ->.
  { cbn [toIntegerOr]. rewrite (proj2 (Z.leb_le _ _)), (proj2 (Z.leb_le _ _)) by (unfold int64_min; lia). done. }
  destruct (application p) as [i n v]. cbn [appId appName appVersion]. rewrite Happ. cbn [negb orb].
  rewrite (proj2 (Z.leb_gt _ _)) by lia. unfold isEmpty. rewrite bool_decide_false by done.
  rewrite (proj2 (Z.eqb_neq _ _)) by lia. done.
Qed.
Lemma record_roundtrip_witness :
  readRecord Example_.parse id (Example_.file 2) = Some (mkEntry Example_.other 2).
Proof.
  apply (record_roundtrip Example_.parse id Example_.other 2 (Example_.file 2) [0; 0]%N).
  - by repeat split.
  - reflexivity.
  - by vm_compute.
  - reflexivity.
  - by vm_compute.
  - reflexivity.
  - reflexivity.
  - by vm_compute.
  - by vm_compute.
  - by vm_compute.
  - by vm_compute.
Defined.

(** ** Cycles *)
(** A step that the helper itself does not notice: the worker's, or the end of a cycle
    that an earlier [stop] has given up. *)
Definition quiet (w w' : World) : Prop := step w w' ∧ helper w' = helper w.

Lemma given_up now time f t r w : epoch (helper w) ≠ taskEpoch t → cycleCompleted now time f t r w = w.
Proof.
  intros He. unfold cycleCompleted. cbv beta zeta. rewrite (proj2 (Z.eqb_neq _ _) He). cbn [negb]. by rewrite orb_true_r.
Qed.
(** The one task of this epoch is either the next result, after those that were given
    up, or with the worker. *)
Lemma quiet_to_result w :
  sound w → (∃ t, t ∈ current (epoch (helper w)) taskEpoch (map fst (results w))) →
  ∃ w' t r rest, rtc quiet w w' ∧ helper w' = helper w ∧ results w' = (t, r) :: rest ∧ taskEpoch t = epoch (helper w).
Proof.
  remember (List.length (results w)) as n eqn:En. revert w En.
  induction n as [|n IH]; intros w En Hs [t Ht].
  { destruct (results w); [|done]. by apply elem_of_nil in Ht. }
  destruct (results w) as [|[t' r'] rest] eqn:Er; [done|].
  destruct (decide (epoch (helper w) = taskEpoch t')) as [He|He].
  { exists w, t', r', rest. by split_and!; [apply rtc_refl|..]. }
  pose proof (given_up 0 [] (mkResult [] [] [] ∅) t' r'
    (mkWorld (helper w) (presence w) rest (mailer w) (mailed w) (queued w) (handed w)) He) as Hg.
  assert (step w (mkWorld (helper w) (presence w) rest (mailer w) (mailed w) (queued w) (handed w))) as Hst.
  { rewrite <- Hg. by apply step_completed. }
  edestruct (IH (mkWorld (helper w) (presence w) rest (mailer w) (mailed w) (queued w) (handed w)))
    as (w' & t2 & r2 & rest2 & H1 & H2 & H3 & H4).
  - cbn in *. congruence.
  - by eapply step_sound.
  - exists t. cbn [results helper]. cbn [map fst] in Ht. unfold current in *. cbn in Ht.
    rewrite (proj2 (Z.eqb_neq _ _)) in Ht by congruence. exact Ht.
  - exists w', t2, r2, rest2. split_and!; [|done..]. eapply rtc_l; [|exact H1]. by split.
Qed.
Lemma serial_single e (w : Worker Task) back :
  serial e taskEpoch w back true →
  (w = idle ∧ ∃ t, t ∈ current e taskEpoch back) ∨ (∃ t, taskEpoch t = e ∧ (w = mkWorker (Some t) None ∨ w = mkWorker None (Some t))).
Proof.
  intros [H1 _ H3]. rewrite current_app, length_app, (current_all _ _ _ H3) in H1.
  destruct w as [[t|] [t'|]]; cbn in H1, H3; try lia.
  - right. exists t. apply Forall_cons in H3 as [? _]. auto.
  - right. exists t'. apply Forall_cons in H3 as [? _]. auto.
  - left. split; [done|]. destruct (current e taskEpoch back) as [|t l]; [done|]. exists t. by left.
Qed.
Lemma quiet_inspects w t :
  sound w → taskEpoch t = epoch (helper w) → (presence w = mkWorker (Some t) None ∨ presence w = mkWorker None (Some t)) →
  ∃ w', rtc quiet w w' ∧ helper w' = helper w ∧ ∃ t, t ∈ current (epoch (helper w')) taskEpoch (map fst (results w')).
Proof.
  intros Hs Ht Hp. set (r := mkResult [] [] [] ∅).
  assert (∀ w, active (presence w) = Some t → taskEpoch t = epoch (helper w) →
    ∃ w', quiet w w' ∧ ∃ t, t ∈ current (epoch (helper w')) taskEpoch (map fst (results w'))) as Hrun.
  { intros v Hv He. eexists. split; [split; [by apply (step_inspected v t r)|done]|]. cbn [helper results].
    exists t. rewrite map_app. unfold current. apply list_elem_of_filter_bool. split; [by apply Z.eqb_eq|].
    apply elem_of_app. right. by left. }
  destruct Hp as [Hp|Hp].
  - edestruct (Hrun (mkWorld (helper w) (mkWorker None (Some t)) (results w) (mailer w) (mailed w) (queued w) (handed w)))
      as (w' & Hq & Hin); [done|done|]. exists w'. split; [|split; [by destruct Hq|done]].
    eapply rtc_l; [|by apply rtc_once]. split; [apply (step_inspect w t); by rewrite Hp|done].
  - edestruct (Hrun w) as (w' & Hq & Hin); [by rewrite Hp|done|]. exists w'. split; [by apply rtc_once|]. by destruct Hq.
Qed.

(** C39: A cycle is always the only one, and it is never lost. In every world the helper
    can reach, by any interleaving of its event loop, its two workers, [start], [stop]
    and [setActivity]: as long as a cycle is in flight, exactly one task of the present
    run exists, waiting, running or on its way back; and steps of the worker and of the
    event loop that leave the helper as it is lead to the result of that task being the
    next the event loop completes. When no cycle is in flight the worker is idle. *)
Theorem cycle_completes {PF : Platform} p w (Hreach : reachable p w) :
  List.length (current (epoch (helper w)) taskEpoch (tasks w)) = flag (cycleInFlight (helper w))
  ∧ (cycleInFlight (helper w) = false → presence w = idle)
  ∧ (cycleInFlight (helper w) = true →
       ∃ w' t r rest, rtc quiet w w' ∧ helper w' = helper w ∧ results w' = (t, r) :: rest ∧ taskEpoch t = epoch (helper w)).
Proof.
  pose proof (reachable_sound p w Hreach) as Hs. split_and!.
  - by destruct Hs as [[] _ _ _].
  - intros Hc. destruct Hs as [H _ _ _]. rewrite Hc in H. by eapply serial_idle.
  - intros Hc. pose proof Hs as [H _ _ _]. rewrite Hc in H. apply serial_single in H as [[_ Hin]|(t & Ht & Hp)].
    + by apply quiet_to_result.
    + destruct (quiet_inspects w t Hs Ht Hp) as (w1 & Hr & Hh & Hin).
      assert (sound w1) as Hs1.
      { clear -Hs Hr. induction Hr as [|x y z [Hst _] _ IH]; [done|]. apply IH. by eapply step_sound. }
      destruct (quiet_to_result w1 Hs1 Hin) as (w2 & t2 & r2 & rest & H1 & H2 & H3 & H4).
      exists w2, t2, r2, rest. split_and!; [by etransitivity|congruence|done|congruence].
Qed.
(** No message the helper sends of its own accord is lost, duplicated or
    reordered. In every reachable world the messages it asked to send are, in order,
    those handed to a delivery store, those of the batch with the worker, and those
    that wait for it; and once it is stopped all of them have been handed over. *)
Theorem messages_kept {PF : Platform} p w (Hreach : reachable p w) :
  queued w = handed w ++ concat (map batchMessages (waiting (mailer w))) ++ automatic (helper w)
  ∧ (automaticInFlight (helper w) = false → mailer w = idle)
  ∧ (running (helper w) = false → queued w = handed w)
  ∧ ∀ f, queued (stop f w) = handed (stop f w).
Proof.
  pose proof (reachable_sound p w Hreach) as Hs. 
  assert (∀ v, sound v → running (helper v) = false → queued v = handed v) as Hstop.
  { intros v Hv Hr. pose proof Hv as [_ _ H3 H4]. destruct (H3 Hr) as (_ & Ha & Hq).
    rewrite H4, (sound_mailer v Hv Ha), Hq. cbn. by rewrite app_nil_r. }
  split_and!; [by destruct Hs|by apply sound_mailer|by apply Hstop|].
  intros f. apply Hstop; [by apply stop_sound|]. by rewrite stop_eq.
Qed.

Module Started_.
Import Example_.
Definition world : World :=
  setActivity Background
    (start app (mkOptions 1000 5000) true [] (u "00000000-0000-0000-0000-000000000000") (u "t0") (u "t1") 7 100 inspected
       (initial self)).2.
Lemma world_reachable : reachable self world.
Proof.
  eapply reach_step; [eapply reach_step; [apply reach_initial|apply step_start]|apply step_activity].
Qed.
Example world_running :
  running (helper world) = true ∧ cycleInFlight (helper world) = true ∧ scanPending (helper world) = true
  ∧ List.length (queued world) = 2%nat ∧ List.length (handed world) = 1%nat.
Proof. by vm_compute. Qed.
End Started_.
Lemma cycle_completes_witness :
  ∃ w' t r rest, rtc quiet Started_.world w' ∧ helper w' = helper Started_.world ∧ results w' = (t, r) :: rest
                 ∧ taskEpoch t = epoch (helper Started_.world).
Proof.
  refine (proj2 (proj2 (cycle_completes Example_.self Started_.world Started_.world_reachable)) _).
  apply Started_.world_running.
Defined.
Lemma messages_kept_witness : queued (stop Example_.inspected Started_.world) = handed (stop Example_.inspected Started_.world).
Proof.
  exact (proj2 (proj2 (proj2 (messages_kept Example_.self Started_.world Started_.world_reachable))) Example_.inspected).
Defined.
End PresenceLaws.
