(* ===== verification/Providers.v ===== *)
(** The places outside a container that keep copies of its objects,
    src/Sync/ObjectProvider.cpp: the contract of a provider as a class, and its two
    implementations, on a directory and behind the storage bridge of the web server. *)
From S2P Require Import Prelude Qt Records Demo.
Open Scope Z_scope.

Module Providers.
Import Records.
Section with_platform.
Context {PF : Platform}.

(** ** Identities *)
Record ObjectIdentity := mkIdentity { nameSpace : QString; hash : QString; osize : Z }.
Definition hexadecimal (s : QString) : bool := hex s.
Definition valid (o : ObjectIdentity) : bool :=
  bool_decide (parseUuid (nameSpace o) = Some (nameSpace o)) && hexadecimal (hash o) && (0 <=? osize o).
Definition objectKey (o : ObjectIdentity) : QString :=
  if valid o then u "objects/" ++ nameSpace o ++ slash :: qleft 2 (hash o) ++ slash :: hash o else [].
Definition identifierChar (c : N) : bool :=
  ((97 <=? c)%N && (c <=? 122)%N) || ((65 <=? c)%N && (c <=? 90)%N) || isDigit c || (c =? 95)%N || (c =? 45)%N.
Definition validId (id : QString) : bool :=
  negb (isEmpty id) && forallb identifierChar id && (qsize id <=? 64) && negb (bool_decide (id = u "local")).

(** What an object's bytes must be. *)
Definition authentic (o : ObjectIdentity) (b : list N) : Prop :=
  Records.digest b = hash o ∧ Z.of_nat (List.length b) = osize o.

(** ** The verified copy *)
(** A source as it is met: whether its path is an absolute one of a regular file, the
    size of that file, the blocks of at most 1 MiB that are read (the file may change
    meanwhile) and whether reading ended in an error. *)
Record Source := mkSource { regular : bool; ssize : Z; blocks : list (list N); broken : bool }.
(** A target: whether its path is absolute and not redirected, whether both files
    could be opened, whether the n-th write is taken, and whether the commit is. *)
Record Target := mkTarget { direct : bool; openable : bool; taken : nat → bool; commits : bool }.
(** The answer of [cancelled] the n-th time it is asked. *)
Definition Cancellation : Type := nat → bool.

(** The loop over the blocks: the bytes that were written, or the error. *)
Fixpoint copyBlocks (o : ObjectIdentity) (t : Target) (cancelled : Cancellation) (n : nat) (l : list (list N))
    (written : list N) : QString + list N :=
  match l with
  | [] => inr written
  | b :: rest =>
      if cancelled n then inl (u "provider_cancelled")
      else if bool_decide (b = []) || (osize o - Z.of_nat (List.length b) <? Z.of_nat (List.length written)) || negb (taken t n)
      then inl (u "provider_io_failed")
      else copyBlocks o t cancelled (S n) rest (written ++ b)
  end.
Definition verifiedCopy (o : ObjectIdentity) (s : Source) (t : Target) (cancelled : Cancellation) : QString + list N :=
  if negb (valid o) || negb (regular s) || negb (direct t) || negb (ssize s =? osize o) then inl (u "invalid_provider_object")
  else if negb (openable t) then inl (u "provider_file_unavailable") else
  match copyBlocks o t cancelled 0 (blocks s) [] with
  | inl e => inl e
  | inr b =>
      if broken s || negb (Z.of_nat (List.length b) =? osize o) || bool_decide (Records.digest b ≠ hash o)
      then inl (u "provider_hash_mismatch")
      else if cancelled (List.length (blocks s)) then inl (u "provider_cancelled")
      else if commits t then inr b else inl (u "provider_commit_failed")
  end.

Lemma verifiedCopy_authentic o s t cancelled b : verifiedCopy o s t cancelled = inr b → authentic o b.
Proof.
  unfold verifiedCopy. destruct (_ || _ || _ || _); [done|]. destruct (negb (openable t)); [done|].
  destruct (copyBlocks _ _ _ _ _ _) as [e|b']; [done|]. destruct (_ || _) eqn:Eg; [done|].
  destruct (cancelled _); [done|]. destruct (commits t); [|done]. intros [= <-].
  apply orb_false_iff in Eg as [[_ Hl]%orb_false_iff Hd]. apply negb_false_iff, Z.eqb_eq in Hl.
  apply bool_decide_eq_false, dec_stable in Hd. done.
Qed.
Lemma copyBlocks_all o t cancelled n l w b : copyBlocks o t cancelled n l w = inr b → b = w ++ concat l.
Proof.
  revert n w. induction l as [|x l IH]; intros n w; cbn [copyBlocks concat].
  - intros [= <-]. by rewrite app_nil_r.
  - destruct (cancelled n); [done|]. destruct (_ || _); [done|]. intros ->%IH. by rewrite <- app_assoc.
Qed.
Lemma verifiedCopy_reads o s t cancelled b : verifiedCopy o s t cancelled = inr b → b = concat (blocks s).
Proof.
  unfold verifiedCopy. destruct (_ || _ || _ || _); [done|]. destruct (negb (openable t)); [done|].
  destruct (copyBlocks _ _ _ _ _ _) as [e|b'] eqn:Eb; [done|]. destruct (_ || _); [done|].
  destruct (cancelled _); [done|]. destruct (commits t); [|done]. intros [= <-]. by apply copyBlocks_all in Eb.
Qed.

(** ** The contract *)
(** A provider keeps bytes under the keys of objects. [held] is what it would deliver;
    an operation may fail at any time, and then says why. *)
Class ObjectProvider := {
  place : Type;
  providerId : QString;
  providerKind : QString;
  held : place → ObjectIdentity → option (list N);
  put : ObjectIdentity → Source → Target → Cancellation → place → option QString * place;
  get : ObjectIdentity → Target → Cancellation → place → (QString + list N) * place;
  put_held o s t c p p' : put o s t c p = (None, p') → ∃ b, held p' o = Some b ∧ authentic o b;
  put_others o s t c p o' : objectKey o' ≠ objectKey o → held (put o s t c p).2 o' = held p o';
  get_authentic o t c p b p' : get o t c p = (inr b, p') → authentic o b ∧ held p o = Some b;
  get_keeps o t c p o' : held (get o t c p).2 o' = held p o'
}.

(** ** A directory *)
(** The files of the provider's root by their keys, and what the operating system says
    of the root and of the directories below it. *)
Section directory.
Record Directory := mkDirectory {
  did : QString;
  nas : bool;
  rootIntact : bool;
  redirected : QString → bool;
  occupied : QString → bool;
  isDirectory : QString → bool;
  makes : QString → bool
}.
Variable D : Directory.

(** The directories on the way to an object, each the previous with one name more. *)
Definition keyParents (o : ObjectIdentity) : list QString :=
  [u "objects"; u "objects/" ++ nameSpace o; u "objects/" ++ nameSpace o ++ slash :: qleft 2 (hash o)].
Fixpoint descend (create : bool) (l : list QString) : option QString :=
  match l with
  | [] => None
  | p :: rest =>
      if redirected D p then Some (u "provider_path_redirected")
      else if negb (occupied D p) && create && negb (makes D p) then Some (u "provider_directory_failed")
      else if negb (if occupied D p then isDirectory D p else create) then Some (u "provider_object_unavailable")
      else descend create rest
  end.
Definition directoryPath (o : ObjectIdentity) (create : bool) : QString + QString :=
  if negb (validId (did D)) || negb (valid o) || negb (rootIntact D) then inl (u "provider_root_unavailable") else
  match descend create (keyParents o) with
  | Some e => inl e
  | None => if redirected D (objectKey o) then inl (u "provider_path_redirected") else inr (objectKey o)
  end.
Definition Files : Type := gmap QString (list N).
(** Reading a file that does not change, block by block. *)
Definition blockSize : Z := 1048576.
Fixpoint splitBlocks (fuel : nat) (b : list N) : list (list N) :=
  match fuel, b with
  | _, [] => []
  | O, _ => []
  | S fuel, _ => take (Z.to_nat blockSize) b :: splitBlocks fuel (drop (Z.to_nat blockSize) b)
  end.
Definition sourceOf (f : option (list N)) : Source :=
  match f with
  | Some b => mkSource true (Z.of_nat (List.length b)) (splitBlocks (S (List.length b)) b) false
  | None => mkSource false 0 [] false
  end.
Definition directoryPut (o : ObjectIdentity) (s : Source) (t : Target) (c : Cancellation) (f : Files) : option QString * Files :=
  match directoryPath o true with
  | inl e => (Some e, f)
  | inr p => match verifiedCopy o s t c with
             | inl e => (Some e, f)
             | inr b => (None, <[p := b]> f)
             end
  end.
Definition directoryGet (o : ObjectIdentity) (t : Target) (c : Cancellation) (f : Files) : (QString + list N) * Files :=
  match directoryPath o false with
  | inl e => (inl e, f)
  | inr p => (verifiedCopy o (sourceOf (f !! p)) t c, f)
  end.

Lemma directoryPath_key o create p : directoryPath o create = inr p → p = objectKey o.
Proof. unfold directoryPath. repeat case_match; try done. by intros [= <-]. Qed.
Lemma splitBlocks_concat fuel b : (List.length b < fuel)%nat → concat (splitBlocks fuel b) = b.
Proof.
  revert b. induction fuel as [|fuel IH]; intros b Hl; [lia|]. destruct b as [|x b]; [done|]. 
  change (splitBlocks (S fuel) (x :: b)) with
    (take (Z.to_nat blockSize) (x :: b) :: splitBlocks fuel (drop (Z.to_nat blockSize) (x :: b))).
  cbn [concat]. rewrite IH; [apply take_drop|]. rewrite length_drop.
  assert (0 < Z.to_nat blockSize)%nat by (unfold blockSize; lia). cbn [List.length] in *. lia.
Qed.
#[global] Program Instance directoryProvider : ObjectProvider := {|
  place := Files;
  providerId := did D;
  providerKind := if nas D then u "nas" else u "local";
  held f o := f !! objectKey o;
  put := directoryPut;
  get := directoryGet
|}.
Next Obligation.
  intros o s t c p p'. unfold directoryPut. destruct (directoryPath o true) as [e|k] eqn:Ek; [done|].
  apply directoryPath_key in Ek as ->. destruct (verifiedCopy o s t c) as [e|b] eqn:Eb; [done|]. intros [= <-].
  exists b. split; [apply lookup_insert_eq|by eapply verifiedCopy_authentic].
Qed.
Next Obligation.
  intros o s t c p o' Hne. unfold directoryPut. destruct (directoryPath o true) as [e|k] eqn:Ek; [done|].
  apply directoryPath_key in Ek as ->. destruct (verifiedCopy o s t c); [done|]. by apply lookup_insert_ne.
Qed.
Next Obligation.
  intros o t c p b p'. unfold directoryGet. destruct (directoryPath o false) as [e|k] eqn:Ek; [done|].
  apply directoryPath_key in Ek as ->. intros [Hb ->]%pair_inv. symmetry in Hb.
  split; [by eapply verifiedCopy_authentic|]. pose proof (verifiedCopy_reads _ _ _ _ _ Hb) as ->.
  destruct (p !! objectKey o) as [x|] eqn:Ex; [|by unfold verifiedCopy in Hb; cbn in Hb; rewrite orb_true_r in Hb].
  cbn [sourceOf blocks]. rewrite splitBlocks_concat by lia. done.
Qed.
Next Obligation. intros o t c p o'. unfold directoryGet. by destruct (directoryPath o false). Qed.
End directory.

(** ** Behind the storage bridge *)
(** The bridge of the web server copies a file to or from a remote. Nothing is assumed
    of what an upload stores: a backend may damage it. *)
Class Bridge := {
  remote : Type;
  fileAt : remote → QString → option (list N);
  upload : QString → list N → remote → option QString * remote;
  download : QString → remote → (QString + list N) * remote;
  upload_others k b r k' : k' ≠ k → fileAt (upload k b r).2 k' = fileAt r k';
  download_reads k r b r' : download k r = (inr b, r') → fileAt r k = Some b;
  download_keeps k r k' : fileAt (download k r).2 k' = fileAt r k'
}.
Section remote_.
Context {B : Bridge}.
(** [staging]: the private runtime directory is held by a lease, and temporary files
    can be made; [frozen] and [verified] are those files. *)
Record RemoteOptions := mkRemote {
  rid : QString;
  rkind : QString;
  prefix : QString;
  privateRuntime : bool;
  leased : bool;
  staged : bool;
  frozen : Target;
  verified : Target
}.
Variable R : RemoteOptions.

(** RemoteObjectProvider's constructor: no slash at the end of the prefix. *)
Fixpoint chopSlashes (fuel : nat) (s : QString) : QString :=
  match fuel with
  | O => s
  | S fuel => if endsWith s [slash] then chopSlashes fuel (take (List.length s - 1) s) else s
  end.
Definition remoteProvider (id kind pre : QString) (private leased staged : bool) (frozen verified : Target) : RemoteOptions :=
  mkRemote id kind (chopSlashes (List.length pre) pre) private leased staged frozen verified.
Definition prefixStart (c : N) : bool := identifierChar c && negb (c =? 45)%N.
Definition validPrefix (s : QString) : bool :=
  match qsplit 58 s with
  | (c :: r) :: _ :: _ => prefixStart c && forallb identifierChar r && forallb (λ c, 31 <? c)%N (sectionTail 58 s)
  | _ => false
  end.
Definition remoteKey (o : ObjectIdentity) : QString := prefix R ++ slash :: objectKey o.
(** [copy]: the checks before the bridge is asked. *)
Definition refuses (cancelled : bool) : option QString :=
  if negb (validId (rid R)) || negb (bool_decide (rkind R = u "s3") || bool_decide (rkind R = u "nas")) || negb (validPrefix (prefix R))
  then Some (u "invalid_remote_provider")
  else if cancelled then Some (u "provider_cancelled") else None.
Definition later (n : nat) (c : Cancellation) : Cancellation := λ k, c (n + k)%nat.
Definition remoteGet (o : ObjectIdentity) (t : Target) (c : Cancellation) (r : remote) : (QString + list N) * remote :=
  if negb (valid o) then (inl (u "invalid_provider_object"), r)
  else if negb (privateRuntime R) then (inl (u "private_runtime_directory_required"), r)
  else if negb (leased R && staged R) then (inl (u "provider_staging_unavailable"), r) else
  match refuses (c 0%nat) with
  | Some e => (inl e, r)
  | None =>
      match download (remoteKey o) r with
      | (inl e, r) => (inl e, r)
      | (inr b, r) => (verifiedCopy o (sourceOf (Some b)) t (later 1 c), r)
      end
  end.
Definition remotePut (o : ObjectIdentity) (s : Source) (t : Target) (c : Cancellation) (r : remote) : option QString * remote :=
  if negb (privateRuntime R) then (Some (u "private_runtime_directory_required"), r)
  else if negb (leased R && staged R) then (Some (u "provider_staging_unavailable"), r) else
  match verifiedCopy o s (frozen R) c with
  | inl e => (Some e, r)
  | inr b =>
      let n := S (List.length (blocks s)) in
      match refuses (c n) with
      | Some e => (Some e, r)
      | None =>
          match upload (remoteKey o) b r with
          | (Some e, r) => (Some e, r)
          | (None, r) => match remoteGet o (verified R) (later (S n) c) r with
                         | (inl e, r) => (Some e, r)
                         | (inr _, r) => (None, r)
                         end
          end
      end
  end.

Lemma remoteGet_authentic o t c r b r' :
  remoteGet o t c r = (inr b, r') → authentic o b ∧ fileAt r (remoteKey o) = Some b.
Proof.
  unfold remoteGet. destruct (valid o); [|done]. destruct (privateRuntime R); [|done].
  destruct (leased R && staged R); [|done]. cbn [negb]. destruct (refuses _); [done|].
  destruct (download (remoteKey o) r) as [[e|x] r1] eqn:Ed; [done|]. intros [Hb _]%pair_inv. symmetry in Hb.
  split; [by eapply verifiedCopy_authentic|]. apply verifiedCopy_reads in Hb as ->.
  cbn [sourceOf blocks]. rewrite splitBlocks_concat by lia. by eapply download_reads.
Qed.
Lemma remoteGet_keeps o t c r k : fileAt (remoteGet o t c r).2 k = fileAt r k.
Proof.
  unfold remoteGet. destruct (valid o); [|done]. destruct (privateRuntime R); [|done].
  destruct (leased R && staged R); [|done]. cbn [negb]. destruct (refuses _); [done|].
  pose proof (download_keeps (remoteKey o) r k) as Hk. by destruct (download (remoteKey o) r) as [[e|x] r1].
Qed.
#[global] Program Instance remoteObjectProvider : ObjectProvider := {|
  place := remote;
  providerId := rid R;
  providerKind := rkind R;
  held r o := fileAt r (remoteKey o);
  put := remotePut;
  get := remoteGet
|}.
Next Obligation.
  intros o s t c r r'. unfold remotePut. destruct (privateRuntime R); [|done]. destruct (leased R && staged R); [|done].
  cbn [negb]. destruct (verifiedCopy o s (frozen R) c) as [e|b]; [done|]. destruct (refuses _); [done|].
  destruct (upload (remoteKey o) b r) as [[e|] r1]; [done|].
  destruct (remoteGet o (verified R) _ r1) as [[e|x] r2] eqn:Eg; [done|]. intros [= <-].
  pose proof (remoteGet_keeps o (verified R) (later (S (S (List.length (blocks s)))) c) r1 (remoteKey o)) as Hk.
  rewrite Eg in Hk. apply remoteGet_authentic in Eg as [Ha Hf]. exists x. split; [|done]. by rewrite <- Hf.
Qed.
Next Obligation.
  intros o s t c r o' Hne. unfold remotePut. destruct (privateRuntime R); [|done]. destruct (leased R && staged R); [|done].
  cbn [negb]. destruct (verifiedCopy o s (frozen R) c) as [e|b]; [done|]. destruct (refuses _); [done|].
  assert (remoteKey o' ≠ remoteKey o) as Hk by (unfold remoteKey; intros [= E]%app_inv_head; congruence).
  pose proof (upload_others (remoteKey o) b r (remoteKey o') Hk) as Hu.
  destruct (upload (remoteKey o) b r) as [[e|] r1]; [done|].
  pose proof (remoteGet_keeps o (verified R) (later (S (S (List.length (blocks s)))) c) r1 (remoteKey o')) as Hg.
  destruct (remoteGet o (verified R) _ r1) as [[e|x] r2]; cbn [snd] in *; congruence.
Qed.
Next Obligation. intros o t c r b r'. apply remoteGet_authentic. Qed.
Next Obligation. intros o t c r o'. apply remoteGet_keeps. Qed.
End remote_.
End with_platform.

(** ** A copy that nothing disturbs succeeds *)
Section roundtrip.
Context {PF : Platform}.
(** The target's path is direct, its file can be opened, takes every block and is
    committed. *)
Definition willing (t : Target) : Prop := direct t = true ∧ openable t = true ∧ (∀ n, taken t n = true) ∧ commits t = true.
Lemma copyBlocks_splits o t c fuel n b w :
  willing t → (∀ k, c k = false) → Z.of_nat (List.length w + List.length b) = osize o → (List.length b < fuel)%nat →
  copyBlocks o t c n (splitBlocks fuel b) w = inr (w ++ b).
Proof.
  intros (_ & _ & Ht & _) Hc. revert n b w. induction fuel as [|fuel IH]; intros n b w Hs Hl; [lia|].
  destruct b as [|x b]; [cbn; by rewrite app_nil_r|].
  change (splitBlocks (S fuel) (x :: b)) with (take (Z.to_nat blockSize) (x :: b) :: splitBlocks fuel (drop (Z.to_nat blockSize) (x :: b))).
  assert (0 < Z.to_nat blockSize)%nat as Hpos by (unfold blockSize; lia).
  assert (Hlen : List.length (take (Z.to_nat blockSize) (x :: b)) = (Z.to_nat blockSize `min` List.length (x :: b))%nat) by apply length_take.
  assert (Hdrop : List.length (drop (Z.to_nat blockSize) (x :: b)) = (List.length (x :: b) - Z.to_nat blockSize)%nat) by apply length_drop.
  cbn [copyBlocks]. rewrite Hc, Ht. set (h := take _ _) in *. set (r := drop _ _) in *.
  rewrite bool_decide_false by (intros E; rewrite E in Hlen; cbn [List.length] in Hlen; lia).
  destruct (Z.ltb_spec (osize o - Z.of_nat (List.length h)) (Z.of_nat (List.length w))); [lia|]. cbn [orb negb].
  rewrite IH; [|rewrite length_app; lia|cbn [List.length] in *; lia]. unfold h, r. by rewrite <- app_assoc, take_drop.
Qed.
Lemma verifiedCopy_whole o t c b :
  valid o = true → authentic o b → willing t → (∀ k, c k = false) → verifiedCopy o (sourceOf (Some b)) t c = inr b.
Proof.
  intros Hv [Hd Hs] Ht Hc. unfold verifiedCopy. cbn [sourceOf regular ssize blocks broken].
  rewrite Hv, (proj1 Ht), (proj1 (proj2 Ht)), Hs, Z.eqb_refl. cbn [negb orb].
  rewrite copyBlocks_splits by (done || cbn; lia). cbn [app]. rewrite Hs, Z.eqb_refl, bool_decide_false by (by intros []). cbn [negb orb].
  by rewrite Hc, (proj2 (proj2 (proj2 Ht))).
Qed.
Lemma verifiedCopy_valid o s t c b : verifiedCopy o s t c = inr b → valid o = true.
Proof. unfold verifiedCopy. by destruct (valid o). Qed.
Lemma refuses_mono R a : refuses R a = None → refuses R false = None.
Proof. unfold refuses. destruct (_ || _); [done|]. by destruct a. Qed.

(** C40: What a provider took it gives back. When a directory took an object, it holds
    exactly the bytes that were read of the source, of the object's size and hash, and
    nothing else changed; and from then on, as long as the way to the file is intact,
    reading it back into any file that can be written, without cancellation, delivers
    exactly these bytes. When a remote took an object, whatever the upload did to the
    bytes, those at the object's key have its size and hash; and whenever the bridge
    can download the file, reading it back delivers exactly these. (Of the bridge it
    is assumed that a download gives the bytes of the file and changes none, and an
    upload changes no other file.) *)
Theorem provider_roundtrip o s t c :
  (∀ D f f', directoryPut D o s t c f = (None, f') →
     let b := concat (blocks s) in
     f' = <[objectKey o := b]> f ∧ authentic o b
     ∧ ∀ D' p t' c', directoryPath D' o false = inr p → willing t' → (∀ n, c' n = false) →
         directoryGet D' o t' c' f' = (inr b, f'))
  ∧ ∀ (B : Bridge) R r r', remotePut R o s t c r = (None, r') →
     ∃ b, fileAt r' (remoteKey R o) = Some b ∧ authentic o b
     ∧ ∀ t' c' x r'', download (remoteKey R o) r' = (inr x, r'') → willing t' → (∀ n, c' n = false) →
         remoteGet R o t' c' r' = (inr b, r'').
Proof.
  split.
  - intros D f f' Hput b. unfold directoryPut in Hput. destruct (directoryPath D o true) as [e|k] eqn:Ek; [done|].
    apply directoryPath_key in Ek as ->. destruct (verifiedCopy o s t c) as [e|b'] eqn:Eb; [done|]. injection Hput as <-.
    pose proof (verifiedCopy_valid _ _ _ _ _ Eb) as Hv. pose proof (verifiedCopy_authentic _ _ _ _ _ Eb) as Ha.
    apply verifiedCopy_reads in Eb as ->. split_and!; [done|done|]. intros D' p t' c' Hp Ht Hc. unfold directoryGet. rewrite Hp.
    apply directoryPath_key in Hp as ->. unfold b.
    assert ((<[objectKey o := concat (blocks s)]> f : Files) !! objectKey o = Some (concat (blocks s))) as -> by apply lookup_insert_eq.
    by rewrite verifiedCopy_whole.
  - intros B R r r' Hput. unfold remotePut in Hput. destruct (privateRuntime R) eqn:E1; [|done]. destruct (leased R && staged R) eqn:E2; [|done].
    cbn [negb] in Hput. destruct (verifiedCopy o s (frozen R) c) as [e|b0] eqn:Eb; [done|]. destruct (refuses R _) eqn:E3; [done|].
    destruct (upload (remoteKey R o) b0 r) as [[e|] r1]; [done|].
    pose proof (remoteGet_keeps R o (verified R) (later (S (S (List.length (blocks s)))) c) r1 (remoteKey R o)) as Hk.
    destruct (remoteGet R o (verified R) _ r1) as [[e|x] r2] eqn:Eg; [done|]. injection Hput as <-. cbn [snd] in Hk.
    apply remoteGet_authentic in Eg as [Ha Hf]. exists x. rewrite Hk. split_and!; [done|done|].
    intros t' c' y r'' Hy Ht Hc. unfold remoteGet. rewrite (verifiedCopy_valid _ _ _ _ _ Eb), E1, E2. cbn [negb].
    rewrite Hc, (refuses_mono _ _ E3), Hy. pose proof (download_reads _ _ _ _ Hy) as Hd. rewrite Hk, Hf in Hd. injection Hd as ->.
    rewrite verifiedCopy_whole; [done|by eapply verifiedCopy_valid|done|done|]. intros k. apply Hc.
Qed.
End roundtrip.

(** A provider in one directory, and an object of three bytes; and a remote that is a
    table of files. *)
Module Shelf_.
Definition shelf : Directory := mkDirectory (u "shelf") false true (λ _, false) (λ _, true) (λ _, true) (λ _, true).
Definition object : ObjectIdentity := mkIdentity Demo.uuid (Records.digest (u "abc")) 3.
Definition file : Target := mkTarget true true (λ _, true) true.
Definition source : Source := mkSource true 3 [u "ab"; u "c"] false.
Definition full : Files := {[ objectKey object := u "abc" ]}.
Lemma file_willing : willing file.
Proof. done. Qed.
#[local] Program Instance table : Bridge := {|
  remote := gmap QString (list N);
  fileAt r k := r !! k;
  upload k b r := (None, <[k := b]> r);
  download k r := (match r !! k with Some b => inr b | None => inl (u "missing") end, r)
|}.
Next Obligation. intros k b r k' Hk. by apply lookup_insert_ne. Qed.
Next Obligation. intros k r b r'. cbv beta. destruct (r !! k); [congruence|done]. Qed.
Next Obligation. done. Qed.
Definition cloud : RemoteOptions := remoteProvider (u "cloud") (u "s3") (u "my:bucket/") true true true file file.
Definition stored : gmap QString (list N) := {[ remoteKey cloud object := u "abc" ]}.
End Shelf_.
Lemma put_full : directoryPut Shelf_.shelf Shelf_.object Shelf_.source Shelf_.file (λ _, false) ∅ = (None, Shelf_.full).
Proof. vm_compute. exact eq_refl. Qed.
Lemma put_stored : remotePut (B := Shelf_.table) Shelf_.cloud Shelf_.object Shelf_.source Shelf_.file (λ _, false) (∅ : gmap QString (list N)) = (None, Shelf_.stored).
Proof. vm_compute. exact eq_refl. Qed.
Lemma provider_roundtrip_witness :
  directoryGet Shelf_.shelf Shelf_.object Shelf_.file (λ _, false) Shelf_.full = (inr (u "abc"), Shelf_.full)
  ∧ ∃ b, authentic Shelf_.object b.
Proof.
  pose proof (provider_roundtrip Shelf_.object Shelf_.source Shelf_.file (λ _, false)) as [H1 H2]. split.
  - pose proof (H1 Shelf_.shelf ∅ Shelf_.full put_full) as (_ & _ & H).
    exact (H Shelf_.shelf (objectKey Shelf_.object) Shelf_.file (λ _, false) ltac:(by vm_compute) Shelf_.file_willing ltac:(done)).
  - pose proof (H2 Shelf_.table Shelf_.cloud ∅ Shelf_.stored put_stored) as (b & _ & Ha & _). by exists b.
Defined.
End Providers.
