(* ===== verification/Binding.v ===== *)
(** How a replica is bound to its account, to its host and to the authority's
    identity, src/Sync/Replica.cpp: opening and migrating the journal, the adoption of
    a host's container by a mirror, and the claim of the primary host. *)
From S2P Require Import Prelude Qt Records Namespace Files Store.
Open Scope Z_scope.

Module Binding.
Import Records Store.

(** ** The control files of a container *)
(** [mirror.json] and [primary.json]: whether the path is occupied, and the object
    that is read from it; empty when it is not a small regular file of JSON. *)
Record Control := mkControl { occupied : bool; document : jobj }.
Definition canonicalUuid `{Platform} (s : QString) : bool := bool_decide (parseUuid s = Some s).
Definition nullUuid `{Platform} (s : QString) : bool := negb (bool_decide (is_Some (parseUuid s))).

Section control.
Context {PF : Platform}.

(** Replica::binding(containerPath); [drive] is the identifier of the container that
    SocietyDrive opens there. *)
Definition bindingAt (drive : option QString) (mirror : Control) : jobj :=
  match drive with
  | None => ∅
  | Some _ =>
      let value := document mirror in
      if bool_decide (value.["schema"] ≠ JNum 1) || isEmpty (toStr value.["host"])
         || (256 <? qsize (toStr value.["host"])) || nullUuid (toStr value.["container"])
         || negb (hex (toStr value.["scope"])) || negb (isBool value.["complete"])
      then ∅ else value
  end.
Definition primaryHost (drive : option QString) (scope : QString) (primary : Control) : QString :=
  match drive with
  | None => []
  | Some identifier =>
      if negb (hex scope) then [] else
      let value := document primary in
      if bool_decide (value.["schema"] ≠ JNum 1) || bool_decide (value.["scope"] ≠ JStr scope)
         || bool_decide (value.["container"] ≠ JStr identifier) || (128 <? qsize (toStr value.["host"]))
      then [] else toStr value.["host"]
  end.
Definition primaryDocument (scope identifier device : QString) : jobj :=
  obj [("schema", JNum 1); ("scope", JStr scope); ("container", JStr identifier); ("host", JStr device)]%string.
(** [before] is what the optimistic read finds, [current] what is there once the lock
    is held, [None] when its state cannot be told; [reached] is whether the directory
    and the lock could be had, [written] whether the write was committed. *)
Definition claimPrimaryHost (drive : option QString) (scope device : QString) (mirror before : Control)
    (reached : bool) (current : option Control) (written : bool) : bool * option Control :=
  match drive with
  | None => (false, current)
  | Some identifier =>
      if negb (hex scope) || isEmpty device || (128 <? qsize device) || negb (jempty (bindingAt drive mirror))
      then (false, current) else
      let existing := primaryHost drive scope before in
      if negb (isEmpty existing) then (bool_decide (existing = device), current) else
      if negb reached then (false, current) else
      match current with
      | None => (false, None)
      | Some c =>
          if occupied c then (bool_decide (primaryHost drive scope c = device), current)
          else if written then (true, Some (mkControl true (primaryDocument scope identifier device)))
          else (false, current)
      end
  end.
End control.

(** ** The store *)
(** What the library of containers answers: the identity a replica takes over, the
    marks it leaves in the container, the kind of the disk; [saveFile] replaces a
    control file, [freshReplica] is a new identity. *)
Record Container `{FileStore} := mkContainer {
  identifier : QString;
  adoptReplicaIdentity : QString → QString → option QString;
  completeReplica : QString → bool;
  logicalDisk : bool;
  containerError : QString;
  saveFile : QString → list N → world → bool * world;
  primary : Control;
  freshReplica : QString
}.
Section with_files.
Context {PF : Platform} {FS : FileStore} (E : Env) (C : Container).

Definition binding : M jobj :=
  let! host := meta E (u "host") in
  if isEmpty host then ret ∅ else
  let! replica := meta E (u "hostReplica") in
  let! target := meta E (u "target") in
  let! scope := meta E (u "scope") in
  let! complete := meta E (u "bootstrapComplete") in
  let! detached := meta E (u "detached") in
  ret (obj [("schema", JNum 1); ("host", JStr host); ("replica", JStr replica); ("container", JStr target);
            ("scope", JStr scope); ("complete", JBool (bool_decide (complete = u "1"))); ("recovery", JStr detached)]%string).
Definition bootstrapping : M bool :=
  let! host := meta E (u "host") in
  let! complete := meta E (u "bootstrapComplete") in
  ret (negb (isEmpty host) && bool_decide (complete ≠ u "1")).
Definition mirrorPath : QString := u ".society-sync/mirror.json".
Definition writeMirror (bytes : list N) : M bool :=
  let! written := onFiles (saveFile C mirrorPath bytes) in
  if written then ret true else fail (u "mirror_binding_write_failed").
Definition writeBinding : M bool :=
  let! value := binding in
  if jempty value then ret true else
  let! state := onFiles (fstate mirrorPath) in
  match state with
  | None => failFiles
  | Some st =>
      let bytes := json value in
      if bool_decide (kind st = u "file") && (fsize st =? Z.of_nat (List.length bytes)) then
        let! existing := onFiles (fread mirrorPath 0 (Z.of_nat (List.length bytes)) (stamp st)) in
        match existing with
        | None => failFiles
        | Some b => if bool_decide (b = bytes) then ret true else writeMirror bytes
        end
      else writeMirror bytes
  end.

(** *** Adopting the host's identity *)
Definition byPath (a b : QString * QString) : Prop := qle a.1 b.1.
#[global] Instance byPath_dec : RelDecision byPath := λ a b, decide (qlt b.1 a.1 = false).
Definition planRows (d : Db) : list (QString * QString) := merge_sort byPath (map_to_list (plan d)).
Fixpoint detachAll (rows : list (QString * QString)) : M bool :=
  match rows with
  | [] => ret true
  | (path, target) :: rest =>
      let! moved := onFiles (fdetach path target) in
      if moved then detachAll rest else failFiles
  end.
(** A chain of [&&]: the first failure ends it. *)
Fixpoint allOf (l : list (M bool)) : M bool :=
  match l with
  | [] => ret true
  | m :: rest => let! ok := m in if ok then allOf rest else ret false
  end.
Definition erase (st : Stmt) (f : Db → Db) : M bool :=
  let! ok := run E st in if ok then let! _ := onDb f in ret true else ret false.
Definition clearJournal : M bool :=
  let! ledger := journal E in
  let '(ledger, ok) := Namespace.clear (nsSql E) (lastError E) ledger in
  let! _ := keep ledger in ret ok.
(** The body of a transaction; its failure, or that of the commit, undoes all of it. *)
Definition inTransaction (message : string) (body : M bool) : M bool :=
  if negb (sql E Begin) then fail (u "journal_transaction_failed") else
  let! s := get in
  let! ok := body in
  if ok && sql E Commit then ret true else
  let! _ := modify (set_db (db s)) in fail (u message).
Definition resetForAdoption : M bool :=
  let! s := get in
  allOf [erase DeleteEntries (set_entries ∅); erase DeletePeers (set_peers ∅); erase DeletePlan (set_plan ∅);
         erase DeleteSnapshots (set_snapshots ∅); clearJournal;
         setMeta E (u "container") (container s); setMeta E (u "sequence") (u "0"); setMeta E (u "counter") (u "0");
         setMeta E (u "replica") (freshReplica C); setMeta E (u "adoption") (u "pulling")].
Definition resumeAdoption : M bool :=
  let! adoption := meta E (u "adoption") in
  if bool_decide (adoption ≠ u "detaching") then writeBinding else
  let! written := writeBinding in
  if negb written then ret false else
  let! own := meta E (u "container") in
  let! target := meta E (u "target") in
  match adoptReplicaIdentity C own target with
  | None => fail (containerError C)
  | Some identifier =>
      let! _ := modify (set_container identifier) in
      let! s := get in
      if negb (sql E SelectPlan) then fail (lastError E) else
      let! moved := detachAll (planRows (db s)) in
      if negb moved then ret false else
      let! reset := inTransaction "adoption_commit_failed" resetForAdoption in
      if negb reset then ret false else
      let! replica := meta E (u "replica") in
      let! _ := modify (set_id replica) in
      writeBinding
  end.

(** The names of every area, each with its place in the recovery directory; at most
    250000 in all. *)
Fixpoint planNames (native recovery : QString) (names : list QString) (count : Z) : M (option Z) :=
  match names with
  | [] => ret (Some count)
  | name :: rest =>
      if 250000 <? count + 1 then ret None else
      let path := native ++ slash :: name in
      if negb (sql E InsertPlan) then ret None else
      let! s := get in
      if bool_decide (is_Some (plan (db s) !! path)) then ret None else
      let! _ := onDb (λ d, set_plan (<[path := recovery ++ slash :: path]> (plan d)) d) in
      planNames native recovery rest (count + 1)
  end.
Fixpoint planSections (areas : list QString) (recovery : QString) (count : Z) : M bool :=
  match areas with
  | [] => ret true
  | native :: rest =>
      let! names := onFiles (flist native) in
      match names with
      | None => ret false
      | Some names =>
          let! count := planNames native recovery names count in
          match count with Some count => planSections rest recovery count | None => ret false end
      end
  end.
(** The files of an application's own logical disk stay where they are. *)
Definition planMirror (peer replica target recovery : QString) : M bool :=
  allOf [erase DeletePlan (set_plan ∅);
         (let! keepFiles := (if logicalDisk C then let! host := meta E (u "host") in ret (isEmpty host) else ret false) in
          if keepFiles then ret true else planSections (map snd sections) recovery 0);
         setMeta E (u "host") peer; setMeta E (u "hostReplica") replica; setMeta E (u "target") target;
         setMeta E (u "detached") recovery; setMeta E (u "bootstrapComplete") (u "0");
         setMeta E (u "adoption") (u "detaching")].
(** A host restored its journal: its cursors start again from zero. *)
Definition resetCheckpoint (peer replica : QString) : M bool :=
  allOf [erase DeletePeer (λ d, set_peers (delete peer (peers d)) d); clearJournal;
         setMeta E (u "hostReplica") replica].
(** A new host, or another container of the host: the plan, then the adoption. *)
Definition planAndAdopt (peer replica target : QString) : M bool :=
  let! s := get in
  let recovery := u ".society-sync/detached/" ++ container s ++ u "-" ++ freshId E in
  let! made := onFiles (fmkdir recovery) in
  let! kept := (if made then onFiles (fpreserve (u ".society-drive.json") (recovery ++ u "/manifest.json")) else ret false) in
  if negb kept then failFiles else
  let! planned := inTransaction "mirror_plan_failed" (planMirror peer replica target recovery) in
  if planned then resumeAdoption else ret false.
Definition bindHost (peer replica target : QString) (replaceHost : bool) : M bool :=
  let! locked := lock E in
  if negb locked then ret false else
  let! s := get in
  if negb (isEmpty (primaryHost (Some (identifier C)) (scope s) (primary C))) then fail (u "authority_cannot_become_mirror") else
  if isEmpty peer || (256 <? qsize peer) || nullUuid replica || bool_decide (replica = id s) || negb (canonicalUuid target)
  then fail (u "invalid_host_identity") else
  let! host := meta E (u "host") in
  if negb replaceHost && negb (isEmpty host) && bool_decide (host ≠ peer) then fail (u "different_primary_host") else
  let! resumed := resumeAdoption in
  if negb resumed then ret false else
  let! host := meta E (u "host") in
  let! bound := meta E (u "target") in
  if bool_decide (host = peer) && bool_decide (bound = target) then
    let! known := meta E (u "hostReplica") in
    if bool_decide (known = replica) then writeBinding else
    let! reset := inTransaction "host_checkpoint_reset_failed" (resetCheckpoint peer replica) in
    if reset then writeBinding else ret false
  else
  planAndAdopt peer replica target.
Definition completeBootstrap : M bool :=
  let! locked := lock E in
  if negb locked then ret false else
  let! adoption := meta E (u "adoption") in
  let! target := meta E (u "target") in
  let! s := get in
  if bool_decide (adoption ≠ u "pulling") || bool_decide (target ≠ container s) then fail (u "mirror_not_initialized") else
  if negb (completeReplica C (container s)) then fail (containerError C) else
  let! ok := setMeta E (u "bootstrapComplete") (u "1") in
  if ok then writeBinding else ret false.

(** *** Opening *)
(** What [open] finds: the type of the file system, the container, whether its root
    could be opened, a cancellation, what kept the database from being opened, the
    schema of the journal, and which statements that define it SQLite runs. *)
Record Opening := mkOpening {
  fileSystemType : QString;
  openedContainer : option QString;
  rootOpened : bool;
  cancelled : bool;
  databaseFailure : QString;
  userVersion : option Z;
  ddl : string → bool
}.
Definition close : M unit := modify (λ s, set_container [] (set_scope [] (set_id [] (set_leases ∅ (set_manifests ∅ s))))).
Definition remoteFileSystems : list QString := map u ["nfs"; "smb"; "cifs"; "afp"; "sshfs"; "webdav"; "9p"]%string.
Definition define (o : Opening) (statement : string) : M bool :=
  if ddl o statement then ret true else fail (lastError E).
Definition createSchema (o : Opening) (accountScope : QString) : M bool :=
  let! created := allOf (map (define o)
    ["metadata"; "entries"; "entry_sequence"; "peers"; "detach"; "user_version=3"]%string) in
  if negb created then ret false else
  let! s := get in
  let! recorded := allOf [setMeta E (u "scope") accountScope; setMeta E (u "container") (container s);
    setMeta E (u "replica") (freshReplica C); setMeta E (u "sequence") (u "0"); setMeta E (u "counter") (u "0")] in
  if recorded then ret true else fail (u "journal_initialization_failed").
Definition initialize (o : Opening) (accountScope : QString) (schema : Z) : M bool :=
  allOf [(if schema =? 0 then createSchema o accountScope else ret true);
         (if (schema =? 1) then allOf (map (define o) ["detach"; "user_version=2"]%string) else ret true);
         (let! ok := allOf (map (define o) ["namespace_revisions"; "namespace_path"; "object_locations"]%string) in
          if ok then ret true else fail (u "namespace_initialization_failed"));
         define o "sync_snapshots"].
Fixpoint saveAll (rows : list Row) : M bool :=
  match rows with
  | [] => ret true
  | r :: rest => let! ok := save E (edata r) (estamp r) in if ok then saveAll rest else ret false
  end.
Definition bySequence (a b : Row) : Prop := eseq a ≤ eseq b.
#[global] Instance bySequence_dec : RelDecision bySequence := λ a b, decide (eseq a ≤ eseq b).
Definition baseline (d : Db) : list Row := merge_sort bySequence (map snd (map_to_list (entries d))).
(** An authority's entries become revisions; a mirror reads its host again. *)
Definition migrate (o : Opening) : M bool :=
  let! host := meta E (u "host") in
  let! moved := (if isEmpty host then
                   if sql E SelectEntries then let! s := get in saveAll (baseline (db s)) else ret false
                 else erase ResetPeers (λ d, set_peers (fmap (λ p, mkPeer (preplica p) (pcontainer p) 0 0) (peers d)) d)) in
  if moved then define o "user_version=3" else ret false.
Definition committed (message : string) (body : M bool) : M bool :=
  if negb (sql E Begin) then fail (u "journal_transaction_failed") else
  let! s := get in
  let! ok := body in
  if negb ok then let! _ := modify (set_db (db s)) in ret false
  else if sql E Commit then ret true
  else let! _ := modify (set_db (db s)) in fail (u message).
Definition unusable (o : Opening) (accountScope : QString) : M (option QString) :=
  let! s := get in
  if negb (hex accountScope) then ret (Some (u "invalid_account_scope"))
  else if existsb (containsStr (fileSystemType o)) remoteFileSystems then ret (Some (u "sync_requires_device_local_storage"))
  else match openedContainer o with
  | None => ret (Some (containerError C))
  | Some identifier =>
      let! _ := modify (set_container identifier) in
      if negb (rootOpened o) then let! s := get in ret (Some (ferror (files s))) else
      let! transfers := onFiles (fmkdir (u ".society-sync/transfers")) in
      let! recovery := (if transfers then onFiles (fmkdir (u ".society-sync/recovery")) else ret false) in
      let! s := get in
      ret (if negb recovery then Some (ferror (files s))
           else if existsb (redirected E) (map u ["journal.sqlite"; "journal.sqlite-wal"; "journal.sqlite-shm"; "operation.lock"]%string)
           then Some (u "sync_state_redirected")
           else if negb (lockFree E) then Some (u "sync_store_busy")
           else if cancelled o then Some (u "cancelled")
           else if negb (isEmpty (databaseFailure o)) then Some (databaseFailure o)
           else if negb ((0 <=? default (-1) (userVersion o)) && (default (-1) (userVersion o) <=? 3))
           then Some (u "unsupported_journal_schema") else None)
  end.
(** Replica::open. *)
Definition open (o : Opening) (accountScope : QString) : M bool :=
  let! _ := close in
  let! _ := modify (set_error []) in
  let! reason := unusable o accountScope in
  match reason with
  | Some e => fail e
  | None =>
  let schema := default (-1) (userVersion o) in
  let! prepared := allOf (map (define o) ["journal_mode"; "synchronous"]%string) in
  if negb prepared then ret false else
  let! ok := committed "journal_initialization_commit_failed" (initialize o accountScope schema) in
  if negb ok then ret false else
  let! scope := meta E (u "scope") in
  let! own := meta E (u "container") in
  let! adoption := meta E (u "adoption") in
  let! target := meta E (u "target") in
  let! s := get in
  if bool_decide (scope ≠ accountScope)
     || (bool_decide (own ≠ container s)
         && negb (bool_decide (adoption = u "detaching") && bool_decide (target = container s)))
  then let! _ := close in fail (u "container_account_binding_mismatch") else
  let! _ := modify (set_scope accountScope) in
  let! resumed := resumeAdoption in
  if negb resumed then ret false else
  let! replica := meta E (u "replica") in
  let! _ := modify (set_id replica) in
  if nullUuid replica then let! _ := close in fail (u "invalid_replica_identity") else
  if negb (schema =? 0) && (schema <? 3)
  then inTransaction "namespace_migration_failed" (migrate o)
  else ret true
  end.
End with_files.
End Binding.
