(* ===== verification/BindingLaws.v ===== *)
(** Properties of Binding.v: whatever fails while a replica is bound to a host, its
    database only ever takes the steps of one small state machine, and one device at
    most claims to be the primary host. *)
From S2P Require Import Prelude Qt Records Demo DemoFiles Namespace Files Store DemoStore Invariants Binding.
Open Scope Z_scope.

Module BindingLaws.
Import Records Store Binding Invariants.

(** ** The phases of a binding *)
Definition withMeta (l : list (string * QString)) (d : Db) : Db :=
  foldl (λ d kv, set_metadata (<[u kv.1 := kv.2]> (metadata d)) d) d l.
(** What a plan puts aside: entries of the areas, each below the recovery directory. *)
Definition planned `{Platform} (recovery : QString) (p : gmap QString QString) : Prop :=
  ∀ path target, p !! path = Some target →
    target = recovery ++ slash :: path ∧ ∃ area name, area ∈ map snd sections ∧ path = area ++ slash :: name.
Inductive transition `{Platform} (peer replica target fresh : QString) : Db → Db → Prop :=
| to_detaching d p recovery :
    metaOf d "adoption" ≠ u "detaching" → planned recovery p →
    transition peer replica target fresh d
      (withMeta [("host", peer); ("hostReplica", replica); ("target", target); ("detached", recovery);
                 ("bootstrapComplete", u "0"); ("adoption", u "detaching")]%string (set_plan p d))
| to_pulling d container :
    metaOf d "adoption" = u "detaching" →
    transition peer replica target fresh d
      (withMeta [("container", container); ("sequence", u "0"); ("counter", u "0"); ("replica", fresh);
                 ("adoption", u "pulling")]%string (mkDb (metadata d) ∅ ∅ ∅ ∅ [] []))
| to_restored d :
    metaOf d "host" = peer → metaOf d "target" = target → metaOf d "adoption" ≠ u "detaching" →
    transition peer replica target fresh d
      (withMeta [("hostReplica", replica)]%string (set_ledger [] [] (set_peers (delete peer (peers d)) d)))
| to_complete d :
    metaOf d "adoption" = u "pulling" →
    transition peer replica target fresh d (withMeta [("bootstrapComplete", u "1")]%string d).

Section with_files.
Context {PF : Platform} {FS : FileStore} (E : Env) (C : Container).

(** *** Computations that leave the database alone *)
Definition still (s s' : Store) : Prop := db s' = db s ∧ container s' = container s ∧ scope s' = scope s ∧ id s' = id s.
#[local] Instance still_preorder : PreOrder still.
Proof. split; [by intros s|]. intros a b c (H1 & H2 & H3 & H4) (? & ? & ? & ?). unfold still. split_and!; congruence. Qed.
Lemma still_quiet {A} (m : M A) : quiet m → respects still m.
Proof. intros H s. destruct (H s) as [e ->]. by split_and!. Qed.
Lemma still_onFiles {A} (f : world → A * world) : respects still (onFiles f).
Proof. intros s. unfold onFiles. by destruct (f (files s)). Qed.
Ltac stay :=
  repeat match goal with
  | |- respects _ (bind _ _) => apply respects_bind; [|intros ?]
  | |- respects _ (if _ then _ else _) => apply respects_if
  | |- respects _ (match ?x with _ => _ end) => destruct x
  | |- respects _ (ret _) => apply respects_ret
  | |- respects _ get => apply respects_get
  | |- respects _ (onFiles _) => apply still_onFiles
  | |- respects _ (fail _) => apply still_quiet, quiet_fail
  | |- respects _ failFiles => intros ?; by split_and!
  | |- respects _ (meta _ _) => apply still_quiet, quiet_meta
  | |- respects _ (modify (set_error _)) => intros ?; by split_and!
  | |- respects _ (modify (λ s, set_files _ s)) => intros ?; by split_and!
  end.
Lemma lock_still : respects still (lock E).
Proof. unfold lock, ready. stay. Qed.
Lemma writeBinding_still : respects still (writeBinding E C).
Proof. unfold writeBinding, binding, writeMirror. stay. Qed.
Lemma detachAll_still l : respects still (detachAll l).
Proof. induction l as [|[path target] l IH]; cbn [detachAll]; stay; exact IH. Qed.

(** *** What a successful write has done *)
Lemma allOf_cons m l s s' :
  allOf (m :: l) s = (true, s') → ∃ s1, m s = (true, s1) ∧ allOf l s1 = (true, s').
Proof. cbn [allOf]. unfold bind. destruct (m s) as [[] s1]; [eauto|by intros [= ]]. Qed.
Lemma allOf_nil s s' : allOf [] s = (true, s') → s' = s.
Proof. by intros [= ->]. Qed.
Lemma setMeta_true k v s s' :
  setMeta E k v s = (true, s') → s' = set_db (set_metadata (<[k := v]> (metadata (db s))) (db s)) s.
Proof. unfold setMeta, run, bind. destruct (sql E _); [|done]. by intros [= <-]. Qed.
Lemma erase_true st f s s' : erase E st f s = (true, s') → s' = set_db (f (db s)) s.
Proof. unfold erase, run, bind. destruct (sql E _); [|done]. by intros [= <-]. Qed.
Lemma clearJournal_true s s' :
  clearJournal E s = (true, s') → ∃ e, s' = set_error e (set_db (set_ledger [] [] (db s)) s).
Proof.
  unfold clearJournal, bind at 1. destruct (quiet_elim _ s (quiet_journal E)) as (j & e & ->).
  unfold Namespace.clear. destruct (nsSql E Namespace.DeleteRevisions); [|done].
  destruct (nsSql E Namespace.DeleteLocations); [|done]. intros [= <-]. by exists e.
Qed.
Lemma inTransaction_cases message body s b s' :
  inTransaction E message body s = (b, s') → db s' = db s ∧ b = false ∨ b = true ∧ body s = (true, s').
Proof.
  unfold inTransaction. destruct (sql E Begin); cbn [negb]; [|by intros [= <- <-]; left].
  unfold bind, get. destruct (body s) as [[] s1]; cbn [andb].
  - destruct (sql E Commit); intros [= <- <-]; [by right|by left].
  - intros [= <- <-]. by left.
Qed.
Ltac finish_writes :=
  repeat match goal with
  | H : allOf (_ :: _) _ = (true, _) |- _ => apply allOf_cons in H as (? & ? & H)
  | H : allOf [] _ = (true, _) |- _ => apply allOf_nil in H; subst
  | H : setMeta _ _ _ _ = (true, _) |- _ => apply setMeta_true in H; subst
  | H : erase _ _ _ _ = (true, _) |- _ => apply erase_true in H; subst
  | H : clearJournal _ _ = (true, _) |- _ => apply clearJournal_true in H as [? ->]
  end.

Lemma resetForAdoption_true s s' :
  resetForAdoption E C s = (true, s') →
  db s' = withMeta [("container", container s); ("sequence", u "0"); ("counter", u "0"); ("replica", freshReplica C);
                    ("adoption", u "pulling")]%string (mkDb (metadata (db s)) ∅ ∅ ∅ ∅ [] []).
Proof. unfold resetForAdoption, bind at 1, get. intros H. finish_writes. done. Qed.
Lemma resetCheckpoint_true peer replica s s' :
  resetCheckpoint E peer replica s = (true, s') →
  db s' = withMeta [("hostReplica", replica)]%string (set_ledger [] [] (set_peers (delete peer (peers (db s))) (db s))).
Proof. unfold resetCheckpoint. intros H. finish_writes. done. Qed.

Lemma planNames_some native recovery names count s n s' :
  native ∈ map snd sections →
  planned recovery (plan (db s)) →
  planNames E native recovery names count s = (Some n, s') →
  ∃ p, db s' = set_plan p (db s) ∧ planned recovery p ∧ plan (db s) ⊆ p
       ∧ ∀ name, name ∈ names → is_Some (p !! (native ++ slash :: name)).
Proof.
  intros Hn. revert count s. induction names as [|name names IH]; intros count s Hp; cbn [planNames].
  { intros [= <- <-]. exists (plan (db s)). split_and!; [by destruct (db s)|done|done|]. intros name Hin. by apply elem_of_nil in Hin. }
  destruct (_ <? _); [done|]. destruct (sql E InsertPlan); [|done]. cbn [negb]. unfold bind at 1, get.
  case_bool_decide as Hfree; [done|]. unfold bind at 1, onDb, modify.
  match goal with |- planNames _ _ _ _ _ ?x = _ → _ => set (s1 := x) end. intros H.
  assert (planned recovery (plan (db s1))) as Hp1.
  { cbn. intros path target. intros [[<- <-]|[_ Hl]]%lookup_insert_Some; [eauto 6|by apply Hp]. }
  destruct (IH _ s1 Hp1 H) as (p & Hdb & Hpp & Hsub & Hall). exists p.
  assert (plan (db s1) !! (native ++ slash :: name) = Some (recovery ++ slash :: native ++ slash :: name)) as Hnew
    by (cbn; by rewrite lookup_insert_eq).
  split_and!; [by rewrite Hdb|done| |].
  - etransitivity; [|exact Hsub]. cbn. apply insert_subseteq. by apply eq_None_not_Some.
  - intros name' [->|Hin]%elem_of_cons; [|by apply Hall]. exists (recovery ++ slash :: native ++ slash :: name).
    by eapply lookup_weaken.
Qed.
Lemma planSections_true areas recovery count s s' :
  areas ⊆ map snd sections → planned recovery (plan (db s)) →
  planSections E areas recovery count s = (true, s') →
  ∃ p, db s' = set_plan p (db s) ∧ planned recovery p.
Proof.
  revert count s. induction areas as [|native areas IH]; intros count s Ha Hp; cbn [planSections].
  { intros [= <-]. exists (plan (db s)). by destruct (db s). }
  unfold bind at 1, onFiles. destruct (flist native (files s)) as [[names|] w]; [|done].
  unfold bind at 1. destruct (planNames E native recovery names count (set_files w s)) as [[n|] s1] eqn:Es1; [|done].
  apply planNames_some in Es1 as (p & Hdb & Hpp & _); [|apply Ha; by left|done]. intros H.
  apply IH in H as (p' & Hdb' & Hpp'); [|intros x Hx; apply Ha; by right|by rewrite Hdb].
  exists p'. by rewrite Hdb', Hdb.
Qed.
Lemma planMirror_true peer replica target recovery s s' :
  planMirror E C peer replica target recovery s = (true, s') →
  ∃ p, planned recovery p
     ∧ db s' = withMeta [("host", peer); ("hostReplica", replica); ("target", target); ("detached", recovery);
                 ("bootstrapComplete", u "0"); ("adoption", u "detaching")]%string (set_plan p (db s)).
Proof.
  assert (planned recovery ∅) as H0 by (intros path t; by rewrite lookup_empty).
  unfold planMirror. intros H. apply allOf_cons in H as (s1 & H1 & H). apply erase_true in H1.
  apply allOf_cons in H as (s2 & H2 & H). 
  assert (∃ p, db s2 = set_plan p (db s) ∧ planned recovery p) as (p & Hdb & Hp).
  { unfold bind in H2.
    assert (∃ keepFiles e, (if logicalDisk C then bind (meta E (u "host")) (λ h, ret (isEmpty h)) else ret false) s1 = (keepFiles, set_error e s1)) as (k & e & Ek).
    { destruct (logicalDisk C).
      - unfold bind. destruct (quiet_elim _ s1 (quiet_meta E (u "host"))) as (h & e & ->). by exists (isEmpty h), e.
      - exists false, (error s1). by destruct s1. }
    unfold bind in Ek. rewrite Ek in H2. destruct k.
    - injection H2 as <-. exists ∅. by rewrite H1.
    - apply planSections_true in H2 as (p & Hdb & Hp); [|done|by rewrite H1]. exists p. by rewrite Hdb, H1. }
  finish_writes. exists p. split; [done|]. cbn. by rewrite Hdb.
Qed.

Section reads.
Hypothesis reads : ∀ k, sql E (SelectMeta k) = true.
Lemma meta_read k s : meta E (u k) s = (metaOf (db s) k, s).
Proof. unfold meta. by rewrite reads. Qed.

Lemma resume_cases s b s' :
  resumeAdoption E C s = (b, s') →
  (db s' = db s ∧ (b = true → metaOf (db s) "adoption" ≠ u "detaching"))
  ∨ (metaOf (db s) "adoption" = u "detaching" ∧ ∃ c,
     db s' = withMeta [("container", c); ("sequence", u "0"); ("counter", u "0"); ("replica", freshReplica C);
                       ("adoption", u "pulling")]%string (mkDb (metadata (db s)) ∅ ∅ ∅ ∅ [] [])).
Proof.
  unfold resumeAdoption, bind at 1. rewrite meta_read. case_bool_decide as Ha.
  { intros H. left. split; [|done]. pose proof (writeBinding_still s) as (Hd & _). by rewrite H in Hd. }
  unfold bind at 1. pose proof (writeBinding_still s) as (Hd & _).
  destruct (writeBinding E C s) as [written s1]; cbn [snd] in Hd. destruct written; cbn [negb]; [|by intros [= <- <-]; left].
  unfold bind at 1. rewrite meta_read. unfold bind at 1. rewrite meta_read.
  destruct (adoptReplicaIdentity _ _ _) as [c|]; [|by intros [= <- <-]; left].
  unfold bind at 1, modify. unfold bind at 1, get. destruct (sql E SelectPlan); cbn [negb]; [|by intros [= <- <-]; left].
  unfold bind at 1. set (s2 := set_container c s1). pose proof (detachAll_still (planRows (db s2)) s2) as (Hd3 & Hc3 & _).
  destruct (detachAll _ s2) as [moved s3]; cbn [snd] in Hd3, Hc3. destruct moved; cbn [negb]; [|intros [= <- <-]; left; split; [by rewrite Hd3|done]].
  unfold bind at 1. destruct (inTransaction _ _ _ s3) as [reset s4] eqn:Et. apply inTransaction_cases in Et as [[Hd4 ->]|[-> Hr]].
  - intros [= <- <-]. left. split; [by rewrite Hd4, Hd3|done].
  - apply resetForAdoption_true in Hr. cbn [negb]. unfold bind at 1. rewrite meta_read. unfold bind at 1, modify. intros H.
    right. split; [done|]. exists c. pose proof (writeBinding_still (set_id (metaOf (db s4) "replica") s4)) as (Hd5 & _).
    rewrite H in Hd5. cbn [snd] in Hd5. rewrite Hd5. change (db (set_id _ s4)) with (db s4).
    rewrite Hr, Hd3, Hc3. cbn [s2 set_container db container]. by rewrite Hd.
Qed.

Lemma resume_transition peer replica target s b s' :
  resumeAdoption E C s = (b, s') → rtc (transition peer replica target (freshReplica C)) (db s) (db s').
Proof.
  intros [[-> _]|(Ha & c & ->)]%resume_cases; [done|]. by apply rtc_once, to_pulling.
Qed.
(** Once adopted, nothing is being detached. *)
Lemma resume_done s s' : resumeAdoption E C s = (true, s') → metaOf (db s') "adoption" ≠ u "detaching".
Proof.
  intros [[-> H]|(Ha & c & ->)]%resume_cases; [by apply H|]. unfold withMeta. cbn [foldl fst snd].
  rewrite metaOf_set_eq. auto with society.
Qed.
Lemma resume_meta k s s' : k ∉ ["container"; "sequence"; "counter"; "replica"; "adoption"]%string →
  resumeAdoption E C s = (true, s') → metaOf (db s') k = metaOf (db s) k.
Proof.
  rewrite !not_elem_of_cons. intros (H1 & H2 & H3 & H4 & H5 & _).
  intros [[-> _]|(Ha & c & ->)]%resume_cases; [done|]. unfold withMeta. cbn [foldl fst snd].
  by rewrite !metaOf_set by congruence.
Qed.

Lemma complete_transition peer replica target s b s' :
  completeBootstrap E C s = (b, s') → rtc (transition peer replica target (freshReplica C)) (db s) (db s').
Proof.
  unfold completeBootstrap, bind at 1. pose proof (lock_still s) as (Hd & _).
  destruct (lock E s) as [[] s1]; cbn [snd] in Hd; cbn [negb]; [|intros [= <- <-]; by rewrite Hd].
  unfold bind at 1. rewrite meta_read. unfold bind at 1. rewrite meta_read. unfold bind at 1, get.
  destruct (bool_decide (metaOf (db s1) "adoption" ≠ u "pulling")) eqn:Ha; [intros [= <- <-]; cbn; by rewrite Hd|].
  apply bool_decide_eq_false, dec_stable in Ha. cbn [orb].
  destruct (bool_decide _); [intros [= <- <-]; cbn; by rewrite Hd|].
  destruct (completeReplica C _); cbn [negb]; [|intros [= <- <-]; cbn; by rewrite Hd].
  unfold bind at 1. destruct (setMeta E _ _ s1) as [ok s2] eqn:Es. destruct ok.
  - apply setMeta_true in Es. intros H. pose proof (writeBinding_still s2) as (Hd2 & _). rewrite H in Hd2. cbn [snd] in Hd2.
    rewrite Hd2, Es. cbn [set_db db]. rewrite <- Hd. apply rtc_once. by apply to_complete.
  - unfold setMeta, run, bind in Es. destruct (sql E _); [done|]. injection Es as <-. intros [= <- <-]. cbn. by rewrite Hd.
Qed.

Definition boundTo (peer replica target : QString) (d : Db) : Prop :=
  metaOf d "host" = peer ∧ metaOf d "hostReplica" = replica ∧ metaOf d "target" = target ∧ metaOf d "adoption" ≠ u "detaching".

Lemma planAndAdopt_cases peer replica target s b s' :
  metaOf (db s) "adoption" ≠ u "detaching" →
  planAndAdopt E C peer replica target s = (b, s') →
  rtc (transition peer replica target (freshReplica C)) (db s) (db s') ∧ (b = true → boundTo peer replica target (db s')).
Proof.
  intros Ha. unfold planAndAdopt. unfold bind at 1, get. cbv zeta. set (recovery := u ".society-sync/detached/" ++ _).
  unfold bind at 1, onFiles at 1. destruct (fmkdir recovery (files s)) as [made w]. set (s1 := set_files w s).
  unfold bind at 1. assert (respects still (if made then onFiles (fpreserve (u ".society-drive.json") (recovery ++ u "/manifest.json")) else ret false)) as Hp
    by (destruct made; [apply still_onFiles|apply respects_ret; apply _]).
  specialize (Hp s1) as (Hd & _).
  match goal with |- context [match ?m s1 with (_, _) => _ end] => destruct (m s1) as [kept s2] end. cbn [snd] in Hd.
  change (db s1) with (db s) in Hd. destruct kept; cbn [negb]; [|intros [= <- <-]; cbn; by rewrite Hd].
  unfold bind at 1. destruct (inTransaction _ _ _ s2) as [planned s3] eqn:Ei. apply inTransaction_cases in Ei as [[Hd3 ->]|[-> Hr]].
  { intros [= <- <-]. by rewrite Hd3, Hd. }
  apply planMirror_true in Hr as (p & Hp & Hd3). rewrite Hd in Hd3. intros H. split.
  - eapply rtc_l; [by apply (to_detaching _ _ _ _ (db s) p recovery)|]. rewrite <- Hd3. by eapply resume_transition.
  - intros ->. unfold boundTo. pose proof (λ k Hk, resume_meta k _ _ Hk H) as Hm.
    rewrite (Hm "host"%string), (Hm "hostReplica"%string), (Hm "target"%string), Hd3 by by_compute. unfold withMeta. cbn [foldl fst snd].
    split_and!; [..|by eapply resume_done].
    all: repeat (rewrite metaOf_set_eq || rewrite metaOf_set by done); done.
Qed.

(** The part of [bindHost] after an unfinished adoption was resumed. *)
Lemma bindHost_cases peer replica target replaceHost s b s' :
  bindHost E C peer replica target replaceHost s = (b, s') →
  rtc (transition peer replica target (freshReplica C)) (db s) (db s')
  ∧ (b = true → boundTo peer replica target (db s')).
Proof.
  unfold bindHost, bind at 1. pose proof (lock_still s) as (Hd & _).
  destruct (lock E s) as [[] s1]; cbn [snd] in Hd; cbn [negb]; [|intros [= <- <-]; by rewrite Hd]. rewrite <- Hd. clear s Hd.
  unfold bind at 1, get. destruct (negb _); [by intros [= <- <-]|]. destruct (_ || negb (canonicalUuid target)); [by intros [= <- <-]|].
  unfold bind at 1. rewrite meta_read. destruct (_ && _ && _); [by intros [= <- <-]|].
  unfold bind at 1. destruct (resumeAdoption E C s1) as [resumed s2] eqn:Er.
  pose proof (resume_transition peer replica target _ _ _ Er) as H1.
  destruct resumed; cbn [negb]; [|by intros [= <- <-]]. apply resume_done in Er as Hadopt.
  unfold bind at 1. rewrite meta_read. unfold bind at 1. rewrite meta_read.
  destruct (bool_decide (metaOf (db s2) "host" = peer)) eqn:Eh; [destruct (bool_decide (metaOf (db s2) "target" = target)) eqn:Et|]; cbn [andb].
  - apply bool_decide_eq_true in Eh, Et. unfold bind at 1. rewrite meta_read. case_bool_decide as Ek.
    { intros H. pose proof (writeBinding_still s2) as (Hd & _). rewrite H in Hd. cbn in Hd. rewrite Hd. by split. }
    unfold bind at 1. destruct (inTransaction _ _ _ s2) as [reset s3] eqn:Ei. apply inTransaction_cases in Ei as [[Hd ->]|[-> Hr]].
    { intros [= <- <-]. by rewrite Hd. }
    apply resetCheckpoint_true in Hr. intros H. pose proof (writeBinding_still s3) as (Hd & _). rewrite H in Hd. cbn in Hd.
    rewrite Hd, Hr. split; [|intros _].
    + eapply rtc_r; [exact H1|by apply to_restored].
    + unfold boundTo, withMeta. cbn [foldl fst snd]. rewrite metaOf_set_eq, !metaOf_set by done. by split_and!.
  - intros H. destruct (planAndAdopt_cases _ _ _ _ _ _ Hadopt H). split; [by etransitivity|done].
  - intros H. destruct (planAndAdopt_cases _ _ _ _ _ _ Hadopt H). split; [by etransitivity|done].
Qed.
End reads.
End with_files.

(** C28: Binding a mirror is a small state machine that survives every failure. For any
    database whose metadata can be read, whatever other statement, commit, file
    operation or library call fails: resuming an adoption, binding a host and completing
    the bootstrap take the database only along these steps, each whole or not at all:
    a plan is recorded beside the untouched catalog (only when none is pending, and it
    puts aside entries of the areas below one recovery directory); a pending plan is
    carried out, leaving empty tables and a new replica identity; the checkpoint of the
    same host is reset; the bootstrap is marked complete. When [bindHost] answers true
    the replica is bound to that host, journal and container, and no plan is pending. *)
Theorem binding_phases {PF : Platform} {FS : FileStore} E C peer replica target replaceHost s
    (Hreads : ∀ k, sql E (SelectMeta k) = true) :
  let T := rtc (transition peer replica target (freshReplica C)) in
  T (db s) (db (resumeAdoption E C s).2)
  ∧ T (db s) (db (bindHost E C peer replica target replaceHost s).2)
  ∧ T (db s) (db (completeBootstrap E C s).2)
  ∧ ((bindHost E C peer replica target replaceHost s).1 = true →
     boundTo peer replica target (db (bindHost E C peer replica target replaceHost s).2)).
Proof.
  cbv zeta. pose proof (bindHost_cases E C Hreads peer replica target replaceHost s _ _ (surjective_pairing _)) as [H1 H2].
  split_and!; [|exact H1| |exact H2].
  - by eapply resume_transition, surjective_pairing.
  - by eapply complete_transition, surjective_pairing.
Qed.

Module Mirror_.
Definition saved (p : QString) (b : list N) (w : DemoFiles.Flat) : bool * DemoFiles.Flat := (true, <[p := b]> w).
Definition library : Container := mkContainer _ (u "container") (λ _ target, Some target) (λ _, true) false [] saved
  (mkControl false ∅) (u "22222222-2222-3333-4444-555555555555").
Definition disk : DemoFiles.Flat := {[ u "Photos/a.png" := u "abc"; u ".society-drive.json" := u "{}" ]}.
Definition bound : bool * Store :=
  bindHost DemoStore.healthy library (u "host") (u "33333333-2222-3333-4444-555555555555")
    (u "44444444-2222-3333-4444-555555555555") false (DemoStore.storeOf DemoStore.emptyDb disk).
Example bound_true : bound.1 = true.
Proof. by vm_compute. Qed.
End Mirror_.
Lemma binding_phases_witness :
  rtc (transition (u "host") (u "33333333-2222-3333-4444-555555555555") (u "44444444-2222-3333-4444-555555555555")
         (u "22222222-2222-3333-4444-555555555555")) DemoStore.emptyDb (db Mirror_.bound.2).
Proof.
  exact (proj1 (proj2 (binding_phases DemoStore.healthy Mirror_.library (u "host") (u "33333333-2222-3333-4444-555555555555")
    (u "44444444-2222-3333-4444-555555555555") false (DemoStore.storeOf DemoStore.emptyDb Mirror_.disk) (λ _, eq_refl)))).
Defined.

(** ** The claim of the primary host *)
(** Devices that claim one container at the same time: each first reads the control
    file, and later, holding the lock, goes on with what it has read. *)
Record Race := mkRace { control : Control; reading : list (QString * Control); winners : list QString }.
Inductive race `{Platform} (drive : option QString) (scope : QString) (mirror : Control) : Race → Race → Prop :=
| race_read r device :
    race drive scope mirror r (mkRace (control r) ((device, control r) :: reading r) (winners r))
| race_claim r l1 l2 device before reached written :
    reading r = l1 ++ (device, before) :: l2 →
    race drive scope mirror r
      (let '(won, c) := claimPrimaryHost drive scope device mirror before reached (Some (control r)) written in
       mkRace (default (control r) c) (l1 ++ l2) (if won then device :: winners r else winners r)).

Section race_laws.
Context {PF : Platform} (drive : option QString) (scope : QString) (mirror : Control).

Record fair (r : Race) : Prop := {
  fair_free : occupied (control r) = false → primaryHost drive scope (control r) = [];
  fair_winners d : d ∈ winners r → d ≠ [] ∧ primaryHost drive scope (control r) = d;
  fair_reading d c : (d, c) ∈ reading r → primaryHost drive scope c = [] ∨ primaryHost drive scope c = primaryHost drive scope (control r)
}.
Lemma claimed_host identifier device :
  hex scope = true → qsize device ≤ 128 →
  primaryHost (Some identifier) scope (mkControl true (primaryDocument scope identifier device)) = device.
Proof.
  intros Hh Hd. unfold primaryHost, primaryDocument. rewrite Hh. cbn [negb document]. rewrite !jvalue_obj. 
  cbn [jassoc String.eqb Ascii.eqb Bool.eqb toStr]. rewrite !bool_decide_false by tauto.
  rewrite (proj2 (Z.ltb_ge _ _) Hd). done.
Qed.
Lemma fair_step r r' : fair r → race drive scope mirror r r' → fair r'.
Proof.
  intros Hf Hr. revert Hf. destruct Hr as [r device|r l1 l2 device before reached written Er]; intros [H1 H2 H3].
  { split; cbn [control winners reading]; [done|done|]. intros d c [[= -> ->]|Hin]%elem_of_cons; [by right|by apply (H3 d)]. }
  assert (∀ d c, (d, c) ∈ l1 ++ l2 → (d, c) ∈ reading r) as Hin.
  { intros d c. rewrite Er, !elem_of_app, elem_of_cons. tauto. }
  pose proof (H3 device before) as Hb. rewrite Er, elem_of_app, elem_of_cons in Hb. specialize (Hb ltac:(auto)).
  assert (∀ b : bool, (b = true → device ≠ [] ∧ primaryHost drive scope (control r) = device) →
    fair (mkRace (control r) (l1 ++ l2) (if b then device :: winners r else winners r))) as Hsame.
  { intros b Hw. split; cbn [control winners reading]; [done| |eauto].
    destruct b; [|done]. intros d [->|Hd]%elem_of_cons; [by apply Hw|by apply H2]. }
  unfold claimPrimaryHost. destruct drive as [identifier|] eqn:Edrive; [|by apply (Hsame false)].
  destruct (negb (hex scope) || isEmpty device || (128 <? qsize device) || _) eqn:Eg; [by apply (Hsame false)|].
  apply orb_false_iff in Eg as [[[Hhex Hemp]%orb_false_iff Hsize]%orb_false_iff _].
  apply negb_false_iff in Hhex. apply bool_decide_eq_false in Hemp. apply Z.ltb_ge in Hsize.
  destruct (negb (isEmpty (primaryHost (Some identifier) scope before))) eqn:Ee.
  { apply Hsame. intros Hw%bool_decide_eq_true. split; [done|].
    apply negb_true_iff, bool_decide_eq_false in Ee. destruct Hb as [Hb|Hb]; [done|congruence]. }
  destruct reached; cbn [negb]; [|by apply (Hsame false)].
  destruct (occupied (control r)) eqn:Eo.
  { apply Hsame. intros Hw%bool_decide_eq_true. done. }
  destruct written; [|by apply (Hsame false)]. specialize (H1 eq_refl).
  assert (winners r = []) as ->.
  { destruct (winners r) as [|d l]; [done|]. destruct (H2 d) as [Hne Hp]; [by left|congruence]. }
  cbn [default]. split; cbn [control winners reading occupied]; [done| |].
  - intros d Hd%list_elem_of_singleton. subst d. split; [done|]. rewrite Edrive. by apply claimed_host.
  - intros d c Hc. left. rewrite Edrive. destruct (H3 d c (Hin _ _ Hc)) as [?|Hc']; [done|congruence].
Qed.
End race_laws.

(** C30: At most one device becomes the primary host of a container. However any number
    of devices interleave their claims (each reads the control file, takes the lock
    later, finds the file as it is then, and may fail to reach or to write it), all
    those that are told they won are one and the same device, and the control file
    names it. *)
Theorem one_primary_host {PF : Platform} drive scope mirror c r
    (Hfree : occupied c = false → document c = ∅)
    (Hrace : rtc (race drive scope mirror) (mkRace c [] []) r) :
  (∀ d, d ∈ winners r → primaryHost drive scope (control r) = d)
  ∧ ∀ d d', d ∈ winners r → d' ∈ winners r → d = d'.
Proof.
  assert (fair drive scope r) as [_ Hw _].
  { assert (fair drive scope (mkRace c [] [])) as H0.
    { split; cbn [control winners reading]; [|intros d Hd; by apply elem_of_nil in Hd|intros d b Hd; by apply elem_of_nil in Hd].
      intros Ho. unfold primaryHost. rewrite (Hfree Ho), jvalue_empty. destruct drive; [|done]. by destruct (hex scope). }
    revert H0. induction Hrace as [|x y z Hxy _ IH]; [done|]. intros Hx. apply IH. by eapply fair_step. }
  split; [intros d Hd; by apply Hw|]. intros d d' Hd Hd'. destruct (Hw d Hd) as [_ <-]. by destruct (Hw d' Hd') as [_ <-].
Qed.
Module Race_.
Definition account : QString := replicate 64 97%N.
Definition free : Control := mkControl false ∅.
Definition start : Race := mkRace free [] [].
Definition first : Race := mkRace (mkControl true (primaryDocument account (u "c") (u "phone"))) [(u "tablet", free)] [u "phone"].
Definition both : Race := mkRace free [(u "tablet", free); (u "phone", free)] [].
Lemma run : rtc (race (Some (u "c")) account free) start first.
Proof.
  eapply rtc_l; [apply (race_read _ _ _ start (u "phone"))|].
  eapply rtc_l; [apply (race_read _ _ _ (mkRace free [(u "phone", free)] []) (u "tablet"))|].
  apply rtc_once. assert (first = let '(won, c) := claimPrimaryHost (Some (u "c")) account (u "phone") free free true (Some free) true in
    mkRace (default free c) ([(u "tablet", free)] ++ []) (if won then [u "phone"] else [])) as -> by (by vm_compute).
  by apply (race_claim (Some (u "c")) account free both [(u "tablet", free)] [] (u "phone") free true true).
Qed.
End Race_.
Lemma one_primary_host_witness :
  primaryHost (Some (u "c")) Race_.account (control Race_.first) = u "phone".
Proof.
  refine (proj1 (one_primary_host (Some (u "c")) Race_.account Race_.free Race_.free Race_.first (λ _, eq_refl) Race_.run) (u "phone") _).
  by left.
Defined.
End BindingLaws.
