(* ===== verification/Objects.v ===== *)
(** The objects of a replica that live outside its section files,
    src/Sync/Replica.cpp: metadata without bytes, the catalog for other programs, the
    requests for content, previews, and the copies kept by providers. *)
From S2P Require Import Prelude Qt Records Base64 Namespace Files Store Scan Requests Providers Binding.
Open Scope Z_scope.

Module Objects.
Import Records Store.

Section with_files.
Context {PF : Platform} {FS : FileStore} (E : Env).

(** ** Metadata and residence *)
(** Replica::record. *)
Definition recordOf (path : QString) : M jobj := let! (e, _) := entry E path in ret e.
(** Replica::objectMetadata. *)
Definition objectMetadata (path : QString) : M jobj :=
  let! ledger := journal E in ret (Namespace.object (nsSql E) ledger path).
(** The bytes of a path are here, unchanged since they were verified. *)
Definition resident (path : QString) : M bool :=
  let! (e, st) := entry E path in
  if bool_decide (e.["kind"] ≠ JS "file") || bool_decide (st = u "remote") then ret false else
  let! state := onFiles (fstate (physical path)) in
  match state with
  | Some s => ret (bool_decide (kind s = u "file") && bool_decide (stamp s = st))
  | None => ret false
  end.
(** Replica::acceptMetadata, under the lock: a revision of the host replaces the record
    of a path whose bytes are a verified cache. *)
Definition replaceMetadata (incoming : jobj) : M bool :=
  let path := toStr incoming.["path"] in
  let! fresh := refresh E path in
  if negb fresh then ret false else
  let! (old, st) := entry E path in
  if negb (jempty old) && negb (jcontains old "revision") then fail (u "pending_local_change_requires_merge") else
  let! here := resident path in
  if here && contentEqual old incoming then save E incoming st
  else if bool_decide (old.["kind"] = JS "directory") then fail (u "structural_change_requires_merge") else
  let! evicted := (if bool_decide (st ≠ u "remote") && bool_decide (old.["kind"] = JS "file")
                   then onFiles (fremove (physical path)) else ret true) in
  if evicted then save E incoming (u "remote") else failFiles.
Definition acceptMetadata (peer : QString) (incoming : jobj) : M bool :=
  let! locked := lock E in
  if negb locked then ret false else
  let! allowed := (if negb (validRecord incoming) || bool_decide (incoming.["kind"] ≠ JS "file") then ret false else
                   let! host := meta E (u "host") in
                   if bool_decide (peer ≠ host) || isEmpty peer then ret false else
                   let! ledger := journal E in ret (Namespace.contains (nsSql E) ledger incoming)) in
  if negb allowed then fail (u "host_revision_required") else replaceMetadata incoming.

(** ** The catalog for other programs *)
(** SQLite's data version and change count of the connection. *)
Record Revision := mkRevision { dataVersion : Z; totalChanges : Z }.
#[global] Instance Revision_eq_dec : EqDecision Revision.
Proof. solve_decision. Defined.
Definition byPath (a b : QString * Row) : Prop := qle a.1 b.1.
#[global] Instance byPath_dec : RelDecision byPath := λ a b, decide (qlt b.1 a.1 = false).
Definition rowsByPath (d : Db) : list Row := map snd (merge_sort byPath (map_to_list (entries d))).
Definition catalogEntry (r : Row) : jval :=
  JObj (jinsert (edata r) "resident"
    (JBool (bool_decide ((edata r).["kind"] = JS "file") && bool_decide (estamp r ≠ u "remote")))).
Section catalog.
(** The reads of the revision before and after the lock is taken, whether the catalog
    is there at each, and what the library answers to the catalog it is given. *)
Variables (first second : option Revision) (there there' : bool) (publish : list jval → bool) (publishError : QString).
Definition current (published : Revision) (r : Revision) (there : bool) : bool := bool_decide (published = r) && there.
Definition publishStorageMap (published : Revision) : M (bool * Revision) :=
  let refuse (e : QString) := let! _ := fail e in ret (false, published) in
  let! ok := ready E in
  if negb ok then ret (false, published) else
  match first with
  | None => refuse (u "catalog_revision_unavailable")
  | Some r =>
      if current published r there then ret (true, published) else
      let! locked := lock E in
      if negb locked then ret (false, published) else
      match second with
      | None => refuse (u "catalog_revision_unavailable")
      | Some r =>
          if current published r there' then ret (true, published)
          else if negb (sql E SelectEntries) then refuse (lastError E) else
          let! s := get in
          if publish (map catalogEntry (rowsByPath (db s))) then ret (true, r) else refuse publishError
      end
  end.
End catalog.

(** ** Requests for content *)
(** The library's list of pending requests, and how one is finished. *)
Section requests.
Context {Library : Type} (pendingRequests : Library → list jobj) (finishRequest : QString → QString → Library → Library).
Fixpoint requestPaths (objects : list jval) (paths : list QString) : M (option (list QString)) :=
  match objects with
  | [] => ret (Some paths)
  | item :: rest =>
      let object := toObj item in
      let path := toStr object.["path"] in
      let! known := objectMetadata path in
      let! known := (if jempty known then recordOf path else ret known) in
      if bool_decide (known.["kind"] ≠ JS "file") || bool_decide (known.["version"] ≠ object.["version"]) then ret None
      else requestPaths rest (paths ++ [path])
  end.
Fixpoint collectRequests (requests : list jobj) (l : Library) (paths : list QString) : M (list QString * Library) :=
  match requests with
  | [] => ret (removeDuplicates paths, l)
  | request :: rest =>
      let! found := requestPaths (toArr request.["objects"]) [] in
      match found with
      | None => collectRequests rest (finishRequest (toStr request.["id"]) (u "object_changed_select_again") l) paths
      | Some more => collectRequests rest l (paths ++ more)
      end
  end.
Definition requestedPaths (l : Library) : M (list QString * Library) := collectRequests (pendingRequests l) l [].
Fixpoint allResident (objects : list jval) (ready : bool) : M bool :=
  match objects with
  | [] => ret ready
  | item :: rest => let! here := resident (toStr (toObj item).["path"]) in allResident rest (ready && here)
  end.
Fixpoint finishRequests (requests : list jobj) (l : Library) : M Library :=
  match requests with
  | [] => ret l
  | request :: rest =>
      let! ready := allResident (toArr request.["objects"]) true in
      finishRequests rest (if ready then finishRequest (toStr request.["id"]) [] l else l)
  end.
(** Stale versions are rejected before local availability is reported. *)
Definition completeRequests (l : Library) : M Library :=
  let! (_, l) := requestedPaths l in finishRequests (pendingRequests l) l.
End requests.

(** ** Previews *)
Definition previewLimit : nat := 16.
Definition photoIdentity (path : QString) : bool :=
  startsWith path (u "photos/") && (endsWith path (u ".societyphoto") || startsWith path (u "photos/.previews/")).
Fixpoint missingIdentities (rows : list Row) (result : list jval) : M (list jval) :=
  match rows with
  | [] => ret result
  | r :: rest =>
      let path := toStr (edata r).["path"] in
      if bool_decide (estamp r ≠ u "remote") || negb (photoIdentity path) then missingIdentities rest result else
      let! known := objectMetadata path in
      let known := jremove known "locations" in
      if bool_decide (known.["kind"] ≠ JS "file") || (512 * 1024 <? jlong known.["size"]) then missingIdentities rest result else
      let result := result ++ [JObj known] in
      if Nat.leb previewLimit (List.length result) then ret result else missingIdentities rest result
  end.
Definition missingPhotoIdentities : M (list jval) :=
  if sql E SelectEntries then let! s := get in missingIdentities (rowsByPath (db s)) [] else ret [].
Definition previewExtensions : list QString := map u ["png"; "jpg"; "jpeg"; "webp"; "heic"; "heif"]%string.
Definition isFileAt (path : QString) : M bool :=
  let! state := onFiles (fstate path) in
  ret match state with Some s => bool_decide (kind s = u "file") | None => false end.
Definition previewOf (hash extension : QString) : QString := u ".society-sync/previews/" ++ hash ++ extension.
(** The rows in the order in which SQLite returns them. *)
Fixpoint missingPreviewsOf (rows : list Row) (result : list jval) : M (list jval) :=
  match rows with
  | [] => ret result
  | r :: rest =>
      let e := edata r in
      let path := toStr e.["path"] in
      if bool_decide (e.["kind"] ≠ JS "file") || negb (jcontains e "revision") || containsStr path (u "/.previews/")
         || negb (bool_decide (Requests.suffixOf path ∈ previewExtensions))
      then missingPreviewsOf rest result else
      let! made := isFileAt (previewOf (toStr e.["hash"]) (u ".jpg")) in
      let! none := (if made then ret true else isFileAt (previewOf (toStr e.["hash"]) (u ".none"))) in
      if none then missingPreviewsOf rest result else
      let! known := objectMetadata path in
      let result := result ++ [JObj (jremove known "locations")] in
      if Nat.leb previewLimit (List.length result) then ret result else missingPreviewsOf rest result
  end.
Definition missingPreviews (order : list Row → list Row) : M (list jval) :=
  if sql E SelectEntries then let! s := get in missingPreviewsOf (order (map snd (map_to_list (entries (db s))))) []
  else ret [].
(** [jpegSize] is the size the image library reads, [saveFile] replaces a file. *)
Definition savePreview (jpegSize : list N → option (Z * Z)) (saveFile : QString → list N → world → bool * world)
    (e response : jobj) : M bool :=
  let! locked := lock E in
  if negb locked then ret false else
  if negb (validRecord e) || bool_decide (response.["version"] ≠ e.["version"]) then fail (u "invalid_preview_version") else
  match Base64.fromBase64 (toStr response.["data"]) with
  | None => fail (u "invalid_preview")
  | Some data =>
      if 512 * 1024 <? Z.of_nat (List.length data) then fail (u "invalid_preview") else
      let! made := onFiles (fmkdir (u ".society-sync/previews")) in
      if negb made then failFiles
      else if negb (bool_decide (data = []))
              && match jpegSize data with Some (w, h) => (512 <? w) || (512 <? h) | None => true end
      then fail (u "invalid_preview_dimensions") else
      let target := previewOf (toStr e.["hash"]) (if bool_decide (data = []) then u ".none" else u ".jpg") in
      let! state := onFiles (fstate target) in
      match state with
      | None => failFiles
      | Some _ => onFiles (saveFile target data)
      end
  end.

(** ** Providers *)
Section providers.
Context {P : Providers.ObjectProvider}.
Definition identityOf (space : QString) (e : jobj) : Providers.ObjectIdentity :=
  Providers.mkIdentity space (toStr e.["hash"]) (jlong e.["size"]).
(** Which object is placed; decided under the lock. *)
Definition chooseObject (path : QString) : M (option jobj) :=
  let refuse (e : string) := let! _ := fail (u e) in ret None in
  let! locked := lock E in
  if negb locked then ret None else
  let! host := meta E (u "host") in
  if negb (isEmpty host) then refuse "provider_requires_authority" else
  let! fresh := (if isEmpty (physical path) then ret false else refresh E path) in
  if negb fresh then refuse "invalid_provider_object" else
  let! e := objectMetadata path in
  if bool_decide (e.["kind"] ≠ JS "file") then refuse "provider_requires_file" else ret (Some e).
Definition recordLocation (e : jobj) (o : Providers.ObjectIdentity) : M bool :=
  let! locked := lock E in
  if negb locked then ret false else
  let! ledger := journal E in
  let '(ledger, ok) := Namespace.locate (nsSql E) (lastError E) ledger (toStr e.["version"])
    (obj [("provider", JStr Providers.providerId); ("kind", JStr Providers.providerKind); ("key", JStr (Providers.objectKey o))]%string) in
  let! _ := keep ledger in
  if ok then ret true else fail (Namespace.error ledger).
(** The lock is given back while the provider copies: [between] is what others do to
    the store meanwhile. *)
Definition placeObject (path : QString) (source : Providers.Source) (target : Providers.Target)
    (cancelled : Providers.Cancellation) (between : Store → Store) (p : Providers.place) : M (bool * Providers.place) :=
  let! chosen := chooseObject path in
  match chosen with
  | None => ret (false, p)
  | Some e =>
      let! s := get in
      let o := identityOf (container s) e in
      let! _ := modify between in
      match Providers.put o source target cancelled p with
      | (Some err, p) => let! _ := fail err in ret (false, p)
      | (None, p) => let! ok := recordLocation e o in ret (ok, p)
      end
  end.

(** An object may be restored where its path is free and its record unchanged. *)
Definition restorable (path : QString) (e : jobj) : M bool :=
  let! state := onFiles (fstate (physical path)) in
  match state with
  | None => ret false
  | Some s =>
      if bool_decide (kind s ≠ u "deleted") then ret false else
      let! (row, _) := entry E path in ret (bool_decide (row.["version"] = e.["version"]))
  end.
Definition temporaryOf (id : QString) : QString := u ".society-sync/transfers/provider-" ++ id ++ u ".part".
(** [deliver] writes the provider's bytes to the temporary file, [discard] removes it. *)
Definition finishRestore (discard : QString → world → world) (path temporary : QString) (e : jobj) : M bool :=
  let refuse (m : M bool) := let! _ := onFiles (λ w, (tt, discard temporary w)) in m in
  let! locked := lock E in
  let! free := (if locked then restorable path e else ret false) in
  if negb free then refuse (fail (u "provider_restore_would_overwrite_change")) else
  let! installed := onFiles (finstall temporary (physical path)) in
  let! state := (if installed then onFiles (fstate (physical path)) else ret None) in
  match state with
  | None => refuse failFiles
  | Some s => save E e (stamp s)
  end.
Definition restoreObject (deliver : QString → list N → world → world) (discard : QString → world → world) (leased : bool)
    (path : QString) (target : Providers.Target) (cancelled : Providers.Cancellation) (between : Store → Store)
    (p : Providers.place) : M (bool * Providers.place) :=
  let refuse (e : QString) := let! _ := fail e in ret (false, p) in
  let! locked := lock E in
  if negb locked then ret (false, p) else
  let! host := meta E (u "host") in
  if negb (isEmpty host) then refuse (u "provider_requires_authority") else
  let! e := objectMetadata path in
  let! free := (if isEmpty (physical path) || bool_decide (e.["kind"] ≠ JS "file") then ret false else restorable path e) in
  if negb free then refuse (u "provider_restore_would_overwrite_change")
  else if negb leased then refuse (u "temporary_area_unavailable") else
  let! s := get in
  let o := identityOf (container s) e in
  let temporary := temporaryOf (freshId E) in
  let! _ := modify between in
  match Providers.get o target cancelled p with
  | (inl err, p) => let! _ := onFiles (λ w, (tt, discard temporary w)) in let! _ := fail err in ret (false, p)
  | (inr b, p) =>
      let! _ := onFiles (λ w, (tt, deliver temporary b w)) in
      let! ok := finishRestore discard path temporary e in ret (ok, p)
  end.
End providers.
End with_files.
End Objects.
