(* ===== verification/Codec.v ===== *)
(** Values and objects as messages, src/Objects/ObjectCodec.cpp: the limits of a value,
    the snapshot of an object graph, and the envelope that is sent and read back. *)
From S2P Require Import Prelude Qt Records Base64 Demo.
Open Scope Z_scope.

Module Codec.
Import Records.

Definition maximumPayloadBytes : Z := 64 * 1024.
Definition maximumStreamBytes : Z := 48 * 1024.
Definition maximumDepth : Z := 16.
Definition maximumNodes : Z := 4096.
Definition format : QString := u "iisacc.qt-object".

(** ** Values *)
(** A QVariant. [Value] is one of a type with stream operators, in its serialised form;
    [Opaque] of a type without them; [Pointer] of any pointer type but QObject's;
    [ObjectPtr] points to the object of that number, or is null. *)
Inductive variant :=
| Invalid
| Value (type : QString) (bytes : list N)
| Opaque (type : QString)
| Pointer (type : QString)
| ObjectPtr (o : option nat)
| VMap (l : list (QString * variant))
| VHash (l : list (QString * variant))
| VList (l : list variant)
| Snapshot (className : QString) (properties : list (QString * variant)).
Inductive Error :=
| LimitExceeded | PointerValue | NoOperators (type : QString) | BadSnapshotName | BadPropertyName
| NullObject | WrongThread | ReferenceCycle | BadContract | Destroyed | UnreadableProperty (name : QString)
| InvalidValue | BadTypeName | SerializationFailed | EnvelopeTooLarge
| SerializerThrew
| BadEnvelope | UnsupportedEnvelope | Unregistered | BadBase64 | BadStream | DeserializerThrew.

Section induction.
Variable P : variant → Prop.
Hypotheses (HI : P Invalid) (HV : ∀ t b, P (Value t b)) (HO : ∀ t, P (Opaque t)) (HP : ∀ t, P (Pointer t))
  (HQ : ∀ o, P (ObjectPtr o))
  (HM : ∀ l, Forall (λ kv : QString * variant, P kv.2) l → P (VMap l))
  (HH : ∀ l, Forall (λ kv : QString * variant, P kv.2) l → P (VHash l))
  (HL : ∀ l, Forall P l → P (VList l))
  (HS : ∀ c l, Forall (λ kv : QString * variant, P kv.2) l → P (Snapshot c l)).
(** Induction with the hypothesis for the values of a container. *)
Fixpoint variant_nested (v : variant) : P v :=
  let pairs := fix pairs (l : list (QString * variant)) : Forall (λ kv : QString * variant, P kv.2) l :=
    match l with
    | [] => Forall_nil_2 _
    | kv :: r => Forall_cons_2 _ kv r (variant_nested kv.2) (pairs r)
    end in
  match v with
  | Invalid => HI | Value t b => HV t b | Opaque t => HO t | Pointer t => HP t | ObjectPtr o => HQ o
  | VMap l => HM l (pairs l) | VHash l => HH l (pairs l)
  | VList l => HL l ((fix items (l : list variant) : Forall P l :=
      match l with [] => Forall_nil_2 _ | x :: r => Forall_cons_2 _ x r (variant_nested x) (items r) end) l)
  | Snapshot c l => HS c l (pairs l)
  end.
End induction.

Definition validName (name : QString) : bool :=
  negb (isEmpty name) && (qsize name <=? 256) && isValidUtf16 name && negb (containsChar 0 name).

(** Count the elements of a container, one after the other. *)
Definition foldChecks {A} (f : A → Z → Z + Error) : list A → Z → Z + Error :=
  fix go l nodes :=
    match l with
    | [] => inl nodes
    | x :: rest => match f x nodes with inl nodes => go rest nodes | inr e => inr e end
    end.
Definition exceeds (depth nodes : Z) : bool := (maximumDepth <? depth) || (maximumNodes <? nodes + 1).
Fixpoint checkValue (v : variant) (depth nodes : Z) {struct v} : Z + Error :=
  if exceeds depth nodes then inr LimitExceeded else
  let pairs (depth : Z) := foldChecks (λ (kv : QString * variant) nodes,
    if isValidUtf16 kv.1 then checkValue kv.2 depth nodes else inr BadPropertyName) in
  match v with
  | Invalid | Value _ _ => inl (nodes + 1)
  | Pointer _ | ObjectPtr _ => inr PointerValue
  | Opaque t => inr (NoOperators t)
  | Snapshot c l =>
      if negb (validName c) then inr BadSnapshotName
      else if exceeds (depth + 1) (nodes + 1) then inr LimitExceeded
      else pairs (depth + 2) l (nodes + 2)
  | VMap l | VHash l => pairs (depth + 1) l (nodes + 1)
  | VList l => foldChecks (λ x nodes, checkValue x (depth + 1) nodes) l (nodes + 1)
  end.

(** *** The same limits, without the running counters *)
Definition maxOf (l : list Z) : Z := fold_right Z.max 0 l.
Definition sumOf (l : list Z) : Z := fold_right Z.add 0 l.
(** The depth of the deepest value inside, and how many values there are. *)
Fixpoint height (v : variant) : Z :=
  match v with
  | VMap l | VHash l => maxOf (map (λ kv : QString * variant, 1 + height kv.2) l)
  | VList l => maxOf (map (λ x, 1 + height x) l)
  | Snapshot _ l => Z.max 1 (maxOf (map (λ kv : QString * variant, 2 + height kv.2) l))
  | _ => 0
  end.
Fixpoint count (v : variant) : Z :=
  match v with
  | VMap l | VHash l => 1 + sumOf (map (λ kv : QString * variant, count kv.2) l)
  | VList l => 1 + sumOf (map count l)
  | Snapshot _ l => 2 + sumOf (map (λ kv : QString * variant, count kv.2) l)
  | _ => 1
  end.
Fixpoint transferable (v : variant) : bool :=
  match v with
  | Invalid | Value _ _ => true
  | Opaque _ | Pointer _ | ObjectPtr _ => false
  | VMap l | VHash l => forallb (λ kv : QString * variant, isValidUtf16 kv.1 && transferable kv.2) l
  | VList l => forallb transferable l
  | Snapshot c l => validName c && forallb (λ kv : QString * variant, isValidUtf16 kv.1 && transferable kv.2) l
  end.

Lemma maxOf_le l b : 0 ≤ b → maxOf l ≤ b ↔ Forall (λ x, x ≤ b) l.
Proof.
  intros Hb. induction l as [|x l IH]; cbn; [split; [constructor|lia]|].
  rewrite Forall_cons, <- IH. fold (maxOf l). lia.
Qed.
Lemma sumOf_nonneg l : Forall (λ x, 0 ≤ x) l → 0 ≤ sumOf l.
Proof. induction 1; cbn; [done|]. fold (sumOf l). lia. Qed.
Lemma maxOf_nonneg l : 0 ≤ maxOf l.
Proof. induction l as [|x l IH]; cbn; [done|]. fold (maxOf l). lia. Qed.
Lemma height_nonneg v : 0 ≤ height v.
Proof.
  destruct v; cbn [height]; try done; try apply maxOf_nonneg. lia.
Qed.
Lemma count_positive v : 1 ≤ count v.
Proof.
  induction v as [| | | | |l IH|l IH|l IH|c l IH] using variant_nested; cbn; try lia.
  all: match goal with |- context [sumOf ?x] => assert (0 ≤ sumOf x); [|lia] end; apply sumOf_nonneg, Forall_map.
  all: apply Forall_forall; intros x Hx; rewrite Forall_forall in IH; specialize (IH x Hx); cbn in *; lia.
Qed.

(** A container passes when every element does and all fit. *)
Lemma foldChecks_spec {A} (f : A → Z → Z + Error) (good : A → bool) (fits : A → Z) (depth : A → Z) (limit : Z) l n m :
  Forall (λ x, 1 ≤ fits x) l →
  Forall (λ x, ∀ n m, f x n = inl m ↔ depth x ≤ limit ∧ n + fits x ≤ maximumNodes ∧ good x = true ∧ m = n + fits x) l →
  n ≤ maximumNodes →
  foldChecks f l n = inl m ↔
    Forall (λ x, depth x ≤ limit) l ∧ n + sumOf (map fits l) ≤ maximumNodes ∧ forallb good l = true ∧ m = n + sumOf (map fits l).
Proof.
  intros Hc Hf. revert n. induction l as [|x l IH]; intros n Hn.
  - cbn. rewrite Z.add_0_r. split; [by intros [= ->]|by intros (_ & _ & _ & ->)].
  - apply Forall_cons in Hc as [Hx Hc]. apply Forall_cons in Hf as [Hfx Hf]. specialize (IH Hc Hf).
    assert (0 ≤ sumOf (map fits l)) as Hs.
    { apply sumOf_nonneg, Forall_map. eapply Forall_impl; [exact Hc|]. intros y Hy. cbn in *. lia. }
    cbn [foldChecks map sumOf fold_right forallb]. fold (sumOf (map fits l)). rewrite Forall_cons, andb_true_iff.
    destruct (f x n) as [n'|e] eqn:Ex.
    + apply Hfx in Ex as (Hd & Hle & Hg & ->). fold (foldChecks f). rewrite IH by done.
      rewrite Z.add_assoc. tauto.
    + split; [done|]. intros ((Hd & _) & Hle & (Hg & _) & _). 
      assert (f x n = inl (n + fits x)) as Eq by (apply Hfx; split_and!; [done|lia|done|done]). congruence.
Qed.

Definition within (v : variant) (d n m : Z) : Prop :=
  d + height v ≤ maximumDepth ∧ n + count v ≤ maximumNodes ∧ transferable v = true ∧ m = n + count v.
Lemma exceeds_false d n : exceeds d n = false ↔ d ≤ maximumDepth ∧ n + 1 ≤ maximumNodes.
Proof. unfold exceeds. rewrite orb_false_iff, !Z.ltb_ge. done. Qed.
Lemma exceeds_true d n : exceeds d n = true ↔ maximumDepth < d ∨ maximumNodes < n + 1.
Proof. unfold exceeds. rewrite orb_true_iff, !Z.ltb_lt. done. Qed.

(** The elements of a container of depth [d]: [k] levels below it. *)
Lemma pairs_spec (l : list (QString * variant)) d n m :
  Forall (λ kv : QString * variant, ∀ d n m, checkValue kv.2 d n = inl m ↔ within kv.2 d n m) l → n ≤ maximumNodes →
  foldChecks (λ (kv : QString * variant) nodes,
    if isValidUtf16 kv.1 then checkValue kv.2 d nodes else inr BadPropertyName) l n = inl m ↔
    Forall (λ kv : QString * variant, d + height kv.2 ≤ maximumDepth) l
    ∧ n + sumOf (map (λ kv : QString * variant, count kv.2) l) ≤ maximumNodes
    ∧ forallb (λ kv : QString * variant, isValidUtf16 kv.1 && transferable kv.2) l = true
    ∧ m = n + sumOf (map (λ kv : QString * variant, count kv.2) l).
Proof.
  intros IH Hn. apply (foldChecks_spec _ _ (λ kv : QString * variant, count kv.2) (λ kv : QString * variant, d + height kv.2));
    [|eapply Forall_impl; [exact IH|]|done].
  - apply Forall_forall. intros kv _. apply count_positive.
  - intros kv Hkv n' m'. cbn. destruct (isValidUtf16 kv.1); cbn [andb]; [apply Hkv|]. split; [done|]. by intros (_ & _ & ? & _).
Qed.
Lemma depth_max {A} (f : A → Z) (l : list A) k d :
  0 ≤ k → d ≤ maximumDepth → (d + maxOf (map (λ x, k + f x) l) ≤ maximumDepth ↔ Forall (λ x, d + k + f x ≤ maximumDepth) l).
Proof.
  intros Hk Hd. assert (d + maxOf (map (λ x, k + f x) l) ≤ maximumDepth ↔ maxOf (map (λ x, k + f x) l) ≤ maximumDepth - d) as -> by lia.
  rewrite maxOf_le by lia. rewrite Forall_map. apply Forall_iff. intros x. cbn. lia.
Qed.
Lemma checkValue_spec v : ∀ d n m, checkValue v d n = inl m ↔ within v d n m.
Proof.
  unfold within.
  induction v as [|t b|t|t|o|l IH|l IH|l IH|c l IH] using variant_nested; intros d n m; cbn [checkValue];
    (destruct (exceeds d n) eqn:Ee; [apply exceeds_true in Ee|apply exceeds_false in Ee as [Hd Hn]]).
  all: try (split; [done|]; intros (H1 & H2 & _);
    match goal with H : ?d + height ?v ≤ _ |- _ => pose proof (height_nonneg v); pose proof (count_positive v) end; lia).
  - cbn. split; [intros [= <-]; split_and!; lia || done|by intros (_ & _ & _ & ->)].
  - cbn. split; [intros [= <-]; split_and!; lia || done|by intros (_ & _ & _ & ->)].
  - cbn. split; [done|]. by intros (_ & _ & ? & _).
  - cbn. split; [done|]. by intros (_ & _ & ? & _).
  - cbn. split; [done|]. by intros (_ & _ & ? & _).
  - rewrite pairs_spec by done. cbn [height count transferable]. rewrite depth_max by lia.
    rewrite Z.add_assoc. done.
  - rewrite pairs_spec by done. cbn [height count transferable]. rewrite depth_max by lia.
    rewrite Z.add_assoc. done.
  - rewrite (foldChecks_spec _ transferable count (λ x, d + 1 + height x) maximumDepth); cycle 1.
    + apply Forall_forall. intros x _. apply count_positive.
    + eapply Forall_impl; [exact IH|]. intros x Hx n' m'. cbn. apply Hx.
    + done.
    + cbn [height count transferable]. rewrite depth_max by lia. rewrite Z.add_assoc. done.
  - cbn [height count transferable]. assert (0 ≤ sumOf (map (λ kv : QString * variant, count kv.2) l)).
    { apply sumOf_nonneg, Forall_map, Forall_forall. intros kv _. cbn. pose proof (count_positive kv.2). lia. }
    destruct (validName c); cbn [negb andb]; [|split; [done|by intros (_ & _ & ? & _)]].
    destruct (exceeds (d + 1) (n + 1)) eqn:Ee; [apply exceeds_true in Ee; split; [done|intros (H1 & H2 & _); lia]|].
    apply exceeds_false in Ee as [Hd1 Hn1]. rewrite pairs_spec by (done || lia).
    assert (d + Z.max 1 (maxOf (map (λ kv : QString * variant, 2 + height kv.2) l)) ≤ maximumDepth
            ↔ d + maxOf (map (λ kv : QString * variant, 2 + height kv.2) l) ≤ maximumDepth) as -> by lia.
    rewrite depth_max by lia. rewrite Z.add_assoc. done.
Qed.

(** The check of a value decides exactly its limits: it passes if and only if no
    value lies deeper than 16, there are at most 4096 values, and none is a pointer, of
    a type without stream operators or under a malformed name; and then it has counted
    them. The counters that the check threads through, and gives up on early, compute
    the same as measuring the whole value first. *)
Theorem check_decides_limits v n :
  checkValue v 0 0 = inl n ↔ height v ≤ maximumDepth ∧ count v ≤ maximumNodes ∧ transferable v = true ∧ n = count v.
Proof. rewrite checkValue_spec. unfold within. rewrite !Z.add_0_l. done. Qed.

(** ** The snapshot of an object graph *)
(** Reading an object runs its code, which may change or destroy objects: [W] is the
    state of the process. *)
Inductive getter (A : Type) := Returned (a : A) | Refused | Threw.
#[global] Arguments Returned {A} a.
#[global] Arguments Refused {A}.
#[global] Arguments Threw {A}.
(** [Dangling]: an object was used after its destruction. [OutOfFuel]: deeper than the
    model follows; [capture_terminates] shows that it never happens. *)
Inductive outcome (A : Type) := Done (a : A) | Failed (e : Error) | GetterThrew | Dangling | OutOfFuel.
#[global] Arguments Done {A} a.
#[global] Arguments Failed {A} e.
#[global] Arguments GetterThrew {A}.
#[global] Arguments Dangling {A}.
#[global] Arguments OutOfFuel {A}.

(** A QMap: ascending keys, and a later insertion replaces. *)
Fixpoint insertPair (k : QString) (v : variant) (l : list (QString * variant)) : list (QString * variant) :=
  match l with
  | [] => [(k, v)]
  | (k', v') :: r =>
      if bool_decide (k = k') then (k, v) :: r else if qlt k k' then (k, v) :: l else (k', v') :: insertPair k v r
  end.

Section capture.
Context {W : Type}.
Variables (alive ownThread : W → nat → bool) (className : nat → QString) (contract : nat → bool)
  (invoke : nat → W → W * getter (list (QString * variant)))
  (properties : nat → list (QString * bool)) (read : nat → QString → W → W * getter variant).

(** Steps that count nodes and run the getters of objects. *)
Definition M (A : Type) : Type := Z → W → outcome (A * Z * W).
Definition ret {A} (a : A) : M A := λ n w, Done (a, n, w).
Definition fail {A} (e : Error) : M A := λ _ _, Failed e.
Definition bind {A B} (m : M A) (f : A → M B) : M B := λ n w,
  match m n w with
  | Done (a, n, w) => f a n w
  | Failed e => Failed e | GetterThrew => GetterThrew | Dangling => Dangling | OutOfFuel => OutOfFuel
  end.
Local Notation "x ← m ; k" := (bind m (λ x, k)) (at level 20, m at level 100, k at level 200, only parsing).
(** The guard both functions begin with: count one more. *)
Definition enter (depth : Z) : M () := λ n w,
  if exceeds depth n then Failed LimitExceeded else Done ((), n + 1, w).
Definition whileAlive (o : nat) : M () := λ n w, if alive w o then Done ((), n, w) else Failed Destroyed.
Definition get {A} (g : W → W * getter A) (refused : Error) : M A := λ n w,
  match g w with
  | (w, Returned a) => Done (a, n, w)
  | (_, Refused) => Failed refused
  | (_, Threw) => GetterThrew
  end.
(** The elements of a container, one after the other. *)
Fixpoint each {A B} (f : A → M B) (l : list A) : M (list B) :=
  match l with
  | [] => ret []
  | x :: r => y ← f x; ys ← each f r; ret (y :: ys)
  end.
Definition insertAll (l : list (QString * variant)) : list (QString * variant) :=
  foldl (λ m kv, insertPair kv.1 kv.2 m) [] l.
Definition captureProperty (captureValue : variant → M variant) (o : nat) (m : list (QString * variant))
    (name : QString) : M (list (QString * variant)) :=
  value ← get (read o name) (UnreadableProperty name);
  _ ← whileAlive o;
  match value with
  | Invalid => fail (UnreadableProperty name)
  | _ => normalized ← captureValue value; _ ← whileAlive o; ret (insertPair name normalized m)
  end.
Fixpoint captureProperties (captureValue : variant → M variant) (o : nat) (l : list (QString * bool))
    (m : list (QString * variant)) : M (list (QString * variant)) :=
  match l with
  | [] => ret m
  | (name, readable) :: r =>
      m ← (if readable : bool then captureProperty captureValue o m name else ret m);
      captureProperties captureValue o r m
  end.
(** The values of an object, by its contract or its properties; [captureValue] is the
    capture of a value while this object is being captured. *)
Definition captureMembers (captureValue : variant → M variant) (o : nat) : M (list (QString * variant)) :=
  if contract o
  then values ← get (invoke o) BadContract;
       _ ← whileAlive o;
       normalized ← captureValue (VMap values);
       _ ← whileAlive o;
       ret (match normalized with VMap m => m | _ => [] end)
  else captureProperties captureValue o (properties o) [].
Definition captureObject (captureValue : gset nat → Z → variant → M variant) (object : option nat)
    (active : gset nat) (depth : Z) : M variant :=
  match object with
  | None => fail NullObject
  | Some o => λ n w,
      if negb (alive w o) then Dangling
      else if negb (ownThread w o) then Failed WrongThread
      else (_ ← enter depth;
            if bool_decide (o ∈ active) then fail ReferenceCycle
            else m ← captureMembers (captureValue ({[ o ]} ∪ active) (depth + 1)) o;
                 ret (Snapshot (className o) m)) n w
  end.
Definition nullPointer : variant := Value (u "std::nullptr_t") [].
Fixpoint captureValue (fuel : nat) (active : gset nat) (depth : Z) (value : variant) : M variant :=
  match fuel with
  | O => λ _ _, OutOfFuel
  | S fuel =>
      let pair (kv : QString * variant) := v ← captureValue fuel active (depth + 1) kv.2; ret (kv.1, v) in
      _ ← enter depth;
      match value with
      | ObjectPtr None => ret nullPointer
      | ObjectPtr o => captureObject (captureValue fuel) o active (depth + 1)
      | VMap l => l ← each pair l; ret (VMap (insertAll l))
      | VHash l => l ← each pair l; ret (VHash l)
      | VList l => l ← each (captureValue fuel active (depth + 1)) l; ret (VList l)
      | _ => ret value
      end
  end.
(** A value lies one level below its container, so a capture from depth 0 nests at
    most 17 values; below depth 16 the guard fails. *)
Definition captureFuel : nat := 17.
Definition capture (object : option nat) : M variant := captureObject (captureValue captureFuel) object ∅ 0.

(** No value inside is a pointer to an object. *)
Fixpoint pointerFree (v : variant) : bool :=
  match v with
  | ObjectPtr _ => false
  | VMap l | VHash l | Snapshot _ l => forallb (λ kv : QString * variant, pointerFree kv.2) l
  | VList l => forallb pointerFree l
  | _ => true
  end.

(** A snapshot that is already inside the value holds none either. *)
Fixpoint plain (v : variant) : bool :=
  match v with
  | VMap l | VHash l => forallb (λ kv : QString * variant, plain kv.2) l
  | VList l => forallb plain l
  | Snapshot _ l => forallb (λ kv : QString * variant, pointerFree kv.2) l
  | _ => true
  end.
Definition plainGetters : Prop :=
  (∀ o w w' l, invoke o w = (w', Returned l) → plain (VMap l) = true)
  ∧ (∀ o name w w' v, read o name w = (w', Returned v) → plain v = true).

(** A computation that ends, keeps the count within its limit, and ensures [Q]. *)
Definition ends {A} (Q : A → Prop) (m : M A) : Prop := ∀ n w, n ≤ maximumNodes →
  match m n w with
  | Done (a, n', _) => n ≤ n' ≤ maximumNodes ∧ Q a
  | OutOfFuel => False
  | _ => True
  end.
Lemma ends_ret {A} (Q : A → Prop) a : Q a → ends Q (ret a).
Proof. intros Ha n w Hn. cbn. done. Qed.
Lemma ends_bind {A B} (P : A → Prop) (Q : B → Prop) m (f : A → M B) :
  ends P m → (∀ a, P a → ends Q (f a)) → ends Q (bind m f).
Proof.
  intros Hm Hf n w Hn. unfold bind. specialize (Hm n w Hn). destruct (m n w) as [[[a n'] w']| | | |]; try done.
  destruct Hm as [Hle Ha]. specialize (Hf a Ha n' w' ltac:(lia)).
  destruct (f a n' w') as [[[b n''] w'']| | | |]; try done. split; [lia|apply Hf].
Qed.
Lemma ends_mono {A} (P Q : A → Prop) m : (∀ a, P a → Q a) → ends P m → ends Q m.
Proof. intros H Hm n w Hn. specialize (Hm n w Hn). destruct (m n w) as [[[a n'] w']| | | |]; try done. naive_solver. Qed.
Lemma ends_fail {A} (Q : A → Prop) e : ends Q (fail e).
Proof. by intros n w Hn. Qed.
Lemma ends_get {A} (Q : A → Prop) g e : (∀ w w' a, g w = (w', Returned a) → Q a) → ends Q (get g e).
Proof. intros H n w Hn. unfold get. destruct (g w) as [w' []] eqn:E; try done. split; [lia|by eapply H]. Qed.
Lemma ends_whileAlive o : ends (λ _, True) (whileAlive o).
Proof. intros n w Hn. unfold whileAlive. by destruct (alive w o). Qed.
(** Past the guard, the depth is within its limit. *)
Lemma ends_enter {A} (Q : A → Prop) depth m :
  (depth ≤ maximumDepth → ends Q m) → ends Q (bind (enter depth) (λ _, m)).
Proof.
  intros H n w Hn. unfold bind, enter. destruct (exceeds depth n) eqn:E; [done|].
  apply exceeds_false in E as [Hd Hle]. specialize (H Hd (n + 1) w Hle).
  destruct (m (n + 1) w) as [[[a n'] w']| | | |]; try done. split; [lia|apply H].
Qed.
Lemma ends_each {A B} (P : A → Prop) (Q : B → Prop) (f : A → M B) l :
  (∀ x, ends (λ y, P x → Q y) (f x)) → ends (λ ys, Forall P l → Forall Q ys) (each f l).
Proof.
  intros Hf. induction l as [|x l IH]; cbn [each]; [by apply ends_ret|].
  eapply ends_bind; [apply Hf|]. intros y Hy. eapply ends_bind; [exact IH|]. intros ys Hys.
  apply ends_ret. intros H. apply Forall_cons in H as [Hx Hl]. constructor; auto.
Qed.

Definition held (v : variant) : Prop := plainGetters → plain v = true.
Definition free (v : variant) : Prop := plainGetters → pointerFree v = true.
Definition freePairs (l : list (QString * variant)) : Prop := Forall (λ kv : QString * variant, free kv.2) l.
(** A test of every element, and a fact about each. *)
Lemma forallb_Forall {A} (f : A → bool) (l : list A) (G : Prop) :
  Forall (λ x, G → f x = true) l ↔ (G → forallb f l = true).
Proof.
  induction l as [|x l IH]; cbn; [split; [done|constructor]|]. rewrite Forall_cons, andb_true_iff, IH. tauto.
Qed.
Lemma pairs_free l : freePairs l → plainGetters → forallb (λ kv : QString * variant, pointerFree kv.2) l = true.
Proof. apply (forallb_Forall (λ kv : QString * variant, pointerFree kv.2)). Qed.
Lemma pairs_held l : (plainGetters → forallb (λ kv : QString * variant, plain kv.2) l = true) →
  Forall (λ kv : QString * variant, held kv.2) l.
Proof. apply (forallb_Forall (λ kv : QString * variant, plain kv.2)). Qed.
Lemma insertPair_free k v l : free v → freePairs l → freePairs (insertPair k v l).
Proof.
  intros Hv. induction 1 as [|[k' v'] l Hx Hl IH]; cbn; [by repeat constructor|].
  case_bool_decide; [by constructor|]. destruct (qlt k k'); constructor; try done. by constructor.
Qed.
Lemma insertAll_free l : freePairs l → freePairs (insertAll l).
Proof.
  unfold insertAll. assert (freePairs []) as H by constructor. revert H. generalize (@nil (QString * variant)).
  induction l as [|kv l IH]; intros m Hm Hl; cbn; [done|]. apply Forall_cons in Hl as [Hx Hl].
  apply IH; [|done]. by apply insertPair_free.
Qed.
Section members.
Variable value : variant → M variant.
Hypothesis value_ends : ∀ v, ends (λ x, held v → free x) (value v).
Lemma captureProperty_ends o m name : freePairs m → ends freePairs (captureProperty value o m name).
Proof.
  intros Hm. eapply (ends_bind held).
  { apply ends_get. intros w w' v Hv [_ H]. by eapply H. }
  intros v Hv. eapply ends_bind; [apply ends_whileAlive|]. intros _ _.
  assert (ends freePairs (bind (value v) (λ x, bind (whileAlive o) (λ _, ret (insertPair name x m))))) as Hk.
  { eapply ends_bind; [apply value_ends|]. intros x Hx. eapply ends_bind; [apply ends_whileAlive|]. intros _ _.
    apply ends_ret. apply insertPair_free; auto. }
  destruct v; try exact Hk. apply ends_fail.
Qed.
Lemma captureProperties_ends o l m : freePairs m → ends freePairs (captureProperties value o l m).
Proof.
  revert m. induction l as [|[name readable] l IH]; intros m Hm; cbn [captureProperties]; [by apply ends_ret|].
  eapply ends_bind; [|exact IH]. destruct readable; [by apply captureProperty_ends|by apply ends_ret].
Qed.
Lemma captureMembers_ends o : ends freePairs (captureMembers value o).
Proof.
  unfold captureMembers. destruct (contract o); [|apply captureProperties_ends; constructor].
  eapply (ends_bind (λ l, held (VMap l))).
  { apply ends_get. intros w w' v Hv [H _]. by eapply H. }
  intros l Hl. eapply ends_bind; [apply ends_whileAlive|]. intros _ _.
  eapply ends_bind; [apply value_ends|]. intros v Hv. eapply ends_bind; [apply ends_whileAlive|]. intros _ _.
  apply ends_ret. specialize (Hv Hl). destruct v; try constructor.
  by apply (forallb_Forall (λ kv : QString * variant, pointerFree kv.2)) in Hv.
Qed.
End members.
Lemma captureObject_ends value object active depth :
  (depth ≤ maximumDepth → ∀ active v, ends (λ x, held v → free x) (value active (depth + 1) v)) →
  ends free (captureObject value object active depth).
Proof.
  intros H. destruct object as [o|]; [|apply ends_fail]. intros n w Hn. unfold captureObject.
  destruct (alive w o); [|done]. destruct (ownThread w o); [|done]. cbn [negb]. revert n w Hn.
  apply ends_enter. intros Hd. case_bool_decide; [apply ends_fail|].
  eapply ends_bind; [apply captureMembers_ends; by apply H|]. intros m Hm. apply ends_ret.
  exact (pairs_free _ Hm).
Qed.
Lemma captureValue_ends fuel : ∀ active depth v,
  depth ≤ maximumDepth + 1 → maximumDepth + 1 - depth < Z.of_nat fuel →
  ends (λ x, held v → free x) (captureValue fuel active depth v).
Proof.
  induction fuel as [|fuel IH]; intros active depth v Hd Hf; cbn [captureValue]; [lia|].
  apply ends_enter. intros Hle.
  assert (∀ active v, ends (λ x, held v → free x) (captureValue fuel active (depth + 1) v)) as Hnext by (intros; apply IH; lia).
  assert (∀ l, ends (λ m, Forall (λ kv : QString * variant, held kv.2) l → freePairs m)
    (each (λ kv : QString * variant,
      bind (captureValue fuel active (depth + 1) kv.2) (λ x, ret (kv.1, x))) l)) as Hpairs.
  { intros l. apply ends_each. intros kv. eapply ends_bind; [apply Hnext|]. intros x Hx. by apply ends_ret. }
  destruct v as [|t b|t|t|[o|]|l|l|l|c l]; try by apply ends_ret.
  - eapply ends_mono; [|apply captureObject_ends]; [done|]. intros H1 act x. apply IH; lia.
  - eapply ends_bind; [apply Hpairs|]. intros m Hm. apply ends_ret. intros Hh.
    exact (pairs_free _ (insertAll_free _ (Hm (pairs_held _ Hh)))).
  - eapply ends_bind; [apply Hpairs|]. intros m Hm. apply ends_ret. intros Hh.
    exact (pairs_free _ (Hm (pairs_held _ Hh))).
  - eapply ends_bind; [apply ends_each, Hnext|]. intros m Hm. apply ends_ret. intros Hh.
    exact (proj1 (forallb_Forall pointerFree _ _) (Hm (proj2 (forallb_Forall plain _ _) Hh))).
Qed.
Lemma capture_ends object : ends free (capture object).
Proof. apply captureObject_ends. intros _ active v. apply captureValue_ends; unfold maximumDepth, captureFuel; lia. Qed.
End capture.

(** Reading an object graph into a snapshot always ends, whatever the getters do:
    on a graph with cycles, on one that grows while it is read, on objects that a getter
    destroys. The depth guard stops the recursion before the fuel of the model is used
    up; at most 4096 nodes are counted; and when the values that the getters return hold
    no ready-made snapshot with pointers, the result holds no pointer to an object. *)
Theorem capture_terminates {W} (alive ownThread : W → nat → bool) className contract invoke properties read object w :
  match capture alive ownThread className contract invoke properties read object 0 w with
  | Done (s, n, _) => n ≤ maximumNodes ∧ (plainGetters invoke read → pointerFree s = true)
  | OutOfFuel => False
  | Failed _ | GetterThrew | Dangling => True
  end.
Proof.
  pose proof (capture_ends alive ownThread className contract invoke properties read object 0 w ltac:(done)) as H.
  destruct (capture _ _ _ _ _ _ _ _ _ _) as [[[s n] w']| | | |]; try done. split; [lia|apply H].
Qed.

(** ** The stream *)
(** What a serialiser does with its device. *)
Inductive io := Write (bytes : list N) | Seek (position : Z).
(** [good]: the status of the stream that writes into the buffer. *)
Record BoundedBuffer := mkBuffer { data : list N; pos : Z; good : bool }.
Definition size (b : BoundedBuffer) : Z := Z.of_nat (List.length (data b)).
(** QBuffer::seek pads with zeros past the end. *)
Definition seek (position : Z) (b : BoundedBuffer) : BoundedBuffer :=
  if (position <=? maximumStreamBytes) && (0 <=? position)
  then mkBuffer (data b ++ replicate (Z.to_nat (position - size b)) 0%N) position (good b)
  else b.
(** QBuffer::writeData overwrites at the position and grows as needed. *)
Definition writeData (bytes : list N) (b : BoundedBuffer) : BoundedBuffer :=
  let length := Z.of_nat (List.length bytes) in
  if maximumStreamBytes - pos b <? length then mkBuffer (data b) (pos b) false
  else mkBuffer (take (Z.to_nat (pos b)) (data b) ++ bytes ++ drop (Z.to_nat (pos b + length)) (data b))
         (pos b + length) (good b).
(** A stream that failed writes nothing more. *)
Definition perform (b : BoundedBuffer) (op : io) : BoundedBuffer :=
  match op with
  | Write bytes => if good b then writeData bytes b else b
  | Seek position => seek position b
  end.
Definition emptyBuffer : BoundedBuffer := mkBuffer [] 0 true.
Definition written (ops : list io) : BoundedBuffer := foldl perform emptyBuffer ops.

Definition inBounds (b : BoundedBuffer) : Prop := 0 ≤ pos b ≤ size b ∧ size b ≤ maximumStreamBytes.
Lemma perform_inBounds b op : inBounds b → inBounds (perform b op).
Proof.
  unfold inBounds, size, maximumStreamBytes. intros [Hp Hs]. destruct op as [bytes|position]; cbn [perform].
  - destruct (good b); [|done]. unfold writeData. destruct (Z.ltb_spec (maximumStreamBytes - pos b) (Z.of_nat (List.length bytes)));
      cbn [data pos]; [done|]. unfold maximumStreamBytes in *. rewrite !length_app, length_take, length_drop. lia.
  - unfold seek. destruct ((position <=? maximumStreamBytes) && (0 <=? position)) eqn:E; [|done]. bool_hyps.
    cbn [data pos]. unfold maximumStreamBytes, size in *. rewrite length_app, length_replicate. lia.
Qed.
Lemma written_inBounds ops : inBounds (written ops).
Proof.
  unfold written. assert (inBounds emptyBuffer) as H by done. revert H. generalize emptyBuffer.
  induction ops as [|op ops IH]; intros b Hb; [done|]. by apply IH, perform_inBounds.
Qed.
Definition ioBytes (op : io) : Prop := match op with Write bytes => Forall (λ c, (c < 256)%N) bytes | Seek _ => True end.
Lemma perform_bytes b op : ioBytes op → Forall (λ c, (c < 256)%N) (data b) → Forall (λ c, (c < 256)%N) (data (perform b op)).
Proof.
  intros Ho Hb. destruct op as [bytes|position]; cbn [perform ioBytes] in *.
  - destruct (good b); [|done]. unfold writeData. destruct (_ <? _); cbn [data]; [done|].
    apply Forall_app. split; [by apply Forall_take|]. apply Forall_app. split; [done|by apply Forall_drop].
  - unfold seek. destruct (_ && _); [|done]. cbn [data]. apply Forall_app. split; [done|]. by apply Forall_replicate.
Qed.
Lemma written_bytes ops : Forall ioBytes ops → Forall (λ c, (c < 256)%N) (data (written ops)).
Proof.
  unfold written. assert (Forall (λ c, (c < 256)%N) (data emptyBuffer)) as H by constructor. revert H. generalize emptyBuffer.
  induction ops as [|op ops IH]; intros b Hb Ho; [done|]. apply Forall_cons in Ho as [Hop Ho].
  apply IH; [|done]. by apply perform_bytes.
Qed.

(** ** The envelope *)
(** QMetaType::name. *)
Definition typeName (v : variant) : QString :=
  match v with
  | Invalid => []
  | Value t _ | Opaque t | Pointer t => t
  | ObjectPtr _ => u "QObject*"
  | VMap _ => u "QVariantMap" | VHash _ => u "QVariantHash" | VList _ => u "QVariantList"
  | Snapshot _ _ => u "iiSocietyHelper::ObjectSnapshot"
  end.
(** A registered metatype; the serialiser of a value and the deserialiser of a type: the
    metatype system, with the operators that applications register. *)
Record metatype := mkType { pointerType : bool; defaultConstructible : bool; streamOperators : bool }.
Inductive saved := Saves (ops : list io) (fine : bool) | SaveThrows.
Inductive loaded := Loads (v : variant) (fine atEnd : bool) | LoadThrows.

Section envelope.
Context {PF : Platform}.
Variables (Qt_6_8 : Z) (save : variant → saved) (fromName : QString → option metatype) (load : QString → list N → loaded).

Definition jsonSize (payload : jobj) : Z := Z.of_nat (List.length (toJson payload)).
Definition encode (value : variant) : jobj + Error :=
  match value with
  | Invalid => inr InvalidValue
  | _ =>
      match checkValue value 0 0 with
      | inr e => inr e
      | inl _ =>
          let name := typeName value in
          if negb (validName name) then inr BadTypeName else
          match save value with
          | Saves ops fine =>
              let buffer := written ops in
              if negb fine || negb (good buffer) then inr SerializationFailed else
              let payload := obj [("format", JStr format); ("version", JNum 1); ("streamVersion", JNum Qt_6_8);
                                  ("typeName", JStr name); ("data", JStr (Base64.toBase64 (data buffer)))]%string in
              if maximumPayloadBytes <? jsonSize payload then inr EnvelopeTooLarge else inl payload
          | SaveThrows => inr SerializerThrew
          end
      end
  end.
(** The payload of a message holds JSON values. *)
Definition wellFormed (payload : jobj) : bool :=
  bool_decide (map_size payload = 5%nat) && bool_decide (payload.["format"] = JStr format)
  && isString payload.["typeName"] && isString payload.["data"]
  && (qsize (toStr payload.["data"]) <=? maximumPayloadBytes).
Definition supported (payload : jobj) : bool :=
  bool_decide (payload.["version"] = JNum 1) && bool_decide (payload.["streamVersion"] = JNum Qt_6_8)
  && (jsonSize payload <=? maximumPayloadBytes).
Definition usable (type : option metatype) : bool :=
  match type with
  | Some t => negb (pointerType t) && defaultConstructible t && streamOperators t
  | None => false
  end.
(** The bytes, when [encoded] is their canonical form. *)
Definition canonical (encoded : QString) : option (list N) :=
  let? decoded := Base64.fromBase64 encoded in
  if (maximumStreamBytes <? Z.of_nat (List.length decoded)) || bool_decide (Base64.toBase64 decoded ≠ encoded)
  then None else Some decoded.
Definition decode (payload : jobj) : variant + Error :=
  if negb (wellFormed payload) then inr BadEnvelope
  else if negb (supported payload) then inr UnsupportedEnvelope
  else
    let name := toStr payload.["typeName"] in
    if negb (validName name) then inr BadTypeName
    else if negb (usable (fromName name)) then inr Unregistered
    else match canonical (toStr payload.["data"]) with
         | None => inr BadBase64
         | Some decoded =>
             match load name decoded with
             | Loads value fine atEnd =>
                 if negb fine || negb atEnd then inr BadStream
                 else match checkValue value 0 0 with inl _ => inl value | inr e => inr e end
             | LoadThrows => inr DeserializerThrew
             end
         end.
Section objects.
Context {W : Type}.
Variables (alive ownThread : W → nat → bool) (className : nat → QString) (contract : nat → bool)
  (invoke : nat → W → W * getter (list (QString * variant)))
  (properties : nat → list (QString * bool)) (read : nat → QString → W → W * getter variant).
(** The message for an object: its snapshot, encoded. *)
Definition encodeObject (object : option nat) (w : W) : outcome (jobj * W) :=
  match capture alive ownThread className contract invoke properties read object 0 w with
  | Done (snapshot, _, w) =>
      match encode snapshot with
      | inl payload => Done (payload, w)
      | inr e => Failed e
      end
  | Failed e => Failed e | GetterThrew => GetterThrew | Dangling => Dangling | OutOfFuel => OutOfFuel
  end.
End objects.
End envelope.

(** *** An envelope is read back *)
Lemma obj_size_go (l : list (string * jval)) (o : jobj) :
  NoDup l.*1 → Forall (λ kv : string * jval, kv.2 ≠ JUndef ∧ o !! u kv.1 = None) l →
  map_size (foldl (λ o kv, jinsert o kv.1 kv.2) o l) = (map_size o + List.length l)%nat.
Proof.
  revert o. induction l as [|[k v] l IH]; intros o Hnd Ho; cbn [foldl List.length]; [lia|].
  apply NoDup_cons in Hnd as [Hk Hnd]. apply Forall_cons in Ho as [[Hv Hnone] Ho].
  assert (jinsert o k v = <[u k := v]> o) as Hi by (unfold jinsert, jset; by destruct v).
  cbn [fst snd] in *. rewrite Hi, IH; [|done|].
  - change (map_size ?m) with (base.size m). rewrite map_size_insert_None by done. lia.
  - rewrite Forall_forall in *. intros [k' v'] Hin. specialize (Ho _ Hin) as [Hv' Hn]. split; [done|]. cbn in *.
    rewrite lookup_insert_ne; [done|]. intros E. apply u_inj in E as ->. apply Hk. by apply (list_elem_of_fmap_2 fst l (k', v')).
Qed.
Lemma toBase64_size b : Z.of_nat (List.length (Base64.toBase64 b)) = (Z.of_nat (List.length b) + 2) / 3 * 4.
Proof.
  remember (List.length b) as k eqn:Hk. revert b Hk. induction k as [k IH] using lt_wf_ind. intros b ->.
  destruct b as [|x [|y [|z r]]]; try done. cbn [Base64.toBase64 List.length].
  specialize (IH (List.length r) ltac:(cbn; lia) r eq_refl). rewrite !Nat2Z.inj_succ, IH.
  set (m := Z.of_nat (List.length r)). replace (Z.succ (Z.succ (Z.succ m)) + 2) with (m + 2 + 1 * 3) by lia.
  rewrite Z.div_add by done. lia.
Qed.
(** A serialiser that goes back to fill in the first byte. *)
Definition demoSave (v : variant) : saved :=
  match v with Value _ (c :: b) => Saves [Seek 1; Write b; Seek 0; Write [c]] true | _ => SaveThrows end.
Definition demoLoad (t : QString) (b : list N) : loaded := Loads (Value t b) true true.
Definition demoType (t : QString) : option metatype := Some (mkType false true true).
Definition demoValue : variant := Value (u "app::Colour") [7; 200; 13; 255]%N.
Definition demoEnvelope : jobj :=
  obj [("format", JStr format); ("version", JNum 1); ("streamVersion", JNum 22);
       ("typeName", JStr (u "app::Colour")); ("data", JStr (u "B8gN/w=="))]%string.

Section roundtrip.
Context {PF : Platform}.
Variables (Qt_6_8 : Z) (save : variant → saved) (fromName : QString → option metatype) (load : QString → list N → loaded).
Notation encode := (encode Qt_6_8 save).
Notation decode := (decode Qt_6_8 fromName load).

(** What a successful encoding has established. *)
Lemma encode_inv v p : encode v = inl p → ∃ n ops,
  v ≠ Invalid ∧ checkValue v 0 0 = inl n ∧ validName (typeName v) = true
  ∧ save v = Saves ops true ∧ good (written ops) = true ∧ jsonSize p ≤ maximumPayloadBytes
  ∧ p = obj [("format", JStr format); ("version", JNum 1); ("streamVersion", JNum Qt_6_8);
             ("typeName", JStr (typeName v)); ("data", JStr (Base64.toBase64 (data (written ops))))]%string.
Proof.
  intros H. assert (v ≠ Invalid) as Hv by (intros ->; done).
  assert (match checkValue v 0 0 with
      | inr e => inr e
      | inl _ =>
          let name := typeName v in
          if negb (validName name) then inr BadTypeName else
          match save v with
          | Saves ops fine =>
              let buffer := written ops in
              if negb fine || negb (good buffer) then inr SerializationFailed else
              let payload := obj [("format", JStr format); ("version", JNum 1); ("streamVersion", JNum Qt_6_8);
                                  ("typeName", JStr name); ("data", JStr (Base64.toBase64 (data buffer)))]%string in
              if maximumPayloadBytes <? jsonSize payload then inr EnvelopeTooLarge else inl payload
          | SaveThrows => inr SerializerThrew
          end
      end = inl p) as H' by (destruct v; done).
  clear H. destruct (checkValue v 0 0) as [n|e] eqn:En; [|done]. cbv zeta in H'.
  destruct (validName (typeName v)) eqn:Ev; [|done]. cbn [negb] in H'.
  destruct (save v) as [ops fine|] eqn:Es; [|done]. destruct fine; [|done].
  destruct (good (written ops)) eqn:Eg; [|done]. cbn [negb orb] in H'.
  destruct (Z.ltb_spec maximumPayloadBytes (jsonSize (obj
    [("format", JStr format); ("version", JNum 1); ("streamVersion", JNum Qt_6_8);
     ("typeName", JStr (typeName v)); ("data", JStr (Base64.toBase64 (data (written ops))))]%string))); [done|].
  assert (∀ a b : jobj, @inl jobj Error a = inl b → b = a) as Hinl by (intros a b E; by injection E).
  apply Hinl in H' as ->. by exists n, ops.
Qed.
Lemma canonical_toBase64 b : Forall (λ c, (c < 256)%N) b → Z.of_nat (List.length b) ≤ maximumStreamBytes →
  canonical (Base64.toBase64 b) = Some b.
Proof.
  intros Hb Hs. unfold canonical. rewrite Base64.fromBase64_toBase64 by done.
  rewrite bool_decide_eq_false_2 by auto. by destruct (Z.ltb_spec maximumStreamBytes (Z.of_nat (List.length b))); [lia|].
Qed.

(** C22: A message that was encoded is decoded to the value it was made of, on any
    receiver that has registered the type and whose stream operators read back what
    they write. Such a message also keeps the limits: its JSON text takes at most 64
    KiB, its stream at most 48 KiB, whatever the serialiser writes or seeks. *)
Theorem codec_roundtrip v p :
  encode v = inl p →
  (∀ ops, save v = Saves ops true → Forall ioBytes ops ∧ load (typeName v) (data (written ops)) = Loads v true true) →
  usable (fromName (typeName v)) = true →
  decode p = inl v ∧ jsonSize p ≤ 64 * 1024
  ∧ ∃ b, canonical (toStr p.["data"]) = Some b ∧ Z.of_nat (List.length b) ≤ 48 * 1024.
Proof.
  intros He Hload Huse. apply encode_inv in He as (n & ops & Hv & Hc & Hn & Hs & Hg & Hj & Hp).
  destruct (Hload ops Hs) as [Hb Hl]. pose proof (written_inBounds ops) as [_ Hin]. unfold size in Hin.
  pose proof (written_bytes ops Hb) as Hb'. pose proof (canonical_toBase64 _ Hb' Hin) as Hcan.
  pose proof (toBase64_size (data (written ops))) as Hq.
  assert (p.["format"] = JStr format ∧ p.["version"] = JNum 1 ∧ p.["streamVersion"] = JNum Qt_6_8
    ∧ p.["typeName"] = JStr (typeName v) ∧ p.["data"] = JStr (Base64.toBase64 (data (written ops)))) as (F1 & F2 & F3 & F4 & F5).
  { rewrite Hp, !jvalue_obj. done. }
  assert (map_size p = 5%nat) as F6.
  { rewrite Hp. unfold obj. rewrite obj_size_go; [done|by_compute|]. repeat constructor; done. }
  split_and!; [|done|rewrite F5; by exists (data (written ops))].
  unfold decode. assert (wellFormed p = true) as ->.
  { unfold wellFormed. rewrite F1, F4, F5, F6. rewrite !bool_decide_eq_true_2 by done. cbn [isString toStr andb].
    apply Z.leb_le. unfold qsize. rewrite Hq. unfold maximumPayloadBytes, maximumStreamBytes in *.
    assert ((Z.of_nat (List.length (data (written ops))) + 2) / 3 < 16385); [|lia].
    apply Z.div_lt_upper_bound; lia. }
  assert (supported Qt_6_8 p = true) as ->.
  { unfold supported. rewrite F2, F3. rewrite !bool_decide_eq_true_2 by done. by apply Z.leb_le. }
  rewrite F4, F5. cbn [toStr negb]. rewrite Hn, Huse, Hcan, Hl, Hc. done.
Qed.
End roundtrip.
Lemma codec_roundtrip_witness :
  encode 22 demoSave demoValue = inl demoEnvelope ∧ decode 22 demoType demoLoad demoEnvelope = inl demoValue.
Proof.
  assert (encode 22 demoSave demoValue = inl demoEnvelope) as H by (vm_compute; reflexivity). split; [exact H|].
  refine (proj1 (codec_roundtrip 22 demoSave demoType demoLoad demoValue demoEnvelope H _ _)).
  - intros ops [= <-]. split; [repeat constructor|by vm_compute].
  - done.
Defined.
End Codec.
