(* ===== verification/Credentials.v ===== *)
(** The account's pairing credentials, src/Storage/PairingCredentials.cpp: bounded daily
    seeds, the five-minute keys derived from them, and the signatures of discovery. *)
From S2P Require Import Prelude Qt Records Demo.
Open Scope Z_scope.

Module Credentials.
Import Records.

(** QByteArray::fromHex of a text of hexadecimal digits, and the Latin-1 form of a text. *)
Definition hexValue (c : N) : N := if (c <? 97)%N then (c - 48)%N else (c - 87)%N.
Fixpoint fromHex (s : QString) : list N :=
  match s with
  | a :: b :: r => (hexValue a * 16 + hexValue b)%N :: fromHex r
  | _ => []
  end.
Definition toLatin1 (s : QString) : list N := map (λ c, if (c <? 256)%N then c else 63%N) s.

Definition hexKey (value : QString) : bool := hex value.

Section library.
(** QDateTime: the instant of an ISO text in milliseconds, and calendar days added to
    one; [hmac key message] is the HMAC-SHA256 of Qt. *)
Variables (fromISO : QString → option Z) (addDays : Z → Z → Z) (hmac : list N → list N → list N).

Definition addSecs (t s : Z) : Z := t + s * 1000.
(** C++ division truncates. *)
Definition toSecsSinceEpoch (t : Z) : Z := Z.quot t 1000.
Definition jsize (o : jobj) : Z := Z.of_nat (base.size o).
Definition at_ (o : jobj) (n : Z) : QString := toStr (default JUndef (o !! numberStr n)).

Definition version (proof : jobj) : Z := toIntOr 1 proof.["version"].
Definition validKeys (proof : jobj) (now expiry : Z) : bool :=
  let keys := toObj proof.["keys"] in
  negb (addSecs now 600 <? expiry)
  && (2 <=? jsize keys) && (jsize keys <=? 3)
  && hexKey (at_ keys (Z.quot (toSecsSinceEpoch now) 300)).
Fixpoint seedsFrom (seeds : jobj) (day : Z) (n : nat) : bool :=
  match n with
  | O => true
  | S n => hexKey (at_ seeds day) && seedsFrom seeds (day + 1) n
  end.
Definition firstDay (issued : Z) : Z := Z.quot (toSecsSinceEpoch issued) 86400.
Definition validSeeds (proof : jobj) (now expiry : Z) : bool :=
  match fromISO (toStr proof.["issuedAt"]), fromISO (toStr proof.["refreshAt"]) with
  | Some issued, Some refresh =>
      if (addSecs now 300 <? issued) || (refresh <? issued) || (expiry <? refresh) || (addDays issued 7 <? expiry)
      then false
      else
        let seeds := toObj proof.["seeds"] in
        if jempty seeds || (7 <? jsize seeds) || ((firstDay issued + jsize seeds) * 86400 <? toSecsSinceEpoch expiry)
        then false
        else seedsFrom seeds (firstDay issued) (base.size seeds)
  | _, _ => false
  end.
Definition valid (proof : jobj) (now : Z) : bool :=
  match fromISO (toStr proof.["expiresAt"]) with
  | Some expiry =>
      if negb (hexKey (toStr proof.["scope"])) || (expiry <=? now) then false
      else if version proof =? 1 then validKeys proof now expiry
      else if negb (toInt proof.["version"] =? 2) then false
      else validSeeds proof now expiry
  | None => false
  end.

Definition keyContext (proof : jobj) (epoch : Z) : list N :=
  u "society-auto-pair-key-v2" ++ [10%N] ++ toUtf8 (toStr proof.["scope"]) ++ [10%N] ++ numberStr epoch.
Definition key (proof : jobj) (epoch now : Z) : list N :=
  if negb (valid proof now) || (epoch <? 0) then []
  else if version proof =? 1 then
    let value := at_ (toObj proof.["keys"]) epoch in
    if hexKey value then fromHex (toLatin1 value) else []
  else
    let seed := at_ (toObj proof.["seeds"]) (Z.quot epoch 288) in
    if negb (hexKey seed) then [] else hmac (fromHex (toLatin1 seed)) (keyContext proof epoch).

Definition mac (secret context : list N) : QString :=
  toHex (hmac secret (u "society-lan-account-v1" ++ [10%N] ++ context)).
(** [secs] and [now] are two readings of the clock, in seconds and as a date. *)
Definition sign (credentials : jobj) (context : list N) (secs now : Z) : jobj :=
  let epoch := Z.quot secs 300 in
  let secret := key credentials epoch now in
  match secret with
  | [] => ∅
  | _ => obj [("scope", credentials.["scope"]); ("epoch", JStr (numberStr epoch)); ("mac", JStr (mac secret context))]%string
  end.
(** Compare all characters, whatever they are. *)
Definition difference (expected actual : list N) : N :=
  foldl (λ d p, N.lor d (N.lxor p.1 p.2)) 0%N (combine expected actual).
Definition verify (credentials : jobj) (context : list N) (proof : jobj) (secs now : Z) : bool :=
  let current := Z.quot secs 300 in
  match toLongLong (toStr proof.["epoch"]) with
  | Some epoch =>
      if (epoch <? current - 1) || (current + 1 <? epoch) || bool_decide (proof.["scope"] ≠ credentials.["scope"])
      then false
      else
        let secret := key credentials epoch now in
        match secret with
        | [] => false
        | _ => if negb (hexKey (toStr proof.["mac"])) then false
               else (difference (mac secret context) (toLatin1 (toStr proof.["mac"])) =? 0)%N
        end
  | None => false
  end.

(** ** Lemmas *)
Lemma foldl_lor_zero (l : list (N * N)) d :
  foldl (λ d p, N.lor d (N.lxor p.1 p.2)) d l = 0%N ↔ d = 0%N ∧ Forall (λ p, p.1 = p.2) l.
Proof.
  revert d. induction l as [|[a b] l IH]; intros d; cbn; [by rewrite Forall_nil; tauto|].
  rewrite IH, N.lor_eq_0_iff, N.lxor_eq_0_iff, Forall_cons. cbn. tauto.
Qed.
(** The comparison in constant time decides equality. *)
Lemma difference_spec a b : List.length a = List.length b → difference a b = 0%N ↔ a = b.
Proof.
  intros Hl. unfold difference. rewrite foldl_lor_zero. revert b Hl.
  induction a as [|x a IH]; intros [|y b] Hl; try done; cbn.
  cbn in Hl. injection Hl as Hl. specialize (IH b Hl). rewrite Forall_cons. cbn.
  split; [intros (_ & -> & H); f_equal; by apply IH|intros [= -> ->]; split_and!; try done; by apply IH].
Qed.
Lemma hex_chars s : hexKey s = true → Forall (λ c, hexChar c = true) s ∧ List.length s = 64%nat.
Proof.
  unfold hexKey, hex, qsize. intros H. bool_hyps. split; [|lia]. apply Forall_forall. intros c Hc.
  eapply forallb_forall in H0; [exact H0|]. by apply list_elem_of_In.
Qed.
Lemma hex_latin1 s : hexKey s = true → toLatin1 s = s.
Proof.
  intros H. apply hex_chars in H as [H _]. unfold toLatin1. induction H as [|c s Hc Hs IH]; [done|]. cbn [map].
  rewrite IH. apply hexChar_ascii in Hc. by destruct (N.ltb_spec c 256); [|lia].
Qed.
Lemma fromHex_nonempty s : hexKey s = true → fromHex (toLatin1 s) ≠ [].
Proof. intros H. rewrite hex_latin1 by done. apply hex_chars in H as [_ H]. by destruct s as [|a [|b s]]. Qed.
Lemma seedsFrom_spec seeds day n : seedsFrom seeds day n = true ↔ ∀ i, 0 ≤ i < Z.of_nat n → hexKey (at_ seeds (day + i)) = true.
Proof.
  revert day. induction n as [|n IH]; intros day; cbn [seedsFrom]; [split; [lia|done]|].
  rewrite andb_true_iff, IH. split.
  - intros [H0 Hn] i Hi. destruct (decide (i = 0)) as [->|]; [by rewrite Z.add_0_r|].
    specialize (Hn (i - 1) ltac:(lia)). by replace (day + i) with (day + 1 + (i - 1)) by lia.
  - intros H. split; [specialize (H 0 ltac:(lia)); by rewrite Z.add_0_r in H|].
    intros i Hi. specialize (H (i + 1) ltac:(lia)). by replace (day + 1 + i) with (day + (i + 1)) by lia.
Qed.

Lemma hexValue_digit n : (n < 16)%N → hexValue (hexDigit n) = n.
Proof.
  intros Hn. unfold hexDigit, hexValue. destruct (N.ltb_spec n 10).
  - destruct (N.ltb_spec (48 + n) 97); lia.
  - destruct (N.ltb_spec (87 + n) 97); lia.
Qed.
Lemma fromHex_toHex b : Forall (λ c, (c < 256)%N) b → fromHex (toHex b) = b.
Proof.
  induction 1 as [|c b Hc _ IH]; [done|].
  change (toHex (c :: b)) with (hexDigit (c / 16) :: hexDigit (c mod 16) :: toHex b)%N. cbn [fromHex].
  rewrite IH, !hexValue_digit; [|apply N.mod_lt; lia|apply N.Div0.div_lt_upper_bound; lia].
  f_equal. pose proof (N.Div0.div_mod c 16). lia.
Qed.

(** What makes credentials of version 2 valid at [now]. *)
Record seeded (proof : jobj) (now issued expiry : Z) : Prop := {
  seeded_scope : hexKey (toStr proof.["scope"]) = true;
  seeded_current : now < expiry;
  seeded_started : issued ≤ now + 300000;
  seeded_span : toSecsSinceEpoch expiry ≤ (firstDay issued + jsize (toObj proof.["seeds"])) * 86400;
  seeded_days : jsize (toObj proof.["seeds"]) ≤ 7;
  seeded_seeds : ∀ i, 0 ≤ i < jsize (toObj proof.["seeds"]) →
    hexKey (at_ (toObj proof.["seeds"]) (firstDay issued + i)) = true
}.
Lemma valid_seeded proof now issued expiry :
  valid proof now = true → toInt proof.["version"] = 2 →
  fromISO (toStr proof.["expiresAt"]) = Some expiry → fromISO (toStr proof.["issuedAt"]) = Some issued →
  seeded proof now issued expiry.
Proof.
  unfold valid, version. intros Hv H2 He Hi. rewrite He in Hv.
  destruct (negb (hexKey (toStr proof.["scope"])) || (expiry <=? now)) eqn:E1; [done|].
  assert (toIntOr 1 proof.["version"] = 2) as H1.
  { revert H2. unfold toInt, toIntOr. destruct (proof.["version"]); try done. by destruct (_ && _). }
  rewrite H1 in Hv. change (2 =? 1) with false in Hv. cbv iota in Hv. rewrite H2 in Hv.
  change (2 =? 2) with true in Hv. cbn [negb] in Hv. unfold validSeeds in Hv. rewrite Hi in Hv.
  destruct (fromISO (toStr proof.["refreshAt"])) as [refresh|]; [|done].
  destruct ((addSecs now 300 <? issued) || (refresh <? issued) || (expiry <? refresh) || (addDays issued 7 <? expiry)) eqn:E2; [done|].
  cbv zeta in Hv. destruct (jempty (toObj proof.["seeds"]) || (7 <? jsize (toObj proof.["seeds"]))
    || ((firstDay issued + jsize (toObj proof.["seeds"])) * 86400 <? toSecsSinceEpoch expiry)) eqn:E3; [done|].
  apply seedsFrom_spec in Hv || (pose proof (proj1 (seedsFrom_spec _ _ _) Hv) as Hs).
  bool_hyps. unfold addSecs in *. split; try done; lia.
Qed.

(** The documented form of an HMAC-SHA256. *)
Hypothesis hmac_digest : ∀ k m, List.length (hmac k m) = 32%nat ∧ Forall (λ c, (c < 256)%N) (hmac k m).

Section lifetime.
Variables (proof : jobj) (issued expiry : Z).
Hypotheses (version2 : toInt proof.["version"] = 2)
  (expires : fromISO (toStr proof.["expiresAt"]) = Some expiry) (begins : fromISO (toStr proof.["issuedAt"]) = Some issued)
  (issued_nonneg : 0 ≤ issued).

Lemma key_covers now secs :
  valid proof now = true → toSecsSinceEpoch issued ≤ secs < toSecsSinceEpoch expiry →
  key proof (Z.quot secs 300) now =
    hmac (fromHex (toLatin1 (at_ (toObj proof.["seeds"]) (Z.quot secs 86400)))) (keyContext proof (Z.quot secs 300)).
Proof.
  intros Hv Hs. destruct (valid_seeded _ _ _ _ Hv version2 expires begins) as [_ _ _ Hspan _ Hseeds].
  assert (0 ≤ toSecsSinceEpoch issued) as H0 by (apply Z.quot_pos; lia).
  unfold firstDay in *. set (days := jsize _) in *. revert Hs H0 Hspan Hseeds.
  generalize (toSecsSinceEpoch issued) (toSecsSinceEpoch expiry). intros a b Hs H0 Hspan Hseeds.
  assert (Z.quot a 86400 ≤ Z.quot secs 86400 < Z.quot a 86400 + days) as Hday.
  { rewrite !Z.quot_div_nonneg by lia. rewrite Z.quot_div_nonneg in Hspan by lia.
    split; [apply Z.div_le_mono; lia|apply Z.div_lt_upper_bound; lia]. }
  assert (hexKey (at_ (toObj proof.["seeds"]) (Z.quot secs 86400)) = true) as Hk.
  { specialize (Hseeds (Z.quot secs 86400 - Z.quot a 86400) ltac:(lia)).
    by rewrite Zplus_minus in Hseeds. }
  unfold key. rewrite Hv. cbn [negb orb].
  assert (0 ≤ Z.quot secs 300) by (apply Z.quot_pos; lia). destruct (Z.ltb_spec (Z.quot secs 300) 0); [lia|].
  assert (version proof =? 1 = false) as ->.
  { apply Z.eqb_neq. unfold version. revert version2. unfold toInt, toIntOr. destruct (proof.["version"]); try done.
    destruct (_ && _); lia. }
  rewrite Z.quot_quot by lia. change (300 * 288) with 86400. by rewrite Hk.
Qed.
Lemma mac_hex secret context : hexKey (mac secret context) = true.
Proof.
  unfold mac. set (h := hmac _ _). destruct (hmac_digest secret (u "society-lan-account-v1" ++ [10%N] ++ context)) as [Hl Hb].
  fold h in Hl, Hb. destruct (toHex_hex h Hb) as [Hn Hc]. unfold hexKey, hex, qsize. rewrite Hn, Hl. cbn [andb].
  apply forallb_forall. intros c Hin%list_elem_of_In. by eapply Forall_forall in Hc.
Qed.

Lemma digest_nonempty k m : hmac k m ≠ [].
Proof. destruct (hmac_digest k m) as [H _]. by destruct (hmac k m). Qed.
Lemma mac_inj secret a b :
  mac secret a = mac secret b ↔
  hmac secret (u "society-lan-account-v1" ++ [10%N] ++ a) = hmac secret (u "society-lan-account-v1" ++ [10%N] ++ b).
Proof.
  unfold mac. split; [|by intros ->]. intros H.
  rewrite <- (fromHex_toHex (hmac secret (u "society-lan-account-v1" ++ [10%N] ++ a))) by apply hmac_digest.
  rewrite H. apply fromHex_toHex, hmac_digest.
Qed.
(** C34: Valid daily credentials serve their whole lifetime: at every second from their
    issue to their expiry a device can sign, and any device with the same credentials
    accepts the signature while its clock is in the same five minutes, the ones before or
    the ones after, across the change of the daily seed too. A signature is accepted for
    another context exactly when that has the same HMAC under the key of the epoch. *)
Theorem signature_accepted context context' secs now secs' now' :
  valid proof now = true → valid proof now' = true →
  toSecsSinceEpoch issued ≤ secs < toSecsSinceEpoch expiry → secs ≤ int64_max →
  Z.abs (Z.quot secs' 300 - Z.quot secs 300) ≤ 1 →
  let signature := sign proof context secs now in
  let secret := key proof (Z.quot secs 300) now in
  signature ≠ ∅ ∧ verify proof context signature secs' now' = true
  ∧ (verify proof context' signature secs' now' = true
     ↔ hmac secret (u "society-lan-account-v1" ++ [10%N] ++ context') = hmac secret (u "society-lan-account-v1" ++ [10%N] ++ context)).
Proof.
  intros Hv Hv' Hs Hmax Habs signature secret.
  assert (key proof (Z.quot secs 300) now' = secret) as Hk'.
  { unfold secret. by rewrite (key_covers now' secs Hv' Hs), (key_covers now secs Hv Hs). }
  assert (secret ≠ []) as Hne.
  { unfold secret. rewrite (key_covers now secs Hv Hs). apply digest_nonempty. }
  assert (0 ≤ Z.quot secs 300 ≤ secs) as Hq.
  { assert (0 ≤ toSecsSinceEpoch issued) by (apply Z.quot_pos; lia). rewrite Z.quot_div_nonneg by lia.
    split; [apply Z.div_pos; lia|apply Z.div_le_upper_bound; lia]. }
  assert (signature = obj [("scope", proof.["scope"]); ("epoch", JStr (numberStr (Z.quot secs 300)));
    ("mac", JStr (mac secret context))]%string) as Hp.
  { unfold signature, sign. fold secret. by destruct secret. }
  assert (signature.["scope"] = proof.["scope"] ∧ toStr signature.["epoch"] = numberStr (Z.quot secs 300)
    ∧ toStr signature.["mac"] = mac secret context) as (F1 & F2 & F3) by (rewrite Hp, !jvalue_obj; done).
  assert (∀ c, verify proof c signature secs' now' = true ↔ mac secret c = mac secret context) as Hverify.
  { intros c. unfold verify. rewrite F1, F2, F3, toLongLong_numberStr by (unfold int64_min; lia).
    destruct ((Z.quot secs 300 <? Z.quot secs' 300 - 1) || (Z.quot secs' 300 + 1 <? Z.quot secs 300)
      || bool_decide (proof.["scope"] ≠ proof.["scope"])) eqn:E.
    { exfalso. apply orb_true_iff in E as [E|E]; [apply orb_true_iff in E as [E|E]; apply Z.ltb_lt in E; lia|].
      by apply bool_decide_eq_true in E. }
    rewrite Hk'. cbv zeta. rewrite mac_hex. cbn [negb]. rewrite hex_latin1 by apply mac_hex.
    destruct secret as [|x r] eqn:Es; [done|]. rewrite <- Es. rewrite N.eqb_eq. apply difference_spec.
    assert (∀ x, List.length (mac secret x) = 64%nat) as Hl by (intros y; apply (hex_chars _ (mac_hex secret y))).
    by rewrite !Hl. }
  split_and!; [|by apply Hverify|by rewrite Hverify, mac_inj].
  rewrite Hp. intros H. apply (f_equal (λ o, toStr (jvalue o "mac"))) in H. rewrite jvalue_obj in H. cbn in H.
  pose proof (hex_chars _ (mac_hex secret context)) as [_ Hl]. by rewrite H in Hl.
Qed.
End lifetime.
End library.

(** Credentials of two days; the signature is made in the last five minutes of the first
    day and checked in the first of the second. *)
Definition demoSeed (c : N) : QString := replicate 64 c.
Definition demoProof : jobj :=
  obj [("version", JNum 2); ("scope", JStr (demoSeed 97)); ("issuedAt", JStr (u "1728000000000"));
       ("refreshAt", JStr (u "1728086400000")); ("expiresAt", JStr (u "1728172800000"));
       ("seeds", JObj (obj [("20000", JStr (demoSeed 98)); ("20001", JStr (demoSeed 99))]%string))]%string.
Definition demoDays (t n : Z) : Z := t + n * 86400000.
Definition demoHmac (k m : list N) : list N := Demo.sha256 (k ++ m).
Lemma signature_accepted_witness :
  verify toLongLong demoDays demoHmac demoProof (u "peer")
    (sign toLongLong demoDays demoHmac demoProof (u "peer") 1728086399 1728086399500) 1728086400 1728086400100 = true.
Proof.
  refine (proj1 (proj2 (signature_accepted toLongLong demoDays demoHmac _ demoProof 1728000000000 1728172800000
    _ _ _ _ (u "peer") (u "peer") 1728086399 1728086399500 1728086400 1728086400100 _ _ _ _ _))).
  - intros k m. split; [done|apply (sha256_bytes (PlatformLaws := Demo.platform_laws))].
  - by vm_compute.
  - by vm_compute.
  - by vm_compute.
  - lia.
  - by vm_compute.
  - by vm_compute.
  - by vm_compute.
  - by vm_compute.
  - by vm_compute.
Defined.
End Credentials.
