(* ===== verification/GroupState.v ===== *)
(** The encrypted records of a container's group, src/Storage/GroupSessionStore.cpp and
    src/Storage/StateCrypto.cpp: several stores, in several processes, on the same files. *)
From S2P Require Import Prelude Qt Records Demo.
Open Scope Z_scope.

Module GroupState.
Import Records.

Abbreviation bytes := (list N).
Definition len (b : bytes) : Z := Z.of_nat (List.length b).
Definition MaximumSocietyStateBytes : Z := 256 * 1024.
Definition tombstone : bytes := u "SGS0".
Definition version : bytes := u "SGS1".
Definition masterKey : QString := u "group-state-aes256-v1".
(** [QByteArray(16, '\0')]: the generation of a record that was never revoked. *)
Definition never : bytes := replicate 16 0%N.
(** QByteArray::mid. *)
Definition mid (b : bytes) (pos n : Z) : bytes := take (Z.to_nat n) (drop (Z.to_nat pos) b).

(** SessionStore's results; [Backend] is any other error of a platform's store. *)
Inductive Error := NoError | Missing | Unavailable | Backend (n : Z).
#[global] Instance Error_eq_dec : EqDecision Error.
Proof. solve_decision. Defined.
Record Result := mkResult { error : Error; value : bytes }.

Inductive Operation := Read | Write | Remove.
(** [completion] identifies the caller's continuation. *)
Record Request := mkRequest {
  operation : Operation; key : QString; data : bytes; completion : nat;
  revision : Z; generation : bytes; lockDeadline : Z
}.
Definition set_data (d : bytes) (r : Request) : Request :=
  mkRequest (operation r) (key r) d (completion r) (revision r) (generation r) (lockDeadline r).
Definition set_generation (g : bytes) (r : Request) : Request :=
  mkRequest (operation r) (key r) (data r) (completion r) (revision r) g (lockDeadline r).
Definition set_lockDeadline (t : Z) (r : Request) : Request :=
  mkRequest (operation r) (key r) (data r) (completion r) (revision r) (generation r) t.

(** What is at a path: a symbolic link or junction, something else that is no regular
    file, or a regular file. *)
Inductive node := Absent | Redirected | NotFile | File (b : bytes).
Abbreviation disk := (gmap QString node).
Definition at_path (w : disk) (p : QString) : node := default Absent (w !! p).

(** What runs once the key is there. *)
Inductive continuation := Store (migrating : bool) | Open (record : bytes).
(** What the store waits for: its timer, a platform's store to answer, or, between two
    system calls, to go on itself. *)
Inductive wait :=
| Timer
| LegacyRemove (r : Request)
| LegacyRead (r : Request)
| KeyRead (r : Request) (create : bool) (k : continuation)
| KeyWrite (r : Request) (aes : bytes) (k : continuation)
| Saving (r : Request) (record : bytes) (migrating : bool)
| LegacyForget (r : Request).

Record GroupSessionStore := mkStore {
  directory : QString; managedRoot : QString; previousDirectory : QString; errorString : QString;
  keys : bool; legacy : bool; lock : bool;
  revisions : gmap QString Z; observed : gmap QString bytes; pending : list Request;
  followsSelection : bool;
  (** [m_running] and the outstanding call. *)
  running : bool; waiting : option wait;
  (** A [remove] between its two writes. *)
  removing : option Request
}.
Definition set_error (e : string) (s : GroupSessionStore) : GroupSessionStore :=
  mkStore (directory s) (managedRoot s) (previousDirectory s) (u e) (keys s) (legacy s) (lock s) (revisions s)
    (observed s) (pending s) (followsSelection s) (running s) (waiting s) (removing s).
Definition set_location (d r : QString) (o : gmap QString bytes) (s : GroupSessionStore) : GroupSessionStore :=
  mkStore d r (previousDirectory s) (errorString s) (keys s) (legacy s) (lock s) (revisions s)
    o (pending s) (followsSelection s) (running s) (waiting s) (removing s).
Definition set_lock (l : bool) (s : GroupSessionStore) : GroupSessionStore :=
  mkStore (directory s) (managedRoot s) (previousDirectory s) (errorString s) (keys s) (legacy s) l (revisions s)
    (observed s) (pending s) (followsSelection s) (running s) (waiting s) (removing s).
Definition set_revision (k : QString) (n : Z) (s : GroupSessionStore) : GroupSessionStore :=
  mkStore (directory s) (managedRoot s) (previousDirectory s) (errorString s) (keys s) (legacy s) (lock s)
    (<[k := n]> (revisions s)) (observed s) (pending s) (followsSelection s) (running s) (waiting s) (removing s).
Definition set_observed (k : QString) (g : bytes) (s : GroupSessionStore) : GroupSessionStore :=
  mkStore (directory s) (managedRoot s) (previousDirectory s) (errorString s) (keys s) (legacy s) (lock s) (revisions s)
    (<[k := g]> (observed s)) (pending s) (followsSelection s) (running s) (waiting s) (removing s).
Definition set_pending (l : list Request) (s : GroupSessionStore) : GroupSessionStore :=
  mkStore (directory s) (managedRoot s) (previousDirectory s) (errorString s) (keys s) (legacy s) (lock s) (revisions s)
    (observed s) l (followsSelection s) (running s) (waiting s) (removing s).
Definition set_waiting (r : bool) (w : option wait) (s : GroupSessionStore) : GroupSessionStore :=
  mkStore (directory s) (managedRoot s) (previousDirectory s) (errorString s) (keys s) (legacy s) (lock s) (revisions s)
    (observed s) (pending s) (followsSelection s) r w (removing s).
Definition set_removing (r : option Request) (s : GroupSessionStore) : GroupSessionStore :=
  mkStore (directory s) (managedRoot s) (previousDirectory s) (errorString s) (keys s) (legacy s) (lock s) (revisions s)
    (observed s) (pending s) (followsSelection s) (running s) (waiting s) r.

(** What an operation reports and does that others may observe. *)
Inductive effect := Completed (r : Request) (result : Result) | Sealed (r : Request) (aes sealed : bytes).

(** What the platform answers during one step: the selected container's state directory
    and root, the files that refuse to be read, written or protected, the lock, the clock
    and the random bytes. *)
Record Env := mkEnv {
  selection : option (QString * QString); defaultDirectory : QString;
  isLink : QString → bool; exists_ : QString → bool; isDir : QString → bool; mkdir : QString → bool;
  setPermissions : bool; protectDirectory : bool;
  opens : QString → bool; commits : QString → bool; protects : QString → bool;
  tryLock : bool; now : Z; later : Z; uuid : bytes; nonce : option bytes; randomKey : bytes
}.

Section with_platform.
Context {PF : Platform}.
(** AES-256-GCM under a key, a nonce and a context: the cipher text with its tag, and
    the plain text if the tag is right; and the path functions of the file provider. *)
Variables (gcmSeal : bytes → bytes → bytes → bytes → option (bytes * bytes))
  (gcmOpen : bytes → bytes → bytes → bytes → bytes → option bytes)
  (filePath relativeFilePath : QString → QString → QString) (cleanPath fileName : QString → QString)
  (isAbsolutePath : QString → bool) (rootPath : QString).

(** ** Sealing *)
(** A sealed text: the nonce, the cipher text, the tag. *)
Definition sealSocietyState (random : option bytes) (plain aes context : bytes) : bytes :=
  if negb (len aes =? 32) || (MaximumSocietyStateBytes <? len plain) then [] else
  match random with
  | Some n => match gcmSeal aes n context plain with Some (c, t) => n ++ c ++ t | None => [] end
  | None => []
  end.
Definition openSocietyState (sealed aes context : bytes) : bytes :=
  if negb (len aes =? 32) || (MaximumSocietyStateBytes + 28 <? len sealed) || (len sealed <? 28) then [] else
  default [] (gcmOpen aes (mid sealed 0 12) context (mid sealed 12 (len sealed - 28)) (mid sealed (len sealed - 16) 16)).
Definition context (key : QString) : bytes := u "com.iisacc.society.group-state.v1:" ++ toUtf8 key.

(** ** Files *)
Definition path (s : GroupSessionStore) (key : QString) : QString :=
  filePath (directory s) (digest (toUtf8 key) ++ u ".state").
Definition marker (s : GroupSessionStore) (key : QString) : QString := path s key ++ u ".revocation".

Section step.
Variable E : Env.
Definition generationOf (s : GroupSessionStore) (w : disk) (key : QString) : bytes :=
  if negb (isAbsolutePath (directory s)) then [] else
  match at_path w (marker s key) with
  | Redirected | NotFile => []
  | Absent => never
  | File b => if negb (opens E (marker s key)) || negb (len b =? 16) then [] else b
  end.
Definition exists_at (w : disk) (p : QString) : bool := match at_path w p with Absent => false | _ => true end.
(** Replace the file at once, or leave it. *)
Definition save (s : GroupSessionStore) (w : disk) (p : QString) (b : bytes) : bool * GroupSessionStore * disk :=
  match at_path w p with
  | Redirected => (false, set_error "The Society state record is redirected." s, w)
  | NotFile => (false, set_error "The Society state record could not be committed." s, w)
  | _ =>
      if negb (commits E p) then (false, set_error "The Society state record could not be committed." s, w)
      else if negb (protects E p)
      then (false, set_error "Society state record protection could not be applied." s, <[p := File b]> w)
      else (true, s, <[p := File b]> w)
  end.

(** Every directory from the root on is there, or is created, and no link. *)
Fixpoint walk (current : QString) (parts : list QString) : option string :=
  match parts with
  | [] => None
  | part :: rest =>
      if isEmpty part || bool_decide (part = u ".") || bool_decide (part = u "..") then Some "The Society state path is invalid."%string
      else
        let current := filePath current part in
        if isLink E current then Some "The Society state directory is redirected."%string
        else if negb (exists_ E current) && negb (mkdir E current) then Some "The Society state directory cannot be created."%string
        else if negb (isDir E current) then Some "The Society state directory is unavailable."%string
        else walk current rest
  end.
(** Follow the container that is selected. *)
Definition follow (s : GroupSessionStore) : option GroupSessionStore :=
  if followsSelection s then
    let? (d, root) := selection E in
    if isEmpty d then None
    else Some (set_location d root (if bool_decide (d ≠ directory s) then ∅ else observed s) s)
  else Some s.
Definition start (s : GroupSessionStore) : QString + string :=
  if negb (isEmpty (managedRoot s)) then
    if isLink E (managedRoot s) then inr "The managed Society group is redirected."%string
    else if negb (isDir E (managedRoot s)) then inr "The managed Society group is unavailable."%string
    else inl (managedRoot s)
  else inl rootPath.
Definition prepare (s : GroupSessionStore) : bool * GroupSessionStore :=
  match follow s with
  | None => (false, s)
  | Some s =>
      if isEmpty (directory s) || negb (isAbsolutePath (directory s)) || negb (keys s)
      then (false, set_error "The Society group location or key store is unavailable." s)
      else match start s with
      | inr e => (false, set_error e s)
      | inl current =>
          match walk current (qsplit slash (relativeFilePath current (cleanPath (directory s)))) with
          | Some e => (false, set_error e s)
          | None =>
              if negb (setPermissions E) then (false, set_error "Society state permissions could not be applied." s)
              else if negb (protectDirectory E) then (false, set_error "Society state data protection could not be applied." s)
              else (true, s)
          end
      end
  end.

(** Copy one file of a record from the previous directory. *)
Definition migrateFile (s : GroupSessionStore) (w : disk) (key : QString) (suffix : QString) : bool * GroupSessionStore * disk :=
  let source := filePath (previousDirectory s) (fileName (path s key) ++ suffix) in
  let maximum := if isEmpty suffix then MaximumSocietyStateBytes + 48 else 16 in
  match at_path w source with
  | Absent => (true, s, w)
  | File b =>
      if (maximum <? len b) || (negb (isEmpty suffix) && negb (len b =? 16)) || negb (opens E source)
      then (false, set_error "The previous Society encrypted record is invalid." s, w)
      else if negb (isEmpty suffix) || bool_decide (b = tombstone) || startsWith b version
      then save s w (path s key ++ suffix) b
      else (false, set_error "The previous Society encrypted record is unsupported." s, w)
  | _ => (false, set_error "The previous Society encrypted record is invalid." s, w)
  end.
Definition migrateRecord (s : GroupSessionStore) (w : disk) (key : QString) : bool * GroupSessionStore * disk :=
  let previous := previousDirectory s in
  if isEmpty previous || bool_decide (previous = directory s) || exists_at w (path s key) || exists_at w (marker s key)
  then (true, s, w)
  else if negb (exists_ E previous) then (true, s, w)
  else if negb (isDir E previous) || isLink E previous
  then (false, set_error "The previous Society state location is redirected." s, w)
  else match migrateFile s w key (u ".revocation") with
       | (true, s, w) => migrateFile s w key []
       | failed => failed
       end.

(** ** The queue *)
Abbreviation outcome := (GroupSessionStore * disk * list effect)%type.
Definition revisionOf (s : GroupSessionStore) (key : QString) : Z := default 0 (revisions s !! key).
Definition current (s : GroupSessionStore) (w : disk) (r : Request) : bool :=
  bool_decide (revision r = revisionOf s (key r)) && bool_decide (generation r = generationOf s w (key r)).
Definition wait_for (x : wait) (s : GroupSessionStore) (w : disk) : outcome := (set_waiting (running s) (Some x) s, w, []).
Definition enqueue (r : Request) (s : GroupSessionStore) (w : disk) : outcome :=
  let s := set_pending (pending s ++ [r]) s in
  if running s then (s, w, []) else (set_waiting true (Some Timer) s, w, []).
(** Nothing is reported that was revoked or superseded meanwhile. *)
Definition finish (r : Request) (result : Result) (s : GroupSessionStore) (w : disk) : outcome :=
  let s := set_lock false s in
  let result := if current s w r then result else mkResult Missing [] in
  (set_waiting (running s) (Some Timer) s, w, [Completed r result]).
Definition request (op : Operation) (k : QString) (d : bytes) (c : nat) (n : Z) (g : bytes) : Request :=
  mkRequest op k d c n g 0.

Definition read (k : QString) (c : nat) (s : GroupSessionStore) (w : disk) : outcome :=
  let (ok, s) := if followsSelection s || negb (isEmpty (previousDirectory s)) then prepare s else (true, s) in
  if negb ok then (s, w, [Completed (request Read k [] c 0 []) (mkResult Unavailable [])]) else
  let token := generationOf s w k in
  enqueue (request Read k [] c (revisionOf s k) token) (set_observed k token s) w.
Definition write (k : QString) (d : bytes) (c : nat) (s : GroupSessionStore) (w : disk) : outcome :=
  let (ok, s) := if followsSelection s then prepare s else (true, s) in
  if negb ok then (s, w, [Completed (request Write k d c 0 []) (mkResult Unavailable [])]) else
  let s := match observed s !! k with Some _ => s | None => set_observed k (generationOf s w k) s end in
  let s := set_revision k (wrap64 (revisionOf s k + 1)) s in
  enqueue (request Write k d c (revisionOf s k) (default [] (observed s !! k))) s w.
(** A removal writes the marker first, and then the tombstone; other processes may run
    in between. *)
Definition remove (k : QString) (c : nat) (s : GroupSessionStore) (w : disk) : outcome :=
  let s := set_revision k (wrap64 (revisionOf s k + 1)) s in
  let token := uuid E in
  let r := request Remove k [] c (revisionOf s k) token in
  let (ok, s) := prepare s in
  if negb ok then (s, w, [Completed r (mkResult Unavailable [])]) else
  match save s w (marker s k) token with
  | (true, s, w) => (set_removing (Some r) (set_observed k token s), w, [])
  | (false, s, w) => (s, w, [Completed r (mkResult Unavailable [])])
  end.
Definition removeRest (r : Request) (s : GroupSessionStore) (w : disk) : outcome :=
  let '(_, s, w) := save s w (path s (key r)) tombstone in
  enqueue r (set_removing None s) w.

Definition withKey (r : Request) (create : bool) (k : continuation) (s : GroupSessionStore) (w : disk) : outcome :=
  wait_for (KeyRead r create k) s w.
Definition unavailable (r : Request) (s : GroupSessionStore) (w : disk) : outcome := finish r (mkResult Unavailable []) s w.
Definition missing (r : Request) (s : GroupSessionStore) (w : disk) : outcome := finish r (mkResult Missing []) s w.

(** A read once the lock is held: what the record file holds. *)
Definition readRecord (r : Request) (s : GroupSessionStore) (w : disk) : outcome :=
  let p := path s (key r) in
  match at_path w p with
  | Redirected | NotFile => unavailable r s w
  | Absent =>
      if bool_decide (generation r ≠ never) || negb (legacy s) then missing r s w
      else wait_for (LegacyRead r) s w
  | File b =>
      if negb (opens E p) || (MaximumSocietyStateBytes + 48 <? len b) then unavailable r s w
      else if bool_decide (b = tombstone) then missing r s w
      else if negb (startsWith b version) then unavailable r s w
      else if bool_decide (mid b 4 16 ≠ generation r) then missing r s w
      else withKey r false (Open b) s w
  end.
Definition migrateFirst (r : Request) (s : GroupSessionStore) (w : disk) : outcome :=
  if negb (isEmpty (previousDirectory s)) && negb (exists_at w (path s (key r))) && negb (exists_at w (marker s (key r)))
  then match migrateRecord s w (key r) with
       | (false, s, w) => unavailable r s w
       | (true, s, w) =>
           let g := generationOf s w (key r) in
           readRecord (set_generation g r) (set_observed (key r) g s) w
       end
  else readRecord r s w.
Definition perform (r : Request) (s : GroupSessionStore) (w : disk) : outcome :=
  match operation r with
  | Remove => if legacy s then wait_for (LegacyRemove r) s w else finish r (mkResult NoError []) s w
  | Write => withKey r true (Store false) s w
  | Read => migrateFirst r s w
  end.
Definition invalid (r : Request) : bool :=
  isEmpty (key r) || (512 <? qsize (key r)) || negb (len (generation r) =? 16) || (MaximumSocietyStateBytes <? len (data r)).
Definition clear_error (s : GroupSessionStore) : GroupSessionStore := set_error "" s.
(** The clock is read for the deadline, and again when the lock is not free. *)
Definition next (s : GroupSessionStore) (w : disk) : outcome :=
  match pending s with
  | [] => (set_waiting false None s, w, [])
  | r :: rest =>
      let s := clear_error (set_pending rest s) in
      if negb (current s w r) then missing r s w
      else if invalid r then unavailable r s w
      else
        let (ok, s) := prepare s in
        if negb ok then unavailable r s w
        else
          let r := if lockDeadline r =? 0 then set_lockDeadline (now E + 10000) r else r in
          if tryLock E then perform r (set_lock true s) w
          else if later E <? lockDeadline r
               then (set_waiting (running s) (Some Timer) (set_pending (r :: pending s) s), w, [])
               else unavailable r s w
  end.

(** [store] seals before it commits; other processes may run in between. *)
Definition store (r : Request) (aes : bytes) (migrating : bool) (s : GroupSessionStore) (w : disk) : outcome :=
  if followsSelection s && bool_decide (defaultDirectory E ≠ directory s)
  then unavailable r (set_error "The selected Society container changed before the state write." s) w
  else if negb (current s w r) then missing r s w
  else
    let sealed := sealSocietyState (nonce E) (data r) aes (context (key r) ++ generation r) in
    match sealed with
    | [] => unavailable r s w
    | _ =>
        let '(s, w, _) := wait_for (Saving r (version ++ generation r ++ sealed) migrating) s w in
        (s, w, [Sealed r aes sealed])
    end.
Definition commit (r : Request) (record : bytes) (migrating : bool) (s : GroupSessionStore) (w : disk) : outcome :=
  match save s w (path s (key r)) record with
  | (false, s, w) => unavailable r s w
  | (true, s, w) =>
      if migrating && legacy s then wait_for (LegacyForget r) s w else finish r (mkResult NoError []) s w
  end.
Definition continue_ (k : continuation) (r : Request) (aes : bytes) (s : GroupSessionStore) (w : disk) : outcome :=
  match k with
  | Store migrating => store r aes migrating s w
  | Open b =>
      let plain := openSocietyState (drop 20 b) aes (context (key r) ++ generation r) in
      finish r (mkResult (match plain with [] => Unavailable | _ => NoError end) plain) s w
  end.
(** The answer of a platform's store to the outstanding call. *)
Definition answer (x : wait) (result : Result) (s : GroupSessionStore) (w : disk) : option outcome :=
  match x with
  | LegacyRemove r => Some (finish r (mkResult NoError []) s w)
  | LegacyForget r => Some (finish r (mkResult NoError (data r)) s w)
  | LegacyRead r =>
      Some (if bool_decide (error result ≠ NoError) then finish r result s w
            else withKey (set_data (value result) r) true (Store true) s w)
  | KeyRead r create k =>
      Some (if bool_decide (error result = NoError) && (len (value result) =? 32) then continue_ k r (value result) s w
            else if bool_decide (error result ≠ Missing) || negb create
            then unavailable r (set_error "The Society group encryption key is unavailable." s) w
            else wait_for (KeyWrite r (randomKey E) k) s w)
  | KeyWrite r aes k =>
      Some (if bool_decide (error result ≠ NoError)
            then unavailable r (set_error "The Society group encryption key could not be saved." s) w
            else continue_ k r aes s w)
  | Timer | Saving _ _ _ => None
  end.

(** One step of a store: a call of its interface, its timer, an answer, or going on. *)
Inductive event :=
| CallRead (k : QString) (c : nat) | CallWrite (k : QString) (d : bytes) (c : nat) | CallRemove (k : QString) (c : nat)
| GoOn | Answer (result : Result).
Definition handle (e : event) (s : GroupSessionStore) (w : disk) : option outcome :=
  match removing s, e with
  | Some r, GoOn => Some (removeRest r s w)
  | Some _, _ => None
  | None, CallRead k c => Some (read k c s w)
  | None, CallWrite k d c => Some (write k d c s w)
  | None, CallRemove k c => Some (remove k c s w)
  | None, GoOn =>
      match waiting s with
      | Some Timer => Some (next s w)
      | Some (Saving r record migrating) => Some (commit r record migrating s w)
      | _ => None
      end
  | None, Answer result => let? x := waiting s in answer x result s w
  end.
End step.

(** ** Stores of several processes on one disk *)
Record System := mkSystem { stores : gmap nat GroupSessionStore; files : disk; trace : list effect }.
Definition advance (i : nat) (E : Env) (e : event) (S : System) : option System :=
  let? s := stores S !! i in
  let? (s, w, effects) := handle E e s (files S) in
  Some (mkSystem (<[i := s]> (stores S)) w (trace S ++ effects)).
(** Identifiers have 16 bytes. *)
Inductive step (S S' : System) : Prop :=
| Step i E e : len (uuid E) = 16 → advance i E e S = Some S' → step S S'.
Fixpoint run (l : list (nat * Env * event)) (S : System) : option System :=
  match l with
  | [] => Some S
  | (i, E, e) :: r => let? S := advance i E e S in run r S
  end.
Lemma run_steps l S S' : Forall (λ x : nat * Env * event, len (uuid x.1.2) = 16) l → run l S = Some S' → rtc step S S'.
Proof.
  revert S. induction l as [|[[i E] e] l IH]; intros S Hl H; cbn in H; [by injection H as ->|].
  apply Forall_cons in Hl as [Hu Hl]. destruct (advance i E e S) as [S1|] eqn:Ea; [|done].
  eapply rtc_l; [by eapply Step|]. by eapply IH.
Qed.

(** ** Revocation *)
Section revocation.
Variable t : bytes.
Hypothesis token : len t = 16.

(** The record was sealed under [t], as the trace tells. *)
Definition sealedRecord (tr : list effect) (b : bytes) : Prop :=
  ∃ r aes sealed, Sealed r aes sealed ∈ tr ∧ generation r = t ∧ b = version ++ t ++ sealed.
Definition sealedData (tr : list effect) (d : bytes) : Prop :=
  ∃ r aes sealed, Sealed r aes sealed ∈ tr ∧ generation r = t ∧ d = data r.
Definition fine_continuation (tr : list effect) (r : Request) (k : continuation) : Prop :=
  match k with Open b => generation r = t → sealedRecord tr b | Store _ => len (generation r) = 16 end.
Definition fine_wait (tr : list effect) (x : wait) : Prop :=
  match x with
  | KeyRead r _ k | KeyWrite r _ k => fine_continuation tr r k
  | LegacyRead r => len (generation r) = 16
  | Saving r record _ => (mid record 4 16 = t → sealedRecord tr record) ∧ (generation r = t → sealedData tr (data r))
  | LegacyForget r => generation r = t → sealedData tr (data r)
  | _ => True
  end.
Definition fine_store (tr : list effect) (s : GroupSessionStore) : Prop := ∀ x, waiting s = Some x → fine_wait tr x.
Definition fine_disk (tr : list effect) (w : disk) : Prop := ∀ p b, w !! p = Some (File b) → mid b 4 16 = t → sealedRecord tr b.
(** With the empty trace: nothing was sealed under [t] yet. *)
Definition fine (tr : list effect) (S : System) : Prop :=
  fine_disk tr (files S) ∧ ∀ i s, stores S !! i = Some s → fine_store tr s.

Lemma sealedRecord_mono tr tr' b : tr ⊆ tr' → sealedRecord tr b → sealedRecord tr' b.
Proof. intros H (r & aes & x & Hin & Hr). exists r, aes, x. split; [by apply H|done]. Qed.
Lemma sealedData_mono tr tr' d : tr ⊆ tr' → sealedData tr d → sealedData tr' d.
Proof. intros H (r & aes & x & Hin & Hr). exists r, aes, x. split; [by apply H|done]. Qed.
Lemma fine_wait_mono tr tr' x : tr ⊆ tr' → fine_wait tr x → fine_wait tr' x.
Proof.
  intros H. destruct x as [| | |r c k|r a k|r b m|r]; cbn; try done.
  - destruct k; [done|]. intros Hk Hg. eapply sealedRecord_mono; eauto.
  - destruct k; [done|]. intros Hk Hg. eapply sealedRecord_mono; eauto.
  - intros [H1 H2]. split; [intros Hm; eapply sealedRecord_mono|intros Hg; eapply sealedData_mono]; eauto.
  - intros Hk Hg. eapply sealedData_mono; eauto.
Qed.
Lemma short_mid b : len b < 20 → mid b 4 16 ≠ t.
Proof.
  unfold mid, len in *. intros Hb <-. revert token. rewrite length_take, length_drop. lia.
Qed.
Lemma save_fine tr E s w p b ok s' w' :
  fine_disk tr w → (mid b 4 16 = t → sealedRecord tr b) → save E s w p b = (ok, s', w') →
  fine_disk tr w' ∧ waiting s' = waiting s.
Proof.
  intros Hw Hb. unfold save.
  assert (fine_disk tr (<[p := File b]> w)) as Hi.
  { intros q c. destruct (decide (q = p)) as [->|Hne]; [rewrite lookup_insert_eq; by intros [= <-]|].
    rewrite lookup_insert_ne by done. apply Hw. }
  destruct (at_path w p); repeat (case_match; simplify_eq); intros; simplify_eq; done.
Qed.

(** A result with data comes from a record sealed under [t], or was sealed under it. *)
Definition reported (tr : list effect) (r : Request) (result : Result) : Prop :=
  error result = NoError → value result ≠ [] → generation r = t →
  sealedData tr (value result)
  ∨ ∃ record aes, sealedRecord tr record ∧ value result = openSocietyState (drop 20 record) aes (context (key r) ++ t).
(** Data is reported only while its generation is what the marker holds. *)
Definition unrevoked (E : Env) (s : GroupSessionStore) (w : disk) (r : Request) (result : Result) : Prop :=
  error result = NoError → value result ≠ [] → generation r = generationOf E s w (key r).
Definition preserves (E : Env) (tr : list effect) (o : GroupSessionStore * disk * list effect) : Prop :=
  let '(s, w, effects) := o in
  fine_disk (tr ++ effects) w ∧ fine_store (tr ++ effects) s
  ∧ ∀ r result, Completed r result ∈ effects → reported tr r result ∧ unrevoked E s w r result.

Lemma fine_disk_mono tr tr' w : tr ⊆ tr' → fine_disk tr w → fine_disk tr' w.
Proof. intros H Hw p b Hp Hm. eapply sealedRecord_mono; eauto. Qed.
Lemma fine_store_mono tr tr' s : tr ⊆ tr' → fine_store tr s → fine_store tr' s.
Proof. intros H Hs x Hx. eapply fine_wait_mono; eauto. Qed.
Lemma subset_app (tr l : list effect) : tr ⊆ tr ++ l.
Proof. intros x Hx. apply elem_of_app. by left. Qed.

Section handlers.
Variables (tr : list effect) (E : Env) (w : disk).
Hypothesis Hw : fine_disk tr w.
Lemma quiet_preserves s w' : fine_disk tr w' → fine_store tr s → preserves E tr (s, w', []).
Proof. intros H1 H2. cbn. rewrite app_nil_r. split_and!; [done|done|]. intros r x Hx. by apply elem_of_nil in Hx. Qed.
Lemma wait_preserves x s w' : fine_disk tr w' → fine_wait tr x → preserves E tr (wait_for x s w').
Proof. intros H Hx. apply quiet_preserves; [done|]. by intros y [= <-]. Qed.
Lemma finish_preserves r result s w' : fine_disk tr w' → reported tr r result → preserves E tr (finish E r result s w').
Proof.
  intros H Hr. unfold finish. cbn. split_and!; [eapply fine_disk_mono; [apply subset_app|done]|by intros y [= <-]|].
  intros r' x Hx. apply list_elem_of_singleton in Hx as [= -> ->].
  destruct (current E (set_lock false s) w' r) eqn:Ec; [|split; by intros ?].
  split; [done|]. intros _ _. apply andb_true_iff in Ec as [_ Ec]. by apply bool_decide_eq_true in Ec.
Qed.
Lemma unavailable_preserves r s w' : fine_disk tr w' → preserves E tr (unavailable E r s w').
Proof. intros H. apply finish_preserves; [done|]. by intros ?. Qed.
Lemma missing_preserves r s w' : fine_disk tr w' → preserves E tr (missing E r s w').
Proof. intros H. apply finish_preserves; [done|]. by intros ?. Qed.
Lemma empty_reported r : reported tr r (mkResult NoError []).
Proof. by intros _ ?. Qed.
Lemma prepare_waiting s : waiting (prepare E s).2 = waiting s.
Proof.
  unfold prepare, follow. destruct (followsSelection s).
  - destruct (selection E) as [[d root]|]; [|done]. destruct (isEmpty d); [done|]. repeat case_match; done.
  - repeat case_match; done.
Qed.
Lemma enqueue_preserves r s w' : fine_disk tr w' → fine_store tr s → preserves E tr (enqueue r s w').
Proof.
  intros H Hs. unfold enqueue. cbn. destruct (running s); apply quiet_preserves; try done. by intros y [= <-].
Qed.
Lemma refused_preserves r s w' :
  fine_disk tr w' → fine_store tr s → preserves E tr (s, w', [Completed r (mkResult Unavailable [])]).
Proof.
  intros H Hs. cbn. split_and!; [by eapply fine_disk_mono; [apply subset_app|]|by eapply fine_store_mono; [apply subset_app|]|].
  intros r' x Hx. apply list_elem_of_singleton in Hx as [= -> ->]. split; by intros ?.
Qed.

Lemma read_preserves k c s : fine_store tr s → preserves E tr (read E k c s w).
Proof.
  intros Hs. unfold read. pose proof (prepare_waiting s) as Hp.
  destruct (followsSelection s || _); [destruct (prepare E s) as [ok s1]; cbn in Hp|].
  - assert (fine_store tr s1) by (unfold fine_store; by rewrite Hp).
    destruct ok; cbn [negb]; [by apply enqueue_preserves|]. by apply refused_preserves.
  - by apply enqueue_preserves.
Qed.
Lemma write_preserves k d c s : fine_store tr s → preserves E tr (write E k d c s w).
Proof.
  intros Hs. unfold write. pose proof (prepare_waiting s) as Hp.
  destruct (followsSelection s); [destruct (prepare E s) as [ok s1]; cbn in Hp|].
  - assert (fine_store tr s1) by (unfold fine_store; by rewrite Hp). destruct ok; cbn [negb].
    + apply enqueue_preserves; [done|]. by destruct (observed s1 !! k).
    + by apply refused_preserves.
  - cbn [negb]. apply enqueue_preserves; [done|]. by destruct (observed s !! k).
Qed.
Lemma remove_preserves k c s : len (uuid E) = 16 → fine_store tr s → preserves E tr (remove E k c s w).
Proof.
  intros Hu Hs. unfold remove. set (s0 := set_revision _ _ s). pose proof (prepare_waiting s0) as Hp.
  destruct (prepare E s0) as [ok s1]. cbn in Hp.
  assert (fine_store tr s1) as Hs1 by (unfold fine_store; rewrite Hp; exact Hs).
  destruct ok; cbn [negb]; [|by apply refused_preserves].
  destruct (save E s1 w (marker s1 k) (uuid E)) as [[ok s2] w2] eqn:Es.
  apply (save_fine tr) in Es as [Hw2 Hwait]; [|done|intros Hm; exfalso; revert Hm; apply short_mid; lia].
  assert (fine_store tr s2) as Hs2 by (unfold fine_store; rewrite Hwait; exact Hs1).
  destruct ok; [by apply quiet_preserves|by apply refused_preserves].
Qed.
Lemma removeRest_preserves r s : fine_store tr s → preserves E tr (removeRest E r s w).
Proof.
  intros Hs. unfold removeRest. destruct (save E s w (path s (key r)) tombstone) as [[ok s2] w2] eqn:Es.
  apply (save_fine tr) in Es as [Hw2 Hwait]; [|done|intros Hm; exfalso; revert Hm; by apply short_mid].
  apply enqueue_preserves; [done|]. intros x. cbn. rewrite Hwait. apply Hs.
Qed.
Lemma readRecord_preserves r s w' : fine_disk tr w' → preserves E tr (readRecord E r s w').
Proof.
  intros H. unfold readRecord, at_path. destruct (w' !! path s (key r)) as [[| | |b]|] eqn:Ep; cbn [default from_option id].
  all: try (by apply unavailable_preserves).
  1,3: cbn [orb]; case_bool_decide as Hg; [by apply missing_preserves|]; destruct (negb (legacy s)); [by apply missing_preserves|];
    apply wait_preserves; [done|]; cbn; by rewrite Hg.
  destruct (_ || _); [by apply unavailable_preserves|].
  case_bool_decide; [by apply missing_preserves|]. destruct (startsWith b version); [|by apply unavailable_preserves].
  cbn [negb]. case_bool_decide as Hg; [by apply missing_preserves|]. apply wait_preserves; [done|].
  cbn. intros Ht. apply (H (path s (key r))); [done|]. by rewrite Hg.
Qed.
Lemma migrateFile_fine s key suffix w' ok s' w'' :
  fine_disk tr w' → migrateFile E s w' key suffix = (ok, s', w'') → fine_disk tr w''.
Proof.
  intros H. unfold migrateFile, at_path. destruct (w' !! filePath _ _) as [[| | |b]|] eqn:Ep; cbn [default from_option id];
    try (by intros [= <- <- <-]).
  destruct (_ || _); [by intros [= <- <- <-]|]. destruct (_ || _); [|by intros [= <- <- <-]].
  intros Hs. eapply save_fine in Hs as [Hd _]; [done|done|]. by apply (H _ _ Ep).
Qed.
Lemma migrateRecord_fine s key w' ok s' w'' :
  fine_disk tr w' → migrateRecord E s w' key = (ok, s', w'') → fine_disk tr w''.
Proof.
  intros H. unfold migrateRecord. repeat (case_match; [by intros [= <- <- <-]|]).
  destruct (migrateFile E s w' key (u ".revocation")) as [[ok1 s1] w1] eqn:E1.
  apply migrateFile_fine in E1; [|done]. destruct ok1; [by apply migrateFile_fine|by intros [= <- <- <-]].
Qed.
Lemma perform_preserves r s : fine_store tr s → len (generation r) = 16 → preserves E tr (perform E r s w).
Proof.
  intros Hs Hlen. unfold perform. destruct (operation r).
  - unfold migrateFirst. destruct (_ && _); [|by apply readRecord_preserves].
    destruct (migrateRecord E s w (key r)) as [[ok s1] w1] eqn:E1. apply migrateRecord_fine in E1; [|done].
    destruct ok; [by apply readRecord_preserves|by apply unavailable_preserves].
  - by apply wait_preserves.
  - destruct (legacy s); [by apply wait_preserves|]. apply finish_preserves; [done|apply empty_reported].
Qed.
Lemma next_preserves s : fine_store tr s → preserves E tr (next E s w).
Proof.
  intros Hs. unfold next. destruct (pending s) as [|r rest]; [by apply quiet_preserves|].
  set (s0 := clear_error (set_pending rest s)). destruct (current E s0 w r); [|by apply missing_preserves]. cbn [negb].
  destruct (invalid r) eqn:Ei; [by apply unavailable_preserves|].
  assert (len (generation r) = 16) as Hlen by (unfold invalid in Ei; bool_hyps; done). pose proof (prepare_waiting s0) as Hp.
  destruct (prepare E s0) as [ok s1]. cbn in Hp. destruct ok; [|by apply unavailable_preserves]. cbn [negb].
  assert (fine_store tr s1) by (unfold fine_store; rewrite Hp; exact Hs).
  destruct (tryLock E); [apply perform_preserves; [done|by destruct (lockDeadline r =? 0)]|].
  destruct (later E <? _); [|by apply unavailable_preserves]. apply quiet_preserves; [done|]. by intros x [= <-].
Qed.
Lemma mid_record g sealed : len g = 16 → mid (version ++ g ++ sealed) 4 16 = g.
Proof.
  intros Hg. unfold mid. change (Z.to_nat 4) with (List.length version). rewrite drop_app_length.
  apply take_app_length'. unfold len in Hg. lia.
Qed.
Lemma store_preserves r aes m s : len (generation r) = 16 → preserves E tr (store E r aes m s w).
Proof.
  intros Hlen. unfold store. destruct (_ && _); [by apply unavailable_preserves|].
  destruct (current E s w r); [|by apply missing_preserves]. cbn [negb].
  destruct (sealSocietyState _ _ _ _) as [|x l] eqn:Es; [by apply unavailable_preserves|].
  unfold wait_for, preserves. cbv beta iota zeta.
  assert (Sealed r aes (x :: l) ∈ tr ++ [Sealed r aes (x :: l)]) as Hin by (apply elem_of_app; right; by left).
  split_and!; [by eapply fine_disk_mono; [apply subset_app|]| |].
  - intros y Hy. apply (inj Some) in Hy as <-. split; [|intros Hg; by exists r, aes, (x :: l)].
    rewrite mid_record by done. intros Hg. exists r, aes, (x :: l). by rewrite <- Hg.
  - intros r' res Hr. by apply list_elem_of_singleton in Hr.
Qed.
Lemma commit_preserves r record m s : fine_wait tr (Saving r record m) → preserves E tr (commit E r record m s w).
Proof.
  intros [H1 H2]. unfold commit. destruct (save E s w (path s (key r)) record) as [[ok s1] w1] eqn:Es.
  apply (save_fine tr) in Es as [Hw1 _]; [|done|done]. destruct ok; [|by apply unavailable_preserves].
  destruct (m && legacy s1); [by apply wait_preserves|].
  apply finish_preserves; [done|apply empty_reported].
Qed.
Lemma continue_preserves k r aes s : fine_continuation tr r k → preserves E tr (continue_ E k r aes s w).
Proof.
  destruct k as [m|b]; cbn [fine_continuation continue_]; intros Hk; [by apply store_preserves|].
  apply finish_preserves; [done|]. intros He Hne Hg. right. exists b, aes. cbn [value]. split; [by apply Hk|by rewrite Hg].
Qed.
Lemma answer_preserves x result s o : fine_wait tr x → answer E x result s w = Some o → preserves E tr o.
Proof.
  intros Hx Ho. destruct x as [|r|r|r create k|r aes k|r b m|r]; cbn [answer] in Ho; try done; injection Ho as <-.
  - apply finish_preserves; [done|apply empty_reported].
  - case_bool_decide as He; [by apply finish_preserves; [done|intros ?]|]. by apply wait_preserves.
  - destruct (_ && _); [by apply continue_preserves|]. destruct (_ || _); [by apply unavailable_preserves|].
    by apply wait_preserves.
  - case_bool_decide; [by apply unavailable_preserves|by apply continue_preserves].
  - apply finish_preserves; [done|]. intros _ _ Hg. left. by apply Hx.
Qed.
Lemma handle_preserves e s o : len (uuid E) = 16 → fine_store tr s → handle E e s w = Some o → preserves E tr o.
Proof.
  intros Hu Hs Ho. unfold handle in Ho. destruct (removing s) as [r|].
  - destruct e; try done. injection Ho as <-. by apply removeRest_preserves.
  - destruct e as [k c|k d c|k c| |result]; try (injection Ho as <-).
    + by apply read_preserves.
    + by apply write_preserves.
    + by apply remove_preserves.
    + destruct (waiting s) as [x|] eqn:Ex; [|done]. destruct x; try done; injection Ho as <-.
      * by apply next_preserves.
      * apply commit_preserves. by apply Hs.
    + destruct (waiting s) as [x|] eqn:Ex; [|done]. eapply answer_preserves; [by apply Hs|done].
Qed.
End handlers.
Lemma advance_fine tr i E e S S' :
  len (uuid E) = 16 → advance i E e S = Some S' → fine tr S →
  ∃ effects, trace S' = trace S ++ effects ∧ fine (tr ++ effects) S'
    ∧ ∀ r result, Completed r result ∈ effects →
      reported tr r result ∧ ∃ s, stores S' !! i = Some s ∧ unrevoked E s (files S') r result.
Proof.
  intros Hu Ha [Hd Hs]. unfold advance in Ha. destruct (stores S !! i) as [s|] eqn:Ei; [|done].
  destruct (handle E e s (files S)) as [[[s' w'] effects]|] eqn:Eh; [|done]. injection Ha as <-. exists effects.
  pose proof (handle_preserves tr E (files S) Hd e s _ Hu (Hs i s Ei) Eh) as (H1 & H2 & H3). cbn.
  split_and!; [done|split; [done|]|]; cycle 1.
  { intros r result Hr. destruct (H3 r result Hr) as [? ?]. split; [done|]. exists s'. by rewrite lookup_insert_eq. }
  intros j s2. cbn. destruct (decide (j = i)) as [->|Hne].
  - rewrite lookup_insert_eq. by intros [= <-].
  - rewrite lookup_insert_ne by done. intros Hj. eapply fine_store_mono; [apply subset_app|]. by apply (Hs j).
Qed.
Lemma steps_fine tr S S' :
  rtc step S S' → fine tr S → ∃ effects, trace S' = trace S ++ effects ∧ fine (tr ++ effects) S'.
Proof.
  intros H. revert tr. induction H as [S|S S1 S2 [i E e Hu Ha] _ IH]; intros tr Hf; [by exists []; rewrite !app_nil_r|].
  destruct (advance_fine tr i E e S S1 Hu Ha Hf) as (l & Hl & Hf1 & _). destruct (IH _ Hf1) as (l' & Hl' & Hf2).
  exists (l ++ l'). by rewrite Hl', Hl, !app_assoc.
Qed.
End revocation.

Lemma remove_marks E k c s w s' w' :
  remove E k c s w = (s', w', []) → isAbsolutePath (directory s') = true ∧ at_path w' (marker s' k) = File (uuid E).
Proof.
  unfold remove. set (s0 := set_revision _ _ s). intros H.
  assert (∀ s1, prepare E s0 = (true, s1) → isAbsolutePath (directory s1) = true) as Habs.
  { intros s1 Hp. unfold prepare in Hp. destruct (follow E s0) as [s2|]; [|done].
    destruct (isEmpty (directory s2) || negb (isAbsolutePath (directory s2)) || negb (keys s2)) eqn:Eb; [done|].
    apply orb_false_iff in Eb as [Eb _]. apply orb_false_iff in Eb as [_ Eb]. apply negb_false_iff in Eb.
    repeat case_match; simplify_eq; done. }
  destruct (prepare E s0) as [ok s1]. destruct ok; [|done]. cbn [negb] in H. specialize (Habs s1 eq_refl).
  unfold save in H. destruct (at_path w (marker s1 k)); try done.
  all: destruct (commits E (marker s1 k)); [|done]; cbn [negb] in H;
    destruct (protects E (marker s1 k)); [|done]; cbn [negb] in H; injection H as <- <-.
  all: split; [done|]; change (marker (set_removing _ (set_observed _ _ s1)) k) with (marker s1 k);
    unfold at_path; by rewrite lookup_insert_eq.
Qed.

(** C2: What was removed stays removed. Once the removal of a key has put its token in
    the marker, whatever other stores and processes do, in whatever order, and whatever
    they had started before: data that any store then reports for a key, while the marker
    of that key holds the token, was sealed after the removal, under the token; the
    report is the data of such a sealing or what its sealed text opens to. This does not
    depend on the lock, nor on the second write of the removal, the tombstone. *)
Theorem revoked_stays_revoked S1 i E k c S2 S3 j E' e S4 s4 r d :
  let t := uuid E in
  len t = 16 → fine t [] S1 →
  advance i E (CallRemove k c) S1 = Some S2 → trace S2 = trace S1 →
  rtc step S2 S3 → len (uuid E') = 16 → advance j E' e S3 = Some S4 → stores S4 !! j = Some s4 →
  Completed r (mkResult NoError d) ∈ drop (List.length (trace S3)) (trace S4) → d ≠ [] →
  (∃ s2, stores S2 !! i = Some s2 ∧ at_path (files S2) (marker s2 k) = File t)
  ∧ generation r = generationOf E' s4 (files S4) (key r)
  ∧ (generationOf E' s4 (files S4) (key r) = t →
     ∃ r' aes' sealed, Sealed r' aes' sealed ∈ drop (List.length (trace S2)) (trace S4) ∧ generation r' = t
       ∧ (d = data r' ∨ ∃ aes, d = openSocietyState sealed aes (context (key r) ++ t))).
Proof.
  intros t Ht Hf Hr Htr Hs Hu' Ha Hj Hd Hne.
  destruct (advance_fine t Ht [] i E _ S1 S2 Ht Hr Hf) as (l1 & E1 & Hf2 & _).
  rewrite Htr in E1. assert (l1 = []) as -> by (apply (app_inv_head (trace S1)); by rewrite app_nil_r). cbn in Hf2.
  destruct (steps_fine t Ht [] S2 S3 Hs Hf2) as (l2 & E2 & Hf3). cbn in Hf3.
  destruct (advance_fine t Ht l2 j E' e S3 S4 Hu' Ha Hf3) as (l3 & E3 & _ & Hrep).
  rewrite E3, drop_app_length in Hd. destruct (Hrep _ _ Hd) as (Hre & s4' & Hj' & Hun).
  rewrite Hj in Hj'. injection Hj' as <-. specialize (Hun eq_refl Hne).
  split_and!; [|done|].
  - unfold advance in Hr. destruct (stores S1 !! i) as [s1|] eqn:Ei; [|done].
    destruct (handle E (CallRemove k c) s1 (files S1)) as [[[s2 w2] l]|] eqn:Eh; [|done]. injection Hr as <-.
    cbn in Htr |- *. exists s2. rewrite lookup_insert_eq. split; [done|].
    assert (l = []) as -> by (apply (app_inv_head (trace S1)); by rewrite app_nil_r).
    unfold handle in Eh. destruct (removing s1); [done|]. injection Eh as Eh. by apply (remove_marks _ _ c s1 (files S1)).
  - intros Hg. rewrite E3, E2, <- app_assoc, drop_app_length.
    assert (generation r = t) as Hgr by congruence. specialize (Hre eq_refl Hne Hgr) as [(r' & aes & x & Hin & Hg' & Hx)|(b & aes & Hb & Hx)].
    + exists r', aes, x. split_and!; [apply elem_of_app; by left|done|by left].
    + destruct Hb as (r' & aes' & x & Hin & Hg' & ->). exists r', aes', x.
      split_and!; [apply elem_of_app; by left|done|]. right. exists aes. cbn [value] in Hx. rewrite Hx. f_equal.
      change (version ++ t ++ x) with ((version ++ t) ++ x). apply drop_app_length'. rewrite length_app.
      unfold len in Ht. change (List.length version) with 4%nat. lia.
Qed.
End with_platform.

(** A container with one record; one process removes it, another writes it anew and
    reads it back. *)
Definition demoPath (a b : QString) : QString := a ++ [slash] ++ b.
Definition demoRelative (_ p : QString) : QString := tail p.
Definition demoAbsolute (p : QString) : bool := startsWith p [slash].
Definition demoTag (k n c p : bytes) : bytes := replicate 16 (foldl (λ h x, (h * 7 + x) mod 251) 0 (k ++ n ++ c ++ p))%N.
Definition demoSeal (k n c p : bytes) : option (bytes * bytes) := Some (p, demoTag k n c p).
Definition demoOpen (k n c x g : bytes) : option bytes := if bool_decide (g = demoTag k n c x) then Some x else None.
Definition demoKey : QString := u "a".
Definition demoToken : bytes := replicate 16 5%N.
Definition demoAes : bytes := replicate 32 9%N.
Definition demoEnv : Env :=
  mkEnv None [] (λ _, false) (λ _, true) (λ _, true) (λ _, true) true true (λ _, true) (λ _, true) (λ _, true)
    true 1000 1000 demoToken (Some (replicate 12 3%N)) demoAes.
Definition demoStore : GroupSessionStore :=
  mkStore (u "/s") [] [] [] true false false ∅ ∅ [] false false None None.
Definition demoRecord : bytes := version ++ never ++ replicate 28 1%N.
Definition demoS1 : System :=
  mkSystem {[ 0%nat := demoStore; 1%nat := demoStore ]}
    {[ u "/s/" ++ digest (toUtf8 demoKey) ++ u ".state" := File demoRecord ]} [].
Abbreviation demoDo l S :=
  (run demoSeal demoOpen demoPath demoRelative id id demoAbsolute [slash]
    (map (λ x : nat * event, (x.1, demoEnv, x.2)) l) S).
Definition demoMiddle : list (nat * event) :=
  [(0%nat, GoOn); (1%nat, CallWrite demoKey (u "new") 7); (1%nat, GoOn); (1%nat, Answer (mkResult NoError demoAes));
   (1%nat, GoOn); (1%nat, CallRead demoKey 8); (1%nat, GoOn)].
Definition demoS2 : System := default demoS1 (demoDo [(0%nat, CallRemove demoKey 1%nat)] demoS1).
Definition demoS3 : System := default demoS1 (demoDo demoMiddle demoS2).
Definition demoS4 : System := default demoS1 (demoDo [(1%nat, Answer (mkResult NoError demoAes))] demoS3).
Definition demoReader : GroupSessionStore := default demoStore (stores demoS4 !! 1%nat).
Definition demoRequest : Request := mkRequest Read demoKey [] 8 1 demoToken 11000.
Definition defined {A} (o : option A) : bool := match o with Some _ => true | None => false end.
Lemma default_some {A} (d : A) (o : option A) : defined o = true → o = Some (default d o).
Proof. by destruct o. Qed.
Lemma demo_one i e S :
  defined (demoDo [(i, e)] S) = true →
  advance demoSeal demoOpen demoPath demoRelative id id demoAbsolute [slash] i demoEnv e S = Some (default demoS1 (demoDo [(i, e)] S)).
Proof. cbn [map run fst snd]. by destruct (advance _ _ _ _ _ _ _ _ _ _ _ _). Qed.

Lemma revoked_stays_revoked_witness :
  ∃ r' aes' sealed, Sealed r' aes' sealed ∈ drop (List.length (trace demoS2)) (trace demoS4) ∧ generation r' = demoToken
    ∧ (u "new" = data r' ∨ ∃ aes, u "new" = openSocietyState demoOpen sealed aes (context demoKey ++ demoToken)).
Proof.
  refine (proj2 (proj2 (revoked_stays_revoked demoSeal demoOpen demoPath demoRelative id id demoAbsolute [slash]
    demoS1 0 demoEnv demoKey 1 demoS2 demoS3 1 demoEnv (Answer (mkResult NoError demoAes)) demoS4 demoReader demoRequest (u "new")
    _ _ _ _ _ _ _ _ _ _)) _).
  - done.
  - split.
    + intros p b Hp. unfold demoS1 in Hp. cbn [files] in Hp. apply lookup_singleton_Some in Hp as [_ [= <-]]. by vm_compute.
    + intros i s Hi. unfold demoS1 in Hi. cbn [stores] in Hi. apply lookup_insert_Some in Hi as [[_ <-]|[_ Hi]]; [done|].
      by apply lookup_singleton_Some in Hi as [_ <-].
  - apply demo_one. by vm_compute.
  - by vm_compute.
  - apply (run_steps _ _ _ _ _ _ _ _ (map (λ x : nat * event, (x.1, demoEnv, x.2)) demoMiddle)); [by repeat constructor|].
    apply default_some. by vm_compute.
  - done.
  - apply demo_one. by vm_compute.
  - apply default_some. by vm_compute.
  - vm_compute. by left.
  - done.
  - by vm_compute.
Defined.
End GroupState.
