(* ===== verification/Pairing.v ===== *)
(** Pairing without the user, src/Discovery/AutomaticPairing.cpp: the choice of a leader,
    the queue, the attempts and their delays. The discovery (NearbyDevices) and the
    transport (LanPeer) are what the handlers ask and command. *)
From S2P Require Import Prelude Qt Records.
Open Scope Z_scope.

Module Pairing.

(** What the handlers ask others to do, in order. *)
Inductive action :=
| Changed | Cancel | Complete | Decline | CancelPairing | Stop | Host | Offer (id : QString) | Invite (id : QString)
| Accept | Join (link : QString) | Confirm | Prove (code : QString) | Schedule.

Record AutomaticPairing := mkPairing {
  queue : list QString; current : QString; leader : QString;
  retryAt : gmap QString Z; attempts : gmap QString Z; deadline : Z;
  enabled : bool; pumping : bool; ownsTransport : bool; scheduled : bool;
  log : list action
}.
Definition initial : AutomaticPairing := mkPairing [] [] [] ∅ ∅ 0 true false false false [].
Definition emit (a : action) (s : AutomaticPairing) : AutomaticPairing :=
  mkPairing (queue s) (current s) (leader s) (retryAt s) (attempts s) (deadline s) (enabled s) (pumping s)
    (ownsTransport s) (scheduled s) (log s ++ [a]).
Definition set_queue (q : list QString) (s : AutomaticPairing) : AutomaticPairing :=
  mkPairing q (current s) (leader s) (retryAt s) (attempts s) (deadline s) (enabled s) (pumping s)
    (ownsTransport s) (scheduled s) (log s).
Definition set_current (c : QString) (s : AutomaticPairing) : AutomaticPairing :=
  mkPairing (queue s) c (leader s) (retryAt s) (attempts s) (deadline s) (enabled s) (pumping s)
    (ownsTransport s) (scheduled s) (log s).
Definition set_leader (l : QString) (s : AutomaticPairing) : AutomaticPairing :=
  mkPairing (queue s) (current s) l (retryAt s) (attempts s) (deadline s) (enabled s) (pumping s)
    (ownsTransport s) (scheduled s) (log s).
Definition set_retries (r a : gmap QString Z) (s : AutomaticPairing) : AutomaticPairing :=
  mkPairing (queue s) (current s) (leader s) r a (deadline s) (enabled s) (pumping s)
    (ownsTransport s) (scheduled s) (log s).
Definition set_deadline (t : Z) (s : AutomaticPairing) : AutomaticPairing :=
  mkPairing (queue s) (current s) (leader s) (retryAt s) (attempts s) t (enabled s) (pumping s)
    (ownsTransport s) (scheduled s) (log s).
Definition set_enabled (b : bool) (s : AutomaticPairing) : AutomaticPairing :=
  mkPairing (queue s) (current s) (leader s) (retryAt s) (attempts s) (deadline s) b (pumping s)
    (ownsTransport s) (scheduled s) (log s).
Definition set_pumping (b : bool) (s : AutomaticPairing) : AutomaticPairing :=
  mkPairing (queue s) (current s) (leader s) (retryAt s) (attempts s) (deadline s) (enabled s) b
    (ownsTransport s) (scheduled s) (log s).
Definition set_owns (b : bool) (s : AutomaticPairing) : AutomaticPairing :=
  mkPairing (queue s) (current s) (leader s) (retryAt s) (attempts s) (deadline s) (enabled s) (pumping s)
    b (scheduled s) (log s).
Definition set_scheduled (b : bool) (s : AutomaticPairing) : AutomaticPairing :=
  mkPairing (queue s) (current s) (leader s) (retryAt s) (attempts s) (deadline s) (enabled s) (pumping s)
    (ownsTransport s) b (log s).
Definition active (s : AutomaticPairing) : bool := negb (isEmpty (current s)).

(** A device of the discovery's list. *)
Record Row := mkRow { id : QString; verified : bool; autoHost : bool; primary : QString }.
(** Signals that a command sends back before it returns. *)
Inductive signal := Updated | InvitationEnded | Paired (id : QString) | IdentityEnding.
Record Reply := mkReply { signals : list signal; result : bool }.
(** The answers of one round; each question is asked where the code asks it. *)
Record View := mkView {
  authenticated : bool; devices : list Row; automaticHostAvailable : bool; deviceId : QString;
  primaryHost : QString; incoming : bool; incomingAutomatic : bool; incomingId : QString;
  connected : bool; pairedDeviceIds : list QString; phase : QString;
  remoteVerificationCode : QString; verificationCode : QString; now : Z;
  link : QString; joining : Reply; hosting : Reply; inviting : Reply; confirming : Reply;
  offering : list signal
}.

Definition schedule (s : AutomaticPairing) : AutomaticPairing :=
  if scheduled s then s else emit Schedule (set_scheduled true s).
(** NearbyDevices::cancel, decline, complete and accept announce a change, which
    schedules a round. *)
Definition nearby (a : action) (s : AutomaticPairing) : AutomaticPairing := schedule (emit a s).
Definition reset (s : AutomaticPairing) : AutomaticPairing :=
  let owned := ownsTransport s in
  let s := set_retries ∅ ∅ (set_leader [] (set_queue [] (set_current [] (set_owns false s)))) in
  let s := if owned then emit Stop (nearby Cancel s) else s in
  emit Changed s.
Definition setEnabled (b : bool) (s : AutomaticPairing) : AutomaticPairing :=
  if eqb (enabled s) b then s else
  let s := set_enabled b s in
  let s := if b then s
           else set_queue [] (set_current [] (if active s then emit CancelPairing (nearby Cancel s) else s)) in
  let s := emit Changed s in
  if b then schedule s else s.
(** How long to wait after that many failures in a row. *)
Definition delay (n : Z) : Z := Z.min 8000 (250 * Z.shiftl 1 (n - 1)).
Definition attemptsOf (s : AutomaticPairing) (d : QString) : Z := default 0 (attempts s !! d).
Definition retryOf (s : AutomaticPairing) (d : QString) : Z := default 0 (retryAt s !! d).
Definition finish (t : Z) (success : bool) (s : AutomaticPairing) : AutomaticPairing :=
  if isEmpty (current s) then s else
  let d := current s in
  let s := set_current [] s in
  let s := if success then nearby Complete (set_retries (delete d (retryAt s)) (delete d (attempts s)) s)
           else
             let n := Z.min (attemptsOf s d + 1) 5 in
             emit CancelPairing (nearby Cancel (set_retries (<[d := t + delay n]> (retryAt s)) (<[d := n]> (attempts s)) s)) in
  schedule (emit Changed s).
Definition handle (t : Z) (s : AutomaticPairing) (x : signal) : AutomaticPairing :=
  match x with
  | Updated => schedule s
  | InvitationEnded => if active s then finish t false s else s
  | Paired d => if bool_decide (d = current s) then finish t true s else s
  | IdentityEnding => reset s
  end.
Definition receive (t : Z) (l : list signal) (s : AutomaticPairing) : AutomaticPairing := foldl (handle t) s l.
(** Command others; they may signal back before they answer. *)
Definition command (t : Z) (a : action) (r : Reply) (s : AutomaticPairing) : bool * AutomaticPairing :=
  (result r, receive t (signals r) (emit a s)).

Inductive status_ := Paused | SignedOut | Busy | Waiting (n : Z) | NoHost | Ready.
Definition status (authenticated : bool) (s : AutomaticPairing) : status_ :=
  if negb (enabled s) then Paused
  else if negb authenticated then SignedOut
  else if active s then Busy
  else match queue s with
       | _ :: _ => Waiting (Z.of_nat (List.length (queue s)))
       | [] => if isEmpty (leader s) then NoHost else Ready
       end.
Definition queueState (t : Z) (s : AutomaticPairing) : list (QString * QString) :=
  map (λ d, (d, if bool_decide (d = current s) then u "connecting" else if t <? retryOf s d then u "retrying" else u "queued"))
    (queue s).

(** std::sort of strings. *)
Definition sorted (l : list QString) : list QString := merge_sort qle l.
Definition first (l : list QString) : QString := default [] (head l).

Section pump.
Variable V : View.
Definition verifiedRows : list Row := List.filter verified (devices V).
Definition deviceIds : list QString := sorted (map id verifiedRows).
Definition hosts : list QString :=
  sorted (map id (List.filter autoHost verifiedRows) ++ (if automaticHostAvailable V then [deviceId V] else [])).
Definition established : list QString :=
  sorted (removeDuplicates (List.filter (λ p, negb (isEmpty p)) (map primary verifiedRows))).
(** Who leads, before the connection in hand is considered. *)
Definition elected : QString :=
  if negb (isEmpty (primaryHost V)) then primaryHost V
  else match established with [] => first hosts | p :: _ => p end.
Definition leaderOf (s : AutomaticPairing) : QString :=
  if isEmpty (primaryHost V) && ownsTransport s && connected V && negb (bool_decide (leader s ∈ deviceIds))
  then leader s else elected.
Definition isHost (l : QString) : bool := negb (isEmpty l) && bool_decide (l = deviceId V).
Definition changeLeader (l : QString) (s : AutomaticPairing) : AutomaticPairing :=
  if bool_decide (l = leader s) then s else
  let s := if active s then finish (now V) false s else s in
  let s := if ownsTransport s then emit Stop (set_owns false s) else s in
  emit Changed (set_leader l s).
Definition queueOf (l : QString) : list QString :=
  List.filter (λ d, negb (bool_decide (d ∈ pairedDeviceIds V)) && (isHost l || bool_decide (d = l))) deviceIds.
Definition updateQueue (l : QString) (s : AutomaticPairing) : AutomaticPairing :=
  if bool_decide (queueOf l = queue s) then s else emit Changed (set_queue (queueOf l) s).
(** Forget the failures of devices that are gone. *)
Definition forget (s : AutomaticPairing) : AutomaticPairing :=
  foldl (λ s d, if bool_decide (d ∈ deviceIds) then s
                else set_retries (delete d (retryAt s)) (delete d (attempts s)) s)
    s (map fst (map_to_list (retryAt s))).
Definition supervise (l : QString) (s : AutomaticPairing) : AutomaticPairing :=
  if negb (bool_decide (current s ∈ deviceIds)) || (deadline s <=? now V) || bool_decide (phase V = u "error")
  then finish (now V) false s
  else if bool_decide (phase V = u "confirming") then
    if isHost l then
      if isEmpty (remoteVerificationCode V) then s
      else if bool_decide (remoteVerificationCode V ≠ verificationCode V) then finish (now V) false s
      else let (ok, s) := command (now V) Confirm (confirming V) s in
           if ok then s else finish (now V) false s
    else emit (Prove (verificationCode V)) s
  else s.
Definition answerInvitation (l : QString) (s : AutomaticPairing) : AutomaticPairing :=
  if isHost l || bool_decide (incomingId V ≠ l) || bool_decide (l ∈ pairedDeviceIds V) then nearby Decline s
  else
    let s := set_deadline (now V + 20000) (set_current l s) in
    let s := set_owns true (nearby Accept s) in
    let (ok, s) := if isEmpty (link V) then (false, s) else command (now V) (Join (link V)) (joining V) s in
    emit Changed (if ok then s else finish (now V) false s).
Definition busyPhase : bool :=
  bool_decide (phase V ∈ [u "showing"; u "connecting"; u "verifying"; u "confirming"]).
Definition inviteDevice (d : QString) (s : AutomaticPairing) : AutomaticPairing :=
  let s := set_owns true (set_deadline (now V + 20000) (set_current d s)) in
  let (ok, s) := command (now V) Host (hosting V) s in
  let (ok, s) := if ok then command (now V) (Invite d) (inviting V) (receive (now V) (offering V) (emit (Offer d) s))
                 else (false, s) in
  emit Changed (if ok then s else finish (now V) false s).
Fixpoint inviteNext (l : list QString) (s : AutomaticPairing) : AutomaticPairing :=
  match l with
  | [] => s
  | d :: rest => if now V <? retryOf s d then inviteNext rest s else inviteDevice d s
  end.
Definition round (s : AutomaticPairing) : AutomaticPairing :=
  let l := leaderOf s in
  let s := forget (updateQueue l (changeLeader l s)) in
  if active s then supervise l s
  else if incoming V && incomingAutomatic V then answerInvitation l s
  else if negb (isHost l) || bool_decide (queue s = []) || incoming V then s
  else if busyPhase then s
  else inviteNext (queue s) s.
Definition pump (s : AutomaticPairing) : AutomaticPairing :=
  if pumping s || negb (authenticated V) then s
  else if negb (enabled s) then (if incomingAutomatic V then nearby Decline s else s)
  else set_pumping false (round (set_pumping true s)).
(** The zero timer of [schedule]. *)
Definition wake (s : AutomaticPairing) : AutomaticPairing := pump (set_scheduled false s).
End pump.

(** What reaches the object: its two timers, the application, and signals of others. *)
Inductive event := Tick (V : View) | Wake (V : View) | SetEnabled (b : bool) | Signal (t : Z) (x : signal).
Definition react (e : event) (s : AutomaticPairing) : AutomaticPairing :=
  match e with
  | Tick V => pump V s
  | Wake V => wake V s
  | SetEnabled b => setEnabled b s
  | Signal t x => handle t s x
  end.
Definition clock (e : event) : option Z :=
  match e with Tick V | Wake V => Some (now V) | SetEnabled _ => None | Signal t _ => Some t end.

(** ** The failures that are remembered *)
(** Every counted device has a time, none has failed more than five times in a row, and
    none waits longer than four seconds after [t]. *)
Record wf (t : Z) (s : AutomaticPairing) : Prop := {
  wf_dom : dom (retryAt s) = dom (attempts s);
  wf_attempts : map_Forall (λ _ n, 1 ≤ n ≤ 5) (attempts s);
  wf_retry : map_Forall (λ _ r, r ≤ t + 4000) (retryAt s)
}.
(** The attempts to connect that were started. *)
Definition starts (l : list action) : list action :=
  List.filter (λ a, match a with Invite _ | Join _ => true | _ => false end) l.

Lemma delay_range n : 1 ≤ n ≤ 5 → delay n = 250 * 2 ^ (n - 1) ∧ 250 ≤ delay n ≤ 4000.
Proof.
  intros Hn. unfold delay. rewrite Z.shiftl_mul_pow2, Z.mul_1_l by lia.
  assert (2 ^ 0 ≤ 2 ^ (n - 1) ≤ 2 ^ 4) as H by (split; apply Z.pow_le_mono_r; lia).
  change (2 ^ 0) with 1 in H. change (2 ^ 4) with 16 in H. lia.
Qed.
(** [same]: the same failures and the same started attempts. *)
Definition same (s s' : AutomaticPairing) : Prop :=
  retryAt s' = retryAt s ∧ attempts s' = attempts s ∧ starts (log s') = starts (log s).
Lemma starts_app l k : starts (l ++ k) = starts l ++ starts k.
Proof. apply List.filter_app. Qed.
Lemma emit_starts a s : match a with Invite _ | Join _ => False | _ => True end → starts (log (emit a s)) = starts (log s).
Proof. intros H. cbn [log emit]. rewrite starts_app. destruct a; try done; by rewrite app_nil_r. Qed.
Lemma schedule_same s : same s (schedule s).
Proof. unfold schedule, same. destruct (scheduled s); [done|]. by rewrite emit_starts. Qed.
Lemma same_trans a b c : same a b → same b c → same a c.
Proof. unfold same. naive_solver congruence. Qed.
Lemma nearby_same a s : match a with Invite _ | Join _ => False | _ => True end → same s (nearby a s).
Proof.
  intros Ha. eapply same_trans; [|apply schedule_same]. split_and!; [done|done|]. by apply emit_starts.
Qed.
Lemma nearby_starts a s : match a with Invite _ | Join _ => False | _ => True end → starts (log (nearby a s)) = starts (log s).
Proof. intros Ha. by apply nearby_same. Qed.
Lemma same_wf t s s' : same s s' → wf t s → wf t s'.
Proof. intros (H1 & H2 & _) [? ? ?]. split; by rewrite ?H1, ?H2. Qed.

Lemma wf_mono t t' s : t ≤ t' → wf t s → wf t' s.
Proof. intros Ht [H1 H2 H3]. split; [done|done|]. intros d r Hr. specialize (H3 d r Hr). cbn in *. lia. Qed.
Lemma wf_delete t d s : wf t s → wf t (set_retries (delete d (retryAt s)) (delete d (attempts s)) s).
Proof.
  intros [H1 H2 H3]. split; cbn.
  - by rewrite !dom_delete_L, H1.
  - by apply map_Forall_delete.
  - by apply map_Forall_delete.
Qed.
Lemma attemptsOf_range t s d : wf t s → 0 ≤ attemptsOf s d ≤ 5.
Proof.
  intros [_ H _]. unfold attemptsOf. destruct (attempts s !! d) as [n|] eqn:E; cbn; [|lia]. specialize (H d n E). cbn in H. lia.
Qed.
Definition fail_retries (t : Z) (s : AutomaticPairing) : AutomaticPairing :=
  let n := Z.min (attemptsOf s (current s) + 1) 5 in
  set_retries (<[current s := t + delay n]> (retryAt s)) (<[current s := n]> (attempts s)) s.
Lemma wf_fail t t' s : t ≤ t' → wf t s → wf t' (fail_retries t' s).
Proof.
  intros Ht Hw. pose proof (attemptsOf_range t s (current s) Hw) as Hn.
  assert (1 ≤ Z.min (attemptsOf s (current s) + 1) 5 ≤ 5) as Hr by lia. pose proof (delay_range _ Hr) as [_ Hd].
  apply (wf_mono t t') in Hw as [H1 H2 H3]; [|done]. split; cbn.
  - by rewrite !dom_insert_L, H1.
  - by apply map_Forall_insert_2.
  - apply map_Forall_insert_2; [lia|done].
Qed.
Lemma finish_false t s :
  same (if isEmpty (current s) then s else fail_retries t s) (finish t false s).
Proof.
  unfold finish. destruct (isEmpty (current s)); [done|]. eapply same_trans; [|apply schedule_same].
  split_and!; [unfold nearby, schedule; cbn; by destruct (scheduled s)..|].
  rewrite !emit_starts by done. rewrite nearby_starts by done. done.
Qed.
Lemma finish_true t s :
  same (if isEmpty (current s) then s
        else set_retries (delete (current s) (retryAt s)) (delete (current s) (attempts s)) s) (finish t true s).
Proof.
  unfold finish. destruct (isEmpty (current s)); [done|]. eapply same_trans; [|apply schedule_same].
  split_and!; [unfold nearby, schedule; cbn; by destruct (scheduled s)..|].
  rewrite !emit_starts by done. rewrite nearby_starts by done. done.
Qed.
(** An operation remembers well-formed failures and starts no attempt. *)
Definition keeps (t : Z) (s s' : AutomaticPairing) : Prop := wf t s' ∧ starts (log s') = starts (log s).
Lemma same_keeps t s s' : wf t s → same s s' → keeps t s s'.
Proof. intros Hw Hs. split; [by eapply same_wf|]. apply Hs. Qed.
Lemma keeps_trans t a b c : keeps t a b → keeps t b c → keeps t a c.
Proof. intros [_ H1] [H2 H3]. split; [done|congruence]. Qed.
Lemma finish_keeps t b s : wf t s → keeps t s (finish t b s).
Proof.
  intros Hw. destruct b.
  - destruct (finish_true t s) as (H1 & H2 & H3). split.
    + eapply same_wf; [apply finish_true|]. destruct (isEmpty (current s)); [done|]. by apply wf_delete.
    + rewrite H3. by destruct (isEmpty (current s)).
  - destruct (finish_false t s) as (H1 & H2 & H3). split.
    + eapply same_wf; [apply finish_false|]. destruct (isEmpty (current s)); [done|]. by eapply wf_fail.
    + rewrite H3. by destruct (isEmpty (current s)).
Qed.
Lemma reset_keeps t s : keeps t s (reset s).
Proof.
  unfold reset. split.
  - destruct (ownsTransport s); unfold nearby, schedule; cbn; [destruct (scheduled s)|]; by split.
  - rewrite emit_starts by done. destruct (ownsTransport s); [|done]. rewrite emit_starts by done.
    by rewrite nearby_starts.
Qed.
Lemma handle_keeps t x s : wf t s → keeps t s (handle t s x).
Proof.
  intros Hw. destruct x as [| |d|]; cbn [handle].
  - apply same_keeps; [done|apply schedule_same].
  - destruct (active s); [by apply finish_keeps|by apply same_keeps].
  - case_bool_decide; [by apply finish_keeps|by apply same_keeps].
  - apply reset_keeps.
Qed.
Lemma receive_keeps t l s : wf t s → keeps t s (receive t l s).
Proof.
  unfold receive. revert s. induction l as [|x l IH]; intros s Hw; cbn; [by apply same_keeps|].
  pose proof (handle_keeps t x s Hw) as H. eapply keeps_trans; [exact H|]. apply IH, H.
Qed.
Lemma setEnabled_keeps t b s : wf t s → keeps t s (setEnabled b s).
Proof.
  intros Hw. unfold setEnabled. destruct (eqb (enabled s) b); [by apply same_keeps|].
  apply same_keeps; [done|]. destruct b.
  - eapply same_trans; [|apply schedule_same]. split_and!; [done|done|by rewrite emit_starts].
  - split_and!.
    + by destruct (active _); unfold nearby, schedule; cbn; [destruct (scheduled s)|].
    + by destruct (active _); unfold nearby, schedule; cbn; [destruct (scheduled s)|].
    + rewrite emit_starts by done. cbn [log set_queue set_current]. destruct (active _); [|done].
      rewrite emit_starts by done. by rewrite nearby_starts.
Qed.

Section pump_lemmas.
Variable V : View.
Abbreviation t := (now V).
Lemma changeLeader_keeps l s : wf t s → keeps t s (changeLeader V l s).
Proof.
  intros Hw. unfold changeLeader. case_bool_decide; [by apply same_keeps|].
  assert (keeps t s (if active s then finish t false s else s)) as H1.
  { destruct (active s); [by apply finish_keeps|by apply same_keeps]. }
  revert H1. generalize (if active s then finish t false s else s). intros s1 [Hw1 H1].
  split; [by destruct (ownsTransport s1); split; apply Hw1|].
  rewrite emit_starts by done. cbn [log set_leader]. destruct (ownsTransport s1); [|done]. by rewrite emit_starts.
Qed.
Lemma updateQueue_keeps l s : wf t s → keeps t s (updateQueue V l s).
Proof.
  intros Hw. unfold updateQueue. case_bool_decide; [by apply same_keeps|]. apply same_keeps; [done|].
  split_and!; [done|done|by rewrite emit_starts].
Qed.
Lemma forget_keeps s : wf t s → keeps t s (forget V s).
Proof.
  unfold forget. generalize (map fst (map_to_list (retryAt s))). intros l. revert s.
  induction l as [|d l IH]; intros s Hw; cbn [foldl]; [by apply same_keeps|].
  assert (keeps t s (if bool_decide (d ∈ deviceIds V) then s else set_retries (delete d (retryAt s)) (delete d (attempts s)) s)) as H.
  { case_bool_decide; [by apply same_keeps|]. split; [by apply wf_delete|done]. }
  eapply keeps_trans; [exact H|]. apply IH, H.
Qed.
Lemma command_keeps a r s ok s' :
  match a with Invite _ | Join _ => False | _ => True end → wf t s → command t a r s = (ok, s') → keeps t s s'.
Proof.
  intros Ha Hw. unfold command. intros [= _ <-].
  assert (same s (emit a s)) as Hs by (split_and!; [done|done|by rewrite emit_starts]).
  apply (keeps_trans t s (emit a s)); [by apply same_keeps|]. apply receive_keeps. by eapply same_wf.
Qed.
(** One attempt is started by the command itself. *)
Lemma command_starts a r s ok s' :
  match a with Invite _ | Join _ => True | _ => False end → wf t s → command t a r s = (ok, s') →
  wf t s' ∧ starts (log s') = starts (log s) ++ [a].
Proof.
  intros Ha Hw. unfold command. intros [= _ <-].
  assert (wf t (emit a s)) as He by (by split; apply Hw). pose proof (receive_keeps t (signals r) _ He) as [H1 H2].
  split; [done|]. rewrite H2. cbn [log emit]. rewrite starts_app. f_equal. by destruct a.
Qed.
Lemma supervise_keeps l s : wf t s → keeps t s (supervise V l s).
Proof.
  intros Hw. unfold supervise. destruct (_ || _); [by apply finish_keeps|].
  case_bool_decide; [|by apply same_keeps]. destruct (isHost V l).
  - destruct (isEmpty _); [by apply same_keeps|]. case_bool_decide; [by apply finish_keeps|].
    destruct (command t Confirm (confirming V) s) as [ok s1] eqn:Ec. apply command_keeps in Ec; [|done|done].
    destruct ok; [done|]. eapply keeps_trans; [exact Ec|]. apply finish_keeps, Ec.
  - apply same_keeps; [done|]. split_and!; [done|done|by rewrite emit_starts].
Qed.
(** An optional failure and the announcement at the end of an attempt. *)
Lemma conclude_keeps (ok : bool) s : wf t s → keeps t s (emit Changed (if ok then s else finish t false s)).
Proof.
  intros Hw. assert (keeps t s (if ok then s else finish t false s)) as [H1 H2].
  { destruct ok; [by apply same_keeps|by apply finish_keeps]. }
  split; [by split; apply H1|]. by rewrite emit_starts.
Qed.
Lemma answerInvitation_starts l s :
  wf t s → wf t (answerInvitation V l s) ∧
  (starts (log (answerInvitation V l s)) = starts (log s)
   ∨ starts (log (answerInvitation V l s)) = starts (log s) ++ [Join (link V)]
     ∧ isHost V l = false ∧ incomingId V = l ∧ l ∉ pairedDeviceIds V).
Proof.
  intros Hw. unfold answerInvitation.
  destruct (isHost V l || bool_decide (incomingId V ≠ l) || bool_decide (l ∈ pairedDeviceIds V)) eqn:Eb.
  { split; [|left; by rewrite nearby_starts]. by eapply same_wf; [apply nearby_same|]. }
  apply orb_false_iff in Eb as [Eb Hp]. apply orb_false_iff in Eb as [Hh Hl].
  apply bool_decide_eq_false in Hp. apply bool_decide_eq_false in Hl.
  set (s1 := set_owns true _).
  assert (keeps t s s1) as [Hw1 Hs1].
  { split; [|by unfold s1; cbn [log set_owns]; rewrite nearby_starts].
    assert (wf t (nearby Accept (set_deadline (now V + 20000) (set_current l s)))) as H; [|by split; apply H].
    eapply same_wf; [by apply nearby_same|]. by split; apply Hw. }
  destruct (isEmpty (link V)).
  - destruct (conclude_keeps false s1 Hw1) as [H1 H2]. split; [done|]. left. by rewrite H2.
  - destruct (command t (Join (link V)) (joining V) s1) as [ok s2] eqn:Ec. apply command_starts in Ec as [Hw2 Hs2]; [|done|done].
    destruct (conclude_keeps ok s2 Hw2) as [H1 H2]. split; [done|]. right. rewrite H2, Hs2, Hs1.
    split_and!; try done. by apply dec_stable.
Qed.
Lemma inviteDevice_starts d s :
  wf t s → wf t (inviteDevice V d s) ∧
  (starts (log (inviteDevice V d s)) = starts (log s) ∨ starts (log (inviteDevice V d s)) = starts (log s) ++ [Invite d]).
Proof.
  intros Hw. unfold inviteDevice. set (s1 := set_owns true _).
  assert (wf t s1) as Hw1 by (by split; apply Hw). assert (log s1 = log s) as Hl by done.
  destruct (command t Host (hosting V) s1) as [ok s2] eqn:Ec. apply command_keeps in Ec as [Hw2 Hs2]; [|done|done].
  destruct ok.
  - assert (wf t (emit (Offer d) s2)) as Hw3 by (by split; apply Hw2).
    pose proof (receive_keeps t (offering V) _ Hw3) as [Hw4 Hs4].
    destruct (command t (Invite d) (inviting V) (receive t (offering V) (emit (Offer d) s2))) as [ok s5] eqn:Ec.
    apply command_starts in Ec as [Hw5 Hs5]; [|done|done]. destruct (conclude_keeps ok s5 Hw5) as [H1 H2].
    split; [done|]. right. by rewrite H2, Hs5, Hs4, emit_starts, Hs2, Hl.
  - destruct (conclude_keeps false s2 Hw2) as [H1 H2]. split; [done|]. left. by rewrite H2, Hs2, Hl.
Qed.
Lemma inviteNext_starts l s :
  wf t s → wf t (inviteNext V l s) ∧
  (starts (log (inviteNext V l s)) = starts (log s)
   ∨ ∃ d, starts (log (inviteNext V l s)) = starts (log s) ++ [Invite d] ∧ d ∈ l ∧ retryOf s d ≤ t).
Proof.
  intros Hw. induction l as [|d l IH]; cbn [inviteNext]; [split; [done|by left]|].
  destruct (Z.ltb_spec t (retryOf s d)).
  - destruct IH as [H1 [H2|(d' & H2 & H3 & H4)]]; split; try done; [by left|right]. exists d'. split_and!; try done. by right.
  - destruct (inviteDevice_starts d s Hw) as [H1 [H2|H2]]; split; try done; [by left|right].
    exists d. split_and!; [done|by left|done].
Qed.
End pump_lemmas.

Section rounds.
Variable V : View.
Abbreviation t := (now V).
Lemma changeLeader_retry l s d : wf t s → retryOf (changeLeader V l s) d ≤ t → retryOf s d ≤ t.
Proof.
  intros Hw. unfold changeLeader. case_bool_decide; [done|].
  set (s1 := if active s then finish t false s else s).
  assert (retryOf (emit Changed (set_leader l (if ownsTransport s1 then emit Stop (set_owns false s1) else s1))) d = retryOf s1 d) as ->
    by (by destruct (ownsTransport s1)).
  unfold s1. destruct (active s); [|done]. unfold retryOf. rewrite (proj1 (finish_false t s)).
  destruct (isEmpty (current s)); [done|]. cbn. destruct (decide (d = current s)) as [->|Hne].
  - rewrite lookup_insert_eq. cbn. intros Hle. pose proof (attemptsOf_range t s (current s) Hw) as Hn.
    pose proof (delay_range (Z.min (attemptsOf s (current s) + 1) 5) ltac:(lia)) as [_ Hd]. lia.
  - by rewrite lookup_insert_ne.
Qed.
Lemma forget_retry s d : d ∈ deviceIds V → retryOf (forget V s) d = retryOf s d.
Proof.
  intros Hd. unfold forget. generalize (map fst (map_to_list (retryAt s))). intros l. revert s.
  induction l as [|x l IH]; intros s; cbn [foldl]; [done|]. rewrite IH. case_bool_decide as Hx; [done|].
  unfold retryOf. cbn. rewrite lookup_delete_ne; [done|]. by intros ->.
Qed.
Lemma forget_queue s : queue (forget V s) = queue s.
Proof.
  unfold forget. generalize (map fst (map_to_list (retryAt s))). intros l. revert s.
  induction l as [|x l IH]; intros s; cbn [foldl]; [done|]. rewrite IH. by case_bool_decide.
Qed.
Lemma updateQueue_queue l s : queue (updateQueue V l s) = queueOf V l.
Proof. unfold updateQueue. by case_bool_decide. Qed.
Lemma updateQueue_retry l s d : retryOf (updateQueue V l s) d = retryOf s d.
Proof. unfold updateQueue. by case_bool_decide. Qed.

(** When an attempt may start, and which. *)
Definition mayStart (s : AutomaticPairing) (a : action) : Prop :=
  match a with
  | Invite d => isHost V (leaderOf V s) = true ∧ d ∈ deviceIds V ∧ d ∉ pairedDeviceIds V ∧ retryOf s d ≤ now V
                ∧ incoming V = false ∧ busyPhase V = false
  | Join k => k = link V ∧ incoming V = true ∧ incomingAutomatic V = true ∧ isHost V (leaderOf V s) = false
              ∧ incomingId V = leaderOf V s ∧ leaderOf V s ∉ pairedDeviceIds V
  | _ => False
  end.
Lemma queueOf_elem l d : d ∈ queueOf V l → d ∈ deviceIds V ∧ d ∉ pairedDeviceIds V.
Proof.
  unfold queueOf. rewrite list_elem_of_filter_bool. intros [H Hd]. apply andb_true_iff in H as [H _].
  apply negb_true_iff, bool_decide_eq_false in H. done.
Qed.
Lemma round_starts s :
  wf t s → wf t (round V s) ∧
  (starts (log (round V s)) = starts (log s) ∨ ∃ a, starts (log (round V s)) = starts (log s) ++ [a] ∧ mayStart s a).
Proof.
  intros Hw. unfold round. set (l := leaderOf V s).
  pose proof (changeLeader_keeps V l s Hw) as H1. pose proof (updateQueue_keeps V l _ (proj1 H1)) as H2.
  pose proof (forget_keeps V _ (proj1 H2)) as H3. set (s3 := forget V _) in *.
  assert (keeps t s s3) as [Hw3 Hs3] by (by eapply keeps_trans; [|eapply keeps_trans]).
  assert (∀ s', keeps t s3 s' → wf t s' ∧ (starts (log s') = starts (log s)
    ∨ ∃ a, starts (log s') = starts (log s) ++ [a] ∧ mayStart s a)) as Hquiet.
  { intros s' [Hw' Hs']. split; [done|]. left. congruence. }
  destruct (active s3); [by apply Hquiet, supervise_keeps|].
  destruct (incoming V && incomingAutomatic V) eqn:Ei.
  { apply andb_true_iff in Ei as [Ei1 Ei2]. destruct (answerInvitation_starts V l s3 Hw3) as [Hw4 [H|(H & Hh & Hl & Hp)]]; (split; [done|]).
    - left. congruence.
    - right. exists (Join (link V)). rewrite H, Hs3. done. }
  destruct (isHost V l) eqn:Eh; [|by apply Hquiet, same_keeps]. cbn [negb orb].
  case_bool_decide; [by apply Hquiet, same_keeps|]. cbn [orb]. destruct (incoming V) eqn:Einc; [by apply Hquiet, same_keeps|].
  destruct (busyPhase V) eqn:Eb; [by apply Hquiet, same_keeps|].
  destruct (inviteNext_starts V (queue s3) s3 Hw3) as [Hw4 [H4|(d & H4 & Hd & Hr)]]; (split; [done|]).
  - left. congruence.
  - right. exists (Invite d). split; [by rewrite H4, Hs3|]. unfold s3 in Hd. rewrite forget_queue, updateQueue_queue in Hd.
    destruct (queueOf_elem l d Hd) as [Hd1 Hd2]. split_and!; try done. unfold s3 in Hr.
    rewrite forget_retry, updateQueue_retry in Hr by done. by eapply changeLeader_retry.
Qed.
Lemma mayStart_pumping s b a : mayStart (set_pumping b s) a = mayStart s a.
Proof. by destruct a. Qed.
Lemma pump_starts s :
  wf t s → wf t (pump V s) ∧
  (starts (log (pump V s)) = starts (log s)
   ∨ ∃ a, starts (log (pump V s)) = starts (log s) ++ [a] ∧ authenticated V = true ∧ enabled s = true ∧ mayStart s a).
Proof.
  intros Hw. unfold pump. destruct (pumping s) eqn:Ep; [split; [done|by left]|].
  destruct (authenticated V); [|split; [done|by left]]. cbn [orb negb].
  destruct (enabled s); cbn [negb].
  - assert (wf t (set_pumping true s)) as Hw1 by (by split; apply Hw).
    destruct (round_starts _ Hw1) as [H1 H2]. split; [by split; apply H1|].
    destruct H2 as [H2|(a & H2 & H3)]; [by left|right]. exists a. by rewrite mayStart_pumping in H3.
  - destruct (incomingAutomatic V); [|split; [done|by left]].
    split; [by eapply same_wf; [apply nearby_same|]|left]. by rewrite nearby_starts.
Qed.
End rounds.

(** C33: Pairing without the user keeps its discipline through every event. The failures
    it remembers stay well formed: a time for each counted device, one to five failures,
    nobody waits longer than four seconds; a failure number n delays the next attempt by
    250 times 2^(n-1) milliseconds, so the cap of eight seconds is never reached. And an
    event starts at most one attempt, only while automatic pairing is enabled and
    authenticated: an invitation only from the elected leader, to a verified device that
    is not connected and whose delay is over, while no invitation or offer is open; or
    the answer to an automatic invitation, only from the leader and only by a device
    that is not the leader and is not connected to it. *)
Theorem attempts_disciplined e s T :
  wf T s → (∀ t, clock e = Some t → T ≤ t) →
  wf (default T (clock e)) (react e s)
  ∧ (starts (log (react e s)) = starts (log s)
     ∨ ∃ V a, (e = Tick V ∨ e = Wake V) ∧ starts (log (react e s)) = starts (log s) ++ [a]
              ∧ authenticated V = true ∧ enabled s = true ∧ mayStart V s a)
  ∧ ∀ t, active s = true →
      let n := Z.min (attemptsOf s (current s) + 1) 5 in
      attemptsOf (finish t false s) (current s) = n ∧ retryOf (finish t false s) (current s) = t + 250 * 2 ^ (n - 1)
      ∧ 250 * 2 ^ (n - 1) ≤ 4000.
Proof.
  intros Hw Ht. apply and_assoc. split.
  - destruct e as [V|V|b|t x]; cbn [clock default from_option id react] in *.
    + apply (wf_mono _ (now V)) in Hw; [|by apply Ht].
      destruct (pump_starts V s Hw) as [H1 [H2|(a & H2 & H3)]]; (split; [done|]); [by left|right]. exists V, a. tauto.
    + apply (wf_mono _ (now V)) in Hw; [|by apply Ht]. unfold wake.
      assert (wf (now V) (set_scheduled false s)) as Hw1 by (by split; apply Hw).
      destruct (pump_starts V _ Hw1) as [H1 [H2|(a & H2 & H3)]]; (split; [done|]); [by left|right]. exists V, a.
      destruct H3 as (E1 & E2 & E3). split_and!; [by right|done|done|done|by destruct a].
    + destruct (setEnabled_keeps T b s Hw) as [H1 H2]. split; [done|by left].
    + apply (wf_mono _ t) in Hw; [|by apply Ht]. destruct (handle_keeps t x s Hw) as [H1 H2]. split; [done|by left].
  - intros t Ha n. destruct (finish_false t s) as (H1 & H2 & _). unfold retryOf, attemptsOf. rewrite H1, H2.
    assert (isEmpty (current s) = false) as -> by (by apply negb_true_iff). cbn. rewrite !lookup_insert_eq. cbn.
    pose proof (attemptsOf_range T s (current s) Hw) as Hr. pose proof (delay_range n ltac:(unfold n; lia)) as [Hd Hd'].
    fold n. rewrite Hd. split_and!; [done|done|lia].
Qed.

(** A desktop that leads, and a device that failed twice and may try again. *)
Definition demoReply : Reply := mkReply [Updated] true.
Definition demoView : View :=
  mkView true [mkRow (u "b") true false []; mkRow (u "c") false true []] true (u "a") [] false false [] false [] (u "idle")
    [] [] 2000 [] demoReply demoReply demoReply demoReply [].
Definition demoState : AutomaticPairing :=
  mkPairing [] [] [] {[ u "b" := 1500 ]} {[ u "b" := 2 ]} 0 true false false false [].
Lemma attempts_disciplined_witness :
  wf 2000 (react (Tick demoView) demoState) ∧ starts (log (react (Tick demoView) demoState)) = [Invite (u "b")].
Proof.
  split; [|by vm_compute]. refine (proj1 (attempts_disciplined (Tick demoView) demoState 1000 _ _)).
  - split.
    + by vm_compute.
    + by apply map_Forall_singleton.
    + by apply map_Forall_singleton.
  - by intros t [= <-].
Defined.
End Pairing.
