(* ===== verification/Json.v ===== *)
(** The JSON of the monitor, src/Monitoring/Monitor.cpp: its bounded parser and its
    printer, on bytes. *)
From S2P Require Import Prelude Qt.
Open Scope N_scope.

Module Json.
Abbreviation bytes := (list N).
Inductive Kind := String | Number | Other.
Record Scalar := mkScalar { kind : Kind; value : bytes }.
#[global] Instance Kind_eq_dec : EqDecision Kind.
Proof. solve_decision. Defined.
#[global] Instance Scalar_eq_dec : EqDecision Scalar.
Proof. solve_decision. Defined.

(** ** The parser *)
(** The rest of the input stands for the cursor. *)
Definition white (c : N) : bool := (c =? 32) || (c =? 13) || (c =? 10) || (c =? 9).
Fixpoint space (s : bytes) : bytes :=
  match s with c :: r => if white c then space r else s | [] => [] end.
Definition take_ (c : N) (s : bytes) : bool * bytes :=
  match space s with x :: r => if x =? c then (true, r) else (false, x :: r) | [] => (false, []) end.
Definition hexDigit (c : N) : option N :=
  if (48 <=? c) && (c <=? 57) then Some (c - 48)
  else if (97 <=? c) && (c <=? 102) then Some (c - 97 + 10)
  else if (65 <=? c) && (c <=? 70) then Some (c - 65 + 10) else None.
Definition hex4 (a b c d : N) : option N :=
  let? x := hexDigit a in let? y := hexDigit b in let? z := hexDigit c in let? w := hexDigit d in
  Some (((x * 16 + y) * 16 + z) * 16 + w).
(** The UTF-8 bytes of a code point. *)
Definition append (c : N) : bytes :=
  if c <? 128 then [c]
  else if c <? 2048 then [N.lor 192 (N.shiftr c 6); N.lor 128 (N.land c 63)]
  else if c <? 65536 then [N.lor 224 (N.shiftr c 12); N.lor 128 (N.land (N.shiftr c 6) 63); N.lor 128 (N.land c 63)]
  else [N.lor 240 (N.shiftr c 18); N.lor 128 (N.land (N.shiftr c 12) 63);
        N.lor 128 (N.land (N.shiftr c 6) 63); N.lor 128 (N.land c 63)].
Definition escape (e : N) : option N :=
  if e =? 34 then Some 34 else if e =? 92 then Some 92 else if e =? 47 then Some 47
  else if e =? 98 then Some 8 else if e =? 102 then Some 12 else if e =? 110 then Some 10
  else if e =? 114 then Some 13 else if e =? 116 then Some 9 else None.
(** The characters up to the closing quote. *)
Fixpoint characters (s out : bytes) : option (bytes * bytes) :=
  match s with
  | [] => None
  | c :: r =>
      if c =? 34 then Some (out, r)
      else if c <? 32 then None
      else if negb (c =? 92) then characters r (out ++ [c])
      else match r with
      | [] => None
      | e :: r =>
          if e =? 117 then
            match r with
            | a :: b :: c :: d :: r =>
                match hex4 a b c d with
                | None => None
                | Some code =>
                    if (55296 <=? code) && (code <=? 56319) then
                      match r with
                      | x :: y :: a :: b :: c :: d :: r =>
                          if negb ((x =? 92) && (y =? 117)) then None else
                          match hex4 a b c d with
                          | None => None
                          | Some low =>
                              if (low <? 56320) || (57343 <? low) then None
                              else characters r (out ++ append (65536 + N.shiftl (code - 55296) 10 + low - 56320))
                          end
                      | _ => None
                      end
                    else if (56320 <=? code) && (code <=? 57343) then None
                    else characters r (out ++ append code)
                end
            | _ => None
            end
          else match escape e with Some x => characters r (out ++ [x]) | None => None end
      end
  end.
Definition string (s : bytes) : option (bytes * bytes) :=
  match take_ 34 s with (true, r) => characters r [] | _ => None end.

Definition digit (c : N) : bool := (48 <=? c) && (c <=? 57).
Fixpoint digits (s : bytes) : bytes * bytes :=
  match s with
  | c :: r => if digit c then let (d, r) := digits r in (c :: d, r) else ([], s)
  | [] => ([], [])
  end.
(** At least one digit after [prefix]. *)
Definition someDigits (prefix s : bytes) : option (bytes * bytes) :=
  match digits s with ([], _) => None | (d, r) => Some (prefix ++ d, r) end.
Definition integer (s : bytes) : option (bytes * bytes) :=
  match s with
  | [] => None
  | c :: r => if c =? 48 then Some ([c], r)
              else if (c <? 49) || (57 <? c) then None
              else let (d, r) := digits r in Some (c :: d, r)
  end.
Definition sign (s : bytes) : bytes * bytes :=
  match s with c :: r => if c =? 45 then ([c], r) else ([], s) | [] => ([], []) end.
Definition fraction (s : bytes) : option (bytes * bytes) :=
  match s with c :: r => if c =? 46 then someDigits [c] r else Some ([], s) | [] => Some ([], []) end.
Definition exponent (s : bytes) : option (bytes * bytes) :=
  match s with
  | c :: r =>
      if (c =? 101) || (c =? 69)
      then match r with
           | x :: r' => if (x =? 43) || (x =? 45) then someDigits [c; x] r' else someDigits [c] r
           | [] => None
           end
      else Some ([], s)
  | [] => Some ([], [])
  end.
Definition number (s : bytes) : option (bytes * bytes) :=
  let (m, s) := sign (space s) in
  let? (i, s) := integer s in
  let? (f, s) := fraction s in
  let? (e, s) := exponent s in
  Some (m ++ i ++ f ++ e, s).

(** [prefix]: the input begins with the literal. *)
Definition literals : list bytes := [u "true"; u "false"; u "null"].
Fixpoint literal (l : list bytes) (s : bytes) : option bytes :=
  match l with
  | [] => None
  | t :: rest => if startsWith s t then Some (drop (List.length t) s) else literal rest s
  end.
(** The items of an array or object, one or more, separated by commas; [n] bounds their
    number. [items_fuel] shows that the length of the input is enough. *)
Section items.
Variable item : bytes → option bytes.
Fixpoint items (n : nat) (s : bytes) : option bytes :=
  match n with
  | O => None
  | S n =>
      let? s := item s in
      match take_ 44 s with
      | (true, s) => items n s
      | (false, s) => Some s
      end
  end.
End items.
Definition close (c : N) (s : bytes) : option bytes := match take_ c s with (true, s) => Some s | _ => None end.
(** [d] is how many levels are left: the code stops below depth 24. *)
Fixpoint value_ (d : nat) (s : bytes) : option (Scalar * bytes) :=
  match d with
  | O => None
  | S d =>
      let member (s : bytes) :=
        let? (_, s) := string s in let? s := close 58 s in let? (_, s) := value_ d s in Some s in
      let element (s : bytes) := let? (_, s) := value_ d s in Some s in
      match space s with
      | [] => None
      | c :: r =>
          if c =? 34 then let? (t, s) := characters r [] in Some (mkScalar String t, s)
          else if c =? 123 then
            match take_ 125 r with
            | (true, s) => Some (mkScalar Other [], s)
            | (false, s) => let? s := items member (List.length s) s in let? s := close 125 s in Some (mkScalar Other [], s)
            end
          else if c =? 91 then
            match take_ 93 r with
            | (true, s) => Some (mkScalar Other [], s)
            | (false, s) => let? s := items element (List.length s) s in let? s := close 93 s in Some (mkScalar Other [], s)
            end
          else match literal literals (c :: r) with
               | Some s => Some (mkScalar Other [], s)
               | None => let? (t, s) := number (c :: r) in Some (mkScalar Number t, s)
               end
      end
  end.
Definition maximumLevels : nat := 25.

Abbreviation object_ := (gmap bytes Scalar).
(** A member of the document; a key may not appear twice. *)
Definition member (m : object_) (s : bytes) : option (object_ * bytes) :=
  let? (k, s) := string s in
  let? s := close 58 s in
  let? (v, s) := value_ maximumLevels s in
  match m !! k with Some _ => None | None => Some (<[k := v]> m, s) end.
Fixpoint members (n : nat) (m : object_) (s : bytes) : option (object_ * bytes) :=
  match n with
  | O => None
  | S n =>
      let? (m, s) := member m s in
      match take_ 44 s with
      | (true, s) => members n m s
      | (false, s) => Some (m, s)
      end
  end.
Section document.
(** The serialization library's check that a text is UTF-8. *)
Variable isUtf8 : bytes → bool.
Definition object (input : bytes) : option object_ :=
  if negb (isUtf8 input) then None else
  match take_ 123 input with
  | (false, _) => None
  | (true, s) =>
      let? (m, s) := match take_ 125 s with
                     | (true, s) => Some (∅, s)
                     | (false, s) => let? (m, s) := members (List.length s) ∅ s in let? s := close 125 s in Some (m, s)
                     end in
      match space s with [] => Some m | _ => None end
  end.
End document.
Definition field (m : object_) (k : bytes) (kd : Kind) (v : bytes) : bool :=
  match m !! k with
  | Some x => bool_decide (kind x = kd) && (bool_decide (v = []) || bool_decide (value x = v))
  | None => false
  end.

(** ** The fuel is enough: every step consumes input *)
Abbreviation len := (@List.length N).
Lemma space_le s : (len (space s) ≤ len s)%nat.
Proof. induction s as [|c s IH]; cbn; [done|]. destruct (white c); cbn; lia. Qed.
Lemma take_le c s b s' : take_ c s = (b, s') → (len s' + (if b then 1 else 0) ≤ len s)%nat.
Proof.
  unfold take_. pose proof (space_le s) as H. destruct (space s) as [|x r]; [intros [= <- <-]; cbn in *; lia|].
  destruct (x =? c); intros [= <- <-]; cbn in *; lia.
Qed.
Lemma characters_le n : ∀ s out t s', (len s ≤ n)%nat → characters s out = Some (t, s') → (len s' < len s)%nat.
Proof.
  induction n as [|n IH]; intros s out t s' Hn H; [by destruct s; [|cbn in Hn; lia]|].
  destruct s as [|c r]; [done|]. cbn [characters] in H. cbn [List.length] in *.
  assert (∀ r' out, (len r' ≤ n)%nat → characters r' out = Some (t, s') → (len s' < len r')%nat) as IH' by (intros; by eapply IH).
  destruct (c =? 34); [injection H as _ <-; lia|]. destruct (c <? 32); [done|].
  destruct (negb (c =? 92)); [apply IH' in H; lia|].
  destruct r as [|e r]; [done|]. cbn [List.length] in *. destruct (e =? 117).
  - destruct r as [|a [|b [|c1 [|d r]]]]; try done. cbn [List.length] in *. destruct (hex4 a b c1 d) as [code|]; [|done].
    destruct (_ && _).
    + destruct r as [|x [|y [|a2 [|b2 [|c2 [|d2 r]]]]]]; try done. cbn [List.length] in *.
      destruct (negb _); [done|]. destruct (hex4 a2 b2 c2 d2) as [low|]; [|done].
      destruct (_ || _); [done|]. apply IH' in H; lia.
    + destruct (_ && _); [done|]. apply IH' in H; lia.
  - destruct (escape e); [|done]. apply IH' in H; lia.
Qed.
Lemma string_lt s t s' : string s = Some (t, s') → (len s' < len s)%nat.
Proof.
  unfold string. destruct (take_ 34 s) as [b r] eqn:E. apply take_le in E. destruct b; [|done].
  intros H%(characters_le (len r)); lia.
Qed.
Lemma digits_le s d s' : digits s = (d, s') → (len s' + len d = len s)%nat.
Proof.
  revert d s'. induction s as [|c s IH]; intros d s'; cbn; [by intros [= <- <-]|].
  destruct (digit c); [|by intros [= <- <-]]. destruct (digits s) as [d1 r1] eqn:E. intros [= <- <-].
  specialize (IH d1 r1 eq_refl). cbn. lia.
Qed.
Lemma someDigits_lt p s d s' : someDigits p s = Some (d, s') → (len s' < len s)%nat.
Proof.
  unfold someDigits. destruct (digits s) as [[|c d1] r] eqn:E; [done|]. apply digits_le in E. intros [= _ <-]. cbn in E. lia.
Qed.
Lemma number_lt s t s' : number s = Some (t, s') → (len s' < len s)%nat.
Proof.
  unfold number. intros H. pose proof (space_le s) as Hs. destruct (sign (space s)) as [m s1] eqn:E1.
  assert (len s1 ≤ len s)%nat.
  { unfold sign in E1. destruct (space s) as [|c r]; [by injection E1 as _ <-|].
    destruct (c =? 45); injection E1 as _ <-; cbn in *; lia. }
  destruct (integer s1) as [[i s2]|] eqn:E2; [|done].
  assert (len s2 < len s1)%nat.
  { unfold integer in E2. destruct s1 as [|c r]; [done|]. destruct (c =? 48); [injection E2 as _ <-; cbn; lia|].
    destruct (_ || _); [done|]. destruct (digits r) as [d r'] eqn:Ed. apply digits_le in Ed. injection E2 as _ <-. cbn. lia. }
  destruct (fraction s2) as [[f s3]|] eqn:E3; [|done].
  assert (len s3 ≤ len s2)%nat.
  { unfold fraction in E3. destruct s2 as [|c r]; [by injection E3 as _ <-|].
    destruct (c =? 46); [apply someDigits_lt in E3; cbn; lia|by injection E3 as _ <-]. }
  destruct (exponent s3) as [[e s4]|] eqn:E4; [|done]. injection H as _ <-.
  assert (len s4 ≤ len s3)%nat; [|lia].
  unfold exponent in E4. destruct s3 as [|c r]; [by injection E4 as _ <-|]. destruct (_ || _); [|by injection E4 as _ <-].
  destruct r as [|x r]; [done|]. destruct (_ || _); apply someDigits_lt in E4; cbn in *; lia.
Qed.
Lemma close_lt c s s' : close c s = Some s' → (len s' < len s)%nat.
Proof. unfold close. destruct (take_ c s) as [b r] eqn:E. apply take_le in E. destruct b; [|done]. intros [= <-]. lia. Qed.
Lemma literal_lt s s' : literal literals s = Some s' → (len s' < len s)%nat.
Proof.
  assert (∀ l, Forall (λ t : bytes, t ≠ []) l → literal l s = Some s' → (len s' < len s)%nat) as H; [|by apply H; repeat constructor].
  induction 1 as [|t l Ht _ IH]; cbn; [done|]. destruct (startsWith s t) eqn:E; [|done]. intros [= <-].
  apply startsWith_spec in E as [r ->]. rewrite length_drop, length_app. destruct t; [done|]. cbn. lia.
Qed.
Section consumption.
Variable item : bytes → option bytes.
Hypothesis item_lt : ∀ s s', item s = Some s' → (len s' < len s)%nat.
Lemma items_lt n s s' : items item n s = Some s' → (len s' < len s)%nat.
Proof.
  revert s. induction n as [|n IH]; intros s H; cbn in H; [done|]. destruct (item s) as [s1|] eqn:E1; [|done].
  apply item_lt in E1. destruct (take_ 44 s1) as [b s2] eqn:E2. apply take_le in E2. destruct b.
  - apply IH in H. lia.
  - injection H as <-. lia.
Qed.
Lemma items_fuel n m s : (len s ≤ n)%nat → (len s ≤ m)%nat → items item n s = items item m s.
Proof.
  revert m s. induction n as [|n IH]; intros m s Hn Hm.
  - destruct s; [|cbn in Hn; lia]. destruct m; [done|]. cbn. destruct (item []) as [s1|] eqn:E; [|done].
    apply item_lt in E. cbn in E. lia.
  - destruct m as [|m].
    + destruct s; [|cbn in Hm; lia]. cbn. destruct (item []) as [s1|] eqn:E; [|done]. apply item_lt in E. cbn in E. lia.
    + cbn. destruct (item s) as [s1|] eqn:E; [|done]. apply item_lt in E.
      destruct (take_ 44 s1) as [b s2] eqn:E2. apply take_le in E2. destruct b; [|done]. apply IH; lia.
Qed.
End consumption.
Lemma value_lt d s v s' : value_ d s = Some (v, s') → (len s' < len s)%nat.
Proof.
  revert s v s'. induction d as [|d IH]; intros s v s' H; [done|]. cbn [value_] in H.
  pose proof (space_le s) as Hs. destruct (space s) as [|c r]; [done|]. cbn [List.length] in Hs.
  assert (∀ s s', (let? (_, s) := string s in let? s := close 58 s in let? (_, s) := value_ d s in Some s) = Some s' → (len s' < len s)%nat) as Hm.
  { intros x x' Hx. destruct (string x) as [[t x1]|] eqn:E1; [|done]. apply string_lt in E1.
    destruct (close 58 x1) as [x2|] eqn:E2; [|done]. apply close_lt in E2.
    destruct (value_ d x2) as [[w x3]|] eqn:E3; [|done]. apply IH in E3. injection Hx as <-. lia. }
  assert (∀ s s', (let? (_, s) := value_ d s in Some s) = Some s' → (len s' < len s)%nat) as He.
  { intros x x' Hx. destruct (value_ d x) as [[w x3]|] eqn:E3; [|done]. apply IH in E3. by injection Hx as <-. }
  destruct (c =? 34).
  { destruct (characters r []) as [[t s1]|] eqn:E; [|done]. apply (characters_le (len r)) in E; [|done]. injection H as _ <-. lia. }
  destruct (c =? 123); [|destruct (c =? 91)].
  - destruct (take_ 125 r) as [b r1] eqn:E1. apply take_le in E1. destruct b; [injection H as _ <-; lia|].
    destruct (items _ _ r1) as [s1|] eqn:E2; [|done]. apply items_lt in E2; [|done].
    destruct (close 125 s1) as [s2|] eqn:E3; [|done]. apply close_lt in E3. injection H as _ <-. lia.
  - destruct (take_ 93 r) as [b r1] eqn:E1. apply take_le in E1. destruct b; [injection H as _ <-; lia|].
    destruct (items _ _ r1) as [s1|] eqn:E2; [|done]. apply items_lt in E2; [|done].
    destruct (close 93 s1) as [s2|] eqn:E3; [|done]. apply close_lt in E3. injection H as _ <-. lia.
  - destruct (literal literals (c :: r)) as [s1|] eqn:E1; [apply literal_lt in E1; injection H as _ <-; cbn in E1; lia|].
    destruct (number (c :: r)) as [[t s1]|] eqn:E2; [|done]. apply number_lt in E2. injection H as _ <-. cbn in E2. lia.
Qed.
Lemma member_lt m s m' s' : member m s = Some (m', s') → (len s' < len s)%nat.
Proof.
  unfold member. destruct (string s) as [[k s1]|] eqn:E1; [|done]. apply string_lt in E1.
  destruct (close 58 s1) as [s2|] eqn:E2; [|done]. apply close_lt in E2.
  destruct (value_ maximumLevels s2) as [[v s3]|] eqn:E3; [|done]. apply value_lt in E3.
  destruct (m !! k); [done|]. intros [= _ <-]. lia.
Qed.
(** More fuel than the input has characters changes nothing. *)
Lemma members_fuel n k m s : (len s ≤ n)%nat → (len s ≤ k)%nat → members n m s = members k m s.
Proof.
  revert k m s. assert (∀ m, member m [] = None) as Hnil by done.
  induction n as [|n IH]; intros k m s Hn Hk.
  - destruct s; [|cbn in Hn; lia]. by destruct k.
  - destruct k as [|k]; [destruct s; [|cbn in Hk; lia]; done|]. cbn [members].
    destruct (member m s) as [[m1 s1]|] eqn:E; [|done]. apply member_lt in E.
    destruct (take_ 44 s1) as [b s2] eqn:E2. apply take_le in E2. destruct b; [|done]. apply IH; lia.
Qed.

(** ** The printer *)
Definition hexChar (n : N) : N := if n <? 10 then 48 + n else 87 + n.
Definition quoteChar (c : N) : bytes :=
  if c =? 34 then [92; 34] else if c =? 92 then [92; 92] else if c =? 10 then [92; 110]
  else if c =? 13 then [92; 114] else if c =? 9 then [92; 116]
  else if c <? 32 then [92; 117; 48; 48; hexChar (c / 16); hexChar (c mod 16)] else [c].
Definition quote (s : bytes) : bytes := 34 :: flat_map quoteChar s ++ [34].
(** The comma between two items. *)
Fixpoint separated (l : list bytes) : bytes :=
  match l with [] => [] | [x] => x | x :: r => x ++ 44 :: separated r end.
Definition jsonArray (l : list bytes) : bytes := 91 :: separated l ++ [93].
Definition jsonField (kv : bytes * bytes) : bytes := quote kv.1 ++ 58 :: kv.2.
Definition jsonObject (l : list (bytes * bytes)) : bytes := 123 :: separated (map jsonField l) ++ [125].

(** ** Printed texts are read back *)
Lemma hexDigit_hexChar n : n < 16 → hexDigit (hexChar n) = Some n.
Proof.
  intros Hn. unfold hexChar, hexDigit. destruct (N.ltb_spec n 10).
  - rewrite (proj2 (N.leb_le 48 (48 + n))), (proj2 (N.leb_le (48 + n) 57)) by lia. cbn [andb]. f_equal. lia.
  - rewrite (proj2 (N.leb_le 48 (87 + n))), (proj2 (N.leb_gt (87 + n) 57)) by lia. cbn [andb].
    rewrite (proj2 (N.leb_le 97 (87 + n))), (proj2 (N.leb_le (87 + n) 102)) by lia. cbn [andb]. f_equal. lia.
Qed.
Lemma characters_quoteChar c r out : characters (quoteChar c ++ r) out = characters r (out ++ [c]).
Proof.
  unfold quoteChar.
  destruct (N.eqb_spec c 34) as [->|H1]; [done|]. destruct (N.eqb_spec c 92) as [->|H2]; [done|].
  destruct (N.eqb_spec c 10) as [->|H3]; [done|]. destruct (N.eqb_spec c 13) as [->|H4]; [done|].
  destruct (N.eqb_spec c 9) as [->|H5]; [done|]. destruct (N.ltb_spec c 32) as [H6|H6].
  - cbn [app characters]. change (92 =? 34) with false. change (92 <? 32) with false. change (92 =? 92) with true.
    change (117 =? 117) with true. cbn [negb]. cbv iota.
    assert (hex4 48 48 (hexChar (c / 16)) (hexChar (c mod 16)) = Some c) as ->.
    { unfold hex4. change (hexDigit 48) with (Some 0). cbv iota beta.
      rewrite !hexDigit_hexChar; [|apply N.mod_lt; lia|apply N.Div0.div_lt_upper_bound; lia].
      f_equal. pose proof (N.Div0.div_mod c 16). lia. }
    destruct (N.leb_spec 55296 c); [lia|]. cbn [andb]. destruct (N.leb_spec 56320 c); [lia|]. cbn [andb].
    unfold append. by destruct (N.ltb_spec c 128); [|lia].
  - cbn [app characters]. destruct (N.eqb_spec c 34); [done|]. destruct (N.ltb_spec c 32); [lia|].
    by destruct (N.eqb_spec c 92).
Qed.
Lemma characters_quote s r out : characters (flat_map quoteChar s ++ 34 :: r) out = Some (out ++ s, r).
Proof.
  revert out. induction s as [|c s IH]; intros out; [by rewrite app_nil_r|].
  cbn [flat_map]. rewrite <- app_assoc, characters_quoteChar, IH, <- app_assoc. done.
Qed.
Lemma quote_app s r : quote s ++ r = 34 :: flat_map quoteChar s ++ 34 :: r.
Proof. unfold quote. cbn. by rewrite <- app_assoc. Qed.
Lemma string_quote s r : string (quote s ++ r) = Some (s, r).
Proof. rewrite quote_app. unfold string, take_. cbn [space]. change (white 34) with false. cbv iota. apply characters_quote. Qed.
Lemma value_quote d s r : value_ (S d) (quote s ++ r) = Some (mkScalar String s, r).
Proof.
  rewrite quote_app. cbn [value_ space]. change (white 34) with false. cbv iota. change (34 =? 34) with true. cbv iota.
  by rewrite characters_quote.
Qed.
(** What may follow a value. *)
Definition ends (r : bytes) : Prop := match r with [] => True | c :: _ => c = 44 ∨ c = 93 ∨ c = 125 end.
Lemma digits_print d r : Forall (λ c, isDigit c = true) d → ends r → digits (d ++ r) = (d, r).
Proof.
  intros Hd Hr. induction Hd as [|c d Hc _ IH]; cbn [app digits].
  - destruct r as [|c r]; [done|]. destruct Hr as [->|[->| ->]]; done.
  - change (digit c) with (isDigit c). by rewrite Hc, IH.
Qed.
Lemma decimal_go_head fuel n acc : (0 < n)%Z →
  (n < 2 ^ Z.of_nat fuel)%Z → ∃ c d, decimal_go fuel n acc = c :: d ++ acc ∧ 49 ≤ c ≤ 57 ∧ Forall (λ c, isDigit c = true) d.
Proof.
  revert n acc. induction fuel as [|fuel IH]; intros n acc Hn Hf; [change (2 ^ Z.of_nat 0)%Z with 1%Z in Hf; lia|].
  cbn [decimal_go]. destruct (Z.ltb_spec n 10).
  - exists (Z.to_N (48 + n mod 10)), []. rewrite Z.mod_small by lia. split_and!; [done|lia|lia|constructor].
  - assert (0 < n / 10)%Z by (apply Z.div_str_pos; lia).
    assert (n / 10 < 2 ^ Z.of_nat fuel)%Z as Hf'.
    { apply Z.div_lt_upper_bound; [lia|]. rewrite Nat2Z.inj_succ, Z.pow_succ_r in Hf by lia. lia. }
    destruct (IH (n / 10)%Z (Z.to_N (48 + n mod 10) :: acc)) as (c & d & -> & Hc & Hd); [done|done|].
    exists c, (d ++ [Z.to_N (48 + n mod 10)]). rewrite <- app_assoc. split_and!; [done|lia|lia|].
    apply Forall_app. split; [done|]. constructor; [|constructor]. apply isDigit_digit. lia.
Qed.
Lemma integer_print n r : (0 ≤ n)%Z → ends r → integer (decimal n ++ r) = Some (decimal n, r).
Proof.
  intros Hn Hr. destruct (decide (n = 0%Z)) as [->|Hne]; [done|].
  destruct (decimal_go_head (S (Z.to_nat (Z.log2 n))) n []) as (c & d & Hd & Hc & Hall).
  - lia.
  - rewrite Nat2Z.inj_succ, Z2Nat.id by apply Z.log2_nonneg. apply Z.log2_spec. lia.
  - unfold decimal. rewrite Hd, app_nil_r. cbn [app integer]. destruct (N.eqb_spec c 48); [lia|].
    destruct (N.ltb_spec c 49); [lia|]. destruct (N.ltb_spec 57 c); [lia|]. cbn [orb]. by rewrite digits_print.
Qed.
Lemma fraction_ends r : ends r → fraction r = Some ([], r).
Proof. destruct r as [|c r]; [done|]. by intros [->|[->| ->]]. Qed.
Lemma exponent_ends r : ends r → exponent r = Some ([], r).
Proof. destruct r as [|c r]; [done|]. by intros [->|[->| ->]]. Qed.
Lemma decimal_head n : (0 ≤ n)%Z → ∃ c d, decimal n = c :: d ∧ 48 ≤ c ≤ 57.
Proof.
  intros Hn. destruct (decimal_spec n Hn) as (Hne & Hall & _). destruct (decimal n) as [|c d]; [done|].
  apply Forall_cons in Hall as [Hc _]. exists c, d. split; [done|]. unfold isDigit in Hc.
  apply andb_true_iff in Hc as [H1 H2]. apply N.leb_le in H1, H2. done.
Qed.
Lemma number_head n : ∃ c d, numberStr n = c :: d ∧ (c = 45 ∨ 48 ≤ c ≤ 57).
Proof.
  unfold numberStr. destruct (Z.ltb_spec n 0); [by eexists _, _; split; [|left]|].
  destruct (decimal_head n) as (c & d & -> & Hc); [done|]. exists c, d. split; [done|by right].
Qed.
Lemma number_print n r : ends r → number (numberStr n ++ r) = Some (numberStr n, r).
Proof.
  intros Hr. unfold number. assert (space (numberStr n ++ r) = numberStr n ++ r) as ->.
  { destruct (number_head n) as (c & d & -> & Hc). cbn [app space].
    assert (white c = false) as ->; [|done]. unfold white. rewrite !orb_false_iff, !N.eqb_neq. lia. }
  unfold numberStr. destruct (Z.ltb_spec n 0).
  - cbn [app sign]. change (45 =? 45) with true. cbv iota. rewrite integer_print by (done || lia).
    rewrite fraction_ends, exponent_ends by done. by rewrite app_nil_r.
  - assert (sign (decimal n ++ r) = ([], decimal n ++ r)) as ->.
    { destruct (decimal_head n) as (c & d & -> & Hc); [done|]. cbn. destruct (N.eqb_spec c 45); [lia|done]. }
    rewrite integer_print by (done || lia). rewrite fraction_ends, exponent_ends by done. by rewrite app_nil_r.
Qed.
Lemma value_number d n r : ends r → value_ (S d) (numberStr n ++ r) = Some (mkScalar Number (numberStr n), r).
Proof.
  intros Hr. destruct (number_head n) as (c & x & Hn & Hc). pose proof (number_print n r Hr) as Hp. rewrite Hn in *.
  cbn [app value_ space]. assert (white c = false) as -> by (unfold white; rewrite !orb_false_iff, !N.eqb_neq; lia).
  destruct (N.eqb_spec c 34); [lia|]. destruct (N.eqb_spec c 123); [lia|]. destruct (N.eqb_spec c 91); [lia|].
  assert (literal literals (c :: x ++ r) = None) as ->.
  { cbn. change (u "true") with (116 :: u "rue"). change (u "false") with (102 :: u "alse"). change (u "null") with (110 :: u "ull").
    cbn [startsWith]. destruct (N.eqb_spec c 116); [lia|]. destruct (N.eqb_spec c 102); [lia|]. by destruct (N.eqb_spec c 110); [lia|]. }
  cbn [app] in Hp. by rewrite Hp.
Qed.

Definition bool_ (b : bool) : bytes := if b then u "true" else u "false".
(** A text that is read as the value [v], [d] levels being left. *)
Definition starts (x : bytes) : Prop := ∃ c t, x = c :: t ∧ white c = false ∧ c ≠ 93 ∧ c ≠ 125.
Definition reads (d : nat) (x : bytes) (v : Scalar) : Prop := starts x ∧ ∀ r, ends r → value_ d (x ++ r) = Some (v, r).
Lemma reads_quote d s : reads (S d) (quote s) (mkScalar String s).
Proof. split; [by eexists _, _|]. intros r _. apply value_quote. Qed.
Lemma reads_number d n : reads (S d) (numberStr n) (mkScalar Number (numberStr n)).
Proof.
  split; [|intros r Hr; by apply value_number]. destruct (number_head n) as (c & x & -> & Hc).
  exists c, x. unfold white. rewrite !orb_false_iff, !N.eqb_neq. split_and!; try done; lia.
Qed.
Lemma reads_bool d b : reads (S d) (bool_ b) (mkScalar Other []).
Proof. destruct b; (split; [by eexists _, _|by intros [|x r] _; vm_compute]). Qed.

Lemma take_same c r : white c = false → take_ c (c :: r) = (true, r).
Proof. intros H. unfold take_. cbn [space]. rewrite H. by rewrite N.eqb_refl. Qed.
Lemma take_other c x r : white x = false → x ≠ c → take_ c (x :: r) = (false, x :: r).
Proof. intros H Hne. unfold take_. cbn [space]. rewrite H. by destruct (N.eqb_spec x c). Qed.
Lemma close_same c r : white c = false → close c (c :: r) = Some r.
Proof. intros H. unfold close. by rewrite take_same. Qed.
Definition closer (c : N) : Prop := c = 93 ∨ c = 125.
Lemma closer_facts c : closer c → white c = false ∧ c ≠ 44.
Proof. by intros [->| ->]. Qed.
Lemma separated_length l : (List.length l ≤ S (len (separated l)))%nat.
Proof. induction l as [|x [|y l] IH]; [cbn; lia|cbn; lia|]. cbn in *. rewrite length_app. cbn. lia. Qed.
Lemma separated_starts l r : l ≠ [] → Forall starts l → ∃ c t, separated l ++ r = c :: t ∧ white c = false ∧ c ≠ 93 ∧ c ≠ 125.
Proof.
  intros Hl Hs. destruct l as [|x l]; [done|]. apply Forall_cons in Hs as [(c & t & -> & Hc) _].
  destruct l as [|y l]; cbn [separated app]; by eexists _, _.
Qed.
Lemma items_print item l c r n :
  (∀ x, x ∈ l → ∀ r, ends r → item (x ++ r) = Some r) → l ≠ [] → (List.length l ≤ n)%nat → closer c →
  items item n (separated l ++ c :: r) = Some (c :: r).
Proof.
  intros Hi Hne Hn Hc. destruct (closer_facts c Hc) as [Hw H44]. revert n Hn. induction l as [|x l IH]; intros n Hn; [done|].
  destruct n as [|n]; [cbn in Hn; lia|]. destruct l as [|y l].
  - cbn [separated items]. rewrite (Hi x); [|by left|by right]. by rewrite take_other.
  - cbn [separated]. rewrite <- app_assoc. cbn [app items]. rewrite (Hi x); [|by left|by left].
    rewrite take_same by done. apply IH; [|done|cbn in *; lia]. intros z Hz. apply Hi. by right.
Qed.
Definition readable (d : nat) (x : bytes) : Prop := ∃ v, reads d x v.
Lemma readable_starts d x : readable d x → starts x.
Proof. by intros [v [H _]]. Qed.
Lemma reads_array d l : Forall (readable d) l → reads (S d) (jsonArray l) (mkScalar Other []).
Proof.
  intros Hl. split; [by eexists _, _|]. intros r Hr. unfold jsonArray. cbn [app value_ space]. rewrite <- app_assoc.
  cbn [app]. change (white 91) with false. cbv iota. change (91 =? 34) with false. change (91 =? 123) with false.
  change (91 =? 91) with true. cbv iota. destruct (decide (l = [])) as [->|Hne].
  { cbn [separated app]. by rewrite take_same. }
  assert (Forall starts l) as Hs by (eapply Forall_impl; [exact Hl|apply readable_starts]).
  destruct (separated_starts l (93 :: r) Hne Hs) as (c & t & Ht & Hw & H93 & H125).
  rewrite Ht, take_other, <- Ht by done. rewrite (items_print _ l 93 r).
  - by rewrite close_same.
  - intros x Hx r' Hr'. rewrite Forall_forall in Hl. destruct (Hl x Hx) as [v [_ Hv]]. by rewrite Hv.
  - done.
  - rewrite length_app. pose proof (separated_length l). cbn. lia.
  - by left.
Qed.
Lemma field_reads k x r : jsonField (k, x) ++ r = quote k ++ 58 :: x ++ r.
Proof. unfold jsonField. cbn [fst snd]. by rewrite <- app_assoc. Qed.
Lemma field_starts kv : starts (jsonField kv).
Proof. by eexists _, _. Qed.
Lemma reads_object d l : Forall (λ kv : bytes * bytes, readable d kv.2) l → reads (S d) (jsonObject l) (mkScalar Other []).
Proof.
  intros Hl. split; [by eexists _, _|]. intros r Hr. unfold jsonObject. cbn [app value_ space]. rewrite <- app_assoc.
  cbn [app]. change (white 123) with false. cbv iota. change (123 =? 34) with false. change (123 =? 123) with true. cbv iota.
  destruct (decide (l = [])) as [->|Hne].
  { cbn [map separated app]. by rewrite take_same. }
  assert (map jsonField l ≠ []) as Hne' by (by destruct l).
  assert (Forall starts (map jsonField l)) as Hs by (apply Forall_map, Forall_forall; intros kv _; apply field_starts).
  destruct (separated_starts _ (125 :: r) Hne' Hs) as (c & t & Ht & Hw & H93 & H125).
  rewrite Ht, take_other, <- Ht by done. rewrite (items_print _ (map jsonField l) 125 r).
  - by rewrite close_same.
  - intros x Hx r' Hr'. apply list_elem_of_fmap in Hx as ([k y] & -> & Hy). rewrite Forall_forall in Hl.
    destruct (Hl _ Hy) as [v [_ Hv]]. rewrite field_reads, string_quote, close_same by done. cbn [snd] in Hv. by rewrite Hv.
  - done.
  - rewrite length_app. pose proof (separated_length (map jsonField l)). cbn. lia.
  - by right.
Qed.

(** *** A printed document *)
Lemma members_print n m (l : list (bytes * bytes)) (vs : list (bytes * Scalar)) r :
  Forall2 (λ (kx : bytes * bytes) (kv : bytes * Scalar), kv.1 = kx.1 ∧ reads maximumLevels kx.2 kv.2) l vs →
  l ≠ [] → (List.length l ≤ n)%nat → NoDup vs.*1 → Forall (λ kv : bytes * Scalar, m !! kv.1 = None) vs →
  members n m (separated (map jsonField l) ++ 125 :: r) = Some (list_to_map vs ∪ m, 125 :: r).
Proof.
  intros H. revert n m. induction H as [|[k x] [k' v] l vs [Hk Hx] Hl IH]; intros n m Hne Hn Hnd Hm; [done|].
  cbn in Hk. subst k'. cbn [fst snd] in Hx. destruct n as [|n]; [cbn in Hn; lia|].
  apply NoDup_cons in Hnd as [Hk Hnd]. apply Forall_cons in Hm as [Hmk Hm]. cbn [fst] in Hmk.
  assert (∀ r', ends r' → member m (jsonField (k, x) ++ r') = Some (<[k := v]> m, r')) as Hmem.
  { intros r' Hr'. unfold member. rewrite field_reads, string_quote, close_same by done.
    rewrite (proj2 Hx) by done. by rewrite Hmk. }
  destruct l as [|y l].
  - apply Forall2_nil_inv_l in Hl as ->. cbn [map separated members]. rewrite Hmem by (by right; right).
    rewrite take_other by done.
    change (list_to_map [(k, v)]) with (<[k := v]> ∅ : object_). by rewrite <- insert_union_l, map_empty_union.
  - cbn [map separated]. rewrite <- app_assoc. cbn [app members]. rewrite Hmem by (by left).
    rewrite take_same by done. rewrite (IH n (<[k := v]> m)); [|done|cbn in *; lia|done|].
    + f_equal. f_equal. change (list_to_map ((k, v) :: vs)) with (<[k := v]> (list_to_map vs : object_)).
      rewrite <- insert_union_l, insert_union_r; [done|]. by apply not_elem_of_list_to_map_1.
    + rewrite Forall_forall in *. intros [k2 v2] Hin. cbn. rewrite lookup_insert_ne; [by apply (Hm _ Hin)|].
      intros ->. apply Hk. by apply (list_elem_of_fmap_2 fst vs (k2, v2)).
Qed.
Lemma object_print isUtf8 (l : list (bytes * bytes)) (vs : list (bytes * Scalar)) :
  isUtf8 (jsonObject l) = true → l ≠ [] → NoDup vs.*1 →
  Forall2 (λ (kx : bytes * bytes) (kv : bytes * Scalar), kv.1 = kx.1 ∧ reads maximumLevels kx.2 kv.2) l vs →
  object isUtf8 (jsonObject l) = Some (list_to_map vs).
Proof.
  intros Hu Hne Hnd H. unfold object. rewrite Hu. cbn [negb]. unfold jsonObject. rewrite take_same by done.
  assert (map jsonField l ≠ []) as Hne' by (by destruct l).
  assert (Forall starts (map jsonField l)) as Hs by (apply Forall_map, Forall_forall; intros kv _; apply field_starts).
  destruct (separated_starts _ [125] Hne' Hs) as (c & t & Ht & Hw & H93 & H125). rewrite Ht, take_other, <- Ht by done.
  rewrite (members_print _ _ l vs []); [|done|done| |done|].
  - rewrite close_same by done. cbn [space]. by rewrite map_union_empty.
  - rewrite length_app. pose proof (separated_length (map jsonField l)). rewrite length_map in *. cbn. lia.
  - apply Forall_forall. intros kv _. apply lookup_empty.
Qed.

(** ** UTF-8
    A check of UTF-8: an ASCII character is no part of the form of another one, so a
    text is well formed when the parts before and after it are. *)
Class Utf8Check (isUtf8 : bytes → bool) : Prop := {
  utf8_nil : isUtf8 [] = true;
  utf8_cut a c b : c < 128 → isUtf8 (a ++ c :: b) = isUtf8 a && isUtf8 b
}.
Section utf8.
Context (isUtf8 : bytes → bool) {U : Utf8Check isUtf8}.
Lemma utf8_ascii l r : Forall (λ c, c < 128) l → isUtf8 (l ++ r) = isUtf8 r.
Proof.
  induction 1 as [|c l Hc _ IH]; [done|]. rewrite <- IH. exact (eq_trans (utf8_cut [] c (l ++ r) Hc) (f_equal (λ b, b && isUtf8 (l ++ r)) utf8_nil)).
Qed.
Lemma utf8_enclosed a l b : a < 128 → b < 128 → isUtf8 (a :: l ++ [b]) = isUtf8 l.
Proof.
  intros Ha Hb. change (a :: l ++ [b]) with ([a] ++ l ++ [b]). rewrite utf8_ascii by (by constructor). rewrite utf8_cut by done. by rewrite utf8_nil, andb_true_r.
Qed.
Lemma hexChar_low n : n < 16 → hexChar n < 128.
Proof. unfold hexChar. destruct (N.ltb_spec n 10); lia. Qed.
Lemma quoteChar_ascii c : c < 128 → ∃ d l, quoteChar c = d :: l ∧ d < 128 ∧ Forall (λ c, c < 128) l.
Proof.
  intros Hc. unfold quoteChar.
  repeat match goal with |- context [if ?b then _ else _] => destruct b eqn:?; [eexists _, _; split; [done|]; split; [done|]; repeat constructor|] end.
  - apply N.ltb_lt in Heqb4. apply hexChar_low. apply N.Div0.div_lt_upper_bound. lia.
  - apply hexChar_low. apply N.mod_lt. lia.
  - exists c, []. by repeat constructor.
Qed.
Lemma utf8_escapes s p : isUtf8 (p ++ flat_map quoteChar s) = isUtf8 (p ++ s).
Proof.
  revert p. induction s as [|c s IH]; intros p; [done|]. cbn [flat_map]. destruct (N.ltb_spec c 128) as [Hc|Hc].
  - destruct (quoteChar_ascii c Hc) as (d & l & -> & Hd & Hl). cbn [app]. rewrite !utf8_cut, utf8_ascii by done.
    f_equal. apply (IH []).
  - assert (quoteChar c = [c]) as ->.
    { unfold quoteChar. rewrite !(proj2 (N.eqb_neq c _)) by lia. by rewrite (proj2 (N.ltb_ge c 32)) by lia. }
    specialize (IH (p ++ [c])). rewrite <- !app_assoc in IH. exact IH.
Qed.
Lemma utf8_quote s : isUtf8 (quote s) = isUtf8 s.
Proof. unfold quote. rewrite utf8_enclosed by done. apply (utf8_escapes s []). Qed.
Lemma utf8_separated l : isUtf8 (separated l) = forallb isUtf8 l.
Proof.
  induction l as [|x [|y l] IH]; [apply utf8_nil|cbn; by rewrite andb_true_r|].
  change (separated (x :: y :: l)) with (x ++ 44 :: separated (y :: l)). rewrite utf8_cut, IH by done. done.
Qed.
Lemma utf8_array l : isUtf8 (jsonArray l) = forallb isUtf8 l.
Proof. unfold jsonArray. by rewrite utf8_enclosed, utf8_separated. Qed.
Lemma utf8_object l : isUtf8 (jsonObject l) = forallb (λ kv : bytes * bytes, isUtf8 kv.1 && isUtf8 kv.2) l.
Proof.
  unfold jsonObject. rewrite utf8_enclosed, utf8_separated by done. induction l as [|[k v] l IH]; [done|]. cbn [map forallb fst snd].
  rewrite IH. unfold jsonField at 1. cbn [fst snd]. by rewrite utf8_cut, utf8_quote.
Qed.
Lemma utf8_number z : isUtf8 (numberStr z) = true.
Proof.
  assert (∀ m, (0 ≤ m)%Z → Forall (λ c, c < 128) (decimal m)) as H.
  { intros m Hm. destruct (decimal_spec m Hm) as (_ & Hd & _). eapply Forall_impl; [exact Hd|]. intros c [_ Hc]%andb_true_iff.
    apply N.leb_le in Hc. lia. }
  assert (Forall (λ c, c < 128) (numberStr z)) as Hz.
  { unfold numberStr. destruct (Z.ltb_spec z 0); [constructor; [done|]|]; apply H; lia. }
  rewrite <- (app_nil_r (numberStr z)), utf8_ascii by done. apply utf8_nil.
Qed.
Lemma utf8_text l : Forall (λ c, c < 128) l → isUtf8 l = true.
Proof. intros H. rewrite <- (app_nil_r l), utf8_ascii by done. apply utf8_nil. Qed.
End utf8.

(** The well-formed byte sequences of the Unicode standard, table 3-7: [need] bytes are
    still to come, the next of them between [lo] and [hi]. *)
Fixpoint wellFormedFrom (need : nat) (lo hi : N) (b : bytes) : bool :=
  match b, need with
  | [], O => true
  | [], S _ => false
  | c :: r, O =>
      if c <? 128 then wellFormedFrom 0 128 191 r
      else if (194 <=? c) && (c <=? 223) then wellFormedFrom 1 128 191 r
      else if c =? 224 then wellFormedFrom 2 160 191 r
      else if c =? 237 then wellFormedFrom 2 128 159 r
      else if (225 <=? c) && (c <=? 239) then wellFormedFrom 2 128 191 r
      else if c =? 240 then wellFormedFrom 3 144 191 r
      else if (241 <=? c) && (c <=? 243) then wellFormedFrom 3 128 191 r
      else if c =? 244 then wellFormedFrom 3 128 143 r
      else false
  | c :: r, S n => if (lo <=? c) && (c <=? hi) then wellFormedFrom n 128 191 r else false
  end.
Definition wellFormed : bytes → bool := wellFormedFrom 0 128 191.
Lemma wellFormedFrom_cut need lo hi a c b : c < 128 → 128 ≤ lo →
  wellFormedFrom need lo hi (a ++ c :: b) = wellFormedFrom need lo hi a && wellFormed b.
Proof.
  intros Hc. revert need lo hi. induction a as [|x a IH]; intros need lo hi Hlo; cbn [app wellFormedFrom].
  - destruct need as [|n].
    + destruct (N.ltb_spec c 128); [done|lia].
    + destruct (N.leb_spec lo c); [lia|done].
  - destruct need as [|n].
    + repeat match goal with |- context [if ?b then _ else _] => destruct b; [apply IH; lia|] end. done.
    + destruct (_ && _); [apply IH; lia|done].
Qed.
#[export] Instance wellFormed_check : Utf8Check wellFormed.
Proof. split; [done|]. intros a c b Hc. by apply wellFormedFrom_cut. Qed.
End Json.
