(* ===== verification/Monitor.v ===== *)
(** The monitor of a container, src/Monitoring/Monitor.cpp: the identity of a container,
    the publisher of its inventory, the reader of what was published, and the
    subscription. *)
From S2P Require Import Prelude Qt Json.
Open Scope Z_scope.

Module Monitor.
Import Json.

Definition areas : list (bytes * bytes) := map (λ a, (u a.1, u a.2))
  [("files", "Files"); ("photos", "Photos"); ("asset-library", "Asset Library");
   ("generation-history", "Generation History"); ("models", "Models"); ("thinking-space", "Thinking Space");
   ("forked", "Forked"); ("published", "Published"); ("deleted", "Deleted")]%string.

Definition hexAny (c : N) : bool :=
  ((48 <=? c) && (c <=? 57) || ((97 <=? c) && (c <=? 102)) || ((65 <=? c) && (c <=? 70)))%N.
Definition uuidChar (i : nat) (c : N) : bool :=
  if bool_decide (i ∈ [8; 13; 18; 23]%nat) then (c =? 45)%N else hexAny c.
Fixpoint uuidFrom (i : nat) (s : bytes) (nonzero : bool) : bool :=
  match s with
  | [] => nonzero
  | c :: r => uuidChar i c
              && uuidFrom (S i) r (nonzero || (negb (bool_decide (i ∈ [8; 13; 18; 23]%nat)) && negb (c =? 48)%N))
  end.
Definition uuid (s : bytes) : bool := (List.length s =? 36)%nat && uuidFrom 0 s false.

(** ** Files *)
Inductive fileType := Missing | Symlink | Directory | Regular | Special.
#[global] Instance fileType_eq_dec : EqDecision fileType.
Proof. solve_decision. Defined.
(** What the system answers while one operation looks. *)
Record Fs := mkFs {
  status : bytes → fileType;
  fileSize : bytes → option Z;
  contents : bytes → option bytes;
  nodeOf : bytes → option (Z * Z);
  isContainer : bytes → bool
}.
Definition slashByte : N := 47.
Definition joinPath (a b : bytes) : bytes := a ++ slashByte :: b.
Definition Result (A : Type) : Type := (A + bytes)%type.
Definition unexpected {A} (e : Stdlib.Strings.String.string) : Result A := inr (u e).

Section library.
(** std::filesystem's lexical normal form, the UTF-8 check of the serialization library. *)
Variables (lexicallyNormal : bytes → bytes) (isUtf8 : bytes → bool).

Section fs.
Variable F : Fs.
(** No component on the way is redirected; [directory]: what the last one is. *)
Fixpoint directFrom (prefix : bytes) (components : list bytes) (directory : bool) : bool :=
  match components with
  | [] => true
  | [c] => match status F (joinPath prefix c) with
           | Directory => directory | Regular => negb directory | _ => false
           end
  | c :: rest => match status F (joinPath prefix c) with
                 | Directory => directFrom (joinPath prefix c) rest directory
                 | _ => false
                 end
  end.
Definition direct (value : bytes) (directory : bool) : bool :=
  match value with
  | c :: relative => (c =? slashByte)%N && bool_decide (lexicallyNormal value = value) && negb (containsChar 0 value)
                     && directFrom [] (match relative with [] => [] | _ => qsplit slashByte relative end) directory
  | [] => false
  end.
Definition readBytes (file : bytes) (limit : Z) : Result bytes :=
  if negb (direct file false) then inr (u "File is missing or redirected: " ++ file) else
  match fileSize F file with
  | None => inr (u "File exceeds the read limit: " ++ file)
  | Some n =>
      if limit <? n then inr (u "File exceeds the read limit: " ++ file) else
      match contents F file with
      | Some b => if Z.of_nat (List.length b) =? n then inl b else inr (u "File changed while reading: " ++ file)
      | None => inr (u "File changed while reading: " ++ file)
      end
  end.
Definition manifestPath (root : bytes) : bytes := joinPath root (u ".society-drive.json").
Definition manifestIdentity (manifest expected : bytes) : Result bytes :=
  match object isUtf8 manifest with
  | None => unexpected "Invalid Society container manifest"
  | Some json =>
      if negb (field json (u "type") String (u "SocietyDrive")) || negb (field json (u "schemaVersion") Number (u "1"))
         || negb (field json (u "identifier") String [])
      then unexpected "Invalid Society container manifest"
      else
        let id := match json !! u "identifier" with Some s => value s | None => [] end in
        if negb (uuid id) || (negb (isEmpty expected) && bool_decide (expected ≠ id))
        then unexpected "Container identity mismatch" else inl id
  end.
Definition identity (root expected : bytes) : Result bytes :=
  if negb (direct root true) || negb (isContainer F root) then unexpected "Container is missing, redirected or incomplete" else
  match readBytes (manifestPath root) 16384 with
  | inr e => inr e
  | inl manifest => manifestIdentity manifest expected
  end.
Definition node (root : bytes) : Result (Z * Z) :=
  match nodeOf F root with Some p => inl p | None => unexpected "Cannot read container identity" end.
End fs.

(** ** The inventory *)
Record Section_ := mkSection {
  key : bytes; files : Z; directories : Z; size : Z; fingerprint : Z; lastModified : Z; available : bool; complete : bool
}.
#[global] Instance Section_eq_dec : EqDecision Section_.
Proof. solve_decision. Defined.
Record State := mkState {
  schemaVersion : Z; instanceId : bytes; containerId : bytes; root : bytes; revision : Z; observedAtMs : Z;
  stAvailable : bool; stComplete : bool; daemonRunning : bool; error : bytes;
  sections : list Section_; changedSections : list bytes
}.
#[global] Instance State_eq_dec : EqDecision State.
Proof. solve_decision. Defined.
Definition offsetBasis : Z := 14695981039346656037.
Definition fnvPrime : Z := 1099511628211.
Definition newSection (k : bytes) : Section_ := mkSection k 0 0 0 offsetBasis 0 false true.
Definition mix (h c : Z) : Z := wrap64 (Z.lxor h c * fnvPrime).
Definition set_fingerprint (h : Z) (s : Section_) : Section_ :=
  mkSection (key s) (files s) (directories s) (size s) h (lastModified s) (available s) (complete s).
(** FNV-1a over the text and a separator. *)
Definition hash (s : Section_) (text : bytes) : Section_ :=
  set_fingerprint (mix (foldl (λ h c, mix h (Z.of_N c)) (fingerprint s) text) 255) s.

Inductive entryKind := File | Folder.
(** An entry of the container library's tree; [modified] in nanoseconds. *)
Inductive Entry := mkEntry (relativePath : bytes) (entrySize modified permissions : Z) (kind : entryKind)
  (childrenLoaded : bool) (children : list Entry).
Definition count_entry (relativePath : bytes) (entrySize modified : Z) (kind : entryKind) (loaded : bool) (s : Section_) : Section_ :=
  let ms := Z.max (lastModified s) (Z.quot modified 1000000) in
  match kind with
  | File => mkSection (key s) (wrap64 (files s + 1)) (directories s) (wrap64 (size s + entrySize)) (fingerprint s) ms
              (available s) (complete s)
  | Folder => mkSection (key s) (files s)
                (if bool_decide (relativePath = u ".") then directories s else wrap64 (directories s + 1))
                (size s) (fingerprint s) ms (available s) (complete s && loaded)
  end.
(** How many entries there are, and the section with all of them. *)
Fixpoint summarize (e : Entry) (s : Section_) : Z * Section_ :=
  match e with
  | mkEntry p n t perms k loaded children =>
      let s := hash (hash (hash (hash s p) (numberStr n)) (numberStr t)) (numberStr perms) in
      foldl (λ (acc : Z * Section_) child, let (c, s) := summarize child acc.2 in (acc.1 + c, s))
        (1, count_entry p n t k loaded s) children
  end.

(** ** The snapshot *)
Section serialization.
(** The binary form of a snapshot, by the serialization library; [limits] are those the
    reader gives it. *)
Variables (serialize : State → option bytes) (deserialize : bytes → option State).
Definition statePath (r : bytes) : bytes := joinPath r (u ".society-runtime/monitor/v1/state.cbor").
Definition runtimePath (r : bytes) : bytes := joinPath r (u ".society-runtime/monitor/v1").
(** [None], or why the snapshot was not written; [create], [write] and [commit] are what
    the atomic file answers. *)
Definition write (F : Fs) (create write commit : bool) (v : State) : option bytes :=
  match serialize v with
  | None => Some (u "serialization")
  | Some _ =>
      if negb (direct F (runtimePath (root v)) true) then Some (u "Runtime directory is redirected")
      else if negb (bool_decide (status F (statePath (root v)) = Missing)) && negb (direct F (statePath (root v)) false)
      then Some (u "Runtime snapshot is redirected")
      else if negb create then Some (u "Cannot create atomic state snapshot")
      else if negb write then Some (u "Cannot write complete state snapshot")
      else if negb commit then Some (u "Cannot commit state snapshot")
      else None
  end.
(** [before] and [after]: the file system when the reader starts and ends. *)
Definition read (before after : Fs) (now : Z) (r expected : bytes) (staleAfter : Z) : Result State :=
  match identity before r expected with
  | inr e => inr e
  | inl id =>
      let pinned := node before r in
      match readBytes before (statePath r) 1048576 with
      | inr e => inr e
      | inl content =>
          match deserialize content with
          | None => unexpected "Cannot decode the snapshot"
          | Some s =>
              if negb (schemaVersion s =? 1) || bool_decide (root s ≠ r) || bool_decide (containerId s ≠ id)
                 || isEmpty (instanceId s) || negb (List.length (sections s) =? List.length areas)%nat || (observedAtMs s <=? 0)
              then unexpected "Snapshot identity or schema mismatch"
              else if bool_decide (map key (sections s) ≠ map fst areas) then unexpected "Snapshot section mismatch"
              else if bool_decide (pinned ≠ node after r) || match identity after r id with inl _ => false | inr _ => true end
              then unexpected "Container changed while reading"
              else
                let age := now - observedAtMs s in
                inl (if (staleAfter <? age) || (age <? - staleAfter)
                     then mkState (schemaVersion s) (instanceId s) (containerId s) (root s) (revision s) (observedAtMs s)
                            (stAvailable s) (stComplete s) false (error s) (sections s) (changedSections s)
                     else s)
          end
      end
  end.

(** ** The publisher *)
Record Options := mkOptions { maxDepth : Z; maxEntries : Z }.
Record Publisher := mkPublisher {
  current : State; options : Options; pinned : Z * Z; running : bool; initial : bool; owner : bool
}.
Definition emptyState : State := mkState 1 [] [] [] 0 0 false true false [] [] [].
Definition newPublisher : Publisher := mkPublisher emptyState (mkOptions 64 100000) (0, 0) false true false.
Definition release (p : Publisher) : Publisher :=
  mkPublisher (current p) (options p) (pinned p) false (initial p) false.
Definition intact (F : Fs) (p : Publisher) : bool :=
  bool_decide (node F (root (current p)) = inl (pinned p))
  && match identity F (root (current p)) (containerId (current p)) with inl _ => true | inr _ => false end.
Definition withCurrent (s : State) (p : Publisher) : Publisher :=
  mkPublisher s (options p) (pinned p) (running p) (initial p) (owner p).
Definition set_daemon (b : bool) (s : State) : State :=
  mkState (schemaVersion s) (instanceId s) (containerId s) (root s) (revision s) (observedAtMs s)
    (stAvailable s) (stComplete s) b (error s) (sections s) (changedSections s).
Definition set_revision (n : Z) (s : State) : State :=
  mkState (schemaVersion s) (instanceId s) (containerId s) (root s) n (observedAtMs s)
    (stAvailable s) (stComplete s) (daemonRunning s) (error s) (sections s) (changedSections s).

(** [F1] to [F4]: the file system when the identity is taken, when the directories have
    been made, when the lock is held, and when the previous snapshot was read; [prepared]
    whether each runtime directory could be made; [locked] whether the lock was free. *)
Definition start (F1 F2 F3 F4 : Fs) (prepared locked : bool) (random : bytes) (now : Z)
    (r expected : bytes) (o : Options) (p : Publisher) : option bytes * Publisher :=
  if running p then (Some (u "Publisher is already running"), p)
  else if (maxEntries o =? 0) || (256 <? maxDepth o) then (Some (u "Invalid scan limits"), p)
  else match identity F1 r expected with
  | inr e => (Some e, p)
  | inl id =>
      match node F1 r with
      | inr e => (Some e, p)
      | inl pin =>
          let monitor := joinPath (joinPath r (u ".society-runtime")) (u "monitor") in
          if negb prepared || negb (direct F2 (joinPath r (u ".society-runtime")) true)
             || negb (direct F2 monitor true) || negb (direct F2 (joinPath monitor (u "v1")) true)
          then (Some (u "Cannot prepare private monitor runtime"), p)
          else
            let lock := joinPath (joinPath monitor (u "v1")) (u "owner.lock") in
            if negb (bool_decide (status F2 lock = Missing)) && negb (direct F2 lock false)
            then (Some (u "Monitor lock is redirected"), p)
            else if negb locked then (Some (u "Another publisher owns this container"), release p)
            else
              let s := mkState 1 random id r 0 0 false true false [] [] [] in
              let p := mkPublisher s (options p) pin (running p) (initial p) true in
              if negb (intact F3 p) then (Some (u "Container changed while starting"), release p)
              else
                let s := match read F3 F4 now r id 5000 with inl previous => set_revision (revision previous) s | inr _ => s end in
                (None, mkPublisher (set_daemon true s) o pin true true true)
      end
  end.

(** What one scan finds: the catalog's entry or its error, and for each area whether it
    is there and its tree, given how many entries are left. *)
Record Scan := mkScan { catalog : Entry + Z; treeOf : bytes → Z → option Entry }.
Definition catalogSection (x : Scan) : Section_ :=
  match catalog x with
  | inl e => (summarize e (newSection [])).2
  | inr code => hash (newSection []) (numberStr code)
  end.
Definition set_found (a c : bool) (s : Section_) : Section_ :=
  mkSection (key s) (files s) (directories s) (size s) (fingerprint s) (lastModified s) a c.
(** One area: the section, the error it leaves, and how many entries are left. *)
Definition scanArea (F : Fs) (x : Scan) (r : bytes) (remaining : Z) (area : bytes * bytes) : Section_ * option bytes * Z :=
  let s := hash (newSection area.1) (numberStr (fingerprint (catalogSection x))) in
  let directory := joinPath r area.2 in
  let s := set_found (direct F directory true) true s in
  if available s && negb (remaining =? 0) then
    match treeOf x directory remaining with
    | Some tree => let (used, s) := summarize tree s in (s, None, remaining - Z.min remaining used)
    | None => (set_found true false s, Some (u "An area could not be scanned: " ++ area.1), remaining)
    end
  else (set_found (available s) false s, None, remaining).
Fixpoint scanAreas (F : Fs) (x : Scan) (r : bytes) (remaining : Z) (l : list (bytes * bytes)) (err : bytes) : list Section_ * bytes :=
  match l with
  | [] => ([], err)
  | a :: rest =>
      let '(s, e, remaining) := scanArea F x r remaining a in
      let (ss, err) := scanAreas F x r remaining rest (match e with Some e => e | None => err end) in
      (s :: ss, err)
  end.
Definition findSection (k : bytes) (l : list Section_) : option Section_ := find (λ s, bool_decide (key s = k)) l.
(** The sections that are new or differ. *)
Definition changes (old new : list Section_) : list bytes :=
  map key (List.filter (λ s, match findSection (key s) old with Some o => negb (bool_decide (o = s)) | None => true end) new).
Definition scanned (F : Fs) (x : Scan) (now : Z) (p : Publisher) : State :=
  let s := current p in
  let (ss, err) := scanAreas F x (root s) (maxEntries (options p)) areas [] in
  mkState (schemaVersion s) (instanceId s) (containerId s) (root s) (revision s) now true (forallb complete ss)
    (daemonRunning s) err ss (changes (sections s) ss).
Definition changed (p : Publisher) (next : State) : bool :=
  initial p || negb (bool_decide (changedSections next = [])) || negb (eqb (stAvailable next) (stAvailable (current p)))
  || bool_decide (error next ≠ error (current p)).
Definition lost (p : Publisher) : Publisher :=
  let s := current p in
  release (withCurrent (mkState (schemaVersion s) (instanceId s) (containerId s) (root s) (revision s) (observedAtMs s)
    false (stComplete s) false (error s) (sections s) (changedSections s)) p).
Definition poll (before scan after : Fs) (x : Scan) (now : Z) (create wrote commit : bool) (p : Publisher) : Result bool * Publisher :=
  if negb (running p) then (unexpected "Publisher is not running", p)
  else if negb (intact before p) then (unexpected "Container was removed, redirected or replaced", lost p)
  else
    let next := scanned scan x now p in
    if negb (intact after p) then (unexpected "Container changed during scan", release p)
    else
      let c := changed p next in
      let next := if c then set_revision (wrap64 (revision next + 1)) next else next in
      match write after create wrote commit next with
      | Some e => (inr e, p)
      | None => (inl c, mkPublisher next (options p) (pinned p) (running p) false (owner p))
      end.
Definition stop (F : Fs) (now : Z) (p : Publisher) : Publisher :=
  if negb (running p) then p else
  let s := set_daemon false (current p) in
  release (withCurrent (mkState (schemaVersion s) (instanceId s) (containerId s) (root s) (revision s) now
    (stAvailable s) (stComplete s) (daemonRunning s) (error s) (sections s) (changedSections s)) p).

(** ** The subscription *)
(** What the worker makes of one reading. *)
Definition observation (r id : bytes) (reading : Result State) : State :=
  match reading with
  | inl s => s
  | inr e => mkState 1 [] id r 0 0 false false false e [] []
  end.
Definition news (previous : option State) (v : State) : bool :=
  match previous with
  | None => true
  | Some o => bool_decide (instanceId v ≠ instanceId o) || negb (revision v =? revision o) || bool_decide (error v ≠ error o)
              || negb (eqb (daemonRunning v) (daemonRunning o)) || negb (eqb (stAvailable v) (stAvailable o))
  end.
Record Round := mkRound { stoppedBefore : bool; reading : Result State; stoppedWhile : bool }.
(** The states that the handler is called with, round after round. *)
Fixpoint worker (r id : bytes) (previous : option State) (l : list Round) : list State :=
  match l with
  | [] => []
  | x :: rest =>
      if stoppedBefore x then [] else
      let v := observation r id (reading x) in
      let '(out, previous) := if news previous v then ([v], Some v) else ([], previous) in
      out ++ (if stoppedWhile x then [] else worker r id previous rest)
  end.
Definition subscribe (F : Fs) (handler : bool) (interval : Z) (r expected : bytes) : Result bytes :=
  if negb handler || (interval <? 10) || (60000 <? interval) then unexpected "Invalid subscription options"
  else identity F r expected.
End serialization.

(** ** The text form *)
Definition sectionJson (s : Section_) : bytes :=
  jsonObject [(u "key", quote (key s)); (u "files", numberStr (files s)); (u "directories", numberStr (directories s));
    (u "bytes", numberStr (size s)); (u "fingerprint", quote (numberStr (fingerprint s)));
    (u "lastModified", numberStr (lastModified s)); (u "available", bool_ (available s)); (u "complete", bool_ (complete s))].
Definition toJson (v : State) : bytes :=
  jsonObject [(u "schemaVersion", numberStr (schemaVersion v)); (u "instanceId", quote (instanceId v));
    (u "containerId", quote (containerId v)); (u "rootPath", quote (root v));
    (u "revision", quote (numberStr (revision v))); (u "observedAtMs", numberStr (observedAtMs v));
    (u "available", bool_ (stAvailable v)); (u "complete", bool_ (stComplete v));
    (u "daemonRunning", bool_ (daemonRunning v)); (u "error", quote (error v));
    (u "sections", jsonArray (map sectionJson (sections v)));
    (u "changedSections", jsonArray (map quote (changedSections v)))].

(** *** The selection of a container *)
Definition readSelection (F : Fs) (file : bytes) : Result (bytes * bytes) :=
  match readBytes F file 16384 with
  | inr e => inr e
  | inl content =>
      match object isUtf8 content with
      | None => unexpected "Invalid Society selection"
      | Some json =>
          if negb (field json (u "schemaVersion") Number (u "1")) || negb (field json (u "containerId") String [])
             || negb (field json (u "path") String [])
          then unexpected "Invalid Society selection"
          else
            let text k := match json !! u k with Some s => value s | None => [] end in
            match identity F (text "path"%string) (text "containerId"%string) with
            | inr e => inr e
            | inl _ => inl (text "path"%string, text "containerId"%string)
            end
      end
  end.

(** The texts of a state: its names, its message and the keys of its areas. *)
Definition texts (v : State) : list bytes :=
  [instanceId v; containerId v; root v; error v] ++ map key (sections v) ++ changedSections v.
Lemma texts_utf8 {U : Utf8Check isUtf8} v : isUtf8 (toJson v) = forallb isUtf8 (texts v).
Proof.
  assert (∀ b, isUtf8 (bool_ b) = true) as Hb by (intros []; by apply utf8_text; [|repeat constructor]).
  assert (Hs : ∀ s, isUtf8 (sectionJson s) = isUtf8 (key s)).
  { intros s. unfold sectionJson. rewrite utf8_object by done. cbn [forallb fst snd]. rewrite !utf8_quote, !utf8_number, !Hb by done.
    rewrite !(utf8_text isUtf8 (u _)) by (by repeat constructor). by rewrite !andb_true_r. }
  unfold toJson, texts. rewrite utf8_object by done. cbn [forallb fst snd app]. rewrite !utf8_quote, !utf8_number, !Hb, !utf8_array by done.
  rewrite !(utf8_text isUtf8 (u _)) by (by repeat constructor). cbn [andb]. rewrite forallb_app, !andb_true_r, !andb_assoc.
  assert (forallb isUtf8 (map sectionJson (sections v)) = forallb isUtf8 (map key (sections v))) as ->.
  { induction (sections v) as [|s l IH]; [done|]. cbn [map forallb]. by rewrite IH, Hs. }
  assert (forallb isUtf8 (map quote (changedSections v)) = forallb isUtf8 (changedSections v)) as ->; [|done].
  induction (changedSections v) as [|k l IH]; [done|]. cbn [map forallb]. by rewrite IH, utf8_quote.
Qed.
(** C25: The monitor's parser reads what its printer writes, as long as it is UTF-8. When
    every name and message of a state is UTF-8, the text of the state, of any size, is
    one document for the bounded parser: each scalar member comes back with its kind
    and its exact text, through the escapes of the printer, control characters and
    quotes included, and the nested inventory is passed over as a whole. When one of
    them is not UTF-8, the parser refuses the text. (Of the library's check of UTF-8
    it is assumed that an ASCII character separates: a text is UTF-8 when what comes
    before and after it is.) *)
Theorem json_roundtrip {U : Utf8Check isUtf8} v :
  object isUtf8 (toJson v) = if negb (forallb isUtf8 (texts v)) then None else Some (list_to_map
    [(u "schemaVersion", mkScalar Number (numberStr (schemaVersion v))); (u "instanceId", mkScalar String (instanceId v));
     (u "containerId", mkScalar String (containerId v)); (u "rootPath", mkScalar String (root v));
     (u "revision", mkScalar String (numberStr (revision v))); (u "observedAtMs", mkScalar Number (numberStr (observedAtMs v)));
     (u "available", mkScalar Other []); (u "complete", mkScalar Other []);
     (u "daemonRunning", mkScalar Other []); (u "error", mkScalar String (error v));
     (u "sections", mkScalar Other []); (u "changedSections", mkScalar Other [])]).
Proof.
  rewrite <- texts_utf8. destruct (isUtf8 (toJson v)) eqn:Hu; cbn [negb]; [|unfold object; by rewrite Hu].
  apply object_print; [done|done|by_compute|].
  assert (∀ d s, readable (S (S d)) (sectionJson s)) as Hs.
  { intros d s. eexists. apply reads_object. repeat (apply Forall_cons; split; cbn [snd]); [..|apply Forall_nil].
    all: eexists; first [apply reads_quote|apply reads_number|apply reads_bool]. }
  unfold maximumLevels. repeat (apply Forall2_cons_2; [split; [done|cbn [snd]]|]); [..|apply Forall2_nil_2].
  all: try apply reads_quote; try apply reads_number; try apply reads_bool.
  - apply reads_array, Forall_map, Forall_forall. intros s _. apply Hs.
  - apply reads_array, Forall_map, Forall_forall. intros k _. eexists. apply reads_quote.
Qed.

(** ** The publisher's laws *)
Section laws.
Variables (serialize : State → option bytes) (deserialize : bytes → option State).

(** A publisher that has started. *)
Record started (p : Publisher) : Prop := {
  started_schema : schemaVersion (current p) = 1;
  started_instance : instanceId (current p) ≠ [];
  started_container : containerId (current p) ≠ []
}.
Lemma identity_expected F r e id : e ≠ [] → identity F r e = inl id → id = e.
Proof.
  intros He. unfold identity, manifestIdentity. destruct (_ || _); [done|]. destruct (readBytes F (manifestPath r) 16384) as [m|]; [|done].
  destruct (object isUtf8 m) as [json|]; [|done]. destruct (_ || _); [done|]. cbv zeta.
  destruct (negb (uuid _) || _) eqn:E; [done|]. intros [= <-]. apply orb_false_iff in E as [_ E].
  destruct e as [|c e]; [done|]. cbn [isEmpty] in E. symmetry. apply dec_stable. intros Hne.
  apply andb_false_iff in E as [E|E]; [done|]. by apply bool_decide_eq_false in E.
Qed.
Lemma identity_nonempty F r e id : identity F r e = inl id → id ≠ [].
Proof.
  unfold identity, manifestIdentity. destruct (_ || _); [done|]. destruct (readBytes F (manifestPath r) 16384) as [m|]; [|done].
  destruct (object isUtf8 m) as [json|]; [|done]. destruct (_ || _); [done|]. cbv zeta.
  destruct (negb (uuid _) || _) eqn:E; [done|]. intros [= <-]. apply orb_false_iff in E as [E _].
  apply negb_false_iff in E. by intros H; rewrite H in E.
Qed.
Lemma start_started F1 F2 F3 F4 prepared locked random now r expected o p p' :
  random ≠ [] → start deserialize F1 F2 F3 F4 prepared locked random now r expected o p = (None, p') →
  started p' ∧ running p' = true ∧ initial p' = true ∧ root (current p') = r.
Proof.
  intros Hr. unfold start. destruct (running p); [done|]. destruct (_ || _); [done|].
  destruct (identity F1 r expected) as [id|] eqn:Ei; [|done]. apply identity_nonempty in Ei.
  destruct (node F1 r); [|done]. cbv zeta. destruct (_ || _); [done|]. destruct (_ && _); [done|].
  destruct (negb locked); [done|]. destruct (negb (intact _ _)); [done|].
  destruct (read deserialize _ _ _ _ _ _); intros [= <-]; by split_and!.
Qed.
Lemma scanArea_key F x r n a : key (scanArea F x r n a).1.1 = a.1.
Proof.
  assert (∀ s t, key (hash s t) = key s) as Hh by done.
  assert (∀ e s, key (summarize e s).2 = key s) as Hs.
  { fix IH 1. intros [p n' t perms k loaded children] s. cbn [summarize].
    assert (∀ acc : Z * Section_, key (foldl (λ (acc : Z * Section_) child, let (c, s) := summarize child acc.2 in (acc.1 + c, s)) acc children).2 = key acc.2) as Hf.
    { induction children as [|c children IHc]; intros acc; cbn [foldl]; [done|]. rewrite IHc.
      specialize (IH c acc.2). by destruct (summarize c acc.2). }
    rewrite Hf. cbn [snd]. unfold count_entry. by destruct k; rewrite ?Hh. }
  unfold scanArea. cbv zeta. destruct (_ && _); [|done].
  destruct (treeOf x _ n) as [tree|]; [|done]. specialize (Hs tree).
  match goal with |- context [summarize tree ?y] => specialize (Hs y); destruct (summarize tree y) end. cbn in Hs |- *. by rewrite Hs.
Qed.
Lemma scanAreas_keys F x r n l err : map key (scanAreas F x r n l err).1 = map fst l.
Proof.
  revert n err. induction l as [|a l IH]; intros n err; cbn [scanAreas]; [done|].
  pose proof (scanArea_key F x r n a) as Ha. destruct (scanArea F x r n a) as [[s e] m].
  specialize (IH m (match e with Some e => e | None => err end)). destruct (scanAreas _ _ _ _ _ _). cbn in *. by f_equal.
Qed.

(** C32: What a publisher publishes is what readers see. A successful poll leaves a state
    of exactly the nine areas in order, names as changed the ones that are new or differ
    from before, and moves the revision on by one if and only if it reports a change;
    and any reader whose file holds that snapshot, with the same container before and
    after and a clock within its tolerance, gets that very state. A poll that fails
    either stops the publisher or leaves it as it was, so the change it did not publish
    is found again by the next one. *)
Theorem poll_publishes before scan after x now create wrote commit p :
  started p → 0 < now →
  match poll serialize before scan after x now create wrote commit p with
  | (inr _, p') => running p' = false ∨ p' = p
  | (inl c, p') =>
      started p' ∧ root (current p') = root (current p) ∧ map key (sections (current p')) = map fst areas
      ∧ changedSections (current p') = changes (sections (current p)) (sections (current p'))
      ∧ revision (current p') = (if c then wrap64 (revision (current p) + 1) else revision (current p))
      ∧ (c = false → changedSections (current p') = [] ∧ error (current p') = error (current p))
      ∧ ∀ G G' now' expected stale b,
          serialize (current p') = Some b → deserialize b = Some (current p') →
          readBytes G (statePath (root (current p'))) 1048576 = inl b →
          identity G (root (current p')) expected = inl (containerId (current p')) →
          identity G' (root (current p')) (containerId (current p')) = inl (containerId (current p')) →
          node G (root (current p')) = node G' (root (current p')) →
          Z.abs (now' - now) ≤ stale →
          read deserialize G G' now' (root (current p')) expected stale = inl (current p')
  end.
Proof.
  intros [Hs1 Hs2 Hs3] Hnow. unfold poll. destruct (running p) eqn:Er; [|by left]. cbn [negb].
  destruct (intact before p); [|by left]. cbn [negb]. set (next := scanned scan x now p).
  destruct (intact after p); [|by left]. cbn [negb]. cbv zeta.
  set (next' := if changed p next then set_revision (wrap64 (revision next + 1)) next else next).
  destruct (write serialize after create wrote commit next'); [by right|]. cbn [current].
  assert (schemaVersion next' = schemaVersion (current p) ∧ instanceId next' = instanceId (current p)
    ∧ containerId next' = containerId (current p) ∧ root next' = root (current p) ∧ map key (sections next') = map fst areas
    ∧ changedSections next' = changes (sections (current p)) (sections next') ∧ observedAtMs next' = now
    ∧ revision next' = (if changed p next then wrap64 (revision (current p) + 1) else revision (current p))
    ∧ (changed p next = false → changedSections next' = [] ∧ error next' = error (current p)))
    as (E1 & E2 & E3 & E4 & E5 & E6 & E7 & E8 & E9).
  { pose proof (scanAreas_keys scan x (root (current p)) (maxEntries (options p)) areas []) as Hk.
    assert (map key (sections next) = map fst areas ∧ revision next = revision (current p)
      ∧ changedSections next = changes (sections (current p)) (sections next)) as (N1 & N2 & N3).
    { unfold next, scanned. destruct (scanAreas _ _ _ _ _ _) as [ss e]. by cbn in *. }
    assert (schemaVersion next = schemaVersion (current p) ∧ instanceId next = instanceId (current p)
      ∧ containerId next = containerId (current p) ∧ root next = root (current p) ∧ observedAtMs next = now) as (N4 & N5 & N6 & N7 & N8).
    { unfold next, scanned. by destruct (scanAreas _ _ _ _ _ _). }
    unfold next'. destruct (changed p next) eqn:Ec; cbn; rewrite ?N2; (split_and!; [done..|]); [done|].
    intros _. unfold changed in Ec. apply orb_false_iff in Ec as [Ec H1]. apply orb_false_iff in Ec as [Ec _].
    apply orb_false_iff in Ec as [_ H2]. apply bool_decide_eq_false in H1. apply negb_false_iff, bool_decide_eq_true in H2.
    split; [done|]. by apply dec_stable. }
  split_and!; try done.
  - split; cbn [current]; by rewrite ?E1, ?E2, ?E3.
  - intros G G' now' expected stale b Hser Hdes Hb Hid Hid' Hn Hage. unfold read. rewrite Hid, Hb, Hdes.
    rewrite E1, Hs1. change (1 =? 1) with true. cbn [negb orb]. rewrite !bool_decide_eq_false_2 by auto. cbn [orb].
    assert (isEmpty (instanceId next') = false) as -> by (unfold isEmpty; rewrite E2; by apply bool_decide_eq_false).
    assert (List.length (sections next') = List.length areas) as ->.
    { rewrite <- (length_map key), E5. by rewrite length_map. }
    rewrite Nat.eqb_refl. cbn [negb orb]. rewrite E7. destruct (Z.leb_spec now 0); [lia|]. rewrite Hid'. cbn [orb].
    destruct (Z.ltb_spec stale (now' - now)); [lia|]. destruct (Z.ltb_spec (now' - now) (- stale)); [lia|]. done.
Qed.

(** Heartbeats do not repeat a state: each call of the handler brings news to the one
    before, from [previous] on. *)
Fixpoint newsChain (previous : option State) (l : list State) : Prop :=
  match l with [] => True | v :: r => news previous v = true ∧ newsChain (Some v) r end.
Lemma worker_news r id previous l : newsChain previous (worker r id previous l).
Proof.
  revert previous. induction l as [|x l IH]; intros previous; cbn [worker]; [done|].
  destruct (stoppedBefore x); [done|]. cbv zeta. destruct (news previous _) eqn:En.
  - cbn [app newsChain]. split; [done|]. by destruct (stoppedWhile x).
  - cbn [app]. by destruct (stoppedWhile x).
Qed.
End laws.
End library.

(** A state with quotes, a line break, a control character and an accented letter in its
    texts; and one whose message ends within a character. *)
Definition demoState : State :=
  mkState 1 (u "i") (u "c") (u "/a\b") 7 1000 true false true [34; 10; 1; 195; 169]%N
    [mkSection (u "files") 2 1 300 5 900 true true] [u "files"].
Definition demoTorn : State := mkState 1 (u "i") (u "c") (u "/a\b") 7 1000 true false true [34; 195]%N [] [].
Lemma json_roundtrip_witness :
  (∃ m, object wellFormed (toJson demoState) = Some m ∧ m !! u "error" = Some (mkScalar String (error demoState)))
  ∧ object wellFormed (toJson demoTorn) = None.
Proof.
  split.
  - pose proof (json_roundtrip wellFormed demoState) as H.
    assert (E : forallb wellFormed (texts demoState) = true) by by vm_compute. rewrite E in H.
    eexists. split; [exact H|by vm_compute].
  - pose proof (json_roundtrip wellFormed demoTorn) as H.
    assert (E : forallb wellFormed (texts demoTorn) = false) by by vm_compute. rewrite E in H. exact H.
Defined.

Definition demoId : bytes := u "11111111-2222-3333-4444-555555555555".
Definition demoManifest : bytes :=
  jsonObject [(u "type", quote (u "SocietyDrive")); (u "schemaVersion", numberStr 1); (u "identifier", quote demoId)].
Definition demoRoot : bytes := u "/r".
Definition demoFs : Fs :=
  mkFs (λ p, if bool_decide (p = manifestPath demoRoot) then Regular
             else if startsWith (statePath demoRoot) p then (if bool_decide (p = statePath demoRoot) then Missing else Directory)
             else Missing)
    (λ p, Some (Z.of_nat (List.length demoManifest))) (λ p, Some demoManifest) (λ _, Some (1, 2)) (λ _, true).
Definition demoPublisher : Publisher :=
  mkPublisher (mkState 1 (u "i") demoId demoRoot 7 500 true true true [] [] []) (mkOptions 64 1000) (1, 2) true false true.
Definition demoScan : Scan := mkScan (inr 2) (λ _ _, None).
Definition demoPoll : Result bool * Publisher :=
  poll id (λ _, true) (λ s, Some (instanceId s)) demoFs demoFs demoFs demoScan 1000 true true true demoPublisher.
Lemma poll_publishes_witness : demoPoll.1 = inl true ∧ revision (current demoPoll.2) = 8.
Proof.
  assert (demoPoll.1 = inl true) as H by by vm_compute. split; [exact H|].
  assert (started demoPublisher) as Hs by (by split). 
  pose proof (poll_publishes id (λ _, true) (λ s, Some (instanceId s)) (λ _, None) demoFs demoFs demoFs demoScan 1000
    true true true demoPublisher Hs ltac:(lia)) as P.
  fold demoPoll in P. destruct demoPoll as [r p]. cbn [fst] in H. subst r. exact (proj1 (proj2 (proj2 (proj2 (proj2 P))))).
Defined.
End Monitor.
