(* ===== verification/Utf8.v ===== *)
(** File names: QFile::encodeName and QFile::decodeName on a system whose locale is
    UTF-8, as Qt documents them, and that a valid name survives the round trip. *)
From S2P Require Import Prelude Qt.
Open Scope N_scope.

(** QString::fromUtf8 of a file name: what is malformed becomes a replacement
    character. *)
Definition continuation (c : N) : bool := (128 <=? c) && (c <? 192).
Definition fromCodePoint (n : N) : QString :=
  if n <? 65536 then [n] else [55296 + (n - 65536) / 1024; 56320 + (n - 65536) mod 1024].
Definition scalar (least n : N) : bool :=
  (least <=? n) && (n <? 1114112) && negb ((55296 <=? n) && (n <? 57344)).
Definition replacement : QString := [65533].
Fixpoint decodeName (b : list N) : QString :=
  match b with
  | [] => []
  | c :: r =>
      if c <? 128 then c :: decodeName r else
      match r with
      | d :: r2 =>
          let two := (c - 192) * 64 + (d - 128) in
          if (192 <=? c) && (c <? 224) && continuation d && scalar 128 two then fromCodePoint two ++ decodeName r2 else
          match r2 with
          | e :: r3 =>
              let three := (c - 224) * 4096 + (d - 128) * 64 + (e - 128) in
              if (224 <=? c) && (c <? 240) && continuation d && continuation e && scalar 2048 three
              then fromCodePoint three ++ decodeName r3 else
              match r3 with
              | f :: r4 =>
                  let four := (c - 240) * 262144 + (d - 128) * 4096 + (e - 128) * 64 + (f - 128) in
                  if (240 <=? c) && (c <? 248) && continuation d && continuation e && continuation f && scalar 65536 four
                  then fromCodePoint four ++ decodeName r4 else replacement ++ decodeName r
              | [] => replacement ++ decodeName r
              end
          | [] => replacement ++ decodeName r
          end
      | [] => replacement ++ decodeName r
      end
  end.
Definition encodeName (s : QString) : list N := toUtf8 s.

(** The units of a QString are 16 bits wide. *)
Definition units (s : QString) : bool := forallb (λ c, c <? 65536) s.

(** Guards over byte ranges are arithmetic. *)
Ltac guard_is v :=
  match goal with
  | |- context [if ?b then _ else _] =>
      let H := fresh in assert (b = v) as H by (unfold continuation, scalar;
        rewrite ?andb_true_iff, ?andb_false_iff, ?negb_true_iff, ?negb_false_iff, ?andb_false_iff, ?andb_true_iff,
          ?N.leb_le, ?N.ltb_lt, ?N.leb_gt, ?N.ltb_ge; lia);
      rewrite H; clear H
  end.
Lemma split64 n : n / 64 * 64 + n mod 64 = n ∧ n mod 64 < 64.
Proof. split; [rewrite N.mul_comm; symmetry; apply N.div_mod; lia|apply N.mod_lt; lia]. Qed.

Lemma decode_scalar n r :
  n < 1114112 → ¬ (55296 ≤ n < 57344) → decodeName (utf8Of n ++ r) = fromCodePoint n ++ decodeName r.
Proof.
  intros Hn Hs. unfold utf8Of.
  destruct (split64 n) as [E1 L1]. destruct (split64 (n / 64)) as [E2 L2]. destruct (split64 (n / 64 / 64)) as [E3 L3].
  replace (n / 262144) with (n / 64 / 64 / 64) by (by rewrite !N.Div0.div_div).
  replace (n / 4096) with (n / 64 / 64) by (by rewrite !N.Div0.div_div).
  set (a := n mod 64) in *. set (n1 := n / 64) in *. set (b := n1 mod 64) in *. set (n2 := n1 / 64) in *.
  set (c := n2 mod 64) in *. set (n3 := n2 / 64) in *. clearbody a b c n3 n2 n1.
  destruct (N.ltb_spec n 128); [|destruct (N.ltb_spec n 2048); [|destruct (N.ltb_spec n 65536)]]; cbn [app decodeName].
  - guard_is true. unfold fromCodePoint. by guard_is true.
  - guard_is false. cbv zeta. replace ((192 + n1 - 192) * 64 + (128 + a - 128)) with n by lia. by guard_is true.
  - guard_is false. cbv zeta. guard_is false.
    replace ((224 + n2 - 224) * 4096 + (128 + b - 128) * 64 + (128 + a - 128)) with n by lia. by guard_is true.
  - guard_is false. cbv zeta. guard_is false. guard_is false.
    replace ((240 + n3 - 240) * 262144 + (128 + c - 128) * 4096 + (128 + b - 128) * 64 + (128 + a - 128)) with n by lia. by guard_is true.
Qed.

(** A valid name is decoded to itself; so two names with one encoding are one name. *)
Lemma encodeName_inv s : units s = true → isValidUtf16 s = true → decodeName (encodeName s) = s.
Proof.
  unfold encodeName. remember (List.length s) as n eqn:Hn. revert s Hn.
  induction n as [n IH] using lt_wf_ind. intros s -> Hu Hv. destruct s as [|c s]; [done|].
  cbn in Hu. apply andb_true_iff in Hu as [Hc Hu]. apply N.ltb_lt in Hc. cbn [toUtf8 isValidUtf16] in *.
  unfold highSurrogate, lowSurrogate in *. destruct ((55296 <=? c) && (c <=? 56319)) eqn:Eh.
  - destruct s as [|d s]; [done|]. cbn in Hu. apply andb_true_iff in Hu as [_ Hu].
    apply andb_true_iff in Hv as [Hd Hv]. rewrite Hd. apply andb_true_iff in Hd as [Hd1 Hd2], Eh as [Hc1 Hc2].
    apply N.leb_le in Hd1, Hd2, Hc1, Hc2. set (m := 65536 + (c - 55296) * 1024 + (d - 56320)).
    rewrite decode_scalar by lia. rewrite (IH (List.length s)); [|cbn; lia|done..].
    unfold fromCodePoint. rewrite (proj2 (N.ltb_ge m 65536)) by lia.
    replace (m - 65536) with (d - 56320 + (c - 55296) * 1024) by lia. rewrite N.div_add, N.Div0.mod_add by lia.
    rewrite N.div_small, N.mod_small by lia. cbn [app]. f_equal; [lia|f_equal; lia].
  - destruct ((56320 <=? c) && (c <=? 57343)) eqn:El; [done|].
    apply andb_false_iff in Eh, El. rewrite !N.leb_gt in Eh, El.
    rewrite decode_scalar by lia. rewrite (IH (List.length s)); [|cbn; lia|done..].
    unfold fromCodePoint. by rewrite (proj2 (N.ltb_lt c 65536)) by lia.
Qed.
Lemma encodeName_inj s t :
  units s = true → isValidUtf16 s = true → units t = true → isValidUtf16 t = true → encodeName s = encodeName t → s = t.
Proof. intros H1 H2 H3 H4 E. rewrite <- (encodeName_inv s), E by done. by apply encodeName_inv. Qed.
