(* ===== verification/Posix.v ===== *)
(** The file system that src/Sync/ConfinedFiles.cpp calls: POSIX's system calls on
    descriptors, on names that are byte strings and inodes that hold the bytes.  The
    process is the only one that changes the files; every call may fail, and reads and
    writes may be short. *)
From S2P Require Import Prelude Qt.
Open Scope Z_scope.

Module Posix.
(** ** The state of the system *)
(** The container's own tree, and the tree of its "Files" volume when it has one. *)
Inductive Volume := Container | FilesVolume.
#[global] Instance Volume_eq_dec : EqDecision Volume.
Proof. solve_decision. Defined.
#[global] Instance Volume_countable : Countable Volume.
Proof.
  refine (inj_countable' (λ v, match v with Container => true | FilesVolume => false end)
    (λ b : bool, if b then Container else FilesVolume) _). by intros [].
Defined.
Inductive Kind := Regular | Directory | Symlink | Other.
#[global] Instance Kind_eq_dec : EqDecision Kind.
Proof. solve_decision. Defined.
(** A name below a volume's root, as its components, and what it names. *)
Abbreviation key := (Volume * list (list N))%type.
Record Node := mkNode { kindOf : Kind; ino : N }.
#[global] Instance Node_eq_dec : EqDecision Node.
Proof. solve_decision. Defined.
(** [extent] is the st_size of what is not a regular file; times are nanoseconds. *)
Record Inode := mkInode { content : list N; extent : Z; mtime : Z; ctime : Z }.
(** What lstat, QFileInfo and opening report of an absolute path. *)
Record Root := mkRoot {
  rkind : Kind;
  clean : bool;        (* canonicalFilePath() = QDir::cleanPath(path) *)
  canonical : QString; (* canonicalFilePath() *)
  rdev : Z;
  rino : N
}.
(** [faults] says how the next calls end: 0 as documented, a positive number an error,
    a negative one at most that many bytes for a read or write. *)
Record Kernel := mkKernel {
  names : gmap key Node;
  inodes : gmap N Inode;
  roots : gmap QString Root;
  locked : list N;     (* inodes that another process holds a lock on *)
  time : Z;
  errno : Z;
  faults : list Z
}.
Definition set_names x k := mkKernel x (inodes k) (roots k) (locked k) (time k) (errno k) (faults k).
Definition set_inodes x k := mkKernel (names k) x (roots k) (locked k) (time k) (errno k) (faults k).
Definition set_time x k := mkKernel (names k) (inodes k) (roots k) (locked k) x (errno k) (faults k).
Definition set_errno x k := mkKernel (names k) (inodes k) (roots k) (locked k) (time k) x (faults k).
Definition set_faults x k := mkKernel (names k) (inodes k) (roots k) (locked k) (time k) (errno k) x.

Definition EPERM := 1.
Definition ENOENT := 2.
Definition EIO := 5.
Definition EWOULDBLOCK := 11.
Definition EEXIST := 17.
Definition EXDEV := 18.
Definition ENOTDIR := 20.
Definition EISDIR := 21.
Definition EINVAL := 22.
Definition ENOTEMPTY := 39.
Definition ELOOP := 40.

(** A call that fails for no reason of the names never claims one of theirs. *)
Definition hardError (z : Z) : Z :=
  if bool_decide (z ∈ [ENOENT; EEXIST; EXDEV; ENOTDIR; ELOOP]) then EIO else z.
Definition call {A} (f : Z → Kernel → (A + Z) * Kernel) (k : Kernel) : option A * Kernel :=
  let z := hd 0 (faults k) in
  let k := set_faults (tl (faults k)) k in
  if 0 <? z then (None, set_errno (hardError z) k)
  else match f (- z) k with
       | (inl a, k') => (Some a, k')
       | (inr e, k') => (None, set_errno e k')
       end.
(** A call without an effect on the names: fsync, flock's success, closing. *)
Definition quietly (_ : Z) (k : Kernel) : (unit + Z) * Kernel := (inl tt, k).

(** ** Status *)
Record Stat := mkStat {
  st_kind : Kind; st_dev : Z; st_ino : N; st_size : Z; st_mtime : Z; st_ctime : Z; st_nlink : nat
}.
Record Fd := mkFd { place : key; fdev : Z; node : Node }.
Definition nlink (k : Kernel) (i : N) : nat :=
  List.length (List.filter (λ kv : key * Node, (ino kv.2 =? i)%N) (map_to_list (names k))).
Definition inodeOf (k : Kernel) (i : N) : Inode := default (mkInode [] 0 0 0) (inodes k !! i).
Definition statOf (k : Kernel) (dev : Z) (n : Node) : Stat :=
  let i := inodeOf k (ino n) in
  mkStat (kindOf n) dev (ino n)
    (if bool_decide (kindOf n = Regular) then Z.of_nat (List.length (content i)) else extent i)
    (mtime i) (ctime i) (nlink k (ino n)).
Definition fstat (fd : Fd) (_ : Z) (k : Kernel) : (Stat + Z) * Kernel := (inl (statOf k (fdev fd) (node fd)), k).
Definition lstat (path : QString) (_ : Z) (k : Kernel) : (Stat + Z) * Kernel :=
  match roots k !! path with
  | Some r => (inl (statOf k (rdev r) (mkNode (rkind r) (rino r))), k)
  | None => (inr ENOENT, k)
  end.
Definition child (d : key) (n : list N) : key := (d.1, d.2 ++ [n]).
Definition fstatat (d : Fd) (n : list N) (_ : Z) (k : Kernel) : (Stat + Z) * Kernel :=
  match names k !! child (place d) n with
  | Some x => (inl (statOf k (fdev d) x), k)
  | None => (inr ENOENT, k)
  end.

(** ** Times *)
Definition touch (i : N) (content_too : bool) (k : Kernel) : Kernel :=
  let t := time k + 1 in
  set_time t (set_inodes (alter (λ x, mkInode (content x) (extent x) (if content_too then t else mtime x) t) i (inodes k)) k).
Definition touchAll (l : list N) (k : Kernel) : Kernel := foldl (λ k i, touch i true k) k l.

(** ** Opening *)
Record Flags := mkFlags { o_directory : bool; o_write : bool; o_creat : bool }.
Definition readOnly := mkFlags false false false.
Definition directoryOnly := mkFlags true false false.
Definition readWriteCreate := mkFlags false true true.
(** The path of a tree's root, with O_DIRECTORY and O_NOFOLLOW; whether it still is the
    root of that tree is for the caller to find out. *)
Definition openDirectory (v : Volume) (path : QString) (_ : Z) (k : Kernel) : (Fd + Z) * Kernel :=
  match roots k !! path with
  | Some r => if bool_decide (rkind r = Directory)
              then (inl (mkFd (v, []) (rdev r) (mkNode Directory (rino r))), k) else (inr ENOTDIR, k)
  | None => (inr ENOENT, k)
  end.
Definition freshInode (k : Kernel) : N :=
  fresh (elements (dom (inodes k)) ++ map (λ kv : key * Node, ino kv.2) (map_to_list (names k))).
Definition create (kd : Kind) (d : Fd) (n : list N) (k : Kernel) : Node * Kernel :=
  let x := mkNode kd (freshInode k) in
  (x, touchAll [ino (node d)]
        (set_names (<[child (place d) n := x]> (names k))
          (set_inodes (<[ino x := mkInode [] 0 (time k + 1) (time k + 1)]> (inodes k)) k))).
(** Always with O_NOFOLLOW; O_NONBLOCK lets a special file be opened. *)
Definition openat (d : Fd) (n : list N) (f : Flags) (_ : Z) (k : Kernel) : (Fd + Z) * Kernel :=
  let at_ := child (place d) n in
  match names k !! at_ with
  | Some x =>
      match kindOf x with
      | Symlink => (inr (if o_directory f then ENOTDIR else ELOOP), k)
      | Directory => if o_write f then (inr EISDIR, k) else (inl (mkFd at_ (fdev d) x), k)
      | Regular => if o_directory f then (inr ENOTDIR, k)
                   else if bool_decide (is_Some (inodes k !! ino x)) then (inl (mkFd at_ (fdev d) x), k) else (inr EIO, k)
      | Other => if o_directory f then (inr ENOTDIR, k) else (inl (mkFd at_ (fdev d) x), k)
      end
  | None => if o_creat f then let '(x, k') := create Regular d n k in (inl (mkFd at_ (fdev d) x), k')
            else (inr ENOENT, k)
  end.
Definition mkdirat (d : Fd) (n : list N) (_ : Z) (k : Kernel) : (unit + Z) * Kernel :=
  if bool_decide (is_Some (names k !! child (place d) n)) then (inr EEXIST, k)
  else (inl tt, (create Directory d n k).2).

(** ** Bytes *)
Definition slice (offset length : Z) (b : list N) : list N :=
  take (Z.to_nat length) (drop (Z.to_nat offset) b).
(** At most [short] bytes when the call is cut short, but one when there is one. *)
Definition cut (short n : Z) : Z := if short =? 0 then n else Z.min n short.
Definition pread (fd : Fd) (length offset short : Z) (k : Kernel) : (list N + Z) * Kernel :=
  let c := content (inodeOf k (ino (node fd))) in
  (inl (slice offset (cut short (Z.min length (Z.of_nat (List.length c) - offset))) c), k).
Definition splice (offset : Z) (new b : list N) : list N :=
  take (Z.to_nat offset) b ++ replicate (Z.to_nat offset - List.length b) 0%N ++ new
    ++ drop (Z.to_nat offset + List.length new) b.
Definition pwrite (fd : Fd) (bytes : list N) (offset short : Z) (k : Kernel) : (Z + Z) * Kernel :=
  let n := cut short (Z.of_nat (List.length bytes)) in
  let new := take (Z.to_nat n) bytes in
  let i := ino (node fd) in
  (inl n, touch i true (set_inodes (alter (λ x, mkInode (splice offset new (content x)) (extent x) (mtime x) (ctime x)) i (inodes k)) k)).

(** ** Names *)
(** The entry [k] is [d] or below it. *)
Definition under (d k : key) : bool := bool_decide (d.1 = k.1 ∧ d.2 `prefix_of` k.2).
Definition children (k : Kernel) (d : key) : list (list N) :=
  omap (λ kv : key * Node,
    if under d kv.1 && (List.length kv.1.2 =? S (List.length d.2))%nat then last kv.1.2 else None)
    (map_to_list (names k)).
Definition occupied (k : Kernel) (d : key) : bool :=
  existsb (λ kv : key * Node, under d kv.1 && negb (bool_decide (kv.1 = d))) (map_to_list (names k)).

Definition linkat (s : Fd) (sn : list N) (t : Fd) (tn : list N) (_ : Z) (k : Kernel) : (unit + Z) * Kernel :=
  match names k !! child (place s) sn with
  | None => (inr ENOENT, k)
  | Some x =>
      if bool_decide (is_Some (names k !! child (place t) tn)) then (inr EEXIST, k)
      else if negb (fdev s =? fdev t) then (inr EXDEV, k)
      else if bool_decide (kindOf x = Directory) then (inr EPERM, k)
      else (inl tt, touch (ino x) false (touchAll [ino (node t)] (set_names (<[child (place t) tn := x]> (names k)) k)))
  end.

Definition reroot (s t k : key) : key := (t.1, t.2 ++ drop (List.length s.2) k.2).
(** Everything at and below [s] moves to [t], which it replaces. *)
Definition moved (s t : key) (m : gmap key Node) : gmap key Node :=
  list_to_map (map (λ kv : key * Node, (reroot s t kv.1, kv.2)) (List.filter (λ kv, under s kv.1) (map_to_list m)))
  ∪ filter (λ kv : key * Node, under s kv.1 = false ∧ kv.1 ≠ t) m.
Definition renameat (s : Fd) (sn : list N) (t : Fd) (tn : list N) (_ : Z) (k : Kernel) : (unit + Z) * Kernel :=
  let from := child (place s) sn in
  let to := child (place t) tn in
  match names k !! from with
  | None => (inr ENOENT, k)
  | Some x =>
      if negb (fdev s =? fdev t) then (inr EXDEV, k)
      else if bool_decide (from = to) then (inl tt, k)
      else if under from to then (inr EINVAL, k)
      else if occupied k to then (inr ENOTEMPTY, k)
      else
        let go := (inl tt, touch (ino x) false (touchAll [ino (node s); ino (node t)] (set_names (moved from to (names k)) k))) in
        match names k !! to with
        | None => go
        | Some y =>
            if bool_decide (x = y) then (inl tt, k)
            else match bool_decide (kindOf x = Directory), bool_decide (kindOf y = Directory) with
                 | true, false => (inr ENOTDIR, k)
                 | false, true => (inr EISDIR, k)
                 | _, _ => go
                 end
        end
  end.

(** [directory] is AT_REMOVEDIR. *)
Definition unlinkat (d : Fd) (n : list N) (directory : bool) (_ : Z) (k : Kernel) : (unit + Z) * Kernel :=
  let at_ := child (place d) n in
  match names k !! at_ with
  | None => (inr ENOENT, k)
  | Some x =>
      let go := (inl tt, touch (ino x) false (touchAll [ino (node d)] (set_names (delete at_ (names k)) k))) in
      if directory then
        if negb (bool_decide (kindOf x = Directory)) then (inr ENOTDIR, k)
        else if occupied k at_ then (inr ENOTEMPTY, k) else go
      else if bool_decide (kindOf x = Directory) then (inr EISDIR, k) else go
  end.
(** flock with LOCK_EX and LOCK_NB. *)
Definition flock (fd : Fd) (_ : Z) (k : Kernel) : (unit + Z) * Kernel :=
  if bool_decide (ino (node fd) ∈ locked k) then (inr EWOULDBLOCK, k) else (inl tt, k).

(** ** The bytes under a name *)
Definition bytesOf (m : gmap key Node) (c : gmap N Inode) (p : key) : option (list N) :=
  let? x := m !! p in
  if bool_decide (kindOf x = Regular) then content <$> c !! ino x else None.
Definition data (k : Kernel) (p : key) : option (list N) := bytesOf (names k) (inodes k) p.
End Posix.
