(* ===== verification/PosixLaws.v ===== *)
(** What the system calls of Posix.v do to the bytes under the names. *)
From S2P Require Import Prelude Qt Posix.
Open Scope Z_scope.

Module PosixLaws.
Import Posix.

(** Nothing that a name or its bytes depend on has changed. *)
Record sameFiles (k k' : Kernel) : Prop := { same_names : names k' = names k; same_inodes : inodes k' = inodes k }.
#[global] Instance sameFiles_preorder : PreOrder sameFiles.
Proof. split; [done|]. intros a b c [H1 H2] [H3 H4]. split; congruence. Qed.
Lemma sameFiles_data k k' p : sameFiles k k' → data k' p = data k p.
Proof. intros [H1 H2]. unfold data. by rewrite H1, H2. Qed.

(** A call does nothing, or what its body does. *)
Lemma call_some {A} (f : Z → Kernel → (A + Z) * Kernel) k a k' :
  call f k = (Some a, k') → ∃ z k1, 0 ≤ z ∧ sameFiles k k1 ∧ f z k1 = (inl a, k').
Proof.
  unfold call. destruct (Z.ltb_spec 0 (hd 0 (faults k))); [done|]. destruct (f _ _) as [[x|x] k2] eqn:E; [|done].
  intros [-> ->]%some_pair_inv. eexists _, (set_faults _ _). split_and!; [|done|exact E]. lia.
Qed.
Lemma call_cases {A} (f : Z → Kernel → (A + Z) * Kernel) k :
  sameFiles k (call f k).2 ∨ ∃ z k1, sameFiles k k1 ∧ sameFiles (f z k1).2 (call f k).2.
Proof.
  unfold call. guard_case; [by left|]. right. exists (- hd 0 (faults k)), (set_faults (tl (faults k)) k). split; [done|].
  by destruct (f _ _) as [[x|x] k2].
Qed.

(** ** Times *)
Lemma inodes_touch i b k j : content <$> inodes (touch i b k) !! j = content <$> inodes k !! j.
Proof.
  unfold touch. cbn. destruct (decide (i = j)) as [->|H]; [|by rewrite lookup_alter_ne].
  rewrite lookup_alter_eq. by destruct (inodes k !! j).
Qed.
Lemma data_ext k k' p :
  names k' = names k → (∀ i, content <$> inodes k' !! i = content <$> inodes k !! i) → data k' p = data k p.
Proof. intros H1 H2. unfold data, bytesOf. rewrite H1. destruct (names k !! p); [|done]. by case_bool_decide. Qed.
Lemma data_touch i b k p : data (touch i b k) p = data k p.
Proof. apply data_ext; [done|apply inodes_touch]. Qed.
Lemma names_touchAll l k : names (touchAll l k) = names k.
Proof. revert k. induction l as [|i l IH]; intros k; [done|]. apply (IH (touch i true k)). Qed.
Lemma inodes_touchAll l k j : content <$> inodes (touchAll l k) !! j = content <$> inodes k !! j.
Proof. revert k. induction l as [|i l IH]; intros k; [done|].
  etransitivity; [apply (IH (touch i true k))|apply inodes_touch]. Qed.
Lemma data_touchAll l k p : data (touchAll l k) p = data k p.
Proof. apply data_ext; [apply names_touchAll|apply inodes_touchAll]. Qed.

(** ** New names *)
Lemma fresh_inode k : inodes k !! freshInode k = None ∧ ∀ p x, names k !! p = Some x → ino x ≠ freshInode k.
Proof.
  unfold freshInode. set (l := _ ++ _). pose proof (infinite_is_fresh l) as H. unfold l in H at 2.
  rewrite not_elem_of_app in H. destruct H as [H1 H2]. split.
  - apply not_elem_of_dom. by rewrite <- elem_of_elements.
  - intros p x Hp E. apply H2. rewrite <- E. apply list_elem_of_fmap. exists (p, x). split; [done|]. by apply elem_of_map_to_list.
Qed.
Lemma data_names k m p : m !! p = names k !! p → data (set_names m k) p = data k p.
Proof. intros H. unfold data, bytesOf. cbn. by rewrite H. Qed.
Lemma create_data kd d n k p :
  p ≠ child (place d) n → data (create kd d n k).2 p = data k p.
Proof.
  intros Hp. unfold create. cbn [snd]. rewrite data_touchAll. unfold data, bytesOf. cbn.
  rewrite lookup_insert_ne by done. destruct (names k !! p) as [x|] eqn:E; [|done].
  destruct (fresh_inode k) as [_ Hf]. apply Hf in E. by rewrite lookup_insert_ne by done.
Qed.
Lemma create_new kd d n k :
  let '(x, k') := create kd d n k in
  kindOf x = kd ∧ names k' !! child (place d) n = Some x
  ∧ data k' (child (place d) n) = (if bool_decide (kd = Regular) then Some [] else None)
  ∧ is_Some (inodes k' !! ino x) ∧ (∀ p y, p ≠ child (place d) n → names k' !! p = Some y → ino y ≠ ino x).
Proof.
  destruct (create kd d n k) as [x k'] eqn:E. unfold create in E. apply pair_inv in E as [-> ->]. cbn [kindOf ino].
  set (k1 := set_names _ _). rewrite data_touchAll, names_touchAll. split_and!; [done|by apply lookup_insert_eq|..].
  - unfold data, bytesOf. cbn. rewrite lookup_insert_eq. cbn. case_bool_decide; [|done]. by rewrite lookup_insert_eq.
  - assert (is_Some (content <$> inodes (touchAll [ino (node d)] k1) !! freshInode k)) as [c Hc].
    { rewrite inodes_touchAll. cbn. rewrite lookup_insert_eq. by eexists. }
    destruct (inodes _ !! freshInode k); [by eexists|done].
  - intros p y Hp. cbn. rewrite lookup_insert_ne by done. apply fresh_inode.
Qed.
Lemma mkdirat_data d n z k p : data (mkdirat d n z k).2 p = data k p.
Proof.
  unfold mkdirat. case_bool_decide as H; [done|]. cbn [snd].
  destruct (decide (p = child (place d) n)) as [->|Hp]; [|by apply create_data].
  pose proof (create_new Directory d n k) as Hc. destruct (create _ _ _ _) as [x k']. cbn [snd]. destruct Hc as (_ & _ & -> & _).
  apply eq_None_not_Some in H. unfold data, bytesOf. by rewrite H.
Qed.
(** A regular file that could be opened is the one named, or new and the only name of it. *)
Lemma openat_regular d n f z k fd k' :
  openat d n f z k = (inl fd, k') → kindOf (node fd) = Regular →
  place fd = child (place d) n ∧ names k' !! place fd = Some (node fd) ∧ is_Some (inodes k' !! ino (node fd))
  ∧ ((k' = k ∧ data k (place fd) ≠ None)
     ∨ (data k (place fd) = None ∧ data k' (place fd) = Some [] ∧ (∀ p, p ≠ place fd → data k' p = data k p)
        ∧ ∀ p y, p ≠ place fd → names k' !! p = Some y → ino y ≠ ino (node fd))).
Proof.
  unfold openat. cbv zeta. destruct (names k !! child (place d) n) as [x|] eqn:En.
  - destruct (kindOf x) eqn:Ek.
    + guard_case; [done|]. case_bool_decide as Hi; [|done]. intros [= <- <-] _. cbn [place node].
      split_and!; [done|done|done|left]. split; [done|]. unfold data, bytesOf. rewrite En. rewrite bool_decide_eq_true_2 by done.
      destruct Hi as [y ->]. done.
    + guard_case; [done|]. intros [= <- _]. cbn. congruence.
    + done.
    + guard_case; [done|]. intros [= <- _]. cbn. congruence.
  - guard_case; [|done]. pose proof (create_new Regular d n k) as Hc. pose proof (λ p, create_data Regular d n k p) as Hd.
    destruct (create Regular d n k) as [x k1]. cbn [snd] in Hd. destruct Hc as (Hx & H1 & H2 & H3 & H4).
    intros [= <- <-] _. cbn [place node]. split_and!; [done..|right]. split_and!; [|done..].
    unfold data, bytesOf. by rewrite En.
Qed.
Lemma linkat_data s sn t tn z k p : p ≠ child (place t) tn → data (linkat s sn t tn z k).2 p = data k p.
Proof.
  intros Hp. unfold linkat. destruct (names k !! child (place s) sn) as [x|]; [|done].
  case_bool_decide; [done|]. destruct (negb _); [done|]. case_bool_decide; [done|]. cbn [snd].
  rewrite data_touch, data_touchAll. apply data_names. by apply lookup_insert_ne.
Qed.
Lemma linkat_keeps s sn t tn z k p b : data k p = Some b → data (linkat s sn t tn z k).2 p = Some b.
Proof.
  intros Hp. destruct (decide (p = child (place t) tn)) as [->|Hne]; [|by rewrite linkat_data].
  unfold linkat. destruct (names k !! child (place s) sn); [|done]. rewrite bool_decide_eq_true_2; [done|].
  unfold data, bytesOf in Hp. by destruct (names k !! child (place t) tn).
Qed.
Lemma linkat_new s sn t tn z k r k' :
  linkat s sn t tn z k = (inl r, k') →
  child (place t) tn ≠ child (place s) sn ∧ data k' (child (place t) tn) = data k (child (place s) sn).
Proof.
  unfold linkat. destruct (names k !! child (place s) sn) as [x|] eqn:E; [|done].
  case_bool_decide as Hn; [done|]. destruct (negb _); [done|]. case_bool_decide; [done|].
  intros [_ ->]%pair_inv. split; [intros Ec; rewrite Ec, E in Hn; by destruct Hn|].
  rewrite data_touch, data_touchAll. unfold data, bytesOf. cbn. by rewrite lookup_insert_eq, E.
Qed.

(** ** Moving *)
Lemma under_spec d p : under d p = true ↔ ∃ t, p = (d.1, d.2 ++ t).
Proof.
  unfold under. rewrite bool_decide_eq_true. destruct p as [v l]. cbn. split.
  - intros [-> [t ->]]. by exists t.
  - intros [t [= -> ->]]. split; [done|by eexists].
Qed.
Lemma under_refl d : under d d = true.
Proof. apply under_spec. exists []. rewrite app_nil_r. by destruct d. Qed.
Lemma reroot_inj s t p q : under s p = true → under s q = true → reroot s t p = reroot s t q → p = q.
Proof.
  intros [x ->]%under_spec [y ->]%under_spec. unfold reroot. cbn. rewrite !drop_app_length.
  by intros [= ->%app_inv_head].
Qed.
Lemma moved_under (s t : key) (m : gmap key Node) (p : key) x :
  m !! p = Some x → under s p = true → moved s t m !! reroot s t p = Some x.
Proof.
  intros Hp Hu. unfold moved. apply lookup_union_Some_l, elem_of_list_to_map_1.
  - rewrite map_map. cbn. apply NoDup_fmap_2_strong.
    + intros [p1 x1] [p2 x2]. rewrite !list_elem_of_filter_bool. cbn. intros [H1 H1'] [H2 H2'] E.
      apply reroot_inj in E as ->; [|done..]. apply elem_of_map_to_list in H1', H2'. by rewrite H1' in H2'; injection H2' as ->.
    + eapply sublist_NoDup; [apply NoDup_map_to_list|apply filter_bool_sublist].
  - apply list_elem_of_fmap. exists (p, x). split; [done|]. rewrite list_elem_of_filter_bool. split; [done|]. by apply elem_of_map_to_list.
Qed.
Lemma moved_apart (s t : key) (m : gmap key Node) (p : key) :
  under s p = false → under t p = false → moved s t m !! p = m !! p.
Proof.
  intros Hs Ht. unfold moved. rewrite lookup_union_r.
  - destruct (m !! p) as [x|] eqn:E; [|by apply map_lookup_filter_None; left].
    apply map_lookup_filter_Some. cbn. split_and!; [done|done|]. intros ->. by rewrite under_refl in Ht.
  - apply not_elem_of_list_to_map_1. rewrite map_map. cbn. intros ([p1 x1] & -> & H)%list_elem_of_fmap.
    cbn in Ht. assert (under t (reroot s t p1) = true) as E; [|congruence]. apply under_spec. by eexists.
Qed.
Lemma occupied_spec k d p x : occupied k d = false → names k !! p = Some x → under d p = true → p = d.
Proof.
  unfold occupied. rewrite existsb_false. intros H Hp Hu. apply elem_of_map_to_list in Hp. apply H in Hp. cbn in Hp.
  rewrite Hu in Hp. cbn in Hp. by bool_hyps.
Qed.

Lemma renameat_data s sn t tn z k p :
  under (child (place s) sn) p = false → under (child (place t) tn) p = false →
  data (renameat s sn t tn z k).2 p = data k p.
Proof.
  intros Hs Ht. unfold renameat. cbv zeta. set (from := child (place s) sn) in *. set (to := child (place t) tn) in *.
  destruct (names k !! from) as [x|]; [|done]. do 4 (guard_case; [done|]).
  assert (∀ l b, data (touch (ino x) b (touchAll l (set_names (moved from to (names k)) k))) p = data k p) as H.
  { intros l b. rewrite data_touch, data_touchAll. apply data_names. by apply moved_apart. }
  destruct (names k !! to) as [y|]; [|apply H]. repeat (case_bool_decide; try done); apply H.
Qed.
Lemma renameat_moves s sn t tn z k r k' :
  renameat s sn t tn z k = (inl r, k') → data k' (child (place t) tn) = data k (child (place s) sn).
Proof.
  unfold renameat. cbv zeta. set (from := child (place s) sn). set (to := child (place t) tn).
  destruct (names k !! from) as [x|] eqn:Ef; [|done]. guard_case; [done|].
  case_bool_decide as E0; [intros [_ ->]%pair_inv; by rewrite E0|]. do 2 (guard_case; [done|]).
  assert (∀ l b, data (touch (ino x) b (touchAll l (set_names (moved from to (names k)) k))) to = data k from) as H.
  { intros l b. rewrite data_touch, data_touchAll. unfold data, bytesOf. cbn.
    assert (moved from to (names k) !! to = Some x) as ->; [|by rewrite Ef].
    pose proof (moved_under from to _ from x Ef (under_refl _)) as Hm. unfold reroot in Hm.
    rewrite drop_all, app_nil_r in Hm. by destruct to. }
  destruct (names k !! to) as [y|] eqn:Et; [|intros [_ ->]%pair_inv; apply H].
  case_bool_decide as Exy; [intros [_ ->]%pair_inv; unfold data, bytesOf; by rewrite Ef, Et, Exy|].
  repeat (case_bool_decide; try done); intros [_ ->]%pair_inv; apply H.
Qed.
(** Only the bytes of a replaced target are without a name afterwards. *)
Lemma renameat_keeps s sn t tn z k p b :
  data k p = Some b → p ≠ child (place t) tn ∨ child (place s) sn = child (place t) tn → ∃ p', data (renameat s sn t tn z k).2 p' = Some b.
Proof.
  intros Hp Hn. unfold renameat. cbv zeta. set (from := child (place s) sn) in *. set (to := child (place t) tn) in *.
  destruct (names k !! from) as [x|] eqn:Ef; [|by exists p]. guard_case; [by exists p|].
  case_bool_decide as E0; [by exists p|]. do 2 (guard_case; [by exists p|]). destruct Hn as [Hn|Hn]; [|done].
  assert (∀ l c, ∃ p', data (touch (ino x) c (touchAll l (set_names (moved from to (names k)) k))) p' = Some b) as H.
  { intros l c. destruct (names k !! p) as [y|] eqn:Ey; [|by unfold data, bytesOf in Hp; rewrite Ey in Hp].
    destruct (under from p) eqn:Eu.
    - exists (reroot from to p). rewrite data_touch, data_touchAll. rewrite <- Hp. unfold data, bytesOf. cbn.
      by rewrite (moved_under _ _ _ _ _ Ey Eu), Ey.
    - exists p. rewrite data_touch, data_touchAll, <- Hp. apply data_names. apply moved_apart; [done|].
      apply not_true_iff_false. intros Ht. by eapply Hn, occupied_spec. }
  destruct (names k !! to) as [y|]; [|apply H].
  repeat case_bool_decide; try (by exists p); apply H.
Qed.

(** A call that says there is no such name is right about it. *)
Lemma fstatat_missing d n k k' :
  call (fstatat d n) k = (None, k') → errno k' = ENOENT → names k !! child (place d) n = None.
Proof.
  unfold call. destruct (0 <? hd 0 (faults k)).
  - intros [_ ->]%pair_inv. cbn. unfold hardError. case_bool_decide as Hz; [done|]. intros E. destruct Hz. rewrite E. by left.
  - unfold fstatat. cbn. by destruct (names k !! child (place d) n).
Qed.

(** ** Removing and writing *)
Lemma unlinkat_data d n dir z k p : p ≠ child (place d) n → data (unlinkat d n dir z k).2 p = data k p.
Proof.
  intros Hp. unfold unlinkat. cbv zeta. destruct (names k !! child (place d) n) as [x|]; [|done].
  assert (∀ l b, data (touch (ino x) b (touchAll l (set_names (delete (child (place d) n) (names k)) k))) p = data k p) as H.
  { intros l b. rewrite data_touch, data_touchAll. apply data_names. by apply lookup_delete_ne. }
  destruct dir; [|case_bool_decide; [done|apply H]]. guard_case; [done|]. guard_case; [done|apply H].
Qed.
Lemma unlinkat_directory d n z k p b : data k p = Some b → data (unlinkat d n true z k).2 p = Some b.
Proof.
  intros Hp. destruct (decide (p = child (place d) n)) as [->|Hne]; [|by rewrite unlinkat_data].
  unfold unlinkat. cbv zeta. unfold data, bytesOf in Hp. destruct (names k !! child (place d) n) as [x|] eqn:E; [|done].
  case_bool_decide as Hk; [|done]. rewrite bool_decide_eq_false_2 by congruence. cbn. unfold data, bytesOf.
  by rewrite E, bool_decide_eq_true_2.
Qed.
(** A file's bytes change under the names of its inode only. *)
Record writes (i : N) (k k' : Kernel) : Prop := {
  writes_names : names k' = names k;
  writes_other : ∀ j, j ≠ i → content <$> inodes k' !! j = content <$> inodes k !! j
}.
#[global] Instance writes_preorder i : PreOrder (writes i).
Proof. split; [done|]. intros a b c [H1 H2] [H3 H4]. split; [congruence|]. intros j Hj. by rewrite H4, H2. Qed.
Lemma writes_data i k k' p :
  writes i k k' → (∀ x, names k !! p = Some x → ino x ≠ i) → data k' p = data k p.
Proof. intros [H1 H2] H. unfold data, bytesOf. rewrite H1. destruct (names k !! p) as [x|]; [|done]. by rewrite H2 by auto. Qed.
Lemma pwrite_writes fd b o z k : writes (ino (node fd)) k (pwrite fd b o z k).2.
Proof.
  unfold pwrite. cbv zeta. cbn [snd]. split; [done|]. intros j Hj. rewrite inodes_touch. cbn. by rewrite lookup_alter_ne by done.
Qed.
End PosixLaws.
