(* ===== verification/Confined.v ===== *)
(** src/Sync/ConfinedFiles.cpp: a replica's files, confined to its container.  Every
    path is walked from the root on descriptors, without following links; replaced and
    removed files are kept in the recovery area.  The branches are those of a Unix that
    is not macOS.  [openFileAt], [makeDirectoryAt] and [openFile] of iiFileProvider, the
    container library and Qt's generators are parameters. *)
From S2P Require Import Prelude Qt Utf8 Records Files Posix.
Open Scope Z_scope.

Module Confined.
Import Posix.

(** ** What the code takes from its libraries *)
Class Native := {
  openFile : Volume → QString → Z → Kernel → (Fd + Z) * Kernel;
  openFileAt : Fd → list N → Flags → Z → Kernel → (Fd + Z) * Kernel;
  makeDirectoryAt : Fd → list N → Z → Kernel → (unit + Z) * Kernel;
  normalizeChangeTime : Z → N → Z → Z → QString;
  maximumDocumentBytes : Z;
  cancelPending : QString → QString → Kernel → Kernel;
  filesRoot : QString → Kernel → option QString;   (* DiskImage::filesRoot *)
  fromJson : list N → jobj;                        (* QJsonDocument::fromJson(...).object() *)
  createUuid : Kernel → QString;                   (* QUuid::createUuid without braces *)
  currentDateTimeUtc : Kernel → QString            (* in ISO form *)
}.

(** Where the recovery area keeps the note of a copy. *)
Definition recoveryNote (id : QString) : QString := u ".society-sync/recovery/" ++ id ++ u ".json".
Definition components (path : QString) : list (list N) := map encodeName (qsplit slash path).
(** iiFileProvider's functions are the system calls they are named after; cancelling a
    pending preview changes no file; an identifier is a new one. *)
Class NativeLaws {NA : Native} := {
  openFile_is v p z k : openFile v p z k = openDirectory v p z k;
  openFileAt_is d n f z k : openFileAt d n f z k = openat d n f z k;
  makeDirectoryAt_is d n z k : makeDirectoryAt d n z k = mkdirat d n z k;
  cancel_names r p k : names (cancelPending r p k) = names k;
  cancel_inodes r p k : inodes (cancelPending r p k) = inodes k;
  createUuid_new k : data k (Container, components (recoveryNote (createUuid k))) = None
}.

(** ** The object *)
(** The public volume's own ConfinedFiles, [m_publicFiles]. *)
Record Public := mkPublic { proot : QString; perror : QString; pdevice : Z; pinode : N }.
Record Confined := mkConfined {
  root : QString; error : QString; device : Z; inode : N; publicFiles : option Public
}.
(** [cancels]: what the [cancelled] callback answers next; false once it is empty. *)
Record World := mkWorld { kernel : Kernel; self : Confined; cancels : list bool }.
Definition set_kernel k w := mkWorld k (self w) (cancels w).
Definition set_self s w := mkWorld (kernel w) s (cancels w).
Definition set_error e s := mkConfined (root s) e (device s) (inode s) (publicFiles s).
Definition set_public p s := mkConfined (root s) (error s) (device s) (inode s) p.
Definition set_perror e p := mkPublic (proot p) e (pdevice p) (pinode p).

Definition M (A : Type) : Type := World → A * World.
Definition ret {A} (a : A) : M A := λ w, (a, w).
Definition bind {A B} (m : M A) (f : A → M B) : M B := λ w, let '(a, w') := m w in f a w'.
Notation "'do!' x ':=' a 'in' b" := (bind a (fun x => b)) (at level 10, x pattern, a at level 100, b at level 200, only parsing).
Definition asks {A} (f : World → A) : M A := λ w, (f w, w).
Definition sys {A} (f : Z → Kernel → (A + Z) * Kernel) : M (option A) :=
  λ w, let '(a, k) := call f (kernel w) in (a, set_kernel k w).
Definition errnoIs (e : Z) : M bool := asks (λ w, errno (kernel w) =? e).
Definition setErrno (e : Z) : M unit := λ w, (tt, set_kernel (set_errno e (kernel w)) w).
Definition poll : M bool := λ w, (hd false (cancels w), mkWorld (kernel w) (self w) (tl (cancels w))).
(** [fail] of the object itself, or of its [m_publicFiles]. *)
Definition failAt (v : Volume) (e : QString) : M bool :=
  λ w, (false, set_self (match v with
                         | Container => set_error e (self w)
                         | FilesVolume => set_public (set_perror e <$> publicFiles (self w)) (self w)
                         end) w).
Definition fail (e : string) : M bool := failAt Container (u e).
Definition failed {A} (e : string) : M (option A) := do! _ := fail e in ret None.
Definition errorClear : M unit := λ w, (tt, set_self (set_error [] (self w)) w).
(** [return call == 0 || fail(e)]. *)
Definition orFail {A} (e : string) (m : M (option A)) : M bool :=
  do! r := m in match r with Some _ => ret true | None => fail e end.

Section with_native.
Context {PF : Platform} {NA : Native}.

(** ** Paths *)
Definition relative (path : QString) : bool :=
  negb ((4096 <? qsize path) || negb (isValidUtf16 path) || negb (units path) || startsWith path [slash]
        || containsChar 92 path || containsChar 58 path || containsChar 0 path)
  && forallb (λ part, negb (isEmpty part || bool_decide (part = u ".") || bool_decide (part = u "..") || (255 <? utf8Size part)))
       (qsplit slash path).
(** The text of a stamp. *)
Definition stampOf (s : Stat) : QString :=
  numberStr (st_dev s) ++ u ":" ++ numberStr (Z.of_N (st_ino s)) ++ u ":" ++ numberStr (st_size s) ++ u ":"
  ++ numberStr (st_mtime s / 1000000000) ++ u ":" ++ numberStr (st_mtime s mod 1000000000) ++ u ":"
  ++ normalizeChangeTime (st_dev s) (st_ino s) (st_ctime s / 1000000000) (st_ctime s mod 1000000000).

(** ** Opening *)
(** The last part of [open]: what must hold of the root's path. *)
Definition openRoot (path : QString) (w : World) : option Root :=
  let? r := roots (kernel w) !! path in
  if clean r && bool_decide (rkind r = Directory) then Some r else None.
Definition diskImageIn (v : Volume) (w : World) : bool :=
  bool_decide (is_Some (names (kernel w) !! (v, [encodeName (u ".society-disk.plist")]))).
(** A Files volume has no image of its own. *)
Definition open (path : QString) : M bool :=
  do! _ := (λ w, (tt, set_self (mkConfined [] [] (device (self w)) (inode (self w)) (publicFiles (self w))) w)) in
  do! r := asks (openRoot path) in
  match r with
  | None => fail "container_unavailable"
  | Some r =>
      do! _ := (λ w, (tt, set_self (mkConfined (canonical r) (error (self w)) (rdev r) (rino r) None) w)) in
      do! files := asks (λ w, filesRoot (canonical r) (kernel w)) in
      match files with
      | Some f =>
          do! p := asks (openRoot f) in
          match p with
          | None => do! _ := (λ w, (tt, set_self (set_public (Some (mkPublic [] (u "container_unavailable") 0 0)) (self w)) w)) in
                    fail "files_volume_unavailable"
          | Some p =>
              do! _ := (λ w, (tt, set_self (set_public (Some (mkPublic (canonical p) [] (rdev p) (rino p))) (self w)) w)) in
              do! inner := asks (diskImageIn FilesVolume) in
              if inner then
                do! _ := failAt FilesVolume (u "files_volume_unavailable") in fail "files_volume_unavailable"
              else ret true
          end
      | None => do! image := asks (diskImageIn Container) in
                if image then fail "files_volume_unavailable" else ret true
      end
  end.

Definition rootOf (v : Volume) (w : World) : option (QString * Z * N) :=
  match v with
  | Container => Some (root (self w), device (self w), inode (self w))
  | FilesVolume => (λ p, (proot p, pdevice p, pinode p)) <$> publicFiles (self w)
  end.
(** The end of [intact]: the root is still the directory that was opened. *)
Definition intactAt (v : Volume) : M bool :=
  do! r := asks (rootOf v) in
  match r with
  | None => ret false
  | Some (path, dev, i) =>
      do! s := (if isEmpty path then ret None else sys (lstat path)) in
      match s with
      | Some s => if bool_decide (st_kind s = Directory) && (st_dev s =? dev) && (st_ino s =? i)%N then ret true
                  else failAt v (u "container_replaced_or_unavailable")
      | None => failAt v (u "container_replaced_or_unavailable")
      end
  end.
Definition intact : M bool :=
  do! stop := poll in
  if stop then fail "cancelled" else
  do! public := asks (λ w, publicFiles (self w)) in
  match public with
  | Some p =>
      do! files := asks (λ w, filesRoot (root (self w)) (kernel w)) in
      do! ok := (if bool_decide (files = Some (proot p)) then intactAt FilesVolume else ret false) in
      if ok then intactAt Container else fail "files_volume_replaced_or_unavailable"
  | None => intactAt Container
  end.

Fixpoint walk (v : Volume) (flags : Flags) (parents : bool) (parts : list (list N)) (fd : Fd) : M (option Fd) :=
  match parts with
  | [] => ret (Some fd)
  | name :: rest =>
      let last := bool_decide (rest = []) in
      do! _ := (if parents && negb last then sys (makeDirectoryAt fd name) else ret None) in
      do! next := sys (openFileAt fd name (if last then flags else directoryOnly)) in
      match next with
      | None => do! _ := failAt v (u "path_unavailable_or_redirected") in ret None
      | Some fd => walk v flags parents rest fd
      end
  end.
(** [openAt] once it is known whose tree the path is in. *)
Definition openIn (v : Volume) (path : QString) (flags : Flags) (parents : bool) : M (option Fd) :=
  do! r := asks (rootOf v) in
  match r with
  | None => ret None
  | Some (rootPath, dev, i) =>
      do! fd := sys (openFile v rootPath) in
      match fd with
      | None => do! _ := failAt v (u "container_unavailable") in ret None
      | Some fd =>
          do! s := sys (fstat fd) in
          match s with
          | Some s =>
              if (st_dev s =? dev) && (st_ino s =? i)%N
              then if isEmpty path then ret (Some fd) else walk v flags parents (components path) fd
              else do! _ := failAt v (u "container_replaced") in ret None
          | None => do! _ := failAt v (u "container_replaced") in ret None
          end
      end
  end.
Definition invalid (v : Volume) : M (option Fd) :=
  do! _ := setErrno EINVAL in do! _ := failAt v (u "invalid_path") in ret None.
Definition openPublic (path : QString) (flags : Flags) (parents : bool) : M (option Fd) :=
  do! ok := intactAt FilesVolume in
  if negb ok || (negb (isEmpty path) && negb (relative path)) then invalid FilesVolume
  else openIn FilesVolume path flags parents.
Definition inPublic (path : QString) (w : World) : bool :=
  bool_decide (is_Some (publicFiles (self w))) && (bool_decide (path = u "Files") || startsWith path (u "Files/")).
Definition openAt (path : QString) (flags : Flags) (parents : bool) : M (option Fd) :=
  do! ok := intact in
  if negb ok || (negb (isEmpty path) && negb (relative path)) then invalid Container else
  do! public := asks (inPublic path) in
  if public then
    do! fd := openPublic (if bool_decide (path = u "Files") then [] else qmid 6 path) flags parents in
    match fd with
    | Some fd => ret (Some fd)
    | None => λ w, (None, set_self (set_error (default [] (perror <$> publicFiles (self w))) (self w)) w)
    end
  else openIn Container path flags parents.

(** ** Directories *)
Definition parentName (path : QString) : QString :=
  if containsChar slash path then qleft (lastIndexOf slash path) path else [].
Definition lastName (path : QString) : list N := encodeName (sectionLast slash path).
Definition join (prefix part : QString) : QString := prefix ++ (if isEmpty prefix then [] else [slash]) ++ part.
Fixpoint makeAll (prefix : QString) (parts : list QString) : M bool :=
  match parts with
  | [] => ret true
  | part :: rest =>
      do! public := asks (λ w, bool_decide (is_Some (publicFiles (self w)))) in
      if isEmpty prefix && bool_decide (part = u "Files") && public then
        do! ok := intact in if ok then makeAll (u "Files") rest else ret false
      else
        do! dir := openAt prefix directoryOnly false in
        match dir with
        | None => ret false
        | Some d =>
            do! made := sys (makeDirectoryAt d (encodeName part)) in
            do! exists_ := errnoIs EEXIST in
            if negb (bool_decide (is_Some made)) && negb exists_ then fail "mkdir_failed" else
            do! check := openAt (join prefix part) directoryOnly false in
            match check with
            | None => ret false
            | Some _ => makeAll (join prefix part) rest
            end
        end
  end.
Definition mkdir (path : QString) : M bool :=
  if negb (relative path) then fail "invalid_path" else makeAll [] (qsplit slash path).
Definition parent (path : QString) (create : bool) : M (option Fd) :=
  if negb (relative path) then invalid Container else
  let name := parentName path in
  do! ok := (if create && negb (isEmpty name) then mkdir name else ret true) in
  if ok then openAt name directoryOnly false else ret None.

(** ** Status and lists *)
Definition state (path : QString) : M (option FileState) :=
  do! public := asks (λ w, publicFiles (self w)) in
  match bool_decide (path = u "Files"), public with
  | true, Some p =>
      do! ok := intact in
      if negb ok then ret None else
      do! s := sys (lstat (proot p)) in
      match s with
      | None => failed "files_volume_unavailable"
      | Some s => ret (Some (mkState (u "directory") (stampOf s) 0))
      end
  | _, _ =>
      do! directory := parent path false in
      match directory with
      | None =>
          do! missing := errnoIs ENOENT in
          do! ok := (if missing then intact else ret false) in
          if ok then do! _ := errorClear in ret (Some absent) else ret None
      | Some d =>
          do! s := sys (fstatat d (lastName path)) in
          match s with
          | None => do! missing := errnoIs ENOENT in
                    if missing then ret (Some absent) else failed "stat_failed"
          | Some s =>
              if negb (bool_decide (st_kind s = Regular)) && negb (bool_decide (st_kind s = Directory))
              then failed "symlink_or_special_file"
              else ret (Some (mkState (if bool_decide (st_kind s = Directory) then u "directory" else u "file") (stampOf s)
                                      (if bool_decide (st_kind s = Regular) then st_size s else 0)))
          end
      end
  end.

Definition systemNames : list QString :=
  [u ".Spotlight-V100"; u ".fseventsd"; u ".Trashes"; u ".TemporaryItems"; u ".DocumentRevisions-V100"; u ".DS_Store"].
Fixpoint readAll (public : bool) (entries : list (list N)) (acc : list QString) : M (option (list QString)) :=
  do! r := sys quietly in
  match r, entries with
  | None, _ => failed "directory_read_failed"
  | Some _, [] => ret (Some acc)
  | Some _, name :: rest =>
      if public && existsb (λ s, bool_decide (name = encodeName s)) systemNames then readAll public rest acc else
      let text := decodeName name in
      if negb (relative text) || bool_decide (encodeName text ≠ name) then failed "unsupported_filename"
      else readAll public rest (acc ++ [text])
  end.
Definition list_ (path : QString) : M (option (list QString)) :=
  do! fd := openAt path directoryOnly false in
  match fd with
  | None => ret None
  | Some fd =>
      do! dir := sys quietly in
      match dir with
      | None => failed "directory_unavailable"
      | Some _ =>
          do! has := asks (λ w, bool_decide (is_Some (publicFiles (self w)))) in
          do! entries := asks (λ w, children (kernel w) (place fd)) in
          do! names := readAll (has && bool_decide (path = u "Files")) entries [] in
          match names with
          | None => ret None
          | Some names =>
              let names := if isEmpty path && has && negb (bool_decide (u "Files" ∈ names)) then names ++ [u "Files"] else names in
              ret (Some (merge_sort qle names))
          end
      end
  end.

(** ** Reading *)
(** The descriptor of a regular file and its status. *)
Definition openRegular (path : QString) (flags : Flags) : M (option (Fd * Stat)) :=
  do! fd := openAt path flags false in
  match fd with
  | None => ret None
  | Some fd =>
      do! s := sys (fstat fd) in
      match s with
      | Some s => ret (if bool_decide (st_kind s = Regular) then Some (fd, s) else None)
      | None => ret None
      end
  end.
Definition read (path : QString) (offset length : Z) (expected : QString) : M (option (list N)) :=
  do! _ := errorClear in
  do! f := openRegular path readOnly in
  match f with
  | None => failed "not_file"
  | Some (fd, s) =>
      let before := stampOf s in
      if (negb (isEmpty expected) && bool_decide (expected ≠ before)) || (offset <? 0) || (st_size s <? offset)
         || (length <? 0) || (1024 * 1024 <? length)
      then failed "file_changed_or_invalid_offset" else
      do! bytes := sys (pread fd (Z.min length (st_size s - offset)) offset) in
      match bytes with
      | None => failed "file_changed"
      | Some bytes =>
          do! s := sys (fstat fd) in
          match s with
          | Some s => if bool_decide (stampOf s ≠ before) then failed "file_changed" else ret (Some bytes)
          | None => failed "file_changed"
          end
      end
  end.

Definition bufferSize : Z := 1024 * 1024.
(** The loop of [hash]; what was read so far is what the digest was given. *)
Fixpoint hashLoop (fuel : nat) (fd : Fd) (acc : list N) : M (option (list N)) :=
  match fuel with
  | O => ret None
  | S fuel =>
      do! stop := poll in
      if stop then failed "cancelled" else
      do! size := sys (pread fd bufferSize (Z.of_nat (List.length acc))) in
      match size with
      | None => failed "read_failed"
      | Some [] => ret (Some acc)
      | Some bytes => hashLoop fuel fd (acc ++ bytes)
      end
  end.
Definition hash (path expected : QString) : M QString :=
  do! _ := errorClear in
  do! f := openRegular path readOnly in
  match f with
  | None => do! _ := fail "not_file" in ret []
  | Some (fd, s) =>
      let before := stampOf s in
      if negb (isEmpty expected) && bool_decide (expected ≠ before) then do! _ := fail "file_changed" in ret [] else
      do! bytes := hashLoop (S (Z.to_nat (st_size s))) fd [] in
      match bytes with
      | None => ret []
      | Some bytes =>
          do! s := sys (fstat fd) in
          match s with
          | Some s => if bool_decide (stampOf s ≠ before) then do! _ := fail "file_changed" in ret [] else ret (Records.digest bytes)
          | None => do! _ := fail "file_changed" in ret []
          end
      end
  end.

(** ** Writing *)
Fixpoint writeLoop (fuel : nat) (fd : Fd) (offset : Z) (bytes : list N) : M bool :=
  match bytes, fuel with
  | [], _ => ret true
  | _, O => ret false
  | _, S fuel =>
      do! stop := poll in
      if stop then fail "cancelled" else
      do! n := sys (pwrite fd bytes offset) in
      match n with
      | Some n => if n <=? 0 then fail "write_failed" else writeLoop fuel fd (offset + n) (drop (Z.to_nat n) bytes)
      | None => fail "write_failed"
      end
  end.
Definition append (path : QString) (offset : Z) (bytes : list N) : M bool :=
  let size := Z.of_nat (List.length bytes) in
  do! f := openRegular path readWriteCreate in
  match f with
  | None => fail "transfer_unavailable"
  | Some (fd, s) =>
      if (offset <? 0) || (st_size s <? offset) then fail "invalid_offset" else
      if offset <? st_size s then
        if st_size s <? offset + size then fail "overlapping_chunk" else
        do! previous := sys (pread fd size offset) in
        if bool_decide (previous = Some bytes) then ret true else fail "different_chunk_retry"
      else
        do! ok := writeLoop (List.length bytes) fd offset bytes in
        if ok then orFail "flush_failed" (sys quietly) else ret false
  end.

Definition preserve (path copy : QString) : M bool :=
  do! source := parent path false in
  do! dest := parent copy true in
  match source, dest with
  | Some source, Some dest =>
      do! s := sys (fstatat source (lastName path)) in
      if negb (bool_decide (st_kind <$> s = Some Regular)) then fail "not_file" else
      do! linked := sys (linkat source (lastName path) dest (lastName copy)) in
      match linked with
      | None => fail "preserve_failed"
      | Some _ => orFail "flush_failed" (sys quietly)
      end
  | _, _ => ret false
  end.
Definition archive (path : QString) : M bool :=
  do! id := asks (λ w, createUuid (kernel w)) in
  let copy := u ".society-sync/recovery/" ++ id in
  do! ok := preserve path copy in
  if negb ok then ret false else
  do! now := asks (λ w, currentDateTimeUtc (kernel w)) in
  append (copy ++ u ".json") 0
    (Records.json (obj [("path", JStr path); ("backup", JStr copy); ("savedAt", JStr now)]%string)).

Definition install (source target : QString) : M bool :=
  do! ok := intact in
  if negb ok then ret false else
  do! from := parent source false in
  do! to := parent target true in
  match from, to with
  | Some from, Some to =>
      do! s := sys (fstatat to (lastName target)) in
      do! missing := errnoIs ENOENT in
      do! ready := (match s with
                    | Some s => if bool_decide (st_kind s = Regular) then archive target else fail "target_is_not_file"
                    | None => if missing then ret true else fail "target_unavailable"
                    end) in
      if negb ready then ret false else
      do! ok := intact in
      if negb ok then ret false else
      do! moved := sys (renameat from (lastName source) to (lastName target)) in
      match moved with
      | None => fail "replace_failed"
      | Some _ => orFail "flush_failed" (sys quietly)
      end
  | _, _ => ret false
  end.

(** The end of [detach]: into a free place, in one step. *)
Definition moveAway (path destination : QString) (from to : Fd) (saved : bool) : M bool :=
  if saved then fail "recovery_destination_occupied" else
  do! ok := intact in
  do! moved := (if ok then sys (renameat from (lastName path) to (lastName destination)) else ret None) in
  match moved with
  | None => fail "recovery_move_failed"
  | Some _ =>
      do! synced := sys quietly in
      match synced with
      | None => fail "flush_failed"
      | Some _ => orFail "flush_failed" (sys quietly)
      end
  end.
Definition detach (path destination : QString) : M bool :=
  if negb (startsWith destination (u ".society-sync/detached/")) then fail "invalid_recovery_path" else
  do! from := parent path false in
  do! to := parent destination true in
  match from, to with
  | Some from, Some to =>
      do! a := sys (fstatat from (lastName path)) in
      do! missing := errnoIs ENOENT in
      if negb (bool_decide (is_Some a)) && negb missing then fail "recovery_source_unavailable" else
      do! b := sys (fstatat to (lastName destination)) in
      do! missing := errnoIs ENOENT in
      if negb (bool_decide (is_Some b)) && negb missing then fail "recovery_destination_unavailable" else
      if negb (bool_decide (is_Some a)) then if bool_decide (is_Some b) then ret true else fail "recovery_entry_missing" else
      moveAway path destination from to (bool_decide (is_Some b))
  | _, _ => ret false
  end.

(** ** Removing *)
Definition ownedPresentation (bytes : list N) : bool :=
  if maximumDocumentBytes <? Z.of_nat (List.length bytes) then false else
  let value := fromJson bytes in
  bool_decide (value.["format"] = JS "iiFileProvider.Presentation") && (toInt value.["schema"] =? 1).
Definition previewName (name : list N) : list N := encodeName (u ".") ++ name ++ encodeName (u ".iisacc-preview").
Definition removeOwnedPresentation (d : Fd) (name : list N) : M bool :=
  let preview := previewName name in
  do! f := sys (openFileAt d preview readOnly) in
  match f with
  | None => do! a := errnoIs ENOENT in do! b := errnoIs ELOOP in ret (a || b)
  | Some fd =>
      do! s := sys (fstat fd) in
      match s with
      | None => ret true
      | Some s =>
          if negb (bool_decide (st_kind s = Regular)) then ret true else
          if (st_size s <? 0) || (maximumDocumentBytes <? st_size s) then ret true else
          do! opened := sys quietly in
          match opened with
          | None => ret false
          | Some _ =>
              do! bytes := sys (pread fd (maximumDocumentBytes + 1) 0) in
              if negb (ownedPresentation (default [] bytes)) then ret true else
              do! current := sys (fstatat d preview) in
              match current with
              | None => errnoIs ENOENT
              | Some c =>
                  if negb (st_dev c =? st_dev s) || negb (st_ino c =? st_ino s)%N || negb (bool_decide (st_kind c = Regular))
                  then ret false else
                  do! gone := sys (unlinkat d preview false) in
                  match gone with
                  | Some _ => ret true
                  | None => errnoIs ENOENT
                  end
              end
          end
      end
  end.

Definition cancelPreview (path : QString) : M unit :=
  λ w, (tt, set_kernel (cancelPending (root (self w)) path (kernel w)) w).
Definition temporaryLock : QString := u ".iisacc-temporary.lock".
(** A folder that holds nothing but a lease nobody has moves out of the way whole. *)
Definition retireLease (path : QString) (d : Fd) : M bool :=
  do! _ := cancelPreview path in
  do! child := sys (openat d (lastName path) directoryOnly) in
  match child with
  | None => fail "directory_changed"
  | Some child =>
      do! sentinel := sys (openFileAt child (encodeName temporaryLock) (mkFlags false true false)) in
      do! free := match sentinel with
                  | None => ret false
                  | Some fd =>
                      do! s := sys (fstat fd) in
                      match s with
                      | None => ret false
                      | Some s =>
                          if negb (bool_decide (st_kind s = Regular)) || negb (st_size s =? 0) || negb (st_nlink s =? 1)%nat
                          then ret false
                          else do! got := sys (flock fd) in ret (bool_decide (is_Some got))
                      end
                  end in
      if free then
        do! id := asks (λ w, createUuid (kernel w)) in
        detach path (u ".society-sync/detached/empty-" ++ id)
      else fail "directory_in_use"
  end.
Definition remove (path : QString) : M bool :=
  do! directory := parent path false in
  match directory with
  | None =>
      do! missing := errnoIs ENOENT in
      do! ok := (if missing then intact else ret false) in
      if ok then do! _ := errorClear in ret true else ret false
  | Some d =>
      let name := lastName path in
      do! s := sys (fstatat d name) in
      match s with
      | None =>
          do! missing := errnoIs ENOENT in
          do! ok := (if missing then removeOwnedPresentation d name else ret false) in
          if ok then ret true else fail "stat_failed"
      | Some s =>
          let regular := bool_decide (st_kind s = Regular) in
          let folder := bool_decide (st_kind s = Directory) in
          if negb regular && negb folder then fail "symlink_or_special_file" else
          do! names := (if folder then list_ path else ret (Some [])) in
          match names with
          | None => ret false
          | Some names =>
              if folder && bool_decide (names = [temporaryLock]) then retireLease path d else
              do! kept := (if regular && negb (startsWith path (u ".society-sync/")) then archive path else ret true) in
              if negb kept then ret false else
              do! _ := (if regular then cancelPreview path else ret tt) in
              do! ok := intact in
              do! gone := (if ok then sys (unlinkat d name folder) else ret None) in
              match gone with
              | None => fail "delete_failed_or_directory_not_empty"
              | Some _ =>
                  do! cleaned := (if regular then removeOwnedPresentation d name else ret true) in
                  if cleaned then orFail "flush_failed" (sys quietly) else fail "presentation_cleanup_failed"
              end
          end
      end
  end.

(** ** Exact names *)
Fixpoint exactFrom (parent : QString) (parts : list QString) : M bool :=
  match parts with
  | [] => ret true
  | part :: rest =>
      do! names := list_ parent in
      match names with
      | None => ret false
      | Some names =>
          if bool_decide (part ∈ names) then exactFrom (join parent part) rest else
          do! existing := state (join parent part) in
          match existing with
          | None => ret false
          | Some e => if bool_decide (kind e = u "deleted") then ret true else fail "filename_normalization_collision"
          end
      end
  end.
Definition exactPath (path : QString) : M bool := exactFrom [] (qsplit slash path).

(** ** What it implements *)
#[global] Instance confined : FileStore := {
  world := World;
  ferror w := error (self w);
  clearError w := (errorClear w).2;
  Files.intact := intact;
  fstate := state;
  flist := list_;
  fread := read;
  fhash := hash;
  fmkdir := mkdir;
  fappend := append;
  finstall := install;
  fpreserve := preserve;
  fdetach := detach;
  fremove := remove;
  fexactPath := exactPath
}.
(** The name a path stands for, and the bytes under it. *)
Definition keyOf (public : bool) (path : QString) : key :=
  if public && startsWith path (u "Files/") then (FilesVolume, components (qmid 6 path)) else (Container, components path).
Definition hasPublic (w : World) : bool := bool_decide (is_Some (publicFiles (self w))).
Definition bytesAt (w : World) (path : QString) : option (list N) :=
  if relative path then data (kernel w) (keyOf (hasPublic w) path) else None.
End with_native.
End Confined.
