(* ===== verification/ConfinedPaths.v ===== *)
(** The names that the paths of src/Sync/ConfinedFiles.cpp stand for: different paths
    stand for different names, and what is below a path is below its name. *)
From S2P Require Import Prelude Qt Utf8 Records Files Posix PosixLaws Confined.
Open Scope Z_scope.

Module ConfinedPaths.
Import Posix PosixLaws Confined.

(** A string that survives encoding as a file name. *)
Record nice (s : QString) : Prop := { nice_units : units s = true; nice_valid : isValidUtf16 s = true }.
Lemma nice_inj s t : nice s → nice t → encodeName s = encodeName t → s = t.
Proof. intros [] []. by apply encodeName_inj. Qed.
Lemma units_app s t : units (s ++ t) = units s && units t.
Proof. apply forallb_app. Qed.
Lemma nice_cut s c t :
  highSurrogate c = false → lowSurrogate c = false → nice (s ++ c :: t) → nice s ∧ nice t.
Proof.
  intros Hh Hl [Hu Hv]. rewrite units_app in Hu. cbn in Hu. bool_hyps.
  apply isValidUtf16_cut in Hv as [Hs Ht]; [|done..]. split; by split.
Qed.
Lemma nice_app s t : nice s → nice t → nice (s ++ t).
Proof. intros [H1 H2] [H3 H4]. split; [by rewrite units_app, H1|by rewrite isValidUtf16_app]. Qed.
Lemma toUtf8_app s t : isValidUtf16 s = true → toUtf8 (s ++ t) = toUtf8 s ++ toUtf8 t.
Proof.
  remember (List.length s) as n eqn:Hn. revert s Hn. induction n as [n IH] using lt_wf_ind. intros s -> Hs.
  destruct s as [|c s]; [done|]. cbn in *. destruct (highSurrogate c).
  - destruct s as [|d s]; [done|]. cbn in *. bool_hyps. rewrite H. rewrite <- app_assoc. f_equal.
    by apply (IH (List.length s)); [lia|..].
  - destruct (lowSurrogate c); [done|]. rewrite <- app_assoc. f_equal. by apply (IH (List.length s)); [lia|..].
Qed.

Lemma relative_nice p : relative p = true → nice p.
Proof. unfold relative. intros H. bool_hyps. by split. Qed.
Lemma relative_parts p part : relative p = true → part ∈ qsplit slash p → part ≠ [].
Proof.
  unfold relative. intros [_ H]%andb_true_iff Hp. rewrite forallb_forall in H. apply list_elem_of_In, H in Hp.
  unfold isEmpty in Hp. by bool_hyps.
Qed.
Lemma split_nice p : nice p → Forall nice (qsplit slash p).
Proof.
  remember (List.length p) as n eqn:Hn. revert p Hn. induction n as [n IH] using lt_wf_ind. intros p -> Hp.
  destruct (decide (slash ∈ p)) as [(f & t & -> & Hf)%list_elem_of_split_l|Hs].
  - rewrite qsplit_sep by done. apply nice_cut in Hp as [H1 H2]; [|done..]. constructor; [done|].
    apply (IH (List.length t)); [rewrite length_app; cbn; lia|done|done].
  - rewrite qsplit_single by done. by apply Forall_singleton.
Qed.
Lemma qjoin_app (c : N) a r rest : a ≠ [] → qjoin c (a ++ r :: rest) = qjoin c a ++ c :: qjoin c (r :: rest).
Proof.
  induction a as [|x a IH]; [done|]. intros _. destruct a as [|y a]; [done|].
  cbn [app]. change (qjoin c (x :: y :: a ++ r :: rest)) with (x ++ c :: qjoin c ((y :: a) ++ r :: rest)).
  rewrite IH by done. change (qjoin c (x :: y :: a)) with (x ++ c :: qjoin c (y :: a)). by rewrite <- app_assoc.
Qed.
Lemma map_prefix (a b : list QString) (t : list (list N)) :
  Forall nice a → Forall nice b → map encodeName b = map encodeName a ++ t → ∃ r, b = a ++ r ∧ t = map encodeName r.
Proof.
  intros Ha. revert b. induction Ha as [|x a Hx Ha IH]; intros b Hb E; [by exists b|].
  destruct b as [|y b]; [done|]. apply Forall_cons in Hb as [Hy Hb]. cbn in E. injection E as E1 E2.
  apply nice_inj in E1 as ->; [|done..]. by destruct (IH b Hb E2) as (r & -> & ->); exists r.
Qed.
Lemma components_under p q t :
  nice p → nice q → components q = components p ++ t → (q = p ∧ t = []) ∨ (below p q = true ∧ t ≠ []).
Proof.
  intros Hp Hq E. apply map_prefix in E as (r & E & ->); [|by apply split_nice..].
  destruct r as [|x r]; [left|right].
  - rewrite app_nil_r in E. split; [|done]. by rewrite <- (qjoin_qsplit slash q), E, qjoin_qsplit.
  - split; [|done]. apply below_spec. exists (qjoin slash (x :: r)).
    rewrite <- (qjoin_qsplit slash q), E, qjoin_app by apply qsplit_nonempty. by rewrite qjoin_qsplit.
Qed.
Lemma components_inj p q : nice p → nice q → components q = components p → q = p.
Proof.
  intros Hp Hq E. destruct (components_under p q []) as [[-> _]|[_ []]]; [done|done|by rewrite app_nil_r|done|done].
Qed.

(** ** The public volume *)
Definition filesPrefix : QString := u "Files/".
Lemma files_mid p : startsWith p (u "Files/") = true → p = u "Files/" ++ qmid 6 p.
Proof. intros [t ->]%startsWith_spec. done. Qed.
Lemma files_nice p : startsWith p (u "Files/") = true → nice p → nice (qmid 6 p).
Proof. intros H Hp. rewrite (files_mid p H) in Hp. change (u "Files/") with (u "Files" ++ [slash]) in Hp.
  rewrite <- app_assoc in Hp. cbn [app] in Hp. by apply nice_cut in Hp as [_ Hp]. Qed.

Lemma keyOf_under h p q :
  nice p → nice q → under (keyOf h p) (keyOf h q) = true → q = p ∨ below p q = true.
Proof.
  intros Hp Hq [t E]%under_spec. unfold keyOf in E.
  destruct (h && startsWith p (u "Files/")) eqn:Ep, (h && startsWith q (u "Files/")) eqn:Eq; try done; cbn in E; injection E as E.
  - apply andb_true_iff in Ep as [_ Ep], Eq as [_ Eq]. pose proof (files_nice p Ep Hp). pose proof (files_nice q Eq Hq).
    apply components_under in E as [[E _]|[E _]]; [left|right|done|done].
    + by rewrite (files_mid q Eq), E, <- files_mid.
    + apply below_spec in E as [x E]. apply below_spec. exists x.
      by rewrite (files_mid q Eq), E, app_assoc, <- files_mid.
  - apply components_under in E as [[E _]|[E _]]; [by left|by right|done|done].
Qed.
Lemma keyOf_inj h p q : nice p → nice q → keyOf h p = keyOf h q → p = q.
Proof.
  intros Hp Hq E. destruct (keyOf_under h p q) as [->|H1]; [done|done|rewrite E; apply under_refl|done|].
  destruct (keyOf_under h q p) as [->|H2]; [done|done|rewrite E; apply under_refl|done|].
  apply below_spec in H1 as [x ->], H2 as [y H2]. apply (f_equal List.length) in H2.
  rewrite !length_app in H2. cbn in H2. lia.
Qed.

(** ** A name and its directory *)
Definition openKey (h : bool) (p : QString) : key :=
  if h && (bool_decide (p = u "Files") || startsWith p (u "Files/"))
  then (FilesVolume, if bool_decide (p = u "Files") then [] else components (qmid 6 p))
  else (Container, if isEmpty p then [] else components p).
Lemma qsplit_snoc d n : slash ∉ n → qsplit slash (d ++ slash :: n) = qsplit slash d ++ [n].
Proof.
  intros Hn. remember (List.length d) as l eqn:Hl. revert d Hl. induction l as [l IH] using lt_wf_ind. intros d ->.
  destruct (decide (slash ∈ d)) as [(f & t & -> & Hf)%list_elem_of_split_l|Hs].
  - rewrite <- app_assoc. cbn [app]. rewrite (qsplit_sep slash f t), (qsplit_sep slash f (t ++ slash :: n)) by done. cbn [app]. f_equal.
    apply (IH (List.length t)); [rewrite length_app; cbn; lia|done].
  - rewrite qsplit_sep, (qsplit_single slash d), qsplit_single by done. done.
Qed.
Lemma split_last p : slash ∈ p → ∃ d, p = d ++ slash :: sectionLast slash p ∧ slash ∉ sectionLast slash p ∧ parentName p = d.
Proof.
  intros Hs. destruct (dirOf_spec p) as ([Ed|[d Ed]] & E & Hn); [by rewrite Ed in E; cbn in E; rewrite <- E in Hn|].
  rewrite Ed, <- app_assoc in E. exists d. split_and!; [exact E|done|].
  unfold parentName. rewrite (proj2 (containsChar_elem _ _)) by done. rewrite E at 1 2.
  unfold lastIndexOf. cbn [app]. rewrite lastIndexOf_go_sep by done. rewrite qleft_take by lia.
  by rewrite Z.add_0_l, Nat2Z.id, take_app_length.
Qed.
Lemma parent_key' h p :
  (slash ∈ p → parentName p ≠ []) → child (openKey h (parentName p)) (lastName p) = keyOf h p.
Proof.
  intros Hr. destruct (decide (slash ∈ p)) as [Hs|Hs].
  - destruct (split_last p Hs) as (d & E & Hn & Ed). pose proof (Hr Hs) as Hd. rewrite Ed in Hd |- *. clear Hr Ed.
    unfold lastName. set (n := sectionLast slash p) in *. clearbody n. subst p.
    unfold openKey, keyOf. unfold isEmpty. rewrite (bool_decide_eq_false_2 (d = [])) by done.
    destruct h; cbn [andb]; [|unfold child, components; cbn; by rewrite qsplit_snoc, map_app].
    destruct (bool_decide_reflect (d = u "Files")) as [->|Hf]; cbn [orb].
    + rewrite (proj2 (startsWith_spec (u "Files" ++ slash :: n) (u "Files/"))) by (by exists n).
      change (qmid 6 (u "Files" ++ slash :: n)) with n. rewrite bool_decide_eq_true_2 by done.
      unfold child, components. cbn [orb fst snd app]. by rewrite qsplit_single.
    + destruct (startsWith d (u "Files/")) eqn:Es.
      * rewrite (files_mid d Es). set (m := qmid 6 d). rewrite <- app_assoc.
        rewrite !(proj2 (startsWith_spec (u "Files/" ++ _) (u "Files/"))) by (by eexists).
        change (qmid 6 (u "Files/" ++ m ++ slash :: n)) with (m ++ slash :: n). change (qmid 6 (u "Files/" ++ m)) with m.
        unfold child, components. cbn [fst snd]. by rewrite qsplit_snoc, map_app.
      * assert (startsWith (d ++ slash :: n) (u "Files/") = false) as ->.
        { apply not_true_iff_false. intros [t E]%startsWith_spec.
          change (u "Files/") with (u "Files" ++ [slash]) in E. rewrite <- app_assoc in E.
          destruct (app_eq_inv _ _ _ _ E) as [(k & -> & Hk)|(k & Hk & Hk')].
          - destruct k as [|c k]; [by rewrite app_nil_r in Hf|]. injection Hk as <- Hk.
            revert Es. apply eq_true_false_abs, startsWith_spec. by exists k.
          - destruct k as [|c k]; [by rewrite app_nil_r in Hk|]. injection Hk' as <- _.
            assert (slash ∈ u "Files") as Hin; [rewrite Hk; apply elem_of_app; right; by left|by revert Hin; by_compute]. }
        rewrite bool_decide_eq_false_2 by done. cbn [orb]. unfold child, components. cbn [fst snd]. by rewrite qsplit_snoc, map_app.
  - unfold parentName. rewrite (proj2 (containsChar_false _ _)) by done.
    assert (startsWith p (u "Files/") = false) as Es.
    { apply not_true_iff_false. intros [t ->]%startsWith_spec. apply Hs. apply elem_of_app. left. by_compute. }
    unfold openKey, keyOf. rewrite Es. change (bool_decide ([] = u "Files")) with false. cbn [orb startsWith].
    change (startsWith [] (u "Files/")) with false. rewrite !andb_false_r. unfold isEmpty. cbn.
    unfold child, components, lastName, sectionLast. cbn. by rewrite qsplit_single.
Qed.
Lemma relative_parent p : relative p = true → slash ∈ p → parentName p ≠ [].
Proof.
  intros Hr Hs Ed. destruct (split_last p Hs) as (d & E & Hn & Ed'). rewrite Ed in Ed'. subst d.
  apply (relative_parts p [] Hr); [|done]. rewrite E. cbn [app]. change (slash :: ?x) with ([] ++ slash :: x).
  rewrite (qsplit_sep slash []) by (by intros ?%elem_of_nil). by left.
Qed.
Lemma parent_key h p :
  relative p = true → child (openKey h (parentName p)) (lastName p) = keyOf h p.
Proof. intros Hr. apply parent_key'. by apply relative_parent. Qed.
(** A file is opened under its own name. *)
Lemma openKey_file h p : (openKey h p).2 ≠ [] → openKey h p = keyOf h p.
Proof.
  unfold openKey, keyOf. destruct h; cbn [andb].
  - destruct (bool_decide_reflect (p = u "Files")); [done|]. cbn [orb]. destruct (startsWith p (u "Files/")); [done|].
    unfold isEmpty. by case_bool_decide.
  - unfold isEmpty. by case_bool_decide.
Qed.

(** ** Names that the replica keeps for itself *)
Lemma keyOf_recovery h t : keyOf h (u ".society-sync/" ++ t) = (Container, components (u ".society-sync/" ++ t)).
Proof. unfold keyOf. change (startsWith (u ".society-sync/" ++ t) (u "Files/")) with false. by rewrite andb_false_r. Qed.
Lemma slash_dir p : slash ∈ p ↔ dirOf p ≠ [].
Proof.
  destruct (dirOf_spec p) as (Hd & E & Hn). split.
  - intros Hs Ed. rewrite Ed in E. cbn in E. by rewrite <- E in Hn.
  - intros Ed. destruct Hd as [Hd|[x Hd]]; [done|]. rewrite E, Hd. apply elem_of_app. left. apply elem_of_app. right. by left.
Qed.
Lemma parent_dir p : slash ∈ p → dirOf p = parentName p ++ [slash].
Proof.
  intros Hs. destruct (split_last p Hs) as (d & E & Hn & Ed). destruct (dirOf_spec p) as (_ & E' & _). rewrite Ed.
  rewrite E' in E at 1. change (slash :: ?x) with ([slash] ++ x) in E. rewrite app_assoc in E. by apply app_inv_tail in E.
Qed.
(** The preview beside a file has the name that the removal of the file looks for. *)
Lemma preview_parts p :
  nice p → parentName (previewOf p) = parentName p ∧ lastName (previewOf p) = previewName (lastName p)
           ∧ (slash ∈ previewOf p ↔ slash ∈ p) ∧ nice (previewOf p).
Proof.
  intros Np. destruct (dirOf_spec p) as (Hd & E & Hn). unfold previewOf, previewName. set (n := sectionLast slash p) in *.
  assert (slash ∉ u "." ++ n ++ u ".iisacc-preview") as Hp.
  { rewrite !not_elem_of_app. split_and!; [by_compute|done|by_compute]. }
  assert (nice (dirOf p) ∧ nice n) as [Nd Nn].
  { rewrite E in Np. destruct Hd as [Ed|[x Ed]]; rewrite Ed in *.
    - split; [done|exact Np].
    - rewrite <- app_assoc in Np. cbn [app] in Np. apply nice_cut in Np as [Nx Nn]; [|done..]. split; [|done]. by apply nice_app. }
  destruct (dirOf_app (dirOf p) (u "." ++ n ++ u ".iisacc-preview")) as [E1 E2]; [done..|].
  set (pv := dirOf p ++ u "." ++ n ++ u ".iisacc-preview") in *.
  assert (slash ∈ pv ↔ slash ∈ p) as Hiff by (by rewrite !slash_dir, E1).
  split_and!; [..|done|].
  - destruct (decide (slash ∈ p)) as [Hs|Hs].
    + pose proof (parent_dir p Hs) as H1. pose proof (parent_dir pv (proj2 Hiff Hs)) as H2. rewrite E1, H1 in H2.
      by apply app_inv_tail in H2.
    + unfold parentName. rewrite !(proj2 (containsChar_false _ _)); [done|done|by rewrite Hiff].
  - unfold lastName. rewrite E2. fold n. unfold encodeName. rewrite !toUtf8_app; [done|apply Nn|done].
  - unfold pv. repeat (apply nice_app; [done|]). done.
Qed.
Lemma preview_key h p q :
  relative p = true → nice q →
  child (openKey h (parentName p)) (previewName (lastName p)) = keyOf h q → q = previewOf p.
Proof.
  intros Hp Nq E. destruct (preview_parts p (relative_nice p Hp)) as (E1 & E2 & E3 & E4).
  rewrite <- E1, <- E2, parent_key' in E; [by apply keyOf_inj in E|].
  rewrite E1, E3. by apply relative_parent.
Qed.
End ConfinedPaths.
