(* ===== verification/ConfinedLaws.v ===== *)
(** src/Sync/ConfinedFiles.cpp implements the contract of Files.v: which bytes each
    operation may change, and what it promises when it succeeds; with any failures of
    the system calls. *)
From S2P Require Import Prelude Qt Utf8 Records Files Posix PosixLaws Confined ConfinedPaths.
Open Scope Z_scope.

Module ConfinedLaws.
Import Posix PosixLaws Confined ConfinedPaths.

Section with_native.
Context {PF : Platform} {NA : Native} {NL : NativeLaws}.

(** ** What an operation leaves alone *)
(** A relation of kernels that looks at the names and bytes of files only. *)
Class Quiet (R : relation Kernel) : Prop := {
  #[global] quiet_preorder :: PreOrder R;
  R_same k k' : sameFiles k k' → R k k'
}.
Section relation.
Context {R : relation Kernel} {RQ : Quiet R}.

Record kept (w w' : World) : Prop := { kept_public : hasPublic w' = hasPublic w; kept_kernel : R (kernel w) (kernel w') }.
#[global] Instance kept_preorder : PreOrder kept.
Proof. split; [by split|]. intros a b c [H1 H2] [H3 H4]. split; [congruence|by etransitivity]. Qed.
Definition keeps {A} (m : M A) : Prop := ∀ w, kept w (m w).2.

Lemma keeps_ret {A} (a : A) : keeps (ret a).
Proof. intros w. reflexivity. Qed.
Lemma keeps_asks {A} (f : World → A) : keeps (asks f).
Proof. intros w. reflexivity. Qed.
Lemma keeps_bind {A B} (m : M A) (f : A → M B) : keeps m → (∀ a, keeps (f a)) → keeps (bind m f).
Proof.
  intros Hm Hf w. unfold bind. specialize (Hm w). destruct (m w) as [a w']. etransitivity; [exact Hm|apply Hf].
Qed.
Lemma keeps_failAt v e : keeps (failAt v e).
Proof.
  intros w. split; [|apply R_same; reflexivity]. destruct v; [done|]. unfold hasPublic. cbn.
  by destruct (publicFiles (self w)).
Qed.
Lemma keeps_errorClear : keeps errorClear.
Proof. intros w. split; [done|]. apply R_same. reflexivity. Qed.
Lemma keeps_setErrno e : keeps (setErrno e).
Proof. intros w. split; [done|]. by apply R_same. Qed.
Lemma keeps_poll : keeps poll.
Proof. intros w. split; [done|]. apply R_same. reflexivity. Qed.
Lemma keeps_sys {A} (f : Z → Kernel → (A + Z) * Kernel) : (∀ z k, R k (f z k).2) → keeps (sys f).
Proof.
  intros H w. unfold sys. destruct (call f (kernel w)) as [a k] eqn:E. split; [done|]. cbn.
  destruct (call_cases f (kernel w)) as [Hc|(z & k1 & H1 & H2)]; [by rewrite E in Hc; apply R_same|].
  rewrite E in H2. etransitivity; [by apply R_same|]. etransitivity; [apply (H z)|by apply R_same].
Qed.
(** Calls that only look. *)
Lemma keeps_look {A} (f : Z → Kernel → (A + Z) * Kernel) : (∀ z k, (f z k).2 = k) → keeps (sys f).
Proof. intros H. apply keeps_sys. intros z k. rewrite H. reflexivity. Qed.
Lemma keeps_if {A} (b : bool) (m1 m2 : M A) : keeps m1 → keeps m2 → keeps (if b then m1 else m2).
Proof. by destruct b. Qed.
Lemma look_fstat fd z k : (fstat fd z k).2 = k.
Proof. done. Qed.
Lemma look_lstat p z k : (lstat p z k).2 = k.
Proof. unfold lstat. by case_match. Qed.
Lemma look_fstatat d n z k : (fstatat d n z k).2 = k.
Proof. unfold fstatat. by case_match. Qed.
Lemma look_open d n f z k : o_creat f = false → (openFileAt d n f z k).2 = k.
Proof. intros H. rewrite openFileAt_is. unfold openat. rewrite H. by repeat case_match. Qed.
Lemma look_openat d n f z k : o_creat f = false → (openat d n f z k).2 = k.
Proof. intros H. unfold openat. rewrite H. by repeat case_match. Qed.
Lemma look_root v p z k : (openFile v p z k).2 = k.
Proof. rewrite openFile_is. unfold openDirectory. by repeat case_match. Qed.
Lemma look_flock fd z k : (flock fd z k).2 = k.
Proof. unfold flock. by case_match. Qed.

(** A step whose result is known to satisfy [P]. *)
Lemma keeps_bindP {A B} (P : A → Prop) (m : M A) (f : A → M B) :
  keeps m → (∀ w a w', m w = (a, w') → P a) → (∀ a, P a → keeps (f a)) → keeps (bind m f).
Proof.
  intros Hm HP Hf w. unfold bind. specialize (Hm w). destruct (m w) as [a w'] eqn:E.
  etransitivity; [exact Hm|]. by eapply Hf, HP.
Qed.


End relation.
End with_native.
Arguments kept R _ _ : clear implicits.
Arguments keeps R {A} m : assert.

Ltac keeping_step :=
  match goal with
  | |- keeps _ (bind _ _) => apply keeps_bind; [|intros ?]
  | |- keeps _ (if _ then _ else _) => apply keeps_if
  | |- keeps _ (ret _) => apply keeps_ret
  | |- keeps _ (asks _) => apply keeps_asks
  | |- keeps _ (errnoIs _) => apply keeps_asks
  | |- keeps _ (fail _) => apply keeps_failAt
  | |- keeps _ (failAt _ _) => apply keeps_failAt
  | |- keeps _ (failed _) => unfold failed
  | |- keeps _ (orFail _ _) => unfold orFail
  | |- keeps _ (invalid _) => unfold invalid
  | |- keeps _ errorClear => apply keeps_errorClear
  | |- keeps _ poll => apply keeps_poll
  | |- keeps _ (setErrno _) => apply keeps_setErrno
  | |- keeps _ (sys quietly) => apply keeps_look; intros ? ?; reflexivity
  | |- keeps _ (sys (fstat _)) => apply keeps_look; intros ? ?; apply look_fstat
  | |- keeps _ (sys (lstat _)) => apply keeps_look; intros ? ?; apply look_lstat
  | |- keeps _ (sys (fstatat _ _)) => apply keeps_look; intros ? ?; apply look_fstatat
  | |- keeps _ (sys (pread _ _ _)) => apply keeps_look; intros ? ?; reflexivity
  | |- keeps _ (sys (flock _)) => apply keeps_look; intros ? ?; apply look_flock
  | |- keeps _ (sys (openFile _ _)) => apply keeps_look; intros ? ?; apply look_root
  | |- keeps _ (sys (openFileAt _ _ ?f)) => apply keeps_look; intros ? ?; by apply look_open
  | |- keeps _ (sys (openat _ _ ?f)) => apply keeps_look; intros ? ?; by apply look_openat
  | |- keeps _ (match ?x with _ => _ end) => destruct x
  | H : _ |- keeps _ _ => apply H
  end.
Ltac keeping := repeat keeping_step.

Section with_native.
Context {PF : Platform} {NA : Native} {NL : NativeLaws}.
Section operations.
Context {R : relation Kernel} {RQ : Quiet R}.
#[local] Abbreviation kept := (kept R).
#[local] Abbreviation keeps := (keeps R).

Lemma keeps_intactAt v : keeps (intactAt v).
Proof. unfold intactAt. keeping. Qed.
Lemma keeps_intact : keeps intact.
Proof. unfold intact. pose proof keeps_intactAt. keeping. Qed.
Lemma openat_place d n f z k fd k' : openat d n f z k = (inl fd, k') → place fd = child (place d) n.
Proof. unfold openat. repeat case_match; intros [= <- _]; done. Qed.
Lemma sys_some {A} (f : Z → Kernel → (A + Z) * Kernel) w a w' :
  sys f w = (Some a, w') → ∃ z k, 0 ≤ z ∧ sameFiles (kernel w) k ∧ f z k = (inl a, kernel w').
Proof. unfold sys. destruct (call f (kernel w)) as [x k] eqn:E. intros [= -> <-]. by apply call_some in E. Qed.
Lemma sys_place d n f w fd w' : sys (openFileAt d n f) w = (Some fd, w') → place fd = child (place d) n.
Proof. intros (z & k & _ & _ & E)%sys_some. rewrite openFileAt_is in E. by eapply openat_place. Qed.
Lemma sys_root v p w fd w' : sys (openFile v p) w = (Some fd, w') → place fd = (v, []).
Proof. intros (z & k & _ & _ & E)%sys_some. rewrite openFile_is in E. revert E. unfold openDirectory. repeat case_match; by intros [= <- _]. Qed.

(** Only the last step of a walk may create. *)
Lemma keeps_walk v flags parts fd :
  (∀ d n, child (place d) n = ((place fd).1, (place fd).2 ++ parts) → keeps (sys (openFileAt d n flags))) →
  keeps (walk v flags false parts fd).
Proof.
  revert fd. induction parts as [|n rest IH]; intros fd H; cbn [walk]; [apply keeps_ret|]. cbv zeta. cbn [andb].
  apply keeps_bind; [apply keeps_ret|intros _].
  apply (keeps_bindP (λ r, match r with Some fd' => place fd' = child (place fd) n | None => True end)).
  - case_bool_decide as Hr; [|keeping]. subst rest. by apply H.
  - intros w [fd'|] w'; [|done]. apply sys_place.
  - intros [fd'|] Hp; [|keeping]. apply IH. intros d m Hd. apply H. rewrite Hd, Hp. unfold child. cbn. by rewrite <- app_assoc.
Qed.
Lemma keeps_openIn v path flags :
  (∀ d n, path ≠ [] → child (place d) n = (v, components path) → keeps (sys (openFileAt d n flags))) →
  keeps (openIn v path flags false).
Proof.
  intros H. unfold openIn. apply keeps_bind; [apply keeps_asks|]. intros [[[r dev] i]|]; [|apply keeps_ret].
  apply (keeps_bindP (λ r, match r with Some fd => place fd = (v, []) | None => True end)); [keeping|intros w [fd|] w'; [|done]; apply sys_root|].
  intros [fd|] Hp; [|keeping]. apply keeps_bind; [keeping|]. intros [s|]; [|keeping].
  apply keeps_if; [|keeping]. unfold isEmpty. case_bool_decide as Hn; [keeping|].
  apply keeps_walk. intros d n Hd. apply H; [done|]. by rewrite Hd, Hp.
Qed.
Lemma keeps_openPublic path flags :
  (∀ d n, path ≠ [] → child (place d) n = (FilesVolume, components path) → keeps (sys (openFileAt d n flags))) →
  keeps (openPublic path flags false).
Proof.
  intros H. unfold openPublic. apply keeps_bind; [apply keeps_intactAt|]. intros ok.
  apply keeps_if; [keeping|]. by apply keeps_openIn.
Qed.
(** What a step of [openAt] keeps; where it ends; what the last step may create. *)
Lemma kept_openAt path flags w :
  (∀ d n, relative path = true → child (place d) n = openKey (hasPublic w) path → keeps (sys (openFileAt d n flags))) →
  kept w (openAt path flags false w).2.
Proof.
  intros H. unfold openAt, bind at 1. pose proof (keeps_intact w) as Hi. destruct (intact w) as [ok w1]. cbn [snd] in Hi.
  etransitivity; [exact Hi|]. rewrite <- (kept_public _ _ Hi) in H. clear Hi.
  destruct (negb ok || _) eqn:Eg.
  { revert w1 H. assert (keeps (invalid Container)) as Hk by keeping. intros w1 _. apply Hk. }
  assert (path ≠ [] → relative path = true) as Hr.
  { intros Hp. apply orb_false_iff in Eg as [_ Eg]. unfold isEmpty in Eg. rewrite bool_decide_eq_false_2 in Eg by done.
    cbn in Eg. by bool_hyps. }
  unfold bind at 1, asks. unfold inPublic. fold (hasPublic w1). unfold openKey in H.
  destruct (hasPublic w1 && _).
  - set (sub := if bool_decide _ then _ else _). assert (keeps (openPublic sub flags false)) as Hk.
    { apply keeps_openPublic. intros d n Hn Hd. unfold sub in *. destruct (bool_decide (path = u "Files")); [done|]. apply H; [|done].
      apply Hr. by intros ->. }
    unfold bind. specialize (Hk w1). destruct (openPublic sub flags false w1) as [fd w2]. cbn [snd] in Hk.
    destruct fd; [exact Hk|]. etransitivity; [exact Hk|]. split; [done|]. by apply R_same.
  - apply keeps_openIn. intros d n Hn Hd. unfold isEmpty in H. rewrite bool_decide_eq_false_2 in H by done. apply H; auto.
Qed.
Lemma keeps_open path flags : o_creat flags = false → keeps (openAt path flags false).
Proof. intros H w. apply kept_openAt. intros d n _ _. keeping. Qed.
Lemma keeps_parent path : keeps (parent path false).
Proof. unfold parent. cbn [andb]. pose proof (λ p, keeps_open p directoryOnly eq_refl). keeping. Qed.
Lemma keeps_state path : keeps (state path).
Proof. unfold state. pose proof keeps_parent. pose proof keeps_intact. keeping. Qed.
Lemma keeps_readAll public entries acc : keeps (readAll public entries acc).
Proof.
  revert acc. induction entries as [|e entries IH]; intros acc; cbn [readAll]; cbv zeta; keeping.
Qed.
Lemma keeps_list path : keeps (list_ path).
Proof. unfold list_. pose proof (λ p, keeps_open p directoryOnly eq_refl). pose proof keeps_readAll. cbv zeta. keeping. Qed.
Lemma keeps_openRegular path : keeps (openRegular path readOnly).
Proof. unfold openRegular. pose proof (λ p, keeps_open p readOnly eq_refl). keeping. Qed.
Lemma keeps_read path o n st : keeps (read path o n st).
Proof. unfold read. pose proof keeps_openRegular. cbv zeta. keeping. Qed.
Lemma keeps_hashLoop fuel fd acc : keeps (hashLoop fuel fd acc).
Proof. revert acc. induction fuel as [|fuel IH]; intros acc; cbn [hashLoop]; keeping. Qed.
Lemma keeps_hash path st : keeps (hash path st).
Proof. unfold hash. pose proof keeps_openRegular. pose proof keeps_hashLoop. cbv zeta. keeping. Qed.
Lemma keeps_exact path : keeps (exactPath path).
Proof.
  unfold exactPath. generalize (@nil N). induction (qsplit slash path) as [|part rest IH]; intros p; cbn [exactFrom]; [apply keeps_ret|].
  pose proof keeps_list. pose proof keeps_state. keeping.
Qed.

(** ** Directories *)
Section directories.
Hypothesis R_mkdir : ∀ d n z k, R k (mkdirat d n z k).2.
Lemma keeps_makeAll prefix parts : keeps (makeAll prefix parts).
Proof.
  revert prefix. induction parts as [|part rest IH]; intros prefix; cbn [makeAll]; [apply keeps_ret|].
  pose proof keeps_intact. pose proof (λ p, keeps_open p directoryOnly eq_refl).
  assert (∀ d n, keeps (sys (makeDirectoryAt d n))) as Hm by (intros d n; apply keeps_sys; intros z k; rewrite makeDirectoryAt_is; apply R_mkdir).
  keeping.
Qed.
Lemma keeps_mkdir path : keeps (mkdir path).
Proof. unfold mkdir. pose proof keeps_makeAll. keeping. Qed.
Lemma keeps_parentOf path create : keeps (parent path create).
Proof. unfold parent. pose proof keeps_mkdir. pose proof (λ p, keeps_open p directoryOnly eq_refl). cbv zeta. keeping. Qed.
End directories.
End operations.

(** ** Where descriptors are *)
Definition anyhow (_ _ : Kernel) : Prop := True.
#[export] Instance anyhow_quiet : Quiet anyhow.
Proof. by repeat split. Qed.
Lemma public_kept {A} (m : M A) w : keeps anyhow m → hasPublic (m w).2 = hasPublic w.
Proof. intros H. apply (H w). Qed.

Lemma walk_place v flags parts fd w fd' w' :
  walk v flags false parts fd w = (Some fd', w') → place fd' = ((place fd).1, (place fd).2 ++ parts).
Proof.
  revert fd w. induction parts as [|n rest IH]; intros fd w; cbn [walk].
  - intros [-> _]%some_pair_inv. rewrite app_nil_r. by destruct (place fd).
  - cbv zeta. cbn [andb]. unfold bind at 1. cbn [ret]. unfold bind at 1.
    destruct (sys _ w) as [[d|] w1] eqn:E; [|done]. apply sys_place in E.
    intros Hw%IH. rewrite Hw, E. unfold child. cbn. by rewrite <- app_assoc.
Qed.
Lemma openIn_place v path flags w fd w' :
  openIn v path flags false w = (Some fd, w') → place fd = (v, if isEmpty path then [] else components path).
Proof.
  unfold openIn. unfold bind at 1. cbn [asks]. destruct (rootOf v w) as [[[r dev] i]|]; [|done].
  unfold bind at 1. destruct (sys _ w) as [[d|] w1] eqn:E; [|done]. apply sys_root in E.
  unfold bind at 1. destruct (sys _ w1) as [[st|] w2]; [|done]. guard_case; [|done].
  unfold isEmpty. case_bool_decide; [by intros [-> _]%some_pair_inv|]. intros Hw%walk_place. by rewrite Hw, E.
Qed.
Lemma openAt_place path flags w fd w' :
  openAt path flags false w = (Some fd, w') →
  place fd = openKey (hasPublic w) path ∧ (path = [] ∨ relative path = true).
Proof.
  unfold openAt, bind at 1. pose proof (public_kept intact w keeps_intact) as Hp.
  destruct (intact w) as [ok w1]. cbn [snd] in Hp. rewrite <- Hp. clear Hp.
  destruct (negb ok || _) eqn:Eg; [done|]. intros H.
  assert (path = [] ∨ relative path = true) as Hpath.
  { apply orb_false_iff in Eg as [_ Eg]. unfold isEmpty in Eg. destruct (bool_decide_reflect (path = [])); [by left|right].
    cbn in Eg. by bool_hyps. }
  split; [|done]. revert H. unfold bind at 1, asks, inPublic. fold (hasPublic w1). unfold openKey.
  destruct (hasPublic w1 && _) eqn:Ef; [|by intros H%openIn_place].
  unfold bind. destruct (openPublic _ _ _ w1) as [[d|] w2] eqn:E; [|done]. intros [-> _]%some_pair_inv.
  revert E. unfold openPublic, bind at 1. destruct (intactAt _ w1) as [ok' w3]. guard_case; [done|].
  intros H%openIn_place. rewrite H. destruct (bool_decide_reflect (path = u "Files")); [done|].
  unfold isEmpty. case_bool_decide as Em; [|done]. exfalso.
  apply andb_true_iff in Ef as [_ Ef]. cbn [orb] in Ef.
  pose proof (files_mid path Ef) as Em'. rewrite Em, app_nil_r in Em'.
  destruct Hpath as [Hpath|Hpath]; [by rewrite Em' in Hpath|]. apply (relative_parts path [] Hpath); [|done].
  rewrite Em'. change (qsplit slash (u "Files/")) with [u "Files"; []]. right. by left.
Qed.

Lemma parent_place path create w fd w' :
  parent path create w = (Some fd, w') → place fd = openKey (hasPublic w) (parentName path) ∧ relative path = true.
Proof.
  unfold parent. destruct (relative path) eqn:Hr; [|done]. cbn [negb]. cbv zeta. unfold bind at 1.
  pose proof (public_kept _ w (keeps_if (create && negb (isEmpty (parentName path))) (mkdir (parentName path)) (ret true)
    (keeps_mkdir (λ _ _ _ _, I) _) (keeps_ret true))) as Hp.
  set (m := if create && _ then mkdir _ else ret true) in *. destruct (m w) as [ok w1]. cbn [snd] in Hp. destruct ok; [|done].
  intros [Hq _]%openAt_place. split; [|done]. by rewrite Hq, Hp.
Qed.
Lemma parent_key_place path create w fd w' :
  parent path create w = (Some fd, w') → child (place fd) (lastName path) = keyOf (hasPublic w) path ∧ relative path = true.
Proof. intros [E Hr]%parent_place. split; [|done]. rewrite E. by apply parent_key. Qed.

(** ** Bytes *)
Definition sameAt (p : key) (k k' : Kernel) : Prop := data k' p = data k p.
#[export] Instance sameAt_quiet p : Quiet (sameAt p).
Proof.
  split; [split|]; unfold sameAt; [done| |by intros k k' H; apply sameFiles_data]. intros a b c H1 H2. congruence.
Qed.
Lemma sameAt_mkdir p d n z k : sameAt p k (mkdirat d n z k).2.
Proof. apply mkdirat_data. Qed.
(** Some name has these bytes, still. *)
Definition survives (b : list N) (k k' : Kernel) : Prop := (∃ p, data k p = Some b) → ∃ p, data k' p = Some b.
Lemma sameAt_survives b k k' : (∀ p, sameAt p k k') → survives b k k'.
Proof. intros H [p Hp]. exists p. by rewrite (H p). Qed.
#[export] Instance survives_quiet b : Quiet (survives b).
Proof.
  split; [split|].
  - intros x H. exact H.
  - intros x y z H1 H2 H. auto.
  - intros k k' H. apply sameAt_survives. intros p. by apply sameFiles_data.
Qed.
Lemma survives_mkdir b d n z k : survives b k (mkdirat d n z k).2.
Proof. apply sameAt_survives. intros p. apply mkdirat_data. Qed.

(** The bytes of one path, in terms of its name. *)
Lemma bytesAt_kept q w w' :
  (relative q = true → kept (sameAt (keyOf (hasPublic w) q)) w w') → bytesAt w' q = bytesAt w q.
Proof. intros H. unfold bytesAt. destruct (relative q); [|done]. destruct (H eq_refl) as [-> Hk]. apply Hk. Qed.

(** ** Copies *)
Lemma kept_preserve {R} `{!Quiet R} path copy w :
  (∀ d n z k, R k (mkdirat d n z k).2) →
  (∀ s sn t tn z k, relative copy = true → child (place t) tn = keyOf (hasPublic w) copy → R k (linkat s sn t tn z k).2) →
  kept R w (preserve path copy w).2.
Proof.
  intros Hm Hl. unfold preserve. unfold bind at 1. pose proof (keeps_parentOf (R := R) Hm path false w) as K1.
  destruct (parent path false w) as [src w1]. cbn [snd] in K1. etransitivity; [exact K1|].
  unfold bind at 1. pose proof (keeps_parentOf (R := R) Hm copy true w1) as K2.
  destruct (parent copy true w1) as [dst w2] eqn:E2. cbn [snd] in K2. etransitivity; [exact K2|].
  destruct src as [src|]; [|reflexivity]. destruct dst as [dst|]; [|reflexivity].
  apply parent_key_place in E2 as [E2 Hr]. rewrite (kept_public _ _ K1) in E2.
  assert (keeps R (sys (linkat src (lastName path) dst (lastName copy)))) as Hk by (apply keeps_sys; intros z k; by apply Hl).
  match goal with |- kept _ _ (?m w2).2 => assert (keeps R m) as H; [|exact (H w2)] end. keeping.
Qed.

(** What is left of a successful run of steps. *)
Ltac run H m w := 
  let a := fresh "r" in let w' := fresh "w" in let E := fresh "E" in
  unfold bind at 1 in H; destruct (m w) as [a w'] eqn:E.

Lemma preserve_spec path copy w w' :
  preserve path copy w = (true, w') →
  let h := hasPublic w in
  relative path = true ∧ relative copy = true ∧ keyOf h copy ≠ keyOf h path
  ∧ data (kernel w') (keyOf h copy) = data (kernel w) (keyOf h path).
Proof.
  intros H h. unfold preserve in H. unfold bind at 1 in H.
  pose proof (keeps_parentOf (R := sameAt (keyOf h path)) (sameAt_mkdir _) path false w) as K1.
  destruct (parent path false w) as [src w1] eqn:E1. cbn [snd] in K1.
  unfold bind at 1 in H. pose proof (keeps_parentOf (R := sameAt (keyOf h path)) (sameAt_mkdir _) copy true w1) as K2.
  destruct (parent copy true w1) as [dst w2] eqn:E2. cbn [snd] in K2.
  destruct src as [src|]; [|done]. destruct dst as [dst|]; [|done].
  apply parent_key_place in E1 as [P1 R1], E2 as [P2 R2]. rewrite (kept_public _ _ K1) in P2. fold h in P1, P2.
  unfold bind at 1 in H. assert (keeps (sameAt (keyOf h path)) (sys (fstatat src (lastName path)))) as K3 by keeping.
  specialize (K3 w2). destruct (sys (fstatat _ _) w2) as [st w3]. cbn [snd] in K3. guard_case_in H; [done|].
  unfold bind at 1 in H. destruct (sys (linkat _ _ _ _) w3) as [[[]|] w4] eqn:E4; [|done].
  apply sys_some in E4 as (z & k & _ & Hk & E4). apply linkat_new in E4 as [Hne Hd]. rewrite P1, P2 in *.
  split_and!; [done..|]. assert (keeps (sameAt (keyOf h copy)) (orFail "flush_failed" (sys quietly))) as K4 by keeping.
  specialize (K4 w4). rewrite H in K4. cbn [snd] in K4. rewrite (kept_kernel _ _ K4), Hd, (sameFiles_data _ _ _ Hk).
  by rewrite (kept_kernel _ _ K3), (kept_kernel _ _ K2), (kept_kernel _ _ K1).
Qed.

(** ** The last step of opening *)
#[export] Instance sameFiles_quiet : Quiet sameFiles.
Proof. split; [apply _|done]. Qed.
Definition lastStep (w : World) (flags : Flags) (fd : Fd) (w' : World) : Prop :=
  kindOf (node fd) = Directory
  ∨ ∃ d n z k, sameFiles (kernel w) k ∧ openat d n flags z k = (inl fd, kernel w') ∧ place fd = child (place d) n.
Lemma lastStep_after w1 w2 flags fd w' : sameFiles (kernel w1) (kernel w2) → lastStep w2 flags fd w' → lastStep w1 flags fd w'.
Proof.
  intros H [Hd|(d & n & z & k & Hk & E)]; [by left|right]. exists d, n, z, k. split; [by etransitivity|done].
Qed.
Lemma walk_last v flags parts fd w fd' w' :
  kindOf (node fd) = Directory ∨ parts ≠ [] →
  walk v flags false parts fd w = (Some fd', w') → lastStep w flags fd' w'.
Proof.
  revert fd w. induction parts as [|n rest IH]; intros fd w Hp; cbn [walk].
  - intros [-> _]%some_pair_inv. left. by destruct Hp.
  - cbv zeta. cbn [andb]. unfold bind at 1. cbn [ret]. unfold bind at 1. intros H.
    destruct (bool_decide_reflect (rest = [])) as [->|Hr].
    + destruct (sys (openFileAt fd n flags) w) as [[d|] w1] eqn:E; [|done]. cbn [walk ret] in H.
      apply some_pair_inv in H as [-> ->]. pose proof (sys_place _ _ _ _ _ _ E) as Hpl.
      apply sys_some in E as (z & k & _ & Hk & E). rewrite openFileAt_is in E. right. by exists fd, n, z, k.
    + assert (keeps sameFiles (sys (openFileAt fd n directoryOnly))) as K by keeping. specialize (K w).
      destruct (sys _ w) as [[d|] w1]; [|done]. cbn [snd] in K.
      eapply lastStep_after; [exact (kept_kernel _ _ K)|]. eapply IH; [by right|exact H].
Qed.
Lemma openIn_last v path flags w fd w' :
  openIn v path flags false w = (Some fd, w') → lastStep w flags fd w'.
Proof.
  unfold openIn. unfold bind at 1. cbn [asks]. destruct (rootOf v w) as [[[r dev] i]|]; [|done].
  unfold bind at 1. assert (keeps sameFiles (sys (openFile v r))) as K by keeping. specialize (K w).
  destruct (sys _ w) as [[d|] w1] eqn:E; [|done]. cbn [snd] in K.
  assert (kindOf (node d) = Directory) as Hd.
  { apply sys_some in E as (z & k & _ & _ & E). rewrite openFile_is in E. revert E. unfold openDirectory.
    repeat case_match; by intros [= <- _]. }
  unfold bind at 1. assert (keeps sameFiles (sys (fstat d))) as K' by keeping. specialize (K' w1).
  destruct (sys _ w1) as [[st|] w2]; [|done]. cbn [snd] in K'. guard_case; [|done].
  intros H. eapply lastStep_after; [exact (kept_kernel _ _ K)|]. eapply lastStep_after; [exact (kept_kernel _ _ K')|]. revert H.
  unfold isEmpty. case_bool_decide; [|by eapply walk_last; left]. intros [-> _]%some_pair_inv. by left.
Qed.
Lemma openAt_last path flags w fd w' :
  openAt path flags false w = (Some fd, w') → lastStep w flags fd w'.
Proof.
  unfold openAt, bind at 1. pose proof (keeps_intact (R := sameFiles) w) as K. destruct (intact w) as [ok w1]. cbn [snd] in K.
  destruct (negb ok || _); [done|]. intros H. eapply lastStep_after; [exact (kept_kernel _ _ K)|]. revert H.
  unfold bind at 1, asks. destruct (inPublic path w1); [|apply openIn_last].
  unfold bind. destruct (openPublic _ _ _ w1) as [[d|] w2] eqn:E; [|done]. intros [-> ->]%some_pair_inv.
  revert E. unfold openPublic, bind at 1. pose proof (keeps_intactAt (R := sameFiles) FilesVolume w1) as K1.
  destruct (intactAt _ w1) as [ok' w3]. cbn [snd] in K1. guard_case; [done|]. intros H%openIn_last.
  eapply lastStep_after; [exact (kept_kernel _ _ K1)|done].
Qed.

(** A regular file is open: the one the path names, with its size; a file that did not
    exist is the only name of a new one. *)
Record openedFile (path : QString) (w : World) (fd : Fd) (s : Stat) (w' : World) : Prop := {
  opened_relative : relative path = true;
  opened_place : place fd = keyOf (hasPublic w) path;
  opened_public : hasPublic w' = hasPublic w;
  opened_data : data (kernel w') (place fd) = Some (content (inodeOf (kernel w') (ino (node fd))));
  opened_size : st_size s = Z.of_nat (List.length (content (inodeOf (kernel w') (ino (node fd)))));
  opened_inode : is_Some (inodes (kernel w') !! ino (node fd));
  opened_name : names (kernel w') !! place fd = Some (node fd);
  opened_cases : (sameFiles (kernel w) (kernel w') ∧ data (kernel w) (place fd) ≠ None)
    ∨ (data (kernel w) (place fd) = None ∧ content (inodeOf (kernel w') (ino (node fd))) = []
       ∧ (∀ p, p ≠ place fd → data (kernel w') p = data (kernel w) p)
       ∧ ∀ p y, p ≠ place fd → names (kernel w') !! p = Some y → ino y ≠ ino (node fd))
}.
Lemma regular_data k p x c :
  names k !! p = Some x → kindOf x = Regular → data k p = Some c → c = content (inodeOf k (ino x)).
Proof.
  intros Hn Hk. unfold data, bytesOf, inodeOf. rewrite Hn, bool_decide_eq_true_2 by done.
  destruct (inodes k !! ino x); [|done]. by intros [= <-].
Qed.
Lemma openRegular_spec path flags w fd s w' :
  openRegular path flags w = (Some (fd, s), w') → openedFile path w fd s w'.
Proof.
  intros H. unfold openRegular in H. unfold bind at 1 in H.
  pose proof (kept_openAt (R := anyhow) path flags w (λ _ _ _ _, keeps_sys _ (λ _ _, I))) as K0.
  destruct (openAt path flags false w) as [[d|] w1] eqn:E1; [|done]. cbn [snd] in K0.
  pose proof (openAt_place _ _ _ _ _ E1) as [Hp Hr]. apply openAt_last in E1.
  unfold bind at 1 in H. assert (keeps sameFiles (sys (fstat d))) as K by keeping. specialize (K w1).
  destruct (sys (fstat d) w1) as [[st|] w2] eqn:E2; [|done]. cbn [snd] in K. unfold ret in H.
  case_bool_decide as Hk; [|done]. apply some_pair_inv in H as [[-> ->]%pair_inv ->].
  apply sys_some in E2 as (z2 & k2 & _ & Hk2 & E2). unfold fstat in E2. injection E2 as Est Ek2.
  assert (kindOf (node fd) = Regular) as Hreg by (by rewrite <- Est in Hk).
  destruct E1 as [E1|(d0 & n & z & k & Hk0 & E1 & _)]; [congruence|].
  destruct (openat_regular _ _ _ _ _ _ _ E1 Hreg) as (Hpl & Hn & [i Hi] & Hc).
  destruct K as [Kp Kk]. destruct Kk as [Kn Ki].
  assert (data (kernel w2) (place fd) = Some (content (inodeOf (kernel w2) (ino (node fd))))) as Hdata.
  { unfold data, bytesOf, inodeOf. rewrite Kn, Ki, Hn, bool_decide_eq_true_2, Hi by done. done. }
  assert (place fd = keyOf (hasPublic w) path) as Hkey.
  { rewrite Hp. apply openKey_file. rewrite <- Hp, Hpl. unfold child. cbn. by destruct (place d0).2. }
  split.
  - destruct Hr as [->|Hr]; [|done]. rewrite Hp in Hpl. exfalso. revert Hpl. unfold openKey, child.
    change (bool_decide ([] = u "Files") || startsWith [] (u "Files/")) with false. rewrite andb_false_r.
    intros [= _ E]. symmetry in E. by apply app_nil in E as [_ ?].
  - done.
  - rewrite Kp. apply (kept_public _ _ K0).
  - done.
  - rewrite <- Est. cbn. rewrite bool_decide_eq_true_2 by done. by rewrite <- Ek2.
  - rewrite Ki. by eexists.
  - by rewrite Kn.
  - destruct Hc as [[Ek Hd]|(Hd & Hd' & Ho & Hf)]; [left|right].
    + assert (sameFiles (kernel w) (kernel w2)) as Hs.
      { transitivity k; [done|]. rewrite <- Ek. by split. }
      split; [done|]. rewrite <- (sameFiles_data _ _ (place fd) Hk0). done.
    + split_and!.
      * rewrite <- (sameFiles_data _ _ (place fd) Hk0). done.
      * assert (data (kernel w2) (place fd) = Some []) as E by (unfold data in *; by rewrite Kn, Ki). congruence.
      * intros p Hne. rewrite <- (sameFiles_data _ _ p Hk0), <- (Ho p Hne). unfold data. by rewrite Kn, Ki.
      * intros p y Hne. rewrite Kn. by apply Hf.
Qed.

(** ** Reading *)
Definition bytesIn (w : World) (fd : Fd) : list N := content (inodeOf (kernel w) (ino (node fd))).
Lemma bytesIn_same w w' fd : sameFiles (kernel w) (kernel w') → bytesIn w' fd = bytesIn w fd.
Proof. intros [_ H]. unfold bytesIn, inodeOf. by rewrite H. Qed.
(** A read gives a part of the bytes from its offset on, and nothing only at the end. *)
Lemma pread_spec fd length offset w b w' :
  sys (pread fd length offset) w = (Some b, w') → 0 ≤ offset → 0 < length →
  ∃ n, b = slice offset n (bytesIn w fd) ∧ n ≤ length ∧ (b = [] → Z.of_nat (List.length (bytesIn w fd)) ≤ offset).
Proof.
  intros (z & k & Hz & Hk & E)%sys_some Ho Hl. unfold pread in E. injection E as Eb _.
  assert (content (inodeOf k (ino (node fd))) = bytesIn w fd) as Ec.
  { unfold bytesIn, inodeOf. by rewrite (same_inodes _ _ Hk). }
  rewrite Ec in Eb. set (c := bytesIn w fd) in *. set (m := Z.min length (Z.of_nat (List.length c) - offset)) in *.
  exists (cut z m). split_and!; [done|..].
  - unfold cut. guard_case; lia.
  - intros ->. destruct (Z.le_gt_cases (Z.of_nat (List.length c)) offset) as [|Hlt]; [done|exfalso].
    apply (f_equal List.length) in Eb. unfold slice in Eb. rewrite length_take, length_drop in Eb. cbn in Eb.
    unfold cut in Eb. destruct (Z.eqb_spec z 0); lia.
Qed.
Lemma hashLoop_reads fuel fd acc w bytes w' :
  acc = take (List.length acc) (bytesIn w fd) → hashLoop fuel fd acc w = (Some bytes, w') → bytes = bytesIn w fd.
Proof.
  revert acc w. induction fuel as [|fuel IH]; intros acc w Ha; cbn [hashLoop]; [done|].
  unfold bind at 1. pose proof (keeps_poll (R := sameFiles) w) as K1. destruct (poll w) as [stop w1]. cbn [snd] in K1.
  destruct stop; [done|]. unfold bind at 1.
  assert (keeps sameFiles (sys (pread fd bufferSize (Z.of_nat (List.length acc))))) as K2 by keeping. specialize (K2 w1).
  destruct (sys (pread _ _ _) w1) as [[b|] w2] eqn:E; [|done]. cbn [snd] in K2.
  apply pread_spec in E as (n & Eb & Hn & Hend); [|lia|done].
  rewrite (bytesIn_same _ _ fd (kept_kernel _ _ K1)) in Eb, Hend.
  destruct b as [|x b].
  - intros [-> _]%some_pair_inv. rewrite Ha. specialize (Hend eq_refl). apply take_ge. lia.
  - intros H. rewrite <- (bytesIn_same w w1 fd (kept_kernel _ _ K1)), <- (bytesIn_same w1 w2 fd (kept_kernel _ _ K2)).
    eapply IH; [|exact H]. rewrite (bytesIn_same w1 w2 fd (kept_kernel _ _ K2)), (bytesIn_same w w1 fd (kept_kernel _ _ K1)).
    rewrite length_app, <- take_take_drop, <- Ha. f_equal. unfold slice in Eb. rewrite Nat2Z.id in Eb. rewrite Eb.
    set (l := drop _ _). by rewrite length_take, <- take_take, (take_ge l (List.length l)) by done.
Qed.
Lemma hash_reads path st w :
  (hash path st w).1 ≠ [] → ∃ b, bytesAt w path = Some b ∧ (hash path st w).1 = Records.digest b.
Proof.
  destruct (hash path st w) as [d w'] eqn:H. cbn [fst]. intros Hne. unfold hash in H.
  unfold bind at 1 in H. pose proof (keeps_errorClear (R := sameFiles) w) as K0. destruct (errorClear w) as [[] w0]. cbn [snd] in K0.
  unfold bind at 1 in H. pose proof (keeps_openRegular (R := sameFiles) path w0) as K1.
  destruct (openRegular path readOnly w0) as [[[fd s]|] w1] eqn:E1; [|by apply pair_inv in H as [-> _]]. cbn [snd] in K1.
  apply openRegular_spec in E1. cbv zeta in H. guard_case_in H; [by apply pair_inv in H as [-> _]|]. unfold bind at 1 in H.
  destruct (hashLoop _ fd [] w1) as [[bytes|] w2] eqn:E2; [|by apply pair_inv in H as [-> _]].
  apply hashLoop_reads in E2 as ->; [|done]. unfold bind in H.
  destruct (sys (fstat fd) w2) as [[s2|] w3]; [|by apply pair_inv in H as [-> _]].
  guard_case_in H; [by apply pair_inv in H as [-> _]|]. apply pair_inv in H as [-> _].
  exists (bytesIn w1 fd). split; [|done]. destruct E1 as [Hr Hp Hh Hd _ _ _ _].
  unfold bytesAt. rewrite Hr. rewrite (kept_public _ _ K0) in Hp. rewrite <- Hp.
  rewrite (sameFiles_data _ _ _ (kept_kernel _ _ K1)), (sameFiles_data _ _ _ (kept_kernel _ _ K0)) in Hd. exact Hd.
Qed.

(** ** Writing *)
#[export] Instance writes_quiet i : Quiet (writes i).
Proof. split; [apply _|]. intros k k' [H1 H2]. split; [done|]. intros j _. by rewrite H2. Qed.
Lemma keeps_writeLoop fuel fd o b : keeps (writes (ino (node fd))) (writeLoop fuel fd o b).
Proof.
  revert o b. induction fuel as [|fuel IH]; intros o [|x b]; cbn [writeLoop]; try apply keeps_ret.
  apply keeps_bind; [apply keeps_poll|]. intros stop. apply keeps_if; [keeping|].
  apply keeps_bind; [apply keeps_sys; intros z k; apply pwrite_writes|]. intros n. keeping.
Qed.
Lemma kept_openRegular {R} `{!Quiet R} path flags w :
  (∀ d n, relative path = true → child (place d) n = openKey (hasPublic w) path → keeps R (sys (openFileAt d n flags))) →
  kept R w (openRegular path flags w).2.
Proof.
  intros H. unfold openRegular, bind at 1. pose proof (kept_openAt path flags w H) as K.
  destruct (openAt path flags false w) as [fd w1]. cbn [snd] in K. etransitivity; [exact K|].
  match goal with |- kept _ _ (?m w1).2 => assert (keeps R m) as Hm; [|exact (Hm w1)] end. keeping.
Qed.
Lemma openat_others d n f z k q : q ≠ child (place d) n → data (openat d n f z k).2 q = data k q.
Proof.
  intros Hq. unfold openat. cbv zeta. destruct (names k !! child (place d) n); [by repeat case_match|].
  guard_case; [|done]. pose proof (create_data Regular d n k q Hq) as H. by destruct (create Regular d n k).
Qed.
Lemma sameAt_open q path flags w :
  (relative path = true → q ≠ keyOf (hasPublic w) path) → kept (sameAt q) w (openRegular path flags w).2.
Proof.
  intros Hq. apply kept_openRegular. intros d n Hr Hd. apply keeps_sys. intros z k. rewrite openFileAt_is.
  apply openat_others. intros E. apply (Hq Hr). rewrite E, Hd. apply openKey_file. rewrite <- Hd. unfold child. cbn. by destruct (place d).2.
Qed.
(** What [append] does once the file is open. *)
Definition appendTo (offset : Z) (bytes : list N) (fd : Fd) (s : Stat) : M bool :=
  let size := Z.of_nat (List.length bytes) in
  if (offset <? 0) || (st_size s <? offset) then fail "invalid_offset" else
  if offset <? st_size s then
    if st_size s <? offset + size then fail "overlapping_chunk" else
    do! previous := sys (pread fd size offset) in
    if bool_decide (previous = Some bytes) then ret true else fail "different_chunk_retry"
  else
    do! ok := writeLoop (List.length bytes) fd offset bytes in
    if ok then orFail "flush_failed" (sys quietly) else ret false.
Lemma append_eq path offset bytes w :
  append path offset bytes w =
  let '(f, w') := openRegular path readWriteCreate w in
  match f with Some (fd, s) => appendTo offset bytes fd s w' | None => fail "transfer_unavailable" w' end.
Proof. unfold append, bind at 1. by destruct (openRegular _ _ w) as [[[fd s]|] w']. Qed.
Lemma keeps_appendTo o b fd s : keeps (writes (ino (node fd))) (appendTo o b fd s).
Proof. unfold appendTo. cbv zeta. pose proof (keeps_writeLoop (List.length b) fd o b). keeping. Qed.
Lemma kept_append path o b w q :
  data (kernel w) (keyOf (hasPublic w) path) = None ∨ b = [] → (relative path = true → q ≠ keyOf (hasPublic w) path) →
  kept (sameAt q) w (append path o b w).2.
Proof.
  intros Hb Hq. rewrite append_eq. pose proof (sameAt_open q path readWriteCreate w Hq) as K.
  destruct (openRegular path readWriteCreate w) as [[[fd s]|] w1] eqn:E; cbn [snd] in K; (etransitivity; [exact K|]).
  2: { assert (keeps (sameAt q) (fail "transfer_unavailable")) as Hf by keeping. apply Hf. }
  apply openRegular_spec in E. destruct E as [Hr Hp Hh Hd Hs Hi Hn Hc]. destruct Hb as [Hb| ->].
  - destruct Hc as [[_ Hc]|(_ & _ & _ & Hc)]; [by rewrite Hp in Hc|].
    pose proof (keeps_appendTo o b fd s w1) as [Kp Kk]. split; [done|].
    apply (writes_data _ _ _ _ Kk). intros x. apply Hc. rewrite Hp. by apply Hq.
  - assert (keeps (sameAt q) (appendTo o [] fd s)) as Ha; [|apply Ha]. unfold appendTo. cbv zeta. cbn [List.length writeLoop]. keeping.
Qed.

(** ** The recovery area *)
Definition copyOf (id : QString) : QString := u ".society-sync/recovery/" ++ id.
Lemma note_of id : recoveryNote id = copyOf id ++ u ".json".
Proof. unfold recoveryNote, copyOf. by rewrite app_assoc. Qed.
Lemma archival_copy id : archival (copyOf id) = true ∧ archival (recoveryNote id) = true.
Proof. split; unfold archival; apply orb_true_iff; left; apply startsWith_spec; by eexists. Qed.
Lemma note_key h id : keyOf h (recoveryNote id) = (Container, components (recoveryNote id)).
Proof. unfold recoveryNote. change (u ".society-sync/recovery/") with (u ".society-sync/" ++ u "recovery/"). rewrite <- app_assoc. apply keyOf_recovery. Qed.
Lemma copy_ne h id q : relative q = true → archival q = false → relative (copyOf id) = true → keyOf h q ≠ keyOf h (copyOf id).
Proof.
  intros Hq Ha Hc E. apply keyOf_inj in E; [|by apply relative_nice..]. subst. by rewrite (proj1 (archival_copy id)) in Ha.
Qed.

Lemma relative_copy_nice id : relative (copyOf id) = true → nice (recoveryNote id).
Proof. intros H%relative_nice. rewrite note_of. by apply nice_app. Qed.
Lemma note_ne h id q : nice q → archival q = false → relative (copyOf id) = true → keyOf h q ≠ keyOf h (recoveryNote id).
Proof.
  intros Hq Ha Hc E. apply keyOf_inj in E; [|done|by apply relative_copy_nice]. subst. by rewrite (proj2 (archival_copy id)) in Ha.
Qed.
Lemma copy_note h id : relative (copyOf id) = true → keyOf h (copyOf id) ≠ keyOf h (recoveryNote id).
Proof.
  intros Hc E. apply keyOf_inj in E; [|by apply relative_nice|by apply relative_copy_nice]. rewrite note_of in E.
  apply (f_equal List.length) in E. rewrite length_app in E.
  change (List.length (u ".json")) with 5%nat in E. lia.
Qed.

(** What [archive] leaves alone, and what it has done when it succeeds. *)
Lemma kept_archive path w k0 :
  (∀ id, relative (copyOf id) = true → k0 ≠ keyOf (hasPublic w) (copyOf id) ∧ k0 ≠ keyOf (hasPublic w) (recoveryNote id)) →
  kept (sameAt k0) w (archive path w).2.
Proof.
  intros Hk. unfold archive. unfold bind at 1. cbn [asks]. set (id := createUuid (kernel w)). cbv zeta. fold (copyOf id). fold (recoveryNote id).
  rewrite <- note_of. unfold bind at 1.
  assert (∀ k, (relative (copyOf id) = true → k ≠ keyOf (hasPublic w) (copyOf id)) → kept (sameAt k) w (preserve path (copyOf id) w).2) as Kp.
  { intros k Hne. apply kept_preserve; [apply sameAt_mkdir|]. intros s sn t tn z k' Hr Ht. apply linkat_data. rewrite Ht. by apply Hne. }
  pose proof (Kp k0 (λ Hr, proj1 (Hk id Hr))) as K0.
  destruct (preserve path (copyOf id) w) as [ok w1] eqn:E. destruct ok; [|done]. cbn [negb snd] in *.
  apply preserve_spec in E as (_ & Hr & _ & _). destruct (Hk id Hr) as [_ Hn].
  etransitivity; [exact K0|]. unfold bind, asks. apply kept_append; rewrite (kept_public _ _ K0); [left|done].
  destruct (Kp (keyOf (hasPublic w) (recoveryNote id))) as [_ Hd]; [intros _ E; symmetry in E; by apply copy_note in E|].
  rewrite Hd, note_key. apply createUuid_new.
Qed.
Lemma archive_spec path w w' :
  archive path w = (true, w') →
  ∃ c, c ≠ keyOf (hasPublic w) path ∧ data (kernel w') c = data (kernel w) (keyOf (hasPublic w) path).
Proof.
  unfold archive. unfold bind at 1. cbn [asks]. set (id := createUuid (kernel w)). cbv zeta. fold (copyOf id).
  rewrite <- note_of. unfold bind at 1. set (copy := copyOf id).
  assert (∀ k, k ≠ keyOf (hasPublic w) copy → kept (sameAt k) w (preserve path copy w).2) as Kp.
  { intros k Hne. apply kept_preserve; [apply sameAt_mkdir|]. intros s sn t tn z k' Hr Ht. apply linkat_data. by rewrite Ht. }
  destruct (preserve path copy w) as [ok w1] eqn:E. destruct ok; [|done]. cbn [negb snd] in *.
  apply preserve_spec in E as (_ & Hr & Hne & Hd). unfold bind, asks. intros Ha.
  exists (keyOf (hasPublic w) copy). split; [done|]. rewrite <- Hd.
  destruct (Kp (keyOf (hasPublic w) (recoveryNote id))) as [Hp Hn]; [intros E; symmetry in E; by apply copy_note in E|].
  pose proof (kept_append (recoveryNote id) 0
    (Records.json (obj [("path", JStr path); ("backup", JStr copy); ("savedAt", JStr (currentDateTimeUtc (kernel w1)))]%string))
    w1 (keyOf (hasPublic w) copy)) as Ka. rewrite Hp in Ka. destruct Ka as [_ Ka].
  - left. rewrite Hn, note_key. apply createUuid_new.
  - intros _. by apply copy_note.
  - by rewrite Ha in Ka.
Qed.
(** The bytes under a name are under another one too. *)
Definition backed (p : key) (k : Kernel) : Prop := ∀ b, data k p = Some b → ∃ c, c ≠ p ∧ data k c = Some b.
Lemma backed_same p k k' : sameFiles k k' → backed p k → backed p k'.
Proof.
  intros H Hb b Hd. rewrite (sameFiles_data _ _ _ H) in Hd. destruct (Hb b Hd) as (c & Hc & Hd'). exists c.
  by rewrite (sameFiles_data _ _ _ H).
Qed.
Lemma archive_backs path w w' :
  archival path = false → relative path = true → archive path w = (true, w') → backed (keyOf (hasPublic w) path) (kernel w').
Proof.
  intros Ha Hr H b Hb. destruct (archive_spec _ _ _ H) as (c & Hc & Hd). exists c. split; [done|]. rewrite Hd, <- Hb.
  destruct (kept_archive path w (keyOf (hasPublic w) path)) as [_ Hk]; [|by rewrite H in Hk].
  intros id Hid. split; [by apply copy_ne|apply note_ne; [by apply relative_nice|done..]].
Qed.
Lemma archive_survives b path w : kept (survives b) w (archive path w).2.
Proof.
  unfold archive. unfold bind at 1. cbn [asks]. set (id := createUuid (kernel w)). cbv zeta. fold (copyOf id).
  rewrite <- note_of. unfold bind at 1. set (copy := copyOf id).
  assert (kept (survives b) w (preserve path copy w).2) as K.
  { apply kept_preserve; [apply survives_mkdir|]. intros s sn t tn z k _ _ [p Hp]. exists p. by apply linkat_keeps. }
  assert (∀ k, k ≠ keyOf (hasPublic w) copy → kept (sameAt k) w (preserve path copy w).2) as Kp.
  { intros k Hne. apply kept_preserve; [apply sameAt_mkdir|]. intros s sn t tn z k' Hr Ht. apply linkat_data. by rewrite Ht. }
  destruct (preserve path copy w) as [ok w1] eqn:E. destruct ok; [|done]. cbn [negb snd] in *.
  apply preserve_spec in E as (_ & Hr & _ & _). etransitivity; [exact K|]. unfold bind, asks.
  assert (data (kernel w1) (keyOf (hasPublic w1) (recoveryNote id)) = None) as Hn.
  { destruct (Kp (keyOf (hasPublic w) (recoveryNote id))) as [Hp Hn]; [intros E; symmetry in E; by apply copy_note in E|].
    rewrite Hp, Hn, note_key. apply createUuid_new. }
  split.
  { refine (kept_public _ _ (kept_append _ _ _ _ (FilesVolume, []) (or_introl Hn) _)). intros _. by rewrite note_key. }
  intros [p Hp]. exists p. destruct (kept_append (recoveryNote id) 0
    (Records.json (obj [("path", JStr path); ("backup", JStr copy); ("savedAt", JStr (currentDateTimeUtc (kernel w1)))]%string))
    w1 p (or_introl Hn)) as [_ Ka]; [|by rewrite Ka].
  intros _ ->. by rewrite Hn in Hp.
Qed.

(** ** Installing *)
Lemma kept_sys {R} `{!Quiet R} {A} (f : Z → Kernel → (A + Z) * Kernel) w :
  (∀ z k, sameFiles (kernel w) k → R k (f z k).2) → kept R w (sys f w).2.
Proof.
  intros H. unfold sys. destruct (call f (kernel w)) as [a k] eqn:E. split; [done|]. cbn.
  destruct (call_cases f (kernel w)) as [Hc|(z & k1 & H1 & H2)]; [rewrite E in Hc; by apply R_same|].
  rewrite E in H2. etransitivity; [by apply R_same|]. etransitivity; [by apply (H z k1)|by apply R_same].
Qed.
(** What an installation leaves alone: archiving the target, and the move. *)
Lemma kept_install {R} `{!Quiet R} source target w :
  (∀ d n z k, R k (mkdirat d n z k).2) →
  (∀ w1, hasPublic w1 = hasPublic w → kept R w1 (archive target w1).2) →
  (∀ s sn t tn z k,
     relative source = true → relative target = true →
     child (place s) sn = keyOf (hasPublic w) source → child (place t) tn = keyOf (hasPublic w) target →
     (archival target = false → backed (keyOf (hasPublic w) target) k) → R k (renameat s sn t tn z k).2) →
  kept R w (install source target w).2.
Proof.
  intros Hm Ha Hmv. unfold install. unfold bind at 1. pose proof (keeps_intact (R := R) w) as K0.
  destruct (intact w) as [ok w1]. cbn [snd] in K0. etransitivity; [exact K0|]. destruct ok; [|reflexivity]. cbn [negb].
  unfold bind at 1. pose proof (keeps_parentOf (R := R) Hm source false w1) as K1.
  destruct (parent source false w1) as [from w2] eqn:E1. cbn [snd] in K1. etransitivity; [exact K1|].
  unfold bind at 1. pose proof (keeps_parentOf (R := R) Hm target true w2) as K2.
  destruct (parent target true w2) as [to w3] eqn:E2. cbn [snd] in K2. etransitivity; [exact K2|].
  destruct from as [from|]; [|reflexivity]. destruct to as [to|]; [|reflexivity].
  apply parent_key_place in E1 as [P1 R1], E2 as [P2 R2].
  pose proof (kept_public _ _ K0) as Q0. pose proof (kept_public _ _ K1) as Q1. pose proof (kept_public _ _ K2) as Q2.
  rewrite Q1, Q0 in P2. rewrite Q0 in P1. assert (hasPublic w3 = hasPublic w) as Q3 by congruence.
  unfold bind at 1. pose proof (keeps_look (R := R) (fstatat to (lastName target)) (look_fstatat _ _) w3) as K3.
  pose proof (kept_public _ _ K3) as Q4.
  destruct (sys (fstatat to (lastName target)) w3) as [st w4] eqn:E4. cbn [snd] in K3, Q4. etransitivity; [exact K3|].
  unfold bind at 1, errnoIs, asks. cbn [fst snd].
  set (ready := match st with Some _ => _ | None => _ end). unfold bind at 1.
  assert (kept R w4 (ready w4).2) as K4.
  { unfold ready. destruct st as [st|].
    - case_bool_decide; [apply Ha; congruence|]. assert (keeps R (fail "target_is_not_file")) as Hf by keeping. apply Hf.
    - guard_case; [reflexivity|]. assert (keeps R (fail "target_unavailable")) as Hf by keeping. apply Hf. }
  destruct (ready w4) as [rdy w5] eqn:E5. cbn [snd] in K4. etransitivity; [exact K4|]. destruct rdy; [|reflexivity]. cbn [negb].
  assert (archival target = false → backed (keyOf (hasPublic w) target) (kernel w5)) as Hb.
  { intros Har. unfold ready in E5. destruct st as [st|].
    - case_bool_decide; [|done]. apply archive_backs in E5; [|done..]. by replace (hasPublic w) with (hasPublic w4) by congruence.
    - destruct (Z.eqb_spec (errno (kernel w4)) ENOENT) as [En|]; [|done]. apply pair_inv in E5 as [_ ->].
      unfold sys in E4. destruct (call _ (kernel w3)) as [x k4] eqn:Ec. injection E4 as -> <-. cbn in En.
      apply fstatat_missing in Ec as Hnone; [|done]. rewrite P2 in Hnone. intros b Hb. cbn in Hb.
      assert (sameFiles (kernel w3) k4) as Hs.
      { destruct (call_cases (fstatat to (lastName target)) (kernel w3)) as [Hc|(z & k1 & H1 & H2)]; rewrite Ec in *; [done|].
        rewrite look_fstatat in H2. by transitivity k1. }
      rewrite (sameFiles_data _ _ _ Hs) in Hb. unfold data, bytesOf in Hb. by rewrite Hnone in Hb. }
  unfold bind at 1. pose proof (keeps_intact (R := R) w5) as K5. pose proof (keeps_intact (R := sameFiles) w5) as K5'.
  destruct (intact w5) as [ok w6]. cbn [snd] in K5, K5'. etransitivity; [exact K5|]. destruct ok; [|reflexivity]. cbn [negb].
  unfold bind at 1. assert (kept R w6 (sys (renameat from (lastName source) to (lastName target)) w6).2) as K6.
  { apply kept_sys. intros z k Hk. apply Hmv; [done..|]. intros Har. apply (backed_same _ (kernel w6)); [done|].
    apply (backed_same _ (kernel w5)); [apply K5'|auto]. }
  destruct (sys _ w6) as [mv w7]. cbn [snd] in K6. etransitivity; [exact K6|].
  match goal with |- kept _ _ (?m w7).2 => assert (keeps R m) as Hf; [|exact (Hf w7)] end. keeping.
Qed.
Lemma clear_key h p q : relative p = true → relative q = true → clear p q → under (keyOf h p) (keyOf h q) = false.
Proof.
  intros Hp Hq [Hne Hb _]. apply not_true_iff_false. intros Hu.
  apply keyOf_under in Hu as [->|Hu]; [done| |by apply relative_nice..]. by rewrite Hb in Hu.
Qed.
Lemma sameAt_archive p q w :
  relative q = true → archival q = false → kept (sameAt (keyOf (hasPublic w) q)) w (archive p w).2.
Proof.
  intros Hq Ha. apply kept_archive. intros id Hid. split; [by apply copy_ne|apply note_ne; [by apply relative_nice|done..]].
Qed.
Lemma install_leaves s t w q : clear s q → clear t q → bytesAt (install s t w).2 q = bytesAt w q.
Proof.
  intros Hs Ht. apply bytesAt_kept. intros Hq. apply kept_install; [apply sameAt_mkdir|..].
  - intros w1 <-. apply sameAt_archive; [done|apply Hs].
  - intros fs sn ft tn z k Rs Rt Ps Pt _. apply renameat_data; rewrite ?Ps, ?Pt; by apply clear_key.
Qed.
Lemma install_moves s t w w' : archival s = false → install s t w = (true, w') → bytesAt w' t = bytesAt w s.
Proof.
  intros Ha H. set (R := sameAt (keyOf (hasPublic w) s)). unfold install in H. unfold bind at 1 in H.
  pose proof (keeps_intact (R := R) w) as K0. destruct (intact w) as [ok w1]. cbn [snd] in K0. destruct ok; [|done]. cbn [negb] in H.
  unfold bind at 1 in H. pose proof (keeps_parentOf (R := R) (sameAt_mkdir _) s false w1) as K1.
  destruct (parent s false w1) as [from w2] eqn:E1. cbn [snd] in K1.
  unfold bind at 1 in H. pose proof (keeps_parentOf (R := R) (sameAt_mkdir _) t true w2) as K2.
  destruct (parent t true w2) as [to w3] eqn:E2. cbn [snd] in K2.
  destruct from as [from|]; [|done]. destruct to as [to|]; [|done].
  apply parent_key_place in E1 as [P1 R1], E2 as [P2 R2].
  pose proof (kept_public _ _ K0) as Q0. pose proof (kept_public _ _ K1) as Q1. pose proof (kept_public _ _ K2) as Q2.
  rewrite Q1, Q0 in P2. rewrite Q0 in P1.
  unfold bind at 1 in H. pose proof (keeps_look (R := R) (fstatat to (lastName t)) (look_fstatat _ _) w3) as K3.
  destruct (sys (fstatat to (lastName t)) w3) as [st w4] eqn:E4. cbn [snd] in K3. pose proof (kept_public _ _ K3) as Q3.
  unfold bind at 1, errnoIs, asks in H. cbn [fst snd] in H.
  set (ready := match st with Some _ => _ | None => _ end) in H. unfold bind at 1 in H.
  assert (kept R w4 (ready w4).2) as K4.
  { unfold ready. destruct st as [st|].
    - case_bool_decide.
      + unfold R. replace (hasPublic w) with (hasPublic w4) by congruence. by apply sameAt_archive.
      + assert (keeps R (fail "target_is_not_file")) as Hf by keeping. apply Hf.
    - guard_case; [reflexivity|]. assert (keeps R (fail "target_unavailable")) as Hf by keeping. apply Hf. }
  destruct (ready w4) as [rdy w5]. cbn [snd] in K4. destruct rdy; [|done]. cbn [negb] in H.
  unfold bind at 1 in H. pose proof (keeps_intact (R := R) w5) as K5. destruct (intact w5) as [ok w6]. cbn [snd] in K5.
  destruct ok; [|done]. cbn [negb] in H. unfold bind at 1 in H.
  destruct (sys _ w6) as [[[]|] w7] eqn:E7; [|done].
  assert (hasPublic w7 = hasPublic w6) as Q7 by (unfold sys in E7; destruct (call _ _); injection E7 as _ <-; done).
  apply sys_some in E7 as (z & k & _ & Hk & E7). apply renameat_moves in E7. rewrite P1, P2 in E7.
  assert (keeps (sameAt (keyOf (hasPublic w) t)) (orFail "flush_failed" (sys quietly))) as K8 by keeping.
  specialize (K8 w7). rewrite H in K8. destruct K8 as [Q8 K8]. cbn [snd] in *.
  pose proof (kept_public _ _ K4) as Q4. pose proof (kept_public _ _ K5) as Q5.
  unfold bytesAt. rewrite R1, R2. replace (hasPublic w') with (hasPublic w) by congruence. rewrite K8, E7, (sameFiles_data _ _ _ Hk).
  by rewrite (kept_kernel _ _ K5), (kept_kernel _ _ K4), (kept_kernel _ _ K3), (kept_kernel _ _ K2), (kept_kernel _ _ K1), (kept_kernel _ _ K0).
Qed.

(** ** Removing *)
Lemma keeps_cancel {R} `{!Quiet R} path : keeps R (cancelPreview path).
Proof. intros w. split; [done|]. apply R_same. cbn. split; [apply cancel_names|apply cancel_inodes]. Qed.
Lemma keeps_removeOwned {R} `{!Quiet R} d name :
  keeps R (sys (unlinkat d (previewName name) false)) → keeps R (removeOwnedPresentation d name).
Proof. intros H. unfold removeOwnedPresentation. cbv zeta. keeping. Qed.
Lemma kept_detach {R} `{!Quiet R} path destination w :
  (∀ d n z k, R k (mkdirat d n z k).2) →
  (∀ s sn t tn z k,
     relative path = true → relative destination = true → startsWith destination (u ".society-sync/detached/") = true →
     child (place s) sn = keyOf (hasPublic w) path → child (place t) tn = keyOf (hasPublic w) destination →
     data k (child (place t) tn) = None → R k (renameat s sn t tn z k).2) →
  kept R w (detach path destination w).2.
Proof.
  intros Hm Hmv. unfold detach. destruct (startsWith destination _) eqn:Es; cbn [negb].
  2: { assert (keeps R (fail "invalid_recovery_path")) as Hf by keeping. apply Hf. }
  unfold bind at 1. pose proof (keeps_parentOf (R := R) Hm path false w) as K1.
  destruct (parent path false w) as [from w2] eqn:E1. cbn [snd] in K1. etransitivity; [exact K1|].
  unfold bind at 1. pose proof (keeps_parentOf (R := R) Hm destination true w2) as K2.
  destruct (parent destination true w2) as [to w3] eqn:E2. cbn [snd] in K2. etransitivity; [exact K2|].
  destruct from as [from|]; [|reflexivity]. destruct to as [to|]; [|reflexivity].
  apply parent_key_place in E1 as [P1 R1], E2 as [P2 R2]. rewrite (kept_public _ _ K1) in P2. clear K1 K2.
  unfold bind at 1. pose proof (keeps_look (R := R) (fstatat from (lastName path)) (look_fstatat _ _) w3) as K3.
  destruct (sys (fstatat from (lastName path)) w3) as [a w4]. cbn [snd] in K3. etransitivity; [exact K3|]. clear K3.
  unfold bind at 1, errnoIs at 1, asks. destruct (_ && _).
  { assert (keeps R (fail "recovery_source_unavailable")) as Hf by keeping. apply Hf. }
  unfold bind at 1. pose proof (keeps_look (R := R) (fstatat to (lastName destination)) (look_fstatat _ _) w4) as K4.
  destruct (sys (fstatat to (lastName destination)) w4) as [b w5] eqn:E4. cbn [snd] in K4. etransitivity; [exact K4|]. clear K4.
  unfold bind at 1, errnoIs at 1, asks. destruct (negb (bool_decide (is_Some b)) && _) eqn:Eb.
  { assert (keeps R (fail "recovery_destination_unavailable")) as Hf by keeping. apply Hf. }
  destruct (negb (bool_decide (is_Some a))).
  { match goal with |- kept _ _ (?m w5).2 => assert (keeps R m) as Hf; [|exact (Hf w5)] end. keeping. }
  unfold moveAway. destruct b as [b|].
  { rewrite bool_decide_eq_true_2 by done. assert (keeps R (fail "recovery_destination_occupied")) as Hf by keeping. apply Hf. }
  change (bool_decide (is_Some (@None Stat))) with false in *. cbn [negb andb] in Eb. apply negb_false_iff, Z.eqb_eq in Eb.
  assert (data (kernel w5) (keyOf (hasPublic w) destination) = None) as Hd.
  { unfold sys in E4. destruct (call _ (kernel w4)) as [x k4] eqn:Ec. injection E4 as -> <-. cbn in Eb.
    apply fstatat_missing in Ec as Hnone; [|done]. rewrite P2 in Hnone. cbn.
    destruct (call_cases (fstatat to (lastName destination)) (kernel w4)) as [Hc|(z & k1 & H1 & H2)]; rewrite Ec in *.
    - rewrite (sameFiles_data _ _ _ Hc). unfold data, bytesOf. by rewrite Hnone.
    - rewrite look_fstatat in H2. rewrite (sameFiles_data _ _ _ H2), (sameFiles_data _ _ _ H1). unfold data, bytesOf. by rewrite Hnone. }
  unfold bind at 1. pose proof (keeps_intact (R := R) w5) as K5. pose proof (keeps_intact (R := sameFiles) w5) as K5'.
  destruct (intact w5) as [ok w6]. cbn [snd] in K5, K5'. etransitivity; [exact K5|]. clear K5.
  unfold bind at 1. set (mv := if ok then _ else _).
  assert (kept R w6 (mv w6).2) as K6.
  { unfold mv. destruct ok; [|reflexivity]. apply kept_sys. intros z k Hk. apply Hmv; [done..|].
    rewrite P2, (sameFiles_data _ _ _ Hk), (sameFiles_data _ _ _ (kept_kernel _ _ K5')). done. }
  destruct (mv w6) as [moved w7]. cbn [snd] in K6. etransitivity; [exact K6|].
  match goal with |- kept _ _ (?m w7).2 => assert (keeps R m) as Hf; [|exact (Hf w7)] end. keeping.
Qed.
Lemma kept_bind {R} `{!Quiet R} {A B} (m : M A) (f : A → M B) w :
  kept R w (m w).2 → (∀ a w', hasPublic w' = hasPublic w → kept R w' (f a w').2) → kept R w (bind m f w).2.
Proof.
  intros Hm Hf. unfold bind. destruct (m w) as [a w1]. cbn [snd] in Hm. etransitivity; [exact Hm|]. apply Hf, Hm.
Qed.
Lemma kept_keeps {R} `{!Quiet R} {A} (m : M A) w : keeps R m → kept R w (m w).2.
Proof. intros H. apply H. Qed.
End with_native.
Ltac stepping :=
  repeat match goal with
  | |- kept _ _ (bind _ _ _).2 => apply kept_bind; [|let w := fresh "w" in let Q := fresh "Q" in intros ? w Q]
  | |- kept _ _ ((if ?b then _ else _) _).2 => destruct b eqn:?
  | |- kept _ _ ((match ?x with _ => _ end) _).2 => destruct x
  | |- kept _ _ ((let '(_, _) := ?x in _) _).2 => destruct x
  end.
Section with_native.
Context {PF : Platform} {NA : Native} {NL : NativeLaws}.
Lemma kept_retire {R} `{!Quiet R} path d w :
  (∀ id w1, hasPublic w1 = hasPublic w → kept R w1 (detach path (u ".society-sync/detached/empty-" ++ id) w1).2) →
  kept R w (retireLease path d w).2.
Proof.
  intros H. unfold retireLease. pose proof (keeps_cancel (R := R) path).
  stepping; try (apply kept_keeps; keeping; fail). apply H. congruence.
Qed.
(** What a removal leaves alone: archiving, moving a retired lease away, unlinking the
    name, and unlinking its preview. *)
Lemma kept_remove {R} `{!Quiet R} path w :
  (∀ w1 destination, hasPublic w1 = hasPublic w → kept R w1 (detach path destination w1).2) →
  (∀ w1, hasPublic w1 = hasPublic w → kept R w1 (archive path w1).2) →
  (∀ d z k dir, relative path = true → place d = openKey (hasPublic w) (parentName path) →
     (startsWith path (u ".society-sync/") = false → backed (keyOf (hasPublic w) path) k ∨ dir = true) →
     R k (unlinkat d (lastName path) dir z k).2) →
  (∀ w1 d, relative path = true → place d = openKey (hasPublic w) (parentName path) →
     hasPublic w1 = hasPublic w → kept R w1 (removeOwnedPresentation d (lastName path) w1).2) →
  kept R w (remove path w).2.
Proof.
  intros Hdet Har Hun Hpr. unfold remove. unfold bind at 1. pose proof (keeps_parent (R := R) path w) as K0.
  destruct (parent path false w) as [dir w0] eqn:E0. cbn [snd] in K0. etransitivity; [exact K0|].
  pose proof (kept_public _ _ K0) as Q0. destruct dir as [d|].
  2: { pose proof (keeps_intact (R := R)). apply kept_keeps. keeping. }
  apply parent_place in E0 as [P0 R0]. cbv zeta.
  apply kept_bind; [apply kept_keeps; keeping|]. intros st w1 Q1. destruct st as [st|].
  2: { stepping; try (apply kept_keeps; keeping; fail). apply Hpr; [done..|]. unfold errnoIs, asks in *. congruence. }
  set (regular := bool_decide (st_kind st = Regular)). set (folder := bool_decide (st_kind st = Directory)).
  destruct (negb regular && negb folder) eqn:Ek; [apply kept_keeps; keeping|].
  apply kept_bind; [pose proof (keeps_list (R := R) path); apply kept_keeps; keeping|]. intros names w2 Q2.
  destruct names as [names|]; [|reflexivity]. destruct (folder && _).
  { apply kept_retire. intros id w3 Q3. apply Hdet. congruence. }
  unfold bind at 1. set (keep := if regular && _ then archive path else _).
  assert (kept R w2 (keep w2).2) as K3 by (unfold keep; destruct (regular && _); [apply Har; congruence|reflexivity]).
  destruct (keep w2) as [ok w3] eqn:E3. cbn [snd] in K3. etransitivity; [exact K3|]. pose proof (kept_public _ _ K3) as Q3.
  destruct ok; [|reflexivity]. cbn [negb].
  assert (startsWith path (u ".society-sync/") = false → backed (keyOf (hasPublic w) path) (kernel w3) ∨ folder = true) as Hb.
  { intros Hs. unfold keep in E3. rewrite Hs in E3. cbn [negb] in E3. rewrite andb_true_r in E3.
    destruct regular eqn:Er; [left|right; by destruct folder].
    replace (hasPublic w) with (hasPublic w2) by congruence. apply archive_backs in E3; [done|by apply public_archival|done]. }
  unfold bind at 1. set (cancel := if regular then _ else _).
  assert (∀ S, Quiet S → keeps S cancel) as Kc by (intros S ?; unfold cancel; apply keeps_if; [apply keeps_cancel|apply keeps_ret]).
  pose proof (Kc R _ w3) as K4. pose proof (Kc sameFiles _ w3) as K4'. destruct (cancel w3) as [[] w4]. cbn [snd] in K4, K4'.
  etransitivity; [exact K4|]. unfold bind at 1. pose proof (keeps_intact (R := R) w4) as K5. pose proof (keeps_intact (R := sameFiles) w4) as K5'.
  destruct (intact w4) as [ok w5]. cbn [snd] in K5, K5'. etransitivity; [exact K5|]. clear K5 K4.
  pose proof (kept_public _ _ K4') as Q4. pose proof (kept_public _ _ K5') as Q5.
  apply kept_bind.
  { destruct ok; [|reflexivity]. apply kept_sys. intros z k Hk. apply Hun; [done|by rewrite P0|]. intros Hs.
    destruct (Hb Hs) as [Hbk|]; [left|by right].
    apply (backed_same _ _ _ Hk), (backed_same _ _ _ (kept_kernel _ _ K5')), (backed_same _ _ _ (kept_kernel _ _ K4')), Hbk. }
  intros gone w6 Q6. stepping; try (apply kept_keeps; keeping; fail). apply Hpr; [done..|congruence].
Qed.
Lemma archival_below p q : archival p = true → q = p ∨ below p q = true → archival q = true.
Proof.
  intros Ha [->|[t ->]%below_spec]; [done|]. unfold archival in *.
  apply orb_true_iff in Ha as [[x ->]%startsWith_spec|[x ->]%startsWith_spec]; apply orb_true_iff; [left|right];
    apply startsWith_spec; exists (x ++ slash :: t); by rewrite app_assoc.
Qed.
Lemma remove_leaves p w q : clear p q → q ≠ previewOf p → bytesAt (remove p w).2 q = bytesAt w q.
Proof.
  intros Hc Hv. apply bytesAt_kept. intros Hq. pose proof (relative_nice q Hq) as Nq.
  apply kept_remove.
  - intros w1 dest <-. apply kept_detach; [apply sameAt_mkdir|]. intros s sn t tn z k Rp Rd Hd Ps Pt _.
    apply renameat_data; rewrite ?Ps, ?Pt; [by apply clear_key|]. apply not_true_iff_false. intros Hu.
    apply keyOf_under in Hu; [|by apply relative_nice|done]. apply archival_below in Hu; [|unfold archival; by rewrite Hd, orb_true_r].
    destruct Hc as [_ _ Ha]. congruence.
  - intros w1 <-. apply sameAt_archive; [done|apply Hc].
  - intros d z k dir Rp Hd _. apply unlinkat_data. rewrite Hd, parent_key by done. intros E%keyOf_inj; [|done|by apply relative_nice].
    by destruct (clear_ne _ _ Hc).
  - intros w1 d Rp Hd _. apply kept_keeps, keeps_removeOwned, keeps_sys. intros z k. apply unlinkat_data. rewrite Hd.
    intros E. symmetry in E. by apply preview_key in E.
Qed.

(** ** The contract *)
Lemma kept_same {A} (m : M A) w q : keeps (sameAt (keyOf (hasPublic w) q)) m → bytesAt (m w).2 q = bytesAt w q.
Proof. intros H. apply bytesAt_kept. intros _. apply H. Qed.
Lemma relative_keys h p q : q ≠ p → relative p = true → relative q = true → keyOf h q ≠ keyOf h p.
Proof. intros Hne Hp Hq E. by apply keyOf_inj in E; [|apply relative_nice..]. Qed.
(** Opening for [append] needs a relative path. *)
Lemma append_leaves p o b w q : bytesAt w p = None ∨ b = [] → q ≠ p → bytesAt (append p o b w).2 q = bytesAt w q.
Proof.
  intros Hb Hne. apply bytesAt_kept. intros Hq. unfold bytesAt in Hb. destruct (relative p) eqn:Hp.
  - apply kept_append; [done|]. intros _. by apply relative_keys.
  - rewrite append_eq. pose proof (sameAt_open (keyOf (hasPublic w) q) p readWriteCreate w) as K.
    destruct (openRegular p readWriteCreate w) as [[[fd s]|] w1] eqn:E.
    + apply openRegular_spec in E. destruct E. congruence.
    + etransitivity; [apply K; congruence|]. apply kept_keeps. keeping.
Qed.
#[global] Instance confined_laws : FileLaws.
Proof.
  refine {| Files.bytesAt := bytesAt : world → _ |}.
  - intros p w q. apply kept_same, keeps_state.
  - intros p w q. apply kept_same, keeps_list.
  - intros p st w. apply hash_reads.
  - intros p st w q. apply kept_same, keeps_hash.
  - intros p w q. apply kept_same, keeps_exact.
  - intros s t w w'. apply install_moves.
  - intros s t w q. apply install_leaves.
  - intros s t w w' H. change (preserve s t w = (true, w')) in H. destruct (preserve_spec _ _ _ _ H) as (Rs & Rt & _ & Hd).
    assert (hasPublic w' = hasPublic w) as Hp.
    { pose proof (kept_preserve (R := anyhow) s t w (λ _ _ _ _, I) (λ _ _ _ _ _ _ _ _, I)) as [Hp _]. by rewrite H in Hp. }
    unfold bytesAt. by rewrite Rs, Rt, Hp.
  - intros s t w q Hne. apply bytesAt_kept. intros Hq. apply kept_preserve; [apply sameAt_mkdir|].
    intros fs sn ft tn z k Rt Ht. apply linkat_data. rewrite Ht. by apply relative_keys.
  - intros p o b w q. apply append_leaves.
  - intros p w q. apply kept_same, keeps_mkdir, sameAt_mkdir.
  - intros p w q. apply remove_leaves.
Defined.

(** ** Nothing is lost *)
Lemma kept_weaken {R} `{!Quiet R} w w' : kept sameFiles w w' → kept R w w'.
Proof. intros [H1 H2]. split; [done|by apply R_same]. Qed.
(** Not even the beginning of it reads as a preview that the provider owns. *)
Definition foreign (b : list N) : Prop := ∀ n, ownedPresentation (take n b) = false.
Lemma removeOwned_survives b d name w : foreign b → kept (survives b) w (removeOwnedPresentation d name w).2.
Proof.
  intros Hf. unfold removeOwnedPresentation. cbv zeta. set (pv := previewName name). unfold bind at 1.
  assert (keeps sameFiles (sys (openFileAt d pv readOnly))) as K0 by keeping. specialize (K0 w).
  destruct (sys (openFileAt d pv readOnly) w) as [f w0] eqn:E0. cbn [snd] in K0.
  etransitivity; [by apply kept_weaken|]. destruct f as [fd|]; [|apply kept_keeps; keeping]. unfold bind at 1.
  assert (keeps sameFiles (sys (fstat fd))) as K1 by keeping. specialize (K1 w0).
  destruct (sys (fstat fd) w0) as [[s|] w1] eqn:E1; cbn [snd] in K1;
    (etransitivity; [by apply kept_weaken|]); [|reflexivity].
  case_bool_decide as Hk; cbn [negb]; [|reflexivity]. guard_case; [reflexivity|]. unfold bind at 1.
  assert (keeps sameFiles (sys quietly)) as K2 by keeping. specialize (K2 w1).
  destruct (sys quietly w1) as [o w2]. cbn [snd] in K2. etransitivity; [by apply kept_weaken|].
  destruct o; [|reflexivity]. unfold bind at 1.
  assert (keeps sameFiles (sys (pread fd (maximumDocumentBytes + 1) 0))) as K3 by keeping. specialize (K3 w2).
  destruct (sys (pread _ _ _) w2) as [bytes w3] eqn:E3. cbn [snd] in K3. etransitivity; [by apply kept_weaken|].
  destruct (ownedPresentation (default [] bytes)) eqn:Eo; cbn [negb]; [|reflexivity].
  assert (data (kernel w3) (child (place d) pv) ≠ Some b) as Hne.
  { apply sys_some in E1 as (z1 & k1 & _ & H1 & E1). unfold fstat in E1. injection E1 as Es _.
    assert (kindOf (node fd) = Regular) as Hreg by (by rewrite <- Es in Hk).
    apply sys_some in E0 as (z0 & k0 & _ & _ & E0). rewrite openFileAt_is in E0.
    destruct (openat_regular _ _ _ _ _ _ _ E0 Hreg) as (Hp & Hn & _ & _). rewrite <- Hp. intros Hd.
    rewrite (sameFiles_data _ _ _ (kept_kernel _ _ K3)), (sameFiles_data _ _ _ (kept_kernel _ _ K2)), (sameFiles_data _ _ _ (kept_kernel _ _ K1)) in Hd.
    pose proof (regular_data _ _ _ _ Hn Hreg Hd) as Hc. destruct bytes as [bytes|].
    - apply sys_some in E3 as (z3 & k3 & _ & H3 & E3). unfold pread in E3. injection E3 as Eb _.
      assert (content (inodeOf k3 (ino (node fd))) = b) as Ec.
      { rewrite Hc. unfold inodeOf. by rewrite (same_inodes _ _ H3), (same_inodes _ _ (kept_kernel _ _ K2)), (same_inodes _ _ (kept_kernel _ _ K1)). }
      rewrite Ec in Eb. revert Eo. rewrite <- Eb. unfold slice. change (drop (Z.to_nat 0) b) with b. cbn. by rewrite Hf.
    - cbn in Eo. pose proof (Hf 0%nat) as H0. rewrite take_0 in H0. congruence. }
  unfold bind at 1. assert (keeps sameFiles (sys (fstatat d pv))) as K4 by keeping. specialize (K4 w3).
  destruct (sys (fstatat d pv) w3) as [c w4]. cbn [snd] in K4. etransitivity; [by apply kept_weaken|].
  destruct c as [c|]; [|apply kept_keeps; keeping]. guard_case; [reflexivity|].
  apply kept_bind; [|intros gone w5 _; stepping; apply kept_keeps; keeping].
  apply kept_sys. intros z k Hs [p Hp]. exists p. rewrite <- Hp. apply unlinkat_data. intros ->. apply Hne.
  by rewrite <- (sameFiles_data _ _ _ (kept_kernel _ _ K4)), <- (sameFiles_data _ _ _ Hs).
Qed.

(** The operations that give names away. *)
Inductive Op :=
| Mkdir (path : QString)
| Preserve (path copy : QString)
| Install (source target : QString)
| Detach (path destination : QString)
| Remove (path : QString).
Definition perform (op : Op) : M bool :=
  match op with
  | Mkdir p => mkdir p
  | Preserve p c => preserve p c
  | Install s t => install s t
  | Detach p d => detach p d
  | Remove p => remove p
  end.
(** Outside the replica's own directory. *)
Definition guarded (op : Op) : Prop :=
  match op with
  | Install _ t => archival t = false
  | Remove p => startsWith p (u ".society-sync/") = false
  | _ => True
  end.
Lemma renameat_survives b s sn t tn z k :
  backed (child (place t) tn) k → survives b k (renameat s sn t tn z k).2.
Proof.
  intros Hb [p Hp]. destruct (decide (p = child (place t) tn)) as [->|Hne].
  - destruct (Hb b Hp) as (c & Hc & Hd). apply (renameat_keeps _ _ _ _ _ _ c); [done|by left].
  - apply (renameat_keeps _ _ _ _ _ _ p); [done|by left].
Qed.
Lemma detach_survives b p d w : kept (survives b) w (detach p d w).2.
Proof.
  apply kept_detach; [apply survives_mkdir|]. intros s sn t tn z k _ _ _ _ _ Hd. apply renameat_survives.
  intros c Hc. congruence.
Qed.
Lemma perform_survives b op w : foreign b → guarded op → kept (survives b) w (perform op w).2.
Proof.
  intros Hf Hg. destruct op as [p|p c|s t|p d|p]; cbn [perform].
  - apply keeps_mkdir, survives_mkdir.
  - apply kept_preserve; [apply survives_mkdir|]. intros s sn t tn z k _ _ [q Hq]. exists q. by apply linkat_keeps.
  - apply kept_install; [apply survives_mkdir|intros w1 _; apply archive_survives|].
    intros fs sn ft tn z k _ _ _ Ht Hb. apply renameat_survives. rewrite Ht. by apply Hb.
  - apply detach_survives.
  - apply kept_remove; [intros w1 d _; apply detach_survives|intros w1 _; apply archive_survives| |
      intros w1 d _ _ _; by apply removeOwned_survives].
    intros d z k dir Rp Hd Hb [q Hq]. destruct (Hb Hg) as [Hbk| ->]; [|exists q; by apply unlinkat_directory].
    destruct (decide (q = child (place d) (lastName p))) as [->|Hne].
    + rewrite Hd, parent_key in Hq by done. destruct (Hbk b Hq) as (c & Hc & Hdc). exists c.
      rewrite unlinkat_data; [done|]. by rewrite Hd, parent_key.
    + exists q. by rewrite unlinkat_data.
Qed.
End with_native.
End ConfinedLaws.
