(* ===== verification/ConfinedFacts.v ===== *)
(** What src/Sync/ConfinedFiles.cpp promises: it implements the contract the replica is
    verified against; it never loses bytes; reading and writing account for every byte
    or say why not. *)
From S2P Require Import Prelude Qt Utf8 Records Demo Files Posix PosixLaws Confined ConfinedPaths ConfinedLaws.
Open Scope Z_scope.

Module ConfinedFacts.
Import Posix PosixLaws Confined ConfinedPaths ConfinedLaws.

Section with_native.
Context {PF : Platform} {NA : Native}.

(** ** Reasons *)
Definition errorOf (w : World) : QString := error (self w).
(** A cancellation that [openAt] notices is reported as an invalid path. *)
Lemma cancelled_reported_invalid path flags parents w c :
  cancels w = true :: c → let r := openAt path flags parents w in r.1 = None ∧ errorOf r.2 = u "invalid_path".
Proof. intros H. unfold openAt, intact, bind, poll. rewrite H. done. Qed.
Lemma failed_error {A} e (w : World) (r : option A) w' : failed e w = (r, w') → r = None ∧ errorOf w' = u e.
Proof. unfold failed, bind, fail, failAt. by intros [-> ->]%pair_inv. Qed.
Context {NL : NativeLaws}.

Lemma digest_not_nil `{PL : !PlatformLaws} b : [] ≠ Records.digest b.
Proof.
  pose proof (sha256_length b) as Hl. unfold Records.digest, Records.toHex. destruct (sha256 b); [done|].
  by cbn.
Qed.
Lemma fails_with {A} (e : string) (a : A) w r w' : (do! _ := fail e in ret a) w = (r, w') → r = a ∧ errorOf w' = u e.
Proof. by intros [-> ->]%pair_inv. Qed.
Lemma hashLoop_ends fuel fd acc w w' :
  (List.length acc ≤ List.length (bytesIn w fd))%nat →
  (List.length (bytesIn w fd) < fuel + List.length acc)%nat →
  hashLoop fuel fd acc w = (None, w') → errorOf w' ∈ [u "cancelled"; u "read_failed"].
Proof.
  revert acc w. induction fuel as [|fuel IH]; intros acc w Ha Hl; cbn [hashLoop]; [cbn in Hl; lia|].
  unfold bind at 1. pose proof (keeps_poll (R := sameFiles) w) as K1. destruct (poll w) as [stop w1]. cbn [snd] in K1.
  destruct stop; [intros [_ ->]%failed_error; by left|]. unfold bind at 1.
  assert (keeps sameFiles (sys (pread fd bufferSize (Z.of_nat (List.length acc))))) as K2 by keeping. specialize (K2 w1).
  destruct (sys (pread _ _ _) w1) as [[b|] w2] eqn:E; [|intros [_ ->]%failed_error; right; by left]. cbn [snd] in K2.
  apply pread_spec in E as (n & Eb & Hn & _); [|lia|done].
  rewrite (bytesIn_same _ _ fd (kept_kernel _ _ K1)) in Eb.
  destruct b as [|x b]; [done|]. rewrite <- (bytesIn_same w w1 fd (kept_kernel _ _ K1)) in Ha, Hl.
  rewrite <- (bytesIn_same w1 w2 fd (kept_kernel _ _ K2)) in Ha, Hl. apply IH; rewrite length_app; [|cbn; lia].
  apply (f_equal List.length) in Eb. unfold slice in Eb. rewrite length_take, length_drop in Eb.
  rewrite <- (bytesIn_same w w1 fd (kept_kernel _ _ K1)), <- (bytesIn_same w1 w2 fd (kept_kernel _ _ K2)) in Eb. lia.
Qed.

(** C37: A digest accounts for every byte, or there is a reason: whatever the system
    calls do, short reads included, hashing ends with the digest of all the bytes the
    file has, or with the empty digest and one of four reasons. *)
Theorem hash_total `{PL : !PlatformLaws} path st w :
  let r := hash path st w in
  (∃ b, bytesAt w path = Some b ∧ r.1 = Records.digest b)
  ∨ (r.1 = [] ∧ errorOf r.2 ∈ [u "cancelled"; u "read_failed"; u "not_file"; u "file_changed"]).
Proof.
  intros r. destruct (decide (r.1 = [])) as [Hn|Hn]; [right|left; by apply hash_reads]. split; [done|]. revert Hn. subst r.
  destruct (hash path st w) as [d w'] eqn:H. cbn [fst snd]. intros ->. unfold hash in H.
  unfold bind at 1 in H. destruct (errorClear w) as [[] w0]. unfold bind at 1 in H.
  destruct (openRegular path readOnly w0) as [[[fd s]|] w1] eqn:E1.
  2: { apply fails_with in H as [_ ->]. do 2 right. by left. }
  apply openRegular_spec in E1. cbv zeta in H. guard_case_in H; [apply fails_with in H as [_ ->]; do 3 right; by left|].
  unfold bind at 1 in H. destruct (hashLoop _ fd [] w1) as [[bytes|] w2] eqn:E2.
  - unfold bind in H. destruct (sys (fstat fd) w2) as [[s2|] w3].
    + guard_case_in H; [apply fails_with in H as [_ ->]; do 3 right; by left|].
      apply pair_inv in H as [Hd _]. by apply digest_not_nil in Hd.
    + apply fails_with in H as [_ ->]. do 3 right. by left.
  - apply pair_inv in H as [_ ->]. apply hashLoop_ends in E2; cbn [List.length].
    + apply elem_of_cons in E2 as [->|E2]; [by left|]. apply list_elem_of_singleton in E2 as ->. right. by left.
    + lia.
    + rewrite (opened_size _ _ _ _ _ E1), Nat2Z.id. unfold bytesIn. lia.
Qed.

(** ** Writing *)
Lemma splice_end o (new c : list N) : o = Z.of_nat (List.length c) → splice o new c = c ++ new.
Proof.
  intros ->. unfold splice. rewrite Nat2Z.id, take_ge, Nat.sub_diag, drop_ge by lia. cbn. by rewrite app_nil_r.
Qed.
Lemma pwrite_spec fd b o w n w' :
  sys (pwrite fd b o) w = (Some n, w') → is_Some (inodes (kernel w) !! ino (node fd)) →
  n ≤ Z.of_nat (List.length b) ∧ is_Some (inodes (kernel w') !! ino (node fd))
  ∧ bytesIn w' fd = splice o (take (Z.to_nat n) b) (bytesIn w fd).
Proof.
  intros (z & k & Hz & Hk & E)%sys_some [x Hx]. unfold pwrite in E. injection E as En Ek.
  rewrite <- (same_inodes _ _ Hk) in Hx. split_and!.
  - rewrite <- En. unfold cut. guard_case; lia.
  - rewrite <- Ek. unfold touch. cbn. rewrite !lookup_alter_eq, Hx. by eexists.
  - unfold bytesIn, inodeOf. rewrite <- Ek, <- En. unfold touch. cbn. rewrite !lookup_alter_eq.
    rewrite <- (same_inodes _ _ Hk), Hx. done.
Qed.
Lemma bytesIn_poll w fd : bytesIn (poll w).2 fd = bytesIn w fd.
Proof. done. Qed.
Lemma writeLoop_appends fuel fd o b w w' :
  is_Some (inodes (kernel w) !! ino (node fd)) → o = Z.of_nat (List.length (bytesIn w fd)) →
  writeLoop fuel fd o b w = (true, w') → is_Some (inodes (kernel w') !! ino (node fd)) ∧ bytesIn w' fd = bytesIn w fd ++ b.
Proof.
  revert o b w. induction fuel as [|fuel IH]; intros o b w Hi Ho; destruct b as [|x b]; cbn [writeLoop];
    try (intros [_ ->]%pair_inv; by rewrite app_nil_r); [done|].
  unfold bind at 1. unfold poll at 1. set (w1 := mkWorld _ _ _). destruct (hd false (cancels w)); [done|]. unfold bind at 1.
  destruct (sys _ w1) as [[n|] w2] eqn:E; [|done]. apply pwrite_spec in E as (Hn & Hi2 & Hb); [|done].
  change (bytesIn w1 fd) with (bytesIn w fd) in Hb. rewrite splice_end in Hb by done.
  destruct (Z.leb_spec n 0); [done|]. intros H'. apply IH in H' as [Hi' Hb']; [|done|].
  - split; [done|]. by rewrite Hb', Hb, <- app_assoc, take_drop.
  - rewrite Hb, length_app, length_take. lia.
Qed.
Lemma writeLoop_fails fuel fd o b w w' :
  (List.length b ≤ fuel)%nat → writeLoop fuel fd o b w = (false, w') → errorOf w' ∈ [u "cancelled"; u "write_failed"].
Proof.
  revert o b w. induction fuel as [|fuel IH]; intros o b w Hl; destruct b as [|x b]; cbn [writeLoop]; try done; [cbn in Hl; lia|].
  unfold bind at 1. destruct (poll w) as [stop w1]. destruct stop; [intros [_ ->]%pair_inv; by left|]. unfold bind at 1.
  destruct (sys _ w1) as [[n|] w2]; [|intros [_ ->]%pair_inv; right; by left].
  destruct (Z.leb_spec n 0); [intros [_ ->]%pair_inv; right; by left|]. apply IH. rewrite length_drop. cbn in *. lia.
Qed.
Lemma pwrite_none fd b o w w' : sys (pwrite fd b o) w = (None, w') → sameFiles (kernel w) (kernel w').
Proof.
  unfold sys, call. destruct (0 <? _); [intros [= <-]; by split|]. by destruct (pwrite _ _ _ _ _) as [[n|e] k] eqn:E.
Qed.
(** Whatever the loop does, it only appends the beginning of what it was given. *)
Lemma writeLoop_begins fuel fd o b w r w' :
  is_Some (inodes (kernel w) !! ino (node fd)) → o = Z.of_nat (List.length (bytesIn w fd)) → writeLoop fuel fd o b w = (r, w') →
  is_Some (inodes (kernel w') !! ino (node fd)) ∧ ∃ k, bytesIn w' fd = bytesIn w fd ++ take k b.
Proof.
  revert o b w. induction fuel as [|fuel IH]; intros o b w Hi Ho; destruct b as [|x b]; cbn [writeLoop];
    try (intros [_ ->]%pair_inv; split; [done|]; exists 0%nat; by rewrite app_nil_r).
  unfold bind at 1. unfold poll at 1. set (w1 := mkWorld _ _ _).
  assert (bytesIn w1 fd = bytesIn w fd ∧ is_Some (inodes (kernel w1) !! ino (node fd))) as [E1 Hi1] by done. clearbody w1.
  destruct (hd false (cancels w)).
  { intros [_ ->]%pair_inv. split; [done|]. exists 0%nat. rewrite take_0, app_nil_r. exact E1. }
  unfold bind at 1. destruct (sys (pwrite fd (x :: b) o) w1) as [[n|] w2] eqn:E.
  2: { intros [_ ->]%pair_inv. apply pwrite_none in E. split; [by rewrite <- (same_inodes _ _ E) in Hi1|]. exists 0%nat.
       rewrite take_0, app_nil_r, <- E1. by apply (bytesIn_same w1 w2). }
  apply pwrite_spec in E as (Hn & Hi2 & Hb); [|done]. rewrite splice_end, E1 in Hb by (by rewrite E1).
  destruct (Z.leb_spec n 0).
  { intros [_ ->]%pair_inv. split; [done|]. exists (Z.to_nat n). exact Hb. }
  intros H'. apply IH in H' as [Hi' [k Hk]]; [|done|rewrite Hb, length_app, length_take; lia].
  split; [done|]. exists (Z.to_nat n + k)%nat. by rewrite Hk, Hb, <- app_assoc, take_take_drop.
Qed.

Definition appendErrors : list QString :=
  [u "transfer_unavailable"; u "invalid_offset"; u "overlapping_chunk"; u "different_chunk_retry";
   u "cancelled"; u "write_failed"; u "flush_failed"].
(** The chunk follows all that was there, or it was there already and nothing changes. *)
Definition landed (o : Z) (bytes old new : list N) : Prop :=
  o = Z.of_nat (List.length old) ∧ new = old ++ bytes
  ∨ 0 ≤ o ∧ take (List.length bytes) (drop (Z.to_nat o) old) = bytes ∧ new = old.
(** What is left of a chunk that could not be appended: its beginning, at the end. *)
Definition begun (o : Z) (bytes old new : list N) : Prop :=
  new = old ∨ o = Z.of_nat (List.length old) ∧ ∃ k, new = old ++ take k bytes.
Lemma appendTo_spec o b fd s w w' r :
  st_size s = Z.of_nat (List.length (bytesIn w fd)) → is_Some (inodes (kernel w) !! ino (node fd)) →
  appendTo o b fd s w = (r, w') →
  is_Some (inodes (kernel w') !! ino (node fd))
  ∧ if r then landed o b (bytesIn w fd) (bytesIn w' fd) else errorOf w' ∈ appendErrors ∧ begun o b (bytesIn w fd) (bytesIn w' fd).
Proof.
  intros Hs Hi. unfold appendTo. cbv zeta. rewrite Hs. set (c := bytesIn w fd) in *.
  destruct (_ || _) eqn:Eo; [intros [-> ->]%pair_inv; split_and!; [done|right; by left|by left]|]. bool_hyps.
  destruct (Z.ltb_spec o (Z.of_nat (List.length c))) as [Hlt|Hge].
  - destruct (Z.ltb_spec (Z.of_nat (List.length c)) (o + Z.of_nat (List.length b))).
    { intros [-> ->]%pair_inv. split_and!; [done|do 2 right; by left|by left]. }
    unfold bind. assert (keeps sameFiles (sys (pread fd (Z.of_nat (List.length b)) o))) as K by keeping. specialize (K w).
    destruct (sys _ w) as [prev w1] eqn:E. cbn [snd] in K.
    assert (is_Some (inodes (kernel w1) !! ino (node fd))) as Hi1 by (by rewrite (same_inodes _ _ (kept_kernel _ _ K))).
    pose proof (bytesIn_same w w1 fd (kept_kernel _ _ K)) as Eb1. fold c in Eb1.
    case_bool_decide as Hp; intros [-> ->]%pair_inv; (split; [exact Hi1|]).
    2: { split; [do 3 right; by left|by left]. }
    right. split; [lia|]. split; [|exact Eb1]. subst prev. apply sys_some in E as (z & k & Hz & Hk & E). unfold pread in E. injection E as Eb _.
    assert (content (inodeOf k (ino (node fd))) = c) as Ec by (unfold c, bytesIn, inodeOf; by rewrite (same_inodes _ _ Hk)).
    rewrite Ec in Eb. unfold slice in Eb.
    rewrite <- Eb at 2. rewrite <- Eb at 1. by rewrite length_take, <- take_take, (take_ge _ (List.length (drop _ _))) by done.
  - assert (o = Z.of_nat (List.length c)) as -> by lia. unfold bind at 1.
    destruct (writeLoop _ _ _ _ w) as [ok w1] eqn:E. pose proof (writeLoop_begins _ _ _ _ _ _ _ Hi eq_refl E) as [Hi1 Hk]. destruct ok.
    + apply writeLoop_appends in E as [_ Hb]; [|done..]. unfold orFail, bind.
      assert (keeps sameFiles (sys quietly)) as K by keeping. specialize (K w1). destruct (sys quietly w1) as [[[]|] w2]; cbn [snd] in K;
        intros [-> ->]%pair_inv.
      * assert (is_Some (inodes (kernel w2) !! ino (node fd))) as Hi2 by (by rewrite (same_inodes _ _ (kept_kernel _ _ K))).
        split; [exact Hi2|]. left. by rewrite (bytesIn_same w1 w2 fd (kept_kernel _ _ K)), Hb.
      * assert (is_Some (inodes (kernel w2) !! ino (node fd))) as Hi2 by (by rewrite (same_inodes _ _ (kept_kernel _ _ K))).
        split; [exact Hi2|]. split; [do 6 right; by left|]. right. split; [done|].
        exists (List.length b). rewrite firstn_all. change (bytesIn w2 fd = c ++ b). by rewrite (bytesIn_same w1 w2 fd (kept_kernel _ _ K)).
    + intros [-> ->]%pair_inv. split; [exact Hi1|]. split; [|right; by split]. apply writeLoop_fails in E; [|done].
      apply elem_of_cons in E as [->|E]; [do 4 right; by left|]. apply list_elem_of_singleton in E as ->. do 5 right. by left.
Qed.
(** A file that could not be opened keeps its bytes; one that was created has none. *)
Definition alike (q : key) (k k' : Kernel) : Prop := default [] (data k' q) = default [] (data k q).
#[local] Instance alike_quiet q : Quiet (alike q).
Proof.
  split; [split|]; unfold alike; [done| |by intros k k' H; rewrite (sameFiles_data _ _ _ H)]. intros a b c H1 H2. congruence.
Qed.
Lemma openat_alike d n f z k q : alike q k (openat d n f z k).2.
Proof.
  destruct (decide (q = child (place d) n)) as [->|Hq]; [|unfold alike; by rewrite openat_others].
  pose proof (openat_regular d n f z k) as H. unfold alike. revert H. unfold openat. cbv zeta.
  destruct (names k !! child (place d) n) eqn:En; [by repeat case_match|]. guard_case; [|done].
  destruct (create Regular d n k) as [x k'] eqn:E. intros H. cbn [snd].
  assert (kindOf x = Regular) as Hx by (unfold create in E; injection E as <- _; done).
  destruct (H _ _ eq_refl Hx) as (_ & _ & _ & [[-> _]|(H1 & H2 & _)]); [done|]. cbn [place] in *. by rewrite H1, H2.
Qed.
Lemma openRegular_alike path flags w q : kept (alike q) w (openRegular path flags w).2.
Proof. apply kept_openRegular. intros d n _ _. apply keeps_sys. intros z k. rewrite openFileAt_is. apply openat_alike. Qed.
Lemma bytesAt_alike w w' path : kept (alike (keyOf (hasPublic w) path)) w w' → default [] (bytesAt w' path) = default [] (bytesAt w path).
Proof. intros [Hp Hk]. unfold bytesAt. destruct (relative path); [|done]. by rewrite Hp. Qed.

(** C29: A chunk lands exactly once.  Appending succeeds in two cases: the offset is the
    file's end, and the chunk follows all that was there; or the file already has these
    very bytes at the offset, and nothing changes.  When it does not succeed, there is
    one of seven reasons, and the file has its bytes still, followed at most, when the
    offset is its end, by the beginning of the chunk.  So no byte is ever overwritten;
    short writes and every failure of the system are allowed for. *)
Theorem append_resumes path offset bytes w :
  let r := append path offset bytes w in
  let old := default [] (bytesAt w path) in
  if r.1 then ∃ new, bytesAt r.2 path = Some new ∧ landed offset bytes old new
  else errorOf r.2 ∈ appendErrors ∧ begun offset bytes old (default [] (bytesAt r.2 path)).
Proof.
  cbv zeta. rewrite append_eq. pose proof (openRegular_alike path readWriteCreate w (keyOf (hasPublic w) path)) as K%bytesAt_alike.
  destruct (openRegular path readWriteCreate w) as [[[fd s]|] w1] eqn:E; cbn [snd] in K; [|split; [by left|left; exact K]].
  apply openRegular_spec in E. destruct (appendTo offset bytes fd s w1) as [r w2] eqn:E2. cbn [fst snd].
  pose proof (keeps_appendTo offset bytes fd s w1) as K2. rewrite E2 in K2. cbn [snd] in K2.
  destruct E as [Hr Hp Hh Hd Hs Hi Hn Hc]. destruct (appendTo_spec _ _ _ _ _ _ _ Hs Hi E2) as [[y Hy] H].
  assert (hasPublic w2 = hasPublic w) as Hq by (by rewrite (kept_public _ _ K2)).
  assert (bytesAt w2 path = Some (bytesIn w2 fd)) as E3.
  { unfold bytesAt. rewrite Hr, Hq, <- Hp. unfold data, bytesOf in Hd |- *. rewrite (writes_names _ _ _ (kept_kernel _ _ K2)), Hn in *.
    case_bool_decide; [|done]. unfold bytesIn, inodeOf. by rewrite Hy. }
  assert (default [] (bytesAt w path) = bytesIn w1 fd) as E4.
  { rewrite <- K. unfold bytesAt. rewrite Hr, Hh, <- Hp, Hd. done. }
  rewrite E3, E4. destruct r; [by eexists|exact H].
Qed.

(** A run of operations. *)
Definition performAll (ops : list Op) (w : World) : World := foldl (λ w op, (perform op w).2) w ops.

(** C3: Bytes are never lost.  Whatever names are made, linked, replaced, moved away or
    removed, in any order and with any failures of the system in between, bytes that
    some name had are under some name afterwards, as long as installations do not aim
    at the recovery area, removals not at the replica's own directory, and the bytes
    are not those of a preview that the provider owns. *)
Theorem nothing_lost ops w b :
  foreign b → Forall guarded ops →
  (∃ p, data (kernel w) p = Some b) → ∃ p, data (kernel (performAll ops w)) p = Some b.
Proof.
  intros Hf Hg. revert w. induction Hg as [|op ops Hop _ IH]; intros w Hw; [done|]. apply IH.
  by apply (perform_survives b op w Hf Hop).
Qed.

(** C18: The file operations keep the contract that the replica is verified against:
    the laws of Files.v hold of them, for the bytes under the names that paths stand
    for, with any failures of the system calls. *)
Theorem confined_implements : ∃ L : FileLaws, @Files.bytesAt PF confined L = bytesAt.
Proof. by exists confined_laws. Qed.
End with_native.

(** ** Examples *)
Module Examples.
Definition longest (k : Kernel) : nat :=
  foldr (λ (kv : key * Node) n, Nat.max (foldr (λ c m, Nat.max (List.length c) m) 0%nat kv.1.2) n) 0%nat (map_to_list (names k)).
(** A text longer than any name there is. *)
Definition newText (k : Kernel) : QString := replicate (S (longest k)) 48%N.
#[local] Instance native : Native := {
  openFile := openDirectory;
  openFileAt := openat;
  makeDirectoryAt := mkdirat;
  normalizeChangeTime dev i s ns := numberStr s ++ u "." ++ numberStr ns;
  maximumDocumentBytes := 65536;
  cancelPending _ _ k := k;
  filesRoot _ _ := None;
  fromJson _ := ∅;
  createUuid := newText;
  currentDateTimeUtc _ := u "2024-01-01T00:00:00Z"
}.
Lemma component_short k p x c : names k !! p = Some x → c ∈ p.2 → (List.length c ≤ longest k)%nat.
Proof.
  intros Hp%elem_of_map_to_list Hc. unfold longest. induction (map_to_list (names k)) as [|kv l IH]; [by apply elem_of_nil in Hp|].
  cbn. apply elem_of_cons in Hp as [<-|Hp]; [|specialize (IH Hp); lia]. cbn. clear IH.
  induction p.2 as [|d r IH]; [by apply elem_of_nil in Hc|]. cbn. apply elem_of_cons in Hc as [->|Hc]; [lia|specialize (IH Hc); lia].
Qed.
#[local] Instance native_laws : NativeLaws.
Proof.
  split; try done. intros k. cbn [createUuid native]. set (p := (Container, _)). unfold data, bytesOf.
  destruct (names k !! p) as [x|] eqn:E; [exfalso|done].
  assert (∀ n, toUtf8 (replicate n 48%N) = replicate n 48%N) as Hz by (induction n as [|n IH]; [done|cbn; by rewrite IH]).
  assert (∀ n, isValidUtf16 (replicate n 48%N) = true) as Hv by (induction n as [|n IH]; [done|exact IH]).
  assert (encodeName (newText k ++ u ".json") ∈ p.2) as Hin.
  { unfold p, components, recoveryNote. cbn [snd]. apply list_elem_of_fmap. eexists. split; [done|].
    change (u ".society-sync/recovery/") with (u ".society-sync/recovery" ++ [slash]). rewrite <- app_assoc. cbn [app].
    rewrite qsplit_snoc; [apply elem_of_app; right; by left|]. rewrite not_elem_of_app. split; [|by_compute].
    unfold newText. by intros [E0 _]%elem_of_replicate. }
  apply (component_short k p x _ E) in Hin. unfold encodeName in Hin. rewrite toUtf8_app in Hin by apply Hv.
  unfold newText in Hin. rewrite Hz, length_app, length_replicate in Hin. lia.
Qed.

Definition file (i : N) : Node := mkNode Regular i.
Definition folder (i : N) : Node := mkNode Directory i.
Definition at_ (p : string) : key := (Container, components (u p)).
(** A container with a file in a folder, and a file that arrived. *)
Definition disk : Kernel :=
  mkKernel {[ at_ "Docs" := folder 2; at_ "Docs/a" := file 3; at_ "b" := file 4 ]}
    {[ 1%N := mkInode [] 4096 0 0; 2%N := mkInode [] 4096 0 0; 3%N := mkInode (u "old") 0 0 0; 4%N := mkInode (u "new") 0 0 0 ]}
    {[ u "/c" := mkRoot Directory true (u "/c") 1 1 ]} [] 0 0 [].
Definition opened : World := (open (u "/c") (mkWorld disk (mkConfined [] [] 0 0 None) [])).2.
Definition replaced := install (u "b") (u "Docs/a") opened.

Example install_replaces : replaced.1 = true ∧ bytesAt replaced.2 (u "Docs/a") = Some (u "new").
Proof. by_compute. Qed.
Example short_writes_resume :
  let r := append (u "Docs/c") 0 (u "abc") (mkWorld (set_faults [0; 0; 0; 0; 0; 0; -2; 0; 0] disk) (self opened) []) in
  r.1 = true ∧ bytesAt r.2 (u "Docs/c") = Some (u "abc").
Proof. cbv zeta. by_compute. Qed.

Lemma nothing_lost_witness :
  ∃ p, data (kernel (performAll [Install (u "b") (u "Docs/a"); Remove (u "Docs/a")] opened)) p = Some (u "old").
Proof.
  apply (nothing_lost [Install (u "b") (u "Docs/a"); Remove (u "Docs/a")] opened (u "old")).
  - intros n. unfold ownedPresentation. case_match; reflexivity.
  - repeat constructor.
  - exists (at_ "Docs/a"). by_compute.
Defined.
Lemma hash_total_witness :
  let r := hash (u "b") [] opened in
  (∃ b, bytesAt opened (u "b") = Some b ∧ r.1 = Records.digest b)
  ∨ (r.1 = [] ∧ errorOf r.2 ∈ [u "cancelled"; u "read_failed"; u "not_file"; u "file_changed"]).
Proof. exact (hash_total (u "b") [] opened). Defined.
(** The first chunk is there already; the second is appended; another at its place is
    refused. *)
Lemma append_resumes_witness :
  (∃ new, bytesAt (append (u "b") 0 (u "new") opened).2 (u "b") = Some new ∧ landed 0 (u "new") (u "new") new)
  ∧ (∃ new, bytesAt (append (u "b") 3 (u "er") opened).2 (u "b") = Some new ∧ landed 3 (u "er") (u "new") new)
  ∧ begun 0 (u "old") (u "new") (default [] (bytesAt (append (u "b") 0 (u "old") opened).2 (u "b"))).
Proof.
  assert (E : default [] (bytesAt opened (u "b")) = u "new") by by_compute.
  split_and!.
  - pose proof (append_resumes (u "b") 0 (u "new") opened) as H. cbv zeta in H. rewrite E in H.
    assert (Er : (append (u "b") 0 (u "new") opened).1 = true) by by_compute. rewrite Er in H. exact H.
  - pose proof (append_resumes (u "b") 3 (u "er") opened) as H. cbv zeta in H. rewrite E in H.
    assert (Er : (append (u "b") 3 (u "er") opened).1 = true) by by_compute. rewrite Er in H. exact H.
  - pose proof (append_resumes (u "b") 0 (u "old") opened) as H. cbv zeta in H. rewrite E in H.
    assert (Er : (append (u "b") 0 (u "old") opened).1 = false) by by_compute. rewrite Er in H. exact (proj2 H).
Defined.
Lemma confined_implements_witness : ∃ L : FileLaws, @Files.bytesAt _ confined L = bytesAt.
Proof. exact confined_implements. Defined.
End Examples.
End ConfinedFacts.
