(* ===== verification/Synchronizer.v ===== *)
(** A session of synchronisation with one peer, src/Sync/Synchronizer.cpp: the
    requests it sends, what each reply makes it do, its timers and its signals. *)
From S2P Require Import Prelude Qt Base64 Records Requests Binding.
From coqutil Require Import Datatypes.RecordSetters.
Import OCamlLikeNotations.
Open Scope Z_scope.

(** What a session asks of its replica.  Every call may change it; the replica of
    this development is one instance, in SynchronizerReplica.v. *)
Class ReplicaOps := {
  replica : Type;
  isOpen : replica → bool;
  errorString : replica → QString;
  replicaId : replica → QString;
  accountScope : replica → QString;
  binding : replica → jobj * replica;
  bootstrapping : replica → bool * replica;
  bindHost : QString → QString → QString → bool → replica → bool * replica;
  completeBootstrap : replica → bool * replica;
  peerState : QString → replica → jobj * replica;
  savePeerState : QString → QString → QString → Z → Z → replica → bool * replica;
  scan : replica → bool * replica;
  namespaceState : replica → jobj * replica;
  acceptJournal : QString → jobj → replica → bool * replica;
  acceptMetadata : QString → jobj → replica → bool * replica;
  record : QString → replica → jobj * replica;
  resident : QString → replica → bool * replica;
  objectMetadata : QString → replica → jobj * replica;
  requestedPaths : replica → list QString * replica;
  completeRequests : replica → unit * replica;
  publishStorageMap : replica → bool * replica;
  missingPhotoIdentities : replica → list jval * replica;
  missingPreviews : replica → list jval * replica;
  savePreview : jobj → jobj → replica → bool * replica;
  handle : QString → jobj → replica → jobj * replica;
  changes : Z → Z → replica → jobj * replica
}.

Module Synchronizer.
Import Records.

(** ** Data *)
Inductive ContentPolicy := FullReplica | MetadataFirst.
#[global] Instance ContentPolicy_eq_dec : EqDecision ContentPolicy.
Proof. solve_decision. Defined.
Inductive StatusCode := Before | InProgress | Complete | Failed | Cancelled.
#[global] Instance StatusCode_eq_dec : EqDecision StatusCode.
Proof. solve_decision. Defined.
Inductive Signal :=
| MirrorChanged (b : jobj)
| HostValidated (p : QString)
| RequestReady (id p : QString) (payload : jobj)
| Progress (path : QString) (done total : Z)
| Published (c : StatusCode)
| Finished (p : QString) (ok : bool) (error : QString).

(** What is done with a reply: one constructor for each function object given to
    [send], with the values it captures. *)
Inductive Done := ThenFinish | ThenPush.
Inductive Callback :=
| OnDescribe
| OnPage (after upper : Z)
| OnJournal (upper : Z)
| OnManifest
| OnSnapshot (done : Done)
| OnPreview (entry : jobj)
| OnRead (size position : Z)
| OnBegin (inlined : bool) (size : Z)
| OnCommit
| OnChunk (position next size : Z).
(** [manifestReady], the function objects given to [schedule], and the single-shot
    timers of the event loop, each with the generation it was started in. *)
Inductive Ready := ReadyToPull | ReadyToPush.
Inductive Action := PreviewNext | PullNext | PullChunk | PushChunk.
Inductive Timer :=
| Transmit (id : QString) (revision : Z)
| Poll (id : QString) (revision : Z)
| Scheduled (revision : Z) (a : Action).
Record Request := mkRequest { envelope : jobj; callback : Callback; pollDelay : Z; deadline : Z }.

(** Synchronizer::Private. [generation] counts sessions; its 64 bits do not wrap in
    the lifetime of a process. The last six are the event loop's pending timers, the
    number of identifiers drawn, the two clocks, the signals so far and whether a loop
    ran out of fuel, which [one_thing_at_a_time] excludes. *)
Record Session `{ReplicaOps} := mkSession {
  store : replica;
  timeout : bool;
  snapshot : jobj;
  snapshotAcknowledged : bool;
  active : bool;
  generation : Z;
  policy : ContentPolicy;
  requested : list QString;
  photoIdentities : list QString;
  hydratedPhotoIdentities : gset QString;
  previews : list jval;
  previewIndex : nat;
  previewsDone : bool;
  metadataPublished : bool;
  earlyPush : bool;
  peer : QString;
  remoteId : QString;
  remoteContainer : QString;
  expectedHost : QString;
  expectedContainer : QString;
  requests : gmap QString Request;
  configuredWindow : Z;
  window : Z;
  pendingChunks : Z;
  inlineBytes : Z;
  receivedChunks : gmap Z jobj;
  acknowledgedChunks : gmap Z Z;
  entries : list jobj;
  index : nat;
  pulled : Z;
  pushed : Z;
  through : Z;
  offset : Z;
  current : jobj;
  manifests : bool;
  outgoing : list jobj;
  pushThrough : Z;
  manifestIndex : nat;
  manifestId : QString;
  manifestReady : option Ready;
  transferSlice : option Z;
  transferredInSlice : bool;
  timers : list Timer;
  nonce : nat;
  clock : Z;
  monotonic : Z;
  out : list Signal;
  diverged : bool
}.

(** ** Pure helpers *)
Definition nonnegative (v : jval) : option Z :=
  let? n := toLongLong (toStr v) in if 0 <=? n then Some n else None.

(** [order]: directories, then what is neither directory nor file with the deepest
    first, then files by size. A stable insertion sort stands for std::sort, whose
    order of equal elements is open, and for std::stable_sort. *)
Fixpoint insertBy {A} (lt : A → A → bool) (x : A) (l : list A) : list A :=
  match l with
  | [] => [x]
  | y :: rest => if lt y x then y :: insertBy lt x rest else x :: l
  end.
Definition sortBy {A} (lt : A → A → bool) (l : list A) : list A := foldr (insertBy lt) [] l.
Definition rankOf (e : jobj) : Z :=
  if bool_decide (e.["kind"] = JS "directory") then 0 else if bool_decide (e.["kind"] = JS "file") then 2 else 1.
Definition before (a b : jobj) : bool :=
  if negb (rankOf a =? rankOf b) then rankOf a <? rankOf b else
  let sa := jlong a.["size"] in let sb := jlong b.["size"] in
  if (rankOf a =? 2) && negb (sa =? sb) then sa <? sb else
  let pa := toStr a.["path"] in let pb := toStr b.["path"] in
  let da := countChar slash pa in let db := countChar slash pb in
  if negb (da =? db) then (if rankOf a =? 1 then db <? da else da <? db) else qlt pa pb.
Definition order (entries : list jobj) : list jobj := sortBy before entries.
Definition hasPath (path : QString) (entries : list jobj) : bool :=
  existsb (λ e : jobj, bool_decide (e.["path"] = JStr path)) entries.

Section session.
Context {PF : Platform} {R : ReplicaOps}.
(** QUuid::createUuid: the n-th identifier; and, of the slots connected to the signals,
    whether the n-th signal makes one call [stop]. *)
Variables (uuid : nat → QString) (stops : nat → Signal → bool).

Definition M (A : Type) : Type := Session → A * Session.
Definition ret {A} (a : A) : M A := λ s, (a, s).
Definition bind {A B} (m : M A) (k : A → M B) : M B := λ s, k (m s).1 (m s).2.
Definition get : M Session := λ s, (s, s).
Definition modify (f : Session → Session) : M unit := λ s, (tt, f s).
(** A call of the replica. *)
Definition call {A} (f : replica → A * replica) : M A :=
  λ s, ((f (store s)).1, { s with store := (f (store s)).2 }).
Notation "'let*' x ':=' a 'in' b" := (bind a (fun x => b))
  (at level 10, x pattern, a at level 100, b at level 200, only parsing).
Notation "a ;; b" := (bind a (fun _ => b)) (at level 100, b at level 200, right associativity, only parsing).

(** ** Ending a session *)
Definition say (x : Signal) : M unit := modify (λ s, { s with out := out s ++ [x] }).
(** The end of [finish]. A slot that calls [stop] here finds the session inactive. *)
Definition conclude (ok : bool) (error : QString) : M unit :=
  modify (λ s, { s with active := false; earlyPush := false; generation := generation s + 1; requests := ∅;
    pendingChunks := 0; receivedChunks := ∅; acknowledgedChunks := ∅; manifestReady := None;
    entries := []; outgoing := []; timeout := false }) ;;
  say (Published (if ok then Complete else if bool_decide (error = u "cancelled") then Cancelled else Failed)) ;;
  let* s := get in
  say (Finished (peer s) ok error).
(** finish(false, error). *)
Definition fail (error : QString) : M unit :=
  let* s := get in if negb (active s) then ret tt else conclude false error.
(** [fail] with the replica's error. *)
Definition failStore : M unit := let* s := get in fail (errorString (store s)).
Definition stop : M unit := fail (u "cancelled").
Definition emit (x : Signal) : M unit :=
  let* s := get in
  say x ;; if stops (List.length (out s)) x then stop else ret tt.
Definition accepted (r : jobj) : M bool :=
  if toBool r.["ok"] then ret true else
  fail (toStrOr (u "sync_request_failed") r.["error"]) ;; ret false.

(** ** Requests and timers *)
Definition createUuid : M QString :=
  let* s := get in modify (λ s, { s with nonce := S (nonce s) }) ;; ret (uuid (nonce s)).
Definition start_ (t : Timer) : M unit := modify (λ s, { s with timers := timers s ++ [t] }).
Definition transmit (id : QString) : M unit :=
  let* s := get in if negb (active s) then ret tt else start_ (Transmit id (generation s)).
Definition schedule (a : Action) : M unit := let* s := get in start_ (Scheduled (generation s) a).
Definition ofObject (message : jobj) : bool :=
  let action := message.["action"] in
  bool_decide (action = JS "begin") || bool_decide (action = JS "chunk") || bool_decide (action = JS "commit").
(** The message as it is sent: for which container, and for which announced manifest. *)
Definition addressed (s : Session) (message : jobj) : jobj :=
  let m := if isEmpty (remoteContainer s) then message else jinsert message "container" (JStr (remoteContainer s)) in
  if manifests s && ofObject m
  then jinsert (jinsert m "manifest" (JStr (manifestId s))) "snapshot" (snapshot s).["id"] else m.
Definition enveloped (scope token : QString) (message : jobj) : jobj :=
  obj [("op", JS "society.sync"); ("protocol", JNum 2); ("namespaceVersion", JNum 1);
       ("scope", JStr scope); ("token", JStr token); ("message", JObj message)]%string.
Definition send (message : jobj) (done : Callback) : M unit :=
  let* s := get in
  if negb (active s) then ret tt else
  let* id := createUuid in
  let* token := createUuid in
  let request := mkRequest (enveloped (accountScope (store s)) token (addressed s message)) done 1 (clock s + 120000) in
  modify (λ s, { s with requests := <[id := request]> (requests s) }) ;;
  transmit id.

(** ** The end of a successful session *)
Definition acknowledgeSnapshot (done : Done) : M unit :=
  let* s := get in
  send (obj [("action", JS "snapshot.complete"); ("manifest", JStr (manifestId s)); ("snapshot", (snapshot s).["id"])]%string)
    (OnSnapshot done).
Definition finishWith (previewNext : M unit) (ok : bool) (error : QString) : M unit :=
  let* s := get in
  if negb (active s) then ret tt else
  if ok && negb (snapshotAcknowledged s) then acknowledgeSnapshot ThenFinish else
  let* published := (if ok then call publishStorageMap else ret true) in
  if negb published then failStore else
  (if ok then call completeRequests else ret tt) ;;
  if ok && bool_decide (policy s = MetadataFirst) && negb (previewsDone s) then
    modify (λ s, { s with previewsDone := true }) ;;
    let* l := call missingPreviews in
    modify (λ s, { s with previews := l; previewIndex := 0%nat }) ;;
    previewNext
  else conclude ok error.
Definition previewNextWith (finish : M unit) : M unit :=
  let* s := get in
  match previews s !! previewIndex s with
  | None => finish
  | Some v =>
      modify (λ s, { s with previewIndex := S (previewIndex s) }) ;;
      send (obj [("action", JS "preview"); ("entry", JObj (toObj v))]%string) (OnPreview (toObj v))
  end.
(** The second [finish] finds [previewsDone] set: [finish_unfold]. *)
Definition finish (ok : bool) (error : QString) : M unit :=
  finishWith (previewNextWith (finishWith (ret tt) true [])) ok error.
Definition previewNext : M unit := previewNextWith (finish true []).

(** ** Cursors and pages *)
Definition describe : M unit :=
  modify (λ s, { s with remoteContainer := []; remoteId := []; earlyPush := false }) ;;
  send (obj [("action", JS "describe")]%string) OnDescribe.
Definition page (after upper : Z) : M unit :=
  send (obj [("action", JS "changes"); ("after", jnum after); ("through", jnum upper)]%string) (OnPage after upper).
Definition saveCursors : M bool :=
  let* s := get in call (savePeerState (peer s) (remoteId s) (remoteContainer s) (pulled s) (pushed s)).
Definition journalPage (upper : Z) : M unit :=
  let* state := call namespaceState in
  send (obj [("action", JS "journal"); ("after", JStr (toStr state.["sequence"])); ("through", jnum upper)]%string) (OnJournal upper).

(** ** Which payloads are fetched *)
Definition metadataOnly (e : jobj) : M bool :=
  let* s := get in
  if bool_decide (policy s ≠ MetadataFirst) || bool_decide (e.["kind"] ≠ JS "file") then ret false else
  let path := toStr e.["path"] in
  let* local := call (record path) in
  let identity := bool_decide (path ∈ photoIdentities s)
    || (startsWith path (u "models/") && endsWith path (u "/model_index.json") && (jlong e.["size"] <=? 1024 * 1024)) in
  let pending := negb (jempty local) && negb (jcontains local "revision") in
  ret (negb identity && negb (bool_decide (path ∈ requested s)) && negb pending
       && bool_decide (local.["kind"] ≠ JS "directory")).
Definition hasLocalPayload (e : jobj) : M bool :=
  if bool_decide (e.["kind"] ≠ JS "file") then ret false else
  let path := toStr e.["path"] in
  let* local := call (record path) in
  if bool_decide (local.["kind"] = JS "file") && bool_decide (local.["hash"] = e.["hash"])
     && bool_decide (local.["size"] = e.["size"]) then call (resident path) else ret false.
Definition priorityOf (e : jobj) : M Z :=
  let* s := get in
  let kind := toStr e.["kind"] in
  if bool_decide (kind = u "directory") then ret 0 else if bool_decide (kind ≠ u "file") then ret 1 else
  let* remote := metadataOnly e in
  if remote then ret 2 else
  let* here := hasLocalPayload e in
  ret (if here then 3 else if bool_decide (toStr e.["path"] ∈ requested s) then 4 else 5).
Fixpoint prioritiesOf (l : list jobj) (m : gmap QString Z) : M (gmap QString Z) :=
  match l with
  | [] => ret m
  | e :: rest => let* p := priorityOf e in prioritiesOf rest (<[toStr e.["path"] := p]> m)
  end.
Definition orderDownloads : M unit :=
  modify (λ s, { s with entries := order (entries s); metadataPublished := false }) ;;
  let* s := get in
  if bool_decide (policy s ≠ MetadataFirst) then ret tt else
  let* priorities := prioritiesOf (entries s) ∅ in
  let priority (e : jobj) := default 0 (priorities !! toStr e.["path"]) in
  modify (λ s, { s with entries := sortBy (λ a b, priority a <? priority b) (entries s) }).
Definition publishMetadata : M bool :=
  let* s := get in
  if bool_decide (policy s ≠ MetadataFirst) || metadataPublished s then ret true else
  let* ok := call publishStorageMap in
  if ok then modify (λ s, { s with metadataPublished := true }) ;; ret true else failStore ;; ret false.
Definition completeSelected : M bool :=
  let* s := get in
  if bool_decide (policy s ≠ MetadataFirst) || bool_decide (toStr (current s).["path"] ∉ requested s) then ret true else
  let* ok := call publishStorageMap in
  if ok then call completeRequests ;; ret true else failStore ;; ret false.

(** ** Uploads *)
Definition clearEntries : M unit := modify (λ s, { s with entries := [] }).
Definition inlinedUpload (s : Session) (e : jobj) : bool :=
  (0 <? inlineBytes s) && bool_decide (e.["kind"] = JS "file") && (jlong e.["size"] <=? inlineBytes s).
Definition readLocal (e : jobj) (position : Z) : M jobj :=
  let* s := get in
  call (handle (peer s) (obj [("action", JS "read"); ("entry", JObj e); ("offset", jnum position)]%string)).
Definition pushNext : M unit :=
  let* s := get in
  if negb (active s) then ret tt else
  match entries s !! index s with
  | None =>
      if earlyPush s then modify (λ s, { s with earlyPush := false }) ;; clearEntries ;; page (pulled s) 0 else
      if negb (snapshotAcknowledged s) then acknowledgeSnapshot ThenPush else
      modify (λ s, { s with pushed := through s }) ;;
      let* ok := saveCursors in
      if negb ok then failStore else
      if negb (bool_decide (entries s = [])) then clearEntries ;; page (pulled s) 0 else finish true []
  | Some e =>
      modify (λ s, { s with current := e }) ;;
      let size := jlong e.["size"] in
      if inlinedUpload s e then
        let* data := readLocal e 0 in
        let* ok := accepted data in
        if negb ok then ret tt else
        if match Base64.fromBase64 (toStr data.["data"]) with Some bytes => Z.of_nat (List.length bytes) =? size | None => false end
        then send (obj [("action", JS "commit"); ("entry", JObj e); ("inlineData", data.["data"])]%string) (OnBegin true size)
        else fail (u "invalid_local_chunk")
      else send (obj [("action", JS "begin"); ("entry", JObj e)]%string) (OnBegin false size)
  end.
(** A newly completed local output precedes older unsubmitted files. *)
Definition newerFirst (a b : jobj) : bool :=
  let directoryA := bool_decide (a.["kind"] = JS "directory") in
  let directoryB := bool_decide (b.["kind"] = JS "directory") in
  if negb (eqb directoryA directoryB) then directoryA
  else negb directoryA && (jlong b.["sequence"] <? jlong a.["sequence"]).
Fixpoint freshOf (l : list jobj) : M (list jobj) :=
  match l with
  | [] => ret []
  | e :: rest =>
      let kind := toStr e.["kind"] in
      let* isNew := (if bool_decide (kind = u "directory") || bool_decide (kind = u "file")
                     then let* known := call (objectMetadata (toStr e.["path"])) in ret (jempty known) else ret false) in
      let* fresh := freshOf rest in ret (if isNew then e :: fresh else fresh)
  end.
Definition beginNewUploads : M bool :=
  let* s := get in
  if bool_decide (policy s ≠ MetadataFirst) then ret false else
  let* adopting := call bootstrapping in
  if adopting then ret false else
  let* fresh := freshOf (outgoing s) in
  if bool_decide (fresh = []) then ret false else
  modify (λ s, { s with earlyPush := true; entries := sortBy newerFirst (order fresh); index := 0%nat }) ;;
  pushNext ;; ret true.

(** ** The announcement of local changes *)
(** One round of the loop: the cursors after it, and whether to go on. *)
Definition announceRound (cursor upper : Z) : M (option (Z * Z * bool)) :=
  let* page := call (changes cursor upper) in
  let* ok := accepted page in
  if negb ok then ret None else
  modify (λ s, { s with outgoing := outgoing s ++ map toObj (toArr page.["entries"]) }) ;;
  let* s := get in
  if 250000 <? Z.of_nat (List.length (outgoing s)) then fail (u "manifest_capacity") ;; ret None else
  ret (Some (jlong page.["next"], jlong page.["through"], toBool page.["more"])).
(** The upper cursor when the loop is done. *)
Fixpoint announceRounds (fuel : nat) (cursor upper : Z) : M (option Z) :=
  match fuel with
  | O => modify (λ s, { s with diverged := true }) ;; ret None
  | S fuel =>
      let* r := announceRound cursor upper in
      match r with
      | None => ret None
      | Some (cursor, upper, more) => if more then announceRounds fuel cursor upper else ret (Some upper)
      end
  end.
(** Every page that announces more moves the cursor up to at most the upper one, so
    that the rounds after the first are at most the distance between the two. *)
Definition announceChanges (pushed : Z) : M (option Z) :=
  let* r := announceRound pushed 0 in
  match r with
  | None => ret None
  | Some (cursor, upper, more) =>
      if more then announceRounds (S (Z.to_nat (upper - cursor))) cursor upper else ret (Some upper)
  end.
(** The longest prefix that fits a page: at most 128 entries and 256 KiB. *)
Fixpoint takePage (l : list jobj) (taken : list jval) (bytes : Z) : list jval :=
  match l with
  | [] => taken
  | e :: rest =>
      let size := Z.of_nat (List.length (json e)) in
      if (128 <=? List.length taken)%nat || (256 * 1024 <? bytes + size) then taken
      else takePage rest (taken ++ [JObj e]) (bytes + size)
  end.
Definition announcePage : M unit :=
  let* s := get in
  let start := manifestIndex s in
  let page := takePage (drop start (outgoing s)) [] 0 in
  modify (λ s, { s with manifestIndex := (start + List.length page)%nat }) ;;
  send (obj [("action", JS "manifest"); ("manifest", JStr (manifestId s)); ("replica", JStr (replicaId (store s)));
             ("offset", jnum (Z.of_nat start)); ("total", jnum (Z.of_nat (List.length (outgoing s))));
             ("after", jnum (pushed s)); ("through", jnum (pushThrough s)); ("entries", JArr page);
             ("snapshot", JObj (snapshot s))]%string) OnManifest.
Definition manifestDigest (l : list jobj) : QString := digest (flat_map (λ e, json e ++ [10%N]) l).
(** What is done when the announcement is complete is [done], kept as [ready] while
    the host is asked. *)
Definition announceLocal (ready : Ready) (done : M unit) : M unit :=
  modify (λ s, { s with outgoing := []; pushThrough := pushed s }) ;;
  let* adopting := call bootstrapping in
  let* s := get in
  let* upper := (if adopting then ret (Some (pushed s)) else announceChanges (pushed s)) in
  match upper with
  | None => ret tt
  | Some upper =>
      modify (λ s, { s with pushThrough := upper }) ;;
      let* s := get in
      if negb (manifests s) || (bool_decide (outgoing s = []) && snapshotAcknowledged s) then done else
      modify (λ s, { s with manifestId := manifestDigest (outgoing s); manifestIndex := 0%nat; manifestReady := Some ready }) ;;
      let* base := call namespaceState in
      let* id := createUuid in
      modify (λ s, { s with
        snapshot := obj [("schema", JNum 1); ("id", JStr id); ("capturedAt", jnum (clock s));
                         ("baseSequence", base.["sequence"]); ("baseRevision", base.["head"])]%string;
        snapshotAcknowledged := false }) ;;
      announcePage
  end.
Definition readyToPush : M unit :=
  modify (λ s, { s with entries := order (outgoing s); through := pushThrough s; index := 0%nat }) ;; pushNext.

(** ** Downloads *)
Definition refreshBetweenChunks : M bool :=
  let* s := get in
  let started := default (monotonic s) (transferSlice s) in
  modify (λ s, { s with transferSlice := Some started }) ;;
  if negb (transferredInSlice s) || negb (1000 <? monotonic s - started) then ret false else
  modify (λ s, { s with transferSlice := None; transferredInSlice := false; entries := []; outgoing := [];
                        index := 0%nat; earlyPush := false }) ;;
  let* adopting := call bootstrapping in
  let* ok := (if adopting then ret true else call scan) in
  if ok then page (pulled s) 0 ;; ret true else failStore ;; ret true.
Definition nextEntry (a : Action) : M unit := modify (λ s, { s with index := S (index s) }) ;; schedule a.
Fixpoint sendReads (n : nat) (e : jobj) (size position : Z) : M unit :=
  match n with
  | O => ret tt
  | S n =>
      send (obj [("action", JS "read"); ("entry", JObj e); ("offset", jnum position)]%string) (OnRead size position) ;;
      sendReads n e size (position + Requests.ChunkBytes)
  end.
(** How many chunks are asked for at once. *)
Definition windowOf (s : Session) (size : Z) : Z := Z.min (window s) ((size - offset s + Requests.ChunkBytes - 1) `div` Requests.ChunkBytes).
Definition pullChunk : M unit :=
  let* s := get in
  let path := toStr (current s).["path"] in
  let* withdrawn := (if bool_decide (policy s = MetadataFirst) && bool_decide (path ∈ requested s)
                     then let* l := call requestedPaths in ret (bool_decide (path ∉ l)) else ret false) in
  if withdrawn then nextEntry PullNext else
  let size := jlong (current s).["size"] in
  if offset s =? size then
    let* r := call (handle (peer s) (obj [("action", JS "commit"); ("entry", JObj (current s))]%string)) in
    let* ok := accepted r in
    if negb ok then ret tt else
    let* ok := completeSelected in
    if negb ok then ret tt else
    (if bool_decide (path ∈ photoIdentities s)
     then modify (λ s, { s with hydratedPhotoIdentities ::= union {[ path ]} }) else ret tt) ;;
    nextEntry PullNext
  else
  let* refreshed := refreshBetweenChunks in
  if refreshed then ret tt else
  modify (λ t, { t with pendingChunks := windowOf s size }) ;;
  sendReads (Z.to_nat (windowOf s size)) (current s) size (offset s).
Definition pullNext : M unit :=
  let* s := get in
  if negb (active s) then ret tt else
  match entries s !! index s with
  | None =>
      let* ok := publishMetadata in
      if negb ok then ret tt else
      let* early := beginNewUploads in
      if early then ret tt else
      let caughtUp := (through s =? pulled s) && bool_decide (entries s = []) in
      modify (λ s, { s with pulled := through s }) ;;
      let* ok := saveCursors in
      if negb ok then failStore else
      clearEntries ;;
      let* adopting := call bootstrapping in
      if adopting && negb caughtUp then page (through s) 0 else
      let* ok := (if adopting then
                    let* ok := call completeBootstrap in
                    if negb ok then failStore ;; ret false else
                    let* b := call binding in
                    emit (MirrorChanged b) ;; let* s := get in emit (HostValidated (peer s)) ;; ret true
                  else ret true) in
      if negb ok then ret tt else
      let* ok := call scan in
      if negb ok then failStore else announceLocal ReadyToPush readyToPush
  | Some e =>
      modify (λ s, { s with current := e }) ;;
      let* remote := metadataOnly e in
      if remote then
        let* ok := call (acceptMetadata (peer s) e) in
        if ok then nextEntry PullNext else failStore
      else
      let* localPayload := (if bool_decide (policy s = MetadataFirst) then hasLocalPayload e else ret false) in
      let* early := (if bool_decide (e.["kind"] = JS "file") && negb localPayload then
                       let* ok := publishMetadata in
                       if negb ok then ret true else
                       if bool_decide (toStr e.["path"] ∈ requested s) then ret false else beginNewUploads
                     else ret false) in
      if early then ret tt else
      let* r := call (handle (peer s) (obj [("action", JS "begin"); ("entry", JObj e)]%string)) in
      let* ok := accepted r in
      if negb ok then ret tt else
      if toBool r.["complete"] then
        let* ok := completeSelected in if ok then nextEntry PullNext else ret tt
      else
      let* ok := publishMetadata in
      if negb ok then ret tt else
      match nonnegative r.["offset"] with
      | Some n => if jlong e.["size"] <? n then fail (u "invalid_transfer_offset")
                  else modify (λ s, { s with offset := n }) ;; pullChunk
      | None => fail (u "invalid_transfer_offset")
      end
  end.
Definition readyToPull : M unit := orderDownloads ;; modify (λ s, { s with index := 0%nat }) ;; pullNext.
Definition runReady (r : Ready) : M unit := match r with ReadyToPull => readyToPull | ReadyToPush => readyToPush end.

(** ** Replies *)
Definition onSnapshot (done : Done) (r : jobj) : M unit :=
  let* ok := accepted r in
  if negb ok then ret tt else
  let* s := get in
  let receipt := toObj r.["receipt"] in
  if bool_decide (receipt.["snapshot"] ≠ JObj (snapshot s)) || bool_decide (receipt.["manifest"] ≠ JStr (manifestId s))
     || bool_decide (receipt.["replica"] ≠ JStr (replicaId (store s)))
     || bool_decide (receipt.["container"] ≠ JStr (remoteContainer s))
  then fail (u "invalid_snapshot_receipt") else
  modify (λ s, { s with snapshotAcknowledged := true }) ;;
  match done with ThenFinish => finish true [] | ThenPush => pushNext end.
(** A preview is optional: what came of it does not matter. *)
Definition onPreview (entry r : jobj) : M unit :=
  (if toBool r.["ok"] then call (savePreview entry r) ;; ret tt else ret tt) ;;
  schedule PreviewNext.
Definition clamp (low high n : Z) : Z := Z.max low (Z.min high n).
Definition expected (s : Session) (r : jobj) : bool :=
  (isEmpty (expectedHost s) && isEmpty (expectedContainer s))
  || (bool_decide (peer s = expectedHost s) && bool_decide (toStr r.["container"] = expectedContainer s)).
Definition authoritative (r : jobj) : bool :=
  let authority := toObj r.["namespace"] in
  bool_decide (r.["namespaceVersion"] = JNum 1) && bool_decide (authority.["role"] = JS "authority")
  && bool_decide (authority.["namespace"] = r.["container"]) && bool_decide (authority.["authority"] = r.["replica"]).
Definition onDescribe (r : jobj) : M unit :=
  let* ok := accepted r in
  if negb ok then ret tt else
  let* s := get in
  if negb (authoritative r) then fail (u "namespace_authority_protocol_required") else
  if negb (expected s r) then fail (u "account_host_mismatch") else
  if bool_decide (r.["protocol"] ≠ JNum 2) then fail (u "host_mirror_protocol_required") else
  let* bound := call (bindHost (peer s) (toStr r.["replica"]) (toStr r.["container"])
                       (negb (isEmpty (expectedHost s)) && negb (isEmpty (expectedContainer s)))) in
  if negb bound then failStore else
  let* b := call binding in
  emit (MirrorChanged b) ;;
  let* adopting := call bootstrapping in
  (if adopting then ret tt else let* s := get in emit (HostValidated (peer s))) ;;
  modify (λ s, { s with manifests := toInt r.["manifestVersion"] =? 1 }) ;;
  if negb (toInt r.["manifestVersion"] =? 1) || bool_decide (r.["snapshotVersion"] ≠ JNum 1)
  then fail (u "snapshot_protocol_required") else
  modify (λ s, { s with inlineBytes := clamp 0 Requests.InlineBytes (toInt r.["inlineBytes"]);
                        window := Z.min (configuredWindow s) (clamp 1 4 (toIntOr 1 r.["transferWindow"]));
                        remoteId := toStr r.["replica"]; remoteContainer := toStr r.["container"] }) ;;
  let* s := get in
  let* state := call (peerState (peer s)) in
  modify (λ s, { s with pulled := jlong state.["pulled"]; pushed := jlong state.["pushed"] }) ;;
  let* adopting := call bootstrapping in
  let* ok := (if adopting then ret true else call scan) in
  if ok then page (jlong state.["pulled"]) 0 else failStore.

(** The cursors of a page of changes, when it continues this host's history. *)
Definition pageCursors (s : Session) (after upper : Z) (r : jobj) : option (Z * Z) :=
  let replica := toStr r.["replica"] in
  let container := toStr r.["container"] in
  if Binding.nullUuid replica || Binding.nullUuid container || bool_decide (replica = replicaId (store s))
     || (negb (isEmpty (remoteId s)) && (bool_decide (remoteId s ≠ replica) || bool_decide (remoteContainer s ≠ container)))
     || negb (isArray r.["entries"]) then None else
  let? next := nonnegative r.["next"] in
  let? limit := nonnegative r.["through"] in
  if (next <? after) || (limit <? next) || (negb (upper =? 0) && negb (upper =? limit))
     || (toBool r.["more"] && (next <=? after)) then None else Some (next, limit).
Fixpoint pageEntries (items : list jval) (previous next : Z) (entries : list jobj) : option (list jobj) :=
  match items with
  | [] => Some entries
  | item :: rest =>
      let e := toObj item in
      if negb (validRecord e) then None else
      let? sequence := nonnegative e.["sequence"] in
      if (sequence <=? previous) || (next <? sequence) || (250000 <=? Z.of_nat (List.length entries)) then None
      else pageEntries rest sequence next (entries ++ [e])
  end.
Definition onPage (after upper : Z) (r : jobj) : M unit :=
  let* ok := accepted r in
  if negb ok then ret tt else
  let* s := get in
  match pageCursors s after upper r with
  | None => fail (u "remote_container_or_manifest_changed")
  | Some (next, limit) =>
      modify (λ s, { s with remoteId := toStr r.["replica"]; remoteContainer := toStr r.["container"] }) ;;
      let* ok := saveCursors in
      if negb ok then failStore else
      match pageEntries (toArr r.["entries"]) after next (entries s) with
      | None => fail (u "invalid_remote_manifest")
      | Some l =>
          modify (λ s, { s with entries := l; through := limit }) ;;
          if toBool r.["more"] then page next limit else journalPage 0
      end
  end.

(** Requested originals that no page of changes brought. *)
Fixpoint addRequested (paths : list QString) : M unit :=
  match paths with
  | [] => ret tt
  | path :: rest =>
      let* here := call (resident path) in
      let* s := get in
      (if here || hasPath path (entries s) then ret tt else
       let* known := call (objectMetadata path) in
       let e := jremove known "locations" in
       if bool_decide (e.["kind"] = JS "file") then modify (λ s, { s with entries := entries s ++ [e] }) else ret tt) ;;
      addRequested rest
  end.
(** The next few identities of photos, sixteen to a session. *)
Fixpoint addIdentities (values : list jval) : M unit :=
  match values with
  | [] => ret tt
  | value :: rest =>
      let entry := toObj value in
      let path := toStr entry.["path"] in
      let* s := get in
      if bool_decide (path ∈ hydratedPhotoIdentities s) then addIdentities rest else
      if 16 - Z.of_nat (size (hydratedPhotoIdentities s)) <=? Z.of_nat (List.length (photoIdentities s)) then ret tt else
      modify (λ s, { s with photoIdentities := photoIdentities s ++ [path];
                            entries := if hasPath path (entries s) then entries s else entries s ++ [entry] }) ;;
      addIdentities rest
  end.
Definition onJournal (upper : Z) (r : jobj) : M unit :=
  let* ok := accepted r in
  if negb ok then ret tt else
  let* s := get in
  let* taken := (if negb (upper =? 0) && bool_decide (toStr r.["through"] ≠ numberStr upper) then ret false
                 else call (acceptJournal (peer s) r)) in
  if negb taken then
    let* s := get in
    fail (if isEmpty (errorString (store s)) then u "invalid_namespace_page" else errorString (store s))
  else if toBool r.["more"] then journalPage (jlong r.["through"]) else
  let* paths := call requestedPaths in
  modify (λ s, { s with requested := paths; photoIdentities := [] }) ;;
  let first := bool_decide (policy s = MetadataFirst) in
  (if first then addRequested paths else ret tt) ;;
  let* adopting := (if first then call bootstrapping else ret true) in
  (if first && negb adopting then let* l := call missingPhotoIdentities in addIdentities l else ret tt) ;;
  announceLocal ReadyToPull readyToPull.

Definition onManifest (r : jobj) : M unit :=
  let* ok := accepted r in
  if negb ok then ret tt else
  let* s := get in
  let complete := (manifestIndex s =? List.length (outgoing s))%nat in
  if bool_decide (r.["manifest"] ≠ JStr (manifestId s)) || bool_decide (toStr r.["next"] ≠ numberStr (Z.of_nat (manifestIndex s)))
     || negb (isBool r.["complete"]) || negb (eqb (toBool r.["complete"]) complete)
  then fail (u "invalid_manifest_acknowledgement") else
  if negb complete then announcePage else
  if bool_decide (r.["snapshot"] ≠ JObj (snapshot s)) || negb (isObject r.["diff"])
  then fail (u "invalid_snapshot_analysis") else
  modify (λ s, { s with manifestReady := None }) ;;
  match manifestReady s with Some ready => runReady ready | None => ret tt end.

(** Chunks that arrived are given to the replica in the order of their offsets. *)
Definition bytesLeft (size offset : Z) : Z := Z.min Requests.ChunkBytes (size - offset).
Fixpoint drainReads (fuel : nat) (size : Z) : M unit :=
  match fuel with
  | O => ret tt
  | S fuel =>
      let* s := get in
      match receivedChunks s !! offset s with
      | Some chunk =>
          if negb (active s) then ret tt else
          modify (λ s, { s with receivedChunks := delete (offset s) (receivedChunks s) }) ;;
          let* r := call (handle (peer s) (obj [("action", JS "chunk"); ("entry", JObj (current s));
                            ("offset", jnum (offset s)); ("data", chunk.["data"])]%string)) in
          let* ok := accepted r in
          if negb ok then ret tt else
          let next := offset s + bytesLeft size (offset s) in
          modify (λ s, { s with offset := next; transferredInSlice := true }) ;;
          emit (Progress (toStr (current s).["path"]) next size) ;;
          drainReads fuel size
      | None => ret tt
      end
  end.
(** [schedule] when the session goes on and every chunk asked for has arrived. *)
Definition whenDrained (a : Action) : M unit :=
  let* s := get in if active s && (pendingChunks s =? 0) then schedule a else ret tt.
Definition validChunk (e r : jobj) (size position : Z) : bool :=
  match Base64.fromBase64 (toStr r.["data"]) with
  | None => false
  | Some bytes =>
      (Z.of_nat (List.length bytes) =? bytesLeft size position)
      && bool_decide (nonnegative r.["offset"] = Some position) && bool_decide (r.["version"] = e.["version"])
  end.
Definition onRead (size position : Z) (r : jobj) : M unit :=
  let* ok := accepted r in
  if negb ok then ret tt else
  let* s := get in
  if negb (validChunk (current s) r size position) then fail (u "invalid_download_chunk") else
  modify (λ s, { s with receivedChunks := <[position := r]> (receivedChunks s); pendingChunks := pendingChunks s - 1 }) ;;
  let* s := get in
  drainReads (S (base.size (receivedChunks s))) size ;;
  whenDrained PullChunk.

(** Every chunk is read again from the replica before it is sent. *)
Fixpoint sendChunks (n : nat) (e : jobj) (size position : Z) : M unit :=
  match n with
  | O => ret tt
  | S n =>
      let* r := readLocal e position in
      let* ok := accepted r in
      if negb ok then ret tt else
      match Base64.fromBase64 (toStr r.["data"]) with
      | Some bytes =>
          if negb (Z.of_nat (List.length bytes) =? bytesLeft size position) then fail (u "invalid_local_chunk") else
          send (obj [("action", JS "chunk"); ("entry", JObj e); ("offset", jnum position); ("data", r.["data"])]%string)
            (OnChunk position (position + Z.of_nat (List.length bytes)) size) ;;
          sendChunks n e size (position + Requests.ChunkBytes)
      | None => fail (u "invalid_local_chunk")
      end
  end.
Definition pushChunk : M unit :=
  let* s := get in
  let size := jlong (current s).["size"] in
  if offset s =? size
  then send (obj [("action", JS "commit"); ("entry", JObj (current s))]%string) OnCommit
  else
  let* refreshed := refreshBetweenChunks in
  if refreshed then ret tt else
  modify (λ t, { t with pendingChunks := windowOf s size }) ;;
  sendChunks (Z.to_nat (windowOf s size)) (current s) size (offset s).
Fixpoint drainChunks (fuel : nat) (size : Z) : M unit :=
  match fuel with
  | O => ret tt
  | S fuel =>
      let* s := get in
      match acknowledgedChunks s !! offset s with
      | Some next =>
          if negb (active s) then ret tt else
          modify (λ s, { s with acknowledgedChunks := delete (offset s) (acknowledgedChunks s) }) ;;
          modify (λ s, { s with offset := next; transferredInSlice := true }) ;;
          emit (Progress (toStr (current s).["path"]) next size) ;;
          drainChunks fuel size
      | None => ret tt
      end
  end.
Definition onChunk (position next size : Z) (r : jobj) : M unit :=
  let* ok := accepted r in
  if negb ok then ret tt else
  if bool_decide (toStr r.["offset"] ≠ numberStr next) then fail (u "invalid_upload_acknowledgement") else
  modify (λ s, { s with acknowledgedChunks := <[position := next]> (acknowledgedChunks s); pendingChunks := pendingChunks s - 1 }) ;;
  let* s := get in
  drainChunks (S (base.size (acknowledgedChunks s))) size ;;
  whenDrained PushChunk.
Definition nextUpload : M unit := modify (λ s, { s with index := S (index s) }) ;; pushNext.
Definition onBegin (inlined : bool) (size : Z) (r : jobj) : M unit :=
  let* ok := accepted r in
  if negb ok then ret tt else
  let* s := get in
  if toBool r.["complete"] then
    (if inlined && (0 <? size) then
       modify (λ s, { s with transferredInSlice := true }) ;; emit (Progress (toStr (current s).["path"]) size size)
     else ret tt) ;;
    nextUpload
  else if inlined then fail (u "invalid_inline_acknowledgement") else
  match nonnegative r.["offset"] with
  | Some n =>
      if bool_decide ((current s).["kind"] ≠ JS "file") || (jlong (current s).["size"] <? n) then fail (u "invalid_transfer_offset")
      else modify (λ s, { s with offset := n }) ;; pushChunk
  | None => fail (u "invalid_transfer_offset")
  end.
Definition onCommit (r : jobj) : M unit := let* ok := accepted r in if ok then nextUpload else ret tt.
Definition resume (k : Callback) (r : jobj) : M unit :=
  match k with
  | OnDescribe => onDescribe r
  | OnPage after upper => onPage after upper r
  | OnJournal upper => onJournal upper r
  | OnManifest => onManifest r
  | OnSnapshot done => onSnapshot done r
  | OnPreview entry => onPreview entry r
  | OnRead size position => onRead size position r
  | OnBegin inlined size => onBegin inlined size r
  | OnCommit => onCommit r
  | OnChunk position next size => onChunk position next size r
  end.

(** ** The class's operations *)
Definition start (p : QString) : M bool :=
  let* s := get in
  if active s || negb (isOpen (store s)) || isEmpty p then ret false else
  modify (λ s, { s with active := true; generation := generation s + 1; peer := p; entries := [];
                        snapshot := ∅; snapshotAcknowledged := false }) ;;
  emit (Published InProgress) ;;
  modify (λ s, { s with transferSlice := None; transferredInSlice := false; previewsDone := false; previews := [];
                        previewIndex := 0%nat; photoIdentities := []; hydratedPhotoIdentities := ∅;
                        pulled := 0; pushed := 0; timeout := true }) ;;
  describe ;; ret true.
Definition setExpectedHost (host container : QString) : M unit :=
  stop ;; modify (λ s, { s with expectedHost := host; expectedContainer := container }).
Definition setContentPolicy (p : ContentPolicy) : M bool :=
  let* s := get in if active s then ret false else modify (λ s, { s with policy := p }) ;; ret true.
Definition setTransferWindow (chunks : Z) : M bool :=
  let* s := get in
  if active s || (chunks <? 1) || (4 <? chunks) then ret false
  else modify (λ s, { s with configuredWindow := chunks }) ;; ret true.
(** A reply that is still pending is polled for, at most every 100 ms; the deadline of
    the request stays. *)
Definition repoll (id : QString) (q : Request) : M unit :=
  modify (λ s, { s with requests := <[id := mkRequest (envelope q) (callback q) (Z.min 100 (pollDelay q * 2)) (deadline q)]> (requests s) }) ;;
  let* s := get in start_ (Poll id (generation s)).
Definition receive (id : QString) (response : jobj) : M unit :=
  let* s := get in
  match requests s !! id with
  | Some q =>
      if negb (active s) then ret tt else
      if negb (toBool response.["ok"]) then fail (toStrOr (u "transport_failed") response.["error"]) else
      if toBool response.["pending"] then repoll id q else
      match response.["result"] with
      | JObj r => modify (λ s, { s with requests := delete id (requests s) }) ;; resume (callback q) r
      | _ => fail (u "invalid_sync_response")
      end
  | None => ret tt
  end.

(** ** The event loop *)
Definition act (a : Action) : M unit :=
  match a with PreviewNext => previewNext | PullNext => pullNext | PullChunk => pullChunk | PushChunk => pushChunk end.
Definition current_ (revision : Z) (s : Session) : bool := active s && (generation s =? revision).
Definition expire (t : Timer) : M unit :=
  let* s := get in
  match t with
  | Transmit id revision =>
      match requests s !! id with
      | Some q => if current_ revision s then emit (RequestReady id (peer s) (envelope q)) else ret tt
      | None => ret tt
      end
  | Poll id revision => if current_ revision s then transmit id else ret tt
  | Scheduled revision a => if current_ revision s then act a else ret tt
  end.
(** The timer of the deadlines. *)
Definition checkDeadlines : M unit :=
  let* s := get in
  if timeout s && existsb (λ kv : QString * Request, deadline kv.2 <=? clock s) (map_to_list (requests s))
  then fail (u "sync_request_timeout") else ret tt.
(** What may happen next: a call of the class, the expiry of one of the pending timers,
    a tick of the deadline timer, or a use of the replica by others. *)
Inductive Event :=
| Start (p : QString) | Stop | SetExpectedHost (host container : QString)
| SetContentPolicy (p : ContentPolicy) | SetTransferWindow (chunks : Z)
| Receive (id : QString) (response : jobj)
| Expire (n : nat)
| Tick
| Elsewhere (f : replica → replica).
Definition perform (ev : Event) : M unit :=
  match ev with
  | Start p => start p ;; ret tt
  | Stop => stop
  | SetExpectedHost h c => setExpectedHost h c
  | SetContentPolicy p => setContentPolicy p ;; ret tt
  | SetTransferWindow n => setTransferWindow n ;; ret tt
  | Receive id response => receive id response
  | Expire n =>
      let* s := get in
      match timers s !! n with
      | Some t => modify (λ s, { s with timers := delete n (timers s) }) ;; expire t
      | None => ret tt
      end
  | Tick => checkDeadlines
  | Elsewhere f => modify (λ s, { s with store := f (store s) })
  end.
(** Each event happens at a time, on the wall clock and on the monotonic one. *)
Record Occurrence := occur { at_ : Z; elapsed : Z; event : Event }.
Definition step (s : Session) (o : Occurrence) : Session :=
  (perform (event o) { s with clock := at_ o; monotonic := elapsed o }).2.
Definition history (s : Session) (l : list Occurrence) : Session := foldl step s l.
(** A synchronizer of the replica [r], as it is constructed. *)
Definition idle (r : replica) : Session := {|
  store := r; timeout := false; snapshot := ∅; snapshotAcknowledged := false; active := false; generation := 0;
  policy := FullReplica; requested := []; photoIdentities := []; hydratedPhotoIdentities := ∅; previews := [];
  previewIndex := 0; previewsDone := false; metadataPublished := false; earlyPush := false; peer := [];
  remoteId := []; remoteContainer := []; expectedHost := []; expectedContainer := []; requests := ∅;
  configuredWindow := 4; window := 1; pendingChunks := 0; inlineBytes := 0; receivedChunks := ∅;
  acknowledgedChunks := ∅; entries := []; index := 0; pulled := 0; pushed := 0; through := 0; offset := 0;
  current := ∅; manifests := false; outgoing := []; pushThrough := 0; manifestIndex := 0; manifestId := [];
  manifestReady := None; transferSlice := None; transferredInSlice := false; timers := []; nonce := 0; clock := 0;
  monotonic := 0; out := []; diverged := false |}.
End session.
End Synchronizer.
