(* ===== verification/SynchronizerReplica.v ===== *)
(** The replica of src/Sync/Replica.cpp as the one a synchronizer works on: every call of
    [Synchronizer::Private::store], and that its pages of local changes advance. *)
From S2P Require Import Prelude Qt Records Files Store Scan Drive Requests Binding Objects Invariants Protocol Synchronizer.
Open Scope Z_scope.

Module SynchronizerReplica.
Import Records Store.

(** ** The interface
    What a call finds around it, and the parameters of the replica's operations. *)
Record Surroundings `{FileStore} := mkSurroundings {
  env : Env;
  box : Binding.Container;
  late : QString → bool;
  first : option Objects.Revision;
  second : option Objects.Revision;
  catalogThere : bool;
  catalogStill : bool;
  publish : list jval → bool;
  publishError : QString;
  render : list N → list N;
  isControlFile : QString → bool;
  modifiedAt : QString → option Z;
  sharedStorage : option QString;
  fileInformation : QString → QString → jobj;
  prepare : QString → world → world;
  jpegSize : list N → option (Z * Z);
  rowOrder : list Row → list Row
}.
Section instance.
Context {PF : Platform} {FS : FileStore} {Library : Type}.
Context (pendingRequests : Library → list jobj) (finishRequest : QString → QString → Library → Library).
(** The surroundings of the n-th call. *)
Context (around : nat → Surroundings).
Record Local := mkLocal { kept : Store; library : Library; published : Objects.Revision; calls : nat }.
Definition on {A} (f : Surroundings → M A) : Local → A * Local := λ l,
  let '(a, s) := f (around (calls l)) (kept l) in (a, mkLocal s (library l) (published l) (S (calls l))).
Definition opened (s : Store) : bool := negb (isEmpty (scope s)) && negb (isEmpty (id s)).
(** [isOpen() ? ... : ...] *)
Definition whenOpen {A} (otherwise : A) (m : M A) : M A := let! s := get in if opened s then m else ret otherwise.
Definition onLibrary {A} (f : Surroundings → Library → M (A * Library)) : Local → A * Local := λ l,
  let '((a, lib), s) := f (around (calls l)) (library l) (kept l) in (a, mkLocal s lib (published l) (S (calls l))).
Definition onCatalog (l : Local) : bool * Local :=
  let w := around (calls l) in
  let '((ok, r), s) := Objects.publishStorageMap (env w) (first w) (second w) (catalogThere w) (catalogStill w) (publish w)
    (publishError w) (published l) (kept l) in
  (ok, mkLocal s (library l) r (S (calls l))).
Definition scanned (w : Surroundings) : M bool := let! r := Scan.scan (env w) (late w) in ret (default false r).
Definition handled (peer : QString) (request : jobj) (w : Surroundings) : M jobj :=
  Requests.handle (env w) (render w)
    (Drive.driveRequest (env w) (isControlFile w) (modifiedAt w) (sharedStorage w) (fileInformation w) (prepare w))
    (Scan.scan (env w) (late w)) peer request true.
#[local] Instance replicaOps : ReplicaOps := {|
  replica := Local;
  isOpen l := opened (kept l);
  errorString l := error (kept l);
  replicaId l := id (kept l);
  accountScope l := scope (kept l);
  binding := on (λ w, whenOpen ∅ (Binding.binding (env w)));
  bootstrapping := on (λ w, whenOpen false (Binding.bootstrapping (env w)));
  bindHost peer replica target replace := on (λ w, Binding.bindHost (env w) (box w) peer replica target replace);
  completeBootstrap := on (λ w, Binding.completeBootstrap (env w) (box w));
  peerState peer := on (λ w, Requests.peerState (env w) peer);
  savePeerState peer replica container pulled pushed :=
    on (λ w, Requests.savePeerState (env w) peer replica container pulled pushed);
  scan := on scanned;
  namespaceState := on (λ w, whenOpen ∅ (Requests.namespaceState (env w)));
  acceptJournal peer page := on (λ w, Requests.acceptJournal (env w) peer page);
  acceptMetadata peer record := on (λ w, Objects.acceptMetadata (env w) peer record);
  Synchronizer.record path := on (λ w, Objects.recordOf (env w) path);
  resident path := on (λ w, Objects.resident (env w) path);
  objectMetadata path := on (λ w, whenOpen ∅ (Objects.objectMetadata (env w) path));
  requestedPaths := onLibrary (λ w l, whenOpen ([], l) (Objects.requestedPaths (env w) pendingRequests finishRequest l));
  completeRequests := onLibrary (λ w l, whenOpen (tt, l) (let! l := Objects.completeRequests (env w) pendingRequests finishRequest l in ret (tt, l)));
  publishStorageMap := onCatalog;
  missingPhotoIdentities := on (λ w, whenOpen [] (Objects.missingPhotoIdentities (env w)));
  missingPreviews := on (λ w, whenOpen [] (Objects.missingPreviews (env w) (rowOrder w)));
  savePreview entry response := on (λ w, Objects.savePreview (env w) (jpegSize w) (Binding.saveFile (box w)) entry response);
  Synchronizer.handle peer request := on (handled peer request);
  changes after through := on (λ w, Requests.changes (env w) after through)
|}.
End instance.

(** ** Pages of local changes
    The contract [rounds] of the sessions' theorems holds on a mirror whose records fit
    a page: [Replica::validRecord] admits at most 16 KiB, a page holds 256. *)
Definition listed (r : Row) : jobj :=
  let e := jinsert (edata r) "sequence" (jnum (eseq r)) in
  if jcontains e "baseRevision" then e else jinsert e "baseRevision" (JS "").
Definition pageable `{Platform} (r : Row) : Prop := Z.of_nat (List.length (json (listed r))) < 256 * 1024.
Section pages.
Context {PF : Platform}.
Lemma fillChanges_cons r rows page next bytes :
  let length := Z.of_nat (List.length (json (listed r))) + 1 in
  Requests.fillChanges (r :: rows) page next bytes =
    if jcontains (jinsert (edata r) "sequence" (jnum (eseq r))) "revision" then Requests.fillChanges rows page (eseq r) bytes
    else if 256 * 1024 <? bytes + length then (page, next, true)
    else Requests.fillChanges rows (page ++ [JObj (listed r)]) (eseq r) (bytes + length).
Proof. done. Qed.
Lemma fillChanges_next rows page next bytes :
  (Requests.fillChanges rows page next bytes).1.2 = next ∨ ∃ r, r ∈ rows ∧ (Requests.fillChanges rows page next bytes).1.2 = eseq r.
Proof.
  revert page next bytes. induction rows as [|r rows IH]; intros page next bytes; [by left|]. rewrite fillChanges_cons.
  destruct (jcontains _ "revision"); [|destruct (_ <? _); [by left|]]; right.
  - destruct (IH page (eseq r) bytes) as [->|(x & Hx & ->)]; [exists r; split; [left|done]|exists x; split; [by right|done]].
  - destruct (IH (page ++ [JObj (listed r)]) (eseq r) (bytes + (Z.of_nat (List.length (json (listed r))) + 1))) as [->|(x & Hx & ->)];
      [exists r; split; [left|done]|exists x; split; [by right|done]].
Qed.
Lemma fillChanges_advances r rows next :
  pageable r → ∃ x, x ∈ r :: rows ∧ (Requests.fillChanges (r :: rows) [] next 0).1.2 = eseq x.
Proof.
  intros Hr. unfold pageable in Hr. rewrite fillChanges_cons. set (n := Z.of_nat _) in *. destruct (Z.ltb_spec (256 * 1024) (0 + (n + 1))); [lia|].
  set (page := [] ++ _). destruct (jcontains _ "revision").
  - destruct (fillChanges_next rows [] (eseq r) 0) as [->|(x & Hx & ->)]; [exists r; split; [left|done]|exists x; split; [by right|done]].
  - destruct (fillChanges_next rows page (eseq r) (0 + (n + 1))) as [->|(x & Hx & ->)];
      [exists r; split; [left|done]|exists x; split; [by right|done]].
Qed.
Lemma changedRows_between d after through r :
  r ∈ Requests.changedRows d after through → after < eseq r ≤ through ∧ ∃ p, entries d !! p = Some r.
Proof.
  unfold Requests.changedRows. intros Hr. apply elem_of_take in Hr as (i & Hi & _).
  apply list_elem_of_lookup_2 in Hi. rewrite merge_sort_Permutation in Hi. apply list_elem_of_In, filter_In in Hi as [Hi Hc].
  split; [bool_hyps; lia|]. apply in_map_iff in Hi as ([p x] & <- & Hin). exists p.
  by apply elem_of_map_to_list, list_elem_of_In.
Qed.
Context {FS : FileStore} (E : Env).
Lemma mirrorChanges_rounds after upper s :
  (∀ p r, entries (db s) !! p = Some r → pageable r) →
  let page := (Requests.mirrorChanges E after upper s).1 in
  toBool page.["ok"] = true → toBool page.["more"] = true →
  0 ≤ after < jlong page.["next"] ∧ jlong page.["next"] ≤ jlong page.["through"]
  ∧ (upper ≠ 0 → jlong page.["through"] = upper).
Proof.
  intros Hfit page. unfold page, Requests.mirrorChanges, bind, get. clear page.
  destruct (quiet_meta E (u "sequence") s) as [e Ee]. destruct (meta E (u "sequence") s) as [current s1]. cbn [snd] in Ee. subst s1.
  cbv zeta. set (through := if upper =? 0 then toLongLong0 current else upper).
  destruct (_ || _ || _) eqn:Eg; [by vm_compute|]. destruct (negb _); [by vm_compute|].
  assert (Hc : toLongLong0 current ≤ int64_max) by apply (jlong_range (JStr current)).
  bool_hyps. set (rows := Requests.changedRows _ after through).
  assert (Hrows : ∀ r, r ∈ rows → after < eseq r ≤ through ∧ ∃ p, entries (db s) !! p = Some r) by apply changedRows_between.
  clearbody rows. destruct (Requests.fillChanges rows [] after 0) as [[l next] limited] eqn:Ef.
  cbn [fst snd ret]. jsimp. intros _ Hm. cbn in Hm. rewrite Hm.
  assert (∃ x, x ∈ rows ∧ next = eseq x) as (x & Hx & ->).
  { destruct rows as [|r rows]; [injection Ef as <- <- <-; done|].
    destruct (fillChanges_advances r rows after) as (x & Hx & Ex).
    - destruct (Hrows r) as (_ & p & Hp); [left|]. by eapply Hfit.
    - exists x. split; [done|]. by rewrite Ef in Ex. }
  apply Hrows in Hx as [Hx _]. rewrite !jlong_jnum by (unfold int64_min in *; lia).
  split_and!; try lia. intros Hu. unfold through. by apply Z.eqb_neq in Hu as ->.
Qed.
(** The pages of [Replica::changes] on a mirror. *)
Lemma changes_rounds after upper s :
  sql E (SelectMeta (u "host")) = true → metaOf (db s) "host" ≠ [] →
  (∀ p r, entries (db s) !! p = Some r → pageable r) →
  let page := (Requests.changes E after upper s).1 in
  toBool page.["ok"] = true → toBool page.["more"] = true →
  0 ≤ after < jlong page.["next"] ∧ jlong page.["next"] ≤ jlong page.["through"]
  ∧ (upper ≠ 0 → jlong page.["through"] = upper).
Proof.
  intros Hsql Hhost Hfit page. assert (Hp : page = (Requests.changes E after upper s).1) by done. clearbody page.
  unfold Requests.changes, Requests.readSnapshot, bind in Hp.
  pose proof (Protocol.ready_sameDb E s) as Hr. destruct (ready E s) as [ok s1]. cbn [snd] in Hr. destruct ok; cbn [negb] in Hp; [|by subst].
  destruct (quiet_run E Savepoint s1) as [e2 E2]. destruct (run E Savepoint s1) as [ok s2]. cbn [snd] in E2. subst s2.
  destruct ok; cbn [negb] in Hp; [|by subst]. unfold meta at 1 in Hp. rewrite Hsql in Hp.
  change (default [] (metadata (db (set_error e2 s1)) !! u "host")) with (metaOf (db s1) "host") in Hp.
  assert (Ed : db s1 = db s) by exact Hr. rewrite Ed in Hp. unfold isEmpty in Hp. rewrite bool_decide_eq_false_2 in Hp by done.
  pose proof (mirrorChanges_rounds after upper (set_error e2 s1)) as Hm. change (db (set_error e2 s1)) with (db s1) in Hm. rewrite Ed in Hm.
  specialize (Hm Hfit). cbv zeta in Hm. destruct (Requests.mirrorChanges E after upper _) as [r s3]. cbn [fst] in Hm.
  destruct (run E Release s3) as [released s4]. destruct released; [by subst page|].
  unfold failed in Hp. destruct (run E Release _) as [? ?]. by subst page.
Qed.
End pages.
End SynchronizerReplica.
