(* ===== verification/SynchronizerLaws.v ===== *)
(** What a synchronisation session guarantees: it always waits for something, for one
    thing at a time or for at most four chunks of one file, and tells its listeners a
    consistent story. *)
From S2P Require Import Prelude Qt Records Requests Synchronizer.
From coqutil Require Import Datatypes.RecordSetters.
Import OCamlLikeNotations.
Open Scope Z_scope.

Module SynchronizerLaws.
Import Records Synchronizer.

(** ** The story that is told *)
Inductive Telling := Silent | Busy | Ending (c : StatusCode).
Definition told (t : Telling) (x : Signal) : option Telling :=
  match t, x with
  | Silent, Published InProgress => Some Busy
  | Busy, Published (Before | InProgress) => None
  | Busy, Published c => Some (Ending c)
  | Busy, (RequestReady _ _ _ | Progress _ _ _) => Some Busy
  | (Silent | Busy), (MirrorChanged _ | HostValidated _) => Some t
  | Ending Complete, Finished _ true _ => Some Silent
  | Ending (Failed | Cancelled), Finished _ false _ => Some Silent
  | _, _ => None
  end.
Definition toldAll (t : Telling) (l : list Signal) : option Telling :=
  foldl (λ t x, t ≫= λ t, told t x) (Some t) l.

#[global] Arguments toldAll : simpl never.

(** ** What the invariants are about *)
Record Core := mkCore {
  c_active : bool; c_generation : Z; c_requests : gmap QString Request; c_pending : Z;
  c_received : gmap Z jobj; c_acked : gmap Z Z; c_timers : list Timer; c_nonce : nat; c_clock : Z;
  c_offset : Z; c_size : Z; c_window : Z; c_configured : Z; c_timeout : bool; c_diverged : bool; c_ready : bool;
  c_snapshot : jobj; c_manifest : QString; c_acknowledged : bool; c_out : list Signal
}.
Definition core `{ReplicaOps} (s : Session) : Core :=
  mkCore (active s) (generation s) (requests s) (pendingChunks s) (receivedChunks s) (acknowledgedChunks s) (timers s)
    (nonce s) (clock s) (offset s) (jlong (current s).["size"]) (window s) (configuredWindow s) (timeout s) (diverged s)
    (bool_decide (is_Some (manifestReady s)))
    (snapshot s) (manifestId s) (snapshotAcknowledged s) (out s).
#[global] Arguments core : simpl never.

Definition revisionOf (t : Timer) : Z :=
  match t with Transmit _ r | Poll _ r | Scheduled r _ => r end.
(** The actions of the running session that are scheduled. *)
Definition scheduled (c : Core) : list Action :=
  omap (λ t, match t with Scheduled r a => if r =? c_generation c then Some a else None | _ => None end) (c_timers c).
#[global] Arguments scheduled : simpl never.
Definition single (k : Callback) : Prop := match k with OnRead _ _ | OnChunk _ _ _ => False | _ => True end.
Definition ChunkBytes : Z := Requests.ChunkBytes.
(** A position of the window: a whole number of chunks beyond the offset, in the file. *)
Definition ahead (c : Core) (p : Z) : Prop := p < c_size c ∧ ∃ i : nat, p = c_offset c + Z.of_nat i * ChunkBytes.

(** A chunk that has arrived or is asked for. *)
Definition known (mk : Z → Callback) (got : gset Z) (c : Core) (p : Z) : Prop :=
  p ∈ got ∨ ∃ id q, c_requests c !! id = Some q ∧ callback q = mk p.
(** Chunks in flight: [got] have arrived, the requests are for the others. *)
Record flight (mk : Z → Callback) (got : gset Z) (c : Core) : Prop := {
  fl_offset : c_offset c ≤ c_size c;
  fl_ahead p : p ∈ got → ahead c p;
  fl_requests id q : c_requests c !! id = Some q → ∃ p, callback q = mk p ∧ ahead c p ∧ p ∉ got;
  fl_once id id' q q' : c_requests c !! id = Some q → c_requests c !! id' = Some q' → callback q = callback q' → id = id';
  fl_cover p (i : nat) : known mk got c p → c_offset c + Z.of_nat i * ChunkBytes < p →
    known mk got c (c_offset c + Z.of_nat i * ChunkBytes);
  fl_pending : c_pending c = Z.of_nat (size (c_requests c));
  fl_bound : c_pending c ≤ 4
}.
Definition chunkRead (c : Core) (p : Z) : Callback := OnRead (c_size c) p.
Definition chunkWritten (c : Core) (p : Z) : Callback := OnChunk p (p + bytesLeft (c_size c) p) (c_size c).
Definition exactAcks (c : Core) : Prop := ∀ p n, c_acked c !! p = Some n → n = p + bytesLeft (c_size c) p.

(** What an active session waits for. *)
Inductive turn (c : Core) : Prop :=
| Asked id q : c_requests c = {[ id := q ]} → single (callback q) → (callback q = OnManifest → c_ready c = true) → scheduled c = [] →
    c_pending c = 0 → c_received c = ∅ → c_acked c = ∅ → turn c
| Resting a : c_requests c = ∅ → scheduled c = [a] → (a = PullChunk ∨ a = PushChunk → c_offset c ≤ c_size c) →
    c_pending c = 0 → c_received c = ∅ → c_acked c = ∅ → turn c
| Reading : scheduled c = [] → flight (chunkRead c) (dom (c_received c)) c → c_offset c ∉ dom (c_received c) →
    c_pending c ≠ 0 → c_acked c = ∅ → turn c
| Writing : scheduled c = [] → flight (chunkWritten c) (dom (c_acked c)) c → c_offset c ∉ dom (c_acked c) →
    c_pending c ≠ 0 → c_received c = ∅ → exactAcks c → turn c.
Definition empty (c : Core) : Prop :=
  c_requests c = ∅ ∧ c_pending c = 0 ∧ c_received c = ∅ ∧ c_acked c = ∅.

(** The session that runs, or the last one. *)
Definition session (c : Core) : Z := if c_active c then c_generation c else c_generation c - 1.
(** The last thing that was told is the success of a session. *)
Definition successful (c : Core) : Prop := ∃ p e, last (c_out c) = Some (Finished p true e).

Section laws.
Context {PF : Platform} {R : ReplicaOps} (uuid : nat → QString) (stops : nat → Signal → bool) (T : Z)
  (Ev : Z → jobj → QString → Prop).

Record books (c : Core) : Prop := {
  bk_timers t : t ∈ c_timers c → revisionOf t ≤ c_generation c;
  bk_ids id q : c_requests c !! id = Some q → ∃ n, (n < c_nonce c)%nat ∧ id = uuid n;
  bk_deadlines id q : c_requests c !! id = Some q → deadline q ≤ T + 120000;
  bk_clock : c_clock c ≤ T;
  bk_window : 1 ≤ c_window c ≤ 4;
  bk_configured : 1 ≤ c_configured c ≤ 4;
  bk_total : c_diverged c = false;
  bk_idle : c_active c = false → empty c;
  bk_told : toldAll Silent (c_out c) = Some (if c_active c then Busy else Silent);
  bk_acknowledged : c_acknowledged c = true → Ev (session c) (c_snapshot c) (c_manifest c);
  bk_success : successful c → c_acknowledged c = true
}.
(** Between the events of a session: it has not just succeeded. *)
Definition sound (c : Core) : Prop := books c ∧ ¬ successful c.
(** While a handler runs the session waits for nothing. *)
Definition running (c : Core) : Prop :=
  sound c ∧ (c_active c = true → c_timeout c = true ∧ empty c ∧ scheduled c = []).
Definition waiting (c : Core) : Prop :=
  books c ∧ (c_active c = true → c_timeout c = true ∧ turn c).
Definition over (c : Core) : Prop := sound c ∧ c_active c = false.

Lemma over_running c : over c → running c.
Proof. intros [Hb Ha]. split; [done|]. by rewrite Ha. Qed.
Lemma over_waiting c : over c → waiting c.
Proof. intros [[Hb _] Ha]. split; [done|]. by rewrite Ha. Qed.

(** ** Weakest preconditions *)
Definition wp {A} (m : M A) (Q : A → Session → Prop) (s : Session) : Prop := Q (m s).1 (m s).2.
Lemma wp_bind {A B} (m : M A) (k : A → M B) Q s : wp m (λ a, wp (k a) Q) s → wp (bind m k) Q s.
Proof. exact id. Qed.
Lemma wp_mono {A} (m : M A) (Q Q' : A → Session → Prop) s : wp m Q s → (∀ a s', Q a s' → Q' a s') → wp m Q' s.
Proof. intros H HQ. by apply HQ. Qed.
Lemma wp_get (Q : Session → Session → Prop) s : Q s s → wp get Q s.
Proof. exact id. Qed.
Lemma wp_ret {A} (a : A) (Q : A → Session → Prop) s : Q a s → wp (ret a) Q s.
Proof. exact id. Qed.
(** Operations that do not touch the core. *)
Definition quiet {A} (m : M A) : Prop := ∀ s, core (m s).2 = core s.
Lemma wp_quiet {A} (m : M A) (Q : A → Session → Prop) s c :
  core s = c → quiet m → (∀ a s', core s' = c → Q a s') → wp m Q s.
Proof. intros <- Hm H. apply H, Hm. Qed.
Lemma noop_ret {A} (a : A) : quiet (ret a).
Proof. done. Qed.
Lemma noop_bind {A B} (m : M A) (k : A → M B) : quiet m → (∀ a, quiet (k a)) → quiet (bind m k).
Proof. intros Hm Hk s. unfold bind. by rewrite Hk, Hm. Qed.
Lemma noop_get {B} (k : Session → M B) : (∀ s, quiet (k s)) → quiet (bind get k).
Proof. intros Hk s. apply Hk. Qed.
Lemma quiet_call {A} (f : replica → A * replica) : quiet (call f).
Proof. intros s. by destruct s. Qed.
Lemma quiet_modify (f : Session → Session) : (∀ s, core (f s) = core s) → quiet (modify f).
Proof. done. Qed.

Notation "'let*' x ':=' a 'in' b" := (bind a (fun x => b))
  (at level 10, x pattern, a at level 100, b at level 200, only parsing).
Notation "a ;; b" := (bind a (fun _ => b)) (at level 100, b at level 200, right associativity, only parsing).

(** ** Signals *)
Lemma toldAll_snoc t l x : toldAll t (l ++ [x]) = toldAll t l ≫= λ t, told t x.
Proof. unfold toldAll. by rewrite foldl_app. Qed.
Lemma successful_snoc c l x : c_out c = l ++ [x] → successful c ↔ ∃ p e, x = Finished p true e.
Proof.
  intros E. unfold successful. rewrite E, last_snoc. split; intros (p & e & H); exists p, e; [by injection H|by rewrite H].
Qed.
Lemma active_sound c : books c → c_active c = true → sound c.
Proof.
  intros Hb Ha. split; [done|]. intros (p & e & Hl). pose proof (bk_told _ Hb) as Ht. rewrite Ha in Ht.
  destruct (c_out c) as [|x l _] eqn:E using rev_ind; [done|]. rewrite last_snoc in Hl. injection Hl as ->.
  rewrite toldAll_snoc in Ht. destruct (toldAll Silent l) as [[| |[]]|]; done.
Qed.
Lemma scheduled_none c : (∀ t, t ∈ c_timers c → revisionOf t < c_generation c) → scheduled c = [].
Proof.
  intros H. unfold scheduled. induction (c_timers c) as [|t l IH]; [done|]. cbn.
  assert (revisionOf t < c_generation c) by (apply H; left). rewrite IH by (intros; apply H; by right).
  destruct t; try done. cbn in *. destruct (Z.eqb_spec revision (c_generation c)); [lia|done].
Qed.

Definition concludes (ok : bool) (p error : QString) (c : Core) : Core :=
  mkCore false (c_generation c + 1) ∅ 0 ∅ ∅ (c_timers c) (c_nonce c) (c_clock c) (c_offset c) (c_size c) (c_window c)
    (c_configured c) false (c_diverged c) false (c_snapshot c) (c_manifest c) (c_acknowledged c)
    ((c_out c ++ [Published (if ok then Complete else if bool_decide (error = u "cancelled") then Cancelled else Failed)])
     ++ [Finished p ok error]).
Lemma concludes_books ok p error c :
  books c → c_active c = true → (ok = true → c_acknowledged c = true) → books (concludes ok p error c).
Proof.
  intros [H1 H2 H3 H4 H5 H6 H7 H8 H9 H10 H11] Ha Hok. split; cbn; try done.
  - intros t Ht. specialize (H1 t Ht). lia.
  - rewrite !toldAll_snoc, H9, Ha. cbn. destruct ok; [done|]. cbn. by case_bool_decide.
  - unfold session in *. cbn. rewrite Ha in H10. by replace (c_generation c + 1 - 1) with (c_generation c) by lia.
  - intros H. eapply successful_snoc in H; [|done]. destruct H as (q & e & [= _ -> _]). by apply Hok.
Qed.
Lemma conclude_core ok error s : core (conclude ok error s).2 = concludes ok (peer s) error (core s).
Proof. by destruct s. Qed.
Lemma wp_conclude ok error (Q : unit → Session → Prop) s c :
  core s = c → books c → c_active c = true → (ok = true → c_acknowledged c = true) →
  (∀ s', books (core s') → c_active (core s') = false → (ok = false → over (core s')) → Q tt s') → wp (conclude ok error) Q s.
Proof.
  intros <- Hb Ha Hok HQ. pose proof (concludes_books ok (peer s) error _ Hb Ha Hok) as Hb'.
  apply HQ; rewrite conclude_core; [done|done|]. intros ->. split; [|done]. split; [done|].
  intros H. eapply successful_snoc in H; [|done]. by destruct H as (p & e & [=]).
Qed.
Lemma wp_fail error (Q : unit → Session → Prop) s c :
  core s = c → sound c → (∀ s', over (core s') → Q tt s') → wp (fail error) Q s.
Proof.
  intros <- Hb HQ. unfold fail. apply wp_bind. unfold wp at 1, get; cbn [fst snd].
  destruct (active s) eqn:Ea; cbn [negb]; [|apply HQ; by split].
  eapply wp_conclude; [done|apply Hb|done|done|]. intros s' _ _ Ho. by apply HQ, Ho.
Qed.
Lemma wp_failStore (Q : unit → Session → Prop) s c :
  core s = c → sound c → (∀ s', over (core s') → Q tt s') → wp failStore Q s.
Proof. intros. apply wp_bind. by eapply wp_fail. Qed.
Lemma wp_accepted r (Q : bool → Session → Prop) s c :
  core s = c → sound c → (∀ s', core s' = c → toBool r.["ok"] = true → Q true s') → (∀ s', over (core s') → Q false s') →
  wp (accepted r) Q s.
Proof.
  intros <- Hb Ht Hf. unfold accepted. destruct (toBool _) eqn:E; [by apply Ht|]. apply wp_bind. eapply wp_fail; [done..|].
  intros. by apply Hf.
Qed.
Definition hears (x : Signal) (c : Core) : Core :=
  mkCore (c_active c) (c_generation c) (c_requests c) (c_pending c) (c_received c) (c_acked c) (c_timers c) (c_nonce c)
    (c_clock c) (c_offset c) (c_size c) (c_window c) (c_configured c) (c_timeout c) (c_diverged c) (c_ready c) (c_snapshot c)
    (c_manifest c) (c_acknowledged c) (c_out c ++ [x]).
Lemma hears_sound x c : books c → told (if c_active c then Busy else Silent) x = Some (if c_active c then Busy else Silent) →
  sound (hears x c).
Proof.
  intros [H1 H2 H3 H4 H5 H6 H7 H8 H9 H10 H11] Hx.
  assert (¬ successful (hears x c)).
  { intros H. eapply successful_snoc in H; [|done]. destruct H as (p & e & ->). by destruct (c_active c). }
  split; [|done]. split; cbn; try done. by rewrite toldAll_snoc, H9.
Qed.
Lemma wp_emit x (Q : unit → Session → Prop) s c :
  core s = c → sound (hears x c) →
  (∀ s', core s' = hears x c → Q tt s') → (∀ s', over (core s') → Q tt s') →
  wp (emit stops x) Q s.
Proof.
  intros <- Hb Hq Ho. unfold emit, say. apply wp_bind. unfold wp at 1, get; cbn [fst snd]. apply wp_bind.
  unfold wp at 1, modify; cbn [fst snd].
  destruct (stops _ _); [eapply wp_fail; [by destruct s|done..]|]. apply Hq. by destruct s.
Qed.

(** ** Requests *)
Definition asks (id : QString) (q : Request) (c : Core) : Core :=
  mkCore (c_active c) (c_generation c) (<[id := q]> (c_requests c)) (c_pending c) (c_received c) (c_acked c)
    (c_timers c ++ [Transmit id (c_generation c)]) (S (S (c_nonce c))) (c_clock c) (c_offset c) (c_size c) (c_window c)
    (c_configured c) (c_timeout c) (c_diverged c) (c_ready c) (c_snapshot c)
    (c_manifest c) (c_acknowledged c) (c_out c).
Lemma send_core message k s : active s = true →
  ∃ q, core (send uuid message k s).2 = asks (uuid (nonce s)) q (core s) ∧ callback q = k ∧ deadline q = clock s + 120000.
Proof.
  intros Ha. unfold send, bind, get. cbn [fst snd]. rewrite Ha. cbn [negb createUuid bind get modify ret fst snd].
  unfold createUuid, bind, get, modify, ret. cbn [fst snd].
  set (q := mkRequest _ _ _ _). exists q. split; [|by destruct s]. clearbody q. destruct s. cbn in Ha. subst. reflexivity.
Qed.
Lemma asks_books id q c n : books c → c_nonce c = n → id = uuid n → c_active c = true → deadline q = c_clock c + 120000 →
  books (asks id q c).
Proof.
  intros [H1 H2 H3 H4 H5 H6 H7 H8 H9 H10 H11] Hn -> Ha Hd. split; cbn; try done.
  - intros t [Ht|Ht]%elem_of_app; [by apply H1|]. apply list_elem_of_singleton in Ht as ->. cbn. lia.
  - intros id q' [[<- _]|[_ Hq']]%lookup_insert_Some; [exists n; split; [lia|done]|].
    apply H2 in Hq' as (m & Hm & ->). exists m. split; [lia|done].
  - intros id q' [[<- <-]|[_ Hq']]%lookup_insert_Some; [lia|eauto].
  - by rewrite Ha.
Qed.
Lemma wp_send message k (Q : unit → Session → Prop) s c :
  core s = c → sound c → Inj (=) (=) uuid →
  (c_active c = true → ∀ id q s', c_requests c !! id = None → callback q = k → core s' = asks id q c →
     books (core s') → Q tt s') →
  (c_active c = false → ∀ s', over (core s') → Q tt s') →
  wp (send uuid message k) Q s.
Proof.
  intros <- Hb Hu Hq Ho. unfold wp. destruct (active s) eqn:Ea.
  - destruct (send_core message k s Ea) as (q & Hc & Hk & Hd). revert Hc.
    destruct (send _ _ _ s) as [[] s']. cbn [fst snd]. intros Hc. eapply Hq; [done| |exact Hk|exact Hc|].
    + apply eq_None_not_Some. intros [q' Hq']. apply (bk_ids _ (proj1 Hb)) in Hq' as (n & Hn & Hx%Hu). change (c_nonce (core s)) with (nonce s) in Hn. lia.
    + rewrite Hc. eapply asks_books; [apply Hb|done..].
  - unfold send, bind, get. cbn [fst snd]. rewrite Ea. apply Ho; [done|]. by split.
Qed.
Lemma scheduled_snoc c t l : c_timers c = l ++ [t] →
  scheduled c = omap (λ t, match t with Scheduled r a => if r =? c_generation c then Some a else None | _ => None end) l
    ++ match t with Scheduled r a => if r =? c_generation c then [a] else [] | _ => [] end.
Proof.
  intros Ht. unfold scheduled. rewrite Ht, omap_app. f_equal. cbn. destruct t; try done. by destruct (_ =? _).
Qed.
Lemma scheduled_asks id q c : scheduled (asks id q c) = scheduled c.
Proof. rewrite (scheduled_snoc _ (Transmit id (c_generation c)) (c_timers c)) by done. by rewrite app_nil_r. Qed.
(** A request sent when nothing is awaited is then what is awaited. *)
Lemma wp_ask message k (Q : unit → Session → Prop) s c :
  core s = c → running c → Inj (=) (=) uuid → single k → (k = OnManifest → c_ready c = true) → (∀ s', waiting (core s') → Q tt s') → wp (send uuid message k) Q s.
Proof.
  intros Ec [Hb Hr] Hu Hk Hm HQ. eapply wp_send; [done..| |]; [|intros _ s' Ho; by apply HQ, over_waiting].
  intros Ha id q s' Hid Hq Hc Hb'. apply HQ. split; [done|]. intros _. destruct (Hr Ha) as (Ht & (H1 & H2 & H3 & H4) & H5).
  rewrite Hc. split; [done|]. eapply (Asked _ id q); cbn; try done; [by rewrite H1|by rewrite Hq|by rewrite Hq|by rewrite scheduled_asks].
Qed.
Definition schedules (a : Action) (c : Core) : Core :=
  mkCore (c_active c) (c_generation c) (c_requests c) (c_pending c) (c_received c) (c_acked c)
    (c_timers c ++ [Scheduled (c_generation c) a]) (c_nonce c) (c_clock c) (c_offset c) (c_size c) (c_window c)
    (c_configured c) (c_timeout c) (c_diverged c) (c_ready c) (c_snapshot c)
    (c_manifest c) (c_acknowledged c) (c_out c).
Lemma schedule_core a s : core (schedule a s).2 = schedules a (core s).
Proof. by destruct s. Qed.
Lemma schedules_books a c : books c → books (schedules a c).
Proof.
  intros [H1 H2 H3 H4 H5 H6 H7 H8 H9 H10 H11]. split; cbn; try done.
  intros t [Ht|Ht]%elem_of_app; [by apply H1|]. apply list_elem_of_singleton in Ht as ->. cbn. lia.
Qed.
Lemma scheduled_schedules a c : scheduled (schedules a c) = scheduled c ++ [a].
Proof. rewrite (scheduled_snoc _ (Scheduled (c_generation c) a) (c_timers c)) by done. cbn. by rewrite Z.eqb_refl. Qed.
Lemma wp_schedule a (Q : unit → Session → Prop) s c :
  core s = c → running c → (a = PullChunk ∨ a = PushChunk → c_active c = true → c_offset c ≤ c_size c) →
  (∀ s', waiting (core s') → Q tt s') → wp (schedule a) Q s.
Proof.
  intros <- [[Hb _] Hr] Hk HQ. apply HQ. rewrite schedule_core. split; [by apply schedules_books|]. intros Ha.
  destruct (Hr Ha) as (Ht & (H1 & H2 & H3 & H4) & H5). split; [done|].
  apply (Resting _ a); cbn; try done; [by rewrite scheduled_schedules, H5|]. intros Hx. by apply Hk.
Qed.
End laws.

#[export] Hint Resolve over_running over_waiting : session.
Create HintDb quiet discriminated.
Ltac quietly :=
  repeat lazymatch goal with
  | |- quiet (bind get _) => apply noop_get; intros ?
  | |- quiet (bind _ _) => apply noop_bind; [|intros ?]
  | |- quiet (ret _) => apply noop_ret
  | |- quiet (call _) => apply quiet_call
  | |- quiet (modify _) => apply quiet_modify; by intros []
  | |- quiet (if ?b then _ else _) => destruct b
  | |- quiet (match ?x with _ => _ end) => destruct x
  | |- quiet (let _ := _ in _) => cbv zeta
  | |- quiet _ => solve [auto with quiet]
  end.

Section handlers.
Context {PF : Platform} {R : ReplicaOps} (uuid : nat → QString) (stops : nat → Signal → bool) (T : Z)
  (Ev : Z → jobj → QString → Prop).
Context {uuid_inj : Inj (=) (=) uuid}.
Abbreviation books := (books uuid T Ev).
Abbreviation running := (running uuid T Ev).
Abbreviation sound := (sound uuid T Ev).
Abbreviation waiting := (waiting uuid T Ev).
Abbreviation over := (over uuid T Ev).

Lemma metadataOnly_quiet e : quiet (metadataOnly e).
Proof. unfold metadataOnly. quietly. Qed.
Lemma hasLocalPayload_quiet e : quiet (hasLocalPayload e).
Proof. unfold hasLocalPayload. quietly. Qed.
#[local] Hint Resolve metadataOnly_quiet hasLocalPayload_quiet : quiet.
Lemma priorityOf_quiet e : quiet (priorityOf e).
Proof. unfold priorityOf. quietly. Qed.
#[local] Hint Resolve priorityOf_quiet : quiet.
Lemma prioritiesOf_quiet l m : quiet (prioritiesOf l m).
Proof. revert m. induction l; intros m; cbn [prioritiesOf]; quietly. Qed.
#[local] Hint Resolve prioritiesOf_quiet : quiet.
Lemma orderDownloads_quiet : quiet orderDownloads.
Proof. unfold orderDownloads. quietly. Qed.
Lemma freshOf_quiet l : quiet (freshOf l).
Proof. induction l; cbn [freshOf]; quietly. Qed.
Lemma saveCursors_quiet : quiet saveCursors.
Proof. unfold saveCursors. quietly. Qed.
Lemma clearEntries_quiet : quiet clearEntries.
Proof. unfold clearEntries. quietly. Qed.
Lemma readLocal_quiet e n : quiet (readLocal e n).
Proof. unfold readLocal. quietly. Qed.
Lemma addRequested_quiet l : quiet (addRequested l).
Proof. induction l; cbn [addRequested]; quietly. Qed.
Lemma addIdentities_quiet l : quiet (addIdentities l).
Proof. induction l; cbn [addIdentities]; quietly. Qed.
End handlers.
#[export] Hint Resolve metadataOnly_quiet hasLocalPayload_quiet orderDownloads_quiet freshOf_quiet saveCursors_quiet
  clearEntries_quiet readLocal_quiet addRequested_quiet addIdentities_quiet : quiet.

(** One step of a symbolic run: the hypothesis [core s = c] follows the state. *)
Ltac walk1 :=
  match goal with
  | |- wp (bind get _) _ _ => apply wp_bind, wp_get
  | |- wp (bind _ _) _ _ => apply wp_bind
  | |- wp (ret _) _ _ => apply wp_ret
  | |- wp (fail _) _ _ => eapply wp_fail; [eassumption|eauto with session|intros ? ?]
  | |- wp failStore _ _ => eapply wp_failStore; [eassumption|eauto with session|intros ? ?]
  | |- wp (accepted _) _ _ => eapply wp_accepted; [eassumption|eauto with session|intros ? ? ?|intros ? ?]
  | |- wp (if ?b then _ else _) _ _ => destruct b eqn:?
  | |- wp (match ?x with _ => _ end) _ _ => destruct x eqn:?
  | |- wp (let _ := _ in _) _ _ => cbv zeta
  | |- wp _ _ _ => eapply wp_quiet; [eassumption|solve [quietly]|intros ? ? ?]
  end; cbn [negb].
Ltac walk := repeat walk1.

Section turns.
Context {PF : Platform} {R : ReplicaOps} (uuid : nat → QString) (stops : nat → Signal → bool) (T : Z)
  (Ev : Z → jobj → QString → Prop).
Context {uuid_inj : Inj (=) (=) uuid}.
Abbreviation books := (books uuid T Ev).
Abbreviation running := (running uuid T Ev).
Abbreviation sound := (sound uuid T Ev).
Abbreviation waiting := (waiting uuid T Ev).
Abbreviation over := (over uuid T Ev).

Lemma running_books c : running c → books c.
Proof. by intros [[]]. Qed.
Lemma running_sound c : running c → sound c.
Proof. by intros []. Qed.
Lemma over_sound c : over c → sound c.
Proof. by intros []. Qed.
Hint Resolve running_books running_sound over_sound : session.

(** A handler that starts with nothing awaited and ends with something awaited. *)
Definition hands_over {A} (m : M A) : Prop :=
  ∀ s c, core s = c → running c → wp m (λ _ s', waiting (core s')) s.
Lemma wp_hands {A} (m : M A) (Q : A → Session → Prop) s c :
  core s = c → running c → hands_over m → (∀ a s', waiting (core s') → Q a s') → wp m Q s.
Proof. intros Ec Hr Hm HQ. eapply HQ, Hm; done. Qed.
Ltac hand := eapply wp_hands; [eassumption|eauto with session|eauto with session|intros ? ? ?].
Ltac ask := eapply wp_ask; [eassumption|eauto with session|exact _|done|done|intros ? ?].

Ltac walks := walk; try first [done | by hand | by ask | solve [eauto with session]].
Lemma acknowledgeSnapshot_hands d : hands_over (acknowledgeSnapshot uuid d).
Proof. intros s c Ec Hr. unfold acknowledgeSnapshot. walk1. by ask. Qed.
Lemma page_hands a b : hands_over (page uuid a b).
Proof. intros s c Ec Hr. by ask. Qed.
Lemma journalPage_hands a : hands_over (journalPage uuid a).
Proof. intros s c Ec Hr. unfold journalPage. do 2 walk1. by ask. Qed.
Lemma describe_hands : hands_over (describe uuid).
Proof. intros s c Ec Hr. unfold describe. do 2 walk1. by ask. Qed.
Hint Resolve acknowledgeSnapshot_hands page_hands journalPage_hands describe_hands : session.

Lemma active_core s c : core s = c → active s = c_active c.
Proof. by intros <-. Qed.
Lemma acknowledged_core s c : core s = c → snapshotAcknowledged s = c_acknowledged c.
Proof. by intros <-. Qed.
Lemma inactive_over s c : core s = c → running c → negb (active s) = true → over c.
Proof. intros <- [Hb _] Ha. split; [done|]. by apply negb_true_iff in Ha. Qed.
(** Previews are asked for once in a session. *)
Definition hands_over_last (m : M unit) : Prop :=
  ∀ s c, core s = c → running c → previewsDone s = true → wp m (λ _ s', waiting (core s')) s.
Lemma finishWith_waits m ok e s c :
  core s = c → running c → previewsDone s = true ∨ hands_over_last m →
  wp (finishWith uuid m ok e) (λ _ s', waiting (core s')) s.
Proof.
  intros Ec Hr Hm. unfold finishWith. do 2 walk1.
  { walk1. rewrite Ec. eauto using inactive_over with session. }
  walk1; [hand; done|]. walk1.
  eapply (wp_quiet _ _ _ c); [done|quietly|]. intros published s1 Ec1. walk1; [walk1; eauto with session|].
  walk1. eapply (wp_quiet _ _ _ c); [done|quietly|]. intros _ s2 Ec2. walk1.
  - destruct Hm as [Hd|Hm]; [rewrite Hd, andb_false_r in *; done|]. walk1.
    apply (Hm _ c); [rewrite <- Ec2|done|]; unfold modify, call, bind; cbn [fst snd]; by destruct s2.
  - eapply wp_conclude; [done|eauto with session| | |].
    + rewrite <- (active_core _ _ Ec). by destruct (active s).
    + intros ->. rewrite <- (acknowledged_core _ _ Ec). by destruct (snapshotAcknowledged s).
    + intros s3 Hb3 Ha3 _. split; [done|]. by rewrite Ha3.
Qed.
Lemma previewNextWith_waits m s c :
  core s = c → running c → wp m (λ _ s', waiting (core s')) s → wp (previewNextWith uuid m) (λ _ s', waiting (core s')) s.
Proof. intros Ec Hr Hm. unfold previewNextWith. do 2 walk1; [|done]. do 2 walk1. by ask. Qed.
Lemma finish_hands ok e : hands_over (finish uuid ok e).
Proof.
  intros s c Ec Hr. eapply finishWith_waits; [done..|right]. intros s1 c1 Ec1 Hr1 Hd.
  eapply previewNextWith_waits; [done..|]. eapply finishWith_waits; [done..|by left].
Qed.
Lemma previewNext_hands : hands_over (previewNext uuid).
Proof. intros s c Ec Hr. eapply previewNextWith_waits; [done..|]. by eapply finish_hands. Qed.
Hint Resolve finish_hands previewNext_hands : session.

(** The source's equation: a [finish] inside [previewNext] is the same [finish]. *)
Lemma finishWith_last m m' e s : previewsDone s = true → finishWith uuid m true e s = finishWith uuid m' true e s.
Proof. intros Hd. unfold finishWith, bind, get. cbn [fst snd]. by rewrite Hd, !andb_false_r. Qed.
Lemma finish_unfold ok e s : finish uuid ok e s = finishWith uuid (previewNext uuid) ok e s.
Proof.
  unfold previewNext, finish at 1, finishWith at 1 3. unfold bind, get. cbn [fst snd].
  destruct (negb (active s)); [done|]. destruct (ok && negb _); [done|].
  destruct (negb _); [done|]. destruct (ok && _ && _); [|done]. unfold modify, call. cbn [fst snd].
  unfold previewNextWith, bind, get. cbn [fst snd]. destruct (_ !! _); [done|]. unfold finish. apply finishWith_last.
  by destruct s.
Qed.

(** ** Selecting and uploading *)
Lemma wp_publishMetadata (Q : bool → Session → Prop) s c :
  core s = c → sound c → (∀ s', core s' = c → Q true s') → (∀ s', over (core s') → Q false s') → wp publishMetadata Q s.
Proof. intros Ec Hb Ht Hf. unfold publishMetadata. walk; auto. Qed.
Lemma wp_completeSelected (Q : bool → Session → Prop) s c :
  core s = c → sound c → (∀ s', core s' = c → Q true s') → (∀ s', over (core s') → Q false s') → wp completeSelected Q s.
Proof. intros Ec Hb Ht Hf. unfold completeSelected. walk; auto. Qed.
(** The entry that is transferred, and how far. *)
Definition moved (n z : Z) (c : Core) : Core :=
  mkCore (c_active c) (c_generation c) (c_requests c) (c_pending c) (c_received c) (c_acked c) (c_timers c) (c_nonce c)
    (c_clock c) n z (c_window c) (c_configured c) (c_timeout c) (c_diverged c) (c_ready c) (c_snapshot c)
    (c_manifest c) (c_acknowledged c) (c_out c).
Lemma moved_running n z c : running c → running (moved n z c).
Proof. intros [[[H1 H2 H3 H4 H5 H6 H7 H8 H9 H10 H11] Hn] Hr]. split; [by split|exact Hr]. Qed.
Hint Resolve moved_running : session.
Lemma wp_current e (Q : unit → Session → Prop) s c :
  core s = c → (∀ s', core s' = moved (c_offset c) (jlong e.["size"]) c → Q tt s') →
  wp (modify (λ s, { s with current := e })) Q s.
Proof. intros <- HQ. apply HQ. by destruct s. Qed.
Lemma wp_offset n (Q : unit → Session → Prop) s c :
  core s = c → (∀ s', core s' = moved n (c_size c) c → Q tt s') → wp (modify (λ s, { s with offset := n })) Q s.
Proof. intros <- HQ. apply HQ. by destruct s. Qed.

Lemma pushNext_hands : hands_over (pushNext uuid).
Proof.
  intros s c Ec Hr. unfold pushNext. do 2 walk1.
  { walk1. rewrite Ec. eauto using inactive_over with session. }
  walk1.
  - walk1. eapply wp_current; [done|]. intros s1 Ec1. walks.
  - walks.
Qed.
Hint Resolve pushNext_hands : session.
Lemma readyToPush_hands : hands_over (readyToPush uuid).
Proof. intros s c Ec Hr. unfold readyToPush. do 2 walk1. by hand. Qed.
Lemma wp_beginNewUploads (Q : bool → Session → Prop) s c :
  core s = c → running c → (∀ s', core s' = c → Q false s') → (∀ s', waiting (core s') → Q true s') →
  wp (beginNewUploads uuid) Q s.
Proof.
  intros Ec Hr Hf Ht. unfold beginNewUploads. walk; auto. hand. walk. auto.
Qed.

(** ** The announcement *)
Context (rounds : ∀ after upper r, let page := (changes after upper r).1 in
  toBool page.["ok"] = true → toBool page.["more"] = true →
  0 ≤ after < jlong page.["next"] ∧ jlong page.["next"] ≤ jlong page.["through"]
  ∧ (upper ≠ 0 → jlong page.["through"] = upper)).
Lemma wp_announceRound cursor upper (Q : option (Z * Z * bool) → Session → Prop) s c :
  core s = c → sound c →
  (∀ s' n u more, core s' = c → (more = true → 0 ≤ cursor < n ∧ n ≤ u ∧ (upper ≠ 0 → u = upper)) → Q (Some (n, u, more)) s') →
  (∀ s', over (core s') → Q None s') → wp (announceRound cursor upper) Q s.
Proof.
  intros Ec Hb Hs Hn. unfold announceRound. walk1. unfold wp at 1, call; cbn [fst snd].
  pose proof (rounds cursor upper (store s)) as Hlaw. cbv zeta in Hlaw. set (page := (changes cursor upper (store s)).1) in *.
  set (s1 := { s with store := (changes cursor upper (store s)).2 }).
  assert (Ec1 : core s1 = c) by (rewrite <- Ec; by destruct s). clearbody s1 page.
  walk; auto.
Qed.
Lemma wp_announceRounds fuel cursor upper (Q : option Z → Session → Prop) s c :
  core s = c → sound c → 0 ≤ cursor ≤ upper → upper ≠ 0 → upper - cursor < Z.of_nat fuel →
  (∀ s' u, core s' = c → Q (Some u) s') → (∀ s', over (core s') → Q None s') → wp (announceRounds fuel cursor upper) Q s.
Proof.
  intros Ec Hb Hc Hu Hf Hs Hn. revert cursor s Ec Hc Hf.
  induction fuel as [|fuel IH]; intros cursor s Ec Hc Hf; cbn [announceRounds]; [lia|].
  apply wp_bind. eapply wp_announceRound; [done..| |intros s' Ho; walk; auto].
  intros s' n u more Ec' Hm. destruct more; [|walk; auto]. destruct (Hm eq_refl) as (H1 & H2 & H3).
  rewrite (H3 Hu) in *. apply IH; [done|lia|lia].
Qed.
Lemma wp_announceChanges from (Q : option Z → Session → Prop) s c :
  core s = c → sound c →
  (∀ s' u, core s' = c → Q (Some u) s') → (∀ s', over (core s') → Q None s') → wp (announceChanges from) Q s.
Proof.
  intros Ec Hb Hs Hn. unfold announceChanges. apply wp_bind.
  eapply wp_announceRound; [done..| |intros s' Ho; walk; auto].
  intros s' n u more Ec' Hm. destruct more; [|walk; auto]. destruct (Hm eq_refl) as (H1 & H2 & _).
  eapply wp_announceRounds; try done; lia.
Qed.
(** What is done when the announcement is complete is kept while it goes on. *)
Definition readies (b : bool) (c : Core) : Core :=
  mkCore (c_active c) (c_generation c) (c_requests c) (c_pending c) (c_received c) (c_acked c) (c_timers c) (c_nonce c)
    (c_clock c) (c_offset c) (c_size c) (c_window c) (c_configured c) (c_timeout c) (c_diverged c) b (c_snapshot c)
    (c_manifest c) (c_acknowledged c) (c_out c).
Lemma readies_running b c : running c → running (readies b c).
Proof. intros [[[H1 H2 H3 H4 H5 H6 H7 H8 H9 H10 H11] Hn] Hr]. split; [by split|exact Hr]. Qed.
Hint Resolve readies_running readyToPush_hands : session.
Lemma wp_readies b f (Q : unit → Session → Prop) s c :
  core s = c → core (f s) = readies b (core s) → (∀ s', core s' = readies b c → Q tt s') → wp (modify f) Q s.
Proof. intros <- Hf HQ. by apply HQ. Qed.
Lemma wp_announcePage (Q : unit → Session → Prop) s c :
  core s = c → running c → c_ready c = true → (∀ s', waiting (core s') → Q tt s') → wp (announcePage uuid) Q s.
Proof.
  intros Ec Hr Hc HQ. unfold announcePage. walk. eapply wp_ask; [eassumption|done|exact _|done|done|done].
Qed.
(** A new snapshot and manifest are announced: nothing is acknowledged of them. *)
Definition announces (sn : jobj) (m : QString) (c : Core) : Core :=
  mkCore (c_active c) (c_generation c) (c_requests c) (c_pending c) (c_received c) (c_acked c) (c_timers c) (S (c_nonce c))
    (c_clock c) (c_offset c) (c_size c) (c_window c) (c_configured c) (c_timeout c) (c_diverged c) true sn m false (c_out c).
Lemma announces_running sn m c : running c → running (announces sn m c).
Proof.
  intros [[[H1 H2 H3 H4 H5 H6 H7 H8 H9 H10 H11] Hn] Hr]. split; [|exact Hr]. split; [|exact Hn]. split; try done.
  intros id q Hq. destruct (H2 id q Hq) as (n & Hlt & ->). exists n. split; [|done]. cbn. lia.
Qed.
Lemma announceLocal_hands ready done_ : hands_over done_ → hands_over (announceLocal uuid ready done_).
Proof.
  intros Hd s c Ec Hr. unfold announceLocal. do 5 walk1. apply wp_bind.
  set (rest := λ upper : option Z, _).
  assert (Hrest : ∀ s' u, core s' = c → rest (Some u) s').
  { intros sr u Er. unfold rest. walk; [by hand|].
    unfold wp, bind, call, createUuid, modify, get, ret. cbn [fst snd].
    match goal with |- context [announcePage uuid ?s2] => set (s3 := s2) end.
    assert (core s3 = announces (snapshot s3) (manifestId s3) c) as Ec2
      by (rewrite <- H1; unfold s3, bind; by destruct s'1).
    change (wp (announcePage uuid) (λ _ s', waiting (core s')) s3).
    eapply wp_announcePage; [exact Ec2|by apply announces_running|done|done]. }
  assert (Hnone : ∀ s', over (core s') → rest None s') by (intros; unfold rest; walks).
  clearbody rest. walk1; [walk; by apply Hrest|]. eapply wp_announceChanges; [done|eauto with session|auto..].
Qed.
End turns.

#[export] Hint Resolve running_books running_sound over_sound acknowledgeSnapshot_hands page_hands journalPage_hands describe_hands finish_hands
  previewNext_hands moved_running pushNext_hands readies_running readyToPush_hands : session.
Ltac hand := eapply wp_hands; [eassumption|eauto with session|eauto with session|intros ? ? ?].
Ltac ask := eapply wp_ask; [eassumption|eauto with session|exact _|done|done|intros ? ?].
Ltac walks := walk; try first [done | by hand | by ask | solve [eauto with session]].
End SynchronizerLaws.
