(* ===== verification/SynchronizerTurns.v ===== *)
(** Downloads and uploads chunk by chunk, and every event: each leaves a session that
    waits for something, or none. *)
From S2P Require Import Prelude Qt Records Requests Synchronizer SynchronizerLaws.
From coqutil Require Import Datatypes.RecordSetters.
Import OCamlLikeNotations.
Open Scope Z_scope.

Module SynchronizerTurns.
Import Records Synchronizer SynchronizerLaws.

(** ** Chunks in flight *)
Lemma ahead_bytes c p : c_offset c ≤ c_size c → ahead c p → p ≠ c_offset c →
  bytesLeft (c_size c) (c_offset c) = ChunkBytes ∧ c_offset c + ChunkBytes ≤ p.
Proof.
  intros Ho (Hp & i & ->) Hne. destruct i as [|i]; [lia|]. unfold bytesLeft. change Requests.ChunkBytes with ChunkBytes.
  assert (0 < ChunkBytes) by done. split; nia.
Qed.

(** A chunk arrives: it is no longer asked for. *)
Definition arrives (id : QString) (rcv : gmap Z jobj) (ack : gmap Z Z) (c : Core) : Core :=
  mkCore (c_active c) (c_generation c) (delete id (c_requests c)) (c_pending c - 1) rcv ack (c_timers c) (c_nonce c)
    (c_clock c) (c_offset c) (c_size c) (c_window c) (c_configured c) (c_timeout c) (c_diverged c) (c_ready c) (c_snapshot c)
    (c_manifest c) (c_acknowledged c) (c_out c).
Lemma flight_arrives mk got c id q p rcv ack :
  Inj (=) (=) mk → flight mk got c → c_requests c !! id = Some q → callback q = mk p →
  flight mk ({[ p ]} ∪ got) (arrives id rcv ack c).
Proof.
  intros Hinj [H1 H2 H3 H4 H5 H6 H7] Hid Hq.
  assert (Hp : ahead c p ∧ p ∉ got).
  { destruct (H3 id q Hid) as (p' & Hp' & Ha & Hn). rewrite Hq in Hp'. by apply Hinj in Hp' as ->. }
  destruct Hp as [Hp Hn].
  assert (Hknown : ∀ x, known mk ({[ p ]} ∪ got) (arrives id rcv ack c) x ↔ known mk got c x).
  { intros x. unfold known. cbn. rewrite elem_of_union, elem_of_singleton. split.
    - intros [[->|Hx]|(id' & q' & [_ Hq']%lookup_delete_Some & Hc)]; [right|by left|right]; eauto.
    - intros [Hx|(id' & q' & Hq' & Hc)]; [by auto|]. destruct (decide (id' = id)) as [->|Hne].
      + left. left. apply Hinj. congruence.
      + right. exists id', q'. split; [by apply lookup_delete_Some|done]. }
  split; cbn; try done.
  - intros x Hx. apply elem_of_union in Hx as [Hx|Hx]; [|by apply H2]. apply elem_of_singleton in Hx as ->. exact Hp.
  - intros id' q' [Hne Hq']%lookup_delete_Some. destruct (H3 _ _ Hq') as (x & Hx & Ha & Hg). exists x.
    split_and!; [done|exact Ha|]. rewrite elem_of_union, elem_of_singleton. intros [->|Hin]; [|done].
    apply Hne. eapply H4; [done..|congruence].
  - intros a b qa qb [_ Ha]%lookup_delete_Some [_ Hb]%lookup_delete_Some. eauto.
  - intros x i Hx Hlt. apply Hknown, (H5 x); [|done]. by apply Hknown.
  - assert (is_Some (c_requests c !! id)) as His by eauto. rewrite H6.
    pose proof (map_size_delete_Some _ _ His). pose proof (map_size_ne_0_lookup_2 _ _ His). lia.
  - lia.
Qed.

(** The chunk at the offset is consumed. *)
Definition consumes (rcv : gmap Z jobj) (ack : gmap Z Z) (c : Core) : Core :=
  mkCore (c_active c) (c_generation c) (c_requests c) (c_pending c) rcv ack (c_timers c) (c_nonce c) (c_clock c)
    (c_offset c + bytesLeft (c_size c) (c_offset c)) (c_size c) (c_window c) (c_configured c) (c_timeout c)
    (c_diverged c) (c_ready c) (c_snapshot c)
    (c_manifest c) (c_acknowledged c) (c_out c).
Lemma flight_known mk got c p : Inj (=) (=) mk → flight mk got c → known mk got c p → ahead c p.
Proof.
  intros Hinj [H1 H2 H3 H4 H5 H6 H7] [Hp|(id & q & Hq & Hc)]; [by apply H2|].
  destruct (H3 id q Hq) as (p' & Hc' & Ha & Hn). rewrite Hc in Hc'. by apply Hinj in Hc' as ->.
Qed.
Lemma flight_consumes mk got c rcv ack :
  Inj (=) (=) mk → flight mk got c → c_offset c ∈ got →
  flight mk (got ∖ {[ c_offset c ]}) (consumes rcv ack c).
Proof.
  intros Hinj Hf Hg. pose proof (flight_known mk got c) as Hka. pose proof Hf as [H1 H2 H3 H4 H5 H6 H7].
  assert (Hstep : ∀ p, ahead c p → p ≠ (c_offset c) → bytesLeft (c_size c) (c_offset c) = ChunkBytes ∧ ahead (consumes rcv ack c) p).
  { intros p Ha Hne. destruct (ahead_bytes c p H1 Ha Hne) as [Hb Hle]. split; [done|].
    destruct Ha as (Hp & i & ->). split; [done|]. cbn.
    rewrite Hb. destruct i as [|i]; [lia|]. exists i. lia. }
  assert (Hreq : ∀ id q p, c_requests c !! id = Some q → callback q = mk p → p ∉ got ∧ p ≠ (c_offset c)).
  { intros id q p Hq Hc. destruct (H3 id q Hq) as (p' & Hc' & ? & ?). rewrite Hc in Hc'. apply Hinj in Hc' as <-.
    split; [done|]. by intros ->. }
  split; cbn; try done.
  - unfold bytesLeft. change Requests.ChunkBytes with ChunkBytes. lia.
  - intros p Hp. apply Hstep; [apply H2|]; set_solver.
  - intros id q Hq. destruct (H3 id q Hq) as (p & Hc & Ha & Hn). exists p.
    split_and!; [done| |set_solver]. apply Hstep; [done|]. by eapply Hreq.
  - intros p i Hp Hlt.
    assert (known mk got c p ∧ p ≠ (c_offset c)) as [Hk Hne].
    { destruct Hp as [Hp|(id & q & Hq & Hc)]; [split; [left|]; set_solver|].
      split; [right; eauto|]. by destruct (Hreq id q p Hq Hc). }
    destruct (Hstep p (Hka p Hinj Hf Hk) Hne) as [Hb _]. rewrite Hb in *.
    replace ((c_offset c) + ChunkBytes + Z.of_nat i * ChunkBytes) with ((c_offset c) + Z.of_nat (S i) * ChunkBytes) in * by lia.
    destruct (H5 p (S i) Hk) as [Hy|Hy]; [lia| |by right]. left. apply elem_of_difference. split; [done|].
    rewrite elem_of_singleton. assert (0 < ChunkBytes) by done. lia.
Qed.
(** Every chunk of the window has arrived and been consumed. *)
Lemma flight_done mk got c :
  flight mk got c → c_offset c ∉ got → c_pending c = 0 → c_requests c = ∅ ∧ got = ∅.
Proof.
  intros [H1 H2 H3 H4 H5 H6 H7] Hn Hp. assert (c_requests c = ∅) as He by (apply map_size_empty_inv; lia).
  split; [done|]. apply set_eq. intros p. split; [|by intros ?%elem_of_empty]. intros Hg.
  destruct (H2 p Hg) as (Hlt & i & Ei). destruct i as [|i].
  - destruct Hn. replace (c_offset c) with p by lia. done.
  - assert (0 < ChunkBytes) by done. destruct (H5 p 0%nat) as [Hy|(id & q & Hq & _)]; [by left|lia| |].
    + destruct Hn. by replace (c_offset c + Z.of_nat 0 * ChunkBytes) with (c_offset c) in Hy by lia.
    + by rewrite He in Hq.
Qed.

(** The first [k] of [n] chunks are asked for. *)
Record launched (mk : Z → Callback) (n k : nat) (c : Core) : Prop := {
  la_requests id q : c_requests c !! id = Some q → ∃ i : nat, (i < k)%nat ∧ callback q = mk (c_offset c + Z.of_nat i * ChunkBytes);
  la_all (i : nat) : (i < k)%nat → ∃ id q, c_requests c !! id = Some q ∧ callback q = mk (c_offset c + Z.of_nat i * ChunkBytes);
  la_once id id' q q' : c_requests c !! id = Some q → c_requests c !! id' = Some q' → callback q = callback q' → id = id';
  la_size : base.size (c_requests c) = k;
  la_pending : c_pending c = Z.of_nat n;
  la_active : c_active c = true;
  la_timeout : c_timeout c = true;
  la_scheduled : scheduled c = [];
  la_received : c_received c = ∅;
  la_acked : c_acked c = ∅
}.
Lemma launched_asks mk n k c id q :
  Inj (=) (=) mk → launched mk n k c → c_requests c !! id = None → callback q = mk (c_offset c + Z.of_nat k * ChunkBytes) →
  launched mk n (S k) (asks id q c).
Proof.
  intros Hinj [H1 H2 H3 H4 H5 H6 H7 H8 H9 H10] Hid Hq.
  assert (Hfresh : ∀ id' q', c_requests c !! id' = Some q' → callback q' ≠ callback q).
  { intros id' q' Hq'. destruct (H1 id' q' Hq') as (i & Hi & ->). rewrite Hq. intros Eq%Hinj.
    assert (0 < ChunkBytes) by done. nia. }
  split; cbn; try done.
  - intros id' q' [[<- <-]|[_ Hq']]%lookup_insert_Some; [exists k; split; [lia|done]|].
    destruct (H1 id' q' Hq') as (i & ? & ?). exists i. split; [lia|done].
  - intros i Hi. destruct (decide (i = k)) as [->|]; [exists id, q; by rewrite lookup_insert_eq|].
    destruct (H2 i ltac:(lia)) as (id' & q' & Hq' & Hc). exists id', q'. split; [|done].
    rewrite lookup_insert_ne; [done|]. intros <-. congruence.
  - intros a b qa qb [[<- <-]|[Ha Hqa]]%lookup_insert_Some [[<- <-]|[Hb Hqb]]%lookup_insert_Some Eq; [done| | |by eapply H3].
    + by destruct (Hfresh b qb Hqb).
    + by destruct (Hfresh a qa Hqa).
  - rewrite map_size_insert_None by done. lia.
  - by rewrite scheduled_asks.
Qed.
Lemma launched_flight mk n c :
  Inj (=) (=) mk → launched mk n n c → c_offset c ≤ c_size c → (n ≤ 4)%nat →
  (∀ i : nat, (i < n)%nat → c_offset c + Z.of_nat i * ChunkBytes < c_size c) → flight mk ∅ c.
Proof.
  intros Hinj [H1 H2 H3 H4 H5 H6 H7 H8 H9 H10] Ho Hn Hw. split; try done.
  - intros id q Hq. destruct (H1 id q Hq) as (i & Hi & Hc). eexists. split; [done|].
    split; [|apply not_elem_of_empty]. split; [by apply Hw|by exists i].
  - intros p i [Hp|(id & q & Hq & Hc)] Hlt; [by apply elem_of_empty in Hp|]. right.
    destruct (H1 id q Hq) as (j & Hj & Hc'). rewrite Hc in Hc'. apply Hinj in Hc' as ->.
    apply H2. assert (0 < ChunkBytes) by done. nia.
  - lia.
  - lia.
Qed.

(** The steps of [walk], and those with an outcome to distinguish. *)
Ltac stride1 :=
  first
    [ walk1
    | eapply wp_completeSelected; [eassumption|eauto with session|intros ? ?|intros ? ?]
    | eapply wp_publishMetadata; [eassumption|eauto with session|intros ? ?|intros ? ?]
    | eapply wp_beginNewUploads; [exact _|eassumption|eauto with session|intros ? ?|intros ? ?] ]; cbn [negb].
Ltac stride := repeat stride1.
Ltac strides := stride; try first [done | by hand | by ask | solve [eauto with session]].

Section turns.
Context {PF : Platform} {R : ReplicaOps} (uuid : nat → QString) (stops : nat → Signal → bool) (T : Z)
  (Ev : Z → jobj → QString → Prop).
Context {uuid_inj : Inj (=) (=) uuid}.
Abbreviation books := (books uuid T Ev).
Abbreviation running := (running uuid T Ev).
Abbreviation sound := (sound uuid T Ev).
Abbreviation waiting := (waiting uuid T Ev).
Abbreviation over := (over uuid T Ev).
Abbreviation hands_over := (hands_over uuid T Ev).

Lemma wp_refresh (Q : bool → Session → Prop) s c :
  core s = c → running c → (∀ s', core s' = c → Q false s') → (∀ s', waiting (core s') → Q true s') →
  wp (refreshBetweenChunks uuid) Q s.
Proof. intros Ec Hr Hf Ht. unfold refreshBetweenChunks. walk; auto with session; try (hand; walk; auto with session). Qed.
Lemma nextEntry_hands : hands_over (nextEntry PullNext).
Proof. intros s c Ec Hr. unfold nextEntry. walk. eapply wp_schedule; [done|done|by intros []|done]. Qed.
Hint Resolve nextEntry_hands : session.

(** ** Asking for a window of chunks *)
Definition windowed (mk : Z → Callback) (n : nat) (o z : Z) (c : Core) : Prop :=
  books c ∧ launched mk n n c ∧ c_offset c = o ∧ c_size c = z.
Lemma wp_launch mk n k message (Q : unit → Session → Prop) s c :
  Inj (=) (=) mk → core s = c → books c → launched mk n k c →
  (∀ s' c', core s' = c' → books c' → launched mk n (S k) c' → c_offset c' = c_offset c → c_size c' = c_size c → Q tt s') →
  wp (send uuid message (mk (c_offset c + Z.of_nat k * ChunkBytes))) Q s.
Proof.
  intros Hinj Ec Hb Hl HQ. eapply wp_send; [done|apply active_sound; [done|apply Hl]|exact _| |].
  - intros _ id q s' Hid Hq Ec' Hb'. rewrite Ec' in Hb'. apply (HQ s' _ Ec' Hb'); [|done..]. by apply launched_asks.
  - rewrite (la_active _ _ _ _ Hl). done.
Qed.
Lemma sendReads_launches n k e z position s c :
  core s = c → books c → launched (OnRead z) (k + n) k c → position = c_offset c + Z.of_nat k * ChunkBytes →
  wp (sendReads uuid n e z position) (λ _ s', windowed (OnRead z) (k + n) (c_offset c) (c_size c) (core s')) s.
Proof.
  revert k position s c. induction n as [|n IH]; intros k position s c Ec Hb Hl ->; cbn [sendReads].
  { walk. rewrite Ec. rewrite Nat.add_0_r in *. by split_and!. }
  walk1. eapply (wp_launch (OnRead z)); [by intros ? ? [= ?]|done..|]. intros s' c' Ec' Hb' Hl' Ho Hz.
  rewrite Nat.add_succ_r, <- Nat.add_succ_l in *. rewrite <- Ho, <- Hz. apply IH; [done..|]. rewrite Ho.
  change Requests.ChunkBytes with ChunkBytes. lia.
Qed.
Definition writes (z p : Z) : Callback := OnChunk p (p + bytesLeft z p) z.
Lemma sendChunks_launches n k e z position s c :
  core s = c → books c → launched (writes z) (k + n) k c → position = c_offset c + Z.of_nat k * ChunkBytes →
  wp (sendChunks uuid n e z position)
    (λ _ s', over (core s') ∨ windowed (writes z) (k + n) (c_offset c) (c_size c) (core s')) s.
Proof.
  revert k position s c. induction n as [|n IH]; intros k position s c Ec Hb Hl ->; cbn [sendChunks].
  { walk. right. rewrite Ec. rewrite Nat.add_0_r in *. by split_and!. }
  assert (sound c) by (apply active_sound; [done|apply Hl]). walk; auto. match goal with H : negb (_ =? _) = false |- _ => apply negb_false_iff, Z.eqb_eq in H; rewrite H end.
  eapply (wp_launch (writes z)); [by intros ? ? [= ?]|done..|]. intros s2 c2 Ec2 Hb2 Hl2 Ho Hz.
  rewrite Nat.add_succ_r, <- Nat.add_succ_l in *. rewrite <- Ho, <- Hz. apply IH; [done..|]. rewrite Ho.
  change Requests.ChunkBytes with ChunkBytes. lia.
Qed.
Lemma window_fits s c : core s = c → books c → c_offset c < c_size c →
  1 ≤ windowOf s (c_size c) ≤ 4
  ∧ ∀ i : nat, (i < Z.to_nat (windowOf s (c_size c)))%nat → c_offset c + Z.of_nat i * ChunkBytes < c_size c.
Proof.
  intros <- Hb Hlt. pose proof (bk_window _ _ _ _ Hb) as Hw. change (c_window (core s)) with (window s) in Hw.
  change (c_offset (core s)) with (offset s) in *. set (z := c_size (core s)) in *.
  unfold windowOf. change Requests.ChunkBytes with ChunkBytes. assert (ChunkBytes = 262144) as Hc by done.
  set (k := (z - offset s + ChunkBytes - 1) `div` ChunkBytes).
  assert (1 ≤ k ∧ k * ChunkBytes ≤ z - offset s + ChunkBytes - 1) as [H1 H2].
  { unfold k. split; [apply Z.div_le_lower_bound; lia|]. rewrite Z.mul_comm. apply Z.mul_div_le. lia. }
  split; [lia|]. intros i Hi. nia.
Qed.
Definition pends (n : Z) (c : Core) : Core :=
  mkCore (c_active c) (c_generation c) (c_requests c) n (c_received c) (c_acked c) (c_timers c) (c_nonce c)
    (c_clock c) (c_offset c) (c_size c) (c_window c) (c_configured c) (c_timeout c) (c_diverged c) (c_ready c) (c_snapshot c)
    (c_manifest c) (c_acknowledged c) (c_out c).
Lemma pends_launched mk n c : running c → c_active c = true → books (pends (Z.of_nat n) c) ∧ launched mk n 0 (pends (Z.of_nat n) c).
Proof.
  intros [[[H1 H2 H3 H4 H5 H6 H7 H8 H9 H10 H11] Hn] Hr] Ha. destruct (Hr Ha) as (Ht & (E1 & E2 & E3 & E4) & Es). split.
  - split; try done. intros Hf. cbn in Hf. congruence.
  - split; cbn; try done; rewrite ?E1; try done; [by intros id q Hq..|intros i Hi; lia].
Qed.
Lemma wp_pending n (Q : unit → Session → Prop) s c :
  core s = c → (∀ s', core s' = pends n c → Q tt s') → wp (modify (λ s, { s with pendingChunks := n })) Q s.
Proof. intros <- HQ. apply HQ. by destruct s. Qed.

(** A session that waits for the chunks of a window. *)
Lemma windowed_reading n c : (1 ≤ n ≤ 4)%nat → windowed (chunkRead c) n (c_offset c) (c_size c) c →
  c_offset c ≤ c_size c → (∀ i : nat, (i < n)%nat → c_offset c + Z.of_nat i * ChunkBytes < c_size c) → waiting c.
Proof.
  intros Hn (Hb & Hl & _ & _) Ho Hw. split; [done|]. intros _. split; [apply Hl|].
  apply Reading; [apply Hl| | | |apply Hl].
  - rewrite (la_received _ _ _ _ Hl), dom_empty_L. eapply launched_flight; try done; [by intros ? ? [= ?]|lia].
  - rewrite (la_received _ _ _ _ Hl), dom_empty_L. apply not_elem_of_empty.
  - rewrite (la_pending _ _ _ _ Hl). lia.
Qed.
Lemma windowed_writing n c : (1 ≤ n ≤ 4)%nat → windowed (chunkWritten c) n (c_offset c) (c_size c) c →
  c_offset c ≤ c_size c → (∀ i : nat, (i < n)%nat → c_offset c + Z.of_nat i * ChunkBytes < c_size c) → waiting c.
Proof.
  intros Hn (Hb & Hl & _ & _) Ho Hw. split; [done|]. intros _. split; [apply Hl|].
  apply Writing; [apply Hl| | | |apply Hl|].
  - rewrite (la_acked _ _ _ _ Hl), dom_empty_L. eapply launched_flight; try done; [by intros ? ? [= ?]|lia].
  - rewrite (la_acked _ _ _ _ Hl), dom_empty_L. apply not_elem_of_empty.
  - rewrite (la_pending _ _ _ _ Hl). lia.
  - intros p m. by rewrite (la_acked _ _ _ _ Hl).
Qed.

(** [pullChunk] and [pushChunk] are called where the offset is in the file. *)
Definition chunk_hands (m : M unit) : Prop :=
  ∀ s c, core s = c → running c → c_active c = true → c_offset c ≤ c_size c → wp m (λ _ s', waiting (core s')) s.
Lemma pullChunk_hands : chunk_hands (pullChunk uuid).
Proof.
  intros s c Ec Hr Ha Ho. unfold pullChunk. walk1. apply wp_bind. eapply wp_quiet; [done|quietly|]. intros w s1 Ec1.
  walk1; [by hand|]. cbv zeta. replace (jlong (current s).["size"]) with (c_size c) by by rewrite <- Ec.
  replace (offset s) with (c_offset c) by by rewrite <- Ec.
  destruct (Z.eqb_spec (c_offset c) (c_size c)) as [_|Hne].
  - strides.
  - apply wp_bind. eapply wp_refresh; [done..| |intros; walk; done]. intros s2 Ec2. walk1.
    destruct (window_fits s c Ec) as [Hw Hi]; [eauto with session|lia|].
    set (n := Z.to_nat (windowOf s (c_size c))) in *.
    replace (windowOf s (c_size c)) with (Z.of_nat n) by lia. eapply wp_pending; [done|]. intros s3 Ec3.
    destruct (pends_launched (OnRead (c_size c)) n c Hr Ha) as [Hb3 Hl3].
    eapply wp_mono; [eapply (sendReads_launches n 0 _ _ _ _ _ Ec3 Hb3 Hl3); cbn; lia|]. cbn. intros _ s4 (Hb4 & Hl4 & Ho4 & Hz4).
    apply (windowed_reading n); rewrite ?Hz4, ?Ho4; [lia| |done..]. unfold windowed, chunkRead. rewrite Hz4. by split_and!.
Qed.
Lemma pushChunk_hands : chunk_hands (pushChunk uuid).
Proof.
  intros s c Ec Hr Ha Ho. unfold pushChunk. walk1. cbv zeta.
  replace (jlong (current s).["size"]) with (c_size c) by by rewrite <- Ec.
  replace (offset s) with (c_offset c) by by rewrite <- Ec.
  destruct (Z.eqb_spec (c_offset c) (c_size c)) as [_|Hne]; [by ask|].
  apply wp_bind. eapply wp_refresh; [done..| |intros; walk; done]. intros s2 Ec2. walk1.
  destruct (window_fits s c Ec) as [Hw Hi]; [eauto with session|lia|].
  set (n := Z.to_nat (windowOf s (c_size c))) in *.
  replace (windowOf s (c_size c)) with (Z.of_nat n) by lia. eapply wp_pending; [done|]. intros s3 Ec3.
  destruct (pends_launched (writes (c_size c)) n c Hr Ha) as [Hb3 Hl3].
  eapply wp_mono; [eapply (sendChunks_launches n 0 _ _ _ _ _ Ec3 Hb3 Hl3); cbn; lia|].
  cbn. intros _ s4 [Ho4|(Hb4 & Hl4 & Ho4 & Hz4)]; [eauto with session|].
  apply (windowed_writing n); rewrite ?Hz4, ?Ho4; [lia| |done..]. unfold windowed, chunkWritten. rewrite Hz4. by split_and!.
Qed.

(** ** The loop of downloads *)
Context (rounds : ∀ after upper r, let page := (changes after upper r).1 in
  toBool page.["ok"] = true → toBool page.["more"] = true →
  0 ≤ after < jlong page.["next"] ∧ jlong page.["next"] ≤ jlong page.["through"]
  ∧ (upper ≠ 0 → jlong page.["through"] = upper)).
Hint Resolve announceLocal_hands : session.
(** News that may be told at any time. *)
Definition news (x : Signal) : Prop := match x with MirrorChanged _ | HostValidated _ => True | _ => False end.
Lemma wp_news x (Q : unit → Session → Prop) s c :
  core s = c → running c → news x → (∀ s' c', core s' = c' → running c' → Q tt s') → wp (emit stops x) Q s.
Proof.
  intros Ec [[Hb _] Hr] Hx HQ. assert (sound (hears x c)) as Hh by (apply hears_sound; [done|]; by destruct x, (c_active c)).
  eapply wp_emit; [done|done| |].
  - intros s' Ec'. by apply (HQ s' _ Ec').
  - intros s' Ho. eapply HQ; [done|]. by apply over_running.
Qed.
Ltac tell := eapply wp_news; [eassumption|eauto with session|exact I|intros ? ? ? ?].
Lemma wp_modify f c (Q : unit → Session → Prop) s :
  core (f s) = c → (∀ s', core s' = c → Q tt s') → wp (modify f) Q s.
Proof. intros Hf HQ. by apply HQ. Qed.
Lemma pullNext_hands : hands_over (pullNext uuid stops).
Proof.
  intros s c Ec Hr. unfold pullNext. do 2 walk1.
  { walk1. rewrite Ec. eauto using inactive_over with session. }
  walk1.
  - walk1. eapply wp_current; [done|]. intros s1 Ec1. strides.
    all: eapply wp_offset; [eassumption|]; intros s2 Ec2; eapply pullChunk_hands; [exact Ec2|eauto with session| |].
    all: cbn; first [rewrite <- (active_core _ _ Ec); by destruct (active s)|by apply Z.ltb_ge].
  - strides. tell. stride. tell. strides.
Qed.
Hint Resolve pullNext_hands : session.
Lemma readyToPull_hands : hands_over (readyToPull uuid stops).
Proof. intros s c Ec Hr. unfold readyToPull. strides. Qed.
Lemma runReady_hands r : hands_over (runReady uuid stops r).
Proof. destruct r; [apply readyToPull_hands|by apply readyToPush_hands]. Qed.
Hint Resolve readyToPull_hands runReady_hands : session.

(** ** Replies *)
(** A reply that acknowledges the announcement [m] of the snapshot [sn]. *)
Definition receiptFor (r sn : jobj) (m : QString) : Prop :=
  toBool r.["ok"] = true ∧ (toObj r.["receipt"]).["snapshot"] = JObj sn ∧ (toObj r.["receipt"]).["manifest"] = JStr m.
Definition acknowledges (c : Core) : Core :=
  mkCore (c_active c) (c_generation c) (c_requests c) (c_pending c) (c_received c) (c_acked c) (c_timers c) (c_nonce c)
    (c_clock c) (c_offset c) (c_size c) (c_window c) (c_configured c) (c_timeout c) (c_diverged c) (c_ready c) (c_snapshot c)
    (c_manifest c) true (c_out c).
Lemma acknowledges_running c : running c → Ev (session c) (c_snapshot c) (c_manifest c) → running (acknowledges c).
Proof. intros [[[H1 H2 H3 H4 H5 H6 H7 H8 H9 H10 H11] Hn] Hr] He. split; [|exact Hr]. split; [by split|exact Hn]. Qed.
Lemma onSnapshot_waits d r s c :
  core s = c → running c → c_active c = true → (∀ sn m, receiptFor r sn m → Ev (c_generation c) sn m) →
  wp (onSnapshot uuid d r) (λ _ s', waiting (core s')) s.
Proof.
  intros Ec Hr Ha He. unfold onSnapshot. walk1.
  eapply wp_accepted; [done|eauto with session| |intros ? ?; cbn [negb]; walk1; eauto with session]. intros s1 Ec1 Hok.
  cbn [negb]. do 2 walk1; [walk1; eauto with session|]. bool_hyps. walk1.
  eapply (wp_modify _ (acknowledges c)); [rewrite <- Ec1; by destruct s1|]. intros s2 Ec2.
  assert (running (acknowledges c)).
  { apply acknowledges_running; [done|]. unfold session. rewrite Ha. apply He. rewrite <- Ec1. split_and!; [done|by apply dec_stable..]. }
  destruct d; hand; done.
Qed.
Lemma onPreview_hands e r : hands_over (onPreview e r).
Proof. intros s c Ec Hr. unfold onPreview. strides. all: eapply wp_schedule; [done|done|by intros []|done]. Qed.
Lemma onPage_hands a b r : hands_over (onPage uuid a b r).
Proof. intros s c Ec Hr. unfold onPage. strides. Qed.
Lemma onJournal_hands a r : hands_over (onJournal uuid stops a r).
Proof. intros s c Ec Hr. unfold onJournal. strides. Qed.
Lemma onManifest_waits r s c :
  core s = c → running c → c_ready c = true → wp (onManifest uuid stops r) (λ _ s', waiting (core s')) s.
Proof.
  intros Ec Hr Hc. unfold onManifest. walk1.
  eapply wp_accepted; [done|eauto with session| |intros ? ?; cbn [negb]; walk1; eauto with session]. intros s1 Ec1 _. cbn [negb]. walk1.
  walk1; [stride; eauto with session|]. walk1; [by eapply wp_announcePage|]. walk1; [stride; eauto with session|].
  apply wp_bind. eapply (wp_readies false); [done|by destruct s1|]. intros s2 Ec2.
  assert (is_Some (manifestReady s1)) as [ready Hready].
  { apply (bool_decide_eq_true _). rewrite <- Hc, <- Ec1. done. }
  rewrite Hready. hand. done.
Qed.

(** ** Windows of chunks *)
Definition holds (rcv : gmap Z jobj) (ack : gmap Z Z) (c : Core) : Core :=
  mkCore (c_active c) (c_generation c) (c_requests c) (c_pending c) rcv ack (c_timers c) (c_nonce c) (c_clock c)
    (c_offset c) (c_size c) (c_window c) (c_configured c) (c_timeout c) (c_diverged c) (c_ready c) (c_snapshot c)
    (c_manifest c) (c_acknowledged c) (c_out c).
Lemma holds_books rcv ack c : c_active c = true → books c → books (holds rcv ack c).
Proof. intros Ha [H1 H2 H3 H4 H5 H6 H7 H8 H9 H10 H11]. split; try done. cbn. congruence. Qed.
Lemma consumes_books rcv ack c : c_active c = true → books c → books (consumes rcv ack c).
Proof. intros Ha [H1 H2 H3 H4 H5 H6 H7 H8 H9 H10 H11]. split; try done. cbn. congruence. Qed.
Lemma whenDrained_over a s : over (core s) → wp (whenDrained a) (λ _ s', waiting (core s')) s.
Proof.
  intros Ho. unfold whenDrained. walk1. replace (active s) with false by by destruct Ho. cbn [andb]. walk1. by apply over_waiting.
Qed.
Lemma drainReads_over fuel z s : over (core s) → wp (drainReads stops fuel z) (λ _ s', over (core s')) s.
Proof.
  intros Ho. destruct fuel; [done|]. cbn [drainReads]. walk1. destruct (bk_idle _ _ _ _ (proj1 (proj1 Ho)) (proj2 Ho)) as (_ & _ & E & _).
  change (receivedChunks s = ∅) in E. rewrite E, lookup_empty. by walk1.
Qed.
Lemma drainChunks_over fuel z s : over (core s) → wp (drainChunks stops fuel z) (λ _ s', over (core s')) s.
Proof.
  intros Ho. destruct fuel; [done|]. cbn [drainChunks]. walk1. destruct (bk_idle _ _ _ _ (proj1 (proj1 Ho)) (proj2 Ho)) as (_ & _ & _ & E).
  change (acknowledgedChunks s = ∅) in E. rewrite E, lookup_empty. by walk1.
Qed.
(** A window in which everything that could be consumed was. *)
Record drained (c : Core) : Prop := {
  dr_books : books c;
  dr_active : c_active c = true;
  dr_timeout : c_timeout c = true;
  dr_scheduled : scheduled c = []
}.
Lemma whenDrained_reading s c :
  core s = c → drained c → c_acked c = ∅ → flight (chunkRead c) (dom (c_received c)) c → c_offset c ∉ dom (c_received c) →
  wp (whenDrained PullChunk) (λ _ s', waiting (core s')) s.
Proof.
  intros Ec [Hb Ha Ht Hs] Hk Hf Hn. unfold whenDrained. walk1. rewrite (active_core _ _ Ec), Ha. cbn [andb].
  replace (pendingChunks s) with (c_pending c) by by rewrite <- Ec.
  destruct (Z.eqb_spec (c_pending c) 0) as [E|E].
  - destruct (flight_done _ _ _ Hf Hn E) as [E1 E2%dom_empty_inv_L]. eapply wp_schedule; [done| |intros; apply Hf|done].
    split; [by apply active_sound|]. intros _. split_and!; done.
  - walk1. rewrite Ec. split; [done|]. intros _. split; [done|]. by apply Reading.
Qed.
Lemma whenDrained_writing s c :
  core s = c → drained c → c_received c = ∅ → exactAcks c → flight (chunkWritten c) (dom (c_acked c)) c →
  c_offset c ∉ dom (c_acked c) → wp (whenDrained PushChunk) (λ _ s', waiting (core s')) s.
Proof.
  intros Ec [Hb Ha Ht Hs] Hk He Hf Hn. unfold whenDrained. walk1. rewrite (active_core _ _ Ec), Ha. cbn [andb].
  replace (pendingChunks s) with (c_pending c) by by rewrite <- Ec.
  destruct (Z.eqb_spec (c_pending c) 0) as [E|E].
  - destruct (flight_done _ _ _ Hf Hn E) as [E1 E2%dom_empty_inv_L]. eapply wp_schedule; [done| |intros; apply Hf|done].
    split; [by apply active_sound|]. intros _. split_and!; done.
  - walk1. rewrite Ec. split; [done|]. intros _. split; [done|]. by apply Writing.
Qed.
Lemma progress_sound p d z c : c_active c = true → books c → sound (hears (Progress p d z) c).
Proof. intros Ha Hb. apply hears_sound; [done|]. by rewrite Ha. Qed.
Lemma hears_drained x c : drained c → sound (hears x c) → drained (hears x c).
Proof. intros [H1 H2 H3 H4] [Hb _]. by split. Qed.
Lemma core_offset n b s : core { s with offset := n; transferredInSlice := b } = moved n (c_size (core s)) (core s).
Proof. by destruct s. Qed.
Lemma drainReads_waits fuel z s c :
  core s = c → drained c → z = c_size c → c_acked c = ∅ →
  flight (chunkRead c) (dom (c_received c)) c → (base.size (c_received c) < fuel)%nat →
  wp (bind (drainReads stops fuel z) (λ _, whenDrained PullChunk)) (λ _ s', waiting (core s')) s.
Proof.
  intros Ec Hd Hz Hk Hf Hfu. apply wp_bind. revert s c Ec Hd Hz Hk Hf Hfu.
  induction fuel as [|fuel IH]; intros s c Ec Hd -> Hk Hf Hfu; [lia|]. cbn [drainReads]. pose proof Hd as [Hb Ha Ht Hs].
  assert (receivedChunks s = c_received c) as Er by by rewrite <- Ec.
  assert (offset s = c_offset c) as Eo by by rewrite <- Ec.
  walk1. destruct (receivedChunks s !! offset s) as [chunk|] eqn:El; rewrite Er, Eo in El.
  - rewrite (active_core _ _ Ec), Ha. cbn [negb]. walk1.
    set (rcv := delete (c_offset c) (c_received c)). eapply (wp_modify _ (holds rcv (c_acked c) c)).
    { rewrite <- Ec, Eo. unfold rcv. rewrite <- Ec. by destruct s. }
    intros s1 Ec1. assert (Hb1 : sound (holds rcv (c_acked c) c)) by (apply active_sound; [by apply holds_books|done]).
    do 3 walk1. walk1; [|walk1; by apply whenDrained_over]. cbv zeta. walk1.
    rewrite !Eo. eapply (wp_modify _ (consumes rcv (c_acked c) c)).
    { rewrite core_offset. match goal with E : core ?s2 = holds _ _ _ |- context [core ?s2] => by rewrite E end. }
    intros s3 Ec3. walk1. eapply wp_emit; [exact Ec3|by apply progress_sound, consumes_books| |].
    + intros s4 Ec4. eapply IH; [exact Ec4| | | | |]; try done.
      * apply hears_drained; [|by apply progress_sound, consumes_books]. split; try done. by apply consumes_books.
      * cbn. unfold rcv. rewrite dom_delete_L.
        assert (flight (chunkRead c) (dom (c_received c) ∖ {[c_offset c]}) (consumes rcv (c_acked c) c)) as [].
        { apply flight_consumes; [by intros ? ? [= ?]|done|by apply elem_of_dom]. }
        by split.
      * cbn. unfold rcv. rewrite map_size_delete_Some by done. pose proof (map_size_ne_0_lookup_2 _ _ (mk_is_Some _ _ El)). lia.
    + intros s4 Ho. eapply wp_mono; [by apply drainReads_over|]. intros ? s5 Ho5. by apply whenDrained_over.
  - walk1. eapply whenDrained_reading; try done. by apply not_elem_of_dom.
Qed.
Lemma drainChunks_waits fuel z s c :
  core s = c → drained c → z = c_size c → c_received c = ∅ → exactAcks c →
  flight (chunkWritten c) (dom (c_acked c)) c → (base.size (c_acked c) < fuel)%nat →
  wp (bind (drainChunks stops fuel z) (λ _, whenDrained PushChunk)) (λ _ s', waiting (core s')) s.
Proof.
  intros Ec Hd Hz Hk He Hf Hfu. apply wp_bind. revert s c Ec Hd Hz Hk He Hf Hfu.
  induction fuel as [|fuel IH]; intros s c Ec Hd -> Hk He Hf Hfu; [lia|]. cbn [drainChunks]. pose proof Hd as [Hb Ha Ht Hs].
  assert (acknowledgedChunks s = c_acked c) as Er by by rewrite <- Ec.
  assert (offset s = c_offset c) as Eo by by rewrite <- Ec.
  walk1. destruct (acknowledgedChunks s !! offset s) as [next|] eqn:El; rewrite Er, Eo in El.
  - rewrite (active_core _ _ Ec), Ha. cbn [negb]. walk1. pose proof (He _ _ El) as ->.
    set (ack := delete (c_offset c) (c_acked c)). eapply (wp_modify _ (holds (c_received c) ack c)).
    { rewrite <- Ec, Eo. unfold ack. rewrite <- Ec. by destruct s. }
    intros s1 Ec1. walk1. eapply (wp_modify _ (consumes (c_received c) ack c)).
    { rewrite core_offset. by rewrite Ec1. }
    intros s3 Ec3. walk1. eapply wp_emit; [exact Ec3|by apply progress_sound, consumes_books| |].
    + intros s4 Ec4. eapply IH; [exact Ec4| | | | | |]; try done.
      * apply hears_drained; [|by apply progress_sound, consumes_books]. split; try done. by apply consumes_books.
      * intros p n Hp. cbn in Hp. unfold ack in Hp. apply lookup_delete_Some in Hp as [_ Hp]. by apply He.
      * cbn. unfold ack. rewrite dom_delete_L.
        assert (flight (chunkWritten c) (dom (c_acked c) ∖ {[c_offset c]}) (consumes (c_received c) ack c)) as [].
        { apply flight_consumes; [by intros ? ? [= ?]|done|by apply elem_of_dom]. }
        by split.
      * cbn. unfold ack. rewrite map_size_delete_Some by done. pose proof (map_size_ne_0_lookup_2 _ _ (mk_is_Some _ _ El)). lia.
    + intros s4 Ho. eapply wp_mono; [by apply drainChunks_over|]. intros ? s5 Ho5. by apply whenDrained_over.
  - walk1. eapply whenDrained_writing; try done. by apply not_elem_of_dom.
Qed.

(** A reply is taken: its request is no longer awaited. *)
Definition answered (id : QString) (c : Core) : Core :=
  mkCore (c_active c) (c_generation c) (delete id (c_requests c)) (c_pending c) (c_received c) (c_acked c) (c_timers c)
    (c_nonce c) (c_clock c) (c_offset c) (c_size c) (c_window c) (c_configured c) (c_timeout c) (c_diverged c) (c_ready c) (c_snapshot c)
    (c_manifest c) (c_acknowledged c) (c_out c).
Lemma answered_books id c : c_active c = true → books c → books (answered id c).
Proof.
  intros Ha [H1 H2 H3 H4 H5 H6 H7 H8 H9 H10 H11]. split; try done; [..|cbn; congruence]; cbn.
  - intros id' q [_ Hq]%lookup_delete_Some. eauto.
  - intros id' q [_ Hq]%lookup_delete_Some. eauto.
Qed.
Lemma arrives_books id rcv ack c : c_active c = true → books c → books (arrives id rcv ack c).
Proof.
  intros Ha [H1 H2 H3 H4 H5 H6 H7 H8 H9 H10 H11]. split; try done; [..|cbn; congruence]; cbn.
  - intros id' q [_ Hq]%lookup_delete_Some. eauto.
  - intros id' q [_ Hq]%lookup_delete_Some. eauto.
Qed.
Definition receives (n : Z) (rcv : gmap Z jobj) (ack : gmap Z Z) (c : Core) : Core :=
  mkCore (c_active c) (c_generation c) (c_requests c) n rcv ack (c_timers c) (c_nonce c) (c_clock c)
    (c_offset c) (c_size c) (c_window c) (c_configured c) (c_timeout c) (c_diverged c) (c_ready c) (c_snapshot c)
    (c_manifest c) (c_acknowledged c) (c_out c).
Lemma core_received rcv n s :
  core { s with receivedChunks := rcv; pendingChunks := n } = receives n rcv (c_acked (core s)) (core s).
Proof. by destruct s. Qed.
Lemma core_acknowledged ack n s :
  core { s with acknowledgedChunks := ack; pendingChunks := n } = receives n (c_received (core s)) ack (core s).
Proof. by destruct s. Qed.
Lemma pending_core s c : core s = c → pendingChunks s = c_pending c.
Proof. by intros <-. Qed.
Lemma received_core s c : core s = c → receivedChunks s = c_received c.
Proof. by intros <-. Qed.
Lemma acked_core s c : core s = c → acknowledgedChunks s = c_acked c.
Proof. by intros <-. Qed.
Lemma onRead_waits id q z p r s c :
  core s = answered id c → drained c → c_requests c !! id = Some q → callback q = OnRead z p → c_acked c = ∅ →
  flight (chunkRead c) (dom (c_received c)) c → wp (onRead stops z p r) (λ _ s', waiting (core s')) s.
Proof.
  intros Ec Hd Hq Hk Hack Hf. pose proof Hd as [Hb Ha Ht Hs].
  assert (z = c_size c) as -> by (destruct (fl_requests _ _ _ Hf _ _ Hq) as (p' & Hp' & _); rewrite Hk in Hp'; by injection Hp').
  assert (Hb1 : sound (answered id c)) by (apply active_sound; [by apply answered_books|done]).
  unfold onRead. walk1. eapply wp_accepted; [done|done| |intros ? ?; cbn [negb]; walk1; by apply over_waiting].
  intros s1 Ec1 _. cbn [negb]. do 2 walk1; [walk1; by apply over_waiting|]. walk1.
  set (rcv := <[p := r]> (c_received c)). eapply (wp_modify _ (arrives id rcv (c_acked c) c)).
  { rewrite core_received, (pending_core _ _ Ec1), (received_core _ _ Ec1), Ec1. done. }
  intros s2 Ec2. walk1. eapply drainReads_waits; [exact Ec2| | | | |].
  - split; try done. by apply arrives_books.
  - done.
  - done.
  - cbn. unfold rcv. rewrite dom_insert_L.
    assert (flight (chunkRead c) ({[ p ]} ∪ dom (c_received c)) (arrives id rcv (c_acked c) c)) as [].
    { eapply flight_arrives; [by intros ? ? [= ?]|done..]. }
    by split.
  - rewrite <- Ec2. apply Nat.lt_succ_diag_r.
Qed.
Lemma onChunk_waits id q z p n r s c :
  core s = answered id c → drained c → c_requests c !! id = Some q → callback q = OnChunk p n z → c_received c = ∅ →
  exactAcks c → flight (chunkWritten c) (dom (c_acked c)) c → wp (onChunk stops p n z r) (λ _ s', waiting (core s')) s.
Proof.
  intros Ec Hd Hq Hk Hrcv He Hf. pose proof Hd as [Hb Ha Ht Hs].
  assert (z = c_size c ∧ n = p + bytesLeft (c_size c) p) as [-> ->].
  { destruct (fl_requests _ _ _ Hf _ _ Hq) as (p' & Hp' & _). rewrite Hk in Hp'. by injection Hp' as <- -> ->. }
  assert (Hb1 : sound (answered id c)) by (apply active_sound; [by apply answered_books|done]).
  unfold onChunk. walk1. eapply wp_accepted; [done|done| |intros ? ?; cbn [negb]; walk1; by apply over_waiting].
  intros s1 Ec1 _. cbn [negb]. walk1; [walk1; by apply over_waiting|]. walk1.
  set (ack := <[p := p + bytesLeft (c_size c) p]> (c_acked c)). eapply (wp_modify _ (arrives id (c_received c) ack c)).
  { rewrite core_acknowledged, (pending_core _ _ Ec1), (acked_core _ _ Ec1), Ec1. done. }
  intros s2 Ec2. walk1. eapply drainChunks_waits; [exact Ec2| | | | | |].
  - split; try done. by apply arrives_books.
  - done.
  - done.
  - intros x m Hx. cbn in Hx. unfold ack in Hx. apply lookup_insert_Some in Hx as [[<- <-]|[_ Hx]]; [done|by apply He].
  - cbn. unfold ack. rewrite dom_insert_L.
    assert (flight (chunkWritten c) ({[ p ]} ∪ dom (c_acked c)) (arrives id (c_received c) ack c)) as [].
    { eapply flight_arrives; [by intros ? ? [= ?]|done..]. }
    by split.
  - rewrite <- Ec2. apply Nat.lt_succ_diag_r.
Qed.

Lemma nextUpload_hands : hands_over (nextUpload uuid).
Proof. intros s c Ec Hr. unfold nextUpload. strides. Qed.
Hint Resolve nextUpload_hands : session.
Lemma onCommit_hands r : hands_over (onCommit uuid r).
Proof. intros s c Ec Hr. unfold onCommit. strides. Qed.
Lemma onBegin_hands b z r s c : core s = c → running c → c_active c = true → wp (onBegin uuid stops b z r) (λ _ s', waiting (core s')) s.
Proof.
  intros Ec Hr Ha. unfold onBegin. walk1. eapply wp_accepted; [done|eauto with session| |intros ? ?; cbn [negb]; walk1; eauto with session].
  intros s1 Ec1 _. cbn [negb]. do 2 walk1.
  - walk1. walk1.
    + do 2 walk1. eapply wp_emit; [eassumption|apply progress_sound; [done|eauto with session]| |].
      * intros s3 Ec3. eapply nextUpload_hands; [exact Ec3|]. split; [apply progress_sound; [done|eauto with session]|apply Hr].
      * intros s3 Ho. eapply nextUpload_hands; [done|by apply over_running].
    + walk1. by hand.
  - walk1; [stride; eauto with session|]. walk1; [|stride; eauto with session]. walk1; [stride; eauto with session|]. walk1.
    eapply wp_offset; [eassumption|]. intros s2 Ec2. eapply pushChunk_hands; [exact Ec2|eauto with session|done|]. cbn.
    apply orb_false_iff in Heqb2 as [_ Hlt]. rewrite <- Ec1. by apply Z.ltb_ge in Hlt.
Qed.
Definition widens (w : Z) (c : Core) : Core :=
  mkCore (c_active c) (c_generation c) (c_requests c) (c_pending c) (c_received c) (c_acked c) (c_timers c) (c_nonce c)
    (c_clock c) (c_offset c) (c_size c) w (c_configured c) (c_timeout c) (c_diverged c) (c_ready c) (c_snapshot c)
    (c_manifest c) (c_acknowledged c) (c_out c).
Lemma widens_running w c : 1 ≤ w ≤ 4 → running c → running (widens w c).
Proof. intros Hw [[[H1 H2 H3 H4 H5 H6 H7 H8 H9 H10 H11] Hn] Hr]. split; [by split|exact Hr]. Qed.
Lemma wp_negotiated n w r k (Q : unit → Session → Prop) s c :
  core s = c → running c → 1 ≤ w ≤ 4 → (∀ s' c', core s' = c' → running c' → Q tt s') →
  wp (modify (λ s, { s with inlineBytes := n; window := Z.min (configuredWindow s) w; remoteId := r; remoteContainer := k })) Q s.
Proof.
  intros <- Hr Hw HQ. eapply (wp_modify _ (widens (Z.min (configuredWindow s) w) (core s))); [by destruct s|].
  intros s' Ec'. eapply HQ; [exact Ec'|]. apply widens_running; [|done].
  pose proof (bk_configured _ _ _ _ (running_books _ _ _ _ Hr)) as Hc. change (c_configured (core s)) with (configuredWindow s) in Hc. lia.
Qed.
Lemma onDescribe_hands r : hands_over (onDescribe uuid stops r).
Proof.
  intros s c Ec Hr. unfold onDescribe. strides. tell. stride.
  - eauto with session.
  - eapply wp_negotiated; [eassumption|eauto with session|unfold clamp; lia|]. intros s2 c2 Ec2 Hr2. strides.
  - tell. stride; [eauto with session|].
    eapply wp_negotiated; [eassumption|eauto with session|unfold clamp; lia|]. intros s2 c2 Ec2 Hr2. strides.
Qed.

(** ** Events *)
Lemma turn_same c c' :
  c_requests c' = c_requests c → scheduled c' = scheduled c → c_pending c' = c_pending c → c_received c' = c_received c →
  c_acked c' = c_acked c → c_offset c' = c_offset c → c_size c' = c_size c → c_ready c' = c_ready c → turn c → turn c'.
Proof.
  intros E1 E2 E3 E4 E5 E6 E7 E8.
  assert (Hf : ∀ mk got, flight mk got c → flight mk got c').
  { intros mk got [H1 H2 H3 H4 H5 H6 H7]. split; unfold ahead, known in *; rewrite ?E1, ?E3, ?E6, ?E7; done. }
  intros [id q H1 H2 H3 H4 H5 H6 H7|a H1 H2 H3 H4 H5 H6|H1 H2 H3 H4 H5|H1 H2 H3 H4 H5 H6].
  - eapply (Asked _ id q); congruence || (rewrite E8; done) || done.
  - apply (Resting _ a); [congruence|congruence|rewrite E6, E7; done|congruence..].
  - apply Reading; [congruence| | |congruence..].
    + rewrite E4. unfold chunkRead. rewrite E7. by apply Hf.
    + by rewrite E4, E6.
  - apply Writing; [congruence| | |congruence..|].
    + rewrite E5. unfold chunkWritten. rewrite E7. by apply Hf.
    + by rewrite E5, E6.
    + intros p n. rewrite E5, E7. apply H6.
Qed.
Lemma hears_waiting x c : waiting c → books (hears x c) → waiting (hears x c).
Proof. intros [Hb Hw] Hh. split; [done|]. intros Ha. destruct (Hw Ha) as [Ht Hturn]. split; [done|]. by apply (turn_same c). Qed.
(** The pending timers change, not what is scheduled. *)
Definition timed (l : list Timer) (c : Core) : Core :=
  mkCore (c_active c) (c_generation c) (c_requests c) (c_pending c) (c_received c) (c_acked c) l (c_nonce c)
    (c_clock c) (c_offset c) (c_size c) (c_window c) (c_configured c) (c_timeout c) (c_diverged c) (c_ready c) (c_snapshot c)
    (c_manifest c) (c_acknowledged c) (c_out c).
Lemma timed_books l c : books c → (∀ t, t ∈ l → revisionOf t ≤ c_generation c) → books (timed l c).
Proof. intros [H1 H2 H3 H4 H5 H6 H7 H8 H9 H10 H11] Hl. by split. Qed.
Lemma timed_waiting l c : waiting c → (∀ t, t ∈ l → revisionOf t ≤ c_generation c) → scheduled (timed l c) = scheduled c →
  waiting (timed l c).
Proof.
  intros [Hb Hw] Hl Hs. split; [by apply timed_books|]. intros Ha. destruct (Hw Ha) as [Ht Hturn]. split; [done|].
  by apply (turn_same c).
Qed.
Definition actionOf (g : Z) (t : Timer) : option Action :=
  match t with Scheduled r a => if r =? g then Some a else None | _ => None end.
Lemma scheduled_omap c : scheduled c = omap (actionOf (c_generation c)) (c_timers c).
Proof. done. Qed.
Lemma omap_delete {A B} (f : A → option B) (l : list A) n x :
  l !! n = Some x → omap f l ≡ₚ match f x with Some y => [y] | None => [] end ++ omap f (delete n l).
Proof.
  revert n. induction l as [|y l IH]; intros [|n] Hn; [done..| |].
  - cbn in Hn. injection Hn as ->. cbn. by destruct (f x).
  - cbn in Hn. cbn. specialize (IH n Hn). destruct (f y); [|done].
    rewrite IH. by destruct (f x); [apply Permutation_swap|].
Qed.
Lemma omap_delete_none {A B} (f : A → option B) (l : list A) n x :
  l !! n = Some x → f x = None → omap f (delete n l) = omap f l.
Proof.
  revert n. induction l as [|y l IH]; intros [|n] Hn Hx; [done..| |].
  - cbn in Hn. injection Hn as ->. cbn. by rewrite Hx.
  - cbn in Hn |- *. destruct (f y); [f_equal|]; by apply IH.
Qed.
Lemma turn_scheduled c a l : turn c → scheduled c ≡ₚ a :: l → l = [] ∧ scheduled c = [a] ∧
  c_requests c = ∅ ∧ c_pending c = 0 ∧ c_received c = ∅ ∧ c_acked c = ∅ ∧ (a = PullChunk ∨ a = PushChunk → c_offset c ≤ c_size c).
Proof.
  intros [id q H1 H2 H3 H4 H5 H6 H7|b H1 H2 H3 H4 H5 H6|H1 H2 H3 H4 H5|H1 H2 H3 H4 H5 H6] Hs.
  - rewrite H4 in Hs. by apply Permutation_nil_cons in Hs.
  - rewrite H2 in Hs. symmetry in Hs. apply Permutation_singleton_r in Hs as [= -> ->]. by split_and!.
  - rewrite H1 in Hs. by apply Permutation_nil_cons in Hs.
  - rewrite H1 in Hs. by apply Permutation_nil_cons in Hs.
Qed.

Lemma act_waits a s c :
  core s = c → running c → c_active c = true → (a = PullChunk ∨ a = PushChunk → c_offset c ≤ c_size c) →
  wp (act uuid stops a) (λ _ s', waiting (core s')) s.
Proof.
  intros Ec Hr Ha Ho. destruct a; cbn [act].
  - by eapply previewNext_hands.
  - by eapply pullNext_hands.
  - eapply pullChunk_hands; eauto.
  - eapply pushChunk_hands; eauto.
Qed.
Lemma resume_waits id q r s c :
  core s = answered id c → waiting c → c_active c = true → c_requests c !! id = Some q →
  (∀ d sn m, callback q = OnSnapshot d → receiptFor r sn m → Ev (c_generation c) sn m) →
  wp (resume uuid stops (callback q) r) (λ _ s', waiting (core s')) s.
Proof.
  intros Ec [Hb Hw] Ha Hq He. destruct (Hw Ha) as [Ht Hturn].
  destruct Hturn as [id' q' H1 H2 H3 H4 H5 H6 H7|a H1 H2 H3 H4 H5 H6|H1 H2 H3 H4 H5|H1 H2 H3 H4 H5 H6].
  - rewrite H1 in Hq. apply lookup_singleton_Some in Hq as [-> ->].
    assert (Hr : running (answered id c)).
    { split; [apply active_sound; [by apply answered_books|done]|]. intros _. split_and!; try done. split_and!; try done. cbn.
      by rewrite H1, delete_singleton_eq. }
    destruct (callback q) eqn:Ek; cbn [resume]; try done.
    + by eapply onDescribe_hands.
    + by eapply onPage_hands.
    + by eapply onJournal_hands.
    + eapply onManifest_waits; [done|done|]. by apply H3.
    + eapply onSnapshot_waits; [done|done|done|]. intros sn m Hrc. by eapply He.
    + by eapply onPreview_hands.
    + by eapply onBegin_hands.
    + by eapply onCommit_hands.
  - by rewrite H1 in Hq.
  - destruct (fl_requests _ _ _ H2 _ _ Hq) as (p & Hk & _). rewrite Hk. by eapply onRead_waits.
  - destruct (fl_requests _ _ _ H2 _ _ Hq) as (p & Hk & _). rewrite Hk. by eapply onChunk_waits.
Qed.

Lemma timers_core l s : core { s with timers := l } = timed l (core s).
Proof. by destruct s. Qed.
Lemma timers_of s c : core s = c → timers s = c_timers c.
Proof. by intros <-. Qed.
Lemma generation_of s c : core s = c → generation s = c_generation c.
Proof. by intros <-. Qed.
Lemma transmit_waits id s c : core s = c → waiting c → wp (transmit id) (λ _ s', waiting (core s')) s.
Proof.
  intros Ec Hw. unfold transmit. do 2 walk1; [walk1; by rewrite Ec|]. unfold start_.
  eapply (wp_modify _ (timed (c_timers c ++ [Transmit id (generation s)]) c)).
  { rewrite timers_core, Ec. by rewrite <- Ec. }
  intros s' ->. apply timed_waiting; [done| |].
  - intros t [Ht|Ht]%elem_of_app; [by apply Hw|]. apply list_elem_of_singleton in Ht as ->. rewrite <- Ec. done.
  - rewrite !scheduled_omap. cbn. rewrite omap_app. cbn. by rewrite app_nil_r.
Qed.
Lemma current_core g s c : core s = c → current_ g s = c_active c && (c_generation c =? g).
Proof. by intros <-. Qed.
Lemma expire_waits t n s c :
  waiting c → c_timers c !! n = Some t → core s = timed (delete n (c_timers c)) c →
  wp (expire uuid stops t) (λ _ s', waiting (core s')) s.
Proof.
  intros Hw Hn Ec. set (l := delete n (c_timers c)) in *. pose proof Hw as [Hb Hturn].
  assert (Hl : ∀ t, t ∈ l → revisionOf t ≤ c_generation c).
  { intros x Hx. apply (bk_timers _ _ _ _ Hb). by eapply list_elem_of_delete_inv. }
  assert (Hkeep : actionOf (c_generation c) t = None → waiting (timed l c)).
  { intros E. apply timed_waiting; [done|done|]. rewrite !scheduled_omap. by eapply omap_delete_none. }
  unfold expire. walk1. pose proof (λ g, current_core g s _ Ec) as Hcur. cbn [timed c_active c_generation] in Hcur.
  destruct t as [id revision|id revision|revision a].
  - assert (Hw' : waiting (timed l c)) by by apply Hkeep. walk1; [|walk1; by rewrite Ec].
    rewrite Hcur. walk1; [|walk1; by rewrite Ec]. bool_hyps.
    assert (Hh : sound (hears (RequestReady id (peer s) (envelope r)) (timed l c))).
    { apply hears_sound; [apply Hw'|]. cbn. by replace (c_active c) with true. }
    eapply wp_emit; [exact Ec|done| |intros; by apply over_waiting]. intros s' ->. apply hears_waiting; [done|apply Hh].
  - rewrite Hcur. walk1; [|walk1; rewrite Ec; by apply Hkeep]. by eapply transmit_waits; [|apply Hkeep].
  - rewrite Hcur. destruct (c_active c) eqn:Ha; cbn [andb]; [|walk1; rewrite Ec; split; [by apply timed_books|]; cbn; by rewrite Ha].
    rewrite Z.eqb_sym. destruct (Z.eqb_spec revision (c_generation c)) as [->|Hne].
    + pose proof (omap_delete (actionOf (c_generation c)) (c_timers c) n _ Hn) as Hp. rewrite <- scheduled_omap in Hp.
      cbn [actionOf] in Hp. rewrite Z.eqb_refl in Hp. destruct (Hturn eq_refl) as [Ht Hturn'].
      apply turn_scheduled in Hp as (El & _ & E1 & E2 & E3 & E4 & Ho); [|done].
      eapply act_waits; [exact Ec| |done|done]. split; [apply active_sound; [by apply timed_books|done]|]. intros _. split_and!; try done.
    + walk1. rewrite Ec. apply Hkeep. cbn. by apply Z.eqb_neq in Hne as ->.
Qed.

Definition starts (c : Core) : Core :=
  mkCore true (c_generation c + 1) (c_requests c) (c_pending c) (c_received c) (c_acked c) (c_timers c) (c_nonce c)
    (c_clock c) (c_offset c) (c_size c) (c_window c) (c_configured c) (c_timeout c) (c_diverged c) (c_ready c) ∅
    (c_manifest c) false (c_out c).
Definition armed (c : Core) : Core :=
  mkCore (c_active c) (c_generation c) (c_requests c) (c_pending c) (c_received c) (c_acked c) (c_timers c) (c_nonce c)
    (c_clock c) (c_offset c) (c_size c) (c_window c) (c_configured c) true (c_diverged c) (c_ready c) (c_snapshot c)
    (c_manifest c) (c_acknowledged c) (c_out c).
Lemma starts_sound c : books c → c_active c = false →
  sound (hears (Published InProgress) (starts c)) ∧ scheduled (starts c) = [] ∧ empty c.
Proof.
  intros Hb Ha. pose proof (bk_idle _ _ _ _ Hb Ha) as He. destruct Hb as [H1 H2 H3 H4 H5 H6 H7 H8 H9 H10 H11].
  assert (Hn : ¬ successful (hears (Published InProgress) (starts c))).
  { intros H. eapply successful_snoc in H; [|done]. by destruct H as (p & e & ?). }
  split_and!; [|..|done].
  - split; [|exact Hn]. split; try done; cbn.
    + intros t Ht. specialize (H1 t Ht). lia.
    + by rewrite toldAll_snoc, H9, Ha.
  - apply scheduled_none. cbn. intros t Ht. specialize (H1 t Ht). lia.
Qed.
Lemma armed_sound c : sound c → sound (armed c).
Proof. intros [[H1 H2 H3 H4 H5 H6 H7 H8 H9 H10 H11] Hn]. split; [by split|exact Hn]. Qed.
Lemma start_waits p s c : core s = c → waiting c → wp (start uuid stops p) (λ _ s', waiting (core s')) s.
Proof.
  intros Ec Hw. unfold start. do 2 walk1; [walk1; by rewrite Ec|].
  assert (Ha : c_active c = false) by (rewrite <- (active_core _ _ Ec); by destruct (active s)).
  destruct (starts_sound c (proj1 Hw) Ha) as (Hb & Hs & He).
  walk1. eapply (wp_modify _ (starts c)); [rewrite <- Ec; by destruct s|]. intros s1 Ec1.
  walk1. eapply wp_emit; [done|done| |].
  - intros s2 Ec2. walk1. eapply (wp_modify _ (armed (hears (Published InProgress) (starts c)))); [rewrite <- Ec2; by destruct s2|].
    intros s3 Ec3. walk1. eapply wp_hands; [exact Ec3| |by apply describe_hands|intros; by walk1].
    split; [by apply armed_sound|]. intros _. split_and!; [done|apply He..|exact Hs].
  - intros s2 Ho2. walk1. eapply (wp_modify _ (armed (core s2))); [by destruct s2|].
    intros s3 Ec3. walk1. eapply wp_hands; [exact Ec3| |by apply describe_hands|intros; by walk1].
    apply over_running. destruct Ho2. split; [by apply armed_sound|done].
Qed.
Lemma clocked_waiting s t m : waiting (core s) → t ≤ T → waiting (core { s with clock := t; monotonic := m }).
Proof.
  intros [[H1 H2 H3 H4 H5 H6 H7 H8 H9 H10 H11] Hw] Ht.
  set (c' := mkCore (active s) (generation s) (requests s) (pendingChunks s) (receivedChunks s) (acknowledgedChunks s) (timers s)
    (nonce s) t (offset s) (jlong (current s).["size"]) (window s) (configuredWindow s) (timeout s) (diverged s)
    (bool_decide (is_Some (manifestReady s)))
    (snapshot s) (manifestId s) (snapshotAcknowledged s) (out s)).
  replace (core { s with clock := t; monotonic := m }) with c' by by destruct s.
  split; [by split|]. intros Ha. destruct (Hw Ha) as [Hti Hturn]. split; [done|]. by apply (turn_same (core s)).
Qed.
Definition configures (w : Z) (c : Core) : Core :=
  mkCore (c_active c) (c_generation c) (c_requests c) (c_pending c) (c_received c) (c_acked c) (c_timers c) (c_nonce c)
    (c_clock c) (c_offset c) (c_size c) (c_window c) w (c_timeout c) (c_diverged c) (c_ready c) (c_snapshot c)
    (c_manifest c) (c_acknowledged c) (c_out c).
Lemma configures_waiting w c : 1 ≤ w ≤ 4 → waiting c → waiting (configures w c).
Proof.
  intros Hw [[H1 H2 H3 H4 H5 H6 H7 H8 H9 H10 H11] Hturn]. split; [by split|]. intros Ha. destruct (Hturn Ha) as [Ht Hturn'].
  split; [done|]. by apply (turn_same c).
Qed.
(** A request is polled for again: only its delay changes. *)
Definition repolls (id : QString) (q : Request) (c : Core) : Core :=
  mkCore (c_active c) (c_generation c) (<[id := q]> (c_requests c)) (c_pending c) (c_received c) (c_acked c) (c_timers c)
    (c_nonce c) (c_clock c) (c_offset c) (c_size c) (c_window c) (c_configured c) (c_timeout c) (c_diverged c) (c_ready c) (c_snapshot c)
    (c_manifest c) (c_acknowledged c) (c_out c).
Lemma repolls_waiting id q q' c :
  waiting c → c_active c = true → c_requests c !! id = Some q → callback q' = callback q → deadline q' = deadline q →
  waiting (repolls id q' c).
Proof.
  intros [Hb Hw] Ha Hq Hc Hd. destruct (Hw Ha) as [Ht Hturn].
  assert (Hsame : ∀ x y, c_requests (repolls id q' c) !! x = Some y →
    ∃ z, c_requests c !! x = Some z ∧ callback y = callback z ∧ deadline y = deadline z).
  { intros x y. cbn. intros [[<- <-]|[_ Hx]]%lookup_insert_Some; eauto. }
  assert (Hback : ∀ x z, c_requests c !! x = Some z → ∃ y, c_requests (repolls id q' c) !! x = Some y ∧ callback y = callback z).
  { intros x z Hx. cbn. destruct (decide (x = id)) as [->|Hne].
    - exists q'. rewrite lookup_insert_eq. split; [done|]. congruence.
    - exists z. by rewrite lookup_insert_ne by done. }
  assert (Hf : ∀ mk got, flight mk got c → flight mk got (repolls id q' c)).
  { intros mk got [H1 H2 H3 H4 H5 H6 H7]. split; try done.
    - intros x y (z & Hz & -> & _)%Hsame. by eapply H3.
    - intros x x' y y' (z & Hz & -> & _)%Hsame (z' & Hz' & -> & _)%Hsame. by apply H4.
    - intros p i Hk Hlt.
      assert (known mk got c p) as Hk'.
      { destruct Hk as [?|(x & y & (z & Hz & Ez & _)%Hsame & Hy)]; [by left|right]. exists x, z. split; [done|congruence]. }
      destruct (H5 p i Hk' Hlt) as [?|(x & y & Hx & Hy)]; [by left|right].
      destruct (Hback x y Hx) as (y' & Hy' & Ey). exists x, y'. split; [done|]. rewrite Ey. exact Hy.
    - cbn. by rewrite H6, map_size_insert_Some. }
  split.
  - destruct Hb as [H1 H2 H3 H4 H5 H6 H7 H8 H9 H10 H11]. split; try done.
    + intros x y (z & Hz & _)%Hsame. by eapply H2.
    + intros x y (z & Hz & _ & ->)%Hsame. by eapply H3.
    + cbn. congruence.
  - intros _. split; [done|]. destruct Hturn as [x y H1 H2 H3 H4 H5 H6 H7|a H1 H2 H3 H4 H5 H6|H1 H2 H3 H4 H5|H1 H2 H3 H4 H5 H6].
    + rewrite H1 in Hq. apply lookup_singleton_Some in Hq as [-> ->]. apply (Asked _ id q'); try done; cbn.
      * by rewrite H1, insert_singleton_eq.
      * by rewrite Hc.
      * by rewrite Hc.
    + by rewrite H1 in Hq.
    + apply Reading; try done. by apply Hf.
    + apply Writing; try done. by apply Hf.
Qed.
Lemma fail_waits e s c : core s = c → waiting c → wp (fail e) (λ _ s', waiting (core s')) s.
Proof.
  intros Ec Hw. destruct (c_active c) eqn:Ha.
  - eapply wp_fail; [done|apply active_sound; [apply Hw|done]|]. intros. by apply over_waiting.
  - unfold fail. walk1. rewrite (active_core _ _ Ec), Ha. cbn [negb]. walk1. by rewrite Ec.
Qed.
Lemma receive_waits id r s c : core s = c → waiting c →
  (∀ q d o sn m, c_active c = true → c_requests c !! id = Some q → callback q = OnSnapshot d → r.["result"] = JObj o →
     receiptFor o sn m → Ev (c_generation c) sn m) → wp (receive uuid stops id r) (λ _ s', waiting (core s')) s.
Proof.
  intros Ec Hw He. unfold receive. walk1. replace (requests s) with (c_requests c) by by rewrite <- Ec.
  destruct (c_requests c !! id) as [q|] eqn:Eq; [|walk1; by rewrite Ec].
  rewrite (active_core _ _ Ec). destruct (c_active c) eqn:Ha; cbn [negb]; [|walk1; by rewrite Ec].
  pose proof Hw as [Hb _]. assert (sound c) by by apply active_sound.
  walk1; [walk1; by apply over_waiting|]. walk1.
  - unfold repoll. set (q' := mkRequest _ _ _ _). walk1. eapply (wp_modify _ (repolls id q' c)); [rewrite <- Ec; by destruct s|].
    intros s1 Ec1. walk1. assert (Hw1 : waiting (repolls id q' c)) by by eapply repolls_waiting.
    eapply (wp_modify _ (timed (c_timers c ++ [Poll id (generation s1)]) (repolls id q' c))).
    { rewrite timers_core, Ec1. by rewrite (timers_of _ _ Ec1). }
    intros s2 ->. apply timed_waiting; [done| |].
    + intros t [Ht|Ht]%elem_of_app; [by apply Hb|]. apply list_elem_of_singleton in Ht as ->. by rewrite (generation_of _ _ Ec1).
    + rewrite !scheduled_omap. cbn. rewrite omap_app. cbn. by rewrite app_nil_r.
  - walk1; try (walk1; by apply over_waiting). walk1.
    eapply (wp_modify _ (answered id c)); [rewrite <- Ec; by destruct s|]. intros s1 Ec1. eapply resume_waits; [done..|].
    intros d sn m' Hk Hrc. by eapply He.
Qed.
Lemma perform_waits ev s c : core s = c → waiting c →
  (∀ id r q d o sn m, ev = Receive id r → c_active c = true → c_requests c !! id = Some q → callback q = OnSnapshot d →
     r.["result"] = JObj o → receiptFor o sn m → Ev (c_generation c) sn m) → wp (perform uuid stops ev) (λ _ s', waiting (core s')) s.
Proof.
  intros Ec Hw He. pose proof Hw as [Hb _]. destruct ev as [p| |h k|p|w|id r|n| |f]; cbn [perform].
  - walk1. eapply wp_mono; [by eapply start_waits|]. intros ? s' Hs. by walk1.
  - by eapply fail_waits.
  - unfold setExpectedHost, stop. walk1. eapply wp_mono; [by eapply fail_waits|]. intros ? s2 Hw2. cbn beta.
    eapply (wp_modify _ (core s2)); [by destruct s2|]. by intros s3 ->.
  - unfold setContentPolicy. walk; by match goal with E : core ?s = _ |- waiting (core ?s) => rewrite E end.
  - unfold setTransferWindow. do 3 walk1; [do 2 walk1; by rewrite Ec|]. bool_hyps. walk1.
    eapply (wp_modify _ (configures w c)); [rewrite <- Ec; by destruct s|]. intros s1 Ec1. do 2 walk1. rewrite Ec1.
    apply configures_waiting; [lia|done].
  - eapply receive_waits; [done|done|]. intros. by eapply He.
  - walk1. destruct (timers s !! n) as [t|] eqn:Et; [|walk1; by rewrite Ec]. walk1.
    eapply (wp_modify _ (timed (delete n (c_timers c)) c)); [rewrite timers_core, Ec; by rewrite <- Ec|].
    intros s1 Ec1. eapply expire_waits; [done| |done]. by rewrite <- Ec.
  - unfold checkDeadlines. walk1. destruct (timeout s && _); [by eapply fail_waits|walk1; by rewrite Ec].
  - eapply (wp_modify _ c); [rewrite <- Ec; by destruct s|]. by intros s' ->.
Qed.
End turns.
End SynchronizerTurns.
