(* ===== verification/SynchronizerFacts.v ===== *)
(** What holds after every history of a synchronizer: it waits for one thing at a time,
    what it tells its listeners is consistent, and it succeeds only with the peer's
    receipt. *)
From S2P Require Import Prelude Qt Records Requests Synchronizer SynchronizerLaws SynchronizerTurns.
Open Scope Z_scope.

Module SynchronizerFacts.
Import Records Synchronizer SynchronizerLaws SynchronizerTurns.

(** A reply that asks for one chunk of a file. *)
Definition ofChunk (q : Request) : Prop := ¬ single (callback q).

Section facts.
Context {PF : Platform} {R : ReplicaOps} (uuid : nat → QString) (stops : nat → Signal → bool).
(** Identifiers are unique; and a page of local changes that announces more moves its
    cursor, up to the upper one. *)
Context (uuid_inj : Inj (=) (=) uuid).
Context (rounds : ∀ after upper r, let page := (changes after upper r).1 in
  toBool page.["ok"] = true → toBool page.["more"] = true →
  0 ≤ after < jlong page.["next"] ∧ jlong page.["next"] ≤ jlong page.["through"]
  ∧ (upper ≠ 0 → jlong page.["through"] = upper)).

(** In the history [l] the peer acknowledged, in session [g], the announcement [m] of
    the snapshot [sn]. *)
Definition confirmed (r : replica) (l : list Occurrence) (g : Z) (sn : jobj) (m : QString) : Prop :=
  ∃ before o after id q d reply result,
    l = before ++ o :: after ∧ event o = Receive id reply ∧ reply.["result"] = JObj result ∧ receiptFor result sn m
    ∧ let s := history uuid stops (idle r) before in
      active s = true ∧ generation s = g ∧ requests s !! id = Some q ∧ callback q = OnSnapshot d.

Lemma idle_waiting T Ev r : 0 ≤ T → waiting uuid T Ev (core (idle r)).
Proof.
  intros HT. split; [|done]. split; try done.
  - intros t Ht. by apply elem_of_nil in Ht.
  - intros (p & e & H). discriminate H.
Qed.
Lemma history_snoc s l o : history uuid stops s (l ++ [o]) = step uuid stops (history uuid stops s l) o.
Proof. unfold history. by rewrite foldl_app. Qed.
Lemma prefix_waiting T r l before after :
  0 ≤ T → Forall (λ o, at_ o ≤ T) l → l = before ++ after →
  waiting uuid T (confirmed r l) (core (history uuid stops (idle r) before)).
Proof.
  intros HT Hl. revert after. induction before as [|o before IH] using rev_ind; intros after E; [by apply idle_waiting|].
  rewrite <- app_assoc in E. specialize (IH ([o] ++ after) E). rewrite history_snoc.
  set (s := history uuid stops (idle r) before) in *.
  assert (at_ o ≤ T) as Ho.
  { rewrite Forall_forall in Hl. apply Hl. rewrite E. apply elem_of_app. right. left. }
  unfold step. eapply (perform_waits uuid stops T (confirmed r l) rounds); [done|by apply clocked_waiting|].
  intros id reply q d result sn m Eev Ha Hq Hk Hres Hrc. change (c_generation _) with (generation s).
  exists before, o, after, id, q, d, reply, result. split_and!; try done.
  all: by apply (active_core _ _ eq_refl).
Qed.
Lemma history_waiting T r l :
  0 ≤ T → Forall (λ o, at_ o ≤ T) l → waiting uuid T (confirmed r l) (core (history uuid stops (idle r) l)).
Proof. intros HT Hl. apply (prefix_waiting T r l l []); [done..|by rewrite app_nil_r]. Qed.

(** C5: One thing at a time.  Suppose identifiers are unique and every page of the
    replica's changes that announces more moves its cursor forward, up to the announced
    end: this holds when every record fits a page, and fails for a replica with a record
    too large for any page, whose empty page announces more forever and on which the
    loop that collects the local changes would not end.  Then, after any history of
    calls, replies, timers and uses of the replica by others, that loop comes to its
    end, and a running session is never stuck: its deadline timer runs and either it has
    sent requests or exactly one of its actions is scheduled, never both; several
    requests are outstanding only for distinct chunks of one file, and at most four; and
    a session that is not running waits for nothing. *)
Theorem one_thing_at_a_time T r l :
  0 ≤ T → Forall (λ o, at_ o ≤ T) l →
  let s := history uuid stops (idle r) l in
  (active s = true → timeout s = true
     ∧ (requests s = ∅ ∧ (∃ a, scheduled (core s) = [a]) ∨ requests s ≠ ∅ ∧ scheduled (core s) = []))
  ∧ (active s = false → requests s = ∅)
  ∧ (base.size (requests s) ≤ 1 ∨ base.size (requests s) ≤ 4 ∧ ∀ id q, requests s !! id = Some q → ofChunk q)%nat
  ∧ (∀ id id' q q', requests s !! id = Some q → requests s !! id' = Some q' → callback q = callback q' → id = id')
  ∧ diverged s = false.
Proof.
  intros HT Hl s. destruct (history_waiting T r l HT Hl) as [Hb Hw]. fold s in Hb, Hw.
  assert (Hidle : active s = false → requests s = ∅) by (intros Ha; by destruct (bk_idle _ _ _ _ Hb Ha)).
  split; [|split; [exact Hidle|split; [|split; [|exact (bk_total _ _ _ _ Hb)]]]].
  - intros Ha. destruct (Hw Ha) as [Ht Hturn]. split; [exact Ht|].
    destruct Hturn as [id q H1 _ _ H4|a H1 H2|H1 [_ _ _ _ _ Hp _] _ Hne|H1 [_ _ _ _ _ Hp _] _ Hne].
    + right. split; [|done]. intros E. apply (map_non_empty_singleton (M := gmap QString) id q). by rewrite <- H1, <- E.
    + left. split; [exact H1|by exists a].
    + right. split; [|done]. intros E. change (c_requests (core s)) with (requests s) in Hp. by rewrite E in Hp.
    + right. split; [|done]. intros E. change (c_requests (core s)) with (requests s) in Hp. by rewrite E in Hp.
  - destruct (active s) eqn:Ha; [|rewrite Hidle, map_size_empty by done; left; lia]. destruct (Hw Ha) as [Ht Hturn].
    change (requests s) with (c_requests (core s)).
    destruct Hturn as [id q H1 _ _ H4|a H1 H2|H1 [_ _ Hq _ _ Hp Hbd] _ Hne|H1 [_ _ Hq _ _ Hp Hbd] _ Hne].
    + left. rewrite H1, map_size_singleton. lia.
    + left. rewrite H1, map_size_empty. lia.
    + right. split; [lia|]. intros id q (p & Hk & _)%Hq. unfold ofChunk. rewrite Hk. by intros [].
    + right. split; [lia|]. intros id q (p & Hk & _)%Hq. unfold ofChunk. rewrite Hk. by intros [].
  - destruct (active s) eqn:Ha; [|rewrite Hidle by done; by intros ? ? ? ? ?%lookup_empty_Some]. destruct (Hw Ha) as [Ht Hturn].
    change (requests s) with (c_requests (core s)).
    destruct Hturn as [id q H1 _ _ H4|a H1 H2|H1 [_ _ _ Ho _ _ _]|H1 [_ _ _ Ho _ _ _]]; [| |exact Ho..].
    + rewrite H1. by intros ? ? ? ? [<- _]%lookup_singleton_Some [<- _]%lookup_singleton_Some.
    + rewrite H1. by intros ? ? ? ? ?%lookup_empty_Some.
Qed.

(** C20: A consistent story.  Whatever happens, what a synchronizer tells is a sequence
    of sessions, each opened by the status in progress, then requests and progress,
    then exactly one status of its outcome with exactly one [finished], which says
    success precisely when that status is complete; no request, progress or outcome is
    told outside a session, in particular not by a timer that was still pending. *)
Theorem sessions_told_consistently T r l :
  0 ≤ T → Forall (λ o, at_ o ≤ T) l →
  let s := history uuid stops (idle r) l in
  toldAll Silent (out s) = Some (if active s then Busy else Silent).
Proof. intros HT Hl s. apply (history_waiting T r l HT Hl). Qed.

(** C4: Success is acknowledged.  A session is reported successful only if, while it ran,
    the peer answered its request with a receipt that names the very snapshot and the
    very manifest, the digest of all its local changes, that it announced last. *)
Theorem success_acknowledged T r l p e :
  0 ≤ T → Forall (λ o, at_ o ≤ T) l →
  let s := history uuid stops (idle r) l in
  last (out s) = Some (Finished p true e) →
  confirmed r l (generation s - 1) (snapshot s) (manifestId s).
Proof.
  intros HT Hl s Hs. destruct (history_waiting T r l HT Hl) as [Hb _]. fold s in Hb.
  assert (successful (core s)) as Hsuc by by exists p, e.
  pose proof (bk_acknowledged _ _ _ _ Hb (bk_success _ _ _ _ Hb Hsuc)) as He. unfold session in He.
  destruct (c_active (core s)) eqn:Ha; [|exact He].
  destruct (active_sound _ _ _ _ Hb Ha) as [_ Hn]. by destruct Hn.
Qed.
End facts.

(** ** A session, played *)
Module Examples.
(** A replica with nothing in it, whose two local changes come on two pages. *)
Definition pageOfChanges (after upper : Z) : jobj :=
  let more := (after =? 0) && ((upper =? 0) || (upper =? 2)) in
  obj [("ok", JBool true); ("entries", JArr []); ("next", JS (if more then "1" else "2")); ("through", JS "2");
       ("more", JBool more)]%string.
#[export] Instance blank : ReplicaOps := {|
  replica := unit; isOpen _ := true; errorString _ := []; replicaId _ := u "phone"; accountScope _ := u "account";
  binding r := (∅, r); bootstrapping r := (false, r); bindHost _ _ _ _ r := (true, r); completeBootstrap r := (true, r);
  peerState _ r := (∅, r); savePeerState _ _ _ _ _ r := (true, r); scan r := (true, r); namespaceState r := (∅, r);
  acceptJournal _ _ r := (true, r); acceptMetadata _ _ r := (true, r); record _ r := (∅, r); resident _ r := (false, r);
  objectMetadata _ r := (∅, r); requestedPaths r := ([], r); completeRequests r := (tt, r); publishStorageMap r := (true, r);
  missingPhotoIdentities r := ([], r); missingPreviews r := ([], r); savePreview _ _ r := (true, r);
  handle _ _ r := (obj [("ok", JBool true); ("offset", JS "0")]%string, r); changes after upper r := (pageOfChanges after upper, r)
|}.
Definition name (n : nat) : QString := replicate n 97%N.
#[export] Instance name_inj : Inj (=) (=) name.
Proof. intros n m E. apply (f_equal List.length) in E. unfold name in E. by rewrite !length_replicate in E. Qed.
Lemma blank_rounds after upper (r : replica) : let page := (changes after upper r).1 in
  toBool page.["ok"] = true → toBool page.["more"] = true →
  0 ≤ after < jlong page.["next"] ∧ jlong page.["next"] ≤ jlong page.["through"]
  ∧ (upper ≠ 0 → jlong page.["through"] = upper).
Proof.
  cbn [changes blank fst]. cbv zeta. intros _. unfold pageOfChanges. destruct ((after =? 0) && _) eqn:E; [|by vm_compute].
  intros _. bool_hyps. assert (after = 0) as -> by lia. split; [by vm_compute|]. split; [by vm_compute|].
  intros Hu. transitivity 2; [by vm_compute|]. lia.
Qed.

(** A host that agrees to everything and has the entries [l]. *)
Definition host : QString := u "11111111-2222-3333-4444-555555555555".
Definition container : QString := u "66666666-2222-3333-4444-555555555555".
Definition replyTo (l : list jval) (s : Session) (k : Callback) : jobj :=
  match k with
  | OnDescribe => obj [("ok", JBool true); ("protocol", JNum 2); ("namespaceVersion", JNum 1); ("manifestVersion", JNum 1);
      ("snapshotVersion", JNum 1); ("transferWindow", JNum 4); ("container", JStr container); ("replica", JStr host);
      ("namespace", JObj (obj [("role", JS "authority"); ("namespace", JStr container); ("authority", JStr host)]%string))]%string
  | OnPage _ _ => obj [("ok", JBool true); ("container", JStr container); ("replica", JStr host); ("entries", JArr l);
      ("next", JS "1"); ("through", JS "1"); ("more", JBool false)]%string
  | OnManifest => obj [("ok", JBool true); ("manifest", JStr (manifestId s)); ("next", JS "0"); ("complete", JBool true);
      ("snapshot", JObj (snapshot s)); ("diff", JObj ∅)]%string
  | OnSnapshot _ => obj [("ok", JBool true); ("receipt", JObj (obj [("snapshot", JObj (snapshot s));
      ("manifest", JStr (manifestId s)); ("replica", JS "phone"); ("container", JStr container)]%string))]%string
  | _ => obj [("ok", JBool true)]%string
  end.
Definition quietSlots (_ : nat) (_ : Signal) : bool := false.
Fixpoint answers (l : list jval) (n : nat) (s : Session) : list Occurrence :=
  match n, map_to_list (requests s) with
  | S n, (id, q) :: _ =>
      let o := occur 0 0 (Receive id (obj [("ok", JBool true); ("result", JObj (replyTo l s (callback q)))]%string)) in
      o :: answers l n (step name quietSlots s o)
  | _, _ => []
  end.
Definition opening : list Occurrence := [occur 0 0 (Start (u "h"))].
Definition playedWith (l : list jval) (n : nat) : list Occurrence := opening ++ answers l n (history name quietSlots (idle (tt : replica)) opening).
Lemma played_in_time l n : Forall (λ o, at_ o ≤ 0) (playedWith l n).
Proof.
  apply Forall_app. split; [by repeat constructor|]. generalize (history name quietSlots (idle (tt : replica)) opening).
  induction n as [|n IH]; intros s; [constructor|]. cbn [answers]. destruct (map_to_list (requests s)) as [|[id q] m]; [constructor|].
  constructor; [done|apply IH].
Qed.
Definition played : nat → list Occurrence := playedWith [].
Definition after (n : nat) : Session := history name quietSlots (idle (tt : replica)) (played n).
Example played_successfully : last (out (after 6)) = Some (Finished (u "h") true []).
Proof. by vm_compute. Qed.

Lemma one_thing_at_a_time_witness : active (after 3) = true ∧ scheduled (core (after 3)) = [] ∧ requests (after 3) ≠ ∅.
Proof.
  assert (Ha : active (after 3) = true) by by vm_compute.
  assert (Hn : bool_decide (scheduled (core (after 3)) = []) = true) by by vm_compute.
  apply bool_decide_eq_true in Hn.
  destruct (one_thing_at_a_time name quietSlots name_inj blank_rounds 0 tt (played 3)) as (H & _);
    [done|apply (played_in_time [])|].
  split; [exact Ha|split; [exact Hn|]]. destruct (H Ha) as (_ & [(_ & a & Hs)|[Hr _]]); [|exact Hr].
  unfold after in Hn. rewrite Hs in Hn. discriminate Hn.
Defined.
Lemma sessions_told_consistently_witness : toldAll Silent (out (after 3)) = Some Busy.
Proof.
  assert (Ha : active (after 3) = true) by by vm_compute.
  pose proof (sessions_told_consistently name quietSlots name_inj blank_rounds 0 tt (played 3) ltac:(done) (played_in_time [] 3)) as H.
  cbv zeta in H. fold (after 3) in H. rewrite Ha in H. exact H.
Defined.
Lemma success_acknowledged_witness :
  confirmed name quietSlots tt (played 6) 1 (snapshot (after 6)) (manifestId (after 6)).
Proof.
  exact (success_acknowledged name quietSlots name_inj blank_rounds 0 tt (played 6) (u "h") [] ltac:(done) (played_in_time [] 6)
    played_successfully).
Defined.
End Examples.
End SynchronizerFacts.
