(* ===== verification/SynchronizerOrder.v ===== *)
(** The order in which the peer answers does not matter: the chunks of a window are
    given to the replica, and reported, as if they had come in ascending order. *)
From S2P Require Import Prelude Qt Base64 Records Requests Synchronizer SynchronizerLaws SynchronizerTurns SynchronizerFacts Demo.
From coqutil Require Import Datatypes.RecordSetters.
Import OCamlLikeNotations.
Open Scope Z_scope.

Module SynchronizerOrder.
Import Records Synchronizer SynchronizerLaws SynchronizerTurns SynchronizerFacts.

(** ** Loops that take what has arrived
    [pop] is one round of such a loop, nothing when it ends; [put x] is the arrival of
    [x], [free x] says that nothing else arrived in its place. *)
Section settling.
Context {R : ReplicaOps} (pop : Session → option Session) (left : Session → nat).
Hypothesis pop_left : ∀ s s', pop s = Some s' → (left s' < left s)%nat.
Fixpoint loop (fuel : nat) (s : Session) : Session :=
  match fuel with
  | O => s
  | S fuel => match pop s with Some s' => loop fuel s' | None => s end
  end.
Definition settle (s : Session) : Session := loop (S (left s)) s.
Lemma loop_enough fuel s : (left s < fuel)%nat → loop fuel s = settle s.
Proof.
  unfold settle. generalize (Nat.lt_succ_diag_r (left s)). generalize (S (left s)). revert s.
  induction fuel as [|fuel IH]; intros s n Hn Hf; [lia|]. destruct n as [|n]; [lia|]. cbn [loop].
  destruct (pop s) as [s'|] eqn:E; [|done]. apply pop_left in E. apply IH; lia.
Qed.
Lemma settle_pop s s' : pop s = Some s' → settle s = settle s'.
Proof. intros E. unfold settle at 1. cbn [loop]. rewrite E. apply loop_enough. by apply pop_left. Qed.
Lemma settle_none s : pop s = None → settle s = s.
Proof. intros E. unfold settle. cbn [loop]. by rewrite E. Qed.
(** What every round keeps holds when the loop ends. *)
Lemma settle_keeps (P : Session → Prop) s : (∀ s s', P s → pop s = Some s' → P s') → P s → P (settle s).
Proof. intros HP. unfold settle. generalize (S (left s)) as n. intros n. revert s. induction n as [|n IH]; intros s Hs; [done|].
  cbn [loop]. destruct (pop s) eqn:E; [|done]. eauto.
Qed.

Context {A : Type} (put : A → Session → Session) (free : A → Session → Prop).
Hypothesis pop_inactive : ∀ s, active s = false → pop s = None.
Hypothesis pop_live : ∀ x s s', pop s = Some s' → free x s → active s' = true → pop (put x s) = Some (put x s') ∧ free x s'.
Hypothesis pop_dead : ∀ x s s', pop s = Some s' → free x s → active s' = false → pop (put x s) = Some s'.
(** An arrival during the loop or before it. *)
Lemma settle_put x s : free x s →
  settle (put x s) = (if active (settle s) then settle (put x (settle s)) else settle s) ∨ active s = false.
Proof.
  remember (left s) as n eqn:En. revert s En. induction n as [n IH] using lt_wf_ind. intros s -> Hf.
  destruct (pop s) as [s'|] eqn:E.
  - left. rewrite (settle_pop _ _ E). destruct (active s') eqn:Ha.
    + destruct (pop_live x _ _ E Hf Ha) as [E' Hf']. rewrite (settle_pop _ _ E').
      destruct (IH _ (pop_left _ _ E) s' eq_refl Hf') as [H|H]; [exact H|congruence].
    + rewrite (settle_pop _ _ (pop_dead x _ _ E Hf Ha)), (settle_none s') by by apply pop_inactive. by rewrite Ha.
  - rewrite (settle_none s E). destruct (active s); auto.
Qed.

(** *** A list of arrivals *)
Definition puts (l : list A) (s : Session) : Session := foldl (λ s x, put x s) s l.
Definition rest (a : Action) (s : Session) : Session := (whenDrained a s).2.
Context (a : Action) (deliver : A → Session → Session) (awaited : A → Session → Prop).
Hypothesis deliver_inactive : ∀ x s, active s = false → deliver x s = s.
Hypothesis deliver_active : ∀ x s, active s = true → awaited x s → free x s → deliver x s = rest a (settle (put x s)).
Hypothesis pop_awaited : ∀ x s s', awaited x s → pop s = Some s' → active s' = true → awaited x s'.
Hypothesis pop_pending : ∀ s s', pop s = Some s' → active s' = true → pendingChunks s' = pendingChunks s.
Hypothesis put_active : ∀ x s, active (put x s) = active s.
Hypothesis put_pending : ∀ x s, pendingChunks (put x s) = pendingChunks s - 1.
Hypothesis put_apart : ∀ x y s, x ≠ y → free x s → awaited x s → free y s → awaited y s →
  free x (put y s) ∧ awaited x (put y s) ∧ put x (put y s) = put y (put x s).

Lemma rest_inactive s : active s = false → rest a s = s.
Proof. intros Ha. unfold rest, whenDrained, bind, get. cbn [fst snd]. by rewrite Ha. Qed.
Lemma rest_pending s : pendingChunks s ≠ 0 → rest a s = s.
Proof.
  intros Hp. unfold rest, whenDrained, bind, get. cbn [fst snd]. apply Z.eqb_neq in Hp. rewrite Hp.
  by destruct (active s).
Qed.
Definition ready (l : list A) (s : Session) : Prop :=
  NoDup l ∧ ∀ x, x ∈ l → free x s ∧ awaited x s.
Lemma ready_puts x l s : ready (l ++ [x]) s → free x (puts l s) ∧ awaited x (puts l s).
Proof.
  revert s. induction l as [|y l IH]; intros s [Hd Hl]; [by apply Hl; left|].
  apply (IH (put y s)). apply NoDup_cons in Hd as [Hy Hd]. split; [exact Hd|]. intros z Hz.
  destruct (Hl z) as [Hz1 Hz2]; [by right|]. destruct (Hl y) as [Hy1 Hy2]; [by left|].
  destruct (put_apart z y s) as (? & ? & _); try done. by intros ->.
Qed.
Lemma ready_init x l s : ready (l ++ [x]) s → ready l s.
Proof. intros [Hd Hl]. apply NoDup_app in Hd as (Hd & _). split; [done|]. intros y Hy. apply Hl. apply elem_of_app. by left. Qed.
Lemma puts_active l s : active (puts l s) = active s.
Proof. revert s. induction l as [|x l IH]; intros s; [done|]. change (puts (x :: l) s) with (puts l (put x s)). rewrite IH. apply put_active. Qed.
Lemma puts_pending l s : pendingChunks (puts l s) = pendingChunks s - Z.of_nat (List.length l).
Proof. revert s. induction l as [|x l IH]; intros s; cbn [List.length]; [cbn; lia|]. change (puts (x :: l) s) with (puts l (put x s)). rewrite IH, put_pending. lia. Qed.
(** Delivered one by one, each followed by the loop, or all at once. *)
Lemma deliver_all l s : active s = true → pop s = None → ready l s → Z.of_nat (List.length l) ≤ pendingChunks s →
  pendingChunks s ≠ 0 → foldl (λ s x, deliver x s) s l = rest a (settle (puts l s)).
Proof.
  intros Ha Hs. induction l as [|x l IH] using rev_ind; intros Hr Hn Hp.
  { change (puts [] s) with s. by rewrite settle_none, rest_pending by done. }
  rewrite length_app in Hn. cbn in Hn. rewrite foldl_app. cbn [foldl]. rewrite IH; [|by eapply ready_init|lia|done].
  destruct (ready_puts _ _ _ Hr) as [Hfree Haw]. unfold puts. rewrite foldl_app. cbn [foldl]. fold (puts l s).
  assert (Hpl : pendingChunks (puts l s) ≠ 0) by (rewrite puts_pending; lia).
  assert (Hal : active (puts l s) = true) by by rewrite puts_active.
  set (p := puts l s) in *. clearbody p. pose proof (settle_put x p Hfree) as [Hput|?]; [|congruence].
  destruct (active (settle p)) eqn:Et.
  - assert (Hkeep : active (settle p) = true → free x (settle p) ∧ awaited x (settle p) ∧ pendingChunks (settle p) ≠ 0).
    { apply (settle_keeps (λ s, active s = true → free x s ∧ awaited x s ∧ pendingChunks s ≠ 0)); [|done].
      intros u v Hu E Hv. assert (active u = true) as Hau.
      { destruct (active u) eqn:Eu; [done|]. rewrite pop_inactive in E; done. }
      destruct (Hu Hau) as (H1 & H2 & H3). split_and!.
      - by apply (pop_live x _ _ E H1 Hv).
      - by eapply pop_awaited.
      - by rewrite (pop_pending _ _ E Hv). }
    destruct (Hkeep Et) as (H1 & H2 & H3). rewrite (rest_pending _ H3), deliver_active by done. by rewrite <- Hput.
  - rewrite Hput, (rest_inactive _ Et). by apply deliver_inactive.
Qed.
Lemma puts_permutation l l' s : l ≡ₚ l' → ready l s → puts l s = puts l' s.
Proof.
  intros Hp. revert s. induction Hp as [|x l l' Hp IH|x y l|l l1 l2 Hp1 IH1 Hp2 IH2]; intros s [Hd Hl]; [done|..].
  - apply (IH (put x s)). apply NoDup_cons in Hd as [Hx Hd]. split; [done|]. intros z Hz. destruct (Hl z) as [? ?]; [by right|].
    destruct (Hl x) as [? ?]; [by left|]. destruct (put_apart z x s) as (? & ? & _); try done. by intros ->.
  - apply NoDup_cons in Hd as [Hx Hd]. destruct (Hl x) as [? ?]; [by right; left|]. destruct (Hl y) as [? ?]; [by left|].
    assert (x ≠ y) as Hne by (intros ->; apply Hx; left). change (puts l (put x (put y s)) = puts l (put y (put x s))).
    by destruct (put_apart x y s Hne) as (_ & _ & ->).
  - rewrite IH1 by done. apply IH2. split; [by rewrite <- Hp1|]. intros z Hz. apply Hl. by rewrite Hp1.
Qed.
Lemma deliver_any_order l l' s : active s = true → pop s = None → ready l s → Z.of_nat (List.length l) ≤ pendingChunks s →
  pendingChunks s ≠ 0 → l ≡ₚ l' → foldl (λ s x, deliver x s) s l = foldl (λ s x, deliver x s) s l'.
Proof.
  intros Ha Hs Hr Hn Hp Hl. rewrite (deliver_all l) by done. rewrite (puts_permutation l l') by done.
  symmetry. apply deliver_all; try done.
  - destruct Hr as [Hd Hx]. split; [by rewrite <- Hl|]. intros x Hin. apply Hx. by rewrite Hl.
  - by rewrite <- Hl.
Qed.
End settling.

Section windows.
Context {PF : Platform} {R : ReplicaOps} (uuid : nat → QString) (stops : nat → Signal → bool).
(** What the peer answers to each request, and the size of the file. *)
Context (answer : QString → jobj) (z : Z).
Definition resultOf (id : QString) : jobj := toObj (answer id).["result"].
(** An answer that is there and accepted. *)
Definition positive (id : QString) : Prop :=
  toBool (answer id).["ok"] = true ∧ toBool (answer id).["pending"] = false ∧ (answer id).["result"] = JObj (resultOf id)
  ∧ toBool (resultOf id).["ok"] = true.
Notation "'let*' x ':=' a 'in' b" := (bind a (fun x => b))
  (at level 10, x pattern, a at level 100, b at level 200, only parsing).
Notation "a ;; b" := (bind a (fun _ => b)) (at level 100, b at level 200, right associativity, only parsing).

Lemma receive_positive id q s : active s = true → requests s !! id = Some q → positive id →
  receive uuid stops id (answer id) s = resume uuid stops (callback q) (resultOf id) { s with requests := delete id (requests s) }.
Proof.
  intros Ha Hq (H1 & H2 & H3 & _). unfold receive, bind, get, modify. cbn [fst snd]. by rewrite Hq, Ha, H1, H2, H3.
Qed.
Lemma receive_inactive id s : active s = false → (receive uuid stops id (answer id) s).2 = s.
Proof. intros Ha. unfold receive, bind, get, modify. cbn [fst snd]. destruct (requests s !! id); [|done]. by rewrite Ha. Qed.
Lemma accepted_true r s : toBool r.["ok"] = true → accepted r s = (true, s).
Proof. intros H. unfold accepted. by rewrite H. Qed.
Lemma accepted_false r s : toBool r.["ok"] = false → (accepted r s).1 = false ∧ (active s = true → active (accepted r s).2 = false).
Proof.
  intros H. unfold accepted, bind. rewrite H. split; [done|]. intros Ha. unfold fail, bind, get. cbn [fst snd].
  rewrite Ha. by destruct s.
Qed.

(** *** Reading *)
Definition readBody (chunk : jobj) : M unit :=
  let* s := get in
  modify (λ s, { s with receivedChunks := delete (offset s) (receivedChunks s) }) ;;
  let* r := call (handle (peer s) (obj [("action", JS "chunk"); ("entry", JObj (current s));
                    ("offset", jnum (offset s)); ("data", chunk.["data"])]%string)) in
  let* ok := accepted r in
  if negb ok then ret tt else
  let next := offset s + bytesLeft z (offset s) in
  modify (λ s, { s with offset := next; transferredInSlice := true }) ;;
  emit stops (Progress (toStr (current s).["path"]) next z).
Definition popRead (s : Session) : option Session :=
  match receivedChunks s !! offset s with
  | Some chunk => if active s then Some (readBody chunk s).2 else None
  | None => None
  end.
Definition readPlace (id : QString) (s : Session) : Z :=
  match requests s !! id with
  | Some q => match callback q with OnRead _ p => p | _ => 0 end
  | None => 0
  end.
Definition putRead (id : QString) (s : Session) : Session :=
  { s with requests := delete id (requests s); receivedChunks := <[readPlace id s := resultOf id]> (receivedChunks s);
           pendingChunks := pendingChunks s - 1 }.
Definition freeRead (id : QString) (s : Session) : Prop := receivedChunks s !! readPlace id s = None.
Definition awaitedRead (id : QString) (s : Session) : Prop :=
  ∃ q p, requests s !! id = Some q ∧ callback q = OnRead z p ∧ positive id
    ∧ validChunk (current s) (resultOf id) z p = true
    ∧ ∀ id' q', requests s !! id' = Some q' → callback q' = OnRead z p → id' = id.

(** What one round leaves: the chunk is written and reported, or the session is over. *)
Lemma readBody_outcome chunk s : active s = true →
  let s1 := { s with receivedChunks := delete (offset s) (receivedChunks s) } in
  let h := handle (peer s) (obj [("action", JS "chunk"); ("entry", JObj (current s));
                    ("offset", jnum (offset s)); ("data", chunk.["data"])]%string) (store s1) in
  let s2 := { s1 with store := h.2 } in
  let next := offset s + bytesLeft z (offset s) in
  (readBody chunk s).2 =
    if toBool h.1.["ok"] then (emit stops (Progress (toStr (current s).["path"]) next z) { s2 with offset := next; transferredInSlice := true }).2
    else (accepted h.1 s2).2.
Proof.
  intros Ha s1 h s2 next. unfold readBody, bind, get, modify, call. cbn [fst snd]. fold s1. fold h. fold s2. fold next.
  destruct (toBool h.1.["ok"]) eqn:Eo; [by rewrite !accepted_true by done|]. by destruct (accepted_false h.1 s2 Eo) as [-> _].
Qed.
Lemma drainReads_loop fuel s : (drainReads stops fuel z s).2 = loop popRead fuel s.
Proof.
  revert s. induction fuel as [|fuel IH]; intros s; [done|]. cbn [drainReads]. unfold bind at 1, get. cbn [fst snd].
  transitivity (match popRead s with Some s' => loop popRead fuel s' | None => s end); [|done].
  unfold popRead at 1. destruct (receivedChunks s !! offset s) as [chunk|]; [|done]. destruct (active s) eqn:Ha; [|done].
  rewrite (readBody_outcome chunk s Ha). cbn [negb]. unfold bind, get, modify, call. cbn [fst snd].
  set (h := handle _ _ _). set (s1 := { _ with store := _ }). assert (active s1 = true) as Ha1 by by destruct s.
  clearbody h s1. destruct (toBool h.1.["ok"]) eqn:Er.
  - rewrite !accepted_true by done. cbn [fst snd negb]. apply IH.
  - destruct (accepted_false h.1 s1 Er) as [-> Hs]. cbn [negb]. unfold ret. cbn [snd]. destruct fuel; [done|].
    cbn [loop]. unfold popRead. rewrite Hs by done. by destruct (_ !! _).
Qed.

(** The end of a session forgets what arrived. *)
Definition cleared (s : Session) : Session :=
  { s with requests := ∅; pendingChunks := 0; receivedChunks := ∅; acknowledgedChunks := ∅ }.
Lemma conclude_cleared ok e s : (conclude ok e s).2 = (conclude ok e (cleared s)).2.
Proof. by destruct s. Qed.
Lemma emit_goes x s : stops (List.length (out s)) x = false → (emit stops x s).2 = { s with out := out s ++ [x] }.
Proof. intros H. unfold emit, say, bind, get, modify. cbn [fst snd]. by rewrite H. Qed.
Lemma emit_stops x s : active s = true → stops (List.length (out s)) x = true →
  (emit stops x s).2 = (conclude false (u "cancelled") { s with out := out s ++ [x] }).2.
Proof.
  intros Ha H. unfold emit, say, stop, fail, bind, get, modify. cbn [fst snd]. rewrite H.
  change (active { s with out := out s ++ [x] }) with (active s). by rewrite Ha.
Qed.
Lemma accepted_ends r s : active s = true → toBool r.["ok"] = false →
  (accepted r s).2 = (conclude false (toStrOr (u "sync_request_failed") r.["error"]) s).2.
Proof. intros Ha H. unfold accepted, fail, bind, get, ret. cbn [fst snd]. by rewrite H, Ha. Qed.
Lemma conclude_inactive ok e s : active (conclude ok e s).2 = false.
Proof. by destruct s. Qed.

Lemma popRead_some s s' : popRead s = Some s' →
  ∃ chunk, receivedChunks s !! offset s = Some chunk ∧ active s = true ∧ s' = (readBody chunk s).2.
Proof. unfold popRead. destruct (_ !! _); [|done]. destruct (active s); [|done]. intros [= <-]. eauto. Qed.
(** A round that goes on, and a round that ends the session. *)
Lemma readBody_cases chunk s : active s = true →
  let h := handle (peer s) (obj [("action", JS "chunk"); ("entry", JObj (current s));
                    ("offset", jnum (offset s)); ("data", chunk.["data"])]%string) (store s) in
  let next := offset s + bytesLeft z (offset s) in
  let x := Progress (toStr (current s).["path"]) next z in
  let s3 := { s with receivedChunks := delete (offset s) (receivedChunks s); store := h.2; offset := next; transferredInSlice := true } in
  (readBody chunk s).2 =
    if toBool h.1.["ok"] then
      if stops (List.length (out s)) x then (conclude false (u "cancelled") (cleared { s3 with out := out s ++ [x] })).2
      else { s3 with out := out s ++ [x] }
    else (conclude false (toStrOr (u "sync_request_failed") h.1.["error"]) (cleared { s with store := h.2 })).2.
Proof.
  intros Ha h next x s3. rewrite readBody_outcome by done. fold next. fold x.
  change (handle _ _ _) with h. destruct (toBool h.1.["ok"]) eqn:Eo.
  - change { _ with offset := next; transferredInSlice := true } with s3. destruct (stops _ x) eqn:Es.
    + rewrite emit_stops by done. apply conclude_cleared.
    + by rewrite emit_goes.
  - rewrite accepted_ends by done. by rewrite conclude_cleared.
Qed.
Lemma popRead_left s s' : popRead s = Some s' → (base.size (receivedChunks s') < base.size (receivedChunks s))%nat.
Proof.
  intros (chunk & El & Ha & ->)%popRead_some. pose proof (map_size_ne_0_lookup_2 _ _ (mk_is_Some _ _ El)) as Hn.
  rewrite readBody_cases by done. destruct (toBool _); [destruct (stops _ _)|].
  1,3: change (base.size (∅ : gmap Z jobj) < base.size (receivedChunks s))%nat; rewrite map_size_empty; lia.
  change (base.size (delete (offset s) (receivedChunks s)) < base.size (receivedChunks s))%nat.
  rewrite map_size_delete_Some by done. lia.
Qed.
Lemma popRead_put id s s' : popRead s = Some s' → freeRead id s →
  if active s' then popRead (putRead id s) = Some (putRead id s') ∧ freeRead id s' else popRead (putRead id s) = Some s'.
Proof.
  intros (chunk & El & Ha & Es')%popRead_some Hf. unfold freeRead in Hf.
  assert (readPlace id s ≠ offset s) as Hne by (intros E; rewrite E in Hf; congruence).
  rewrite readBody_cases in Es' by done.
  assert (Hp : popRead (putRead id s) = Some (readBody chunk (putRead id s)).2).
  { unfold popRead. change (receivedChunks (putRead id s)) with (<[readPlace id s := resultOf id]> (receivedChunks s)).
    change (offset (putRead id s)) with (offset s). rewrite lookup_insert_ne, El by done. change (active (putRead id s)) with (active s).
    by rewrite Ha. }
  rewrite Hp, readBody_cases by done. subst s'.
  change (store (putRead id s)) with (store s). change (current (putRead id s)) with (current s).
  change (offset (putRead id s)) with (offset s). change (peer (putRead id s)) with (peer s). change (out (putRead id s)) with (out s).
  set (h := handle _ _ _). destruct (toBool h.1.["ok"]); [destruct (stops _ _)|].
  - by destruct s.
  - match goal with |- if active ?t then _ else _ => change (active t) with (active s) end. rewrite Ha. split.
    + change (receivedChunks (putRead id s)) with (<[readPlace id s := resultOf id]> (receivedChunks s)).
      rewrite delete_insert_ne by done. by destruct s.
    + unfold freeRead. match goal with |- receivedChunks ?t !! readPlace id ?t = None =>
        change (readPlace id t) with (readPlace id s); change (receivedChunks t) with (delete (offset s) (receivedChunks s)) end.
      rewrite lookup_delete_ne by done. exact Hf.
  - by destruct s.
Qed.
Lemma popRead_live s s' : popRead s = Some s' → active s' = true →
  requests s' = requests s ∧ current s' = current s ∧ pendingChunks s' = pendingChunks s.
Proof.
  intros (chunk & El & Ha & ->)%popRead_some. rewrite readBody_cases by done. destruct (toBool _); [destruct (stops _ _)|].
  1,3: by rewrite conclude_inactive. done.
Qed.
Definition readLeft (s : Session) : nat := base.size (receivedChunks s).
Lemma onRead_settles id s : active s = true → awaitedRead id s →
  (receive uuid stops id (answer id) s).2 = rest PullChunk (settle popRead readLeft (putRead id s)).
Proof.
  intros Ha (q & p & Hq & Hk & Hpos & Hv & _). rewrite (receive_positive id q s) by done. rewrite Hk. cbn [resume].
  unfold onRead, bind at 1. rewrite accepted_true by apply Hpos. cbn [fst snd negb]. unfold bind at 1, get at 1. cbn [fst snd].
  change (current { s with requests := delete id (requests s) }) with (current s). rewrite Hv. cbn [negb].
  unfold bind, get, modify. cbn [fst snd]. rewrite drainReads_loop. unfold rest, settle, readLeft.
  replace p with (readPlace id s) by (unfold readPlace; by rewrite Hq, Hk). done.
Qed.
Lemma putRead_apart x y s : x ≠ y → freeRead x s → awaitedRead x s → freeRead y s → awaitedRead y s →
  freeRead x (putRead y s) ∧ awaitedRead x (putRead y s) ∧ putRead x (putRead y s) = putRead y (putRead x s).
Proof.
  intros Hne Hfx (q & p & Hq & Hk & Hpos & Hv & Hu) Hfy (q' & p' & Hq' & Hk' & _).
  assert (readPlace x s = p) as Ex by (unfold readPlace; by rewrite Hq, Hk).
  assert (readPlace y s = p') as Ey by (unfold readPlace; by rewrite Hq', Hk').
  assert (p ≠ p') as Hp by (intros <-; destruct Hne; symmetry; by eapply Hu).
  assert (Hx : readPlace x (putRead y s) = p).
  { unfold readPlace. change (requests (putRead y s)) with (delete y (requests s)). by rewrite lookup_delete_ne, Hq, Hk. }
  assert (Hy : readPlace y (putRead x s) = p').
  { unfold readPlace. change (requests (putRead x s)) with (delete x (requests s)). by rewrite lookup_delete_ne, Hq', Hk'. }
  split_and!.
  - unfold freeRead in *. rewrite Hx. change (<[readPlace y s := resultOf y]> (receivedChunks s) !! p = None).
    rewrite Ey, lookup_insert_ne by done. by rewrite <- Ex.
  - exists q, p. split_and!; try done.
    + change (delete y (requests s) !! x = Some q). by rewrite lookup_delete_ne.
    + change (requests (putRead y s)) with (delete y (requests s)). intros id r [_ Hr]%lookup_delete_Some Hc. by eapply Hu.
  - unfold putRead at 1 3. rewrite Hx, Hy. unfold putRead. rewrite Ex, Ey. destruct s. cbn.
    f_equal; [apply delete_delete|]. unfold constant. by rewrite insert_insert_ne.
Qed.
(** The replies of a window of reads, in any order. *)
Lemma reads_any_order l l' s : active s = true → receivedChunks s !! offset s = None → NoDup l →
  (∀ id, id ∈ l → freeRead id s ∧ awaitedRead id s) → Z.of_nat (List.length l) ≤ pendingChunks s → pendingChunks s ≠ 0 → l ≡ₚ l' →
  foldl (λ s id, (receive uuid stops id (answer id) s).2) s l = foldl (λ s id, (receive uuid stops id (answer id) s).2) s l'.
Proof.
  intros Ha Ho Hd Hl Hn Hp Hperm.
  apply (deliver_any_order popRead readLeft popRead_left putRead freeRead) with (a := PullChunk) (awaited := awaitedRead); try done.
  - intros t Ht. unfold popRead. destruct (receivedChunks t !! offset t); [|done]. by rewrite Ht.
  - intros x t t' E Hf Hx. pose proof (popRead_put x t t' E Hf) as H. by rewrite Hx in H.
  - intros x t t' E Hf Hx. pose proof (popRead_put x t t' E Hf) as H. by rewrite Hx in H.
  - intros. by apply receive_inactive.
  - intros. by apply onRead_settles.
  - intros x t t' (q & p & H1 & H2 & H3 & H4 & H5) E Hx. destruct (popRead_live t t' E Hx) as (E1 & E2 & _).
    exists q, p. rewrite E1, E2. done.
  - intros t t' E Hx. by apply popRead_live.
  - apply putRead_apart.
  - unfold popRead. by rewrite Ho.
Qed.

(** *** Writing *)
Definition ackBody (next : Z) : M unit :=
  let* s := get in
  modify (λ s, { s with acknowledgedChunks := delete (offset s) (acknowledgedChunks s) }) ;;
  modify (λ s, { s with offset := next; transferredInSlice := true }) ;;
  emit stops (Progress (toStr (current s).["path"]) next z).
Definition popAck (s : Session) : option Session :=
  match acknowledgedChunks s !! offset s with
  | Some next => if active s then Some (ackBody next s).2 else None
  | None => None
  end.
Definition ackPlace (id : QString) (s : Session) : Z * Z :=
  match requests s !! id with
  | Some q => match callback q with OnChunk p n _ => (p, n) | _ => (0, 0) end
  | None => (0, 0)
  end.
Definition putAck (id : QString) (s : Session) : Session :=
  { s with requests := delete id (requests s);
           acknowledgedChunks := <[(ackPlace id s).1 := (ackPlace id s).2]> (acknowledgedChunks s);
           pendingChunks := pendingChunks s - 1 }.
Definition freeAck (id : QString) (s : Session) : Prop := acknowledgedChunks s !! (ackPlace id s).1 = None.
Definition awaitedAck (id : QString) (s : Session) : Prop :=
  ∃ q p n, requests s !! id = Some q ∧ callback q = OnChunk p n z ∧ positive id
    ∧ toStr (resultOf id).["offset"] = numberStr n
    ∧ ∀ id' q' n', requests s !! id' = Some q' → callback q' = OnChunk p n' z → id' = id.
Definition ackLeft (s : Session) : nat := base.size (acknowledgedChunks s).

Lemma drainChunks_loop fuel s : (drainChunks stops fuel z s).2 = loop popAck fuel s.
Proof.
  revert s. induction fuel as [|fuel IH]; intros s; [done|]. cbn [drainChunks]. unfold bind at 1, get. cbn [fst snd].
  transitivity (match popAck s with Some s' => loop popAck fuel s' | None => s end); [|done].
  unfold popAck at 1. destruct (acknowledgedChunks s !! offset s) as [next|]; [|done]. destruct (active s); [|done]. apply IH.
Qed.
Lemma popAck_some s s' : popAck s = Some s' →
  ∃ next, acknowledgedChunks s !! offset s = Some next ∧ active s = true ∧ s' = (ackBody next s).2.
Proof. unfold popAck. destruct (_ !! _); [|done]. destruct (active s); [|done]. intros [= <-]. eauto. Qed.
Lemma ackBody_cases next s : active s = true →
  let x := Progress (toStr (current s).["path"]) next z in
  let s3 := { s with acknowledgedChunks := delete (offset s) (acknowledgedChunks s); offset := next; transferredInSlice := true } in
  (ackBody next s).2 =
    if stops (List.length (out s)) x then (conclude false (u "cancelled") (cleared { s3 with out := out s ++ [x] })).2
    else { s3 with out := out s ++ [x] }.
Proof.
  intros Ha x s3. change (ackBody next s).2 with (emit stops x s3).2. destruct (stops _ x) eqn:Es.
  - rewrite emit_stops by done. apply conclude_cleared.
  - by rewrite emit_goes.
Qed.
Lemma popAck_left s s' : popAck s = Some s' → (ackLeft s' < ackLeft s)%nat.
Proof.
  intros (next & El & Ha & ->)%popAck_some. pose proof (map_size_ne_0_lookup_2 _ _ (mk_is_Some _ _ El)) as Hn.
  rewrite ackBody_cases by done. destruct (stops _ _).
  - change (base.size (∅ : gmap Z Z) < base.size (acknowledgedChunks s))%nat. rewrite map_size_empty. lia.
  - change (base.size (delete (offset s) (acknowledgedChunks s)) < base.size (acknowledgedChunks s))%nat.
    rewrite map_size_delete_Some by done. lia.
Qed.
Lemma popAck_put id s s' : popAck s = Some s' → freeAck id s →
  if active s' then popAck (putAck id s) = Some (putAck id s') ∧ freeAck id s' else popAck (putAck id s) = Some s'.
Proof.
  intros (next & El & Ha & Es')%popAck_some Hf. unfold freeAck in Hf.
  assert ((ackPlace id s).1 ≠ offset s) as Hne by (intros E; rewrite E in Hf; congruence).
  rewrite ackBody_cases in Es' by done.
  assert (Hp : popAck (putAck id s) = Some (ackBody next (putAck id s)).2).
  { unfold popAck. change (acknowledgedChunks (putAck id s)) with (<[(ackPlace id s).1 := (ackPlace id s).2]> (acknowledgedChunks s)).
    change (offset (putAck id s)) with (offset s). rewrite lookup_insert_ne, El by done. change (active (putAck id s)) with (active s).
    by rewrite Ha. }
  rewrite Hp, ackBody_cases by done. subst s'.
  change (current (putAck id s)) with (current s). change (offset (putAck id s)) with (offset s).
  change (out (putAck id s)) with (out s). destruct (stops _ _).
  - by destruct s.
  - match goal with |- if active ?t then _ else _ => change (active t) with (active s) end. rewrite Ha. split.
    + change (acknowledgedChunks (putAck id s)) with (<[(ackPlace id s).1 := (ackPlace id s).2]> (acknowledgedChunks s)).
      rewrite delete_insert_ne by done. by destruct s.
    + unfold freeAck. match goal with |- acknowledgedChunks ?t !! (ackPlace id ?t).1 = None =>
        change (ackPlace id t) with (ackPlace id s); change (acknowledgedChunks t) with (delete (offset s) (acknowledgedChunks s)) end.
      rewrite lookup_delete_ne by done. exact Hf.
Qed.
Lemma popAck_live s s' : popAck s = Some s' → active s' = true →
  requests s' = requests s ∧ pendingChunks s' = pendingChunks s.
Proof. intros (next & El & Ha & ->)%popAck_some. rewrite ackBody_cases by done. destruct (stops _ _); [by rewrite conclude_inactive|done]. Qed.
Lemma onChunk_settles id s : active s = true → awaitedAck id s →
  (receive uuid stops id (answer id) s).2 = rest PushChunk (settle popAck ackLeft (putAck id s)).
Proof.
  intros Ha (q & p & n & Hq & Hk & Hpos & Hv & _). rewrite (receive_positive id q s) by done. rewrite Hk. cbn [resume].
  unfold onChunk, bind at 1. rewrite accepted_true by apply Hpos. cbn [fst snd negb]. rewrite bool_decide_eq_false_2 by exact (λ H, H Hv).
  unfold bind, get, modify. cbn [fst snd]. rewrite drainChunks_loop. unfold rest, settle, ackLeft.
  replace (ackPlace id s) with (p, n) by (unfold ackPlace; by rewrite Hq, Hk). unfold putAck.
  replace (ackPlace id s) with (p, n) by (unfold ackPlace; by rewrite Hq, Hk). done.
Qed.
Lemma putAck_apart x y s : x ≠ y → freeAck x s → awaitedAck x s → freeAck y s → awaitedAck y s →
  freeAck x (putAck y s) ∧ awaitedAck x (putAck y s) ∧ putAck x (putAck y s) = putAck y (putAck x s).
Proof.
  intros Hne Hfx (q & p & n & Hq & Hk & Hpos & Hv & Hu) Hfy (q' & p' & n' & Hq' & Hk' & _).
  assert (ackPlace x s = (p, n)) as Ex by (unfold ackPlace; by rewrite Hq, Hk).
  assert (ackPlace y s = (p', n')) as Ey by (unfold ackPlace; by rewrite Hq', Hk').
  assert (p ≠ p') as Hp by (intros <-; destruct Hne; symmetry; by eapply Hu).
  assert (Hx : ackPlace x (putAck y s) = (p, n)).
  { unfold ackPlace. change (requests (putAck y s)) with (delete y (requests s)). by rewrite lookup_delete_ne, Hq, Hk. }
  assert (Hy : ackPlace y (putAck x s) = (p', n')).
  { unfold ackPlace. change (requests (putAck x s)) with (delete x (requests s)). by rewrite lookup_delete_ne, Hq', Hk'. }
  split_and!.
  - unfold freeAck in *. rewrite Hx. change (<[(ackPlace y s).1 := (ackPlace y s).2]> (acknowledgedChunks s) !! p = None).
    rewrite Ey, lookup_insert_ne by done. by rewrite Ex in Hfx.
  - exists q, p, n. split_and!; try done.
    + change (delete y (requests s) !! x = Some q). by rewrite lookup_delete_ne.
    + change (requests (putAck y s)) with (delete y (requests s)). intros id r m [_ Hr]%lookup_delete_Some Hc. by eapply Hu.
  - unfold putAck at 1 3. rewrite Hx, Hy. unfold putAck. rewrite Ex, Ey. destruct s. cbn.
    f_equal; [apply delete_delete|]. unfold constant. by rewrite insert_insert_ne.
Qed.
(** The replies of a window of writes, in any order. *)
Lemma writes_any_order l l' s : active s = true → acknowledgedChunks s !! offset s = None → NoDup l →
  (∀ id, id ∈ l → freeAck id s ∧ awaitedAck id s) → Z.of_nat (List.length l) ≤ pendingChunks s → pendingChunks s ≠ 0 → l ≡ₚ l' →
  foldl (λ s id, (receive uuid stops id (answer id) s).2) s l = foldl (λ s id, (receive uuid stops id (answer id) s).2) s l'.
Proof.
  intros Ha Ho Hd Hl Hn Hp Hperm.
  apply (deliver_any_order popAck ackLeft popAck_left putAck freeAck) with (a := PushChunk) (awaited := awaitedAck); try done.
  - intros t Ht. unfold popAck. destruct (acknowledgedChunks t !! offset t); [|done]. by rewrite Ht.
  - intros x t t' E Hf Hx. pose proof (popAck_put x t t' E Hf) as H. by rewrite Hx in H.
  - intros x t t' E Hf Hx. pose proof (popAck_put x t t' E Hf) as H. by rewrite Hx in H.
  - intros. by apply receive_inactive.
  - intros. by apply onChunk_settles.
  - intros x t t' (q & p & n & H1 & H2 & H3 & H4 & H5) E Hx. destruct (popAck_live t t' E Hx) as (E1 & _).
    exists q, p, n. rewrite E1. done.
  - intros t t' E Hx. by apply popAck_live.
  - apply putAck_apart.
  - unfold popAck. by rewrite Ho.
Qed.
End windows.

Section facts.
Context {PF : Platform} {R : ReplicaOps} (uuid : nat → QString) (stops : nat → Signal → bool).
Context (uuid_inj : Inj (=) (=) uuid).
Context (rounds : ∀ after upper r, let page := (changes after upper r).1 in
  toBool page.["ok"] = true → toBool page.["more"] = true →
  0 ≤ after < jlong page.["next"] ∧ jlong page.["next"] ≤ jlong page.["through"]
  ∧ (upper ≠ 0 → jlong page.["through"] = upper)).
Context (answer : QString → jobj).

(** The request [id] of the session asks for a chunk, and its answer fits: the bytes of
    that chunk in a download, the end of that chunk in an upload. *)
Definition fits (s : Session) (id : QString) : Prop :=
  positive answer id ∧ ∃ q, requests s !! id = Some q ∧
  match callback q with
  | OnRead z p => validChunk (current s) (resultOf answer id) z p = true
  | OnChunk p n z => toStr (resultOf answer id).["offset"] = numberStr n
  | _ => False
  end.
Definition receiveAll (s : Session) (ids : list QString) : Session :=
  foldl (λ s id, (receive uuid stops id (answer id) s).2) s ids.

Lemma keys_fit (m : gmap QString Request) l : NoDup l → (∀ id, id ∈ l → is_Some (m !! id)) → (List.length l ≤ base.size m)%nat.
Proof.
  intros Hd Hl. rewrite <- (size_list_to_set (C := gset QString) l Hd), <- size_dom. apply subseteq_size.
  intros x Hx%elem_of_list_to_set. by apply elem_of_dom, Hl.
Qed.

(** C15: Order does not matter.  When a session waits for the chunks of a window and
    every answer of the peer fits (it accepts, and brings the bytes of the very chunk
    that was asked for in a download, or the end of the very chunk that was sent in an
    upload; a refusal ends the session, and is not covered), the answers may arrive in
    any order: whatever the slots connected to the signals do, and whether or not the
    replica takes every chunk, the session and the replica end in the same state, the
    same calls of the replica were made and the same signals were sent.  Identifiers
    are unique, and a page of the replica's changes that announces more moves its
    cursor, which holds when every record fits a page. *)
Theorem chunks_in_order T r h ids ids' :
  0 ≤ T → Forall (λ o, at_ o ≤ T) h →
  let s := history uuid stops (idle r) h in
  active s = true → NoDup ids → (∀ id, id ∈ ids → fits s id) → ids ≡ₚ ids' →
  receiveAll s ids = receiveAll s ids'.
Proof.
  intros HT Hh s Ha Hd Hf Hp. destruct ids as [|id ids]; [by apply Permutation_nil_l in Hp as ->|].
  destruct (Hf id) as (_ & q & Hq & Hk); [by left|].
  destruct (history_waiting uuid stops uuid_inj rounds T r h HT Hh) as [Hb Hw]. fold s in Hb, Hw.
  assert (Hsize : Z.of_nat (List.length (id :: ids)) ≤ Z.of_nat (base.size (requests s))).
  { apply inj_le, keys_fit; [done|]. intros i Hi. destruct (Hf i Hi) as (_ & ? & ? & _). eauto. }
  destruct (Hw Ha) as [_ [i r' E1 E2 _ _ _ _ _|a E1 _ _ _ _ _|_ Hfl Ho Hpe _|_ Hfl Ho Hpe _ _]]; change (c_requests (core s)) with (requests s) in *.
  - rewrite E1 in Hq. apply lookup_singleton_Some in Hq as [-> ->]. by destruct (callback q).
  - by rewrite E1 in Hq.
  - change (c_received (core s)) with (receivedChunks s) in *. change (c_offset (core s)) with (offset s) in *.
    pose proof (fl_pending _ _ _ Hfl : pendingChunks s = Z.of_nat (base.size (requests s))) as Hpd. rewrite <- Hpd in Hsize.
    apply (reads_any_order uuid stops answer (c_size (core s))); try done; [by apply not_elem_of_dom|].
    intros x Hx. destruct (Hf x Hx) as (Hpos & qx & Hqx & Hv). destruct (fl_requests _ _ _ Hfl _ _ Hqx) as (p & Hkx & _ & Hn).
    unfold chunkRead in Hkx. rewrite Hkx in Hv. split.
    + unfold freeRead, readPlace. rewrite Hqx, Hkx. by apply not_elem_of_dom.
    + exists qx, p. split_and!; try done. intros y qy Hqy Hky. eapply (fl_once _ _ _ Hfl); [done..|congruence].
  - change (c_acked (core s)) with (acknowledgedChunks s) in *. change (c_offset (core s)) with (offset s) in *.
    pose proof (fl_pending _ _ _ Hfl : pendingChunks s = Z.of_nat (base.size (requests s))) as Hpd. rewrite <- Hpd in Hsize.
    apply (writes_any_order uuid stops answer (c_size (core s))); try done; [by apply not_elem_of_dom|].
    intros x Hx. destruct (Hf x Hx) as (Hpos & qx & Hqx & Hv). destruct (fl_requests _ _ _ Hfl _ _ Hqx) as (p & Hkx & _ & Hn).
    unfold chunkWritten in Hkx. rewrite Hkx in Hv. split.
    + unfold freeAck, ackPlace. rewrite Hqx, Hkx. by apply not_elem_of_dom.
    + exists qx, p, (p + bytesLeft (c_size (core s)) p). split_and!; try done. intros y qy n' Hqy Hky.
      destruct (fl_requests _ _ _ Hfl _ _ Hqy) as (p' & Hp' & _). unfold chunkWritten in Hp'. rewrite Hky in Hp'.
      injection Hp' as <- ->. eapply (fl_once _ _ _ Hfl); [done..|]. by rewrite Hky, Hkx.
Qed.
End facts.

Module Examples.
Import SynchronizerFacts.Examples.
(** A file of two chunks: 262144 bytes, and one more. *)
Definition file : jobj := jinsert (Records.versioned (obj [("path", JS "photos/a.png"); ("kind", JS "file"); ("size", JS "262145");
  ("hash", JStr (Records.digest (u "abc"))); ("clock", JObj {[ Demo.uuid := jnum 1 ]})]%string)) "sequence" (JS "1").
Definition reading : Session := history name quietSlots (idle (tt : replica)) (playedWith [JObj file] 4).
Definition asked : list QString := map fst (map_to_list (requests reading)).
Definition chunkAt (data : QString) (position : string) (version : QString) : jobj :=
  obj [("ok", JBool true); ("data", JStr data); ("offset", JS position); ("version", JStr version)]%string.
Definition dataOf (size : nat) : QString := Base64.toBase64 (replicate size 120%N).
Lemma chunk_valid e size p b d position version :
  Base64.fromBase64 d = Some b → Z.of_nat (List.length b) = bytesLeft size p → nonnegative (JS position) = Some p →
  e.["version"] = JStr version → validChunk e (chunkAt d position version) size p = true.
Proof.
  intros Hd Hn Hp Hv. unfold validChunk. change (toStr (chunkAt d position version).["data"]) with d.
  rewrite Hd, Hn, Z.eqb_refl.
  change ((chunkAt d position version).["offset"]) with (JS position). change ((chunkAt d position version).["version"]) with (JStr version).
  by rewrite Hp, Hv, !bool_decide_true.
Qed.
Lemma dataOf_decodes n : Base64.fromBase64 (dataOf n) = Some (replicate n 120%N).
Proof. apply Base64.fromBase64_toBase64. by apply Forall_replicate. Qed.
(** The host sends both chunks; [answered d d'] with the data [d] and [d']. *)
Definition answered (d d' : QString) (id : QString) : jobj :=
  obj [("ok", JBool true); ("result", JObj (if bool_decide (id = name 9) then chunkAt d "0" (toStr file.["version"])
    else chunkAt d' "262144" (toStr file.["version"])))]%string.
Definition bytes : QString → jobj := answered (dataOf (Z.to_nat 262144)) (dataOf 1).
Lemma answered_positive d d' : positive (answered d d') (name 9) ∧ positive (answered d d') (name 11).
Proof. split; split_and!; reflexivity. Qed.
Lemma answered_result d d' : resultOf (answered d d') (name 9) = chunkAt d "0" (toStr file.["version"])
  ∧ resultOf (answered d d') (name 11) = chunkAt d' "262144" (toStr file.["version"]).
Proof. split; reflexivity. Qed.
Lemma reading_asks : asked = [name 11; name 9] ∧ active reading = true ∧ (current reading).["version"] = JStr (toStr file.["version"])
  ∧ callback <$> requests reading !! name 9 = Some (OnRead 262145 0)
  ∧ callback <$> requests reading !! name 11 = Some (OnRead 262145 262144).
Proof. split_and!; vm_compute; exact eq_refl. Qed.
Lemma reading_fits d d' b b' id :
  Base64.fromBase64 d = Some b → Z.of_nat (List.length b) = 262144 → Base64.fromBase64 d' = Some b' → List.length b' = 1%nat →
  id ∈ asked → fits (answered d d') reading id.
Proof.
  intros Hd Hb Hd' Hb'. destruct reading_asks as (-> & _ & Ev & E9 & E11). destruct (answered_positive d d') as [P9 P11].
  destruct (answered_result d d') as [R9 R11].
  intros [->|[->|[]%elem_of_nil]%elem_of_cons]%elem_of_cons.
  - split; [exact P11|]. apply fmap_Some in E11 as (q & Hq & Eq). exists q. split; [exact Hq|].
    rewrite <- Eq. rewrite R11. eapply (chunk_valid _ _ _ _ _ "262144"); [exact Hd'|by rewrite Hb'|done|exact Ev].
  - split; [exact P9|]. apply fmap_Some in E9 as (q & Hq & Eq). exists q. split; [exact Hq|].
    rewrite <- Eq. rewrite R9. eapply (chunk_valid _ _ _ _ _ "0"); [exact Hd|by rewrite Hb|done|exact Ev].
Qed.
Lemma chunks_in_order_witness :
  asked = [name 11; name 9] ∧ receiveAll name quietSlots bytes reading [name 9; name 11] = receiveAll name quietSlots bytes reading [name 11; name 9].
Proof.
  split; [apply reading_asks|].
  assert (Hasked : ∀ id, id ∈ [name 9; name 11] → fits bytes reading id).
  { intros id Hid. eapply reading_fits; [apply dataOf_decodes|by rewrite length_replicate, Z2Nat.id|apply dataOf_decodes|done|].
    rewrite (proj1 reading_asks). revert Hid. rewrite !elem_of_cons. tauto. }
  exact (chunks_in_order name quietSlots name_inj blank_rounds bytes 0 (tt : replica) (playedWith [JObj file] 4) [name 9; name 11] [name 11; name 9]
    ltac:(done) (played_in_time [JObj file] 4) (proj1 (proj2 reading_asks))
    ltac:(apply (bool_decide_eq_true_1 (NoDup [name 9; name 11])); by vm_compute) Hasked ltac:(apply perm_swap)).
Defined.
End Examples.
End SynchronizerOrder.
