(* ===== verification/SynchronizerEnds.v ===== *)
(** A session does not outlive a silent peer: a few turns of the event loop and one tick
    after the deadlines, it is over. *)
From S2P Require Import Prelude Qt Records Requests Synchronizer SynchronizerLaws SynchronizerTurns SynchronizerFacts.
From coqutil Require Import Datatypes.RecordSetters.
Import OCamlLikeNotations.
Open Scope Z_scope.

Module SynchronizerEnds.
Import Records Synchronizer SynchronizerLaws SynchronizerTurns SynchronizerFacts.

(** ** Operations that schedule nothing *)
Definition fit `{ReplicaOps} (s : Session) : Prop := ∀ t, t ∈ timers s → revisionOf t ≤ generation s.
Definition rested `{ReplicaOps} (s : Session) : Prop := fit s ∧ omap (actionOf (generation s)) (timers s) = [].
Definition calm `{ReplicaOps} {A} (m : M A) : Prop := ∀ s, rested s → rested (m s).2.
(** Operations that leave alone what is to be done. *)
Definition frame `{ReplicaOps} (s : Session) : list Timer * Z * nat * list jobj := (timers s, generation s, index s, entries s).
Definition steady `{ReplicaOps} {A} (m : M A) : Prop := ∀ s, frame (m s).2 = frame s.

Section rules.
Context {PF : Platform} {R : ReplicaOps}.
Lemma calm_ret {A} (a : A) : calm (ret a).
Proof. by intros s. Qed.
Lemma calm_bind {A B} (m : M A) (k : A → M B) : calm m → (∀ a, calm (k a)) → calm (bind m k).
Proof. intros Hm Hk s Hs. apply Hk, Hm, Hs. Qed.
Lemma calm_get {B} (k : Session → M B) : (∀ s, calm (k s)) → calm (bind get k).
Proof. intros Hk s. apply Hk. Qed.
Lemma rested_same s s' : timers s' = timers s → generation s' = generation s → rested s → rested s'.
Proof. intros E1 E2 [H1 H2]. unfold rested, fit. by rewrite E1, E2. Qed.
Lemma calm_modify f : (∀ s, timers (f s) = timers s ∧ generation (f s) = generation s) → calm (modify f).
Proof. intros H s. destruct (H s). by apply rested_same. Qed.
Lemma calm_call {A} (f : replica → A * replica) : calm (call f).
Proof. intros s. by apply rested_same. Qed.
Lemma calm_transmit id : calm (transmit id).
Proof.
  intros s [H1 H2]. unfold transmit, start_, bind, get, modify, ret. cbn [fst snd]. destruct (negb (active s)); [by split|].
  split.
  - intros t. change (t ∈ timers s ++ [Transmit id (generation s)] → revisionOf t ≤ generation s).
    intros [Ht|Ht]%elem_of_app; [by apply H1|]. apply list_elem_of_singleton in Ht as ->. done.
  - change (omap (actionOf (generation s)) (timers s ++ [Transmit id (generation s)]) = []). rewrite omap_app, H2. done.
Qed.
Lemma calm_conclude ok e : calm (conclude ok e).
Proof.
  intros s [H1 H2]. split.
  - intros t Ht. change (t ∈ timers s) in Ht. change (revisionOf t ≤ generation s + 1). specialize (H1 t Ht). lia.
  - change (omap (actionOf (generation s + 1)) (timers s) = []). unfold fit in H1. clear H2.
    induction (timers s) as [|t l IH]; [done|]. cbn. rewrite IH by (intros; apply H1; by right).
    destruct t as [| |r a]; try done. cbn. specialize (H1 (Scheduled r a) ltac:(left)). cbn in H1.
    by destruct (Z.eqb_spec r (generation s + 1)); [lia|].
Qed.

Lemma steady_ret {A} (a : A) : steady (ret a).
Proof. done. Qed.
Lemma steady_bind {A B} (m : M A) (k : A → M B) : steady m → (∀ a, steady (k a)) → steady (bind m k).
Proof. intros Hm Hk s. unfold bind. by rewrite Hk, Hm. Qed.
Lemma steady_get {B} (k : Session → M B) : (∀ s, steady (k s)) → steady (bind get k).
Proof. intros Hk s. apply Hk. Qed.
Lemma steady_call {A} (f : replica → A * replica) : steady (call f).
Proof. done. Qed.
Lemma steady_modify f : (∀ s, frame (f s) = frame s) → steady (modify f).
Proof. done. Qed.
Lemma steady_calm {A} (m : M A) : steady m → calm m.
Proof. intros H s. specialize (H s). unfold frame in H. apply rested_same; congruence. Qed.
End rules.

Create HintDb calm discriminated.
#[export] Hint Resolve calm_transmit calm_conclude : calm.
Ltac calmly1 :=
  lazymatch goal with
  | |- calm (bind get _) => apply calm_get; intros ?
  | |- calm (bind _ _) => apply calm_bind; [|intros ?]
  | |- calm (ret _) => apply calm_ret
  | |- calm (call _) => apply calm_call
  | |- calm (modify _) => apply calm_modify; by intros []
  | |- calm (if ?b then _ else _) => destruct b
  | |- calm (match ?x with _ => _ end) => destruct x
  | |- calm (let _ := _ in _) => cbv zeta
  | |- calm _ => solve [auto with calm]
  end.
Ltac calmly := repeat calmly1.
Ltac steadily :=
  repeat lazymatch goal with
  | |- steady (bind get _) => apply steady_get; intros ?
  | |- steady (bind _ _) => apply steady_bind; [|intros ?]
  | |- steady (ret _) => apply steady_ret
  | |- steady (call _) => apply steady_call
  | |- steady (modify _) => apply steady_modify; by intros []
  | |- steady (if ?b then _ else _) => destruct b
  | |- steady (match ?x with _ => _ end) => destruct x
  | |- steady (let _ := _ in _) => cbv zeta
  | |- steady _ => solve [auto with calm]
  end.

Section calm.
Context {PF : Platform} {R : ReplicaOps} (uuid : nat → QString) (stops : nat → Signal → bool).
Lemma calm_fail e : calm (fail e).
Proof. unfold fail. calmly. Qed.
Hint Resolve calm_fail : calm.
Lemma calm_failStore : calm failStore.
Proof. unfold failStore. calmly. Qed.
Lemma calm_emit x : calm (emit stops x).
Proof. unfold emit, say, stop. calmly. Qed.
Lemma calm_accepted r : calm (accepted r).
Proof. unfold accepted. calmly. Qed.
Lemma calm_send message k : calm (send uuid message k).
Proof. unfold send, createUuid. calmly. Qed.
Hint Resolve calm_failStore calm_emit calm_accepted calm_send : calm.
Lemma calm_page a b : calm (page uuid a b).
Proof. unfold page. calmly. Qed.
Lemma calm_acknowledgeSnapshot d : calm (acknowledgeSnapshot uuid d).
Proof. unfold acknowledgeSnapshot. calmly. Qed.
Hint Resolve calm_page calm_acknowledgeSnapshot : calm.
Lemma calm_finishWith m ok e : calm m → calm (finishWith uuid m ok e).
Proof. intros Hm. unfold finishWith. calmly. Qed.
Lemma calm_previewNextWith m : calm m → calm (previewNextWith uuid m).
Proof. intros Hm. unfold previewNextWith. calmly. Qed.
Hint Resolve calm_finishWith calm_previewNextWith calm_ret : calm.
Lemma calm_finish ok e : calm (finish uuid ok e).
Proof. unfold finish. auto with calm. Qed.
Hint Resolve calm_finish : calm.
Lemma calm_previewNext : calm (previewNext uuid).
Proof. unfold previewNext. auto with calm. Qed.

Lemma metadataOnly_steady e : steady (metadataOnly e).
Proof. unfold metadataOnly. steadily. Qed.
Lemma hasLocalPayload_steady e : steady (hasLocalPayload e).
Proof. unfold hasLocalPayload. steadily. Qed.
Lemma readLocal_steady e n : steady (readLocal e n).
Proof. unfold readLocal. steadily. Qed.
Lemma freshOf_steady l : steady (freshOf l).
Proof. induction l; cbn [freshOf]; steadily. Qed.
Lemma saveCursors_steady : steady saveCursors.
Proof. unfold saveCursors. steadily. Qed.
Hint Resolve metadataOnly_steady hasLocalPayload_steady readLocal_steady freshOf_steady saveCursors_steady steady_calm : calm.
Lemma calm_pushNext : calm (pushNext uuid).
Proof. unfold pushNext, clearEntries. calmly. Qed.
Hint Resolve calm_pushNext : calm.
Lemma calm_beginNewUploads : calm (beginNewUploads uuid).
Proof. unfold beginNewUploads. calmly. Qed.
Lemma calm_publishMetadata : calm publishMetadata.
Proof. unfold publishMetadata. calmly. Qed.
Lemma calm_completeSelected : calm completeSelected.
Proof. unfold completeSelected. calmly. Qed.
Lemma calm_announceRound c w : calm (announceRound c w).
Proof. unfold announceRound. calmly. Qed.
Hint Resolve calm_beginNewUploads calm_publishMetadata calm_completeSelected calm_announceRound : calm.
Lemma calm_announceRounds fuel c w : calm (announceRounds fuel c w).
Proof. revert c w. induction fuel; intros c w; cbn [announceRounds]; calmly. Qed.
Hint Resolve calm_announceRounds : calm.
Lemma calm_announceChanges n : calm (announceChanges n).
Proof. unfold announceChanges. calmly. Qed.
Lemma calm_announcePage : calm (announcePage uuid).
Proof. unfold announcePage. calmly. Qed.
Hint Resolve calm_announceChanges calm_announcePage : calm.
Lemma calm_announceLocal r d : calm d → calm (announceLocal uuid r d).
Proof. intros Hd. unfold announceLocal, createUuid. calmly. Qed.
Lemma calm_readyToPush : calm (readyToPush uuid).
Proof. unfold readyToPush. calmly. Qed.
Lemma calm_refresh : calm (refreshBetweenChunks uuid).
Proof. unfold refreshBetweenChunks. calmly. Qed.
Lemma calm_sendReads n e z p : calm (sendReads uuid n e z p).
Proof. revert p. induction n; intros p; cbn [sendReads]; calmly. Qed.
Lemma calm_sendChunks n e z p : calm (sendChunks uuid n e z p).
Proof. revert p. induction n; intros p; cbn [sendChunks]; calmly. Qed.
Hint Resolve calm_announceLocal calm_readyToPush calm_refresh calm_sendReads calm_sendChunks : calm.
Lemma calm_pushChunk : calm (pushChunk uuid).
Proof. unfold pushChunk. calmly. Qed.
End calm.
#[export] Hint Resolve calm_fail calm_failStore calm_emit calm_accepted calm_send calm_page calm_acknowledgeSnapshot calm_ret
  calm_finish calm_previewNext metadataOnly_steady hasLocalPayload_steady readLocal_steady freshOf_steady saveCursors_steady
  steady_calm calm_pushNext calm_beginNewUploads calm_publishMetadata calm_completeSelected calm_announceLocal
  calm_readyToPush calm_refresh calm_sendReads calm_sendChunks calm_pushChunk : calm.

(** ** One entry after the other
    The downloads go through the entries [es]; the [i]-th is next. *)
Section pull.
Context {PF : Platform} {R : ReplicaOps} (uuid : nat → QString) (stops : nat → Signal → bool).
Context (i : nat) (es : list jobj).
Definition at_entry (s : Session) : Prop := rested s ∧ index s = i ∧ entries s = es.
Definition onward (s : Session) : Prop :=
  fit s ∧ (omap (actionOf (generation s)) (timers s) = []
           ∨ omap (actionOf (generation s)) (timers s) = [PullNext] ∧ index s = S i ∧ entries s = es).
Definition leads {A} (m : M A) : Prop := ∀ s, at_entry s → onward (m s).2.
(** The operation answers [b] while it goes on. *)
Definition branches (b : bool) (m : M bool) : Prop :=
  ∀ s, at_entry s → if eqb (m s).1 b then at_entry (m s).2 else rested (m s).2.
Lemma rested_onward s : rested s → onward s.
Proof. intros [H1 H2]. split; [done|by left]. Qed.
Lemma leads_calm {A} (m : M A) : calm m → leads m.
Proof. intros Hm s [Hs _]. by apply rested_onward, Hm. Qed.
Lemma steady_at {A} (m : M A) s : steady m → at_entry s → at_entry (m s).2.
Proof.
  intros H (Hs & E1 & E2). specialize (H s). unfold frame in H. split_and!; [|congruence..]. apply (rested_same s); [congruence..|done].
Qed.
Lemma leads_get {B} (k : Session → M B) : (∀ s, leads (k s)) → leads (bind get k).
Proof. intros Hk s. apply Hk. Qed.
Lemma leads_bind {A B} (m : M A) (k : A → M B) : steady m → (∀ a, leads (k a)) → leads (bind m k).
Proof. intros Hm Hk s Hs. apply Hk. by apply (steady_at m). Qed.
Lemma leads_branch b (m : M bool) (k : bool → M unit) : branches b m → leads (k b) → calm (k (negb b)) → leads (bind m k).
Proof.
  intros Hm Hb Hn s Hs. specialize (Hm s Hs). unfold bind. destruct (m s) as [b' s']. cbn [fst snd] in *.
  destruct b, b'; cbn in *; [by apply Hb|by apply rested_onward, Hn|by apply rested_onward, Hn|by apply Hb].
Qed.
Lemma branches_steady b m : steady m → branches b m.
Proof. intros Hm s Hs. pose proof (steady_at m s Hm Hs) as H. destruct (eqb _ _); [done|apply H]. Qed.
Lemma branches_calm b m : (∀ s, at_entry s → (m s).1 = negb b) → calm m → branches b m.
Proof. intros H Hm s Hs. rewrite (H s Hs). destruct b; apply Hm, Hs. Qed.
Lemma branches_get b k : (∀ s, branches b (k s)) → branches b (bind get k).
Proof. intros Hk s. apply Hk. Qed.
Lemma branches_bind {A} b (m : M A) (k : A → M bool) : steady m → (∀ a, branches b (k a)) → branches b (bind m k).
Proof. intros Hm Hk s Hs. apply (Hk (m s).1 (m s).2). by apply steady_at. Qed.
Lemma branches_then {A} b (m : M A) : calm m → branches b (bind m (λ _, ret (negb b))).
Proof. intros Hm. apply branches_calm; [done|]. apply calm_bind; [done|]. intros. apply calm_ret. Qed.
Lemma branches_branch b b' (m : M bool) (k : bool → M bool) :
  branches b' m → branches b (k b') → calm (k (negb b')) → (∀ s, (k (negb b') s).1 = negb b) → branches b (bind m k).
Proof.
  intros Hm Hb Hn Hr s Hs. specialize (Hm s Hs). unfold bind. destruct (m s) as [c s']. cbn [fst snd] in *.
  destruct (eqb c b') eqn:E; [apply eqb_prop in E as ->; by apply Hb|].
  assert (c = negb b') as -> by (by destruct c, b'). rewrite Hr. destruct b; apply Hn; exact Hm.
Qed.

Lemma answers_bind {A} (b : bool) (m : M A) k s : (∀ a s, (k a s).1 = b) → (bind m k s).1 = b.
Proof. intros Hk. apply Hk. Qed.
Lemma branches_accepted r : branches true (accepted r).
Proof.
  unfold accepted. destruct (toBool _); [apply branches_steady; steadily|]. apply (branches_then true). auto with calm.
Qed.
Lemma branches_publishMetadata : branches true publishMetadata.
Proof.
  unfold publishMetadata. apply branches_get. intros s. destruct (_ || _); [apply branches_steady; steadily|].
  apply branches_bind; [steadily|]. intros []; [apply branches_steady; steadily|]. apply (branches_then true). auto with calm.
Qed.
Lemma branches_completeSelected : branches true completeSelected.
Proof.
  unfold completeSelected. apply branches_get. intros s. destruct (_ || _); [apply branches_steady; steadily|].
  apply branches_bind; [steadily|]. intros []; [apply branches_steady; steadily|]. apply (branches_then true). auto with calm.
Qed.
Lemma branches_beginNewUploads : branches false (beginNewUploads uuid).
Proof.
  unfold beginNewUploads. apply branches_get. intros s. destruct (bool_decide _); [apply branches_steady; steadily|].
  apply branches_bind; [steadily|]. intros []; [apply branches_steady; steadily|].
  apply branches_bind; [auto with calm|]. intros l. destruct (bool_decide _); [apply branches_steady; steadily|].
  apply branches_calm; [done|]. calmly.
Qed.
Lemma branches_refresh : branches false (refreshBetweenChunks uuid).
Proof.
  unfold refreshBetweenChunks. apply branches_get. intros s. cbv zeta. apply branches_bind; [steadily|]. intros _.
  destruct (_ || _); [apply branches_steady; steadily|]. apply branches_calm; [|calmly].
  intros t _. do 2 (apply answers_bind; intros ? ?). apply answers_bind. by intros [] ?.
Qed.
Lemma leads_nextEntry : leads (nextEntry PullNext).
Proof.
  intros s ([H1 H2] & H3 & H4). split.
  - intros t. change (t ∈ timers s ++ [Scheduled (generation s) PullNext] → revisionOf t ≤ generation s).
    intros [Ht|Ht]%elem_of_app; [by apply H1|]. by apply list_elem_of_singleton in Ht as ->.
  - right. change (omap (actionOf (generation s)) (timers s ++ [Scheduled (generation s) PullNext]) = [PullNext] ∧ S (index s) = S i ∧ entries s = es).
    rewrite omap_app, H2, H3. cbn. by rewrite Z.eqb_refl.
Qed.
Hint Resolve branches_accepted branches_publishMetadata branches_completeSelected branches_beginNewUploads branches_refresh
  leads_nextEntry leads_calm : calm.
Lemma leads_accepted r (k : bool → M unit) : leads (k true) → calm (k false) → leads (bind (accepted r) k).
Proof. apply (leads_branch true), branches_accepted. Qed.
Lemma leads_completeSelected (k : bool → M unit) : leads (k true) → calm (k false) → leads (bind completeSelected k).
Proof. apply (leads_branch true), branches_completeSelected. Qed.
Lemma leads_publishMetadata (k : bool → M unit) : leads (k true) → calm (k false) → leads (bind publishMetadata k).
Proof. apply (leads_branch true), branches_publishMetadata. Qed.
Ltac lead1 :=
  lazymatch goal with
  | |- leads (bind get _) => apply leads_get; intros ?
  | |- leads (bind (accepted _) _) => apply leads_accepted; cbn [negb]
  | |- leads (bind completeSelected _) => apply leads_completeSelected; cbn [negb]
  | |- leads (bind publishMetadata _) => apply leads_publishMetadata; cbn [negb]
  | |- leads (bind _ _) => apply leads_bind; [solve [steadily]|intros ?]
  | |- leads (let _ := _ in _) => cbv zeta
  | |- leads (if ?b then _ else _) => destruct b
  | |- leads (match ?x with _ => _ end) => destruct x
  | |- calm _ => calmly1
  | |- _ => solve [auto with calm]
  end.
Ltac lead := repeat lead1.
Lemma leads_pullChunk : leads (pullChunk uuid).
Proof.
  unfold pullChunk. apply leads_get. intros s. cbv zeta. apply leads_bind; [steadily|]. intros w. destruct w; [auto with calm|].
  destruct (offset s =? _); [lead|]. apply (leads_branch false); [auto with calm|apply leads_calm|]; calmly.
Qed.
Hint Resolve leads_pullChunk : calm.
Lemma leads_pullNext s : at_entry s → onward (pullNext uuid stops s).2 ∧ (es !! i = None → rested (pullNext uuid stops s).2).
Proof.
  intros Hs. pose proof Hs as (Hr & E1 & E2). remember (pullNext uuid stops s).2 as s' eqn:E.
  unfold pullNext, bind at 1 in E. change (get s).1 with s in E. change (get s).2 with s in E.
  destruct (negb (active s)); [rewrite E; by split; [apply rested_onward|]|]. rewrite E1, E2 in E. destruct (es !! i) as [e|]; rewrite E; clear E.
  - split; [|done]. match goal with |- onward (?m s).2 => assert (leads m) as Hm; [|by apply Hm] end.
    apply leads_bind; [steadily|]. intros _. apply leads_bind; [steadily|]. intros remote. destruct remote; [lead|].
    apply leads_bind; [steadily|]. intros here. cbv zeta. apply (leads_branch false).
    + destruct (_ && _); [|apply branches_steady; steadily]. apply (branches_branch false true); [auto with calm| |calmly|done].
      cbn [negb]. destruct (bool_decide (_ ∈ _)); [apply branches_steady; steadily|auto with calm].
    + lead.
    + apply calm_ret.
  - match goal with |- onward (?m s).2 ∧ _ => assert (calm m) as Hm end; [unfold clearEntries; calmly|].
    split; [|intros _]; [apply rested_onward|]; by apply Hm.
Qed.
End pull.

(** ** The end *)
Section ends.
Context {PF : Platform} {R : ReplicaOps} (uuid : nat → QString) (stops : nat → Signal → bool).
Context (uuid_inj : Inj (=) (=) uuid).
Context (rounds : ∀ after upper r, let page := (changes after upper r).1 in
  toBool page.["ok"] = true → toBool page.["more"] = true →
  0 ≤ after < jlong page.["next"] ∧ jlong page.["next"] ≤ jlong page.["through"]
  ∧ (upper ≠ 0 → jlong page.["through"] = upper)).
Context (T : Z) (Ev : Z → jobj → QString → Prop).
Abbreviation waiting := (waiting uuid T Ev).
Abbreviation history := (history uuid stops).
Abbreviation step := (step uuid stops).

Lemma tick_expired s t e : waiting (core s) → active s = true → requests s ≠ ∅ → T + 120000 ≤ t →
  active (step s (occur t e Tick)) = false.
Proof.
  intros [Hb Hw] Ha Hq Ht'. destruct (Hw Ha) as [Ht _]. change (timeout s = true) in Ht.
  apply map_choose in Hq as (id & q & Hq). pose proof (bk_deadlines _ _ _ _ Hb id q Hq) as Hd.
  unfold step. cbn [event at_ elapsed perform]. unfold checkDeadlines, bind, get. cbn [fst snd].
  change (timeout { s with clock := t; monotonic := e }) with (timeout s). rewrite Ht.
  rewrite (proj2 (existsb_exists _ _)); [|exists (id, q); split; [by apply list_elem_of_In, elem_of_map_to_list|apply Z.leb_le; change (deadline q ≤ t); lia]].
  cbn [andb]. unfold fail, bind, get. cbn [fst snd]. change (active { s with clock := t; monotonic := e }) with (active s).
  by rewrite Ha.
Qed.
Lemma tick_inactive s t e : active s = false → active (step s (occur t e Tick)) = false.
Proof.
  intros Ha. unfold step. cbn [event at_ elapsed perform]. unfold checkDeadlines, fail, bind, get. cbn [fst snd].
  destruct (timeout _ && _); [|done]. change (active { s with clock := t; monotonic := e }) with (active s). by rewrite Ha.
Qed.
(** Nothing is scheduled: the session waits for the peer. *)
Lemma rested_ends s t e : waiting (core s) → omap (actionOf (generation s)) (timers s) = [] → T + 120000 ≤ t →
  active (step s (occur t e Tick)) = false.
Proof.
  intros Hw Hs Ht'. destruct (active s) eqn:Ha; [|by apply tick_inactive].
  apply tick_expired; [done..| |done]. destruct (proj2 Hw Ha) as [_ [id q H1 _ _ _ _ _ _|a _ H _ _ _ _|_ Hf _ Hp _|_ Hf _ Hp _ _]].
  - change (c_requests (core s)) with (requests s) in H1. rewrite H1. apply map_non_empty_singleton.
  - rewrite scheduled_omap in H. change (omap (actionOf (generation s)) (timers s) = [a]) in H. by rewrite Hs in H.
  - intros E. apply Hp. rewrite (fl_pending _ _ _ Hf). change (c_requests (core s)) with (requests s). by rewrite E.
  - intros E. apply Hp. rewrite (fl_pending _ _ _ Hf). change (c_requests (core s)) with (requests s). by rewrite E.
Qed.

(** How many actions of the session are still to run: the next download and those after
    it; an action of another kind leads to the downloads at most. *)
Definition due (s : Session) : nat :=
  if active s then
    match omap (actionOf (generation s)) (timers s) with
    | [] => 0
    | PullNext :: _ => S (List.length (entries s) - index s)
    | _ => S (S (List.length (entries s)))
    end
  else 0%nat.
Lemma due_inactive s : active s = false → due s = 0%nat.
Proof. intros H. unfold due. by rewrite H. Qed.
Lemma due_rested s : rested s → due s = 0%nat.
Proof. intros [_ H]. unfold due. rewrite H. by destruct (active s). Qed.
Lemma due_onward i es s : onward i es s → (due s ≤ S (List.length es - S i))%nat.
Proof. intros [_ [H|(H & E1 & E2)]]; unfold due; rewrite H; destruct (active s); [lia..| |lia]. rewrite E1, E2. lia. Qed.
Lemma due_bound s : (due s ≤ List.length (entries s) + 2)%nat.
Proof. unfold due. destruct (active s); [|lia]. destruct (omap _ _) as [|[] l]; lia. Qed.
Lemma due_same s s' : active s' = active s → generation s' = generation s → entries s' = entries s → index s' = index s →
  omap (actionOf (generation s)) (timers s') = omap (actionOf (generation s)) (timers s) → due s' = due s.
Proof. intros E1 E2 E3 E4 E5. unfold due. by rewrite E1, E2, E3, E4, E5. Qed.
Lemma due_fail e s : due (fail e s).2 = 0%nat.
Proof. apply due_inactive. unfold fail, bind, get. cbn [fst snd]. by destruct (active s) eqn:Ha. Qed.
Lemma due_emit x s : (due (emit stops x s).2 ≤ due s)%nat.
Proof. unfold emit, bind, get, say, modify. cbn [fst snd]. destruct (stops _ x); [unfold stop; rewrite due_fail; lia|]. by rewrite (due_same s). Qed.
Lemma due_transmit id s : due (transmit id s).2 = due s.
Proof.
  unfold transmit, start_, bind, get, modify, ret. cbn [fst snd]. destruct (negb (active s)); [done|]. apply due_same; try done.
  change (omap (actionOf (generation s)) (timers s ++ [Transmit id (generation s)]) = omap (actionOf (generation s)) (timers s)).
  rewrite omap_app. by rewrite app_nil_r.
Qed.

(** A turn of the event loop runs an action of the session. *)
Lemma action_runs s n a o :
  waiting (core s) → active s = true → event o = Expire n → timers s !! n = Some (Scheduled (generation s) a) →
  omap (actionOf (generation s)) (timers s) = [a] ∧ ∃ s1, at_entry (index s) (entries s) s1 ∧ step s o = (act uuid stops a s1).2.
Proof.
  intros Hw Ha Eo Hn. pose proof (omap_delete (actionOf (generation s)) (timers s) n _ Hn) as Hp. cbn [actionOf] in Hp.
  rewrite Z.eqb_refl in Hp. cbn [app] in Hp. pose proof Hp as Hq.
  destruct (turn_scheduled (core s) _ _ (proj2 (proj2 Hw Ha)) Hp) as (Hd & Hs & _). split; [exact Hs|].
  set (s0 := { s with clock := at_ o; monotonic := elapsed o }). set (s1 := { s0 with timers := delete n (timers s) }).
  exists s1. split.
  - split; [|done]. split; [|exact Hd]. intros t Ht. change (t ∈ delete n (timers s)) in Ht.
    apply (bk_timers _ _ _ _ (proj1 Hw) t). by eapply list_elem_of_delete_inv in Ht.
  - unfold step. rewrite Eo. cbn [perform]. fold s0. unfold bind at 1, get. cbn [fst snd]. change (timers s0) with (timers s).
    rewrite Hn. change (((if current_ (generation s) s1 then act uuid stops a else ret tt) s1).2 = (act uuid stops a s1).2).
    unfold current_. change (active s1) with (active s). change (generation s1) with (generation s). by rewrite Ha, Z.eqb_refl.
Qed.
Lemma act_onward a i es s : at_entry i es s → onward i es (act uuid stops a s).2.
Proof.
  intros Hs. destruct a; cbn [act].
  - by apply (leads_calm _ _ _ (calm_previewNext uuid)).
  - by apply leads_pullNext.
  - by apply leads_pullChunk.
  - by apply (leads_calm _ _ _ (calm_pushChunk uuid)).
Qed.
Lemma action_due s n a o :
  waiting (core s) → active s = true → event o = Expire n → timers s !! n = Some (Scheduled (generation s) a) →
  (S (due (step s o)) ≤ due s)%nat.
Proof.
  intros Hw Ha Eo Hn. destruct (action_runs s n a o Hw Ha Eo Hn) as (Hs & s1 & Hs1 & ->).
  pose proof (due_onward _ _ _ (act_onward a _ _ s1 Hs1)) as Hd. unfold due at 2. rewrite Ha, Hs. destruct a; try lia.
  destruct (leads_pullNext uuid stops _ _ s1 Hs1) as [_ Hnone].
  destruct (decide (index s < List.length (entries s))%nat) as [Hlt|Hge]; [lia|].
  cbn [act]. rewrite due_rested; [lia|]. apply Hnone, lookup_ge_None_2. lia.
Qed.

Lemma history_app s l l' : history s (l ++ l') = history (history s l) l'.
Proof. apply foldl_app. Qed.
(** What may happen while the peer is silent and nobody calls. *)
Definition silent (o : Occurrence) : Prop :=
  match event o with Expire _ | Tick | Elsewhere _ => True | _ => False end.
(** This turn of the event loop runs an action of the session. *)
Definition acting (s : Session) (o : Occurrence) : bool :=
  match event o with
  | Expire n => match timers s !! n with Some (Scheduled g _) => active s && (g =? generation s) | _ => false end
  | _ => false
  end.
Fixpoint turns (s : Session) (l : list Occurrence) : nat :=
  match l with [] => 0 | o :: l => (if acting s o then S (turns (step s o) l) else turns (step s o) l) end%nat.

Lemma acting_none s n t e : timers s = [] → acting s (occur t e (Expire n)) = false.
Proof. intros E. unfold acting. cbn [event]. by rewrite E. Qed.
Lemma action_pending s : active s = true → omap (actionOf (generation s)) (timers s) ≠ [] →
  ∃ n, ∀ t e, acting s (occur t e (Expire n)) = true.
Proof.
  intros Ha Hs. destruct (omap _ _) as [|a l] eqn:E; [done|].
  assert (a ∈ omap (actionOf (generation s)) (timers s)) as (t & Ht & Et)%list_elem_of_omap by (rewrite E; left).
  apply list_elem_of_lookup in Ht as [n Hn]. exists n. intros ? ?. unfold acting. cbn [event]. rewrite Hn, Ha.
  destruct t as [| |g b]; [done..|]. cbn in Et. by destruct (g =? generation s).
Qed.
Lemma expire_due s n t c m : timers s !! n = Some t → (∀ a, t = Scheduled (generation s) a → active s = false) →
  let s1 := { { s with clock := c; monotonic := m } with timers := delete n (timers s) } in
  (due (expire uuid stops t s1).2 ≤ due s)%nat.
Proof.
  intros Hn Ht s1. destruct (active s) eqn:Ha.
  - assert (E : due s1 = due s).
    { apply due_same; try done. change (timers s1) with (delete n (timers s)). apply (omap_delete_none _ _ n t); [done|].
      destruct t as [| |r a]; try done. cbn. destruct (Z.eqb_spec r (generation s)) as [->|]; [|done]. by specialize (Ht a eq_refl). }
    rewrite <- E. assert (Hg : generation s1 = generation s) by done. clearbody s1. unfold expire, bind, get. cbn [fst snd]. destruct t as [id r|id r|r a].
    + destruct (requests s1 !! id); [|done]. destruct (current_ r s1); [apply due_emit|done].
    + destruct (current_ r s1); [by rewrite due_transmit|done].
    + unfold current_. rewrite Hg. destruct (Z.eqb_spec (generation s) r) as [<-|]; [by specialize (Ht a eq_refl)|]. by rewrite andb_false_r.
  - assert (Hs1 : active s1 = false) by exact Ha. clearbody s1. rewrite due_inactive; [lia|].
    unfold expire, bind, get. cbn [fst snd]. unfold current_. rewrite Hs1. cbn [andb].
    destruct t as [id r|id r|r a]; [by destruct (requests s1 !! id)|done..].
Qed.
Lemma silent_due s o : waiting (core s) → silent o → ((if acting s o then 1 else 0) + due (step s o) ≤ due s)%nat.
Proof.
  intros Hw Ho. unfold silent, acting in *. destruct (event o) as [| | | | | |n| |f] eqn:Eo; try done.
  - destruct (timers s !! n) as [t|] eqn:Hn.
    + assert (Hstep : step s o = (expire uuid stops t { { s with clock := at_ o; monotonic := elapsed o } with timers := delete n (timers s) }).2).
      { unfold step. rewrite Eo. cbn [perform]. unfold bind at 1, get. cbn [fst snd].
        change (timers { s with clock := at_ o; monotonic := elapsed o }) with (timers s). by rewrite Hn. }
      destruct t as [id r|id r|g a]; [rewrite Hstep; apply (expire_due s n); [done|by intros]..|].
      destruct (active s) eqn:Ha; cbn [andb].
      * destruct (Z.eqb_spec g (generation s)) as [->|Hg]; [by eapply action_due|].
        rewrite Hstep. apply (expire_due s n); [done|by intros ? [= ->]].
      * rewrite Hstep. by apply (expire_due s n).
    + unfold step. rewrite Eo. cbn [perform]. unfold bind, get. cbn [fst snd].
      change (timers { s with clock := at_ o; monotonic := elapsed o }) with (timers s). rewrite Hn. by rewrite (due_same s).
  - unfold step. rewrite Eo. cbn [perform]. unfold checkDeadlines, bind at 1, get. cbn [fst snd].
    destruct (_ && _); [rewrite due_fail; cbn; lia|]. by rewrite (due_same s).
  - unfold step. rewrite Eo. by rewrite (due_same s).
Qed.
Lemma turns_due s l : (∀ before after, l = before ++ after → waiting (core (history s before))) → Forall silent l →
  (turns s l + due (history s l) ≤ due s)%nat.
Proof.
  revert s. induction l as [|o l IH]; intros s Hw Hl; [done|]. apply Forall_cons in Hl as [Ho Hl].
  pose proof (silent_due s o (Hw [] _ eq_refl) Ho) as H1.
  assert (H2 : (turns (step s o) l + due (history (step s o) l) ≤ due (step s o))%nat).
  { apply IH; [|done]. intros before after ->. by apply (Hw (o :: before) after). }
  change (history s (o :: l)) with (history (step s o) l). cbn [turns]. destruct (acting s o); lia.
Qed.
End ends.

Section theorem.
Context {PF : Platform} {R : ReplicaOps} (uuid : nat → QString) (stops : nat → Signal → bool).
Context (uuid_inj : Inj (=) (=) uuid).
Context (rounds : ∀ after upper r, let page := (changes after upper r).1 in
  toBool page.["ok"] = true → toBool page.["more"] = true →
  0 ≤ after < jlong page.["next"] ∧ jlong page.["next"] ≤ jlong page.["through"]
  ∧ (upper ≠ 0 → jlong page.["through"] = upper)).

(** C16: Silence ends a session.  Whatever state a synchronizer is in, and however the
    event loop schedules what is left once the peer no longer answers and nobody calls
    (timers in any order, ticks, uses of the replica by others): at most as many turns
    as there are entries to download, and two more, run an action of the session, and
    afterwards, if the session still runs, either its next action is among the pending
    timers, to be run by such a turn, or every tick two minutes after the last event or
    later ends it.  Identifiers are unique, and a page of the replica's changes that
    announces more moves its cursor, which holds when every record fits a page;
    otherwise the loop that collects the changes would not end. *)
Theorem silent_host_ends T r h l :
  0 ≤ T → Forall (λ o, at_ o ≤ T) (h ++ l) → Forall silent l →
  let s := history uuid stops (idle r) h in
  let s' := history uuid stops s l in
  (turns uuid stops s l ≤ List.length (entries s) + 2)%nat
  ∧ (active s' = true → (∃ n, ∀ t e, acting s' (occur t e (Expire n)) = true)
       ∨ ∀ t e, T + 120000 ≤ t → active (step uuid stops s' (occur t e Tick)) = false).
Proof.
  intros HT Hh Hl s s'.
  assert (Hw : ∀ before after, l = before ++ after → waiting uuid T (confirmed uuid stops r (h ++ l)) (core (history uuid stops s before))).
  { intros before after E. rewrite E in Hh. pose proof (prefix_waiting uuid stops uuid_inj rounds T r (h ++ l) (h ++ before) after HT) as H.
    rewrite E, <- app_assoc in *. specialize (H Hh eq_refl). rewrite history_app in H. exact H. }
  pose proof (Hw l [] (eq_sym (app_nil_r l))) as Hw'. fold s' in Hw'. clearbody s s'. split.
  - pose proof (turns_due uuid stops T _ s l Hw Hl). pose proof (due_bound s). lia.
  - intros Ha. destruct (decide (omap (actionOf (generation s')) (timers s') = [])) as [E|E].
    + right. intros t e Ht. by apply (rested_ends uuid stops T (confirmed uuid stops r (h ++ l))).
    + left. by apply action_pending.
Qed.
End theorem.
Module Examples.
Import SynchronizerFacts.Examples.
(** The loop runs in silence: the requests are sent, then nothing is left to run. *)
Definition quiet : list Occurrence := replicate (List.length (timers (after 2))) (occur 0 0 (Expire 0)).
Lemma silent_host_ends_witness : active (history name quietSlots (after 2) quiet) = true
  ∧ ∀ t e, 120000 ≤ t → active (step name quietSlots (history name quietSlots (after 2) quiet) (occur t e Tick)) = false.
Proof.
  assert (Ha : active (history name quietSlots (after 2) quiet) = true) by by vm_compute. split; [exact Ha|].
  pose proof (silent_host_ends name quietSlots name_inj blank_rounds 0 (tt : replica) (played 2) quiet ltac:(done)
    ltac:(apply Forall_app; split; [apply played_in_time|by apply Forall_replicate]) ltac:(by apply Forall_replicate)) as [_ H].
  cbv zeta in H. fold (after 2) in H. destruct (H Ha) as [[n Hn]|Ht]; [|exact Ht].
  assert (Et : timers (history name quietSlots (after 2) quiet) = []) by by vm_compute.
  pose proof (acting_none _ n 0 0 Et) as Hf. rewrite Hn in Hf. discriminate Hf.
Defined.
End Examples.
End SynchronizerEnds.
