(* ===== verification/WatchPaths.v ===== *)
(** Which files and directories a host watches, src/Sync/WatchPaths.h: a bounded
    breadth-first walk that puts the roots first. *)
From S2P Require Import Prelude Qt Records Scan.
Open Scope Z_scope.

Module WatchPaths.
(** What the disk answers: whether a root is a directory, and the entries a directory
    has until its end or its first error, with their kinds; no kind when the status is
    not to be had or the entry redirects elsewhere. *)
Record Item := mkItem { ipath : QString; iname : QString; idirectory : option bool }.
Record Disk := mkDisk { isDirectory : QString → bool; listing : QString → list Item }.
Definition maxSize : Z := 2 ^ 64 - 1.
Definition inspectionLimit (limit : Z) : Z := if maxSize / 8 <? limit then maxSize else limit * 8.

(** The result and what the walk keeps: [asked] counts the questions whether it is
    cancelled. The set of paths seen is that of the result. *)
Record Walk := mkWalk { paths : list QString; directories : list QString; visitedEntries : Z; asked : nat; cancelled : bool }.
Section walk.
Variables (disk : Disk) (limit : Z) (isCancelled : nat → bool).
Definition include (path : QString) (directory : bool) (w : Walk) : Walk :=
  if bool_decide (path ∈ paths w) then w else
  mkWalk (paths w ++ [path]) (if directory then directories w ++ [path] else directories w) (visitedEntries w) (asked w) (cancelled w).
(** [if (cancelled()) { result.cancelled = true; return result; }] *)
Definition ask (w : Walk) : Walk :=
  mkWalk (paths w) (directories w) (visitedEntries w) (S (asked w)) (isCancelled (asked w)).
Definition full (w : Walk) : bool := limit <=? Z.of_nat (List.length (paths w)).
Definition spent (w : Walk) : bool := full w || (inspectionLimit limit <=? visitedEntries w).
Fixpoint walkRoots (roots : list QString) (w : Walk) : Walk :=
  match roots with
  | [] => w
  | root :: rest =>
      let w := ask w in
      if cancelled w || full w then w else
      walkRoots rest (if isDirectory disk root then include root true w else w)
  end.
Definition visit (w : Walk) : Walk :=
  mkWalk (paths w) (directories w) (visitedEntries w + 1) (asked w) (cancelled w).
Definition inspect (e : Item) (w : Walk) : Walk :=
  if Scan.providerIndexControlName (iname e) then w else
  match idirectory e with Some d => include (ipath e) d w | None => w end.
Fixpoint walkEntries (l : list Item) (w : Walk) : Walk :=
  match l with
  | [] => w
  | e :: rest =>
      if spent w then w else
      let w := ask w in
      if cancelled w then w else
      let w := inspect e (visit w) in
      if spent w then w else
      let w := ask w in
      if cancelled w then w else walkEntries rest w
  end.
(** The directories are those of the result, so that [limit] bounds the rounds. *)
Fixpoint walkDirectories (fuel : nat) (next : nat) (w : Walk) : Walk :=
  match fuel with
  | O => w
  | S fuel =>
      match directories w !! next with
      | Some d =>
          if spent w then w else
          let w := ask w in
          if cancelled w then w else
          let w := walkEntries (listing disk d) w in
          if cancelled w then w else walkDirectories fuel (S next) w
      | None => w
      end
  end.
Definition collectWatchPaths (roots : list QString) : Walk :=
  let w := ask (mkWalk [] [] 0 0 false) in
  if cancelled w || (limit =? 0) then w else
  let w := walkRoots roots w in
  if cancelled w then w else
  let w := walkDirectories (Z.to_nat limit) 0 w in
  if cancelled w then w else ask w.
End walk.

(** ** The budget is kept, and within it nothing is missed *)
Section laws.
Context (disk : Disk) (limit : Z) (isCancelled : nat → bool).
Abbreviation inspectionLimit := (inspectionLimit limit).
Abbreviation ask := (ask isCancelled).

Record tidy (w : Walk) : Prop := {
  td_paths : Z.of_nat (List.length (paths w)) ≤ limit;
  td_visited : visitedEntries w ≤ inspectionLimit;
  td_once : NoDup (paths w);
  td_directories : (List.length (directories w) <= List.length (paths w))%nat
}.
(** The walk only adds. *)
Definition grows (w w' : Walk) : Prop := paths w `prefix_of` paths w' ∧ directories w `prefix_of` directories w'.
#[local] Instance grows_preorder : PreOrder grows.
Proof. split; [by intros w|]. intros a b c [H1 H2] [H3 H4]. split; etransitivity; done. Qed.
Lemma full_spec w : full limit w = false → Z.of_nat (List.length (paths w)) < limit.
Proof. unfold full. apply Z.leb_gt. Qed.
Lemma ask_tidy w : tidy w → tidy (ask w) ∧ grows w (ask w).
Proof. by intros []. Qed.
Lemma visit_tidy w : tidy w → spent limit w = false → tidy (visit w) ∧ grows w (visit w).
Proof. intros [H1 H2 H3 H4] Hs. apply orb_false_iff in Hs as [_ Hs%Z.leb_gt]. split; [|done]. split; try done. cbn. lia. Qed.
Lemma include_tidy p d w : tidy w → full limit w = false → tidy (include p d w) ∧ grows w (include p d w) ∧ p ∈ paths (include p d w).
Proof.
  intros [H1 H2 H3 H4] Hf%full_spec. unfold include. case_bool_decide as Hp; [by split|]. split_and!.
  - split; cbn; rewrite ?length_app; cbn; [lia|done| |].
    + apply NoDup_app. split_and!; [done|by intros x Hx ->%list_elem_of_singleton|apply NoDup_singleton].
    + destruct d; rewrite ?length_app; cbn; lia.
  - split; cbn; [by exists [p]|]. destruct d; [by exists [p]|done].
  - cbn. apply elem_of_app. right. left.
Qed.
(** An entry that is to be watched. *)
Definition wanted (e : Item) : Prop := Scan.providerIndexControlName (iname e) = false ∧ is_Some (idirectory e).
Lemma inspect_tidy e w : tidy w → full limit w = false → tidy (inspect e w) ∧ grows w (inspect e w) ∧ (wanted e → ipath e ∈ paths (inspect e w)).
Proof.
  intros Hw Hf. unfold inspect, wanted. destruct (Scan.providerIndexControlName _); [split_and!; [done..|by intros [[=] _]]|].
  destruct (idirectory e) as [d|]; [|split_and!; [done..|by intros [_ []]]].
  destruct (include_tidy (ipath e) d w Hw Hf) as (H1 & H2 & H3). by split_and!.
Qed.
Lemma grows_paths w w' p : grows w w' → p ∈ paths w → p ∈ paths w'.
Proof. intros [[l ->] _] H. apply elem_of_app. by left. Qed.
Lemma walkRoots_tidy roots w : tidy w →
  let w' := walkRoots disk limit isCancelled roots w in
  tidy w' ∧ grows w w' ∧ (cancelled w' = true ∨ full limit w' = true ∨ ∀ r, r ∈ roots → isDirectory disk r = true → r ∈ paths w').
Proof.
  revert w. induction roots as [|r roots IH]; intros w Hw; cbn [walkRoots].
  { split_and!; [done..|]. right. right. by intros r ?%elem_of_nil. }
  destruct (ask_tidy w Hw) as [Ha Hg]. set (w1 := ask w) in *. clearbody w1.
  destruct (cancelled w1) eqn:Ec; cbn [orb]; [split_and!; [done..|by left]|].
  destruct (full limit w1) eqn:Ef; [split_and!; [done..|by right; left]|].
  assert (H : let w2 := if isDirectory disk r then include r true w1 else w1 in
    tidy w2 ∧ grows w1 w2 ∧ (isDirectory disk r = true → r ∈ paths w2)).
  { destruct (isDirectory disk r); [|by split_and!]. destruct (include_tidy r true w1 Ha Ef) as (H1 & H2 & H3). by split_and!. }
  destruct H as (H1 & H2 & H3). set (w2 := if isDirectory disk r then _ else _) in *. clearbody w2.
  destruct (IH w2 H1) as (H4 & H5 & H6). split_and!; [done|by transitivity w1; [|transitivity w2]|].
  destruct H6 as [H6|[H6|H6]]; [by left|by right; left|]. right. right. intros x [->|Hx]%elem_of_cons Hd; [|by apply H6].
  eapply grows_paths; [done|by apply H3].
Qed.
Lemma walkEntries_tidy l w : tidy w →
  let w' := walkEntries limit isCancelled l w in
  tidy w' ∧ grows w w' ∧ (cancelled w' = true ∨ spent limit w' = true ∨ ∀ e, e ∈ l → wanted e → ipath e ∈ paths w').
Proof.
  revert w. induction l as [|e l IH]; intros w Hw; cbn [walkEntries].
  { split_and!; [done..|]. right. right. by intros e ?%elem_of_nil. }
  destruct (spent limit w) eqn:Es; [split_and!; [done..|by right; left]|].
  destruct (ask_tidy w Hw) as [Ha Hg]. assert (Es1 : spent limit (ask w) = false) by done. set (w1 := ask w) in *. clearbody w1.
  destruct (cancelled w1) eqn:Ec; [split_and!; [done..|by left]|].
  destruct (visit_tidy w1 Ha Es1) as [Hv Hg1].
  assert (Ef : full limit (visit w1) = false) by by apply orb_false_iff in Es1 as [? _].
  destruct (inspect_tidy e (visit w1) Hv Ef) as (Hi & Hg2 & He). set (w2 := inspect e (visit w1)) in *. clearbody w2.
  assert (grows w w2) as Hg3 by (transitivity w1; [done|]; by transitivity (visit w1)).
  destruct (spent limit w2) eqn:Es2; [split_and!; [done..|by right; left]|].
  destruct (ask_tidy w2 Hi) as [Ha3 Hg4]. set (w3 := ask w2) in *. clearbody w3.
  destruct (cancelled w3) eqn:Ec3; [split_and!; [done|by transitivity w2|by left]|].
  destruct (IH w3 Ha3) as (H4 & H5 & H6). split_and!; [done|by transitivity w2; [|transitivity w3]|].
  destruct H6 as [H6|[H6|H6]]; [by left|by right; left|]. right. right. intros x [->|Hx]%elem_of_cons Hwx; [|by apply H6].
  eapply grows_paths; [exact H5|]. eapply grows_paths; [exact Hg4|]. by apply He.
Qed.
(** Every wanted entry of the directory is in the result. *)
Definition listed (w : Walk) (d : QString) : Prop := ∀ e, e ∈ listing disk d → wanted e → ipath e ∈ paths w.
Lemma walkDirectories_tidy fuel next w : tidy w → limit ≤ Z.of_nat (fuel + next) →
  (∀ i d, (i < next)%nat → directories w !! i = Some d → listed w d) →
  let w' := walkDirectories disk limit isCancelled fuel next w in
  tidy w' ∧ grows w w' ∧ (cancelled w' = true ∨ spent limit w' = true ∨ ∀ d, d ∈ directories w' → listed w' d).
Proof.
  revert next w. induction fuel as [|fuel IH]; intros next w Hw Hf Hd; cbn [walkDirectories].
  { split_and!; [done..|]. right. right. intros d [i Hi]%list_elem_of_lookup. apply (Hd i); [|done].
    apply lookup_lt_Some in Hi. pose proof (td_paths w Hw). pose proof (td_directories w Hw). lia. }
  destruct (directories w !! next) as [d|] eqn:En; cycle 1.
  { split_and!; [done..|]. right. right. intros d [i Hi]%list_elem_of_lookup. apply (Hd i); [|done].
    apply lookup_lt_Some in Hi. apply lookup_ge_None in En. lia. }
  destruct (spent limit w) eqn:Es; [split_and!; [done..|by right; left]|].
  destruct (ask_tidy w Hw) as [Ha Hg]. set (w1 := ask w) in *.
  assert (Ed1 : directories w1 = directories w) by done. assert (Ep1 : paths w1 = paths w) by done. clearbody w1.
  destruct (cancelled w1) eqn:Ec; [split_and!; [done..|by left]|].
  destruct (walkEntries_tidy (listing disk d) w1 Ha) as (H1 & H2 & H3). set (w2 := walkEntries _ _ _ w1) in *. clearbody w2.
  destruct (cancelled w2) eqn:Ec2; [split_and!; [done|by transitivity w1|by left]|].
  destruct H3 as [H3|[H3|H3]]; [congruence| |].
  { assert (walkDirectories disk limit isCancelled fuel (S next) w2 = w2) as ->.
    { destruct fuel; [done|]. cbn [walkDirectories]. rewrite H3. by destruct (directories w2 !! S next). }
    split_and!; [done|by transitivity w1|by right; left]. }
  destruct (IH (S next) w2 H1) as (H4 & H5 & H6); [lia| |].
  - intros i x Hi Hx e He Hwe. destruct (decide (i = next)) as [->|Hne].
    + destruct H2 as [_ [k Ek]]. rewrite Ek, lookup_app_l in Hx by (rewrite Ed1; by eapply lookup_lt_Some).
      rewrite Ed1 in Hx. assert (x = d) as -> by congruence. by apply H3.
    + eapply (grows_paths w1); [done|]. rewrite Ep1. apply (Hd i x); [lia| |done..].
      destruct H2 as [_ [k Ek]]. rewrite Ek, lookup_app_l in Hx; [by rewrite <- Ed1|].
      rewrite Ed1. apply lookup_lt_Some in En. lia.
  - split_and!; [done| |done]. transitivity w2; [|done]. by transitivity w1.
Qed.
End laws.

(** C35: Watching within a budget.  The walk never collects more paths than its limit nor
    looks at more than eight times as many entries, and collects no path twice; if it
    is neither cancelled nor out of budget, the roots that are directories are in the
    result, and with every directory of the result each of its files and directories
    that is not a control file. *)
Theorem watch_budget disk limit isCancelled roots :
  0 ≤ limit →
  let w := collectWatchPaths disk limit isCancelled roots in
  Z.of_nat (List.length (paths w)) ≤ limit ∧ visitedEntries w ≤ inspectionLimit limit ∧ NoDup (paths w)
  ∧ (cancelled w = false → spent limit w = false →
     (∀ r, r ∈ roots → isDirectory disk r = true → r ∈ paths w) ∧ ∀ d, d ∈ directories w → listed disk w d).
Proof.
  intros Hl. unfold collectWatchPaths. set (w0 := ask isCancelled _).
  assert (H0 : tidy limit w0).
  { split; cbn; [lia| |apply NoDup_nil_2|lia]. unfold inspectionLimit. destruct (_ <? _); [done|lia]. }
  assert (Hw0 : directories w0 = []) by done. clearbody w0.
  destruct (cancelled w0) eqn:Ec0; cbn [orb]; [cbv zeta; split_and!; try apply H0; congruence|].
  destruct (limit =? 0) eqn:El; [cbv zeta; split_and!; try apply H0; intros _ Hs|].
  { apply orb_false_iff in Hs as [Hs%full_spec _]. apply Z.eqb_eq in El. lia. }
  destruct (walkRoots_tidy disk limit isCancelled roots w0 H0) as (H1 & H2 & H3).
  cbv zeta. set (w1 := walkRoots _ _ _ _ _) in *. clearbody w1.
  destruct (cancelled w1) eqn:Ec1; [split_and!; try apply H1; congruence|].
  destruct (walkDirectories_tidy disk limit isCancelled (Z.to_nat limit) 0 w1 H1) as (H4 & H5 & H6); [lia|by intros; lia|].
  cbv zeta in *. set (w2 := walkDirectories _ _ _ _ _ _) in *. clearbody w2.
  destruct (cancelled w2) eqn:Ec2; [split_and!; try apply H4; congruence|].
  set (w3 := ask isCancelled w2). split_and!; try apply H4. intros Hc Hs. split.
  - destruct H3 as [H3|[H3|H3]]; [congruence| |].
    + assert (full limit w2 = true) as Hf.
      { apply Z.leb_le. apply Z.leb_le in H3. destruct H5 as [[k Ek] _]. rewrite Ek, length_app. lia. }
      change (spent limit w2 = false) in Hs. unfold spent in Hs. by rewrite Hf in Hs.
    + intros r Hr Hd. eapply (grows_paths w1); [done|]. by apply H3.
  - destruct H6 as [H6|[H6|H6]]; [congruence| |exact H6]. change (spent limit w2 = false) in Hs. congruence.
Qed.
Definition demo : Disk := mkDisk (λ p, bool_decide (p = u "Files"))
  (λ p, if bool_decide (p = u "Files") then [mkItem (u "Files/a") (u "a") (Some true); mkItem (u "Files/b") (u "b") (Some false)]
        else if bool_decide (p = u "Files/a") then [mkItem (u "Files/a/.society-x") (u ".society-x") (Some false)] else []).
Lemma watch_budget_witness :
  paths (collectWatchPaths demo 8 (λ _, false) [u "Files"; u "Photos"]) = map u ["Files"; "Files/a"; "Files/b"]%string
  ∧ listed demo (collectWatchPaths demo 8 (λ _, false) [u "Files"; u "Photos"]) (u "Files").
Proof.
  destruct (watch_budget demo 8 (λ _, false) [u "Files"; u "Photos"]) as (_ & _ & _ & H); [lia|].
  split; [by vm_compute|]. apply H; [by vm_compute..|]. vm_compute. left.
Defined.
End WatchPaths.
