(* ===== verification/Controller.v ===== *)
(** Who exchanges what, and when, src/Sync/Controller.cpp: the controller on its owner's
    thread, the worker that owns the replica on its own, and the messages they queue
    for each other. *)
From S2P Require Import Prelude Qt Records Requests Synchronizer WatchPaths.
From coqutil Require Import Datatypes.RecordSetters.
Import OCamlLikeNotations.
Open Scope Z_scope.

(** What the worker asks of its replica beyond what a session does: [serve] is [handle]
    without a scan, [inspectAt] what the containers' library tells of a path. *)
Class ReplicaControl `{ReplicaOps} := {
  openAt : QString → QString → replica → bool * replica;
  close : replica → unit * replica;
  serve : QString → jobj → replica → jobj * replica;
  claimPrimaryHost : QString → QString → QString → replica → bool * replica
}.

Module Controller.
Import Records.

(** ** Messages between the threads *)
(** Signals of the worker, with the generation or inspection they belong to. *)
Inductive Note :=
| NamespaceChanged (g : Z) (state : jobj)
| MirrorChanged (g : Z) (b : jobj)
| Request (g : Z) (id p : QString) (payload : jobj)
| Result (g : Z) (key : QString) (response : jobj)
| WorkerStatus (g : Z) (available busy : bool) (error : QString)
| Synchronized (g : Z) (p : QString)
| HostValidated (g : Z) (p : QString)
| Progress (g : Z) (path : QString) (done total : Z)
| VerificationProgress (g : Z) (path : QString) (done total : Z)
| Inspected (g : Z) (path scope : QString) (binding : jobj) (identifier primary : QString).
(** Calls queued for the worker. *)
Inductive Call :=
| Configure (path scope : QString) (revision : Z) (directHost : bool)
| Inspect (path scope : QString) (revision : Z)
| SetHosts (values : list QString) (revision : Z) (accountHost accountContainer : QString)
| Synchronize (revision : Z)
| SetPolicy (p : Synchronizer.ContentPolicy)
| Claim (device : QString) (revision : Z)
| HandleJob (revision : Z) (key p : QString) (message : jobj) (deadline delay : Z)
| Reply (revision : Z) (id : QString) (response : jobj)
| Quit.
(** The two clocks and the shared counters, as the running step reads them. *)
Record Now := mkNow { clock : Z; elapsed : Z; cancellation : Z; inspection : Z }.

(** ** The worker *)
(** SyncWorker. Of a thread it owns it keeps the generation it was started in; of a
    timer whether it runs. [nexts] and [retries] are pending single-shot timers, [notes]
    the signals that have not been delivered, [served] the requests that were answered. *)
Record Worker `{ReplicaOps} := mkWorker {
  generation : Z;
  started : bool;
  retired : bool;
  session : Synchronizer.Session;
  timer : bool;
  changedFiles : bool;
  archiveTimer : bool;
  container : QString;
  primaryClaim : QString;
  pending : bool;
  hostAccess : bool;
  policy : Synchronizer.ContentPolicy;
  verified : option Z;
  hosts : list QString;
  queue : list QString;
  namespaceSnapshot : jobj;
  indexing : option Z;
  archiving : option Z;
  archivePending : bool;
  indexDirty : bool;
  indexRefresh : option Z;
  indexVerified : option Z;
  expectedHost : QString;
  expectedContainer : QString;
  watched : list QString;
  nexts : nat;
  retries : list Call;
  notes : list Note;
  served : list (Z * QString * jobj)
}.

Section worker.
Context {PF : Platform} {R : ReplicaOps} {C : ReplicaControl}.
Variables (uuid : nat → QString).
(** iiSocietyContainer: the root of a shared storage that can be opened, or the error;
    what is read of a container without opening it. [discover] is the walk of
    WatchPaths.v over the sections of a container, nothing when it is cancelled. *)
Variables (sharedOpen : QString → QString + QString).
Variables (bindingAt : QString → jobj) (primaryHostAt : QString → QString → QString) (identifierAt : QString → option QString).
Variable discover : Z → QString → option (list QString).

Definition W (A : Type) : Type := Worker → A * Worker.
Definition ret {A} (a : A) : W A := λ w, (a, w).
Definition bind {A B} (m : W A) (k : A → W B) : W B := λ w, k (m w).1 (m w).2.
Definition get : W Worker := λ w, (w, w).
Definition modify (f : Worker → Worker) : W unit := λ w, (tt, f w).
Notation "'let*' x ':=' a 'in' b" := (bind a (fun x => b))
  (at level 10, x pattern, a at level 100, b at level 200, only parsing).
Notation "a ;; b" := (bind a (fun _ => b)) (at level 100, b at level 200, right associativity, only parsing).

Definition note (x : Note) : W unit := modify (λ w, { w with notes := notes w ++ [x] }).
Definition store (w : Worker) : replica := Synchronizer.store (session w).
(** A call of the replica. *)
Definition call {A} (f : replica → A * replica) : W A := λ w,
  ((f (store w)).1, { w with session := (Synchronizer.call f (session w)).2 }).
Definition opened (w : Worker) : bool := started w && isOpen (store w).
Definition error (w : Worker) : QString := errorString (store w).
Definition publishNamespace : W unit :=
  let* state := call namespaceState in
  let* w := get in
  if bool_decide (state = namespaceSnapshot w) then ret tt else
  modify (λ w, { w with namespaceSnapshot := state }) ;;
  note (NamespaceChanged (generation w) state).
(** The watch set is replaced only by a complete one. *)
Definition refreshWatches (n : Now) : W unit :=
  let* w := get in
  if isEmpty (container w) || negb (cancellation n =? generation w) then ret tt else
  match discover (clock n) (container w) with
  | Some paths => modify (λ w, { w with watched := paths })
  | None => ret tt
  end.
Definition stopIndexing : W unit :=
  modify (λ w, { w with archiveTimer := false; archivePending := false; archiving := None; indexing := None }).

(** *** The slots connected to the session's signals *)
Definition relay (n : Now) (x : Synchronizer.Signal) : W unit :=
  let* w := get in
  match x with
  | Synchronizer.RequestReady id p payload => note (Request (generation w) id p payload)
  | Synchronizer.Progress path done total => note (Progress (generation w) path done total)
  | Synchronizer.MirrorChanged b => stopIndexing ;; note (MirrorChanged (generation w) b)
  | Synchronizer.HostValidated p => note (HostValidated (generation w) p)
  | Synchronizer.Finished p ok e =>
      refreshWatches n ;; publishNamespace ;;
      let* w := get in
      note (WorkerStatus (generation w) (isOpen (store w)) false (if ok then [] else e)) ;;
      (if ok then note (Synchronized (generation w) p) else ret tt) ;;
      modify (λ w, { w with nexts := S (nexts w) })
  | Synchronizer.Published _ => ret tt
  end.
Fixpoint relayAll (n : Now) (l : list Synchronizer.Signal) : W unit :=
  match l with
  | [] => ret tt
  | x :: rest => relay n x ;; relayAll n rest
  end.
(** A call of the session. None of the slots calls it back, so that they may run when
    it has ended. *)
Definition onSession (n : Now) (ev : Synchronizer.Event) : W unit :=
  let* w := get in
  let s := Synchronizer.step uuid (λ _ _, false) (session w) (Synchronizer.occur (clock n) (elapsed n) ev) in
  modify (λ w, { w with session := s }) ;;
  relayAll n (drop (List.length (Synchronizer.out (session w))) (Synchronizer.out s)).
Definition busy (w : Worker) : bool := Synchronizer.active (session w).

(** *** Indexing and archiving *)
Definition archiveFiles : W unit :=
  let* w := get in
  if negb (opened w) then ret tt else
  if bool_decide (is_Some (indexing w)) || busy w || negb (bool_decide (queue w = [])) || changedFiles w
  then modify (λ w, { w with archiveTimer := true })
  else if bool_decide (is_Some (archiving w)) then modify (λ w, { w with archivePending := true })
  else modify (λ w, { w with archiving := Some (generation w) }).
Definition archiveFinished (n : Now) (revision : Z) (ok : bool) (e : QString) : W unit :=
  let* w := get in
  if bool_decide (archiving w ≠ Some revision) || negb (generation w =? revision) then ret tt else
  modify (λ w, { w with archiving := None }) ;;
  if negb (cancellation n =? revision) || negb (opened w) then ret tt else
  (if ok then ret tt else note (WorkerStatus (generation w) true false e)) ;;
  if archivePending w then modify (λ w, { w with archivePending := false; archiveTimer := true }) else ret tt.
Definition indexHost (n : Now) : W unit :=
  let* w := get in
  if bool_decide (is_Some (indexing w)) || negb (opened w) then ret tt else
  if negb (indexDirty w) && match indexRefresh w with Some t => elapsed n - t <? 30000 | None => false end then ret tt else
  modify (λ w, { w with indexDirty := false; indexRefresh := Some (elapsed n); indexVerified := None; indexing := Some (generation w) }).
Definition indexFinished (n : Now) (revision : Z) (indexed : bool) (e : QString) : W unit :=
  let* w := get in
  if bool_decide (indexing w ≠ Some revision) || negb (generation w =? revision) then ret tt else
  modify (λ w, { w with indexing := None }) ;;
  if negb (cancellation n =? revision) || negb (opened w) then ret tt else
  let* ok := (if indexed then call publishStorageMap else ret false) in
  (if ok then ret tt else modify (λ w, { w with indexDirty := true })) ;;
  refreshWatches n ;; publishNamespace ;;
  let* w := get in
  let e := if indexed then error w else e in
  note (WorkerStatus (generation w) true false (if ok then [] else e)) ;;
  if ok then modify (λ w, { w with archiveTimer := true }) else ret tt.

(** *** Requests of peers *)
Definition pinPrimary : W bool :=
  let* w := get in
  if isEmpty (primaryClaim w) then ret true else
  if negb (opened w) then ret false else
  let* claimed := call (claimPrimaryHost (container w) (accountScope (store w)) (primaryClaim w)) in
  if claimed then modify (λ w, { w with primaryClaim := [] }) ;; ret true else ret false.
Definition refusal (e : string) : jobj := obj [("ok", JBool false); ("error", JS e)]%string.
(** The request is answered: what the replica said goes to the owner. *)
Definition answer (revision : Z) (key : QString) (response : jobj) : W unit :=
  modify (λ w, { w with served := served w ++ [(revision, key, response)] }) ;; note (Result revision key response).
Definition handleJob (n : Now) (revision : Z) (key p : QString) (message : jobj) (deadline delay : Z) : W unit :=
  let* w := get in
  if negb (generation w =? revision) || negb (cancellation n =? revision) then ret tt else
  if deadline <=? clock n then answer revision key (refusal "sync_request_timeout") else
  let* pinned := pinPrimary in
  let* response := (if negb pinned then ret (refusal "primary_host_unavailable") else
                    let* b := call binding in
                    if jempty b then call (serve p message) else ret (refusal "mirror_cannot_be_primary_host")) in
  if bool_decide (response.["error"] = JS "sync_store_busy") && (clock n <? deadline)
  then modify (λ w, { w with retries := retries w ++ [HandleJob revision key p message deadline (Z.min 50 (delay * 2))] })
  else
  let action := message.["action"] in
  (if toBool response.["ok"] && (bool_decide (action = JS "drive.write") || bool_decide (action = JS "drive.mkdir"))
   then call publishStorageMap ;; publishNamespace ;; modify (λ w, { w with indexDirty := true }) else ret tt) ;;
  answer revision key response.

(** *** The rounds of synchronisation *)
Definition next (n : Now) : W unit :=
  let* w := get in
  if negb (opened w) || busy w || negb (cancellation n =? generation w) then ret tt else
  match queue w with
  | [] => if pending w then modify (λ w, { w with changedFiles := true }) else ret tt
  | p :: rest =>
      modify (λ w, { w with queue := rest }) ;;
      note (WorkerStatus (generation w) true true []) ;; onSession n (Synchronizer.Start p)
  end.
Definition tick (n : Now) : W unit :=
  let* w := get in
  if negb (opened w) || negb (cancellation n =? generation w) then ret tt else
  if hostAccess w then ret tt else
  let* pinned := pinPrimary in
  if negb pinned then note (WorkerStatus (generation w) true false (u "primary_host_unavailable")) else
  if busy w then modify (λ w, { w with pending := true }) else
  modify (λ w, { w with pending := false }) ;;
  let* adopting := (if bool_decide (hosts w = []) then call bootstrapping else ret true) in
  (if bool_decide (hosts w = []) && negb adopting then
     let* b := call binding in
     let* ok := (if jempty b then
                   let* ok := call publishStorageMap in
                   (if ok then indexHost n else ret tt) ;; ret ok
                 else
                   let* ok := call scan in
                   let* ok := (if ok then call publishStorageMap else ret false) in
                   refreshWatches n ;; ret ok) in
     publishNamespace ;;
     let* w := get in
     note (WorkerStatus (generation w) true false (if ok then [] else error w))
   else ret tt) ;;
  modify (λ w, { w with queue := hosts w }) ;; next n.
Fixpoint insertName (x : QString) (l : list QString) : list QString :=
  match l with
  | [] => [x]
  | y :: rest => if qlt y x then y :: insertName x rest else x :: l
  end.
Definition sortNames (l : list QString) : list QString := foldr insertName [] l.
Definition setHosts (n : Now) (values : list QString) (revision : Z) (accountHost accountContainer : QString) : W unit :=
  let* w := get in
  if negb (generation w =? revision) || negb (started w) then ret tt else
  let values := sortNames (removeDuplicates values) in
  if bool_decide (hosts w = values) && bool_decide (expectedHost w = accountHost)
     && bool_decide (expectedContainer w = accountContainer) then ret tt else
  modify (λ w, { w with expectedHost := accountHost; expectedContainer := accountContainer }) ;;
  onSession n (Synchronizer.SetExpectedHost accountHost accountContainer) ;;
  onSession n Synchronizer.Stop ;;
  modify (λ w, { w with hosts := values; queue := [] }) ;; tick n.

(** *** Configuration *)
Definition initialize (n : Now) : W unit :=
  let* w := get in
  modify (λ w, { w with started := true; timer := true }) ;; onSession n (Synchronizer.SetContentPolicy (policy w)).
Definition openStorage (n : Now) (path scope : QString) : W unit :=
  let* w := get in
  match sharedOpen path with
  | inr e => note (WorkerStatus (generation w) false false e)
  | inl root =>
      let* ok := call (openAt root scope) in
      (if ok then
         modify (λ w, { w with container := root }) ;;
         (if hostAccess w then ret tt else refreshWatches n) ;;
         let* b := call binding in note (MirrorChanged (generation w) b)
       else ret tt) ;;
      let* w := get in note (WorkerStatus (generation w) ok false (if ok then [] else error w))
  end.
Definition configure (n : Now) (path scope : QString) (revision : Z) (directHost : bool) : W unit :=
  if negb (cancellation n =? revision) then ret tt else
  let* w := get in
  (if started w then ret tt else initialize n) ;;
  stopIndexing ;;
  onSession n (Synchronizer.SetExpectedHost [] []) ;;
  modify (λ w, { w with expectedHost := []; expectedContainer := [] }) ;;
  onSession n Synchronizer.Stop ;;
  modify (λ w, { w with generation := revision; queue := []; hosts := [] }) ;;
  call close ;;
  modify (λ w, { w with pending := false; changedFiles := false; container := []; primaryClaim := []; hostAccess := directHost;
                        indexDirty := true; indexRefresh := None; namespaceSnapshot := ∅; watched := [] }) ;;
  if isEmpty scope then note (WorkerStatus revision false false []) else openStorage n path scope.
Definition inspect (n : Now) (path scope : QString) (revision : Z) : W unit :=
  if negb (inspection n =? revision) then ret tt else
  if isEmpty path then note (Inspected revision path scope ∅ [] []) else
  let b := bindingAt path in
  note (Inspected revision path scope b (default [] (identifierAt path))
    (if jempty b then primaryHostAt path scope else toStr b.["host"])).

(** *** The worker's event loop *)
Definition perform (n : Now) (c : Call) : W unit :=
  match c with
  | Configure path scope revision directHost => configure n path scope revision directHost
  | Inspect path scope revision => inspect n path scope revision
  | SetHosts values revision h c => setHosts n values revision h c
  | Synchronize revision =>
      let* w := get in
      if generation w =? revision then modify (λ w, { w with indexDirty := true }) ;; tick n else ret tt
  | SetPolicy p =>
      modify (λ w, { w with policy := p }) ;;
      let* w := get in
      if started w then onSession n Synchronizer.Stop ;; onSession n (Synchronizer.SetContentPolicy p) ;; tick n else ret tt
  | Claim device revision =>
      let* w := get in
      if negb (generation w =? revision) || negb (cancellation n =? revision) then ret tt else
      modify (λ w, { w with primaryClaim := device }) ;;
      let* pinned := pinPrimary in
      let* w := get in
      if pinned then ret tt else note (WorkerStatus revision (opened w) false (u "primary_host_unavailable"))
  | HandleJob revision key p message deadline delay => handleJob n revision key p message deadline delay
  | Reply revision id response =>
      let* w := get in if generation w =? revision then onSession n (Synchronizer.Receive id response) else ret tt
  | Quit =>
      let* w := get in
      (if started w then onSession n Synchronizer.Stop ;; call close else ret tt) ;;
      modify (λ w, { w with retired := true })
  end.
(** What else happens on the worker's thread: its timers, the watcher, the end of its
    threads, the verification of files, and other users of the container. *)
Inductive Turn :=
| Timer | ChangedFiles | ArchiveTimer | Next | Retry (i : nat)
| FilesChanged
| IndexFinished (revision : Z) (ok : bool) (e : QString)
| ArchiveFinished (revision : Z) (ok : bool) (e : QString)
| SessionTurn (i : nat) | SessionTick
| Verified (path : QString) (done total : Z)
| IndexVerified (revision : Z) (path : QString) (done total : Z)
| Elsewhere (f : replica → replica).
Definition reports (last : option Z) (n : Now) (done total : Z) : bool :=
  (done =? 0) || (done =? total) || match last with Some t => 100 <=? elapsed n - t | None => true end.
(** What a turn needs is made with the replica, a retry by a request. *)
Definition possible (t : Turn) (w : Worker) : bool := match t with Retry _ => true | _ => started w end.
Definition turn (n : Now) (t : Turn) : W unit :=
  let* w := get in
  if negb (possible t w) || retired w then ret tt else
  match t with
  | Timer => if timer w then tick n else ret tt
  | ChangedFiles => if changedFiles w then modify (λ w, { w with changedFiles := false }) ;; tick n else ret tt
  | ArchiveTimer => if archiveTimer w then modify (λ w, { w with archiveTimer := false }) ;; archiveFiles else ret tt
  | Next => match nexts w with S k => modify (λ w, { w with nexts := k }) ;; next n | O => ret tt end
  | Retry i =>
      match retries w !! i with
      | Some c => modify (λ w, { w with retries := delete i (retries w) }) ;; perform n c
      | None => ret tt
      end
  | FilesChanged => modify (λ w, { w with indexDirty := true; pending := true; archiveTimer := true; changedFiles := true })
  | IndexFinished revision ok e => indexFinished n revision ok e
  | ArchiveFinished revision ok e => archiveFinished n revision ok e
  | SessionTurn i => onSession n (Synchronizer.Expire i)
  | SessionTick => onSession n Synchronizer.Tick
  | Verified path done total =>
      if reports (verified w) n done total then
        modify (λ w, { w with verified := Some (elapsed n) }) ;; note (VerificationProgress (generation w) path done total)
      else ret tt
  | IndexVerified revision path done total =>
      if bool_decide (indexing w = Some revision) && reports (indexVerified w) n done total then
        modify (λ w, { w with indexVerified := Some (elapsed n) }) ;; note (VerificationProgress revision path done total)
      else ret tt
  | Elsewhere f => onSession n (Synchronizer.Elsewhere f)
  end.
(** A worker before its first configuration. *)
Definition idle (r : replica) : Worker := {|
  generation := 0; started := false; retired := false; session := Synchronizer.idle r; timer := false; changedFiles := false;
  archiveTimer := false; container := []; primaryClaim := []; pending := false; hostAccess := false;
  policy := Synchronizer.MetadataFirst; verified := None; hosts := []; queue := []; namespaceSnapshot := ∅; indexing := None;
  archiving := None; archivePending := false; indexDirty := true; indexRefresh := None; indexVerified := None;
  expectedHost := []; expectedContainer := []; watched := []; nexts := 0; retries := []; notes := []; served := [] |}.
End worker.

(** ** The owner *)
Record Job := mkJob { request : jobj; result : jobj; finished : bool; created : Z; jobPeer : QString }.
Record Task := mkTask { revisionOf : Z; objectPath : QString; provider : QString; restore : bool; reported : bool }.
(** Signals of the controller, and what it sends. *)
Inductive Signal :=
| Told (x : Note)
| Changed
| ProviderFinished (path provider : QString) (restored ok : bool) (e : QString)
| Sent (p : QString) (payload : jobj)
| Published (c : Synchronizer.StatusCode).
(** What happens to a job: it is taken, the worker answers it, its result arrives, it is
    forgotten. *)
Inductive JobEvent :=
| Taken (key : QString) | Executed (key : QString) (r : jobj) | Answered (key : QString) (r : jobj) | Forgotten (key : QString).
(** Controller::Private, with the two counters it shares with the worker, the calls that
    wait for the worker, and what has been told. *)
Record Owner := mkOwner {
  jobs : gmap QString Job;
  transportIds : gmap QString QString;
  authorized : gset QString;
  syncStatus : Synchronizer.StatusCode;
  incomingSnapshots : gmap QString Z;
  path : QString;
  scope : QString;
  message : QString;
  ready : bool;
  working : bool;
  opening : bool;
  shutdown : bool;
  directAccess : bool;
  providers : list Task;
  current : Z;
  inspecting : Z;
  calls : list Call;
  sends : nat;
  out : list Signal;
  story : list JobEvent
}.
Section owner.
Context {PF : Platform}.
(** The sender that the application gave, if any: the n-th request it is handed gets
    the identifier of the transport, or none. *)
Variable sender : option (nat → QString → jobj → QString).

Definition O (A : Type) : Type := Owner → A * Owner.
Definition oret {A} (a : A) : O A := λ o, (a, o).
Definition obind {A B} (m : O A) (k : A → O B) : O B := λ o, k (m o).1 (m o).2.
Definition oget : O Owner := λ o, (o, o).
Definition omodify (f : Owner → Owner) : O unit := λ o, (tt, f o).
Notation "'let*' x ':=' a 'in' b" := (obind a (fun x => b))
  (at level 10, x pattern, a at level 100, b at level 200, only parsing).
Notation "a ;; b" := (obind a (fun _ => b)) (at level 100, b at level 200, right associativity, only parsing).

Definition tell (x : Signal) : O unit := omodify (λ o, { o with out := out o ++ [x] }).
Definition invoke (c : Call) : O unit := omodify (λ o, { o with calls := calls o ++ [c] }).
(** Status::publish. *)
Definition publish (c : Synchronizer.StatusCode) : O unit :=
  let* o := oget in
  if bool_decide (syncStatus o = c) then oret tt else omodify (λ o, { o with syncStatus := c }) ;; tell (Published c).
Definition noSnapshots (o : Owner) : bool := bool_decide (incomingSnapshots o = ∅).

(** *** Signals of the worker *)
Definition onStatus (available active : bool) (e : QString) : O unit :=
  let* o := oget in
  (if active || negb (noSnapshots o) then publish Synchronizer.InProgress
   else if negb (isEmpty e) then publish (if bool_decide (e = u "cancelled") then Synchronizer.Cancelled else Synchronizer.Failed)
   else oret tt) ;;
  if negb (opening o) && eqb (ready o) available && eqb (working o) active && bool_decide (message o = e) then oret tt else
  omodify (λ o, { o with ready := available; working := active; opening := false; message := e }) ;; tell Changed.
Definition onRequest (g : Z) (id p : QString) (payload : jobj) : O unit :=
  let* o := oget in
  match sender with
  | None => oret tt
  | Some send =>
      if bool_decide (p ∉ authorized o) then oret tt else
      let networkId := send (sends o) p payload in
      omodify (λ o, { o with sends := S (sends o) }) ;; tell (Sent p payload) ;;
      if isEmpty networkId
      then invoke (Reply g id (obj [("ok", JBool false); ("error", JS "transport_unavailable")]%string))
      else omodify (λ o, { o with transportIds := <[networkId := id]> (transportIds o) })
  end.
Definition onResult (key : QString) (r : jobj) : O unit :=
  let* o := oget in
  match jobs o !! key with
  | None => oret tt
  | Some j =>
      omodify (λ o, { o with jobs := <[key := mkJob (request j) r true (created j) (jobPeer j)]> (jobs o);
                             story := story o ++ [Answered key r] }) ;;
      let asked := toObj (request j).["message"] in
      if bool_decide (jobPeer j ∈ dom (incomingSnapshots o))
         && (negb (toBool r.["ok"]) || bool_decide (asked.["action"] = JS "snapshot.complete")) then
        omodify (λ o, { o with incomingSnapshots := delete (jobPeer j) (incomingSnapshots o) }) ;;
        let* o := oget in
        if negb (working o) && noSnapshots o
        then publish (if toBool r.["ok"] then Synchronizer.Complete else Synchronizer.Failed) else oret tt
      else oret tt
  end.
(** A queued signal reaches the owner: those of an earlier generation are dropped. *)
Definition deliver (x : Note) : O unit :=
  let* o := oget in
  match x with
  | Inspected revision _ _ _ _ _ => if shutdown o || negb (inspecting o =? revision) then oret tt else tell (Told x)
  | WorkerStatus g available active e => if g =? current o then onStatus available active e else oret tt
  | Request g id p payload => if g =? current o then onRequest g id p payload else oret tt
  | Result g key r => if g =? current o then onResult key r else oret tt
  | Synchronized g p =>
      if g =? current o then publish (if noSnapshots o then Synchronizer.Complete else Synchronizer.InProgress) ;; tell (Told x) else oret tt
  | NamespaceChanged g _ | MirrorChanged g _ | HostValidated g _ | Progress g _ _ _ | VerificationProgress g _ _ _ =>
      if g =? current o then tell (Told x) else oret tt
  end.

(** *** Calls of the application *)
(** Jobs leave in the order of their keys. *)
Definition keys (m : gmap QString Job) : list QString := sortNames (map fst (map_to_list m)).
Definition forget (which : Job → bool) : O unit := omodify (λ o, {
  o with jobs := filter (λ kv : QString * Job, which kv.2 = false) (jobs o);
         story := story o ++ map Forgotten (keys (filter (λ kv : QString * Job, which kv.2 = true) (jobs o))) }).
Definition openInternal (container accountScope : QString) (direct : bool) : O unit :=
  let* o := oget in
  if shutdown o then oret tt else
  if bool_decide (path o = container) && bool_decide (scope o = accountScope) && eqb (directAccess o) direct
     && negb (isEmpty accountScope) && (ready o || opening o) then oret tt else
  let revision := wrap64 (current o + 1) in
  let cancelled := isEmpty container && (working o || negb (noSnapshots o)) in
  omodify (λ o, { o with current := revision; incomingSnapshots := ∅ }) ;;
  publish (if cancelled then Synchronizer.Cancelled else Synchronizer.Before) ;;
  omodify (λ o, { o with path := container; scope := accountScope; ready := false; working := false; message := [];
                         opening := negb (isEmpty accountScope); directAccess := direct }) ;;
  forget (λ _, true) ;; omodify (λ o, { o with transportIds := ∅; authorized := ∅ }) ;;
  invoke (Configure container accountScope revision direct) ;; tell Changed.
Definition closeController : O unit :=
  let* o := oget in if isEmpty (scope o) && isEmpty (path o) then oret tt else openInternal [] [] false.
Definition inspectContainer (container accountScope : QString) : O unit :=
  let* o := oget in
  if shutdown o then oret tt else
  let revision := wrap64 (inspecting o + 1) in
  omodify (λ o, { o with inspecting := revision }) ;; invoke (Inspect container accountScope revision).
(** What the worker has queued is still delivered, and stale. *)
Definition stopWorker : O unit :=
  omodify (λ o, { o with current := wrap64 (current o + 1); inspecting := wrap64 (inspecting o + 1) }) ;; invoke Quit.
Definition shutdownAsync : O unit :=
  let* o := oget in
  if shutdown o then oret tt else
  omodify (λ o, { o with shutdown := true }) ;;
  (if working o || negb (noSnapshots o) then publish Synchronizer.Cancelled else oret tt) ;;
  omodify (λ o, { o with incomingSnapshots := ∅; ready := false; working := false; opening := false }) ;;
  forget (λ _, true) ;; omodify (λ o, { o with transportIds := ∅; authorized := ∅ }) ;;
  stopWorker.
Definition setPeers (authorizedPeers remoteHosts : list QString) (accountHost accountContainer : QString) : O unit :=
  let* o := oget in
  if shutdown o then oret tt else
  let known : gset QString := list_to_set authorizedPeers in
  let incoming := filter (λ kv : QString * Z, kv.1 ∈ known) (incomingSnapshots o) in
  let cancelled := negb (bool_decide (incoming = incomingSnapshots o)) in
  omodify (λ o, { o with authorized := known; incomingSnapshots := incoming }) ;;
  (if cancelled && bool_decide (incoming = ∅) && negb (working o) then publish Synchronizer.Cancelled else oret tt) ;;
  invoke (SetHosts (List.filter (λ h, bool_decide (h ∈ known)) remoteHosts) (current o) accountHost accountContainer).
Definition unlessShutdown (c : Owner → Call) : O unit := let* o := oget in if shutdown o then oret tt else invoke (c o).
Definition synchronizeNow : O unit := unlessShutdown (λ o, Synchronize (current o)).
Definition setContentPolicy (p : Synchronizer.ContentPolicy) : O unit := unlessShutdown (λ _, SetPolicy p).
Definition claimPrimary (device : QString) : O unit :=
  if isEmpty device then oret tt else unlessShutdown (λ o, Claim device (current o)).
Definition receive (networkId : QString) (response : jobj) : O unit :=
  let* o := oget in
  if shutdown o then oret tt else
  let id := default [] (transportIds o !! networkId) in
  omodify (λ o, { o with transportIds := delete networkId (transportIds o) }) ;;
  if isEmpty id then oret tt else invoke (Reply (current o) id response).
(** *** Providers: at most two at a time *)
Definition providerTask (objectPath : QString) (given : option QString) (restore : bool) : O unit :=
  let* o := oget in
  match given with None => oret tt | Some provider =>
  if shutdown o then oret tt else
  if negb (ready o) || (2 <=? List.length (providers o))%nat
  then tell (ProviderFinished objectPath provider restore false (if ready o then u "provider_busy" else u "sync_container_unavailable"))
  else omodify (λ o, { o with providers := providers o ++ [mkTask (current o) objectPath provider restore false] })
  end.
Definition providerReports (i : nat) (ok : bool) (e : QString) : O unit :=
  let* o := oget in
  match providers o !! i with
  | Some t =>
      if reported t then oret tt else
      omodify (λ o, { o with providers := <[i := mkTask (revisionOf t) (objectPath t) (provider t) (restore t) true]> (providers o) }) ;;
      if revisionOf t =? current o then tell (ProviderFinished (objectPath t) (provider t) (restore t) ok e) else oret tt
  | None => oret tt
  end.
Definition providerEnds (i : nat) : O unit := omodify (λ o, { o with providers := delete i (providers o) }).

(** *** Requests of peers *)
Definition failed (e : string) : jobj := refusal e.
Definition waiting : jobj := obj [("ok", JBool true); ("pending", JBool true)]%string.
Definition ready_with (r : jobj) : jobj := obj [("ok", JBool true); ("result", JObj r)]%string.
Definition nullId (v : jval) : bool := negb (bool_decide (is_Some (parseUuid (toStr v)))).
(** What is wrong with an envelope of [p], if anything. *)
Definition objection (o : Owner) (p : QString) (envelope : jobj) : option string :=
  let m := toObj envelope.["message"] in
  let action := toStr m.["action"] in
  let entry := toObj m.["entry"] in
  if bool_decide (p ∉ authorized o) || isEmpty (scope o) || negb (bool_decide (toStr envelope.["scope"] = scope o))
  then Some "sync_peer_not_authorized"%string else
  if negb (ready o) then Some "sync_container_unavailable"%string else
  if negb (bool_decide (envelope.["namespaceVersion"] = JNum 1)) then Some "namespace_authority_protocol_required"%string else
  if negb (bool_decide (envelope.["op"] = JS "society.sync")) || negb (toInt envelope.["protocol"] =? 2) || nullId envelope.["token"]
     || negb (isObject envelope.["message"]) || (410000 <? Z.of_nat (List.length (toJson envelope)))
  then Some "invalid_sync_envelope"%string else
  if directAccess o && negb (startsWith action (u "drive.")) then Some "host_access_operation_required"%string else
  if (bool_decide (action = u "begin") || bool_decide (action = u "chunk") || bool_decide (action = u "commit")
      || bool_decide (action = u "apply"))
     && (negb (jcontains entry "baseRevision") || jcontains entry "revision" || negb (validRecord entry))
  then Some "namespace_proposal_required"%string else
  if negb (bool_decide (m.["action"] = JS "describe")) && nullId m.["container"] then Some "logical_container_required"%string else
  None.
Definition jobKey (p token : QString) : QString := p ++ u "/" ++ token.
(** The oldest finished job, the first of its age. *)
Fixpoint oldestOf (m : gmap QString Job) (l : list QString) (found : option (QString * Job)) : option (QString * Job) :=
  match l with
  | [] => found
  | k :: rest =>
      oldestOf m rest
        (match m !! k with
         | Some j => if finished j && match found with Some (_, b) => created j <? created b | None => true end then Some (k, j) else found
         | None => found
         end)
  end.
Definition oldest (m : gmap QString Job) : option (QString * Job) := oldestOf m (keys m) None.
(** Room for one more job, by forgetting finished ones. *)
Fixpoint makeRoom (fuel : nat) : O bool :=
  let* o := oget in
  if (size (jobs o) <? 32)%nat then oret true else
  match fuel, oldest (jobs o) with
  | S fuel, Some (k, _) =>
      omodify (λ o, { o with jobs := delete k (jobs o); story := story o ++ [Forgotten k] }) ;; makeRoom fuel
  | _, _ => oret false
  end.
Definition snapshotLife : Z := 120000.
Definition admit_job (n : Now) (key p : QString) (envelope : jobj) : O jobj :=
  forget (λ j, finished j && (60000 <? clock n - created j)) ;;
  let* o := oget in
  let* room := makeRoom (size (jobs o)) in
  if negb room then oret (failed "sync_endpoint_busy") else
  omodify (λ o, { o with jobs := <[key := mkJob envelope ∅ false (clock n) p]> (jobs o); story := story o ++ [Taken key] }) ;;
  let m := toObj envelope.["message"] in
  (if bool_decide (m.["action"] = JS "manifest") && isObject m.["snapshot"]
   then omodify (λ o, { o with incomingSnapshots := <[p := elapsed n + snapshotLife]> (incomingSnapshots o) }) else oret tt) ;;
  let* o := oget in
  (if bool_decide (is_Some (incomingSnapshots o !! p))
   then omodify (λ o, { o with incomingSnapshots := <[p := elapsed n + snapshotLife]> (incomingSnapshots o) }) ;;
        publish Synchronizer.InProgress
   else oret tt) ;;
  let* o := oget in
  invoke (HandleJob (current o) key p m (clock n + 120000) 1) ;; oret waiting.
Definition handle (n : Now) (p : QString) (envelope : jobj) : O jobj :=
  let* o := oget in
  match objection o p envelope with
  | Some e => oret (failed e)
  | None =>
      let key := jobKey p (toStr envelope.["token"]) in
      match jobs o !! key with
      | Some j =>
          if negb (bool_decide (request j = envelope)) then oret (failed "different_request_token_reuse")
          else if finished j then oret (ready_with (result j)) else oret waiting
      | None => admit_job n key p envelope
      end
  end.
(** The timer of the snapshots. *)
Definition snapshotTimeout (n : Now) : O unit :=
  let* o := oget in
  let kept := filter (λ kv : QString * Z, negb (kv.2 <=? elapsed n) = true) (incomingSnapshots o) in
  omodify (λ o, { o with incomingSnapshots := kept }) ;;
  if negb (bool_decide (kept = incomingSnapshots o)) && bool_decide (kept = ∅) && negb (working o)
  then publish Synchronizer.Failed else oret tt.

(** A controller as it is constructed. *)
Definition created_ : Owner := {|
  jobs := ∅; transportIds := ∅; authorized := ∅; syncStatus := Synchronizer.Before; incomingSnapshots := ∅;
  path := []; scope := []; message := []; ready := false; working := false; opening := false; shutdown := false;
  directAccess := false; providers := []; current := 0; inspecting := 0; calls := []; sends := 0; out := []; story := [] |}.

Inductive Api :=
| Open (container accountScope : QString) | OpenHostAccess (container accountScope : QString) | Close
| InspectContainer (container accountScope : QString) | ShutdownAsync
| SetPeers (authorizedPeers remoteHosts : list QString) (accountHost accountContainer : QString)
| SynchronizeNow | SetContentPolicy (p : Synchronizer.ContentPolicy) | ClaimPrimaryHost (device : QString)
| PlaceObject (path : QString) (provider : option QString) | RestoreObject (path : QString) (provider : option QString)
| Handle (p : QString) (envelope : jobj) | Receive (networkId : QString) (response : jobj)
| SnapshotTimeout | ProviderReports (i : nat) (ok : bool) (e : QString) | ProviderEnds (i : nat).
Definition api (n : Now) (a : Api) : O unit :=
  match a with
  | Open c s => openInternal c s false
  | OpenHostAccess c s => openInternal c s true
  | Close => closeController
  | InspectContainer c s => inspectContainer c s
  | ShutdownAsync => shutdownAsync
  | SetPeers a r h c => setPeers a r h c
  | SynchronizeNow => synchronizeNow
  | SetContentPolicy p => setContentPolicy p
  | ClaimPrimaryHost d => claimPrimary d
  | PlaceObject path p => providerTask path p false
  | RestoreObject path p => providerTask path p true
  | Handle p envelope => handle n p envelope ;; oret tt
  | Receive id response => receive id response
  | SnapshotTimeout => snapshotTimeout n
  | ProviderReports i ok e => providerReports i ok e
  | ProviderEnds i => providerEnds i
  end.
End owner.

(** ** Both threads *)
Record System `{ReplicaOps} := mkSystem { owner : Owner; worker : Worker; log : list JobEvent }.
Arguments mkSystem {_} _ _ _.
Section system.
Context {PF : Platform} {R : ReplicaOps} {C : ReplicaControl}.
Variables (uuid : nat → QString) (sharedOpen : QString → QString + QString).
Variables (bindingAt : QString → jobj) (primaryHostAt : QString → QString → QString) (identifierAt : QString → option QString).
Variable discover : Z → QString → option (list QString).
Variable sender : option (nat → QString → jobj → QString).
Notation perform := (perform uuid sharedOpen bindingAt primaryHostAt identifierAt discover).
Notation turn := (turn uuid sharedOpen bindingAt primaryHostAt identifierAt discover).

(** A step of either thread at a time of both clocks; the shared counters are the
    owner's. What happens to jobs is logged in order. *)
Definition now (at_ since : Z) (s : System) : Now := mkNow at_ since (current (owner s)) (inspecting (owner s)).
Definition ownerStep (f : Owner → Owner) (s : System) : System :=
  let o := f (owner s) in
  mkSystem o (worker s) (log s ++ drop (List.length (story (owner s))) (story o)).
Definition workerStep (f : Worker → Worker) (s : System) : System :=
  let w := f (worker s) in
  mkSystem (owner s) w
    (log s ++ map (λ e : Z * QString * jobj, Executed e.1.2 e.2) (drop (List.length (served (worker s))) (served w))).
Inductive Step :=
| OwnerCalls (a : Api) | OwnerNext
| WorkerNext | WorkerTurn (t : Turn).
Record Occurrence := occur { at_ : Z; since : Z; what : Step }.
(** The event loops take what was queued first; a retired worker takes nothing. *)
Definition step (s : System) (x : Occurrence) : System :=
  let n := now (at_ x) (since x) s in
  match what x with
  | OwnerCalls a => ownerStep (λ o, (api n a o).2) s
  | OwnerNext =>
      match notes (worker s) with
      | [] => s
      | x :: rest =>
          ownerStep (λ o, (deliver sender x o).2) (mkSystem (owner s) { (worker s) with notes := rest } (log s))
      end
  | WorkerNext =>
      match calls (owner s) with
      | [] => s
      | c :: rest =>
          if retired (worker s) then s else
          workerStep (λ w, (perform n c w).2) (mkSystem { (owner s) with calls := rest } (worker s) (log s))
      end
  | WorkerTurn t => workerStep (λ w, (turn n t w).2) s
  end.
Definition history (s : System) (l : list Occurrence) : System := foldl step s l.
Definition initial (r : replica) : System := mkSystem created_ (idle r) [].
(** closeAndWait: the owner stands still while the worker takes turns and calls, in any
    order, until what was queued is done. *)
Definition workerOnly (x : Occurrence) : bool :=
  match what x with WorkerNext | WorkerTurn _ => true | _ => false end.
Definition closeAndWait (l : list Occurrence) (at_ since : Z) (s : System) : System :=
  if shutdown (owner s) then s else
  let s := step s (occur at_ since (OwnerCalls Close)) in
  let s := history s (List.filter workerOnly l) in
  history s (replicate (List.length (calls (owner s))) (occur at_ since WorkerNext)).
End system.
End Controller.
