(* ===== verification/ControllerLaws.v ===== *)
(** What the worker's operations leave alone, and what becomes of one request. *)
From S2P Require Import Prelude Qt Records Requests Synchronizer WatchPaths Controller.
From coqutil Require Import Datatypes.RecordSetters.
Import OCamlLikeNotations.
Open Scope Z_scope.

Module ControllerLaws.
Import Records Controller.

Create HintDb controller discriminated.
(** The generation a signal belongs to. *)
Definition generationOf (x : Note) : option Z :=
  match x with
  | NamespaceChanged g _ | MirrorChanged g _ | Request g _ _ _ | Result g _ _ | WorkerStatus g _ _ _ | Synchronized g _
  | HostValidated g _ | Progress g _ _ _ | VerificationProgress g _ _ _ => Some g
  | Inspected _ _ _ _ _ _ => None
  end.
(** A signal of the generation [g] that answers no request. *)
Definition news (g : Z) (x : Note) : Prop :=
  match x with
  | Result _ _ _ => False
  | Inspected _ _ _ _ _ _ => True
  | _ => generationOf x = Some g
  end.
(** The indexer that runs was started in the present generation. *)
Definition indexed `{ReplicaOps} (w : Worker) : Prop := ∀ r, indexing w = Some r → r = generation w.

(** From [w] to [w'] no request was answered or put off, and the generation stayed. *)
Record calm `{ReplicaOps} (w w' : Worker) : Prop := {
  calm_generation : generation w' = generation w;
  calm_retries : retries w' = retries w;
  calm_served : served w' = served w;
  calm_retired : retired w' = retired w;
  calm_indexed : indexed w → indexed w';
  calm_notes : indexed w → ∃ l, notes w' = notes w ++ l ∧ Forall (news (generation w)) l
}.
Section laws.
Context {PF : Platform} {R : ReplicaOps} {C : ReplicaControl}.
Variables (uuid : nat → QString) (sharedOpen : QString → QString + QString).
Variables (bindingAt : QString → jobj) (primaryHostAt : QString → QString → QString) (identifierAt : QString → option QString).
Variable discover : Z → QString → option (list QString).
Notation perform := (perform uuid sharedOpen bindingAt primaryHostAt identifierAt discover).
Notation turn := (turn uuid sharedOpen bindingAt primaryHostAt identifierAt discover).
Notation onSession := (onSession uuid discover).
Notation relayAll := (relayAll discover).

#[export] Instance calm_preorder : PreOrder calm.
Proof.
  split.
  - intros w. split; [done..|]. intros _. exists []. by rewrite app_nil_r.
  - intros a b c [] []. split; [congruence..|auto|]. intros Hi.
    destruct calm_notes0 as (l & El & Hl); [done|]. destruct calm_notes1 as (k & Ek & Hk); [auto|].
    exists (l ++ k). split; [by rewrite Ek, El, app_assoc|]. apply Forall_app; split; [done|]. by rewrite <- calm_generation0.
Qed.
Lemma calm_refl w : calm w w.
Proof. reflexivity. Qed.
(** [m] is calm in every state of the generation [g]. *)
Definition quiet (g : Z) {A} (m : W A) : Prop := ∀ w, generation w = g → calm w (m w).2.
Lemma hush_ret g {A} (a : A) : quiet g (ret a).
Proof. intros w _. reflexivity. Qed.
Lemma hush_bind g {A B} (m : W A) (k : A → W B) : quiet g m → (∀ a, quiet g (k a)) → quiet g (bind m k).
Proof.
  intros Hm Hk w Hg. pose proof (Hm w Hg) as H. transitivity (m w).2; [done|]. apply Hk. by rewrite (calm_generation _ _ H).
Qed.
Lemma hush_get g {B} (k : Worker → W B) : (∀ w, generation w = g → quiet g (k w)) → quiet g (bind get k).
Proof. intros Hk w Hg. by apply Hk. Qed.
(** An update of the other fields. *)
Definition aside (w w' : Worker) : Prop :=
  generation w' = generation w ∧ retries w' = retries w ∧ served w' = served w ∧ retired w' = retired w
  ∧ notes w' = notes w ∧ (indexing w' = indexing w ∨ indexing w' = None ∨ indexing w' = Some (generation w)).
Lemma aside_calm w w' : aside w w' → calm w w'.
Proof.
  intros (Eg & ? & ? & ? & En & Hi). split; [done..| |].
  - intros Hw r. destruct Hi as [E|[E|E]]; rewrite E; [|done|intros [= <-]; done]. intros Hr. rewrite Eg. by apply Hw.
  - intros _. exists []. by rewrite app_nil_r.
Qed.
Lemma hush_modify g f : (∀ w, generation w = g → aside w (f w)) → quiet g (modify f).
Proof. intros H w Hg. by apply aside_calm, H. Qed.
Lemma hush_note g x : news g x → quiet g (note x).
Proof. intros H w <-. split; [done..|]. intros Hi. by exists [x]; repeat constructor. Qed.
Lemma hush_call g {A} (f : replica → A * replica) : quiet g (call f).
Proof. intros w _. apply aside_calm. destruct w. unfold aside. cbn. tauto. Qed.
Hint Resolve hush_ret hush_call hush_note : controller.
Ltac quieten1 :=
  match goal with
  | |- quiet _ (bind get _) => apply hush_get; intros ? ?
  | |- quiet _ (bind _ _) => apply hush_bind; [|intros ?]
  | |- quiet _ (ret _) => apply hush_ret
  | |- quiet _ (call _) => apply hush_call
  | |- quiet _ (note _) => apply hush_note; first [exact I | cbn; congruence | cbn; f_equal; lia]
  | |- quiet _ (modify _) => apply hush_modify; let w := fresh in intros w ?; destruct w; unfold aside; cbn in *; tauto || (subst; tauto)
  | |- quiet _ (match ?x with _ => _ end) => let E := fresh "E" in destruct x eqn:E
  | |- quiet _ (let _ := _ in _) => cbv zeta
  end.
Ltac quieten := repeat first [quieten1 | solve [eauto with controller]].
Lemma publishNamespace_quiet g : quiet g publishNamespace.
Proof. unfold publishNamespace. quieten. Qed.
Hint Resolve publishNamespace_quiet : controller.
Lemma refreshWatches_quiet g n : quiet g (refreshWatches discover n).
Proof. unfold refreshWatches. quieten. Qed.
Hint Resolve refreshWatches_quiet : controller.
Lemma stopIndexing_quiet g : quiet g stopIndexing.
Proof. unfold stopIndexing. quieten. Qed.
Hint Resolve stopIndexing_quiet : controller.
Lemma relayAll_quiet g n l : quiet g (relayAll n l).
Proof. induction l as [|x l IH]; cbn; [quieten|]. apply hush_bind; [|done]. unfold relay. quieten. Qed.
Hint Resolve relayAll_quiet : controller.
Lemma onSession_quiet g n ev : quiet g (onSession n ev).
Proof. unfold Controller.onSession. quieten. Qed.
Hint Resolve onSession_quiet : controller.
Lemma pinPrimary_quiet g : quiet g pinPrimary.
Proof. unfold pinPrimary. quieten. Qed.
Hint Resolve pinPrimary_quiet : controller.
Lemma archiveFiles_quiet g : quiet g archiveFiles.
Proof. unfold archiveFiles. quieten. Qed.
Hint Resolve archiveFiles_quiet : controller.
Lemma archiveFinished_quiet g n r ok e : quiet g (archiveFinished n r ok e).
Proof. unfold archiveFinished. quieten. Qed.
Hint Resolve archiveFinished_quiet : controller.
Lemma indexHost_quiet g n : quiet g (indexHost n).
Proof. unfold indexHost. quieten. Qed.
Hint Resolve indexHost_quiet : controller.
Lemma indexFinished_quiet g n r ok e : quiet g (indexFinished discover n r ok e).
Proof. unfold indexFinished. quieten. Qed.
Hint Resolve indexFinished_quiet : controller.
Lemma next_quiet g n : quiet g (next uuid discover n).
Proof. unfold next. quieten. Qed.
Hint Resolve next_quiet : controller.
Lemma tick_quiet g n : quiet g (tick uuid discover n).
Proof. unfold tick. quieten. Qed.
Hint Resolve tick_quiet : controller.
Lemma setHosts_quiet g n v r a c : quiet g (setHosts uuid discover n v r a c).
Proof. unfold setHosts. quieten. Qed.
Hint Resolve setHosts_quiet : controller.
Lemma initialize_quiet g n : quiet g (initialize uuid discover n).
Proof. unfold initialize. quieten. Qed.
Hint Resolve initialize_quiet : controller.
Lemma openStorage_quiet g n p a : quiet g (openStorage sharedOpen discover n p a).
Proof. unfold openStorage. quieten. Qed.
Hint Resolve openStorage_quiet : controller.
Lemma inspect_quiet g n p a r : quiet g (inspect bindingAt primaryHostAt identifierAt n p a r).
Proof. unfold inspect. quieten. Qed.
Hint Resolve inspect_quiet : controller.

(** *** What becomes of one request *)
Notation "'let*' x ':=' a 'in' b" := (bind a (fun x => b))
  (at level 10, x pattern, a at level 100, b at level 200, only parsing).
Notation "a ;; b" := (bind a (fun _ => b)) (at level 100, b at level 200, right associativity, only parsing).
(** The request is put off, or it is answered with [r]; nothing else happens to requests. *)
Definition postpones (c : Call) (w w' : Worker) : Prop :=
  ∃ w0, calm w w0 ∧ w' = { w0 with retries := retries w0 ++ [c] }.
Definition answers (g : Z) (key : QString) (r : jobj) (w w' : Worker) : Prop :=
  ∃ w0, calm w w0 ∧ w' = (answer g key r w0).2.
Definition settled (n : Now) (g : Z) (key p : QString) (m : jobj) (deadline : Z) (w w' : Worker) : Prop :=
  (clock n < deadline ∧ ∃ d, postpones (HandleJob g key p m deadline d) w w') ∨ ∃ r, answers g key r w w'.
Section job.
Context (n : Now) (g : Z) (key p : QString) (m : jobj) (deadline : Z).
Definition settles {A} (f : W A) : Prop := ∀ w, generation w = g → settled n g key p m deadline w (f w).2.
Lemma settles_bind {A B} (f : W A) (k : A → W B) : quiet g f → (∀ a, settles (k a)) → settles (bind f k).
Proof.
  intros Hf Hk w Hg. pose proof (Hf w Hg) as H.
  destruct (Hk (f w).1 (f w).2) as [[Hd [d (w0 & H0 & E)]]|[r (w0 & H0 & E)]]; [by rewrite (calm_generation _ _ H)| |].
  - left. split; [done|]. exists d, w0. split; [by transitivity (f w).2|done].
  - right. exists r, w0. split; [by transitivity (f w).2|done].
Qed.
Lemma settles_answer r : settles (answer g key r).
Proof. intros w _. right. exists r, w. done. Qed.
Lemma settles_retry d : clock n < deadline → settles (modify (λ w, { w with retries := retries w ++ [HandleJob g key p m deadline d] })).
Proof. intros Hd w _. left. split; [done|]. exists d, w. done. Qed.
Lemma handleJob_settles delay w : generation w = g → cancellation n = g →
  settled n g key p m deadline w (handleJob n g key p m deadline delay w).2.
Proof.
  intros Hg Hn. unfold handleJob. unfold bind at 1, get at 1. cbn [fst snd].
  rewrite Hg, Hn, Z.eqb_refl. cbn [negb orb].
  destruct (deadline <=? clock n) eqn:Ed; [by apply settles_answer|]. apply Z.leb_gt in Ed.
  revert w Hg. change (settles (let* pinned := pinPrimary in
    let* response := (if negb pinned then ret (refusal "primary_host_unavailable") else
                    let* b := call binding in
                    if jempty b then call (serve p m) else ret (refusal "mirror_cannot_be_primary_host")) in
    if bool_decide (response.["error"] = JS "sync_store_busy") && (clock n <? deadline)
    then modify (λ w, { w with retries := retries w ++ [HandleJob g key p m deadline (Z.min 50 (delay * 2))] })
    else
    (if toBool response.["ok"] && (bool_decide (m.["action"] = JS "drive.write") || bool_decide (m.["action"] = JS "drive.mkdir"))
     then call publishStorageMap ;; publishNamespace ;; modify (λ w, { w with indexDirty := true }) else ret tt) ;;
    answer g key response)).
  apply settles_bind; [eauto with controller|intros pinned]. apply settles_bind; [quieten|intros response].
  destruct (bool_decide _ && _) eqn:E; [by apply settles_retry|].
  apply settles_bind; [quieten|intros _]. apply settles_answer.
Qed.
End job.
(** A request of another generation is dropped. *)
Lemma handleJob_stale n g key p m deadline delay w : generation w ≠ g ∨ cancellation n ≠ g →
  (handleJob n g key p m deadline delay w).2 = w.
Proof.
  intros H. unfold handleJob, bind, get. cbn [fst snd].
  destruct (generation w =? g) eqn:E1; [|done]. destruct (cancellation n =? g) eqn:E2; [lia|done].
Qed.
(** Every other call and turn is calm; only a configuration moves the generation, to the
    one it was asked for, and only the last call retires the worker. *)
Definition plainCall (c : Call) : Prop :=
  match c with Configure _ _ _ _ | HandleJob _ _ _ _ _ _ | Quit => False | _ => True end.
Lemma hush_calm {A} (m : W A) w : quiet (generation w) m → calm w (m w).2.
Proof. intros H. by apply H. Qed.
Lemma perform_calm n c w : plainCall c → calm w (perform n c w).2.
Proof.
  intros Hc. apply hush_calm. destruct c; try done; unfold Controller.perform; quieten.
Qed.
Definition plainTurn (t : Turn) : Prop := match t with Retry _ => False | _ => True end.
Lemma turn_calm n t w : plainTurn t → calm w (turn n t w).2.
Proof.
  intros Ht. unfold Controller.turn. unfold bind at 1. change (get w) with (w, w). cbn [fst snd].
  destruct (_ || _); [apply calm_refl|]. destruct t; try done; try solve [apply hush_calm; quieten].
  destruct (bool_decide (indexing w = Some revision)) eqn:Ei; cbn [andb]; [apply bool_decide_eq_true in Ei|apply calm_refl].
  destruct (reports _ _ _ _); [|apply calm_refl]. split; [done..|]. intros Hi. eexists [_].
  split; [done|]. repeat constructor. cbn. f_equal. by apply Hi.
Qed.
(** A configuration that is not stale leaves requests alone and sets the generation. *)
Record moves (g : Z) (w w' : Worker) : Prop := {
  moves_generation : generation w' = g;
  moves_retries : retries w' = retries w;
  moves_served : served w' = served w;
  moves_retired : retired w' = retired w;
  moves_indexed : indexed w';
  moves_notes : indexed w → ∃ l, notes w' = notes w ++ l ∧ Forall (λ x, news (generation w) x ∨ news g x) l
}.
Lemma calm_moves g w0 w1 w : calm w0 w1 → moves g w1 w → moves g w0 w.
Proof.
  intros [] []. split; try congruence; [done|]. intros Hi. destruct calm_notes0 as (l & El & Hl); [done|].
  destruct moves_notes0 as (k & Ek & Hk); [auto|]. exists (l ++ k). split; [by rewrite Ek, El, app_assoc|].
  apply Forall_app. split; [eapply Forall_impl; [exact Hl|by left]|]. by rewrite <- calm_generation0.
Qed.
Lemma moves_calm g w0 w1 w : moves g w0 w1 → calm w1 w → moves g w0 w.
Proof.
  intros [] []. split; try congruence; [auto|]. intros Hi. destruct moves_notes0 as (l & El & Hl); [done|].
  destruct calm_notes0 as (k & Ek & Hk); [auto|]. exists (l ++ k). split; [by rewrite Ek, El, app_assoc|].
  apply Forall_app. split; [done|]. eapply Forall_impl; [exact Hk|]. intros. right. by rewrite <- moves_generation0.
Qed.
Lemma configure_stale n p a g d w : cancellation n ≠ g → (configure uuid sharedOpen discover n p a g d w).2 = w.
Proof. intros H. unfold configure. by rewrite (proj2 (Z.eqb_neq _ _) H). Qed.
Lemma moves_step {A B} (m : W A) (k : A → W B) g w :
  quiet (generation w) m → moves g (m w).2 (k (m w).1 (m w).2).2 → moves g w (bind m k w).2.
Proof. intros Hm. apply calm_moves. by apply hush_calm. Qed.
Lemma moves_set g f w : indexing w = None →
  (∀ w, generation (f w) = g ∧ retries (f w) = retries w ∧ served (f w) = served w ∧ retired (f w) = retired w
    ∧ notes (f w) = notes w ∧ indexing (f w) = indexing w) → moves g w (f w).
Proof.
  intros Hi Hf. destruct (Hf w) as (? & ? & ? & ? & En & Ei). split; try done; [intros r; rewrite Ei, Hi; done|].
  intros _. exists []. by rewrite app_nil_r, En.
Qed.
(** Nothing here starts the indexer. *)
Lemma relayAll_indexing n l w : indexing w = None → indexing (relayAll n l w).2 = None.
Proof.
  revert w. induction l as [|x l IH]; intros w Hw; [done|]. cbn [Controller.relayAll]. unfold bind. apply IH.
  destruct x; try done; unfold relay, refreshWatches, publishNamespace, bind, get, ret, modify, note, call;
    cbn [fst snd]; repeat (let H := fresh in case_match eqn:H); destruct w; cbn in *; done || congruence.
Qed.
Lemma onSession_indexing n ev w : indexing w = None → indexing (onSession n ev w).2 = None.
Proof. intros Hw. unfold Controller.onSession, bind, get, modify. cbn [fst snd]. apply relayAll_indexing. by destruct w. Qed.
Definition settling (g : Z) (m : W unit) : Prop := ∀ w, indexing w = None → moves g w (m w).2.
Lemma settling_bind g {A} (m : W A) (k : A → W unit) :
  (∀ g', quiet g' m) → (∀ w, indexing w = None → indexing (m w).2 = None) → (∀ a, settling g (k a)) → settling g (bind m k).
Proof. intros Hm Hi Hk w Hw. apply moves_step; [apply Hm|]. apply Hk, Hi, Hw. Qed.
Lemma settling_set g f (k : W unit) :
  (∀ w, generation (f w) = g ∧ retries (f w) = retries w ∧ served (f w) = served w ∧ retired (f w) = retired w
    ∧ notes (f w) = notes w ∧ indexing (f w) = indexing w) → quiet g k → settling g (modify f ;; k).
Proof.
  intros Hf Hk w Hw. assert (moves g w (f w)) as H by by apply moves_set.
  eapply moves_calm; [exact H|]. apply (Hk (f w)). by destruct H.
Qed.
Lemma configure_moves n p a g d w : cancellation n = g → moves g w (configure uuid sharedOpen discover n p a g d w).2.
Proof.
  intros Hn. unfold configure. rewrite Hn, Z.eqb_refl. cbn [negb].
  unfold bind at 1. change (get w) with (w, w). cbn [fst snd]. apply moves_step; [destruct (started w); quieten|].
  set (w1 := snd _). clearbody w1. apply moves_step; [eauto with controller|].
  assert (indexing (stopIndexing w1).2 = None) as Hi by by destruct w1.
  revert Hi. generalize (stopIndexing w1).2. clear w w1. change (settling g
    (onSession n (Synchronizer.SetExpectedHost [] []) ;;
     modify (λ w, { w with expectedHost := []; expectedContainer := [] }) ;;
     onSession n Synchronizer.Stop ;;
     modify (λ w, { w with generation := g; queue := []; hosts := [] }) ;;
     call close ;;
     modify (λ w, { w with pending := false; changedFiles := false; container := []; primaryClaim := []; hostAccess := d;
                           indexDirty := true; indexRefresh := None; namespaceSnapshot := ∅; watched := [] }) ;;
     if isEmpty a then note (WorkerStatus g false false []) else openStorage sharedOpen discover n p a)).
  apply settling_bind; [eauto with controller|by intros; apply onSession_indexing|intros _].
  apply settling_bind; [intros; quieten|by intros []|intros _].
  apply settling_bind; [eauto with controller|by intros; apply onSession_indexing|intros _].
  apply settling_set; [by intros []|]. quieten.
Qed.
(** The call that ends the worker's thread. *)
Lemma quit_calm n w : ∃ w0, calm w w0 ∧ (perform n Quit w).2 = { w0 with retired := true }.
Proof.
  eexists (bind (get) (λ w, if started w then onSession n Synchronizer.Stop ;; call close ;; ret tt else ret tt) w).2.
  split; [apply hush_calm; quieten|]. unfold Controller.perform, bind. change (get w) with (w, w). cbn [fst snd].
  by destruct (started w).
Qed.
End laws.
End ControllerLaws.
