(* ===== verification/ControllerBooks.v ===== *)
(** The life of a request, in the log of the controller's two threads: the books that its
    jobs, the queues and the log keep together, entry by entry. *)
From S2P Require Import Prelude Qt Records Requests Synchronizer WatchPaths Controller.

Module ControllerBooks.
Import Records Controller.

(** The stages of a request: it is taken, then answered once by the worker, then the
    answer is there for its peer, until it is forgotten. *)
Inductive Stage := Absent | Waiting | Done (r : jobj) | Told (r : jobj).
Definition advance (key : QString) (st : option Stage) (e : JobEvent) : option Stage :=
  match e with
  | Taken k => if bool_decide (k = key) then match st with Some Absent => Some Waiting | _ => None end else st
  | Executed k r => if bool_decide (k = key) then match st with Some Waiting => Some (Done r) | _ => None end else st
  | Answered k r =>
      if bool_decide (k = key)
      then match st with Some (Done r') => if bool_decide (r = r') then Some (Told r) else None | _ => None end else st
  | Forgotten k => if bool_decide (k = key) then match st with Some Absent | None => None | _ => Some Absent end else st
  end.
(** The stage of a request after a log, none if the log is not the life of requests. *)
Definition stage (key : QString) (l : list JobEvent) : option Stage := foldl (advance key) (Some Absent) l.

(** The requests of the generation [g] that are on their way, without their answer in a
    call or a retry, with it in a signal. *)
Definition asked (g : Z) (c : Call) : option (QString * option jobj) :=
  match c with HandleJob g' key _ _ _ _ => if g' =? g then Some (key, None) else None | _ => None end.
Definition replied (g : Z) (x : Note) : option (QString * option jobj) :=
  match x with Result g' key r => if g' =? g then Some (key, Some r) else None | _ => None end.
Definition carried `{ReplicaOps} (o : Owner) (w : Worker) : list (QString * option jobj) :=
  omap (asked (current o)) (calls o ++ retries w) ++ omap (replied (current o)) (notes w).

(** What the stage of a request says of its job and of what is on its way. *)
Definition entry (key : QString) (st : option Stage) (j : option Job) (c : list (QString * option jobj)) : Prop :=
  match st, j with
  | Some Absent, None => ∀ x, (key, x) ∉ c
  | Some Waiting, Some j => finished j = false ∧ (key, None) ∈ c
  | Some (Done r), Some j => finished j = false ∧ (key, Some r) ∈ c
  | Some (Told r), Some j => finished j = true ∧ result j = r ∧ ∀ x, (key, x) ∉ c
  | _, _ => False
  end.
Record accounts (L : list JobEvent) (m : gmap QString Job) (c : list (QString * option jobj)) : Prop := {
  acc_once : NoDup c.*1;
  acc_entry key : entry key (stage key L) (m !! key) c
}.

Lemma stage_snoc key l e : stage key (l ++ [e]) = advance key (stage key l) e.
Proof. unfold stage. by rewrite foldl_app. Qed.
Lemma entry_iff key st j c c' : (∀ x, (key, x) ∈ c ↔ (key, x) ∈ c') → entry key st j c → entry key st j c'.
Proof.
  intros H. destruct st as [[| |r|r]|], j as [j|]; cbn; try done.
  - intros Hn x. rewrite <- H. done.
  - by rewrite H.
  - by rewrite H.
  - intros (? & ? & Hn). split_and!; try done. intros x. rewrite <- H. done.
Qed.
Lemma accounts_perm L m c c' : c ≡ₚ c' → accounts L m c → accounts L m c'.
Proof.
  intros Hp [Ho He]. split; [by rewrite <- Hp|]. intros key. apply (entry_iff _ _ _ c); [|apply He].
  intros x. by rewrite Hp.
Qed.
Lemma accounts_init : accounts [] ∅ [].
Proof. split; [apply NoDup_nil_2|]. intros key. rewrite lookup_empty. cbn. intros x. apply not_elem_of_nil. Qed.
(** The key that leads the list stands there once. *)
Lemma head_once k y (c : list (QString * option jobj)) : NoDup ((k, y) :: c).*1 → ∀ x, (k, x) ∉ c.
Proof. cbn. intros [Hn _]%NoDup_cons x Hx. apply Hn. apply list_elem_of_fmap. by exists (k, x). Qed.
Lemma cons_other (key k : QString) (y : option jobj) c : k ≠ key → ∀ x, (key, x) ∈ (k, y) :: c ↔ (key, x) ∈ c.
Proof. intros Hk x. rewrite elem_of_cons. split; [intros [[=]|]; congruence|by right]. Qed.

(** *** One entry at a time *)
Lemma accounts_take L m c key j : accounts L m c → m !! key = None → finished j = false →
  accounts (L ++ [Taken key]) (<[key := j]> m) ((key, None) :: c).
Proof.
  intros [Ho He] Hm Hj. pose proof (He key) as Hk. rewrite Hm in Hk.
  destruct (stage key L) as [[| |r|r]|] eqn:Es; try done. split.
  - cbn. apply NoDup_cons; split; [|done]. intros ([k x] & Ek & Hx)%list_elem_of_fmap. cbn in Ek. subst k. by apply (Hk x).
  - intros k. rewrite stage_snoc. cbn [advance]. destruct (decide (k = key)) as [->|Hne].
    + rewrite bool_decide_true by done. rewrite Es, lookup_insert_eq. cbn. split; [done|left].
    + rewrite bool_decide_false by done. rewrite lookup_insert_ne by done.
      apply (entry_iff _ _ _ c); [|apply He]. intros x. by rewrite cons_other.
Qed.
Lemma accounts_waiting L m c key : accounts L m ((key, None) :: c) →
  stage key L = Some Waiting ∧ ∃ j, m !! key = Some j ∧ finished j = false.
Proof.
  intros [Ho He]. pose proof (head_once _ _ _ Ho) as Hn. pose proof (He key) as Hk.
  destruct (stage key L) as [[| |r|r]|], (m !! key) as [j|]; cbn in Hk; try done.
  - exfalso. eapply Hk. left.
  - destruct Hk as [? Hk]. eauto.
  - destruct Hk as [_ [[=]|Hk]%elem_of_cons]. by apply Hn in Hk.
  - destruct Hk as (_ & _ & Hk). exfalso. eapply Hk. left.
Qed.
Lemma accounts_done L m c key r : accounts L m ((key, Some r) :: c) →
  stage key L = Some (Done r) ∧ ∃ j, m !! key = Some j ∧ finished j = false.
Proof.
  intros [Ho He]. pose proof (head_once _ _ _ Ho) as Hn. pose proof (He key) as Hk.
  destruct (stage key L) as [[| |r'|r']|], (m !! key) as [j|]; cbn in Hk; try done.
  - exfalso. eapply Hk. left.
  - destruct Hk as [_ [[=]|Hk]%elem_of_cons]. by apply Hn in Hk.
  - destruct Hk as [? [[= ->]|Hk]%elem_of_cons]; [eauto|by apply Hn in Hk].
  - destruct Hk as (_ & _ & Hk). exfalso. eapply Hk. left.
Qed.
Lemma accounts_execute L m c key r : accounts L m ((key, None) :: c) → accounts (L ++ [Executed key r]) m ((key, Some r) :: c).
Proof.
  intros Ha. destruct (accounts_waiting _ _ _ _ Ha) as (Es & j & Ej & Hj). destruct Ha as [Ho He]. split; [done|].
  intros k. rewrite stage_snoc. cbn [advance]. destruct (decide (k = key)) as [->|Hne].
  - rewrite bool_decide_true by done. rewrite Es, Ej. cbn. split; [done|left].
  - rewrite bool_decide_false by done. apply (entry_iff _ _ _ ((key, None) :: c)); [|apply He]. intros x. by rewrite !cons_other.
Qed.
Lemma accounts_tell L m c key r j : accounts L m ((key, Some r) :: c) → finished j = true → result j = r →
  accounts (L ++ [Answered key r]) (<[key := j]> m) c.
Proof.
  intros Ha Hf Hr. destruct (accounts_done _ _ _ _ _ Ha) as [Es _]. destruct Ha as [Ho He].
  pose proof (head_once _ _ _ Ho) as Hn. cbn in Ho. apply NoDup_cons in Ho as [_ Ho]. split; [done|].
  intros k. rewrite stage_snoc. cbn [advance]. destruct (decide (k = key)) as [->|Hne].
  - rewrite bool_decide_true by done. rewrite Es, lookup_insert_eq. rewrite bool_decide_true by done. done.
  - rewrite bool_decide_false by done. rewrite lookup_insert_ne by done.
    apply (entry_iff _ _ _ ((key, Some r) :: c)); [|apply He]. intros x. by rewrite cons_other.
Qed.
(** Jobs are forgotten: each is known, and nothing of it is on its way any more. *)
Lemma stage_forgotten key ks L st : NoDup ks → stage key L = Some st → (key ∈ ks → st ≠ Absent) →
  stage key (L ++ map Forgotten ks) = Some (if decide (key ∈ ks) then Absent else st).
Proof.
  intros Hd. revert L st. induction Hd as [|k ks Hk Hd IH]; intros L st Es Hst; cbn [map].
  - rewrite app_nil_r, decide_False; [done|]. apply not_elem_of_nil.
  - rewrite cons_middle, app_assoc. destruct (decide (k = key)) as [->|Hne].
    + rewrite decide_True by left. rewrite (IH _ Absent); [by rewrite decide_False by done| |by intros].
      rewrite stage_snoc, Es. cbn [advance]. rewrite bool_decide_true by done.
      destruct st; [|done..]. exfalso. apply Hst; [left|done].
    + rewrite (IH _ st); [| |by intros; apply Hst; right].
      * destruct (decide (key ∈ ks)); [by rewrite decide_True by by right|]. rewrite decide_False; [done|].
        intros [->|]%elem_of_cons; done.
      * rewrite stage_snoc. cbn [advance]. by rewrite bool_decide_false by done.
Qed.
Lemma accounts_forget L m c m' c' ks : accounts L m c → NoDup ks → (∀ k, k ∈ ks → is_Some (m !! k)) → NoDup c'.*1 →
  (∀ k, k ∈ ks → m' !! k = None ∧ ∀ x, (k, x) ∉ c') →
  (∀ k, k ∉ ks → m' !! k = m !! k ∧ ∀ x, (k, x) ∈ c ↔ (k, x) ∈ c') → accounts (L ++ map Forgotten ks) m' c'.
Proof.
  intros [Ho He] Hd Hs Hc' Hin Hout. split; [done|]. intros key. pose proof (He key) as Hk.
  destruct (stage key L) as [st|] eqn:Es; [|by destruct (m !! key)].
  rewrite (stage_forgotten _ _ _ _ Hd Es); [|intros Hi ->; destruct (Hs _ Hi) as [j Ej]; by rewrite Ej in Hk].
  destruct (decide (key ∈ ks)) as [Hi|Hi].
  - destruct (Hin _ Hi) as [-> Hx]. done.
  - destruct (Hout _ Hi) as [-> Hx]. by apply (entry_iff _ _ _ c).
Qed.
(** A finished job has nothing on its way. *)
Lemma accounts_finished L m c key j : accounts L m c → m !! key = Some j → finished j = true → ∀ x, (key, x) ∉ c.
Proof.
  intros [_ He] Ej Hf. pose proof (He key) as Hk. rewrite Ej in Hk.
  destruct (stage key L) as [[| |r|r]|]; cbn in Hk; try done; destruct Hk as [? Hk]; [congruence..|tauto].
Qed.

(** *** Names in order *)
Lemma insertName_perm x l : insertName x l ≡ₚ x :: l.
Proof.
  induction l as [|y l IH]; cbn; [done|]. destruct (qlt y x); [|done]. rewrite IH. apply Permutation_swap.
Qed.
Lemma sortNames_perm l : sortNames l ≡ₚ l.
Proof. induction l as [|x l IH]; cbn; [done|]. by rewrite insertName_perm, IH. Qed.
Lemma keys_perm m : keys m ≡ₚ (map_to_list m).*1.
Proof. apply sortNames_perm. Qed.
Lemma keys_NoDup m : NoDup (keys m).
Proof. rewrite keys_perm. apply NoDup_fst_map_to_list. Qed.
Lemma elem_of_keys k m : k ∈ keys m ↔ is_Some (m !! k).
Proof.
  rewrite keys_perm. split.
  - intros ([k' j] & -> & Hj)%list_elem_of_fmap. exists j. by apply elem_of_map_to_list.
  - intros [j Ej]. apply list_elem_of_fmap. exists (k, j). split; [done|]. by apply elem_of_map_to_list.
Qed.
End ControllerBooks.
