(* ===== verification/ControllerOwner.v ===== *)
(** What the owner's operations leave alone, and how each changes the jobs, the log and
    the calls that wait for the worker. *)
From S2P Require Import Prelude Qt Records Requests Synchronizer WatchPaths Controller ControllerLaws ControllerBooks.
From coqutil Require Import Datatypes.RecordSetters.
Import OCamlLikeNotations.
Open Scope Z_scope.

Module ControllerOwner.
Import Records Controller ControllerLaws ControllerBooks.

(** From [o] to [o'] the generation, the jobs and their log stayed, and only plain calls
    were queued; [b] allows the container to have become available. *)
Record mild (b : bool) (o o' : Owner) : Prop := {
  mild_current : current o' = current o;
  mild_jobs : jobs o' = jobs o;
  mild_story : story o' = story o;
  mild_shutdown : shutdown o' = shutdown o;
  mild_scope : scope o' = scope o;
  mild_path : path o' = path o;
  mild_ready : ready o' = true → ready o = true ∨ b = true;
  mild_calls : ∃ l, calls o' = calls o ++ l ∧ Forall plainCall l
}.
#[export] Instance mild_preorder b : PreOrder (mild b).
Proof.
  split.
  - intros o. split; [done..|auto|]. exists []. by rewrite app_nil_r.
  - intros x y z [] []. split; [congruence..| |].
    + intros H. destruct (mild_ready1 H); auto.
    + destruct mild_calls0 as (l & El & Hl), mild_calls1 as (k & Ek & Hk). exists (l ++ k).
      split; [by rewrite Ek, El, app_assoc|by apply Forall_app].
Qed.
Lemma mild_refl b o : mild b o o.
Proof. reflexivity. Qed.
Section owner.
Context {PF : Platform}.
Variable sender : option (nat → QString → jobj → QString).
Definition mildly (b : bool) {A} (m : O A) : Prop := ∀ o, mild b o (m o).2.
Lemma mildly_ret b {A} (a : A) : mildly b (oret a).
Proof. intros o. apply mild_refl. Qed.
Lemma mildly_bind b {A B} (m : O A) (k : A → O B) : mildly b m → (∀ a, mildly b (k a)) → mildly b (obind m k).
Proof. intros Hm Hk o. transitivity (m o).2; [apply Hm|apply Hk]. Qed.
Lemma mildly_get b {B} (k : Owner → O B) : (∀ o, mildly b (k o)) → mildly b (obind oget k).
Proof. intros Hk o. apply Hk. Qed.
Definition beside (b : bool) (o o' : Owner) : Prop :=
  current o' = current o ∧ jobs o' = jobs o ∧ story o' = story o ∧ shutdown o' = shutdown o ∧ scope o' = scope o
  ∧ path o' = path o ∧ calls o' = calls o ∧ (ready o' = true → ready o = true ∨ b = true).
Lemma mildly_modify b f : (∀ o, beside b o (f o)) → mildly b (omodify f).
Proof.
  intros H o. destruct (H o) as (? & ? & ? & ? & ? & ? & Ec & Hr). split; try done.
  exists []. by rewrite app_nil_r.
Qed.
Lemma mildly_invoke b c : plainCall c → mildly b (invoke c).
Proof. intros H o. split; try done; [by left|]. exists [c]. by repeat constructor. Qed.
Ltac mildly1 :=
  match goal with
  | |- mildly _ (obind oget _) => apply mildly_get; intros ?
  | |- mildly _ (obind _ _) => apply mildly_bind; [|intros ?]
  | |- mildly _ (oret _) => apply mildly_ret
  | |- mildly _ (invoke _) => apply mildly_invoke; exact I
  | |- mildly _ (omodify _) => apply mildly_modify; let o := fresh in intros o; destruct o; unfold beside; cbn; tauto
  | |- mildly _ (tell _) => apply mildly_modify; let o := fresh in intros o; destruct o; unfold beside; cbn; tauto
  | |- mildly _ (match ?x with _ => _ end) => let E := fresh "E" in destruct x eqn:E
  | |- mildly _ (let _ := _ in _) => cbv zeta
  end.
Ltac mildly_ := repeat first [mildly1 | solve [eauto with controller]].
Lemma publish_mild b c : mildly b (publish c).
Proof. unfold publish. mildly_. Qed.
Hint Resolve publish_mild : controller.
Lemma onStatus_mild a b e : mildly a (onStatus a b e).
Proof. unfold onStatus. mildly_. Qed.
Lemma onRequest_mild b g id p payload : mildly b (onRequest sender g id p payload).
Proof. unfold onRequest. mildly_. Qed.
Lemma snapshotTimeout_mild n : mildly false (snapshotTimeout n).
Proof. unfold snapshotTimeout. mildly_. Qed.
Lemma setPeers_mild a r h c : mildly false (setPeers a r h c).
Proof. unfold setPeers. mildly_. Qed.
Lemma receive_mild id response : mildly false (receive id response).
Proof. unfold receive. mildly_. Qed.
Lemma providerTask_mild path p r : mildly false (providerTask path p r).
Proof. unfold providerTask. mildly_. Qed.
Lemma providerReports_mild i ok e : mildly false (providerReports i ok e).
Proof. unfold providerReports. mildly_. Qed.
(** The calls of the application that touch neither jobs nor the generation. *)
Definition plainApi (a : Api) : Prop :=
  match a with Open _ _ | OpenHostAccess _ _ | Close | ShutdownAsync | Handle _ _ => False | _ => True end.
Hint Resolve snapshotTimeout_mild setPeers_mild receive_mild providerTask_mild providerReports_mild : controller.
Lemma api_mild n a : plainApi a → mildly false (api n a).
Proof.
  destruct a; try done; intros _; unfold api; try solve [eauto with controller];
    unfold inspectContainer, synchronizeNow, setContentPolicy, claimPrimary, unlessShutdown, providerEnds; mildly_.
Qed.
(** A signal that answers no request. *)
Lemma deliver_mild x : match x with Result _ _ _ => False | _ => True end →
  ∀ o, mild (match x with WorkerStatus g a _ _ => (g =? current o) && a | _ => false end) o (deliver sender x o).2.
Proof.
  intros Hx o. unfold deliver. unfold obind at 1. change (oget o) with (o, o). cbn [fst snd].
  destruct x; try done; try (destruct (_ =? _); [|apply mild_refl]); try (apply (mildly_modify false)).
  all: try solve [intros []; unfold beside; cbn; tauto].
  - apply onRequest_mild.
  - apply onStatus_mild.
  - apply (mildly_bind false); [apply publish_mild|intros _]. apply mildly_modify. intros []; unfold beside; cbn; tauto.
  - destruct (_ || _); [apply mild_refl|]. apply (mildly_modify false). intros []; unfold beside; cbn; tauto.
Qed.

(** *** Jobs *)
(** [publish] writes the status and tells of it. *)
Lemma publish_frame c o : ∃ a l, (publish c o).2 = { o with syncStatus := a; out := l }.
Proof.
  unfold publish, obind, oget. cbn [fst snd]. destruct (bool_decide _); [exists (syncStatus o), (out o)|eexists _, _; done].
  by destruct o.
Qed.
(** All of the owner but the jobs and their log. *)
Definition rest (o : Owner) : Owner := { o with jobs := ∅; story := [] }.
(** The books, when the log has taken over what the owner wrote after the first [n] entries. *)
Definition booked (L : list JobEvent) (n : nat) (c : list (QString * option jobj)) (o : Owner) : Prop :=
  (n ≤ List.length (story o))%nat ∧ accounts (L ++ drop n (story o)) (jobs o) c.
Lemma booked_extend L n c c' o l m o' : booked L n c o → story o' = story o ++ l → jobs o' = m →
  (accounts (L ++ drop n (story o)) (jobs o) c → accounts ((L ++ drop n (story o)) ++ l) m c') → booked L n c' o'.
Proof.
  intros [Hn Ha] Es <- H. split; [rewrite Es, length_app; lia|]. rewrite Es, drop_app_le by done. rewrite app_assoc. auto.
Qed.
Lemma booked_forget which L n c o : booked L n c o → (∀ k j, jobs o !! k = Some j → which j = true → finished j = true) →
  booked L n c (forget which o).2.
Proof.
  intros Hb Hw. eapply booked_extend; [done..|]. intros Ha. apply (accounts_forget _ (jobs o) c); [done|apply keys_NoDup| | | |].
  - intros k [j [Hj _]%map_lookup_filter_Some]%elem_of_keys. eauto.
  - by destruct Ha.
  - intros k [j [Hj Hd]%map_lookup_filter_Some]%elem_of_keys. split; [|by eapply accounts_finished; eauto].
    apply map_lookup_filter_None. right. intros j' E. cbn in *. congruence.
  - intros k Hk. split; [|done]. destruct (jobs o !! k) as [j|] eqn:Ej; [|apply map_lookup_filter_None; by left].
    apply map_lookup_filter_Some. split; [done|]. cbn. destruct (which j) eqn:E; [|done]. exfalso. apply Hk.
    apply elem_of_keys. exists j. by apply map_lookup_filter_Some.
Qed.
Lemma forget_none (m : gmap QString Job) : filter (λ kv : QString * Job, true = false) m = ∅.
Proof. apply map_eq. intros k. rewrite lookup_empty. apply map_lookup_filter_None. right. done. Qed.
Lemma booked_all L n c o : booked L n c o → booked L n [] (forget (λ _, true) o).2.
Proof.
  intros Hb. eapply booked_extend; [done..|]. intros Ha. apply (accounts_forget _ (jobs o) c); [done|apply keys_NoDup| | | |].
  - intros k [j [Hj _]%map_lookup_filter_Some]%elem_of_keys. eauto.
  - apply NoDup_nil_2.
  - intros k _. split; [|intros; apply not_elem_of_nil]. apply map_lookup_filter_None. right. done.
  - intros k Hk. assert (jobs o !! k = None) as Hn.
    { apply eq_None_not_Some. intros [j Ej]. apply Hk, elem_of_keys. exists j. by apply map_lookup_filter_Some. }
    split; [rewrite Hn; apply map_lookup_filter_None; by left|]. intros x. split; [|by intros ?%not_elem_of_nil].
    destruct Ha as [_ He]. specialize (He k). rewrite Hn in He. intros Hx.
    destruct (stage k _) as [[]|]; cbn in He; try done. by apply He in Hx.
Qed.
Lemma oldestOf_finished m l found k j : (∀ k j, found = Some (k, j) → m !! k = Some j ∧ finished j = true) →
  oldestOf m l found = Some (k, j) → m !! k = Some j ∧ finished j = true.
Proof.
  revert found. induction l as [|k' l IH]; cbn; intros found Hf; [by apply Hf|]. apply IH.
  destruct (m !! k') as [j'|] eqn:Ej; [|done]. destruct (_ && _) eqn:E; [|done]. apply andb_prop in E as [E _].
  intros ? ? [= <- <-]. done.
Qed.
Lemma oldest_finished m k j : oldest m = Some (k, j) → m !! k = Some j ∧ finished j = true.
Proof. apply oldestOf_finished. done. Qed.
Lemma makeRoom_unfold fuel o : makeRoom fuel o =
  if (size (jobs o) <? 32)%nat then (true, o) else
  match fuel, oldest (jobs o) with
  | S fuel, Some (k, _) => makeRoom fuel { o with jobs := delete k (jobs o); story := story o ++ [Forgotten k] }
  | _, _ => (false, o)
  end.
Proof.
  destruct fuel; cbn [makeRoom]; unfold obind, oget; cbn [fst snd]; destruct (_ <? _)%nat; try done.
  destruct (oldest _) as [[k j]|]; [|done]. unfold omodify. cbn [fst snd]. by destruct (makeRoom _ _).
Qed.
Lemma makeRoom_spec fuel L n c o : booked L n c o →
  let x := makeRoom fuel o in booked L n c x.2 ∧ rest x.2 = rest o ∧ jobs x.2 ⊆ jobs o ∧ (x.1 = true → (size (jobs x.2) < 32)%nat).
Proof.
  revert o. induction fuel as [|fuel IH]; intros o Hb; cbv zeta; rewrite makeRoom_unfold;
    (destruct (size (jobs o) <? 32)%nat eqn:E; [by split_and!; [done|done|reflexivity|intros; apply Nat.ltb_lt]|]);
    [by split_and!; [done|done|reflexivity|]|].
  destruct (oldest (jobs o)) as [[k j]|] eqn:Eo; [|by split_and!; [done|done|reflexivity|]].
  apply oldest_finished in Eo as [Ej Hf]. set (o1 := {o with jobs := _; story := _}). destruct (IH o1) as (H1 & H2 & H3 & H4).
  - apply (booked_extend L n c c o [Forgotten k] (delete k (jobs o))); [done..|]. intros Ha. apply (accounts_forget _ (jobs o) c _ _ [k]); [done| | | | |].
    + apply NoDup_singleton.
    + intros ? ->%list_elem_of_singleton. eauto.
    + by destruct Ha.
    + intros ? ->%list_elem_of_singleton. split; [apply lookup_delete_eq|]. by eapply accounts_finished.
    + intros k' Hk. rewrite list_elem_of_singleton in Hk. by rewrite lookup_delete_ne.
  - split_and!; [done|by rewrite H2| |done]. etransitivity; [exact H3|apply delete_subseteq].
Qed.
(** The fields that a request's admission leaves alone. *)
Definition standing (o : Owner) : Z * bool * QString * QString * bool := (current o, shutdown o, scope o, path o, ready o).
Lemma rest_standing o o' : rest o' = rest o → standing o' = standing o ∧ calls o' = calls o.
Proof. destruct o, o'. cbn. intros [=]. unfold standing. cbn. by split; congruence. Qed.
(** A request that is admitted is logged, stands among the jobs, and is queued once. *)
Record admitted (n : Now) (L : list JobEvent) (k : nat) (c : list (QString * option jobj)) (key p : QString) (envelope : jobj) (o o' : Owner) : Prop := {
  adm_booked : booked L k ((key, None) :: c) o';
  adm_standing : standing o' = standing o;
  adm_calls : calls o' = calls o ++ [HandleJob (current o) key p (toObj envelope.["message"]) (clock n + 120000) 1];
  adm_job : jobs o' !! key = Some (mkJob envelope ∅ false (clock n) p);
  adm_size : (size (jobs o') ≤ 32)%nat
}.
Lemma size_subseteq (m m' : gmap QString Job) : m ⊆ m' → (size m ≤ size m')%nat.
Proof. intros H. rewrite <- !size_dom. apply subseteq_size. by apply subseteq_dom. Qed.
(** The end of an admission: the snapshot of the peer is noted, the worker is called. *)
Lemma admission_frame n key p envelope (o : Owner) :
  ∃ a b l, ((let m := toObj envelope.["message"] in
  obind (if bool_decide (m.["action"] = JS "manifest") && isObject m.["snapshot"]
   then omodify (λ o, { o with incomingSnapshots := <[p := elapsed n + snapshotLife]> (incomingSnapshots o) }) else oret tt) (λ _,
  obind oget (λ o,
  obind (if bool_decide (is_Some (incomingSnapshots o !! p))
   then obind (omodify (λ o, { o with incomingSnapshots := <[p := elapsed n + snapshotLife]> (incomingSnapshots o) })) (λ _,
        publish Synchronizer.InProgress)
   else oret tt) (λ _,
  obind oget (λ o,
  obind (invoke (HandleJob (current o) key p m (clock n + 120000) 1)) (λ _, oret waiting)))))) o)
  = (waiting, { o with incomingSnapshots := a; syncStatus := b; out := l;
        calls := calls o ++ [HandleJob (current o) key p (toObj envelope.["message"]) (clock n + 120000) 1] }).
Proof.
  cbv zeta. set (m := toObj _). set (first := if _ && _ then _ else _).
  assert (∃ a, (first o).2 = { o with incomingSnapshots := a }) as [a Ha].
  { unfold first. destruct (_ && _); [by eexists|]. exists (incomingSnapshots o). by destruct o. }
  unfold obind at 1. rewrite Ha. clear first Ha. unfold obind at 1, oget at 1 2. cbn [fst snd].
  set (o1 := {o with incomingSnapshots := a}). set (second := if bool_decide _ then _ else _).
  assert (∃ a b l, (second o1).2 = { o with incomingSnapshots := a; syncStatus := b; out := l }) as (a' & b & l & Hs).
  { unfold second. destruct (bool_decide _).
    - unfold obind, omodify. cbn [fst snd]. destruct (publish_frame Synchronizer.InProgress
        { o1 with incomingSnapshots := <[p := elapsed n + snapshotLife]> (incomingSnapshots o1) }) as (b & l & ->).
      eexists _, b, l. by destruct o.
    - exists a, (syncStatus o), (out o). by destruct o. }
  change (oget o1).2 with o1. unfold obind at 1. rewrite Hs. exists a', b, l. by destruct o.
Qed.
Lemma admit_spec n L k c key p envelope o : booked L k c o → jobs o !! key = None →
  let x := admit_job n key p envelope o in
  (x.1 = failed "sync_endpoint_busy" ∧ booked L k c x.2 ∧ rest x.2 = rest o ∧ jobs x.2 ⊆ jobs o)
  ∨ x.1 = waiting ∧ admitted n L k c key p envelope o x.2.
Proof.
  intros Hb Hk x. assert (x = admit_job n key p envelope o) as Hx by done. clearbody x.
  unfold admit_job in Hx. unfold obind at 1 in Hx. set (which := λ j, finished j && _) in Hx.
  assert (booked L k c (forget which o).2) as H1.
  { apply booked_forget; [done|]. intros ? j _ [? _]%andb_prop. done. }
  assert (rest (forget which o).2 = rest o) as R1 by by destruct o.
  assert (jobs (forget which o).2 ⊆ jobs o) as S1 by apply map_filter_subseteq.
  revert H1 R1 S1 Hx. generalize (forget which o).2. clear which. intros o1 H1 R1 S1 Hx.
  unfold obind at 1 in Hx. change (oget o1) with (o1, o1) in Hx. cbn [fst snd] in Hx. unfold obind at 1 in Hx.
  destruct (makeRoom_spec (size (jobs o1)) L k c o1 H1) as (H2 & R2 & S2 & Hroom). cbv zeta in *.
  destruct (makeRoom (size (jobs o1)) o1) as [room o2]. cbn [fst snd] in *.
  assert (jobs o2 ⊆ jobs o) as S by by transitivity (jobs o1).
  destruct room; cbn [negb] in Hx; [right|left; subst x; split_and!; try done; cbn [oret snd]; congruence].
  unfold obind at 1 in Hx. 
  match type of Hx with context [(omodify ?f o2).2] => change (omodify f o2).2 with (f o2) in Hx; cbv beta in Hx end.
  set (o3 := {o2 with jobs := _; story := _}) in Hx.
  destruct (admission_frame n key p envelope o3) as (a & b & l & E). cbv zeta in E, Hx. rewrite E in Hx. clear E. subst x.
  cbn [fst snd]. split; [done|]. destruct (rest_standing o2 o) as [Es Ec]; [congruence|].
  assert (jobs o2 !! key = None) as Hk2.
  { apply eq_None_not_Some. intros [j Ej]. pose proof (lookup_weaken _ _ _ _ Ej S). congruence. }
  assert (current o2 = current o) as Ecur by (unfold standing in Es; congruence). split.
  - eapply (booked_extend L k c _ o2 [Taken key]); [done..|]. intros Ha. by apply accounts_take.
  - by change (standing o2 = standing o).
  - transitivity (calls o2 ++ [HandleJob (current o2) key p (toObj envelope.["message"]) (clock n + 120000) 1]); [done|].
    by rewrite Ec, Ecur.
  - exact (lookup_insert_eq (jobs o2) key _).
  - change ((size (<[key:=mkJob envelope ∅ false (clock n) p]> (jobs o2)) ≤ 32)%nat). rewrite map_size_insert_None by done. pose proof (Hroom eq_refl). lia.
Qed.
(** What [handle] answers to an envelope that it does not object to: what it knows of the
    job of that token, or that it takes the job, or that there is no room. *)
Lemma handle_known n p envelope o j : objection o p envelope = None →
  jobs o !! jobKey p (toStr envelope.["token"]) = Some j →
  handle n p envelope o =
    (if negb (bool_decide (request j = envelope)) then failed "different_request_token_reuse"
     else if finished j then ready_with (result j) else waiting, o).
Proof.
  intros Ho Hj. unfold handle. unfold obind. change (oget o) with (o, o). cbn [fst snd]. rewrite Ho, Hj.
  destruct (negb _); [done|]. by destruct (finished j).
Qed.
Lemma handle_new n p envelope o : objection o p envelope = None → jobs o !! jobKey p (toStr envelope.["token"]) = None →
  handle n p envelope o = admit_job n (jobKey p (toStr envelope.["token"])) p envelope o.
Proof. intros Ho Hj. unfold handle. unfold obind. change (oget o) with (o, o). cbn [fst snd]. by rewrite Ho, Hj. Qed.
Lemma handle_refused n p envelope o e : objection o p envelope = Some e → handle n p envelope o = (failed e, o).
Proof. intros Ho. unfold handle. unfold obind. change (oget o) with (o, o). cbn [fst snd]. by rewrite Ho. Qed.
Lemma objection_ready o p envelope : objection o p envelope = None → ready o = true ∧ scope o ≠ [].
Proof.
  unfold objection. cbv zeta. destruct (_ || negb _) eqn:E1; [done|]. destruct (negb (ready o)) eqn:E2; [done|]. intros _.
  apply orb_false_iff in E1 as [[_ E1]%orb_false_iff _]. split; [by destruct (ready o)|]. by destruct (scope o).
Qed.

(** *** Opening and closing *)
(** From [o] to [o'] the controller turned to another container: nothing of the former
    generation remains. *)
Record turns (c : Call) (o o' : Owner) : Prop := {
  turns_current : current o' = wrap64 (current o + 1);
  turns_ready : ready o' = false;
  turns_jobs : jobs o' = ∅;
  turns_calls : calls o' = calls o ++ [c];
  turns_booked L k b : booked L k b o → booked L k [] o'
}.
(** One operation after another. *)
Lemma obind_oget {B} (k : Owner → O B) o : obind oget k o = k o o.
Proof. done. Qed.
Lemma obind_omodify {B} f (k : unit → O B) o : obind (omodify f) k o = k tt (f o).
Proof. done. Qed.
Lemma obind_publish c {B} (k : unit → O B) o : ∃ a l, obind (publish c) k o = k tt { o with syncStatus := a; out := l }.
Proof. destruct (publish_frame c o) as (a & l & E). exists a, l. unfold obind. rewrite E. by destruct (publish c o) as [[] ?]. Qed.
Lemma obind_forget which {B} (k : unit → O B) o : obind (forget which) k o = k tt (forget which o).2.
Proof. done. Qed.
Lemma obind_invoke c {B} (k : unit → O B) o : obind (invoke c) k o = k tt { o with calls := calls o ++ [c] }.
Proof. done. Qed.
Lemma openInternal_turns container accountScope direct o :
  let o' := (openInternal container accountScope direct o).2 in
  o' = o ∨ (turns (Configure container accountScope (current o') direct) o o' ∧ shutdown o = false ∧ shutdown o' = false
            ∧ scope o' = accountScope ∧ path o' = container).
Proof.
  cbv zeta. unfold openInternal. rewrite obind_oget. destruct (shutdown o) eqn:Es; [by left|]. destruct (_ && _ : bool); [by left|]. right.
  cbv zeta. rewrite obind_omodify. set (o1 := {o with current := _; incomingSnapshots := _}).
  match goal with |- context [obind (publish ?c) ?k o1] => destruct (obind_publish c k o1) as (a & l & ->) end.
  rewrite obind_omodify, obind_forget, obind_omodify, obind_invoke.
  match goal with |- context [(tell Changed ?o).2] => set (o4 := (tell Changed o).2) end.
  assert (turns (Configure container accountScope (wrap64 (current o + 1)) direct) o o4) as H.
  { split; [done|done|exact (forget_none (jobs o))|done|]. intros L k b Hb%booked_all. exact Hb. }
  split_and!; [|done..]. exact H.
Qed.
Lemma shutdownAsync_turns o :
  let o' := (shutdownAsync o).2 in (shutdown o = true ∧ o' = o) ∨ (turns Quit o o' ∧ shutdown o' = true).
Proof.
  cbv zeta. unfold shutdownAsync. rewrite obind_oget. destruct (shutdown o) eqn:Es; [by left|]. right.
  rewrite obind_omodify. set (o1 := {o with shutdown := _}). set (k := λ _ : unit, obind _ _ : O unit).
  assert (∃ a l, obind (if working o || negb (noSnapshots o) then publish Synchronizer.Cancelled else oret tt) k o1
    = k tt { o1 with syncStatus := a; out := l }) as (a & l & ->).
  { destruct (_ || _); [apply obind_publish|]. exists (syncStatus o1), (out o1). by destruct o. }
  subst k. cbv beta. rewrite obind_omodify. rewrite obind_forget, obind_omodify.
  unfold stopWorker. rewrite obind_omodify. split; [|done].
  split; [done|done|exact (forget_none (jobs o))|done|]. intros L k b Hb%booked_all. exact Hb.
Qed.
Lemma onResult_spec key r o j : jobs o !! key = Some j →
  let o' := (onResult key r o).2 in
  standing o' = standing o ∧ calls o' = calls o ∧ story o' = story o ++ [Answered key r]
  ∧ jobs o' = <[key := mkJob (request j) r true (created j) (jobPeer j)]> (jobs o).
Proof.
  intros Hj. cbv zeta. set (x := onResult key r o). assert (x = onResult key r o) as Hx by done. clearbody x.
  unfold onResult in Hx. unfold obind at 1 in Hx. change (oget o) with (o, o) in Hx. cbn [fst snd] in Hx. rewrite Hj in Hx.
  unfold obind at 1 in Hx. set (o1 := (omodify _ o).2) in Hx. cbv zeta in Hx.
  destruct (_ && (_ || _)) in Hx; [|subst x; by destruct o].
  unfold obind at 1 in Hx. set (o2 := (omodify _ o1).2) in Hx. unfold obind in Hx. change (oget o2) with (o2, o2) in Hx.
  cbn [fst snd] in Hx. destruct (_ && _) in Hx; [|subst x; by destruct o].
  match type of Hx with context [publish ?c o2] => destruct (publish_frame c o2) as (a & l & Ep) end.
  subst x. rewrite Ep. by destruct o.
Qed.
End owner.
End ControllerOwner.
