(* ===== verification/ControllerFacts.v ===== *)
(** The controller and its worker together: what always holds of both, each request
    answered once and told, and what remains when the controller has been closed. *)
From S2P Require Import Prelude Qt Records Requests Synchronizer WatchPaths Controller ControllerLaws ControllerBooks ControllerOwner.
From coqutil Require Import Datatypes.RecordSetters.
Import OCamlLikeNotations.
Open Scope Z_scope.

Module ControllerFacts.
Import Records Controller ControllerLaws ControllerBooks ControllerOwner.

Definition isJob (c : Call) : Prop := match c with HandleJob _ _ _ _ _ _ => True | _ => False end.
Definition stampOf (c : Call) : option Z := match c with HandleJob g _ _ _ _ _ => Some g | _ => None end.
(** What always holds of the owner [o], the worker [w] and the log [L]: nothing that is
    on its way is of a generation to come, what is of the present one finds the worker
    configured for it, and the books agree, with [e] in the hands of the worker. *)
Record Inv `{ReplicaOps} (e : list (QString * option jobj)) (o : Owner) (w : Worker) (L : list JobEvent) : Prop := {
  inv_range : 0 ≤ current o;
  inv_gen : generation w ≤ current o;
  inv_calls c g : c ∈ calls o ++ retries w → stampOf c = Some g → g ≤ current o;
  inv_notes x g : x ∈ notes w → generationOf x = Some g → g ≤ current o;
  inv_retries c : c ∈ retries w → isJob c;
  inv_indexed : indexed w;
  inv_ready : ready o = true → generation w = current o;
  inv_told x : x ∈ notes w → generationOf x = Some (current o) → generation w = current o;
  inv_asked c : c ∈ calls o ++ retries w → stampOf c = Some (current o) → generation w = current o;
  inv_books : accounts L (jobs o) (e ++ carried o w);
  inv_size : (size (jobs o) ≤ 32)%nat;
  inv_alive : shutdown o = false → retired w = false ∧ Quit ∉ calls o
}.
Section facts.
Context {PF : Platform} {R : ReplicaOps} {C : ReplicaControl}.
Variables (uuid : nat → QString) (sharedOpen : QString → QString + QString).
Variables (bindingAt : QString → jobj) (primaryHostAt : QString → QString → QString) (identifierAt : QString → option QString).
Variable discover : Z → QString → option (list QString).
Variable sender : option (nat → QString → jobj → QString).
Notation perform := (perform uuid sharedOpen bindingAt primaryHostAt identifierAt discover).
Notation turn := (turn uuid sharedOpen bindingAt primaryHostAt identifierAt discover).
Notation step := (step uuid sharedOpen bindingAt primaryHostAt identifierAt discover sender).
Notation history := (history uuid sharedOpen bindingAt primaryHostAt identifierAt discover sender).

Lemma asked_stamp g c x : asked g c = Some x → stampOf c = Some g ∧ x.2 = None.
Proof. destruct c; try done. cbn. destruct (revision =? g) eqn:E; [|done]. intros [= <-]. apply Z.eqb_eq in E. by subst. Qed.
Lemma plain_stamp c : plainCall c → stampOf c = None ∧ c ≠ Quit.
Proof. by destruct c. Qed.
Lemma asked_plain g l : Forall plainCall l → omap (asked g) l = [].
Proof. induction 1 as [|c l Hc Hl IH]; [done|]. cbn. by destruct c. Qed.
Lemma replied_generation g x y : replied g x = Some y → generationOf x = Some g.
Proof. destruct x; try done. cbn. destruct (g0 =? g) eqn:E; [|done]. apply Z.eqb_eq in E. by subst. Qed.
Lemma replied_news g g' l : Forall (news g') l → omap (replied g) l = [].
Proof. induction 1 as [|x l Hx Hl IH]; [done|]. cbn. by destruct x. Qed.
Lemma carried_none o w : (∀ c, c ∈ calls o ++ retries w → stampOf c ≠ Some (current o)) →
  (∀ x, x ∈ notes w → generationOf x ≠ Some (current o)) → carried o w = [].
Proof.
  intros H1 H2. unfold carried. assert (∀ {A B} (f : A → option B) l, (∀ x, x ∈ l → f x = None) → omap f l = []) as H.
  { intros A B f l. induction l as [|a l IH]; intros Hl; [done|]. cbn. rewrite Hl by left. apply IH. intros. apply Hl. by right. }
  rewrite !H; [done| |].
  - intros x Hx. destruct (replied _ x) eqn:E; [|done]. apply replied_generation in E. by apply H2 in Hx.
  - intros c Hc. destruct (asked _ c) eqn:E; [|done]. apply asked_stamp in E as [E _]. by apply H1 in Hc.
Qed.

(** *** Steps of the owner *)
Lemma inv_mild b o o' w L : Inv [] o w L → mild b o o' → (b = true → generation w = current o) → Inv [] o' w L.
Proof.
  intros [] [Ec Ej _ Es _ _ Hr (l & El & Hl)] Hb. rewrite Forall_forall in Hl.
  assert (∀ c g, c ∈ calls o' ++ retries w → stampOf c = Some g → c ∈ calls o ++ retries w) as Hc.
  { intros c g. rewrite El, !elem_of_app. intros [[?|Hc]|?] Hs; [by left| |by right].
    apply Hl, plain_stamp in Hc as [Hc _]. congruence. }
  split; try (rewrite Ec); try done.
  - intros c g H Hs. eapply inv_calls0; eauto.
  - intros H. destruct (Hr H); auto.
  - intros c H Hs. eapply inv_asked0; eauto.
  - rewrite Ej. cbn [app] in *. unfold carried. rewrite Ec, El, <- app_assoc, !omap_app, (asked_plain _ l), app_nil_l by by apply Forall_forall.
    by rewrite <- omap_app.
  - by rewrite Ej.
  - rewrite Es, El. intros H. destruct (inv_alive0 H) as [? Hq]. split; [done|].
    intros [?|Hc'%Hl]%elem_of_app; done.
Qed.
Lemma inv_turns c o o' w L L' : Inv [] o w L → current o + 1 < 2 ^ 64 → turns c o o' → stampOf c = None →
  (shutdown o' = false → shutdown o = false ∧ c ≠ Quit) → accounts L' (jobs o') [] → Inv [] o' w L'.
Proof.
  intros [] Hlt [Ec Er Ej El _] Hs Hq Ha. rewrite wrap64_id in Ec by lia.
  assert (∀ c g, c ∈ calls o' ++ retries w → stampOf c = Some g → g ≤ current o) as Hc.
  { intros c' g. rewrite El, !elem_of_app, list_elem_of_singleton. intros [[?| ->]|?] Hg; [|congruence|];
      (eapply inv_calls0; [apply elem_of_app|done]; auto). }
  split; rewrite ?Ec; try done; try lia.
  - intros ? g H Hg. pose proof (Hc _ _ H Hg). lia.
  - intros x g H Hg. pose proof (inv_notes0 _ _ H Hg). lia.
  - congruence.
  - intros x H Hg. pose proof (inv_notes0 _ _ H Hg). lia.
  - intros x H Hg. pose proof (Hc _ _ H Hg). lia.
  - rewrite carried_none; [done|..]; rewrite Ec; intros x H Hg; [pose proof (Hc _ _ H Hg)|pose proof (inv_notes0 _ _ H Hg)]; lia.
  - rewrite Ej, map_size_empty. lia.
  - intros H. destruct (Hq H) as [H1 H2]. destruct (inv_alive0 H1) as [? Hn]. split; [done|].
    rewrite El. intros [?|E%list_elem_of_singleton]%elem_of_app; [done|congruence].
Qed.
Lemma inv_admitted n k key p envelope o o' w L L0 : Inv [] o w L0 → ready o = true →
  admitted n L k (carried o w) key p envelope o o' → Inv [] o' w (L ++ drop k (story o')).
Proof.
  intros [] Hr [[_ Ha] Es El Ej Hz]. unfold standing in Es. injection Es as Ec Esh _ _ Er.
  set (c := HandleJob _ _ _ _ _ _) in El.
  assert (∀ c', c' ∈ calls o' ++ retries w → c' = c ∨ c' ∈ calls o ++ retries w) as Hc.
  { intros c'. rewrite El, !elem_of_app, list_elem_of_singleton. intros [[?| ->]|?]; auto. }
  split; rewrite ?Ec, ?Er, ?Esh; try done.
  - intros c' g [->|H]%Hc Hg; [by injection Hg as <-|by eapply inv_calls0].
  - intros _ _ _. by apply inv_ready0.
  - eapply accounts_perm; [|exact Ha]. unfold carried. rewrite Ec, El, <- app_assoc, !omap_app. cbn. rewrite Z.eqb_refl.
    cbn. by rewrite <- Permutation_middle.
  - intros H. destruct (inv_alive0 H) as [? Hq]. split; [done|]. rewrite El.
    intros [?|[=]%list_elem_of_singleton]%elem_of_app; done.
Qed.
(** A signal leaves the queue. *)
Lemma inv_pop_note o w L x rest : Inv [] o w L → notes w = x :: rest → replied (current o) x = None →
  Inv [] o { w with notes := rest } L.
Proof.
  intros [] En Hx. split; try done.
  - intros y g Hy. apply inv_notes0. rewrite En. by right.
  - intros y Hy. apply inv_told0. rewrite En. by right.
  - unfold carried in *. rewrite En in inv_books0. cbn in inv_books0. by rewrite Hx in inv_books0.
Qed.
Lemma inv_result o w L key r rest o' : Inv [] o w L → notes w = Result (current o) key r :: rest →
  o' = (onResult key r o).2 → Inv [] o' { w with notes := rest } (L ++ [Answered key r]).
Proof.
  intros [] En Ho. unfold carried in inv_books0. rewrite En in inv_books0. cbn in inv_books0. rewrite Z.eqb_refl in inv_books0.
  apply (accounts_perm _ _ _ ((key, Some r) :: carried o { w with notes := rest })) in inv_books0; [|by rewrite <- Permutation_middle].
  destruct (accounts_done _ _ _ _ _ inv_books0) as (_ & j & Ej & Hf).
  destruct (onResult_spec key r o j Ej) as (Es & Ecs & Est & Ejs). rewrite <- Ho in *. unfold standing in Es.
  injection Es as Ec Esh _ _ Er. split; rewrite ?Ec, ?Ecs, ?Er, ?Esh; try done.
  - intros y g Hy. apply inv_notes0. rewrite En. by right.
  - intros y Hy. apply inv_told0. rewrite En. by right.
  - rewrite Ejs. unfold carried. rewrite Ec, Ecs. by eapply accounts_tell.
  - rewrite Ejs. by rewrite map_size_insert_Some.
Qed.
(** *** Steps of the worker *)
Lemma carried_calm e o w w' L : Inv e o w L → calm w w' → carried o w' = carried o w.
Proof.
  intros [] [_ Er _ _ _ Hn]. destruct Hn as (l & El & Hl); [done|]. unfold carried.
  rewrite Er, El, (omap_app _ (notes w)), (replied_news _ _ _ Hl). by rewrite app_nil_r.
Qed.
Lemma inv_calm e o w w' L : Inv e o w L → calm w w' → Inv e o w' L.
Proof.
  intros Hi Hc. pose proof (carried_calm _ _ _ _ _ Hi Hc) as Eq. destruct Hi, Hc as [Eg Er _ Ed Hx Hn].
  destruct Hn as (l & El & Hl); [done|]. rewrite Forall_forall in Hl.
  assert (∀ x g, x ∈ notes w' → generationOf x = Some g → x ∈ notes w ∨ g = generation w) as Hw.
  { intros x g. rewrite El. intros [?|Hx'%Hl]%elem_of_app Hg; [by left|]. destruct x; cbn in *; try done; right; congruence. }
  split; rewrite ?Eg, ?Er, ?Ed; try done; auto.
  - intros x g Hx' Hg. destruct (Hw _ _ Hx' Hg) as [|Eg']; [by eapply inv_notes0|by rewrite Eg'].
  - intros x Hx' Hg. destruct (Hw _ _ Hx' Hg) as [|Eg']; [by eapply inv_told0|by rewrite Eg'].
  - by rewrite Eq.
Qed.
Lemma inv_moves o w w' L : Inv [] o w L → moves (current o) w w' → Inv [] o w' L.
Proof.
  intros [] [Eg Er _ Ed Hx Hn]. destruct Hn as (l & El & Hl); [done|].
  split; rewrite ?Eg, ?Er, ?Ed; try done.
  - intros x g. rewrite El, Forall_forall in *. intros [Hx'|[Hx'|Hx']%Hl]%elem_of_app Hg; [by eapply inv_notes0|..];
      destruct x; cbn in *; try done; assert (g = generation w ∨ g = current o) as [-> | ->] by (left; congruence) || (right; congruence); done.
  - unfold carried. rewrite Er, El, (omap_app _ (notes w)). replace (omap (replied (current o)) l) with ([] : list (QString * option jobj)).
    + by rewrite app_nil_r.
    + symmetry. clear - Hl. induction Hl as [|x l H Hl IH]; [done|]. cbn. destruct x; try done; by destruct H.
Qed.
Lemma inv_pop_call o w L c rest : Inv [] o w L → calls o = c :: rest →
  Inv (match asked (current o) c with Some x => [x] | None => [] end) { o with calls := rest } w L.
Proof.
  intros [] Ec. split; try done.
  - intros c' g Hc. apply inv_calls0. rewrite Ec. by right.
  - intros c' Hc. apply inv_asked0. rewrite Ec. by right.
  - unfold carried in *. rewrite Ec in inv_books0. cbn in inv_books0. by destruct (asked (current o) c).
  - intros H. destruct (inv_alive0 H) as [? Hq]. split; [done|]. rewrite Ec in Hq. intros Hr. apply Hq. by right.
Qed.
Lemma inv_pop_retry o w L i c : Inv [] o w L → retries w !! i = Some c →
  Inv (match asked (current o) c with Some x => [x] | None => [] end) o { w with retries := delete i (retries w) } L.
Proof.
  intros [] Ei. assert (retries w ≡ₚ c :: delete i (retries w)) as Hp by by apply delete_Permutation.
  split; try done.
  - intros c' g Hc. apply inv_calls0. rewrite Hp. revert Hc. cbn. rewrite !elem_of_app. intros [|]; [by left|right; by right].
  - intros c' Hc. apply inv_retries0. rewrite Hp. by right.
  - intros c' Hc. apply inv_asked0. rewrite Hp. revert Hc. cbn. rewrite !elem_of_app. intros [|]; [by left|right; by right].
  - eapply accounts_perm; [|exact inv_books0]. cbn [app]. unfold carried. cbn.
    pose proof (omap_Permutation (asked (current o)) _ _ Hp) as Hq. rewrite (omap_app _ (calls o) (retries w)), omap_app, Hq.
    cbn. destruct (asked (current o) c); [|done]. cbn. by rewrite <- Permutation_middle.
Qed.
Lemma inv_postponed o w w' L c key : Inv [(key, None)] o w L → generation w = current o →
  asked (current o) c = Some (key, None) → postpones c w w' → Inv [] o w' L ∧ served w' = served w.
Proof.
  intros Hi Hg Hk (w0 & Hc & E). pose proof (calm_served _ _ Hc) as Es. pose proof (calm_generation _ _ Hc) as Eg.
  assert (retries w' = retries w0 ++ [c] ∧ notes w' = notes w0 ∧ served w' = served w0 ∧ generation w' = generation w0
    ∧ retired w' = retired w0 ∧ indexing w' = indexing w0) as (Er & En & E1 & E2 & E3 & E4) by by subst w'.
  clear E. destruct (inv_calm _ _ _ _ _ Hi Hc). split; [|congruence].
  destruct (asked_stamp _ _ _ Hk) as [Ec _]. split; rewrite ?En, ?E2, ?E3; try done.
  - intros c' g. rewrite Er, app_assoc. intros [?| ->%list_elem_of_singleton]%elem_of_app; [by apply inv_calls0|].
    rewrite Ec. intros [= <-]. lia.
  - intros c'. rewrite Er. intros [?| ->%list_elem_of_singleton]%elem_of_app; [by apply inv_retries0|]. by destruct c.
  - unfold indexed. by rewrite E2, E4.
  - intros c' _ _. congruence.
  - eapply accounts_perm; [|exact inv_books0]. cbn [app]. unfold carried. rewrite Er, En, app_assoc, (omap_app _ (calls o ++ retries w0)).
    cbn [omap list_omap]. rewrite Hk. cbn [app]. rewrite <- app_assoc. by rewrite Permutation_middle.
Qed.
Lemma inv_answered o w w' L r key : Inv [(key, None)] o w L → generation w = current o →
  answers (current o) key r w w' → Inv [] o w' (L ++ [Executed key r]) ∧ served w' = served w ++ [(current o, key, r)].
Proof.
  intros Hi Hg (w0 & Hc & E). pose proof (calm_served _ _ Hc) as Es. pose proof (calm_generation _ _ Hc) as Eg.
  assert (retries w' = retries w0 ∧ notes w' = notes w0 ++ [Result (current o) key r]
    ∧ served w' = served w0 ++ [(current o, key, r)] ∧ generation w' = generation w0
    ∧ retired w' = retired w0 ∧ indexing w' = indexing w0) as (Er & En & E1 & E2 & E3 & E4) by by subst w'.
  clear E. destruct (inv_calm _ _ _ _ _ Hi Hc). split; [|congruence]. split; rewrite ?Er, ?E2, ?E3; try done.
  - intros x g. rewrite En. intros [?| ->%list_elem_of_singleton]%elem_of_app; [by apply inv_notes0|]. cbn. intros [= <-]. lia.
  - unfold indexed. by rewrite E2, E4.
  - intros x _ _. congruence.
  - cbn [app] in *. apply (accounts_execute _ _ _ _ r) in inv_books0. eapply accounts_perm; [|exact inv_books0].
    cbn [app]. unfold carried. rewrite Er, En, (omap_app _ (notes w0)). cbn. rewrite Z.eqb_refl, app_assoc. by rewrite <- Permutation_cons_append.
Qed.
Lemma inv_settled n key p m deadline o w w' L : Inv [(key, None)] o w L → generation w = current o →
  settled n (current o) key p m deadline w w' →
  Inv [] o w' (L ++ map (λ e : Z * QString * jobj, Executed e.1.2 e.2) (drop (List.length (served w)) (served w'))).
Proof.
  intros Hi Hg [[_ [d H]]|[r H]].
  - assert (asked (current o) (HandleJob (current o) key p m deadline d) = Some (key, None)) as Hk by by cbn; rewrite Z.eqb_refl.
    destruct (inv_postponed _ _ _ _ _ _ Hi Hg Hk H) as [H' ->]. by rewrite drop_all, app_nil_r.
  - destruct (inv_answered _ _ _ _ _ _ Hi Hg H) as [H' ->]. by rewrite drop_app_length.
Qed.
Definition executed (w w' : Worker) : list JobEvent :=
  map (λ e : Z * QString * jobj, Executed e.1.2 e.2) (drop (List.length (served w)) (served w')).
Lemma executed_same w w' : served w' = served w → executed w w' = [].
Proof. intros E. unfold executed. by rewrite E, drop_all. Qed.
Lemma inv_calm_step o w w' L : Inv [] o w L → calm w w' → Inv [] o w' (L ++ executed w w').
Proof. intros Hi Hc. rewrite (executed_same _ _ (calm_served _ _ Hc)), app_nil_r. by eapply inv_calm. Qed.
Lemma inv_moves_step o w w' L : Inv [] o w L → moves (current o) w w' → Inv [] o w' (L ++ executed w w').
Proof. intros Hi Hc. rewrite (executed_same _ _ (moves_served _ _ _ Hc)), app_nil_r. by eapply inv_moves. Qed.
(** A request in the worker's hands. *)
Lemma inv_job n g key p m deadline d o w L :
  Inv (match asked (current o) (HandleJob g key p m deadline d) with Some x => [x] | None => [] end) o w L →
  (g = current o → generation w = current o) → cancellation n = current o →
  let w' := (handleJob n g key p m deadline d w).2 in Inv [] o w' (L ++ executed w w').
Proof.
  intros Hi Hg Hn w'. cbn in Hi. destruct (g =? current o) eqn:E; [apply Z.eqb_eq in E; subst g|apply Z.eqb_neq in E].
  - eapply inv_settled; [exact Hi|by auto|]. apply handleJob_settles; auto.
  - assert (w' = w) as -> by (apply handleJob_stale; right; congruence). by rewrite executed_same, app_nil_r by done.
Qed.
Lemma inv_retired o w L : Inv [] o w L → shutdown o = true → Inv [] o { w with retired := true } L.
Proof. intros [] Hs. split; try done. congruence. Qed.
Lemma inv_perform n c rest o w L : Inv [] o w L → calls o = c :: rest → cancellation n = current o →
  let w' := (perform n c w).2 in Inv [] { o with calls := rest } w' (L ++ executed w w').
Proof.
  intros Hi Ec Hn w'. pose proof (inv_pop_call _ _ _ _ _ Hi Ec) as Hp. set (o' := {o with calls := rest}) in *.
  change (current o) with (current o') in Hn, Hp. destruct c; try (apply inv_calm_step; [exact Hp|by apply perform_calm]).
  - destruct (Z.eq_dec (cancellation n) revision) as [<-|Hne].
    + apply inv_moves_step; [exact Hp|]. rewrite <- Hn. by apply configure_moves.
    + assert (w' = w) as -> by by apply configure_stale. by rewrite executed_same, app_nil_r by done.
  - apply inv_job; [exact Hp| |done]. intros ->. destruct Hi. apply (inv_asked0 (HandleJob (current o') key p message0 deadline delay)); [|done].
    rewrite Ec. by left.
  - destruct (quit_calm uuid sharedOpen bindingAt primaryHostAt identifierAt discover n w) as (w0 & Hc & E).
    fold w' in E. assert (Inv [] o' w0 L) as H0 by by eapply inv_calm. rewrite executed_same, app_nil_r.
    + rewrite E. apply inv_retired; [done|]. destruct (shutdown o') eqn:Es; [done|]. exfalso.
      destruct (inv_alive _ _ _ _ Hi Es) as [_ H]. apply H. rewrite Ec. by left.
    + rewrite E. by rewrite <- (calm_served _ _ Hc).
Qed.
Lemma inv_turn n t o w L : Inv [] o w L → cancellation n = current o →
  let w' := (turn n t w).2 in Inv [] o w' (L ++ executed w w').
Proof.
  intros Hi Hn w'. destruct t; try (apply inv_calm_step; [done|by apply turn_calm]).
  assert (w' = (if retired w then w else
    match retries w !! i with
    | Some c => (perform n c { w with retries := delete i (retries w) }).2
    | None => w end)) as E.
  { unfold w', Controller.turn. unfold bind at 1. change (get w) with (w, w). cbn [fst snd].
    change (negb (possible (Retry i) w) || retired w) with (retired w).
    destruct (retired w); [done|]. by destruct (retries w !! i). }
  destruct (retired w); [rewrite E, executed_same, app_nil_r; done|].
  destruct (retries w !! i) as [c|] eqn:Ei; [|rewrite E, executed_same, app_nil_r; done].
  pose proof (inv_pop_retry _ _ _ _ _ Hi Ei) as Hp. pose proof (list_elem_of_lookup_2 _ _ _ Ei) as Hin.
  pose proof (inv_retries _ _ _ _ Hi _ Hin) as Hj. destruct c; try done.
  rewrite E. apply inv_job; [exact Hp| |done]. intros ->. cbn.
  apply (inv_asked _ _ _ _ Hi (HandleJob (current o) key p message0 deadline delay)); [|done]. apply elem_of_app. by right.
Qed.
(** *** Whole steps *)
Lemma booked_start L o c : accounts L (jobs o) c → booked L (List.length (story o)) c o.
Proof. intros Ha. split; [done|]. by rewrite drop_all, app_nil_r. Qed.
Lemma inv_forgets o o' w L k L0 : Inv [] o w L0 → rest o' = rest o → jobs o' ⊆ jobs o → booked L k (carried o w) o' →
  Inv [] o' w (L ++ drop k (story o')).
Proof.
  intros [] Hr Hj [_ Ha]. destruct (rest_standing _ _ Hr) as [Es Ec]. unfold standing in Es. injection Es as Eg Esh _ _ Er.
  split; rewrite ?Eg, ?Ec, ?Er, ?Esh; try done.
  - unfold carried in *. by rewrite Eg, Ec.
  - pose proof (size_subseteq _ _ Hj). lia.
Qed.
Lemma inv_same o w L : Inv [] o w L → Inv [] o w (L ++ drop (List.length (story o)) (story o)).
Proof. intros H. by rewrite drop_all, app_nil_r. Qed.
Lemma inv_opens c s o' w L o : Inv [] o w L → current o + 1 < 2 ^ 64 → turns c o o' → stampOf c = None → s = story o →
  (shutdown o' = false → shutdown o = false ∧ c ≠ Quit) → Inv [] o' w (L ++ drop (List.length s) (story o')).
Proof.
  intros Hi Hlt Ht Hc -> Hs. eapply inv_turns; [done..|]. eapply turns_booked; [exact Ht|]. apply booked_start. by destruct Hi.
Qed.
Lemma inv_handle n p envelope o w L : Inv [] o w L →
  let o' := (handle n p envelope o).2 in Inv [] o' w (L ++ drop (List.length (story o)) (story o')).
Proof.
  intros Hi o'. subst o'. destruct (objection o p envelope) as [e|] eqn:Eo; [rewrite (handle_refused _ _ _ _ _ Eo); by apply inv_same|].
  destruct (jobs o !! jobKey p (toStr envelope.["token"])) as [j|] eqn:Ej; [rewrite (handle_known _ _ _ _ _ Eo Ej); by apply inv_same|].
  rewrite (handle_new _ _ _ _ Eo Ej). pose proof (booked_start _ _ _ (inv_books _ _ _ _ Hi)) as Hb.
  destruct (admit_spec n _ _ _ _ p envelope _ Hb Ej) as [(_ & H1 & H2 & H3)|[_ H]].
  - by eapply inv_forgets.
  - eapply inv_admitted; [exact Hi| |exact H]. by eapply objection_ready.
Qed.
Lemma inv_api n a o w L : Inv [] o w L → current o + 1 < 2 ^ 64 →
  let o' := (api n a o).2 in Inv [] o' w (L ++ drop (List.length (story o)) (story o')).
Proof.
  intros Hi Hlt o'. assert (∀ c s d, let o' := (openInternal c s d o).2 in Inv [] o' w (L ++ drop (List.length (story o)) (story o'))) as Hopen.
  { intros c s d. cbv zeta. destruct (openInternal_turns c s d o) as [->|(Ht & H1 & _)]; [by apply inv_same|].
    eapply inv_opens; [exact Hi|done|exact Ht|done..]. }
  assert (plainApi a ∨ ¬ plainApi a) as [Hp|Hp] by (destruct a; cbn; tauto).
  { pose proof (api_mild n a Hp o) as Hm. change (mild false o o') in Hm. destruct Hm as [? ? Es ? ? ? ? ?] eqn:E.
    rewrite Es, drop_all, app_nil_r. eapply inv_mild; [exact Hi|exact Hm|done]. }
  subst o'. destruct a; try (exfalso; by apply Hp).
  - apply Hopen.
  - apply Hopen.
  - cbn. unfold closeController. rewrite obind_oget. destruct (_ && _); [by apply inv_same|apply Hopen].
  - cbn. destruct (shutdownAsync_turns o) as [[_ ->]|[Ht Hs]]; [by apply inv_same|].
    eapply inv_opens; [exact Hi|done|exact Ht|done..|congruence].
  - by apply inv_handle.
Qed.
Lemma inv_deliver x rest o w L : Inv [] o w L → notes w = x :: rest →
  let o' := (deliver sender x o).2 in Inv [] o' { w with notes := rest } (L ++ drop (List.length (story o)) (story o')).
Proof.
  intros Hi En o'. set (P := match x with Result _ _ _ => False | _ => True end : Prop).
  assert (P ∨ ¬ P) as [Hx|Hx] by (unfold P; destruct x; tauto).
  - pose proof (deliver_mild sender x Hx o) as Hm. fold o' in Hm. destruct Hm as [? ? Es ? ? ? ? ?] eqn:E.
    rewrite Es, drop_all, app_nil_r. eapply inv_mild; [|exact Hm|].
    + eapply inv_pop_note; [exact Hi|done|]. by destruct x.
    + destruct x; try done. intros [Hg _]%andb_prop. apply Z.eqb_eq in Hg as ->. cbn.
      eapply inv_told; [exact Hi|rewrite En; left|done].
  - destruct x as [| | |g key r| | | | | |]; try (exfalso; by apply Hx). 
    subst o'. unfold deliver. rewrite obind_oget. cbv iota beta.
    destruct (g =? current o) eqn:Eg; [apply Z.eqb_eq in Eg as ->|].
    + pose proof (inv_result _ _ _ _ _ _ _ Hi En eq_refl) as H. pose proof (inv_books _ _ _ _ Hi) as Hb. cbn [app] in Hb.
      unfold carried in Hb. rewrite En in Hb. cbn in Hb. rewrite Z.eqb_refl in Hb.
      apply (accounts_perm _ _ _ ((key, Some r) :: carried o { w with notes := rest })) in Hb; [|by rewrite <- Permutation_middle].
      destruct (accounts_done _ _ _ _ _ Hb) as (_ & j & Ej & Hf).
      destruct (onResult_spec key r o j Ej) as (_ & _ & Est & _). rewrite Est, drop_app_length. done.
    + apply inv_same. eapply inv_pop_note; [exact Hi|done|]. cbn. by rewrite Eg.
Qed.
Definition calling (x : Occurrence) : Z := match what x with OwnerCalls _ => 1 | _ => 0 end.
Definition sound (s : System) : Prop := Inv [] (owner s) (worker s) (log s).
Lemma openInternal_current c d e o : 0 ≤ current o → current o + 1 < 2 ^ 64 →
  current (openInternal c d e o).2 ≤ current o + 1.
Proof.
  intros H0 Hlt. destruct (openInternal_turns c d e o) as [->|[[E _ _ _ _] _]]; [lia|]. rewrite E, wrap64_id; lia.
Qed.
Lemma handle_current n p envelope o w L : Inv [] o w L → current (handle n p envelope o).2 = current o.
Proof.
  intros Hi. destruct (objection o p envelope) as [e|] eqn:Eo; [by rewrite (handle_refused _ _ _ _ _ Eo)|].
  destruct (jobs o !! jobKey p (toStr envelope.["token"])) as [j|] eqn:Ej; [by rewrite (handle_known _ _ _ _ _ Eo Ej)|].
  rewrite (handle_new _ _ _ _ Eo Ej). pose proof (booked_start _ _ _ (inv_books _ _ _ _ Hi)) as Hb.
  destruct (admit_spec n _ _ _ _ p envelope _ Hb Ej) as [(_ & _ & H%rest_standing & _)|[_ [_ H _ _ _]]];
    [destruct H as [H _]|]; unfold standing in H; by injection H.
Qed.
Lemma api_current n a o w L : Inv [] o w L → current o + 1 < 2 ^ 64 → current (api n a o).2 ≤ current o + 1.
Proof.
  intros Hi Hlt. pose proof (inv_range _ _ _ _ Hi) as H0. assert (plainApi a ∨ ¬ plainApi a) as [Hp|Hp] by (destruct a; cbn; tauto).
  { pose proof (api_mild n a Hp o) as []. lia. }
  destruct a; try (exfalso; by apply Hp); unfold api.
  - by apply openInternal_current.
  - by apply openInternal_current.
  - unfold closeController. rewrite obind_oget. destruct (_ && _); [cbn; lia|by apply openInternal_current].
  - destruct (shutdownAsync_turns o) as [[_ ->]|[[E _ _ _ _] _]]; [lia|]. rewrite E, wrap64_id; lia.
  - unfold obind. cbn [snd oret]. rewrite (handle_current _ _ _ _ _ _ Hi). lia.
Qed.
Lemma deliver_current x o : current (deliver sender x o).2 = current o.
Proof.
  set (P := match x with Result _ _ _ => False | _ => True end : Prop). assert (P ∨ ¬ P) as [Hy|Hy] by (unfold P; destruct x; tauto).
  - by destruct (deliver_mild sender x Hy o).
  - destruct x as [| | |g key r| | | | | |]; try (exfalso; by apply Hy). unfold deliver. rewrite obind_oget. cbv iota beta.
    destruct (g =? _); [|done]. destruct (jobs o !! key) as [j|] eqn:Ej.
    + destruct (onResult_spec key r _ j Ej) as (H & _). unfold standing in H. by injection H.
    + unfold onResult. by rewrite obind_oget, Ej.
Qed.
Lemma sound_step s x : sound s → current (owner s) + calling x < 2 ^ 64 →
  sound (step s x) ∧ current (owner (step s x)) ≤ current (owner s) + calling x.
Proof.
  intros Hi Hlt. unfold sound, Controller.step, calling in *. set (n := now (at_ x) (since x) s). destruct (what x) as [a| | |t].
  - split; [by apply inv_api|by eapply api_current].
  - destruct (notes (worker s)) as [|y rest] eqn:En; [split; [done|lia]|]. split; [by apply inv_deliver|].
    cbn. rewrite deliver_current. cbn. lia.
  - destruct (calls (owner s)) as [|c rest] eqn:Ec; [split; [done|lia]|]. destruct (retired (worker s)); [split; [done|lia]|].
    split; [by apply inv_perform|change (current (owner s) ≤ current (owner s) + 0); lia].
  - split; [by apply inv_turn|change (current (owner s) ≤ current (owner s) + 0); lia].
Qed.
Definition callings (l : list Occurrence) : Z := foldr (λ x z, calling x + z) 0 l.
Lemma callings_nonneg l : 0 ≤ callings l.
Proof.
  induction l as [|x l IH]; [done|]. change (0 ≤ calling x + callings l). unfold calling. destruct (what x); lia.
Qed.
Lemma sound_history l s : sound s → current (owner s) + callings l < 2 ^ 64 →
  sound (history s l) ∧ current (owner (history s l)) ≤ current (owner s) + callings l.
Proof.
  revert s. induction l as [|x l IH]; intros s Hs Hlt; [split; [done|cbn; lia]|].
  change (callings (x :: l)) with (calling x + callings l) in *. pose proof (callings_nonneg l).
  assert (0 ≤ calling x) by (unfold calling; destruct (what x); lia). change (history s (x :: l)) with (history (step s x) l).
  destruct (sound_step s x Hs) as [H1 H2]; [lia|]. destruct (IH _ H1) as [H3 H4]; [lia|]. split; [done|lia].
Qed.
Lemma initial_sound r : sound (initial r).
Proof.
  split; try done; cbn; try lia; try (by intros ? ? ?%not_elem_of_nil); try (by intros ? ?%not_elem_of_nil).
  - apply accounts_init.
  - rewrite map_size_empty. lia.
  - intros _. split; [done|]. apply not_elem_of_nil.
Qed.
Lemma sound_reached r l : callings l < 2 ^ 64 → sound (history (initial r) l).
Proof. intros H. by apply sound_history; [apply initial_sound|]. Qed.

(** C6: Each request is served once.  In every history of the controller and its worker,
    with openings, closings and peers changing at will, the log of every token is a life:
    taken, answered by the worker at most once, that very answer told, and forgotten
    before it is taken again.  What [handle] shows of it is its stage: no job when it is
    absent, the worker's answer exactly when that has arrived, pending in between; there
    are never more than 32 jobs. *)
Theorem exactly_once r l key : callings l < 2 ^ 64 →
  let s := history (initial r) l in
  (size (jobs (owner s)) ≤ 32)%nat ∧
  ∃ st, stage key (log s) = Some st ∧
    match st with
    | Absent => jobs (owner s) !! key = None
    | Told answer => ∃ j, jobs (owner s) !! key = Some j ∧ finished j = true ∧ result j = answer
    | Waiting | Done _ => ∃ j, jobs (owner s) !! key = Some j ∧ finished j = false
    end.
Proof.
  intros Hl. cbv zeta. destruct (sound_reached r l Hl). split; [done|]. destruct inv_books0 as [_ He]. specialize (He key).
  destruct (stage key _) as [st|]; [|by destruct (jobs _ !! key)]. exists st. split; [done|].
  destruct st, (jobs _ !! key) as [j|]; cbn in He; try done; exists j; naive_solver.
Qed.
End facts.
End ControllerFacts.
