(* ===== verification/ControllerEnds.v ===== *)
(** What the two event loops come to: every request is answered when they have taken what
    is queued, and nothing remains of a container that has been closed. *)
From S2P Require Import Prelude Qt Records Requests Synchronizer WatchPaths Controller ControllerLaws ControllerBooks ControllerOwner ControllerFacts.
From coqutil Require Import Datatypes.RecordSetters.
Import OCamlLikeNotations.
Open Scope Z_scope.

Module ControllerEnds.
Import Records Controller ControllerLaws ControllerBooks ControllerOwner ControllerFacts.

(** The deadline of a request has passed at [t]. *)
Definition due (t : Z) (c : Call) : Prop := match c with HandleJob _ _ _ _ deadline _ => deadline ≤ t | _ => True end.
Section ends.
Context {PF : Platform} {R : ReplicaOps} {C : ReplicaControl}.
Variables (uuid : nat → QString) (sharedOpen : QString → QString + QString).
Variables (bindingAt : QString → jobj) (primaryHostAt : QString → QString → QString) (identifierAt : QString → option QString).
Variable discover : Z → QString → option (list QString).
Variable sender : option (nat → QString → jobj → QString).
Notation perform := (perform uuid sharedOpen bindingAt primaryHostAt identifierAt discover).
Notation turn := (turn uuid sharedOpen bindingAt primaryHostAt identifierAt discover).
Notation step := (step uuid sharedOpen bindingAt primaryHostAt identifierAt discover sender).
Notation history := (history uuid sharedOpen bindingAt primaryHostAt identifierAt discover sender).
Notation sound_step := (sound_step uuid sharedOpen bindingAt primaryHostAt identifierAt discover sender).

(** A request that is due is not put off again. *)
Lemma handleJob_due n g key p m deadline d w : deadline ≤ clock n → retries (handleJob n g key p m deadline d w).2 = retries w.
Proof.
  intros Hd. destruct (Z.eq_dec (generation w) g) as [Eg|]; [|by rewrite handleJob_stale by auto].
  destruct (Z.eq_dec (cancellation n) g) as [Ec|]; [|by rewrite handleJob_stale by auto].
  destruct (handleJob_settles uuid sharedOpen bindingAt primaryHostAt identifierAt discover n g key p m deadline d w Eg Ec)
    as [[? _]|[r (w0 & Hc & ->)]]; [lia|].
  apply (calm_retries _ _ Hc).
Qed.
Lemma perform_due n c w : due (clock n) c → retries (perform n c w).2 = retries w.
Proof.
  intros Hd. destruct c; try (apply calm_retries; by apply perform_calm).
  - destruct (Z.eq_dec (cancellation n) revision) as [E|E].
    + by apply (moves_retries revision), (configure_moves uuid sharedOpen bindingAt primaryHostAt identifierAt).
    + unfold Controller.perform. by rewrite configure_stale by done.
  - by apply handleJob_due.
  - destruct (quit_calm uuid sharedOpen bindingAt primaryHostAt identifierAt discover n w) as (w0 & Hc & ->). apply (calm_retries _ _ Hc).
Qed.

Section drained.
Context (t e : Z).
(** A state between openings, all of whose requests are due. *)
Record settling (s : System) : Prop := {
  st_sound : sound s;
  st_open : shutdown (owner s) = false;
  st_range : current (owner s) < 2 ^ 64;
  st_due c : c ∈ calls (owner s) ++ retries (worker s) → due t c
}.
Lemma st_alive s : settling s → retired (worker s) = false.
Proof. intros [Hi Hs _ _]. by destruct (inv_alive _ _ _ _ Hi Hs). Qed.
Definition occurs (x : Step) : Occurrence := occur t e x.
Lemma settling_step s x : settling s → calling x = 0 → shutdown (owner (step s x)) = false →
  (∀ c, c ∈ calls (owner (step s x)) ++ retries (worker (step s x)) → due t c) → settling (step s x).
Proof.
  intros [Hi Hs Hr _] Hx Hs' Hd. destruct (sound_step s x Hi) as [H1 H2]; [lia|]. split; [done|done|lia|done].
Qed.
Lemma next_call s c rest : settling s → calls (owner s) = c :: rest →
  let s' := step s (occurs WorkerNext) in
  settling s' ∧ calls (owner s') = rest ∧ retries (worker s') = retries (worker s) ∧ jobs (owner s') = jobs (owner s).
Proof.
  intros Hs Ec s'. pose proof (st_due _ Hs) as Hd. rewrite Ec in Hd.
  assert (s' = workerStep (λ w, (perform (now t e s) c w).2) (mkSystem { (owner s) with calls := rest } (worker s) (log s))) as E.
  { unfold s', Controller.step. cbn [what occurs at_ since]. by rewrite Ec, (st_alive _ Hs). }
  assert (retries (worker s') = retries (worker s)) as Er.
  { rewrite E. apply perform_due. apply (Hd c). by left. }
  assert (calls (owner s') = rest ∧ shutdown (owner s') = shutdown (owner s) ∧ jobs (owner s') = jobs (owner s)) as (E1 & E2 & E3) by by rewrite E.
  split_and!; try done. apply settling_step; [done|done|exact (eq_trans E2 (st_open _ Hs))|].
  fold s'. rewrite E1, Er. intros c' Hc. apply Hd. by right.
Qed.
Lemma next_calls s : settling s → let s' := history s (replicate (List.length (calls (owner s))) (occurs WorkerNext)) in
  settling s' ∧ calls (owner s') = [] ∧ jobs (owner s') = jobs (owner s).
Proof.
  remember (calls (owner s)) as l eqn:El. revert s El. induction l as [|c l IH]; intros s El Hs; [by split_and!|].
  destruct (next_call s c l Hs (eq_sym El)) as (H1 & H2 & _ & H3). cbn [List.length replicate].
  change (history s (occurs WorkerNext :: ?l)) with (history (step s (occurs WorkerNext)) l).
  destruct (IH _ (eq_sym H2) H1) as (H4 & H5 & H6). split_and!; [done|done|congruence].
Qed.
Lemma next_retry s : settling s → calls (owner s) = [] →
  let s' := step s (occurs (WorkerTurn (Retry 0))) in
  settling s' ∧ calls (owner s') = [] ∧ retries (worker s') = tail (retries (worker s)) ∧ jobs (owner s') = jobs (owner s).
Proof.
  intros Hs Ec s'. assert (owner s' = owner s) as Eo by done. rewrite Eo.
  assert (worker s' = match retries (worker s) with
    | c :: _ => (perform (now t e s) c { (worker s) with retries := tail (retries (worker s)) }).2 | [] => worker s end) as Ew.
  { unfold s', Controller.step, workerStep. cbn [what occurs worker at_ since]. unfold Controller.turn. unfold bind at 1.
    change (get (worker s)) with (worker s, worker s). cbn [fst snd possible negb orb]. rewrite (st_alive _ Hs).
    destruct (retries (worker s)) as [|c l] eqn:El; [done|]. cbn [lookup list_lookup tail]. unfold bind, modify. cbn [fst snd].
    by rewrite El. }
  assert (retries (worker s') = tail (retries (worker s))) as Er.
  { rewrite Ew. destruct (retries (worker s)) as [|c l] eqn:El; [done|]. apply perform_due. apply (st_due _ Hs).
    apply elem_of_app. right. rewrite El. by left. }
  split_and!; try done. apply settling_step; [done|done|exact (st_open _ Hs)|].
  change (step s _) with s'. rewrite Eo, Er, Ec. cbn [app]. intros c Hc. apply (st_due _ Hs). apply elem_of_app. right.
  destruct (retries (worker s)); [done|by right].
Qed.
Lemma next_retries s : settling s → calls (owner s) = [] →
  let s' := history s (replicate (List.length (retries (worker s))) (occurs (WorkerTurn (Retry 0)))) in
  settling s' ∧ calls (owner s') = [] ∧ retries (worker s') = [] ∧ jobs (owner s') = jobs (owner s).
Proof.
  remember (List.length (retries (worker s))) as k eqn:Ek. revert s Ek. induction k as [|k IH]; intros s Ek Hs Hc.
  - split_and!; try done. change (retries (worker s) = []). by destruct (retries (worker s)).
  - destruct (next_retry s Hs Hc) as (H1 & H2 & H3 & H4). cbn [replicate].
    change (history s (occurs (WorkerTurn (Retry 0)) :: ?l)) with (history (step s (occurs (WorkerTurn (Retry 0)))) l).
    destruct (IH (step s (occurs (WorkerTurn (Retry 0))))) as (H5 & H6 & H7 & H8); [|done..|split_and!; try done; congruence].
    rewrite H3. destruct (retries (worker s)); cbn in *; lia.
Qed.
(** Signals are delivered: requests are only answered. *)
Record delivered (s s' : System) : Prop := {
  de_settling : settling s';
  de_calls c : c ∈ calls (owner s') → c ∈ calls (owner s) ∨ plainCall c;
  de_retries : retries (worker s') = retries (worker s);
  de_jobs key : is_Some (jobs (owner s') !! key) ↔ is_Some (jobs (owner s) !! key)
}.
Lemma next_note s : settling s → let s' := step s (occurs OwnerNext) in
  delivered s s' ∧ notes (worker s') = tail (notes (worker s)).
Proof.
  intros Hs s'. destruct (notes (worker s)) as [|x l] eqn:En.
  { assert (s' = s) as -> by by (unfold s', Controller.step; cbn [what occurs]; rewrite En). split; [|done]. split; auto. }
  assert (s' = ownerStep (λ o, (deliver sender x o).2) (mkSystem (owner s) { (worker s) with notes := l } (log s))) as E.
  { unfold s', Controller.step. cbn [what occurs]. by rewrite En. }
  assert (owner s' = (deliver sender x (owner s)).2) as Eo by by rewrite E.
  assert (retries (worker s') = retries (worker s)) as Er by by rewrite E.
  assert (shutdown (owner s') = shutdown (owner s) ∧ (∀ c, c ∈ calls (owner s') → c ∈ calls (owner s) ∨ plainCall c)
    ∧ ∀ key, is_Some (jobs (owner s') !! key) ↔ is_Some (jobs (owner s) !! key)) as (E1 & E2 & E3).
  { rewrite Eo. set (P := match x with Result _ _ _ => False | _ => True end : Prop).
    assert (P ∨ ¬ P) as [Hx|Hx] by (unfold P; destruct x; tauto).
    - destruct (deliver_mild sender x Hx (owner s)) as [_ -> _ -> _ _ _ (k & -> & Hk)]. split_and!; [done| |done].
      rewrite Forall_forall in Hk. intros c [?|?]%elem_of_app; auto.
    - destruct x as [| | |g key r| | | | | |]; try (exfalso; by apply Hx). unfold deliver. rewrite obind_oget. cbv iota beta.
      destruct (g =? _); [|split_and!; auto; done]. destruct (jobs (owner s) !! key) as [j|] eqn:Ej.
      + destruct (onResult_spec key r _ j Ej) as (H & -> & _ & ->). unfold standing in H. injection H as _ -> _ _ _.
        split_and!; [done|auto|]. intros k. destruct (decide (k = key)) as [->|]; [|by rewrite lookup_insert_ne by done].
        rewrite lookup_insert_eq, Ej. split; eauto.
      + unfold onResult. rewrite obind_oget, Ej. split_and!; auto; done. }
  split; [|by rewrite E]. split; [|done..]. apply settling_step; [done|done|exact (eq_trans E1 (st_open _ Hs))|].
  change (step s _) with s'. rewrite Er. intros c [[H|H]%E2|H]%elem_of_app.
  - apply (st_due _ Hs), elem_of_app. by left.
  - by destruct c.
  - apply (st_due _ Hs), elem_of_app. by right.
Qed.
Lemma next_notes s : settling s → let s' := history s (replicate (List.length (notes (worker s))) (occurs OwnerNext)) in
  delivered s s' ∧ notes (worker s') = [].
Proof.
  remember (List.length (notes (worker s))) as k eqn:Ek. revert s Ek. induction k as [|k IH]; intros s Ek Hs.
  - split; [split; auto|]. change (notes (worker s) = []). by destruct (notes (worker s)).
  - destruct (next_note s Hs) as [H1 H2]. cbn [replicate].
    change (history s (occurs OwnerNext :: ?l)) with (history (step s (occurs OwnerNext)) l).
    destruct (IH (step s (occurs OwnerNext))) as [[H5 H6 H7 H8] H9]; [|by destruct H1|].
    { rewrite H2. destruct (notes (worker s)); cbn in *; lia. }
    destruct H1 as [G1 G2 G3 G4]. split; [|done]. split; [done| |congruence|intros; by rewrite H8, G4].
    intros c [H|H]%H6; auto.
Qed.
End drained.

(** C8: Every request is answered.  Once the loops of both threads have taken what is
    queued, at a time when its deadlines have passed and without another call of the
    application, every job that stood is still there, and finished. *)
Theorem requests_answered r l t :
  callings l < 2 ^ 64 → let s := history (initial r) l in
  shutdown (owner s) = false → (∀ c, c ∈ calls (owner s) ++ retries (worker s) → due t c) →
  ∃ l', Forall (λ x, at_ x = t ∧ calling x = 0) l' ∧ let s' := history s l' in
    ∀ key, is_Some (jobs (owner s) !! key) → ∃ j, jobs (owner s') !! key = Some j ∧ finished j = true.
Proof.
  intros Hl s Hs Hd. destruct (sound_history uuid sharedOpen bindingAt primaryHostAt identifierAt discover sender l (initial r)) as [H1 H2];
    [apply initial_sound|done|]. fold s in H1, H2.
  assert (settling t s) as H0 by by split; [done|done|change (current (owner (initial r))) with 0 in H2; lia|done].
  destruct (next_calls t 0 s H0) as (A1 & A2 & A3). set (s1 := history s _) in *.
  destruct (next_retries t 0 s1 A1 A2) as (B1 & B2 & B3 & B4). set (s2 := history s1 _) in *.
  destruct (next_notes t 0 s2 B1) as [[C1 C2 C3 C4] C5]. set (s3 := history s2 _) in *.
  exists (replicate (List.length (calls (owner s))) (occurs t 0 WorkerNext)
    ++ replicate (List.length (retries (worker s1))) (occurs t 0 (WorkerTurn (Retry 0)))
    ++ replicate (List.length (notes (worker s2))) (occurs t 0 OwnerNext)).
  split; [rewrite !Forall_app; split_and!; by apply Forall_replicate|]. cbv zeta. intros key Hk.
  unfold Controller.history. rewrite !foldl_app. change (∃ j, jobs (owner s3) !! key = Some j ∧ finished j = true).
  clearbody s3. clearbody s2. clearbody s1. clearbody s.
  assert (is_Some (jobs (owner s3) !! key)) as [j Ej] by by apply C4; rewrite B4, A3. exists j. split; [done|].
  destruct (inv_books _ _ _ _ (st_sound _ _ C1)) as [_ He]. specialize (He key). rewrite Ej in He. cbn [app] in He.
  rewrite carried_none in He.
  - destruct (stage key _) as [[]|]; cbn in He; try done; [by destruct He as [_ ?%not_elem_of_nil]..|by destruct He].
  - intros c. rewrite C3, B3, app_nil_r. intros [H|H]%C2; [rewrite B2 in H; by apply not_elem_of_nil in H|].
    apply plain_stamp in H as [-> _]. done.
  - rewrite C5. by intros ? ?%not_elem_of_nil.
Qed.
End ends.
End ControllerEnds.
