(* ===== verification/ControllerCloses.v ===== *)
(** What remains of a container that has been closed: the worker keeps no replica open,
    no session runs, and no indexer of it. *)
From S2P Require Import Prelude Qt Records Requests Synchronizer WatchPaths Controller ControllerLaws ControllerBooks ControllerOwner ControllerFacts.
From coqutil Require Import Datatypes.RecordSetters.
Import OCamlLikeNotations.
Open Scope Z_scope.

Module ControllerCloses.
Import Records Controller ControllerLaws ControllerBooks ControllerOwner ControllerFacts.

(** The worker holds nothing of a container. *)
Record dormant `{ReplicaOps} (w : Worker) : Prop := {
  do_closed : opened w = false;
  do_idle : busy w = false;
  do_unindexed : indexing w = None;
  do_unarchived : archiving w = None
}.
Section closes.
Context {PF : Platform} {R : ReplicaOps} {C : ReplicaControl}.
(** Replica::close leaves the replica closed. *)
Hypothesis close_closes : ∀ r, isOpen (close r).2 = false.
Variables (uuid : nat → QString) (sharedOpen : QString → QString + QString).
Variables (bindingAt : QString → jobj) (primaryHostAt : QString → QString → QString) (identifierAt : QString → option QString).
Variable discover : Z → QString → option (list QString).
Variable sender : option (nat → QString → jobj → QString).
Notation perform := (perform uuid sharedOpen bindingAt primaryHostAt identifierAt discover).
Notation turn := (turn uuid sharedOpen bindingAt primaryHostAt identifierAt discover).
Notation step := (step uuid sharedOpen bindingAt primaryHostAt identifierAt discover sender).
Notation history := (history uuid sharedOpen bindingAt primaryHostAt identifierAt discover sender).
Notation onSession := (onSession uuid discover).

(** *** A session that does not run *)
Definition passive (ev : Synchronizer.Event) : Prop :=
  match ev with Synchronizer.Start _ | Synchronizer.Elsewhere _ => False | _ => True end.
Lemma inactive_expire t s : Synchronizer.active s = false → (Synchronizer.expire uuid (λ _ _, false) t s).2 = s.
Proof.
  intros Ha. unfold Synchronizer.expire, Synchronizer.bind, Synchronizer.get, Synchronizer.current_. cbn [fst snd].
  rewrite Ha. cbn [andb]. destruct t as [id g|id g|g a]; [|done..]. by destruct (Synchronizer.requests s !! id).
Qed.
Lemma inactive_perform ev s : Synchronizer.active s = false → passive ev →
  let s' := (Synchronizer.perform uuid (λ _ _, false) ev s).2 in
  Synchronizer.active s' = false ∧ Synchronizer.store s' = Synchronizer.store s ∧ Synchronizer.out s' = Synchronizer.out s.
Proof.
  intros Ha Hp s'. subst s'. destruct ev as [| |h c|p|chunks|id response|n| |]; try done; cbn [Synchronizer.perform];
    unfold Synchronizer.stop, Synchronizer.fail, Synchronizer.setExpectedHost, Synchronizer.stop, Synchronizer.fail,
      Synchronizer.setContentPolicy, Synchronizer.setTransferWindow, Synchronizer.receive, Synchronizer.checkDeadlines,
      Synchronizer.bind, Synchronizer.get, Synchronizer.modify; cbn [fst snd]; rewrite ?Ha; cbn [negb orb]; try done.
  - by destruct (_ || _).
  - by destruct (Synchronizer.requests s !! id).
  - destruct (Synchronizer.timers s !! n) as [t|]; [|done]. unfold Synchronizer.bind, Synchronizer.modify. cbn [fst snd].
    by rewrite inactive_expire.
  - destruct (_ && _); [|done]. unfold Synchronizer.fail, Synchronizer.bind, Synchronizer.get. cbn [fst snd]. by rewrite Ha.
Qed.
Lemma inactive_step ev s n m : Synchronizer.active s = false → passive ev →
  let s' := Synchronizer.step uuid (λ _ _, false) s (Synchronizer.occur n m ev) in
  Synchronizer.active s' = false ∧ Synchronizer.store s' = Synchronizer.store s ∧ Synchronizer.out s' = Synchronizer.out s.
Proof.
  intros Ha Hp. unfold Synchronizer.step. cbn [Synchronizer.event Synchronizer.at_ Synchronizer.elapsed].
  match goal with |- context [Synchronizer.perform _ _ _ ?x] => exact (inactive_perform ev x Ha Hp) end.
Qed.
(** Among the slots only those of a replica's signals touch the session, by its replica. *)
Definition shuts {A} (m : W A) : Prop := ∀ w,
  busy (m w).2 = busy w ∧ (indexing w = None → indexing (m w).2 = None) ∧ (archiving w = None → archiving (m w).2 = None).
Lemma shuts_bind {A B} (m : W A) (k : A → W B) : shuts m → (∀ a, shuts (k a)) → shuts (bind m k).
Proof.
  intros Hm Hk w. destruct (Hm w) as (E1 & E2 & E3), (Hk (m w).1 (m w).2) as (F1 & F2 & F3).
  unfold bind. split_and!; [congruence|auto..].
Qed.
Lemma shuts_get {B} (k : Worker → W B) : (∀ w, shuts (k w)) → shuts (bind get k).
Proof. intros Hk w. apply Hk. Qed.
Lemma shuts_ret {A} (a : A) : shuts (ret a).
Proof. by intros w. Qed.
Lemma shuts_modify f : (∀ w, session (f w) = session w ∧ (indexing w = None → indexing (f w) = None)
  ∧ (archiving w = None → archiving (f w) = None)) → shuts (modify f).
Proof. intros Hf w. destruct (Hf w) as (E & ? & ?). unfold busy, modify. cbn [snd]. by rewrite E. Qed.
Lemma shuts_call {A} (f : replica → A * replica) : shuts (call f).
Proof. by intros []. Qed.
Ltac shut1 :=
  match goal with
  | |- shuts (bind get _) => apply shuts_get; intros ?
  | |- shuts (bind _ _) => apply shuts_bind; [|intros ?]
  | |- shuts (ret _) => apply shuts_ret
  | |- shuts (call _) => apply shuts_call
  | |- shuts (note _) => apply shuts_modify; let w := fresh in intros w; destruct w; by cbn
  | |- shuts (modify _) => apply shuts_modify; let w := fresh in intros w; destruct w; by cbn
  | |- shuts (match ?x with _ => _ end) => destruct x
  end.
Lemma relayAll_dormant n l : shuts (relayAll discover n l).
Proof.
  induction l as [|x l IH]; [apply shuts_ret|]. cbn [relayAll]. apply shuts_bind; [|done].
  unfold relay, refreshWatches, publishNamespace, stopIndexing. repeat shut1.
Qed.
Lemma onSession_stops n w : busy (onSession n Synchronizer.Stop w).2 = false.
Proof.
  unfold Controller.onSession, bind, get, modify. cbn [fst snd]. rewrite (proj1 (relayAll_dormant _ _ _)).
  destruct w as [? ? ? s]. unfold busy, Synchronizer.step. cbn. destruct s. cbn. by destruct active.
Qed.
Lemma onSession_dormant n ev w : dormant w → passive ev → dormant (onSession n ev w).2.
Proof.
  intros [Hc Hb Hi Ha] Hp. unfold Controller.onSession, bind, get, modify. cbn [fst snd].
  destruct (inactive_step ev (session w) (clock n) (elapsed n) Hb Hp) as (H1 & H2 & H3). set (s := Synchronizer.step _ _ _ _) in *.
  rewrite H3, drop_all. cbn [relayAll ret snd]. split; try done. unfold opened, store in *.
  change (started w && isOpen (Synchronizer.store s) = false). by rewrite H2.
Qed.
(** *** What keeps a worker dormant *)
Definition keeps {A} (m : W A) : Prop := ∀ w, dormant w → dormant (m w).2.
Lemma dormant_ret {A} (a : A) : keeps (ret a).
Proof. by intros w. Qed.
Lemma dormant_bind {A B} (m : W A) (k : A → W B) : keeps m → (∀ a, keeps (k a)) → keeps (bind m k).
Proof. intros Hm Hk w H. apply Hk, Hm, H. Qed.
Lemma dormant_get {B} (k : Worker → W B) : (∀ w, dormant w → keeps (k w)) → keeps (bind get k).
Proof. intros Hk w H. by apply Hk. Qed.
Lemma dormant_modify f : (∀ w, session (f w) = session w ∧ started (f w) = started w ∧ (indexing w = None → indexing (f w) = None)
  ∧ (archiving w = None → archiving (f w) = None)) → keeps (modify f).
Proof.
  intros Hf w [Hc Hb Hi Ha]. destruct (Hf w) as (E1 & E2 & E3 & E4). unfold modify. cbn [snd].
  split; auto; unfold opened, busy, store in *; by rewrite ?E1, ?E2.
Qed.
Lemma dormant_session n ev : passive ev → keeps (onSession n ev).
Proof. intros Hp w H. by apply onSession_dormant. Qed.
Lemma dormant_closed {A} (m : W A) (k : W A) : keeps k → keeps (bind get (λ w, if negb (opened w) then k else m)).
Proof. intros Hk w H. unfold bind, get. cbn [fst snd]. rewrite (do_closed _ H). by apply Hk. Qed.
Ltac keep1 :=
  match goal with
  | |- keeps (bind get _) => apply dormant_get; intros ? ?
  | |- keeps (bind _ _) => apply dormant_bind; [|intros ?]
  | |- keeps (ret _) => apply dormant_ret
  | |- keeps (note _) => apply dormant_modify; let w := fresh in intros w; destruct w; by cbn
  | |- keeps (modify _) => apply dormant_modify; let w := fresh in intros w; destruct w; by cbn
  | |- keeps (onSession _ _) => apply dormant_session; exact I
  | H : dormant ?w |- keeps (if negb (opened ?w) then _ else _) => rewrite (do_closed _ H)
  | H : dormant ?w |- context [opened ?w] => rewrite (do_closed _ H); cbn [negb orb andb]
  | |- keeps (match ?x with _ => _ end) => let E := fresh "E" in destruct x eqn:E
  | |- keeps (let _ := _ in _) => cbv zeta
  end.
Ltac keep := repeat first [keep1 | solve [eauto with controller]].
Lemma tick_keeps n : keeps (tick uuid discover n).
Proof. unfold tick. keep. Qed.
Lemma next_keeps n : keeps (next uuid discover n).
Proof. unfold next. keep. Qed.
Lemma pinPrimary_keeps : keeps pinPrimary.
Proof. unfold pinPrimary. keep. Qed.
Hint Resolve tick_keeps next_keeps pinPrimary_keeps : controller.
Lemma archiveFiles_keeps : keeps archiveFiles.
Proof. unfold archiveFiles. keep. Qed.
Hint Resolve archiveFiles_keeps : controller.
Lemma plain_keeps n c : plainCall c → keeps (perform n c).
Proof. intros Hc. destruct c; try done; unfold Controller.perform, inspect, setHosts; keep. Qed.
Lemma threads_keep n r ok e : keeps (indexFinished discover n r ok e) ∧ keeps (archiveFinished n r ok e).
Proof.
  split; intros w H; [unfold indexFinished|unfold archiveFinished]; unfold bind at 1; change (get w) with (w, w); cbn [fst snd].
  - by rewrite (do_unindexed _ H).
  - by rewrite (do_unarchived _ H).
Qed.
Definition gentle (t : Turn) : Prop :=
  match t with Elsewhere f => ∀ r, isOpen r = false → isOpen (f r) = false | Retry _ => False | _ => True end.
Lemma elsewhere_keeps n f : gentle (Elsewhere f) → keeps (onSession n (Synchronizer.Elsewhere f)).
Proof.
  intros Hf w [Hc Hb Hi Ha]. unfold Controller.onSession, bind, get, modify. cbn [fst snd].
  set (s := Synchronizer.step _ _ _ _).
  assert (Synchronizer.out s = Synchronizer.out (session w) ∧ Synchronizer.active s = false
    ∧ Synchronizer.store s = f (store w)) as (H1 & H2 & H3) by by split_and!.
  rewrite H1, drop_all. cbn [relayAll ret snd]. split; try done. change (started w && isOpen (Synchronizer.store s) = false).
  rewrite H3. unfold opened in Hc. destruct (started w); [|done]. by apply Hf.
Qed.
Lemma turn_keeps n t : gentle t → keeps (turn n t).
Proof.
  intros Ht. unfold Controller.turn. apply dormant_get. intros w Hw. destruct (_ || _); [apply dormant_ret|].
  destruct t; try done; keep.
  - apply threads_keep.
  - apply threads_keep.
  - by apply elsewhere_keeps.
Qed.
(** *** Closing *)
(** The worker's threads are stopped. *)
Definition unthreaded (w : Worker) : Prop := indexing w = None ∧ archiving w = None.
Lemma onSession_unthreaded n ev w : unthreaded w → unthreaded (onSession n ev w).2.
Proof.
  intros [Hi Ha]. unfold Controller.onSession, bind, get, modify. cbn [fst snd].
  match goal with |- context [relayAll _ _ _ ?x] => destruct (relayAll_dormant n (drop (List.length (Synchronizer.out (session w)))
    (Synchronizer.out (Synchronizer.step uuid (λ _ _, false) (session w) (Synchronizer.occur (clock n) (elapsed n) ev)))) x) as (_ & E2 & E3) end.
  split; [by apply E2|by apply E3].
Qed.
Lemma close_dormant w : unthreaded w → busy w = false → dormant (call close w).2.
Proof.
  intros [Hi Ha] Hb. split; [|done..]. change (started w && isOpen (close (store w)).2 = false).
  by rewrite close_closes, andb_false_r.
Qed.
(** What a chain of operations comes to, from each condition to the next. *)
Definition leads {A} (P Q : Worker → Prop) (m : W A) : Prop := ∀ w, P w → Q (m w).2.
Lemma chain_bind {A B} (P Q S : Worker → Prop) (m : W A) (k : A → W B) :
  leads P Q m → (∀ a, leads Q S (k a)) → leads P S (bind m k).
Proof. intros Hm Hk w H. apply Hk, Hm, H. Qed.
Definition halted (w : Worker) : Prop := unthreaded w ∧ busy w = false.
Lemma configure_dormant n p g d w : cancellation n = g → dormant (configure uuid sharedOpen discover n p [] g d w).2.
Proof.
  intros Hn. unfold configure. rewrite Hn, Z.eqb_refl. cbn [negb isEmpty].
  assert (∀ m : W unit, leads unthreaded dormant m → dormant ((bind get (λ w, bind (if started w then ret tt else initialize uuid discover n)
    (λ _, bind stopIndexing (λ _, m)))) w).2) as H.
  { intros m Hm. unfold bind, get. cbn [fst snd]. apply Hm. done. }
  apply H. clear w H.
  apply (chain_bind _ unthreaded); [intros w; apply onSession_unthreaded|intros _].
  apply (chain_bind _ unthreaded); [by intros []|intros _].
  apply (chain_bind _ halted); [intros w Hw; split; [by apply onSession_unthreaded|apply onSession_stops]|intros _].
  apply (chain_bind _ halted); [by intros []|intros _].
  apply (chain_bind _ dormant); [intros w [Hu Hb]; by apply close_dormant|intros _].
  change (keeps (bind (modify (λ w, { w with pending := false; changedFiles := false; container := []; primaryClaim := []; hostAccess := d;
                           indexDirty := true; indexRefresh := None; namespaceSnapshot := ∅; watched := [] }))
    (λ _, note (WorkerStatus g false false [])))). keep.
Qed.

(** A closed controller: nothing of a request remains, and its worker is dormant or will
    be when it has taken what is queued. *)
Record rests (s : System) : Prop := {
  re_configured p a g d : Configure p a g d ∈ calls (owner s) → g ≤ current (owner s) ∧ (g = current (owner s) → a = scope (owner s));
  re_jobs : scope (owner s) = [] → jobs (owner s) = ∅;
  re_dormant : scope (owner s) = [] → shutdown (owner s) = false →
    dormant (worker s) ∨ ∃ p d, Configure p [] (current (owner s)) d ∈ calls (owner s)
}.
Lemma plainCall_other c : plainCall c → ∀ p a g d, c ≠ Configure p a g d.
Proof. by destruct c. Qed.
Lemma rests_mild b o o' w L : mild b o o' → rests (mkSystem o w L) → rests (mkSystem o' w L).
Proof.
  intros [Ec Ej _ Es Esc _ _ (l & El & Hl)] [H1 H2 H3]. cbn in *. rewrite Forall_forall in Hl.
  split; cbn; rewrite ?Ec, ?Ej, ?Es, ?Esc, ?El; [|done|].
  - intros p a g d [H|H%Hl]%elem_of_app; [by eapply H1|done].
  - intros Ha Hs. destruct (H3 Ha Hs) as [|(p & d & H)]; [by left|]. right. exists p, d. apply elem_of_app. by left.
Qed.
Lemma rests_log o w L L' : rests (mkSystem o w L) → rests (mkSystem o w L').
Proof. intros [H1 H2 H3]. by split. Qed.
Lemma rests_notes o w L l : rests (mkSystem o w L) → rests (mkSystem o { w with notes := l } L).
Proof.
  intros [H1 H2 H3]. split; [done..|]. intros Ha Hs. destruct (H3 Ha Hs) as [[]|]; [left; by split|by right].
Qed.
Lemma rests_turns c o o' w L : 0 ≤ current o → current o + 1 < 2 ^ 64 → turns c o o' →
  rests (mkSystem o w L) →
  match c with Configure _ a g _ => a = scope o' ∧ g = current o' | Quit => shutdown o' = true | _ => False end →
  rests (mkSystem o' w L).
Proof.
  intros H0 Hlt [Ec _ Ej El _] [H1 H2 H3] Hc. rewrite wrap64_id in Ec by lia. cbn in *. split; cbn; rewrite ?Ej; [|done|].
  - intros p a g d. rewrite El. intros [H|H%list_elem_of_singleton]%elem_of_app; [destruct (H1 _ _ _ _ H); rewrite Ec; lia|].
    subst c. destruct Hc as [-> ->]. split; [lia|done].
  - intros Ha Hs. destruct c; try done; [|congruence]. destruct Hc as [-> ->]. right. rewrite El, Ha. eexists _, _.
    apply elem_of_app. right. by left.
Qed.
(** The jobs change while a container is open, or to nothing. *)
Lemma rests_jobs o o' w L : standing o' = standing o → (∀ c, c ∈ calls o' → c ∈ calls o ∨ isJob c) →
  (∀ c, c ∈ calls o → c ∈ calls o') → (scope o = [] → jobs o = ∅ → jobs o' = ∅) → rests (mkSystem o w L) → rests (mkSystem o' w L).
Proof.
  unfold standing. intros [= Ec Es Esc _ _] Hc Hc' Hj [H1 H2 H3]. cbn in *. split; cbn; rewrite ?Ec, ?Es, ?Esc.
  - intros p a g d [H|H]%Hc; [by eapply H1|done].
  - auto.
  - intros Ha Hs. destruct (H3 Ha Hs) as [|(p & d & H)]; [by left|]. right. eauto.
Qed.
Lemma rests_handle n p envelope o w L : sound (mkSystem o w L) → rests (mkSystem o w L) → rests (mkSystem (handle n p envelope o).2 w L).
Proof.
  intros Hi Hr. destruct (objection o p envelope) as [e|] eqn:Eo; [by rewrite (handle_refused _ _ _ _ _ Eo)|].
  destruct (jobs o !! jobKey p (toStr envelope.["token"])) as [j|] eqn:Ej; [by rewrite (handle_known _ _ _ _ _ Eo Ej)|].
  rewrite (handle_new _ _ _ _ Eo Ej). pose proof (booked_start _ _ _ (inv_books _ _ _ _ Hi)) as Hb.
  destruct (objection_ready _ _ _ Eo) as [_ Hsc].
  destruct (admit_spec n _ _ _ _ p envelope _ Hb Ej) as [(_ & _ & H%rest_standing & _)|[_ [_ H Hc _ _]]].
  - destruct H as [Hs Hc]. cbn [owner] in Hs, Hc. eapply rests_jobs; [exact Hs| | |done|exact Hr]; intros c0 H0; rewrite Hc in *; auto.
  - cbn [owner] in H, Hc. eapply rests_jobs; [exact H| | |done|exact Hr]; rewrite Hc.
    + intros c [?| ->%list_elem_of_singleton]%elem_of_app; [by left|by right].
    + intros c ?. apply elem_of_app. by left.
Qed.
Lemma rests_open c a d o w L : 0 ≤ current o → current o + 1 < 2 ^ 64 → rests (mkSystem o w L) →
  rests (mkSystem (openInternal c a d o).2 w L).
Proof.
  intros H0 Hlt Hr. destruct (openInternal_turns c a d o) as [->|(Ht & _ & _ & Es & _)]; [done|].
  by eapply rests_turns; [exact H0|done|exact Ht|done|].
Qed.
Lemma rests_api n a o w L : sound (mkSystem o w L) → current o + 1 < 2 ^ 64 → rests (mkSystem o w L) →
  rests (mkSystem (api n a o).2 w L).
Proof.
  intros Hi Hlt Hr. pose proof (inv_range _ _ _ _ Hi) as H0. cbn in H0.
  assert (plainApi a ∨ ¬ plainApi a) as [Hp|Hp] by (destruct a; cbn; tauto).
  { eapply rests_mild; [apply (api_mild n a Hp o)|done]. }
  destruct a; try (exfalso; by apply Hp); unfold api.
  - by apply rests_open.
  - by apply rests_open.
  - unfold closeController. rewrite obind_oget. destruct (_ && _); [done|by apply rests_open].
  - destruct (shutdownAsync_turns o) as [[_ ->]|[Ht Hs]]; [done|]. by eapply rests_turns; [exact H0|done|exact Ht|done|].
  - by apply rests_handle.
Qed.
Lemma rests_deliver x o w L : rests (mkSystem o w L) → rests (mkSystem (deliver sender x o).2 w L).
Proof.
  intros Hr. set (P := match x with Result _ _ _ => False | _ => True end : Prop).
  assert (P ∨ ¬ P) as [Hx|Hx] by (unfold P; destruct x; tauto).
  { eapply rests_mild; [apply (deliver_mild sender x Hx o)|done]. }
  destruct x as [| | |g key r| | | | | |]; try (exfalso; by apply Hx). unfold deliver. rewrite obind_oget. cbv iota beta.
  destruct (g =? _); [|done]. destruct (jobs o !! key) as [j|] eqn:Ej; [|unfold onResult; by rewrite obind_oget, Ej].
  destruct (onResult_spec key r o j Ej) as (Hs & Hc & _ & Hj).
  eapply rests_jobs; [exact Hs|rewrite Hc; auto|rewrite Hc; auto| |exact Hr]. intros _ H. by rewrite H in Ej.
Qed.
(** No request of the present generation is left of a closed container. *)
Lemma closed_unasked o w L key p m deadline d : Inv [] o w L → jobs o = ∅ →
  HandleJob (current o) key p m deadline d ∉ calls o ++ retries w.
Proof.
  intros Hi Hj Hin. destruct (inv_books _ _ _ _ Hi) as [_ He]. specialize (He key). rewrite Hj, lookup_empty in He. cbn [app] in He.
  assert ((key, None) ∈ carried o w) as Hc.
  { apply elem_of_app. left. apply list_elem_of_omap. eexists. split; [exact Hin|]. cbn. by rewrite Z.eqb_refl. }
  destruct (stage key L) as [[]|]; cbn in He; try done. by apply He in Hc.
Qed.
Lemma handleJob_keeps n g key p m deadline d : cancellation n ≠ g → keeps (handleJob n g key p m deadline d).
Proof. intros Hn w Hw. rewrite handleJob_stale; auto. Qed.
Lemma rests_worker o w w' L : rests (mkSystem o w L) → (scope o = [] → shutdown o = false → dormant w → dormant w') → rests (mkSystem o w' L).
Proof.
  intros [H1 H2 H3] Hd. split; [done..|]. cbn in *. intros Ha Hs. destruct (H3 Ha Hs); [left; auto|by right].
Qed.
Lemma rests_perform n c rest o w L : sound (mkSystem o w L) → rests (mkSystem o w L) → calls o = c :: rest → cancellation n = current o →
  rests (mkSystem { o with calls := rest } (perform n c w).2 L).
Proof.
  intros Hi [H1 H2 H3] Ec Hn. cbn [owner worker] in *. rewrite Ec in H1, H3.
  assert (∃ o', o' = { o with calls := rest } ∧ calls o' = rest ∧ current o' = current o ∧ scope o' = scope o ∧ jobs o' = jobs o
    ∧ shutdown o' = shutdown o) as (o' & <- & E1 & E2 & E3 & E4 & E5) by by eexists.
  split; cbn [owner worker]; rewrite ?E1, ?E2, ?E3, ?E4, ?E5; [intros p a g d H; eapply H1; by right|done|].
  intros Ha Hs. assert (dormant w → dormant (perform n c w).2) as Hk.
  { destruct c; try (by apply plain_keeps).
    - destruct (Z.eq_dec (cancellation n) revision) as [E|E].
      + intros _. rewrite Hn in E. destruct (H1 path0 scope0 revision directHost) as [_ Hsc]; [by left|].
        rewrite Hsc, Ha by done. apply configure_dormant. congruence.
      + intros Hw. unfold Controller.perform. by rewrite configure_stale.
    - destruct (Z.eq_dec (cancellation n) revision) as [E|E]; [|by apply handleJob_keeps]. exfalso. rewrite Hn in E. subst revision.
      eapply (closed_unasked o w L); [exact Hi|by apply H2|]. rewrite Ec. left.
    - exfalso. destruct (inv_alive _ _ _ _ Hi Hs) as [_ Hq]. apply Hq. cbn. rewrite Ec. left. }
  destruct (H3 Ha Hs) as [Hw|(p & d & [Hc|Hc]%elem_of_cons)]; [left; auto| |right; eauto].
  left. subst c. by apply configure_dormant.
Qed.
Lemma rests_turn n t o w L : sound (mkSystem o w L) → rests (mkSystem o w L) → cancellation n = current o →
  gentle t ∨ (∃ i, t = Retry i) → rests (mkSystem o (turn n t w).2 L).
Proof.
  intros Hi Hr Hn [Ht|[i ->]]; (eapply rests_worker; [exact Hr|intros Ha Hs]); [by apply turn_keeps|].
  intros Hw. unfold Controller.turn, bind. change (get w) with (w, w). cbn [fst snd]. destruct (_ || _); [done|].
  destruct (retries w !! i) as [c|] eqn:Ei; [|done]. apply list_elem_of_lookup_2 in Ei.
  pose proof (inv_retries _ _ _ _ Hi _ Ei) as Hj. destruct c; try done. unfold modify. cbn [fst snd].
  apply handleJob_keeps; [|by destruct Hw; split]. intros E. rewrite Hn in E. subst revision.
  eapply (closed_unasked o w L); [exact Hi|by apply (re_jobs _ Hr)|]. apply elem_of_app. right. exact Ei.
Qed.
(** Others use the files of a container, they do not open this replica. *)
Definition kind (x : Occurrence) : Prop := match what x with WorkerTurn t => gentle t ∨ ∃ i, t = Retry i | _ => True end.
Lemma rests_step s x : sound s → current (owner s) + calling x < 2 ^ 64 → kind x → rests s → rests (step s x).
Proof.
  destruct s as [o w L]. intros Hi Hlt Hk Hr. unfold Controller.step, calling, kind in *. set (n := now (at_ x) (since x) _).
  destruct (what x) as [a| | |t]; cbn [owner worker log] in *.
  - apply (rests_log _ _ L). by apply rests_api.
  - destruct (notes w) as [|y l]; [done|]. apply (rests_log _ _ L). apply rests_deliver. by apply rests_notes.
  - destruct (calls o) as [|c l] eqn:Ec; [done|]. destruct (retired w); [done|]. apply (rests_log _ _ L). by apply rests_perform.
  - apply (rests_log _ _ L). by apply rests_turn.
Qed.
Notation sound_step := (sound_step uuid sharedOpen bindingAt primaryHostAt identifierAt discover sender).
Lemma rests_history l s : sound s → current (owner s) + callings l < 2 ^ 64 → Forall kind l → rests s →
  sound (history s l) ∧ rests (history s l) ∧ current (owner (history s l)) ≤ current (owner s) + callings l.
Proof.
  revert s. induction l as [|x l IH]; intros s Hs Hlt Hk Hr; [split_and!; [done..|cbn; lia]|].
  change (callings (x :: l)) with (calling x + callings l) in *. apply Forall_cons in Hk as [Hx Hk]. pose proof (callings_nonneg l).
  assert (0 ≤ calling x) by (unfold calling; destruct (what x); lia). change (history s (x :: l)) with (history (step s x) l).
  destruct (sound_step s x Hs) as [H1 H2]; [lia|]. assert (rests (step s x)) as H3 by (apply rests_step; [done|lia|done..]).
  destruct (IH _ H1) as (H4 & H5 & H6); [lia|done..|]. split_and!; [done..|lia].
Qed.
(** While only the worker moves, its owner's container stays. *)
Lemma worker_moves l s : Forall (λ x, workerOnly x = true) l →
  scope (owner (history s l)) = scope (owner s) ∧ shutdown (owner (history s l)) = shutdown (owner s).
Proof.
  intros H. revert s. induction H as [|x l Hx Hl IH]; intros s; [done|]. change (history s (x :: l)) with (history (step s x) l).
  destruct (IH (step s x)) as [-> ->]. unfold Controller.step, workerOnly in *. destruct (what x); try done.
  destruct (calls (owner s)); [done|]. by destruct (retired (worker s)).
Qed.
Lemma drained t e k s : sound s → current (owner s) < 2 ^ 64 → shutdown (owner s) = false → (List.length (calls (owner s)) ≤ k)%nat →
  calls (owner (history s (replicate k (occur t e WorkerNext)))) = [].
Proof.
  revert s. induction k as [|k IH]; intros s Hi Hlt Hs Hk; [cbn in *; by destruct (calls (owner s)); [|cbn in *; lia]|].
  cbn [replicate]. change (history s (?x :: ?l)) with (history (step s x) l).
  destruct (sound_step s (occur t e WorkerNext) Hi) as [H1 H2]; [cbn; lia|].
  destruct (worker_moves [occur t e WorkerNext] s) as [_ H3]; [by repeat constructor|].
  apply IH; [done|cbn in *; lia|exact (eq_trans H3 Hs)|]. unfold Controller.step. cbn [what]. destruct (calls (owner s)) as [|c l] eqn:Ec; [rewrite Ec; cbn; lia|].
  destruct (inv_alive _ _ _ _ Hi Hs) as [-> _]. change ((List.length l ≤ k)%nat). cbn in Hk. lia.
Qed.
Lemma callings_worker l : Forall (λ x, workerOnly x = true) l → callings l = 0.
Proof.
  induction 1 as [|x l Hx Hl IH]; [done|]. change (calling x + callings l = 0). rewrite IH. unfold calling, workerOnly in *.
  by destruct (what x).
Qed.
Lemma rests_initial r : rests (initial r).
Proof.
  split; [by intros ? ? ? ? ?%not_elem_of_nil|done|]. intros _ _. left. split; [done|done|done|done].
Qed.
Lemma closes_scope o : scope (closeController o).2 = [] ∧ shutdown (closeController o).2 = shutdown o ∨ shutdown o = true.
Proof.
  unfold closeController. rewrite obind_oget. destruct (isEmpty (scope o) && isEmpty (path o)) eqn:E.
  - left. apply andb_prop in E as [E _]. split; [|done]. cbn. by destruct (scope o).
  - destruct (shutdown o) eqn:Es; [by right|left]. destruct (openInternal_turns [] [] false o) as [H|(_ & _ & H2 & H3 & _)]; [|by rewrite H2, H3].
    exfalso. revert H. unfold openInternal. rewrite obind_oget, Es. cbn [isEmpty]. rewrite andb_false_r. cbn [andb].
    cbv zeta. rewrite obind_omodify.
    match goal with |- context [obind (publish ?c) ?k ?o] => destruct (obind_publish c k o) as (a & m & ->) end.
    rewrite obind_omodify, obind_forget, obind_omodify, obind_invoke. intros H. apply (f_equal calls) in H.
    change (calls o ++ [Configure [] [] (wrap64 (current o + 1)) false] = calls o) in H. apply (f_equal List.length) in H.
    rewrite length_app in H. cbn in H. lia.
Qed.

Lemma waits_dormant turns_ t e s : sound s → rests s → current (owner s) + 1 < 2 ^ 64 → shutdown (owner s) = false →
  Forall kind turns_ →
  let s' := closeAndWait uuid sharedOpen bindingAt primaryHostAt identifierAt discover sender turns_ t e s in
  calls (owner s') = [] ∧ dormant (worker s').
Proof.
  intros A1 A2 A3 Hs Hk. cbv zeta. unfold closeAndWait. rewrite Hs.
  destruct (sound_step s (occur t e (OwnerCalls Close)) A1) as [B1 B2]; [done|]. cbn [calling what] in B2.
  assert (rests (step s (occur t e (OwnerCalls Close)))) as B3 by by apply rests_step.
  assert (scope (owner (step s (occur t e (OwnerCalls Close)))) = [] ∧ shutdown (owner (step s (occur t e (OwnerCalls Close)))) = false) as [B4 B5].
  { destruct (closes_scope (owner s)) as [[H1 H2]|H]; [|congruence]. split; [exact H1|exact (eq_trans H2 Hs)]. }
  set (s1 := step s _) in *. clearbody s1. set (m := List.filter workerOnly turns_).
  assert (Forall (λ x, workerOnly x = true) m ∧ Forall kind m) as [Hm Hmk].
  { rewrite !Forall_forall in *. split; intros x Hx; apply list_elem_of_In, filter_In in Hx as [Hx ?]; [done|].
    by apply Hk, list_elem_of_In. }
  destruct (rests_history m s1 B1) as (C1 & C2 & C3); [rewrite (callings_worker m Hm); cbn in B2; lia|done|done|].
  rewrite (callings_worker m Hm) in C3. destruct (worker_moves m s1 Hm) as [C4 C5]. set (s2 := history s1 m) in *. clearbody s2 m.
  set (w := replicate _ _). assert (Forall (λ x, workerOnly x = true) w ∧ Forall kind w) as [Hw Hwk] by by split; apply Forall_replicate.
  assert (current (owner s2) < 2 ^ 64) as Hlt by (cbn in B2; lia).
  destruct (rests_history w s2 C1) as (D1 & D2 & _); [rewrite (callings_worker w Hw); lia|done|done|].
  destruct (worker_moves w s2 Hw) as [D4 D5]. assert (calls (owner (history s2 w)) = []) as E by (apply drained; [done|done|congruence|done]).
  split; [done|]. destruct (re_dormant _ D2) as [H|(p & d & H)]; [congruence..|done|]. rewrite E in H. by apply not_elem_of_nil in H.
Qed.

(** C7: Nothing remains after closing.  When [closeAndWait] returns, whatever turns the
    worker took while the owner waited, the worker has taken every call, its replica is
    closed, no session runs, and neither an indexer nor an archiver of the container is
    left, whichever way the controller was used before; a controller that was shut down
    waits for nothing. *)
Theorem close_and_wait r l turns_ t e :
  callings l + 1 < 2 ^ 64 → Forall kind l → Forall kind turns_ →
  let s := history (initial r) l in shutdown (owner s) = false →
  let s' := closeAndWait uuid sharedOpen bindingAt primaryHostAt identifierAt discover sender turns_ t e s in
  calls (owner s') = [] ∧ dormant (worker s').
Proof.
  intros Hl Hk Hk' s Hs.
  destruct (rests_history l (initial r)) as (A1 & A2 & A3); [apply initial_sound|cbn; lia|done|apply rests_initial|].
  apply waits_dormant; [exact A1|exact A2|fold s in A3; cbn in A3; lia|exact Hs|exact Hk'].
Qed.
End closes.
End ControllerCloses.
