(* ===== verification/ControllerDemo.v ===== *)
(** The controller's theorems at work, on a replica that counts what it serves; and the
    modelled replica as the one that a controller owns. *)
From S2P Require Import Prelude Qt Records Demo Namespace Files Store Scan Drive Requests Binding Synchronizer SynchronizerReplica WatchPaths Controller ControllerLaws ControllerBooks ControllerOwner ControllerFacts ControllerEnds ControllerCloses.
Open Scope Z_scope.

Module ControllerReplica.
Import Records Store Requests SynchronizerReplica.
(** What a claim of a container finds on its disk. *)
Record Claim := mkClaim {
  drive : option QString; mirror : Binding.Control; before : Binding.Control; reached : bool;
  control : option Binding.Control; written : bool
}.
Section instance.
Context {PF : Platform} {FS : FileStore} {Library : Type}.
Context (pendingRequests : Library → list jobj) (finishRequest : QString → QString → Library → Library).
Context (around : nat → Surroundings) (opening : nat → Binding.Opening) (claim : nat → QString → Claim).
#[local] Instance owned : ReplicaOps := replicaOps pendingRequests finishRequest around.
Definition served_ (peer : QString) (request : jobj) (w : Surroundings) : M jobj :=
  Requests.handle (env w) (render w)
    (Drive.driveRequest (env w) (isControlFile w) (modifiedAt w) (sharedStorage w) (fileInformation w) (prepare w))
    (Scan.scan (env w) (late w)) peer request false.
#[local] Instance replicaControl : ReplicaControl := {|
  openAt root scope l := on around (λ w, Binding.open (env w) (box w) (opening (calls l)) scope) l;
  close := on around (λ _, Binding.close);
  serve peer request := on around (served_ peer request);
  claimPrimaryHost container scope device l :=
    let c := claim (calls l) container in
    ((Binding.claimPrimaryHost (drive c) scope device (mirror c) (before c) (reached c) (control c) (written c)).1,
     mkLocal (kept l) (library l) (published l) (S (calls l)))
|}.
(** The contract of the controller's theorems, kept by Replica::close. *)
Lemma replica_closes r : isOpen (close r).2 = false.
Proof. by destruct r. Qed.
End instance.
End ControllerReplica.

Module ControllerDemo.
Import Records Controller ControllerBooks ControllerFacts ControllerEnds ControllerCloses.
(** A replica that is open or not, and counts the requests it has served. *)
#[export] Instance counter : ReplicaOps := {|
  replica := bool * Z; isOpen r := r.1; errorString _ := []; replicaId _ := u "phone"; accountScope _ := u "account";
  binding r := (∅, r); bootstrapping r := (false, r); bindHost _ _ _ _ r := (true, r); completeBootstrap r := (true, r);
  peerState _ r := (∅, r); savePeerState _ _ _ _ _ r := (true, r); scan r := (true, r); namespaceState r := (∅, r);
  acceptJournal _ _ r := (true, r); acceptMetadata _ _ r := (true, r); record _ r := (∅, r); resident _ r := (false, r);
  objectMetadata _ r := (∅, r); requestedPaths r := ([], r); completeRequests r := (tt, r); publishStorageMap r := (true, r);
  missingPhotoIdentities r := ([], r); missingPreviews r := ([], r); savePreview _ _ r := (true, r);
  Synchronizer.handle _ _ r := (∅, r); changes _ _ r := (∅, r)
|}.
#[export] Instance counterControl : ReplicaControl := {|
  openAt _ _ r := (true, (true, r.2)); close r := (tt, (false, r.2));
  serve _ _ r := (obj [("ok", JBool true); ("n", JNum r.2)]%string, (r.1, r.2 + 1)); claimPrimaryHost _ _ _ r := (true, r)
|}.
Definition name (n : nat) : QString := replicate n 97%N.
Definition openAny (p : QString) : QString + QString := inl p.
Definition nothing (_ : QString) : jobj := ∅.
Definition nobody (_ _ : QString) : QString := [].
Definition unnamed (_ : QString) : option QString := None.
Definition unwatched (_ : Z) (_ : QString) : option (list QString) := None.
Notation run := (history name openAny nothing nobody unnamed unwatched None).
Definition token : QString := Demo.uuid.
Definition envelope : jobj := obj [("op", JS "society.sync"); ("protocol", JNum 2); ("namespaceVersion", JNum 1); ("scope", JS "account");
  ("token", JStr token); ("message", JObj (obj [("action", JS "describe")]%string))]%string.
Definition tick (x : Step) : Occurrence := occur 0 0 x.
Definition opened : list Occurrence :=
  map tick [OwnerCalls (Open (u "c") (u "account")); WorkerNext; OwnerNext; OwnerNext; OwnerCalls (SetPeers [u "p"] [] [] []); WorkerNext].
Definition asked : list Occurrence := opened ++ [tick (OwnerCalls (Handle (u "p") envelope))].
Definition told : list Occurrence := asked ++ map tick [WorkerNext; OwnerNext; OwnerCalls (Handle (u "p") envelope)].
Definition fresh : @replica counter := (false, 7).
Notation start := (initial fresh).
Definition key : QString := jobKey (u "p") token.
Example told_once : log (run start told) =
  [Taken key; Executed key (obj [("ok", JBool true); ("n", JNum 7)]%string); Answered key (obj [("ok", JBool true); ("n", JNum 7)]%string)].
Proof. by vm_compute. Qed.
Lemma exactly_once_witness : stage key (log (run start told)) = Some (Told (obj [("ok", JBool true); ("n", JNum 7)]%string))
  ∧ ∃ j, jobs (owner (run start told)) !! key = Some j ∧ finished j = true.
Proof.
  assert (stage key (log (run start told)) = Some (Told (obj [("ok", JBool true); ("n", JNum 7)]%string))) as E by (rewrite told_once; vm_compute; reflexivity).
  split; [exact E|].
  destruct (exactly_once name openAny nothing nobody unnamed unwatched None fresh told key ltac:(done)) as (_ & st & Es & H).
  rewrite E in Es. injection Es as <-. destruct H as (j & Ej & Hf & _). exists j. split; [exact Ej|exact Hf].
Defined.
Lemma requests_answered_witness : ∃ l, let s := run (run start asked) l in ∃ j, jobs (owner s) !! key = Some j ∧ finished j = true.
Proof.
  destruct (requests_answered name openAny nothing nobody unnamed unwatched None fresh asked 120000 ltac:(done))
    as (l & _ & H).
  - by vm_compute.
  - assert (Forall (due 120000) (calls (owner (run start asked)) ++ retries (worker (run start asked)))) as Hd.
    { assert (calls (owner (run start asked)) ++ retries (worker (run start asked)) =
        [HandleJob 1 key (u "p") (obj [("action", JS "describe")]%string) 120000 1]) as -> by by vm_compute. by repeat constructor. }
    by apply Forall_forall.
  - exists l. apply (H key), not_eq_None_Some. by vm_compute.
Defined.
Lemma counter_closes (r : @replica counter) : isOpen (close r).2 = false.
Proof. done. Qed.
Lemma close_and_wait_witness :
  dormant (worker (closeAndWait name openAny nothing nobody unnamed unwatched None [tick (WorkerTurn Timer)] 0 0 (run start opened))).
Proof.
  apply (close_and_wait counter_closes name openAny nothing nobody unnamed unwatched None fresh opened).
  - done.
  - by repeat constructor.
  - constructor; [by left|constructor].
  - by vm_compute.
Defined.
End ControllerDemo.
