(* ===== verification/RemoteFiles.v ===== *)
(** Browsing and downloading from a host, src/Sync/RemoteFiles.cpp: the file service of a
    host on Windows, over its confined files, and the client with the worker that writes
    a download. *)
From S2P Require Import Prelude Qt Records Base64 Files.
From coqutil Require Import Datatypes.RecordSetters.
Import OCamlLikeNotations.
Open Scope Z_scope.

Module RemoteFiles.
Import Base64.
(** ** The service of a host *)
Section service.
Context {FS : FileStore}.
(** iiWebServer::FileShare::ChunkBytes, iiFileProvider::Directory::isAbsolutePath,
    iiFileProvider::Presentation::isControlFile. *)
Variables (ChunkBytes : Z) (isAbsolutePath isControlFile : QString → bool).
Definition fileError (e : string) : jobj := obj [("ok", JBool false); ("error", JS e)]%string.
Definition providerControlPath (path : QString) : bool := existsb isControlFile (qsplit slash path).
Definition sharePart (part : QString) : bool :=
  negb (isEmpty part || bool_decide (part = u ".") || bool_decide (part = u "..") || startsWith part (u ".iiwebserver-")
        || startsWith part (u ".society-") || bool_decide (part = u ".iisacc-temporary.lock")).
Definition sharePath (path : QString) : bool :=
  if (3500 <? qsize path) || negb (isValidUtf16 path) || isAbsolutePath path || containsChar 92 path || containsChar 58 path
     || containsChar 0 path then false else
  if isEmpty path then true else
  if providerControlPath path then false else forallb sharePart (qsplit slash path).
(** A page of at most 256 names, those before the cursor counted but left out. *)
Fixpoint listNames (native : QString) (offset : Z) (names : list QString) (index : Z) (entries : list jval) (w : world)
    : list jval * bool * world :=
  match names with
  | [] => (entries, false, w)
  | name :: rest =>
      if negb (sharePath name) then listNames native offset rest index entries w else
      match fstate (native ++ u "/" ++ name) w with
      | (None, w) => listNames native offset rest index entries w
      | (Some st, w) =>
          if bool_decide (kind st = u "deleted") then listNames native offset rest index entries w else
          if index <? offset then listNames native offset rest (index + 1) entries w else
          if (List.length entries =? 256)%nat then (entries, true, w) else
          listNames native offset rest (index + 1)
            (entries ++ [JObj (obj [("name", JStr name); ("directory", JBool (bool_decide (kind st = u "directory")));
                                    ("size", jnum (fsize st)); ("version", JStr (stamp st))]%string)]) w
      end
  end.
(** A decimal member, zero when it is left out. *)
Definition decimal (r : jobj) (k : string) : option Z := if jcontains r k then toLongLong (toStr r.[k]) else Some 0.
Definition listRequest (native : QString) (request : jobj) (w : world) : jobj * world :=
  match decimal request "cursor" with
  | None => (fileError "invalid_cursor", w)
  | Some offset =>
      if (offset <? 0) || (1000000 <? offset) then (fileError "invalid_cursor", w) else
      match flist native w with
      | (None, w) => (fileError "not_directory", w)
      | (Some names, w) =>
          let '(entries, more, w) := listNames native offset names 0 [] w in
          (obj [("ok", JBool true); ("entries", JArr entries);
                ("nextCursor", JStr (if more then numberStr (offset + Z.of_nat (List.length entries))%Z else []))]%string, w)
      end
  end.
Definition readRequest (op : QString) (native : QString) (state : FileState) (request : jobj) (w : world) : jobj * world :=
  if negb (bool_decide (kind state = u "file")) then (fileError "not_file", w) else
  if jcontains request "version" && negb (bool_decide (toStr request.["version"] = stamp state)) then (fileError "file_changed", w) else
  if bool_decide (op = u "stat") then (obj [("ok", JBool true); ("size", jnum (fsize state)); ("version", JStr (stamp state))]%string, w) else
  match decimal request "offset" with
  | None => (fileError "invalid_offset", w)
  | Some offset =>
      if (offset <? 0) || (fsize state <? offset) then (fileError "invalid_offset", w) else
      let '(bytes, w) := fread native offset ChunkBytes (stamp state) w in
      let bytes := default [] bytes in
      if negb (isEmpty (ferror w)) then (fileError "file_changed_or_unavailable", w) else
      (obj [("ok", JBool true); ("data", JStr (toBase64 bytes)); ("offset", jnum offset); ("size", jnum (fsize state));
            ("version", JStr (stamp state)); ("eof", JBool (offset + Z.of_nat (List.length bytes) =? fsize state)%Z)]%string, w)
  end.
(** A new file appears whole: its bytes are staged and linked without replacement. [name]
    is a fresh identifier, [lease] whether the temporary area is locked. *)
Definition createRequest (op path native : QString) (state : FileState) (request : jobj) (name : QString) (lease : bool) (w : world)
    : jobj * world :=
  if isEmpty path || negb (bool_decide (kind state = u "deleted")) then (fileError "create_failed_or_exists", w) else
  match fstate (qleft (lastIndexOf slash native) native) w with
  | (None, w) => (fileError "not_directory", w)
  | (Some parent, w) =>
      if negb (bool_decide (kind parent = u "directory")) then (fileError "not_directory", w) else
      if bool_decide (op = u "mkdir") then
        let '(ok, w) := fmkdir native w in (if ok then obj [("ok", JBool true)]%string else fileError "create_failed_or_exists", w) else
      let data := request.["data"] in
      if negb (isString data) || ((ChunkBytes + 2) / 3 * 4 <? qsize (toStr data)) then (fileError "invalid_data", w) else
      match fromBase64 (toStr data) with
      | None => (fileError "invalid_data", w)
      | Some decoded =>
          if ChunkBytes <? Z.of_nat (List.length decoded) then (fileError "invalid_data", w) else
          let temporary := u ".society-sync/uploads/" ++ name in
          let '(made, w) := fmkdir (u ".society-sync/uploads") w in
          if negb made then (fileError "write_failed_or_exists", w) else
          if negb lease then (fileError "temporary_area_unavailable", w) else
          let '(staged, w) := fappend temporary 0 decoded w in
          let '(saved, w) := if staged then fpreserve temporary native w else (false, w) in
          let '(removed, w) := fremove temporary w in
          if negb saved || negb removed then (fileError "write_failed_or_exists", w) else
          (obj [("ok", JBool true); ("size", jnum (Z.of_nat (List.length decoded)))]%string, w)
      end
  end.
Definition windowsFiles (request : jobj) (name : QString) (lease : bool) (w : world) : jobj * world :=
  let op := toStr request.["op"] in
  let path := toStr request.["path"] in
  if (jcontains request "path" && negb (isString request.["path"])) || negb (sharePath path) then (fileError "invalid_path", w) else
  let native := u "Files" ++ (if isEmpty path then [] else u "/" ++ path) in
  let w := clearError w in
  if bool_decide (op = u "list") then listRequest native request w else
  match fstate native w with
  | (None, w) => (fileError "invalid_or_unavailable_path", w)
  | (Some state, w) =>
      if bool_decide (op = u "stat") || bool_decide (op = u "read") then readRequest op native state request w
      else if bool_decide (op = u "write") || bool_decide (op = u "mkdir") then createRequest op path native state request name lease w
      else (fileError "unsupported_operation", w)
  end.
(** filesHandler: the drive must be ready, and a new file is recorded in the library of
    the container ([recorded]: the error, if there is one). *)
Definition filesHandler (isReady : bool) (recorded : QString → option QString) (message : jobj) (name : QString) (lease : bool) (w : world)
    : jobj * world :=
  if negb isReady then (fileError "container_unavailable", w) else
  let '(result, w) := windowsFiles message name lease w in
  if toBool result.["ok"] && bool_decide (message.["op"] = JS "write") then
    match recorded (toStr message.["path"]) with
    | None => (result, w)
    | Some error => (obj [("ok", JBool false); ("error", JStr error)]%string, w)
    end
  else (result, w).
End service.

(** ** The client *)
Inductive Operation := Idle | Listing | Opening | Stat | Reading | Saving.
#[global] Instance Operation_eq_dec : EqDecision Operation.
Proof. solve_decision. Defined.
(** What a download asks of its worker, and hears from it. *)
Inductive Call :=
| OpenFile (path : QString)
| Write (result : jobj) (received expected : Z) (version : QString)
| Release.
Inductive Note := Opened (ok : bool) | Stored (received : Z) (destination error : QString).
(** DownloadWorker with the queues of its thread (a task of it is one step: the flag
    [cancelled] is read at its start); a [file] that did not open is none, since nothing
    can be written to either; [file] is the SaveFile with what was
    written to it, [saved] the files it has committed. *)
Record Download := mkDownload {
  cancelled : bool;
  file : option (QString * list N);
  calls : list Call;
  notes : list Note;
  saved : list (QString * list N)
}.
(** How the storage behaves: whether the file opens, takes all the bytes, is committed. *)
Record Storage := mkStorage { opens : bool; writes : bool; commits : bool }.
Section worker.
Variable ChunkBytes : Z.
Definition tell (x : Note) (d : Download) : Download := { d with notes := notes d ++ [x] }.
Definition failWrite (e : string) : Download → Download := tell (Stored 0 [] (u e)).
Definition openFile (st : Storage) (path : QString) (d : Download) : Download :=
  if cancelled d then d else
  tell (Opened (opens st)) { d with file := if opens st then Some (path, []) else None }.
(** What makes a reply the next chunk; the bytes it carries. *)
Definition nextBytes (result : jobj) (received expected : Z) (version : QString) : option (list N) :=
  match fromBase64 (toStr result.["data"]), toLongLong (toStr result.["offset"]), toLongLong (toStr result.["size"]) with
  | Some decoded, Some offset, Some size =>
      let length := Z.of_nat (List.length decoded) in
      if negb (offset =? received) || negb (size =? expected) || negb (bool_decide (toStr result.["version"] = version))
         || (ChunkBytes <? length) || (expected - received <? length) || (isEmpty decoded && negb (received =? expected))
      then None else Some decoded
  | _, _, _ => None
  end.
Definition write (st : Storage) (result : jobj) (received expected : Z) (version : QString) (d : Download) : Download :=
  if cancelled d then d else
  match nextBytes result received expected version, file d with
  | Some decoded, Some (path, written) =>
      if negb (writes st) then failWrite "The file changed or the transfer is incomplete." d else
      let d := { d with file := Some (path, written ++ decoded) } in
      let received := received + Z.of_nat (List.length decoded) in
      if toBool result.["eof"] then
        if negb (received =? expected) then failWrite "The transfer ended before the file was complete." d else
        if negb (commits st) then failWrite "The downloaded file could not be saved." d else
        tell (Stored received path []) { d with file := None; saved := saved d ++ [(path, written ++ decoded)] }
      else if received =? expected then failWrite "The host returned an invalid end-of-file marker." d
      else tell (Stored received [] []) d
  | _, _ => failWrite "The file changed or the transfer is incomplete." d
  end.
Definition perform (st : Storage) (c : Call) (d : Download) : Download :=
  match c with
  | OpenFile path => openFile st path d
  | Write result received expected version => write st result received expected version d
  | Release => { d with file := None }
  end.
End worker.
Definition fresh : Download := mkDownload false None [] [] [].

Inductive Signal := StateChanged | EntriesChanged | DownloadFinished (path : QString) | Sent (peer : QString) (payload : jobj).
(** RemoteFiles. [downloads] are all that were made, [download] is m_download. *)
Record Client := mkClient {
  status : QString;
  host : QString;
  path : QString;
  cursor : QString;
  transport : QString;
  entries : list jval;
  requested : QString;
  operation : Operation;
  downloadPath : QString;
  version : QString;
  received : Z;
  expected : Z;
  download : option nat;
  downloads : list Download;
  sends : nat;
  out : list Signal
}.
Definition start : Client := mkClient [] [] [] [] [] [] [] Idle [] [] 0 0 None [] 0 [].
Section client.
Variables (ChunkBytes : Z) (isAbsolutePath : QString → bool).
(** The sender: the identifier of the n-th request, empty when it is refused. *)
Variable sender : option (nat → QString → jobj → QString).
Definition emit (x : Signal) (c : Client) : Client := { c with out := out c ++ [x] }.
Definition busy (c : Client) : bool := bool_decide (is_Some (download c)) || negb (isEmpty (requested c)).
Definition request (peer : QString) (payload : jobj) (c : Client) : QString * Client :=
  match sender with
  | None => ([], c)
  | Some send => (send (sends c) peer payload, emit (Sent peer payload) { c with sends := S (sends c) })
  end.
Definition onDownload (i : nat) (f : Download → Download) (c : Client) : Client := { c with downloads := alter f i (downloads c) }.
Definition queueCall (x : Call) : Download → Download := λ d, { d with calls := calls d ++ [x] }.
(** m_download.reset(): the destructor cancels and releases. *)
Definition dropDownload (c : Client) : Client :=
  match download c with
  | None => c
  | Some i => { (onDownload i (λ d, queueCall Release { d with cancelled := true }) c) with download := None }
  end.
Definition fail (message : QString) (c : Client) : Client :=
  emit StateChanged (dropDownload { c with status := message; requested := [] }).
Definition reset (c : Client) : Client :=
  let c := dropDownload c in
  emit StateChanged (emit EntriesChanged
    { c with requested := []; operation := Idle; entries := []; host := []; path := []; cursor := []; transport := []; status := [] }).
Definition browse (h p after : QString) (c : Client) : Client :=
  if busy c then c else
  let c := { c with host := h; path := p; cursor := []; operation := Listing;
                    entries := if isEmpty after then [] else entries c } in
  let payload := obj ([("op", JS "list"); ("path", JStr p)]%string ++ (if isEmpty after then [] else [("cursor", JStr after)]%string)) in
  let '(id, c) := request h payload c in
  emit StateChanged (emit EntriesChanged { c with requested := id }).
(** [destination] is the local path of a URL that has one. *)
Definition startDownload (p : QString) (destination : option QString) (c : Client) : Client :=
  if busy c || isEmpty (host c) then c else
  match destination with
  | Some d =>
      if negb (isAbsolutePath d) then fail (u "Choose a local destination file.") c else
      emit StateChanged { c with downloadPath := p; received := 0; operation := Opening; download := Some (List.length (downloads c));
                                 downloads := downloads c ++ [queueCall (OpenFile d) fresh] }
  | None => fail (u "Choose a local destination file.") c
  end.
Definition nextChunk (c : Client) : Client :=
  let c := { c with operation := Reading } in
  let '(id, c) := request (host c) (obj [("op", JS "read"); ("path", JStr (downloadPath c)); ("offset", jnum (received c));
                                        ("version", JStr (version c))]%string) c in
  let c := { c with requested := id } in
  if isEmpty id then fail (u "The file request failed.") c else emit StateChanged c.
Definition opened (ok : bool) (c : Client) : Client :=
  if negb ok then fail (u "The destination cannot be opened.") c else
  let c := { c with operation := Stat } in
  let '(id, c) := request (host c) (obj [("op", JS "stat"); ("path", JStr (downloadPath c))]%string) c in
  let c := { c with requested := id } in
  if isEmpty id then fail (u "The file request failed.") c else emit StateChanged c.
Definition stored (n : Z) (destination error : QString) (c : Client) : Client :=
  if negb (isEmpty error) then fail error c else
  let c := { c with received := n } in
  if negb (isEmpty destination)
  then emit (DownloadFinished destination) (emit StateChanged { (dropDownload c) with status := u "Download complete." })
  else nextChunk c.
Definition receive (id : QString) (result : jobj) (via : QString) (c : Client) : Client :=
  if isEmpty (requested c) || negb (bool_decide (id = requested c)) then c else
  let c := { c with requested := []; transport := via } in
  if negb (toBool result.["ok"]) then fail (toStrOr (u "The file request failed.") result.["error"]) c else
  if bool_decide (operation c = Listing) then
    emit StateChanged (emit EntriesChanged { c with entries := entries c ++ toArr result.["entries"]; cursor := toStr result.["nextCursor"];
                                                    status := u "Files on your device." }) else
  match download c with
  | None => fail (u "The download was cancelled.") c
  | Some i =>
      if bool_decide (operation c = Stat) then
        let c := { c with expected := toLongLong0 (toStr result.["size"]); version := toStr result.["version"] } in
        if bool_decide (toLongLong (toStr result.["size"]) = None) || (expected c <? 0) || isEmpty (version c)
        then fail (u "The host returned invalid file metadata.") c else nextChunk c
      else onDownload i (queueCall (Write result (received c) (expected c) (version c))) { c with operation := Saving }
  end.
(** What happens to a client: calls, replies, and what the threads of its downloads do;
    signals of a cancelled download are not heard. *)
Inductive Event :=
| Browse (h p after : QString) | StartDownload (p : QString) (destination : option QString) | Reset
| Reply (id : QString) (result : jobj) (via : QString)
| WorkerNext (i : nat) (st : Storage)
| NoteNext (i : nat).
Definition workerNext (st : Storage) (d : Download) : Download :=
  match calls d with [] => d | x :: rest => perform ChunkBytes st x { d with calls := rest } end.
Definition step (c : Client) (e : Event) : Client :=
  match e with
  | Browse h p after => browse h p after c
  | StartDownload p destination => startDownload p destination c
  | Reset => reset c
  | Reply id result via => receive id result via c
  | WorkerNext i st => onDownload i (workerNext st) c
  | NoteNext i =>
      match downloads c !! i with
      | Some d =>
          match notes d with
          | [] => c
          | x :: rest =>
              let c := onDownload i (λ d, { d with notes := rest }) c in
              if cancelled d then c else
              match x with Opened ok => opened ok c | Stored n destination error => stored n destination error c end
          end
      | None => c
      end
  end.
Definition history (c : Client) (l : list Event) : Client := foldl step c l.
End client.
End RemoteFiles.
