(* ===== verification/RemoteFilesFacts.v ===== *)
(** A download, client and host together: the file arrives whole. *)
From S2P Require Import Prelude Qt Records Base64 Files RemoteFiles.
From coqutil Require Import Datatypes.RecordSetters.
Import OCamlLikeNotations.
Open Scope Z_scope.

Module RemoteFilesFacts.
Import Base64 RemoteFiles.

Lemma jcontains_value (o : jobj) k v : o.[k] = v → v ≠ JUndef → jcontains o k = true.
Proof. unfold jcontains, jvalue. destruct (o !! u k); [by intros|intros <-; done]. Qed.

(** ** A file that rests
    The host's file [native] has the bytes [b] and the version [v] in every world of [W],
    which the operations of the service do not leave. *)
Class Rests {FS : FileStore} (ChunkBytes : Z) (W : world → Prop) (native v : QString) (b : list N) : Prop := {
  rest_clear w : W w → W (clearError w);
  rest_state w : W w → (fstate native w).1 = Some (mkState (u "file") v (Z.of_nat (List.length b))) ∧ W (fstate native w).2;
  rest_read w n : W w → 0 ≤ n ≤ Z.of_nat (List.length b) →
    (fread native n ChunkBytes v w).1 = Some (take (Z.to_nat ChunkBytes) (drop (Z.to_nat n) b))
    ∧ W (fread native n ChunkBytes v w).2 ∧ ferror (fread native n ChunkBytes v w).2 = []
}.
Section download.
Context {FS : FileStore} (ChunkBytes : Z) (isAbsolutePath isControlFile : QString → bool).
Context (send : nat → QString → jobj → QString) (W : world → Prop) (p v dest : QString) (b : list N).
Hypothesis chunk_positive : 0 < ChunkBytes.
Hypothesis bytes_small : Forall (λ c, (c < 256)%N) b.
Hypothesis size_fits : Z.of_nat (List.length b) ≤ int64_max.
Hypothesis version_known : v ≠ [].
Hypothesis path_shared : p ≠ [] ∧ sharePath isAbsolutePath isControlFile p = true.
Hypothesis sent : ∀ n h r, send n h r ≠ [].
Hypothesis destination : dest ≠ [] ∧ isAbsolutePath dest = true.
Context {file_rests : Rests ChunkBytes W (u "Files" ++ u "/" ++ p) v b}.
Notation size := (Z.of_nat (List.length b)).
Notation receive := (receive (Some send)).
Notation step := (step ChunkBytes isAbsolutePath (Some send)).
Notation serve := (windowsFiles ChunkBytes isAbsolutePath isControlFile).

Definition works : Storage := mkStorage true true true.
(** The two talk: the threads of the client go on, on a storage that works, and the host
    answers the request that was sent last. *)
Inductive talks : Client * world → Client * world → Prop :=
| T_worker c w i : talks (c, w) (step c (WorkerNext i works), w)
| T_note c w i : talks (c, w) (step c (NoteNext i), w)
| T_reply c w before peer_ payload after name lease result w' via :
    out c = before ++ Sent peer_ payload :: after → Forall (λ x, match x with Sent _ _ => False | _ => True end) after →
    serve payload name lease w = (result, w') → talks (c, w) (receive (requested c) result via c, w').

Definition statPayload : jobj := obj [("op", JS "stat"); ("path", JStr p)]%string.
Definition readPayload (n : Z) : jobj := obj [("op", JS "read"); ("path", JStr p); ("offset", jnum n); ("version", JStr v)]%string.
Definition chunkAt (n : Z) : list N := take (Z.to_nat ChunkBytes) (drop (Z.to_nat n) b).
Definition readReply (n : Z) : jobj :=
  obj [("ok", JBool true); ("data", JStr (toBase64 (chunkAt n))); ("offset", jnum n); ("size", jnum size); ("version", JStr v);
       ("eof", JBool (n + Z.of_nat (List.length (chunkAt n)) =? size)%Z)]%string.
Lemma serve_path payload : payload.["path"] = JStr p →
  (jcontains payload "path" && negb (isString payload.["path"])) || negb (sharePath isAbsolutePath isControlFile (toStr payload.["path"])) = false.
Proof. intros ->. cbn. destruct path_shared as [_ ->]. by rewrite andb_false_r. Qed.
Lemma native_path : u "Files" ++ (if isEmpty p then [] else u "/" ++ p) = u "Files" ++ u "/" ++ p.
Proof. destruct path_shared as [H _]. by destruct p. Qed.
Lemma serve_stat w name lease : W w → ∃ w', W w' ∧
  serve statPayload name lease w = (obj [("ok", JBool true); ("size", jnum size); ("version", JStr v)]%string, w').
Proof.
  intros Hw. destruct (rest_state (clearError w) (rest_clear w Hw)) as [E Hw'].
  exists (fstate (u "Files" ++ u "/" ++ p) (clearError w)).2. split; [done|]. unfold windowsFiles.
  rewrite serve_path by (unfold statPayload; by jsimp). unfold statPayload. jsimp. cbn [toStr]. rewrite native_path. cbv zeta.
  rewrite bool_decide_false by by_compute. destruct (fstate _ (clearError w)) as [st w']. cbn [fst snd] in E. subst st.
  rewrite bool_decide_true by done. cbn [orb]. unfold readRequest. cbn [kind stamp fsize].
  rewrite bool_decide_true by done. cbn [negb]. unfold jcontains. rewrite obj_absent by done.
  rewrite bool_decide_false by (by intros []). cbn [andb]. done.
Qed.
Lemma serve_read w name lease n : W w → 0 ≤ n ≤ size → ∃ w', W w' ∧ serve (readPayload n) name lease w = (readReply n, w').
Proof.
  intros Hw Hn. destruct (rest_state (clearError w) (rest_clear w Hw)) as [E Hw'].
  set (w1 := (fstate (u "Files" ++ u "/" ++ p) (clearError w)).2) in *. destruct (rest_read w1 n Hw' Hn) as (E2 & H2 & E3).
  exists (fread (u "Files" ++ u "/" ++ p) n ChunkBytes v w1).2. split; [done|]. unfold windowsFiles.
  rewrite serve_path by (unfold readPayload; by jsimp). unfold readPayload. jsimp. cbn [toStr]. rewrite native_path. cbv zeta.
  rewrite bool_decide_false by by_compute. assert (fstate (u "Files" ++ u "/" ++ p) (clearError w) = (Some (mkState (u "file") v size), w1)) as ->.
  { unfold w1. destruct (fstate _ _) as [st w']. cbn in E. by subst. }
  rewrite bool_decide_false by by_compute. rewrite bool_decide_true by done. cbn [orb]. unfold readRequest. cbn [kind stamp fsize].
  rewrite bool_decide_true by done. cbn [negb].
  rewrite (jcontains_value _ "version" (JStr v)) by (by jsimp). jsimp. cbn [toStr]. rewrite bool_decide_true by done. cbn [negb andb].
  rewrite bool_decide_false by by_compute. unfold decimal. rewrite (jcontains_value _ "offset" (jnum n)) by (by jsimp). jsimp. cbn [toStr jnum].
  rewrite toLongLong_numberStr by (unfold int64_min in *; lia).
  destruct (Z.ltb_spec n 0); [lia|]. destruct (Z.ltb_spec size n); [lia|]. cbn [orb].
  destruct (fread _ n ChunkBytes v w1) as [bytes w2]. cbn [fst snd] in *. subst bytes. rewrite E3. done.
Qed.

(** *** The client's side *)
(** The download [i] is the present one, and its worker is [d]. *)
Record stage (c : Client) (i : nat) (d : Download) : Prop := {
  sg_download : download c = Some i;
  sg_worker : downloads c !! i = Some d;
  sg_path : downloadPath c = p
}.
Definition frame (c : Client) : QString * Operation * QString * Z * Z * list Signal :=
  (requested c, operation c, version c, received c, expected c, out c).
Lemma stage_onDownload c i d f : stage c i d → stage (onDownload i f c) i (f d) ∧ frame (onDownload i f c) = frame c.
Proof.
  intros [H1 H2 H3]. split; [|done]. split; [done| |done]. change (alter f i (downloads c) !! i = Some (f d)).
  by rewrite list_lookup_alter_eq, H2.
Qed.
Lemma stage_worker c i d : stage c i d →
  stage (step c (WorkerNext i works)) i (workerNext ChunkBytes works d) ∧ frame (step c (WorkerNext i works)) = frame c.
Proof. apply stage_onDownload. Qed.
Lemma stage_note c i d x rest : stage c i d → notes d = x :: rest → cancelled d = false →
  ∃ c1, stage c1 i { d with notes := rest } ∧ frame c1 = frame c ∧
    step c (NoteNext i) = match x with Opened ok => opened (Some send) ok c1 | Stored n dst e => stored (Some send) n dst e c1 end.
Proof.
  intros Hs Hn Hc. destruct (stage_onDownload c i d (λ d, { d with notes := rest }) Hs) as [H1 H2].
  eexists. split_and!; [exact H1|exact H2|]. cbn [RemoteFiles.step]. by rewrite (sg_worker _ _ _ Hs), Hn, Hc.
Qed.
(** A request has been sent last. *)
Definition asks (c : Client) (o : Operation) (payload : jobj) : Prop :=
  operation c = o ∧ requested c ≠ [] ∧ ∃ before h, out c = before ++ [Sent h payload; StateChanged].
Lemma ask_step h payload o c : let '(id, c') := request (Some send) h payload { c with operation := o } in
  let c' := emit StateChanged { c' with requested := id } in
  (isEmpty id = false) ∧ asks c' o payload ∧ (∀ i d, stage c i d → stage c' i d)
  ∧ version c' = version c ∧ received c' = received c ∧ expected c' = expected c.
Proof.
  destruct c as [st h0 pa cu tr en rq op dp ve re ex dl dls k l]. cbn. pose proof (sent k h payload) as H. split_and!; try done.
  - by destruct (send _ _ _).
  - split_and!; [done..|]. exists l, h. cbn. by rewrite <- app_assoc.
  - intros i d [? ? ?]. by split.
Qed.
Lemma nextChunk_asks c i d : stage c i d → version c = v →
  let c' := nextChunk (Some send) c in
  stage c' i d ∧ asks c' Reading (readPayload (received c)) ∧ version c' = v ∧ received c' = received c ∧ expected c' = expected c.
Proof.
  intros Hs Hv. cbv zeta. unfold nextChunk. change (host { c with operation := Reading }) with (host c).
  change (downloadPath { c with operation := Reading }) with (downloadPath c). change (received { c with operation := Reading }) with (received c).
  change (version { c with operation := Reading }) with (version c). rewrite (sg_path _ _ _ Hs), Hv. fold (readPayload (received c)).
  pose proof (ask_step (host c) (readPayload (received c)) Reading c) as H.
  destruct (request _ _ _ _) as [id c']. destruct H as (-> & H1 & H2 & H3 & H4 & H5). split_and!; try done; [auto|congruence].
Qed.
Lemma opened_asks c i d : stage c i d → let c' := opened (Some send) true c in
  stage c' i d ∧ asks c' Stat statPayload ∧ received c' = received c.
Proof.
  intros Hs. cbv zeta. unfold opened. cbn [negb]. change (host { c with operation := Stat }) with (host c).
  change (downloadPath { c with operation := Stat }) with (downloadPath c). rewrite (sg_path _ _ _ Hs). fold statPayload.
  pose proof (ask_step (host c) statPayload Stat c) as H.
  destruct (request _ _ _ _) as [id c']. destruct H as (-> & H1 & H2 & H3 & H4 & H5). split_and!; auto.
Qed.
Lemma talk_reply c w o payload result w' name lease : asks c o payload → serve payload name lease w = (result, w') →
  talks (c, w) (receive (requested c) result [] c, w').
Proof.
  intros (_ & _ & before & h & E) Hs. eapply T_reply; [rewrite E; reflexivity| |exact Hs]. by repeat constructor.
Qed.
(** The bytes of a chunk are the next of the file. *)
Lemma chunk_length n : 0 ≤ n ≤ size → Z.of_nat (List.length (chunkAt n)) = Z.min ChunkBytes (size - n).
Proof. intros Hn. unfold chunkAt. rewrite length_take, length_drop. lia. Qed.
Lemma chunk_next n : 0 ≤ n ≤ size →
  take (Z.to_nat n) b ++ chunkAt n = take (Z.to_nat (n + Z.of_nat (List.length (chunkAt n)))) b.
Proof.
  intros Hn. pose proof (chunk_length n Hn) as Hl. rewrite Hl. unfold chunkAt.
  transitivity (take (Z.to_nat n) b ++ take (Z.to_nat (Z.min ChunkBytes (size - n))) (drop (Z.to_nat n) b)).
  - f_equal. destruct (Z.min_spec ChunkBytes (size - n)) as [[_ ->]|[H ->]]; [done|].
    rewrite !take_ge; [done|rewrite length_drop; lia..].
  - rewrite Z2Nat.inj_add by lia. rewrite <- (take_drop (Z.to_nat n) (take (Z.to_nat n + _) b)).
    rewrite take_take, Nat.min_l by lia. by rewrite <- skipn_firstn_comm, Nat.add_comm, Nat.add_sub || (f_equal; rewrite skipn_firstn_comm; f_equal; lia).
Qed.
Lemma chunk_accepted n : 0 ≤ n ≤ size → nextBytes ChunkBytes (readReply n) n size v = Some (chunkAt n).
Proof.
  intros Hn. pose proof (chunk_length n Hn) as Hl. unfold nextBytes, readReply. jsimp. cbn [toStr jnum].
  rewrite fromBase64_toBase64 by (unfold chunkAt; by apply Forall_take, Forall_drop).
  rewrite !toLongLong_numberStr by (unfold int64_min in *; lia). cbv zeta. rewrite !Z.eqb_refl, bool_decide_true by done. cbn [negb orb].
  destruct (Z.ltb_spec ChunkBytes (Z.of_nat (List.length (chunkAt n)))); [lia|].
  destruct (Z.ltb_spec (size - n) (Z.of_nat (List.length (chunkAt n)))); [lia|]. cbn [orb].
  destruct (isEmpty (chunkAt n)) eqn:Ee; [|done]. cbn [andb]. destruct (Z.eqb_spec n size); [done|]. exfalso.
  destruct (chunkAt n); [cbn in Hl; lia|done].
Qed.
(** *** Stage by stage *)
Definition holding (n : Z) : Download := mkDownload false (Some (dest, take (Z.to_nat n) b)) [] [] [].
Record reading (c : Client) (i : nat) (n : Z) : Prop := {
  rd_stage : stage c i (holding n);
  rd_asks : asks c Reading (readPayload n);
  rd_version : version c = v;
  rd_received : received c = n;
  rd_expected : expected c = size;
  rd_range : 0 ≤ n ≤ size
}.
Definition finished (c : Client) (i : nat) : Prop :=
  last (out c) = Some (DownloadFinished dest) ∧ download c = None ∧ (saved <$> downloads c !! i) = Some [(dest, b)].
Lemma receive_chunk c i d r o payload : stage c i d → asks c o payload → o = Reading → toBool r.["ok"] = true →
  let c' := receive (requested c) r [] c in
  stage c' i (queueCall (Write r (received c) (expected c) (version c)) d).
Proof.
  intros Hs (Ho & Hr & _) -> Hk. cbv zeta. unfold RemoteFiles.receive.
  destruct (isEmpty (requested c)) eqn:E; [by destruct (requested c)|]. rewrite bool_decide_true by done. cbn [negb orb]. cbv zeta. rewrite Hk. cbn [negb].
  change (operation { c with requested := []; transport := [] }) with (operation c). rewrite Ho.
  change (download { c with requested := []; transport := [] }) with (download c). rewrite (sg_download _ _ _ Hs).
  rewrite !bool_decide_false by done. apply stage_onDownload. destruct Hs. by split.
Qed.
Lemma write_chunk n : 0 ≤ n ≤ size →
  workerNext ChunkBytes works (queueCall (Write (readReply n) n size v) (holding n)) =
    let m := n + Z.of_nat (List.length (chunkAt n)) in
    if m =? size then mkDownload false None [] [Stored size dest []] [(dest, b)]
    else tell (Stored m [] []) (holding m).
Proof.
  intros Hn. cbv zeta. transitivity (write ChunkBytes works (readReply n) n size v (holding n)); [done|].
  unfold write. cbn [cancelled holding file]. rewrite chunk_accepted by done. cbn [works writes commits negb]. cbv zeta. unfold readReply at 1. jsimp. cbn [toBool].
  pose proof (chunk_next n Hn) as E. set (m := n + _) in *. destruct (Z.eqb_spec m size) as [Em|Em]; cbn [negb].
  - rewrite E, Em, Nat2Z.id, firstn_all. done.
  - rewrite E. done.
Qed.
Lemma reading_round c w i n : reading c i n → W w → ∃ c' w', rtc talks (c, w) (c', w') ∧ W w' ∧
  (finished c' i ∨ ∃ m, n < m ∧ reading c' i m).
Proof.
  intros [Hs Ha Hv Hr He Hn] Hw. destruct (serve_read w [] true n Hw Hn) as (w1 & Hw1 & Eserve).
  pose proof (talk_reply _ _ _ _ _ _ _ _ Ha Eserve) as T1.
  assert (toBool (readReply n).["ok"] = true) as Hk by (unfold readReply; by jsimp).
  pose proof (receive_chunk _ _ _ (readReply n) _ _ Hs Ha eq_refl Hk) as S1. cbv zeta in S1. rewrite Hv, Hr, He in S1.
  assert (version (receive (requested c) (readReply n) [] c) = v ∧ expected (receive (requested c) (readReply n) [] c) = size) as [V1 X1].
  { destruct Ha as (Ho & Hq & _). unfold RemoteFiles.receive. destruct (isEmpty (requested c)) eqn:E; [by destruct (requested c)|].
    rewrite bool_decide_true by done. cbn [negb orb]. cbv zeta. rewrite Hk. cbn [negb].
    change (operation { c with requested := []; transport := [] }) with (operation c). rewrite Ho.
    change (download { c with requested := []; transport := [] }) with (download c). rewrite (sg_download _ _ _ Hs).
    by rewrite !bool_decide_false by done. }
  set (c1 := receive (requested c) (readReply n) [] c) in *. clearbody c1.
  destruct (stage_worker _ _ _ S1) as [S2 F2]. rewrite write_chunk in S2 by done. pose proof (T_worker c1 w1 i) as T2.
  set (c2 := step c1 (WorkerNext i works)) in *. clearbody c2. unfold frame in F2. injection F2 as _ _ V2 _ X2 _.
  pose proof (chunk_length n Hn) as Hl. cbv zeta in S2. set (m := n + Z.of_nat (List.length (chunkAt n))) in *.
  destruct (Z.eqb_spec m size) as [Em|Em].
  - destruct (stage_note _ _ _ _ _ S2 eq_refl eq_refl) as (c3 & S3 & F3 & E3). exists (step c2 (NoteNext i)), w1.
    split_and!; [by eapply rtc_l; [exact T1|]; eapply rtc_l; [exact T2|]; apply rtc_once, T_note|done|]. left. rewrite E3.
    unfold stored. cbn [isEmpty negb]. destruct destination as [Hd _]. replace (isEmpty dest) with false by (by destruct dest). cbn [negb].
    destruct S3 as [D1 D2 D3]. unfold finished. split_and!.
    + cbn. by rewrite last_snoc.
    + change (download (dropDownload { c3 with received := size }) = None). unfold dropDownload.
      change (download { c3 with received := size }) with (download c3). by rewrite D1.
    + change (saved <$> downloads (dropDownload { c3 with received := size }) !! i = Some [(dest, b)]). unfold dropDownload.
      change (download { c3 with received := size }) with (download c3). rewrite D1.
      change (saved <$> alter (λ d, queueCall Release { d with cancelled := true }) i (downloads c3) !! i = Some [(dest, b)]).
      by rewrite list_lookup_alter_eq, D2.
  - destruct (stage_note c2 i _ (Stored m [] []) [] S2 eq_refl eq_refl) as (c3 & S3 & F3 & E3). exists (step c2 (NoteNext i)), w1.
    split_and!; [by eapply rtc_l; [exact T1|]; eapply rtc_l; [exact T2|]; apply rtc_once, T_note|done|]. right. exists m. split; [lia|]. rewrite E3.
    unfold stored. cbn [isEmpty negb]. unfold frame in F3. injection F3 as _ _ V3 _ X3 _.
    assert (stage { c3 with received := m } i (holding m)) as S4 by (destruct S3; by split).
    destruct (nextChunk_asks _ _ _ S4) as (N1 & N2 & N3 & N4 & N5); [change (version c3 = v); congruence|].
    split; [exact N1|exact N2|exact N3|exact N4| |unfold m; lia]. etransitivity; [exact N5|].
    change (expected c3 = size). congruence.
Qed.
Lemma reading_ends c w i n : reading c i n → W w → ∃ c' w', rtc talks (c, w) (c', w') ∧ W w' ∧ finished c' i.
Proof.
  remember (Z.to_nat (size - n)) as k eqn:Ek. revert c w n Ek. induction k as [k IH] using lt_wf_ind. intros c w n Ek Hr Hw.
  destruct (reading_round c w i n Hr Hw) as (c1 & w1 & T & Hw1 & [Hf|(m & Hm & Hr1)]); [by exists c1, w1|].
  destruct (IH (Z.to_nat (size - m))) with c1 w1 m as (c2 & w2 & T2 & Hw2 & Hf); [|done..|].
  - pose proof (rd_range _ _ _ Hr1). lia.
  - exists c2, w2. split_and!; [by etransitivity|done..].
Qed.
Definition statReply : jobj := obj [("ok", JBool true); ("size", jnum size); ("version", JStr v)]%string.
Lemma receive_stat c i d : stage c i d → asks c Stat statPayload →
  let c' := receive (requested c) statReply [] c in
  stage c' i d ∧ asks c' Reading (readPayload (received c)) ∧ version c' = v ∧ received c' = received c ∧ expected c' = size.
Proof.
  intros Hs (Ho & Hr & _). cbv zeta. unfold RemoteFiles.receive.
  destruct (isEmpty (requested c)) eqn:E; [by destruct (requested c)|]. rewrite bool_decide_true by done. cbn [negb orb]. cbv zeta.
  assert (statReply.["ok"] = JBool true ∧ statReply.["size"] = jnum size ∧ statReply.["version"] = JStr v) as (-> & -> & ->)
    by (unfold statReply; by jsimp).
  change (negb (toBool (JBool true))) with false. cbv iota.
  change (operation { c with requested := []; transport := [] }) with (operation c). rewrite Ho.
  change (download { c with requested := []; transport := [] }) with (download c). rewrite (sg_download _ _ _ Hs).
  rewrite bool_decide_false, bool_decide_true by done. change (toStr (jnum size)) with (numberStr size). change (toStr (JStr v)) with v.
  unfold toLongLong0. rewrite toLongLong_numberStr by (unfold int64_min in *; lia). change (default 0 (Some size)) with size.
  match goal with |- context [nextChunk _ ?x] => change (expected x) with size; change (version x) with v; set (c5 := x) end.
  rewrite bool_decide_false by done. destruct (Z.ltb_spec size 0); [lia|]. replace (isEmpty v) with false by (by destruct v). cbn [orb].
  assert (stage c5 i d) as S5 by (destruct Hs; by split). exact (nextChunk_asks c5 i d S5 eq_refl).
Qed.
Lemma started_reads c w : busy c = false → host c ≠ [] → W w → ∃ c' w',
  rtc talks (startDownload isAbsolutePath p (Some dest) c, w) (c', w') ∧ W w' ∧ reading c' (List.length (downloads c)) 0.
Proof.
  intros Hb Hh Hw. unfold startDownload. rewrite Hb. replace (isEmpty (host c)) with false by (by destruct (host c)).
  destruct destination as [Hd ->]. cbn [orb negb].
  match goal with |- context [(emit StateChanged ?x, w)] => set (c0 := emit StateChanged x) end. set (i := List.length (downloads c)).
  assert (stage c0 i (queueCall (OpenFile dest) fresh)) as S0.
  { split; [done| |done]. change ((downloads c ++ [queueCall (OpenFile dest) fresh]) !! i = Some (queueCall (OpenFile dest) fresh)).
    rewrite lookup_app_r by done. unfold i. by rewrite Nat.sub_diag. }
  assert (received c0 = 0) as R0 by done. clearbody c0 i.
  destruct (stage_worker _ _ _ S0) as [S1 F1]. change (workerNext _ _ _) with (mkDownload false (Some (dest, [])) [] [Opened true] []) in S1.
  pose proof (T_worker c0 w i) as T1. set (c1 := step c0 (WorkerNext i works)) in *. clearbody c1.
  destruct (stage_note _ _ _ (Opened true) [] S1 eq_refl eq_refl) as (c2 & S2 & F2 & E2). pose proof (T_note c1 w i) as T2. rewrite E2 in T2.
  destruct (opened_asks _ _ _ S2) as (S3 & A3 & R3). set (c3 := opened (Some send) true c2) in *. clearbody c3.
  destruct (serve_stat w [] true Hw) as (w1 & Hw1 & Eserve). pose proof (talk_reply _ _ _ _ _ _ _ _ A3 Eserve) as T3.
  exists (receive (requested c3) statReply [] c3), w1.
  split_and!; [by eapply rtc_l; [exact T1|]; eapply rtc_l; [exact T2|]; apply rtc_once, T3|done|].
  destruct (receive_stat c3 i (holding 0) S3 A3) as (S5 & A5 & V5 & R5 & X5).
  assert (received c3 = 0) as R6.
  { rewrite R3. unfold frame in F1, F2. injection F1 as _ _ _ E1 _ _. injection F2 as _ _ _ E3 _ _. congruence. }
  rewrite R6 in A5, R5. split; [exact S5|exact A5|exact V5|exact R5|exact X5|lia].
Qed.
(** C10: A download arrives whole.  When a client that is not busy downloads a file of a
    host whose file rests meanwhile, the exchange of the two, with the client's threads
    on a storage that works, can always go on until it ends: the host's service answers
    the request for the size and version and then each request for a chunk, and the file
    that is saved at the destination has exactly the bytes of the host's, whatever their
    number; the application is told, and the client is free again. *)
Theorem download_delivers c w : busy c = false → host c ≠ [] → W w →
  ∃ c' w', rtc talks (startDownload isAbsolutePath p (Some dest) c, w) (c', w') ∧
    last (out c') = Some (DownloadFinished dest) ∧ download c' = None
    ∧ (saved <$> downloads c' !! List.length (downloads c)) = Some [(dest, b)].
Proof.
  intros Hb Hh Hw. destruct (started_reads c w Hb Hh Hw) as (c1 & w1 & T1 & Hw1 & Hr).
  destruct (reading_ends c1 w1 _ 0 Hr Hw1) as (c2 & w2 & T2 & _ & Hf). exists c2, w2. split; [by etransitivity|exact Hf].
Qed.
End download.

(** ** A host with one file *)
Module Examples.
Definition content : list N := u "seven bytes".
#[export] Instance oneFile : FileStore := {|
  world := unit; ferror _ := []; clearError w := w; intact w := (true, w);
  fstate p w := (Some (if bool_decide (p = u "Files/a") then mkState (u "file") (u "v1") 11 else absent), w);
  flist _ w := (None, w);
  fread p n k _ w := (Some (take (Z.to_nat k) (drop (Z.to_nat n) content)), w);
  fhash _ _ w := ([], w); fmkdir _ w := (false, w); fappend _ _ _ w := (false, w); finstall _ _ w := (false, w);
  fpreserve _ _ w := (false, w); fdetach _ _ w := (false, w); fremove _ w := (false, w); fexactPath _ w := (true, w)
|}.
#[export] Instance oneFile_rests : Rests (FS := oneFile) 4 (λ _ : unit, True) (u "Files" ++ u "/" ++ u "a") (u "v1") content.
Proof. split; [done| |done]. intros [] _. split; [|done]. by vm_compute. Qed.
Definition sender (n : nat) (_ : QString) (_ : jobj) : QString := replicate (S n) 97%N.
Definition absolute (path : QString) : bool := startsWith path (u "/").
Definition browsing : Client := history 4 absolute (Some sender) start [Browse (u "h") [] []; Reply (u "a") (obj [("ok", JBool true)]%string) []].
Lemma download_delivers_witness : ∃ c' : Client,
  last (out c') = Some (DownloadFinished (u "/tmp/a")) ∧ (saved <$> downloads c' !! 0%nat) = Some [(u "/tmp/a", content)].
Proof.
  assert (∃ c' w', rtc (talks 4 absolute (λ _, false) sender) (startDownload absolute (u "a") (Some (u "/tmp/a")) browsing, tt : @world oneFile) (c', w') ∧
    last (out c') = Some (DownloadFinished (u "/tmp/a")) ∧ download c' = None
    ∧ (saved <$> downloads c' !! List.length (downloads browsing)) = Some [(u "/tmp/a", content)]) as (c' & _ & _ & H1 & _ & H2).
  { apply (download_delivers (FS := oneFile) 4 absolute (λ _, false) sender (λ _, True) (u "a") (u "v1") (u "/tmp/a") content).
    - done.
    - by repeat constructor.
    - by vm_compute.
    - done.
    - split; [done|by vm_compute].
    - done.
    - split; [done|by vm_compute].
    - exact oneFile_rests.
    - by vm_compute.
    - by vm_compute.
    - done. }
  exists c'. split; [exact H1|exact H2].
Defined.
End Examples.
End RemoteFilesFacts.
