(* ===== verification/Nearby.v ===== *)
(** Devices of the account on the local network, src/Discovery/NearbyDevices.cpp: the
    records that discovery finds, the signed packets between them, invitations, and the
    resumption of a host that is known. *)
From S2P Require Import Prelude Qt Records Credentials.
From coqutil Require Import Datatypes.RecordSetters.
Import OCamlLikeNotations.
Open Scope Z_scope.

(** iiWebServer::LanLink: the members that the code reads, and the others. *)
Record LanLink := mkLink { hostId : QString; addresses : list QString; expiresAt : Z; others : QString }.

Module Nearby.
Import Records.
(** An address is its text, empty for the null address. *)
Record Endpoint := mkEndpoint { service : QString; record : jobj; address : QString; port : Z; seen : Z }.
Inductive Signal :=
| IdentityEnding | AuthenticationEnding | Changed | InvitationReceived
| InvitationEnded (message : string)
| ServiceStart (r : jobj) (port : Z) | ServiceStop
| Sent (bytes : list N) (address : QString) (port : Z).
(** The members of NearbyDevices; [bound] is the local port of the socket while it is
    bound, [nonces] counts the identifiers that were drawn, [out] what was done. *)
Record Nearby := mkNearby {
  m_record : jobj; incoming : jobj; outgoing : jobj; accepted : jobj; credentials : jobj;
  bound : option Z; timer : bool;
  endpoints : gmap QString Endpoint;
  seenRequests : gmap QString Z;
  retiredInstances : gmap QString Z;
  error : QString;
  remoteVerificationCode : QString;
  nextSend : Z; retryAt : Z;
  resumeHost : QString; resumeChallenge : QString;
  resumeRoutes : list jval;
  resumeAt : Z; resumeDeadline : Z;
  nonces : nat;
  out : list Signal
}.
Definition start : Nearby := mkNearby ∅ ∅ ∅ ∅ ∅ None false ∅ ∅ ∅ [] [] 0 0 [] [] [] 0 0 O [].

Definition tokenChar (c : N) : bool :=
  ((65 <=? c) && (c <=? 90) || (97 <=? c) && (c <=? 122) || (48 <=? c) && (c <=? 57)
   || (c =? 95) || (c =? 46) || (c =? 58) || (c =? 45))%N.
Definition token (s : QString) : bool := (1 <=? qsize s) && (qsize s <=? 128) && forallb tokenChar s.
Definition control (c : N) : bool := ((c <=? 31) || (c =? 127))%N.
Definition codeChar (c : N) : bool := ((65 <=? c) && (c <=? 70) || (48 <=? c) && (c <=? 57))%N.
(** Three groups of four digits. *)
Definition code (s : QString) : bool :=
  match qsplit 45 s with
  | [a; b; c] => forallb (λ g, (qsize g =? 4) && forallb codeChar g) [a; b; c]
  | _ => false
  end.

(** The slots connected to [changed] and the like run after the operation. *)
Definition emit (x : Signal) (s : Nearby) : Nearby := { s with out := out s ++ [x] }.
Definition active (s : Nearby) : bool := bool_decide (is_Some (bound s)).
Definition localPort (s : Nearby) : Z := default 0 (bound s).
Definition deviceId (s : Nearby) : QString := toStr (m_record s).["id"].
Definition deviceName (s : Nearby) : QString := toStr (m_record s).["name"].
Definition primaryHost (s : Nearby) : QString := toStr (m_record s).["primary"].
Definition desktop (s : Nearby) : bool := bool_decide ((m_record s).["host"] = JS "1").
Definition automaticHostAvailable (s : Nearby) : bool := desktop s && bool_decide ((m_record s).["autoHost"] = JS "1").
Definition incomingAutomatic (s : Nearby) : bool := bool_decide ((incoming s).["automatic"] = JS "1").
Definition expires (o : jobj) : Z := jlong o.["expires"].

Section nearby.
Context {PF : Platform}.
(** The library of Credentials.v. *)
Variables (fromISO : QString → option Z) (addDays : Z → Z → Z) (hmac : list N → list N → list N).
(** QUuid::createUuid, QJsonDocument::fromJson, LanLink::localAddress,
    QHostAddress::isLoopback and the text of the QHostAddress that a text names. *)
Variables (nonce : nat → QString) (fromJson : list N → jobj) (lanAddress isLoopback : QString → bool) (hostAddress : QString → QString).
(** The address that the object is bound to is the loopback. *)
Variable bindLoopback : bool.
Variables (decode : QString → option LanLink) (encode : LanLink → QString).
(** The order of a QHash is its own; std::sort by name. *)
Variables (iterate : gmap QString Endpoint → list (QString * Endpoint)) (firstKey : gmap QString Z → option QString).
Variable sortByName : list jobj → list jobj.

Definition validRecord (r : jobj) : bool :=
  let name := toStr r.["name"] in
  bool_decide (r.["v"] = JS "1") && hex (toStr r.["scope"]) && token (toStr r.["id"]) && token (toStr r.["nonce"])
  && negb (isEmpty name) && (qsize name <=? 128) && negb (existsb control name)
  && bool_decide (toStr r.["kind"] ∈ [u "pc"; u "phone"; u "tablet"])
  && bool_decide (toStr r.["host"] ∈ [u "0"; u "1"])
  && (negb (jcontains r "primary") || isEmpty (toStr r.["primary"]) || token (toStr r.["primary"]))
  && (Z.of_nat (List.length (json r)) <=? 1024).
Definition accountScope (origin userId : QString) : QString :=
  if isEmpty origin || isEmpty userId then [] else
  digest (u "society-nearby-v1" ++ [10%N] ++ toUtf8 origin ++ [10%N] ++ toUtf8 userId).
(** The key of an epoch of five minutes. *)
Definition epochOf (now : Z) : Z := Z.quot now 300000.
Definition keyOf (credentials : jobj) (epoch now : Z) : list N := Credentials.key fromISO addDays hmac credentials epoch now.
Definition authenticated (now : Z) (s : Nearby) : bool :=
  active s && bool_decide ((credentials s).["scope"] = (m_record s).["scope"])
  && (List.length (keyOf (credentials s) (epochOf now) now) =? 32)%nat.
Definition proofOf (key : list N) (packet : jobj) : QString := toHex (hmac key (u "society-auto-v1" ++ [10%N] ++ json packet)).
Definition sign (now : Z) (s : Nearby) (packet : jobj) : jobj :=
  let packet := jremove packet "proof" in
  if negb (authenticated now s) then packet else
  let epoch := numberStr (epochOf now) in
  let packet := jinsert packet "epoch" (JStr epoch) in
  jinsert packet "proof" (JStr (proofOf (keyOf (credentials s) (toLongLong0 epoch) now) packet)).
Definition verify (now : Z) (s : Nearby) (packet : jobj) : bool :=
  if negb (authenticated now s) then false else
  let epoch := toStr packet.["epoch"] in
  let current := epochOf now in
  if negb (bool_decide (epoch = numberStr current))
     && negb ((Z.rem now 300000 <? 30000) && bool_decide (epoch = numberStr (current - 1))) then false else
  let key := keyOf (credentials s) (toLongLong0 epoch) now in
  if negb (List.length key =? 32)%nat then false else
  let proof := toStr packet.["proof"] in
  if negb (hex proof) then false else
  (Credentials.difference (proofOf key (jremove packet "proof")) (Credentials.toLatin1 proof) =? 0)%N.

Definition endpoint (now : Z) (s : Nearby) (id addr : QString) (p : Z) : option Endpoint :=
  snd <$> find (λ e, bool_decide (e.2.(record).["id"] = JStr id) && (now - seen e.2 <? 25000)
                     && (isEmpty addr || bool_decide (address e.2 = addr)) && ((p =? 0) || (port e.2 =? p)))
               (iterate (endpoints s)).
Definition send (packet : jobj) (addr : QString) (p : Z) (s : Nearby) : Nearby :=
  let bytes := json packet in
  if Z.of_nat (List.length bytes) <=? 4096 then emit (Sent bytes addr p) s else s.
Definition sendTo (packet : jobj) (e : Endpoint) : Nearby → Nearby := send packet (address e) (port e).
Definition localAddress (addr : QString) : bool := lanAddress addr && (negb (isLoopback addr) || bindLoopback).

Definition reply (now : Z) (s : Nearby) (invitation : jobj) (operation : string) : jobj :=
  let packet := obj [("v", JS "1"); ("op", JS operation); ("scope", (m_record s).["scope"]); ("from", JStr (deviceId s));
                     ("to", invitation.["from"]); ("request", invitation.["request"])]%string in
  if bool_decide (invitation.["automatic"] = JS "1") then
    sign now s (jinsert (jinsert (jinsert packet "automatic" (JS "1")) "nonce" invitation.["senderNonce"])
                        "senderNonce" (m_record s).["nonce"])
  else packet.
Definition decline (now : Z) (s : Nearby) : Nearby :=
  let s := match endpoint now s (toStr (incoming s).["from"]) [] 0 with
           | Some peer => sendTo (reply now s (incoming s) "decline") peer s
           | None => s
           end in
  emit Changed { s with incoming := ∅ }.
Definition complete (s : Nearby) : Nearby :=
  emit Changed { s with outgoing := ∅; accepted := ∅; remoteVerificationCode := [] }.
Definition cancel (now : Z) (s : Nearby) : Nearby :=
  let s := decline now s in
  let s := match endpoint now s (toStr (outgoing s).["to"]) [] 0 with
           | Some peer =>
               let packet := jinsert (outgoing s) "op" (JS "cancel") in
               sendTo (if bool_decide (packet.["automatic"] = JS "1") then sign now s packet else packet) peer s
           | None => s
           end in
  complete s.
Definition accept (now : Z) (s : Nearby) : QString * Nearby :=
  if jempty (incoming s) || (expires (incoming s) <=? now) then ([], decline now s) else
  match endpoint now s (toStr (incoming s).["from"]) [] 0 with
  | None => ([], decline now s)
  | Some peer =>
      if incomingAutomatic s && (negb (authenticated now s) || negb (verify now s (record peer))) then ([], decline now s) else
      let s := sendTo (reply now s (incoming s) "accept") peer s in
      let s := { s with accepted := if incomingAutomatic s then incoming s else ∅ } in
      let link := toStr (incoming s).["link"] in
      (link, emit Changed { s with incoming := ∅ })
  end.
Definition proveConnection (now : Z) (text : QString) (s : Nearby) : Nearby :=
  if negb (authenticated now s) || jempty (accepted s) || (expires (accepted s) <=? now) then s else
  match endpoint now s (toStr (accepted s).["from"]) [] 0 with
  | Some peer => sendTo (sign now s (jinsert (reply now s (accepted s) "verify") "code" (JStr text))) peer s
  | None => s
  end.

Definition clear (now : Z) (s : Nearby) : Nearby :=
  let s := if active s || negb (jempty (m_record s)) then emit IdentityEnding s else s in
  let s := emit ServiceStop { (cancel now s) with timer := false } in
  emit Changed { s with bound := None; m_record := ∅; endpoints := ∅; seenRequests := ∅; retiredInstances := ∅; error := []; retryAt := 0;
                        resumeHost := []; resumeChallenge := []; resumeRoutes := []; resumeAt := 0; resumeDeadline := 0;
                        credentials := ∅ }.
(** [bind] is the port that the socket gets, or why it gets none. *)
Definition setIdentity (now : Z) (scope id name kind : QString) (host : bool) (bind : Z + QString) (s : Nearby) : Nearby :=
  let host := if host then u "1" else u "0" in
  if active s && bool_decide ((m_record s).["scope"] = JStr scope) && bool_decide (deviceId s = id) && bool_decide (deviceName s = name)
     && bool_decide ((m_record s).["kind"] = JStr kind) && bool_decide ((m_record s).["host"] = JStr host) then s else
  let s := clear now s in
  let r := obj [("v", JS "1"); ("scope", JStr scope); ("id", JStr id); ("name", JStr (qleft 128 name)); ("kind", JStr kind);
                ("host", JStr host); ("nonce", JStr (nonce (nonces s)))]%string in
  let s := { s with nonces := S (nonces s) } in
  if negb (validRecord r) then s else
  let s := { s with m_record := r } in
  match bind with
  | inr e => emit Changed { s with error := u "Local device discovery could not start: " ++ e }
  | inl p => emit Changed (emit (ServiceStart r p) { s with bound := Some p; timer := true })
  end.
Definition advertiseAuthentication (now : Z) (s : Nearby) : Nearby :=
  if negb (active s) then s else
  let r := jremove (jremove (m_record s) "epoch") "proof" in
  let r := if authenticated now s then sign now s r else r in
  if bool_decide (r = m_record s) then s else
  emit Changed (emit (ServiceStart r (localPort s)) { s with m_record := r }).
Definition setCredentials (now : Z) (c : jobj) (hostAvailable : bool) (primary : QString) (s : Nearby) : Nearby :=
  let available := if hostAvailable && desktop s then u "1" else u "0" in
  if bool_decide (c = credentials s) && bool_decide ((m_record s).["autoHost"] = JStr available)
     && bool_decide (primaryHost s = primary) then s else
  let had := negb (jempty (credentials s)) in
  let previousEpoch := numberStr (epochOf now - 1) in
  let previousKey := default JUndef (toObj (credentials s).["keys"] !! previousEpoch) in
  let c := if isString previousKey && negb (jempty c) && (toIntOr 1 c.["version"] =? 1)
           then jinsert c "keys" (JObj (<[previousEpoch := previousKey]> (toObj c.["keys"]))) else c in
  let r := jinsert (m_record s) "autoHost" (JStr available) in
  let r := if isEmpty primary then jremove r "primary" else jinsert r "primary" (JStr primary) in
  let s := { s with credentials := c; m_record := r } in
  let s := if negb (authenticated now s)
           then let s := { s with credentials := ∅ } in if had then emit AuthenticationEnding s else s
           else s in
  advertiseAuthentication now s.

Definition instanceOf (r : jobj) : QString := toStr r.["id"] ++ u "/" ++ toStr r.["nonce"].
(** An endpoint that the new one supersedes: an older process of the device, or an older
    place of the service. *)
Definition restartedBy (verified : bool) (r : jobj) (old : Endpoint) : bool :=
  verified && bool_decide ((record old).["id"] = r.["id"]) && negb (bool_decide ((record old).["nonce"] = r.["nonce"])).
Definition replacedBy (svc : QString) (p : Z) (r : jobj) (old : Endpoint) : bool :=
  bool_decide (service old = svc)
  && (negb (port old =? p) || negb (bool_decide ((record old).["id"] = r.["id"]))
      || negb (bool_decide ((record old).["nonce"] = r.["nonce"]))).
Definition retire (now : Z) (i : QString) (m : gmap QString Z) : gmap QString Z :=
  let m := if (128 <=? base.size m)%nat then (match firstKey m with Some k => delete k m | None => m end) else m in
  <[i := now + 70000]> m.
Definition found (now : Z) (svc : QString) (r : jobj) (addr : QString) (p : Z) (freshProof : bool) (s : Nearby) : Nearby :=
  if negb (active s) || (512 <? qsize svc) || negb (validRecord r) || (p =? 0) || negb (localAddress addr)
     || negb (bool_decide (r.["scope"] = (m_record s).["scope"])) || bool_decide (r.["id"] = (m_record s).["id"]) then s else
  let verified := verify now s r in
  let here := instanceOf r in
  if negb freshProof && (now <? default 0 (retiredInstances s !! here)) then s else
  let retired := if freshProof then delete here (retiredInstances s) else retiredInstances s in
  let old := List.filter (λ e, restartedBy verified r e.2) (iterate (endpoints s)) in
  let retired := if freshProof then foldl (λ m e, retire now (instanceOf e.2.(record)) m) retired old else retired in
  let kept := base.filter (λ e : QString * Endpoint, restartedBy verified r e.2 || replacedBy svc p r e.2 = false) (endpoints s) in
  let s := { s with retiredInstances := retired; endpoints := kept } in
  let key := svc ++ u "/" ++ addr in
  if bool_decide (kept !! key = None) && (128 <=? base.size kept)%nat then s else
  let s := { s with endpoints := <[key := mkEndpoint svc r addr p now]> kept; error := [] } in
  let s := if negb (List.length old =? 0)%nat
              && (bool_decide ((outgoing s).["to"] = r.["id"]) || bool_decide ((incoming s).["from"] = r.["id"])
                  || bool_decide ((accepted s).["from"] = r.["id"]))
           then emit (InvitationEnded "The other device restarted. Reconnecting.") (cancel now s) else s in
  emit Changed s.
Definition lost (svc : QString) (s : Nearby) : Nearby :=
  let kept := base.filter (λ e : QString * Endpoint, service e.2 ≠ svc) (endpoints s) in
  if bool_decide (base.size kept = base.size (endpoints s)) then s else emit Changed { s with endpoints := kept }.
Definition failed (now : Z) (e : QString) (s : Nearby) : Nearby :=
  if negb (active s) then s else
  emit Changed { s with error := e; retryAt := if retryAt s =? 0 then now + 5000 else retryAt s }.
(** Each device once, the newest order of the names left to [sortByName]. *)
Definition devices (now : Z) (s : Nearby) : list jobj :=
  let row e := obj [("id", JStr (toStr (record e).["id"])); ("name", JStr (toStr (record e).["name"])); ("kind", JStr (toStr (record e).["kind"]));
                    ("address", JStr (address e)); ("desktop", JBool (bool_decide ((record e).["host"] = JS "1")));
                    ("verified", JBool (verify now s (record e))); ("autoHost", JBool (bool_decide ((record e).["autoHost"] = JS "1")));
                    ("primary", JStr (toStr (record e).["primary"]))]%string in
  sortByName (foldl (λ acc e,
    if bool_decide (toStr e.2.(record).["id"] ∈ acc.1) || (25000 <=? now - seen e.2) then acc
    else (acc.1 ++ [toStr e.2.(record).["id"]], acc.2 ++ [row e.2])) ([], []) (iterate (endpoints s))).2.
Definition status (now : Z) (s : Nearby) : QString :=
  if negb (isEmpty (error s)) then error s
  else if negb (active s) then u "Sign in to iisacc on both devices to discover nearby devices."
  else match devices now s with
       | [] => u "Searching your local network" ++ [8230%N] ++ u " Keep Society open on your other device."
       | _ => u "Nearby devices on your iisacc account. The list updates automatically."
       end.
Definition route (addr : QString) (p : Z) : jval := JObj (obj [("address", JStr addr); ("port", JNum p)]%string).
Definition connectionHints (now : Z) (s : Nearby) (id : QString) : list jval :=
  foldl (λ acc e,
    if negb (bool_decide (e.2.(record).["id"] = JStr id)) || (25000 <=? now - seen e.2) || negb (verify now s (record e.2)) then acc
    else let hint := route (address e.2) (port e.2) in
         if bool_decide (hint ∈ acc) || negb (List.length acc <? 8)%nat then acc else acc ++ [hint])
    [] (iterate (endpoints s)).

(** ** Resuming a host *)
Definition routeAddress (v : jval) : QString := hostAddress (toStr (toObj v).["address"]).
Definition routePort (v : jval) : Z := toInt (toObj v).["port"].
Definition resumePacket (now : Z) (s : Nearby) : jobj :=
  sign now s (obj [("v", JS "1"); ("op", JS "resume"); ("scope", (m_record s).["scope"]); ("from", JStr (deviceId s));
                   ("to", JStr (resumeHost s)); ("request", JStr (resumeChallenge s));
                   ("expires", jnum (resumeDeadline s)); ("record", JObj (m_record s))]%string).
Definition readyPacket (now : Z) (s : Nearby) (p : jobj) : jobj :=
  sign now s (obj [("v", JS "1"); ("op", JS "resume-ready"); ("scope", (m_record s).["scope"]); ("from", JStr (deviceId s));
                   ("to", (toObj p.["record"]).["id"]); ("request", JStr (toStr p.["request"])); ("expires", p.["expires"]);
                   ("record", JObj (m_record s))]%string).
Definition asking (now : Z) (s : Nearby) : Nearby :=
  { s with resumeChallenge := nonce (nonces s); nonces := S (nonces s); resumeDeadline := now + 5000; resumeAt := now + 5000 }.
Definition sendResume (now : Z) (s : Nearby) : Nearby :=
  if negb (authenticated now s) || negb (bool_decide (resumeHost s = primaryHost s)) || (List.length (resumeRoutes s) =? 0)%nat || (now <? resumeAt s) then s else
  let s := asking now s in
  let packet := resumePacket now s in
  foldl (λ s v, send packet (routeAddress v) (Z.modulo (routePort v) 65536) s) s (resumeRoutes s).
Definition safeRoutes (routes : list jval) : list jval :=
  foldl (λ acc v,
    let p := routePort v in
    if localAddress (routeAddress v) && (0 <? p) && (p <=? 65535) && (List.length acc <? 8)%nat
    then acc ++ [route (routeAddress v) p] else acc) [] routes.
Definition resume (now : Z) (host : QString) (routes : list jval) (s : Nearby) : Nearby :=
  if isEmpty host then { s with resumeHost := []; resumeRoutes := []; resumeChallenge := [] } else
  if negb (authenticated now s) || desktop s || negb (bool_decide (host = primaryHost s)) || negb (token host) then s else
  let safe := safeRoutes routes in
  if bool_decide (host = resumeHost s) && bool_decide (safe = resumeRoutes s) then s else
  sendResume now { s with resumeHost := host; resumeRoutes := safe; resumeAt := 0 }.
(** Whether the packet is of a resumption, that no other handler sees. *)
Definition receiveResume (now : Z) (p : jobj) (addr : QString) (prt : Z) (s : Nearby) : bool * Nearby :=
  let op := toStr p.["op"] in
  if negb (bool_decide (op = u "resume")) && negb (bool_decide (op = u "resume-ready")) then (false, s) else
  let r := toObj p.["record"] in
  let request := toStr p.["request"] in
  if negb (bool_decide (p.["v"] = JS "1")) || negb (bool_decide (p.["to"] = JStr (deviceId s)))
     || negb (bool_decide (p.["scope"] = (m_record s).["scope"])) || negb (token request)
     || (expires p <=? now) || (now + 6000 <? expires p) || negb (validRecord r)
     || negb (bool_decide (r.["id"] = p.["from"])) || bool_decide (r.["id"] = JStr (deviceId s))
     || negb (bool_decide (r.["scope"] = (m_record s).["scope"])) || negb (verify now s p) || negb (verify now s r) then (true, s) else
  let ready s := (true, found now (u "resume:" ++ toStr r.["id"]) r addr prt true s) in
  if bool_decide (op = u "resume") then
    if negb (automaticHostAvailable s) || negb (bool_decide (primaryHost s = deviceId s)) || negb (bool_decide (r.["primary"] = JStr (deviceId s)))
       || negb (bool_decide (r.["host"] = JS "0")) || bool_decide (is_Some (seenRequests s !! request)) || (128 <=? base.size (seenRequests s))%nat
    then (true, s) else
    let s := { s with seenRequests := <[request := expires p]> (seenRequests s) } in
    ready (send (readyPacket now s p) addr prt s)
  else
    if desktop s || negb (bool_decide (p.["from"] = JStr (resumeHost s))) || negb (bool_decide (request = resumeChallenge s))
       || (resumeDeadline s <=? now) || negb (bool_decide (r.["autoHost"] = JS "1")) || negb (bool_decide (r.["primary"] = JStr (resumeHost s)))
    then (true, s) else
    if negb (existsb (λ v, bool_decide (routeAddress v = addr) && (routePort v =? prt)) (resumeRoutes s)) then (true, s) else
    ready { s with resumeChallenge := [] }.

(** ** Invitations *)
Definition invite (now : Z) (id text : QString) (automatic : bool) (s : Nearby) : bool * Nearby :=
  match endpoint now s id [] 0, decode text with
  | Some peer, Some link =>
      if negb (active s) || negb (bool_decide ((m_record s).["host"] = JS "1")) || negb (bool_decide (hostId link = deviceId s))
         || (expiresAt link <=? now) || (automatic && negb (verify now s (record peer))) then (false, s) else
      let s := cancel now s in
      let packet := obj [("v", JS "1"); ("op", JS "invite"); ("scope", (m_record s).["scope"]); ("from", JStr (deviceId s)); ("to", JStr id);
                         ("nonce", (record peer).["nonce"]); ("request", JStr (nonce (nonces s))); ("link", JStr text);
                         ("name", (record peer).["name"]); ("expires", jnum (expiresAt link))]%string in
      let s := { s with nonces := S (nonces s) } in
      let packet := if automatic then sign now s (jinsert (jinsert packet "automatic" (JS "1")) "senderNonce" (m_record s).["nonce"]) else packet in
      (true, emit Changed { (sendTo packet peer { s with outgoing := packet }) with nextSend := now + 2000 })
  | _, _ => (false, s)
  end.
(** The link of an invitation, when all that it claims is so. *)
Definition invitation (now : Z) (s : Nearby) (p : jobj) (peer : Endpoint) : option LanLink :=
  let request := toStr p.["request"] in
  if negb (bool_decide ((record peer).["host"] = JS "1")) || negb (bool_decide (p.["nonce"] = (m_record s).["nonce"]))
     || bool_decide (is_Some (seenRequests s !! request)) || negb (jempty (incoming s)) then None else
  match decode (toStr p.["link"]) with
  | Some link =>
      if negb (bool_decide (JStr (hostId link) = (record peer).["id"])) || (expiresAt link <=? now) || (now + 65000 <? expiresAt link)
         || negb (bool_decide (address peer ∈ addresses link)) then None
      else Some { link with addresses := [address peer] }
  | None => None
  end.
Definition receiveDatagram (now : Z) (data : list N) (addr : QString) (prt : Z) (s : Nearby) : Nearby :=
  if (4096 <? Z.of_nat (List.length data)) || negb (localAddress addr) then s else
  let p := fromJson data in
  let '(taken, s) := receiveResume now p addr prt s in
  if taken then s else
  match endpoint now s (toStr p.["from"]) addr prt with
  | None => s
  | Some peer =>
      if negb (bool_decide (p.["v"] = JS "1")) || negb (bool_decide (p.["scope"] = (m_record s).["scope"]))
         || negb (bool_decide (p.["to"] = (m_record s).["id"])) || negb (token (toStr p.["request"])) then s else
      let op := toStr p.["op"] in
      let automatic := bool_decide (p.["automatic"] = JS "1") in
      if automatic && (negb (verify now s p) || negb (verify now s (record peer)) || negb (bool_decide (p.["nonce"] = (m_record s).["nonce"]))
                       || negb (bool_decide (p.["senderNonce"] = (record peer).["nonce"]))) then s else
      if bool_decide (op = u "invite") then
        match invitation now s p peer with
        | None => s
        | Some link =>
            emit InvitationReceived (emit Changed
              { s with incoming := jinsert (jinsert (jinsert p "link" (JStr (encode link))) "name" (record peer).["name"]) "expires" (jnum (expiresAt link));
                       seenRequests := <[toStr p.["request"] := now + 70000]> (seenRequests s) })
        end
      else if (bool_decide (op = u "decline") || bool_decide (op = u "accept") || bool_decide (op = u "verify")) && negb (jempty (outgoing s))
              && bool_decide (p.["request"] = (outgoing s).["request"]) && bool_decide (p.["from"] = (outgoing s).["to"])
              && Bool.eqb automatic (bool_decide ((outgoing s).["automatic"] = JS "1")) then
        if bool_decide (op = u "verify") then
          if automatic && code (toStr p.["code"]) then emit Changed { s with remoteVerificationCode := toStr p.["code"] } else s
        else if bool_decide (op = u "decline") then emit (InvitationEnded "The other device declined the request.") (emit Changed { s with outgoing := ∅ })
        else { s with nextSend := now + 65000 }
      else if bool_decide (op = u "cancel") && negb (jempty (incoming s)) && bool_decide (p.["request"] = (incoming s).["request"])
              && bool_decide (p.["from"] = (incoming s).["from"]) && Bool.eqb automatic (incomingAutomatic s)
      then emit Changed { s with incoming := ∅ }
      else s
  end.

Definition tick (now : Z) (s : Nearby) : Nearby :=
  let s := if negb (jempty (credentials s)) && negb (authenticated now s) then emit AuthenticationEnding { s with credentials := ∅ } else s in
  let s := sendResume now (advertiseAuthentication now s) in
  let kept := base.filter (λ e : QString * Endpoint, now - seen e.2 < 25000) (endpoints s) in
  let removed := negb (bool_decide (base.size kept = base.size (endpoints s))) in
  let live (m : gmap QString Z) := base.filter (λ e : QString * Z, now < e.2) m in
  let s := { s with endpoints := kept; seenRequests := live (seenRequests s); retiredInstances := live (retiredInstances s) } in
  let s := if (128 <? base.size (seenRequests s))%nat then { s with seenRequests := ∅ } else s in
  let s := if negb (retryAt s =? 0) && (retryAt s <=? now)
           then emit (ServiceStart (m_record s) (localPort s)) (emit ServiceStop { s with retryAt := 0 }) else s in
  let '(removed, s) := if negb (jempty (incoming s)) && (expires (incoming s) <=? now) then (true, { s with incoming := ∅ }) else (removed, s) in
  let '(removed, s) :=
    if jempty (outgoing s) then (removed, s) else
    if expires (outgoing s) <=? now
    then (true, emit (InvitationEnded "The connection request expired. Select the device to try again.") { s with outgoing := ∅ })
    else if nextSend s <=? now then
      (removed, { (match endpoint now s (toStr (outgoing s).["to"]) [] 0 with Some peer => sendTo (outgoing s) peer s | None => s end)
                  with nextSend := now + 2000 })
    else (removed, s) in
  if removed then emit Changed s else s.

(** ** What happens to the object *)
Inductive Event :=
| SetIdentity (scope id name kind : QString) (host : bool) (bind : Z + QString)
| SetCredentials (c : jobj) (hostAvailable : bool) (primary : QString)
| Clear | Found (svc : QString) (r : jobj) (addr : QString) (p : Z) | Lost (svc : QString) | Failed (e : QString)
| Datagram (data : list N) (addr : QString) (p : Z)
| Invite (id text : QString) (automatic : bool) | Accept | Decline | Cancel | Complete | ProveConnection (text : QString)
| Resume (host : QString) (routes : list jval) | Tick.
Definition step (s : Nearby) (e : Z * Event) : Nearby :=
  let now := e.1 in
  match e.2 with
  | SetIdentity scope id name kind host bind => setIdentity now scope id name kind host bind s
  | SetCredentials c hostAvailable primary => setCredentials now c hostAvailable primary s
  | Clear => clear now s
  | Found svc r addr p => found now svc r addr p false s
  | Lost svc => lost svc s
  | Failed e => failed now e s
  | Datagram data addr p => receiveDatagram now data addr p s
  | Invite id text automatic => (invite now id text automatic s).2
  | Accept => (accept now s).2
  | Decline => decline now s
  | Cancel => cancel now s
  | Complete => complete s
  | ProveConnection text => proveConnection now text s
  | Resume host routes => resume now host routes s
  | Tick => if timer s then tick now s else s
  end.
Definition history (s : Nearby) (l : list (Z * Event)) : Nearby := foldl step s l.
End nearby.
End Nearby.
