(* ===== verification/NearbyFacts.v ===== *)
(** Invitations are vetted, tables stay bounded, and a host that is known is found again
    without discovery. *)
From S2P Require Import Prelude Qt Records Demo Credentials Nearby.
From coqutil Require Import Datatypes.RecordSetters.
Import OCamlLikeNotations.
Open Scope Z_scope.

Module NearbyFacts.
Import Records Nearby.
Section nearby.
Context {PF : Platform}.
Context (fromISO : QString → option Z) (addDays : Z → Z → Z) (hmac : list N → list N → list N).
Context (nonce : nat → QString) (fromJson : list N → jobj) (lanAddress isLoopback : QString → bool) (hostAddress : QString → QString).
Context (bindLoopback : bool) (decode : QString → option LanLink) (encode : LanLink → QString).
Context (iterate : gmap QString Endpoint → list (QString * Endpoint)) (firstKey : gmap QString Z → option QString).
(** Iterating over a QHash meets each of its entries once. *)
Hypothesis iterates : ∀ m, iterate m ≡ₚ map_to_list m.
(** The null address is not on the local network. *)
Hypothesis null_remote : lanAddress [] = false.
Notation authenticated := (authenticated fromISO addDays hmac).
Notation sign := (sign fromISO addDays hmac).
Notation verify := (verify fromISO addDays hmac).
Notation endpoint := (endpoint iterate).
Notation reply := (reply fromISO addDays hmac).
Notation decline := (decline fromISO addDays hmac iterate).
Notation cancel := (cancel fromISO addDays hmac iterate).
Notation accept := (accept fromISO addDays hmac iterate).
Notation clear := (clear fromISO addDays hmac iterate).
Notation advertiseAuthentication := (advertiseAuthentication fromISO addDays hmac).
Notation found := (found fromISO addDays hmac lanAddress isLoopback bindLoopback iterate firstKey).
Notation sendResume := (sendResume fromISO addDays hmac nonce hostAddress).
Notation receiveResume := (receiveResume fromISO addDays hmac lanAddress isLoopback hostAddress bindLoopback iterate firstKey).
Notation localAddress := (localAddress lanAddress isLoopback bindLoopback).
Notation invitation := (invitation decode).
Notation receiveDatagram := (receiveDatagram fromISO addDays hmac fromJson lanAddress isLoopback hostAddress bindLoopback decode encode iterate firstKey).
Notation step := (step fromISO addDays hmac nonce fromJson lanAddress isLoopback hostAddress bindLoopback decode encode iterate firstKey).
Notation history := (history fromISO addDays hmac nonce fromJson lanAddress isLoopback hostAddress bindLoopback decode encode iterate firstKey).

(** ** An invitation stays as it was received, on the instance it was sent to *)
Definition identity (s : Nearby) : jval * jval * jval := ((m_record s).["scope"], (m_record s).["id"], (m_record s).["nonce"]).
Definition settled (s s' : Nearby) : Prop := incoming s' = ∅ ∨ incoming s' = incoming s ∧ identity s' = identity s.
#[local] Instance settled_trans : Transitive settled.
Proof. intros a b c Hab [H|[H1 H2]]; [by left|]. destruct Hab as [H|[H3 H4]]; [left; congruence|right; split; congruence]. Qed.
#[local] Instance settled_refl : Reflexive settled.
Proof. intros s. by right. Qed.
Lemma settled_send packet addr p s : settled s (send packet addr p s).
Proof. unfold send. cbv zeta. destruct (_ <=? _); by right. Qed.
Lemma settled_decline now s : settled s (decline now s).
Proof. by left. Qed.
Lemma settled_cancel now s : incoming (cancel now s) = ∅.
Proof.
  unfold Nearby.cancel. cbv zeta. set (s1 := decline now s). assert (incoming s1 = ∅) as H by done. clearbody s1.
  destruct (endpoint _ _ _ _ _); [|exact H]. unfold sendTo, send. cbv zeta. by destruct (_ <=? _).
Qed.
Lemma settled_clear now s : incoming (clear now s) = ∅.
Proof. unfold Nearby.clear. cbv zeta. exact (settled_cancel now _). Qed.
Lemma identity_sign now s s' (o : jobj) : (o.["scope"], o.["id"], o.["nonce"]) = identity s →
  ((sign now s' o).["scope"], (sign now s' o).["id"], (sign now s' o).["nonce"]) = identity s.
Proof. intros <-. unfold Nearby.sign. cbv zeta. destruct (negb _); by jsimp. Qed.
Lemma settled_advertise now s : settled s (advertiseAuthentication now s).
Proof.
  unfold Nearby.advertiseAuthentication. destruct (negb (active s)); [done|]. cbv zeta.
  set (r := if authenticated now s then _ else _). assert ((r.["scope"], r.["id"], r.["nonce"]) = identity s) as Hr.
  { unfold r. destruct (authenticated now s); [apply identity_sign|]; by jsimp. }
  clearbody r. destruct (bool_decide _); [done|]. by right.
Qed.
Lemma settled_found now svc r addr p fresh s : settled s (found now svc r addr p fresh s).
Proof.
  unfold Nearby.found. destruct (negb (active s) || _ || _ || _ || _ || _ || _); [done|]. cbv zeta.
  destruct (negb fresh && _); [done|]. destruct (bool_decide _ && _); [by right|].
  destruct (negb (_ =? _)%nat && _); [left; apply settled_cancel|by right].
Qed.
Lemma settled_foldl {A} (f : Nearby → A → Nearby) l s : (∀ s x, settled s (f s x)) → settled s (foldl f s l).
Proof. intros Hf. revert s. induction l as [|x l IH]; intros s; [done|]. etransitivity; [apply (Hf s x)|apply IH]. Qed.
Lemma settled_sendResume now s : settled s (sendResume now s).
Proof.
  unfold Nearby.sendResume. destruct (_ || _ || _ || _); [done|]. cbv zeta.
  match goal with |- settled _ (foldl _ ?x _) => transitivity x; [by right|] end. apply settled_foldl. intros. apply settled_send.
Qed.
Lemma settled_receiveResume now p addr prt s : settled s (receiveResume now p addr prt s).2.
Proof.
  unfold Nearby.receiveResume. cbv zeta. destruct (negb _ && negb _); [done|].
  destruct (negb _ || _ || _ || _ || _ || _ || _ || _ || _ || _ || _ || _); [done|]. destruct (bool_decide (_ = u "resume")).
  - destruct (_ || _ || _ || _ || _ || _); [done|]. cbn [snd]. etransitivity; [|apply settled_found]. etransitivity; [|apply settled_send]. by right.
  - destruct (_ || _ || _ || _ || _ || _); [done|]. destruct (negb _); [done|]. cbn [snd]. etransitivity; [|apply settled_found]. by right.
Qed.
Lemma settled_invite now id text automatic s : settled s (invite fromISO addDays hmac nonce decode iterate now id text automatic s).2.
Proof.
  unfold invite. destruct (endpoint _ _ _ _ _) as [peer|], (decode text) as [link|]; try done. destruct (_ || _ || _ || _ || _); [done|].
  cbv zeta. cbn [snd]. left. match goal with |- context [sendTo ?a ?b ?c] => change (incoming (sendTo a b c) = ∅) end. unfold sendTo, send. cbv zeta.
  destruct (_ <=? _); exact (settled_cancel now s).
Qed.
Lemma settled_accept now s : incoming (accept now s).2 = ∅.
Proof. unfold Nearby.accept. destruct (_ || _); [done|]. destruct (endpoint _ _ _ _ _); [|done]. by destruct (_ && _). Qed.
Lemma settled_tick now s : settled s (tick fromISO addDays hmac nonce hostAddress iterate now s).
Proof.
  unfold tick. cbv zeta. set (s0 := if negb (jempty (credentials s)) && _ then _ else s).
  assert (settled s s0) as H0 by (unfold s0; destruct (_ && _); by right). clearbody s0.
  set (s1 := sendResume now _). assert (settled s s1) as H1.
  { etransitivity; [exact H0|]. etransitivity; [apply settled_advertise|apply settled_sendResume]. } clearbody s1. clear H0 s0.
  set (s2 := if (128 <? base.size (seenRequests { s1 with endpoints := _; seenRequests := _; retiredInstances := _ }))%nat then _ else _).
  assert (settled s s2) as H2 by (etransitivity; [exact H1|]; unfold s2; destruct (_ <? _)%nat; by right). clearbody s2. clear H1.
  set (s3 := if negb (retryAt s2 =? 0) && _ then _ else s2).
  assert (settled s s3) as H3 by (etransitivity; [exact H2|]; unfold s3; destruct (_ && _); by right). clearbody s3. clear H2 s2.
  set (r3 := negb (bool_decide _)). clearbody r3. clear s1.
  set (x := if negb (jempty (incoming s3)) && _ then _ else (r3, s3)).
  assert (settled s x.2) as H4 by (etransitivity; [exact H3|]; unfold x; destruct (_ && _); [by left|done]). clearbody x. clear H3 s3 r3.
  destruct x as [r s4]. cbn [snd] in H4.
  set (y := if jempty (outgoing s4) then (r, s4) else _). assert (settled s y.2) as H5.
  { etransitivity; [exact H4|]. unfold y. destruct (jempty _); [done|]. destruct (_ <=? _); [by right|]. destruct (_ <=? _); [|done]. cbn [snd].
    destruct (endpoint _ _ _ _ _); [|by right]. exact (settled_send _ _ _ s4). }
  clearbody y. destruct y as [r5 s5]. cbn [snd] in H5. destruct r5; [|done]. etransitivity; [exact H5|by right].
Qed.
Lemma settled_setIdentity now scope id name kind host bind s : settled s (setIdentity fromISO addDays hmac nonce iterate now scope id name kind host bind s).
Proof.
  unfold setIdentity. cbv zeta. destruct (_ && _ && _ && _ && _ && _); [done|]. left.
  destruct (negb _); [exact (settled_clear now s)|]. destruct bind; exact (settled_clear now s).
Qed.
Lemma settled_setCredentials now c h primary s : settled s (setCredentials fromISO addDays hmac now c h primary s).
Proof.
  unfold setCredentials. cbv zeta. destruct (_ && _ && _); [done|]. etransitivity; [|apply settled_advertise].
  set (r := if isEmpty primary then _ else _). assert ((r.["scope"], r.["id"], r.["nonce"]) = identity s) as Hr.
  { unfold r. destruct (isEmpty primary); by jsimp. } clearbody r.
  destruct (negb (authenticated _ _)); [|by right]. destruct (negb (jempty _)); by right.
Qed.
Lemma settled_prove now text s : settled s (proveConnection fromISO addDays hmac iterate now text s).
Proof. unfold proveConnection. destruct (_ || _ || _); [done|]. destruct (endpoint _ _ _ _ _); [apply settled_send|done]. Qed.
Lemma settled_resume now host routes s :
  settled s (resume fromISO addDays hmac nonce lanAddress isLoopback hostAddress bindLoopback now host routes s).
Proof.
  unfold resume. destruct (isEmpty host); [by right|]. destruct (_ || _ || _ || _); [done|]. cbv zeta. destruct (_ && _); [done|].
  etransitivity; [|apply settled_sendResume]. by right.
Qed.

(** ** What is known of an invitation that is shown *)
Record vetted (s : Nearby) (now : Z) (p : jobj) (addr : QString) (prt : Z) (i : jobj) : Prop := {
  vt_local : localAddress addr = true;
  vt_peer : ∃ key peer, endpoints s !! key = Some peer ∧ (record peer).["id"] = JStr (toStr p.["from"]) ∧ (record peer).["host"] = JS "1"
    ∧ address peer = addr ∧ (prt = 0 ∨ port peer = prt) ∧ now - seen peer < 25000
    ∧ (p.["automatic"] = JS "1" → verify now s p = true ∧ verify now s (record peer) = true ∧ p.["senderNonce"] = (record peer).["nonce"]);
  vt_here : (p.["scope"], p.["to"], p.["nonce"]) = identity s;
  vt_link : ∃ link, decode (toStr p.["link"]) = Some link ∧ hostId link = toStr p.["from"] ∧ addr ∈ addresses link
    ∧ now < expiresAt link ≤ now + 65000
    ∧ toStr i.["link"] = encode { link with addresses := [addr] } ∧ i.["expires"] = jnum (expiresAt link);
  vt_rest : i.["from"] = p.["from"] ∧ i.["automatic"] = p.["automatic"]
}.
Lemma endpoint_some now s id addr p e : endpoint now s id addr p = Some e →
  ∃ key, endpoints s !! key = Some e ∧ (record e).["id"] = JStr id ∧ now - seen e < 25000
    ∧ (addr = [] ∨ address e = addr) ∧ (p = 0 ∨ port e = p).
Proof.
  unfold Nearby.endpoint. intros ((key & e') & Hf & ->)%fmap_Some. apply find_some in Hf as [Hin H].
  apply list_elem_of_In in Hin. rewrite iterates in Hin. apply elem_of_map_to_list in Hin. exists key. cbn [snd] in *. bool_hyps.
  repeat match goal with K : (_ || _) = true |- _ => apply orb_true_iff in K end. unfold isEmpty in *. rewrite !bool_decide_eq_true in *.
  rewrite !Z.eqb_eq in *. done.
Qed.
Lemma invitation_some now s p peer link : invitation now s p peer = Some link →
  (record peer).["host"] = JS "1" ∧ p.["nonce"] = (m_record s).["nonce"] ∧ incoming s = ∅ ∧
  ∃ l, decode (toStr p.["link"]) = Some l ∧ link = { l with addresses := [address peer] }
    ∧ JStr (hostId l) = (record peer).["id"] ∧ now < expiresAt l ≤ now + 65000 ∧ address peer ∈ addresses l.
Proof.
  unfold Nearby.invitation. cbv zeta. destruct (_ || _ || _ || _) eqn:E; [done|]. destruct (decode _) as [l|]; [|done].
  destruct (negb (bool_decide (JStr (hostId l) = _)) || _ || _ || _) eqn:E2; [done|]. intros [= <-]. unfold jempty in *. bool_hyps.
  split_and!; try done. exists l. split_and!; done || lia.
Qed.
(** A datagram leaves the invitation, or brings one that is vetted. *)
Lemma receive_cases now data addr prt s :
  settled s (receiveDatagram now data addr prt s)
  ∨ vetted s now (fromJson data) addr prt (incoming (receiveDatagram now data addr prt s))
    ∧ identity (receiveDatagram now data addr prt s) = identity s.
Proof.
  unfold Nearby.receiveDatagram. destruct (_ || _) eqn:E0; [by left|]. cbv zeta. set (p := fromJson data). clearbody p.
  destruct (receiveResume now p addr prt s) as [taken s1] eqn:Er. pose proof (settled_receiveResume now p addr prt s) as H1. rewrite Er in H1. cbn [snd] in H1.
  destruct taken; [by left|]. assert (s1 = s) as ->.
  { revert Er. unfold Nearby.receiveResume. cbv zeta. destruct (negb _ && negb _); [by intros [= <-]|].
    destruct (negb _ || _ || _ || _ || _ || _ || _ || _ || _ || _ || _ || _); [done|]. destruct (bool_decide (_ = u "resume")).
    - by destruct (_ || _ || _ || _ || _ || _).
    - destruct (_ || _ || _ || _ || _ || _); [done|]. by destruct (negb (existsb _ _)). }
  destruct (endpoint now s _ addr prt) as [peer|] eqn:Ep; [|by left]. apply endpoint_some in Ep as (key & Hk & Hid & Hseen & Ha & Hp).
  destruct (negb _ || _ || _ || _) eqn:E1; [by left|]. destruct (_ && _) eqn:E2; [by left|].
  destruct (bool_decide (toStr p.["op"] = u "invite")).
  - destruct (invitation now s p peer) as [link|] eqn:Ei; [|by left]. right.
    apply invitation_some in Ei as (Hh & Hn & Hi & l & Hl & -> & Hhost & Hexp & Hin). split; [|done].
    bool_hyps. assert (address peer = addr) as Haddr.
    { destruct Ha as [->|Ha]; [|done]. unfold Nearby.localAddress in *. by rewrite null_remote in *. } subst addr.
    change (vetted s now p (address peer) prt
      (jinsert (jinsert (jinsert p "link" (JStr (encode { l with addresses := [address peer] }))) "name" (record peer).["name"])
        "expires" (jnum (expiresAt { l with addresses := [address peer] })))). split.
    + done.
    + exists key, peer. split_and!; try done. intros Hauto. rewrite bool_decide_true in E2 by done. cbn [andb] in E2. bool_hyps. by split_and!.
    + unfold identity. congruence.
    + exists l. rewrite Hid in Hhost. injection Hhost as Hhost. split_and!; try done; [lia..| |]; jsimp; done.
    + by jsimp.
  - destruct (_ && _ && _ && _ && _).
    + destruct (bool_decide (_ = u "verify")); [destruct (_ && code _); left; by right|]. destruct (bool_decide (_ = u "decline")); left; by right.
    + destruct (_ && _ && _ && _ && _); [left; by left|by left].
Qed.
Lemma step_cases s e : settled s (step s e)
  ∨ ∃ data addr prt, e.2 = Datagram data addr prt ∧ vetted s e.1 (fromJson data) addr prt (incoming (step s e)) ∧ identity (step s e) = identity s.
Proof.
  destruct e as [now e]. destruct e; cbn [Nearby.step fst snd].
  - left. apply settled_setIdentity.
  - left. apply settled_setCredentials.
  - left. left. apply settled_clear.
  - left. apply settled_found.
  - left. unfold lost. cbv zeta. destruct (bool_decide _); by right.
  - left. unfold failed. destruct (negb _); by right.
  - destruct (receive_cases now data addr p s) as [H|H]; [by left|right]. by exists data, addr, p.
  - left. apply settled_invite.
  - left. left. apply settled_accept.
  - left. by left.
  - left. left. apply settled_cancel.
  - left. by right.
  - left. apply settled_prove.
  - left. apply settled_resume.
  - left. destruct (timer s); [apply settled_tick|by right].
Qed.
(** The invitation that is shown was brought by a datagram. *)
Lemma incoming_vetted l : let s := history start l in
  incoming s = ∅ ∨ ∃ l1 t data addr prt l2, l = l1 ++ (t, Datagram data addr prt) :: l2
    ∧ vetted (history start l1) t (fromJson data) addr prt (incoming s) ∧ identity s = identity (history start l1).
Proof.
  induction l as [|e l IH] using rev_ind; [by left|]. cbv zeta in *. unfold Nearby.history in *. rewrite foldl_app. cbn [foldl].
  destruct (step_cases (foldl step start l) e) as [[H|[H1 H2]]|(data & addr & prt & He & Hv & Hi)].
  - by left.
  - destruct IH as [IH|(l1 & t & data & addr & prt & l2 & -> & Hv & Hi)]; [left; congruence|right].
    exists l1, t, data, addr, prt, (l2 ++ [e]). rewrite H1, H2. split_and!; [by rewrite <- app_assoc|done..].
  - right. exists l, e.1, data, addr, prt, []. destruct e as [t e]. cbn in He. subst e. split_and!; done.
Qed.
(** C11: An invitation is what it claims.  Whatever happened before, the link that accept
    returns came in a datagram from a device of the same account scope that discovery had
    seen at the address and port it came from, as a host, in the last 25 seconds; the
    datagram was addressed to this device and to this very instance of it; the link names
    that host and that address and no other, had at most 65 seconds to live and lives
    still; and where the invitation was automatic the datagram and the record of the host
    were signed with the account's key of the time. *)
Theorem invitation_vetted l now link s' : Forall (λ e, 0 ≤ e.1 ≤ 2^62) l → let s := history start l in
  accept now s = (link, s') → link ≠ [] →
  ∃ l1 t data addr prt l2, l = l1 ++ (t, Datagram data addr prt) :: l2 ∧
    let p := fromJson data in let s1 := history start l1 in
    vetted s1 t p addr prt (incoming s) ∧ (p.["scope"], p.["to"], p.["nonce"]) = identity s
    ∧ ∃ k, decode (toStr p.["link"]) = Some k ∧ hostId k = toStr p.["from"] ∧ link = encode { k with addresses := [addr] }
      ∧ now < expiresAt k ≤ t + 65000.
Proof.
  intros Ht s Ha Hl. unfold Nearby.accept in Ha. destruct (jempty (incoming s) || _) eqn:E; [congruence|].
  apply orb_false_iff in E as [E1 E2]. pose proof (incoming_vetted l) as HV. cbv zeta in HV. fold s in HV. clearbody s.
  destruct HV as [H|(l1 & t & data & addr & prt & l2 & El & Hv & Hi)].
  { unfold jempty in E1. by rewrite bool_decide_true in E1. }
  exists l1, t, data, addr, prt, l2. split; [done|]. cbv zeta. split_and!; [done|rewrite Hi; apply Hv|].
  destruct (vt_link _ _ _ _ _ _ Hv) as (k & Hk & Hh & Hin & Hx & Hlink & He). exists k. split_and!; try done; [| |lia].
  - destruct (endpoint _ _ _ _ _) as [peer|]; [|congruence]. destruct (_ && _); [congruence|]. injection Ha as <- _.
    rewrite <- Hlink. unfold sendTo, send. cbv zeta. by destruct (Z.of_nat _ <=? _).
  - unfold expires in E2. rewrite He in E2. unfold jlong, toLongLong0, jnum in E2. cbn [toStr] in E2.
    rewrite toLongLong_numberStr in E2; [cbn [default] in E2; by apply Z.leb_gt|].
    rewrite El in Ht. apply Forall_app in Ht as [_ [Ht _]%Forall_cons]. cbn in Ht. unfold int64_min, int64_max. lia.
Qed.

(** ** Packets are believed for the rest of the epoch *)
Hypothesis hmac_digest : ∀ k m, List.length (hmac k m) = 32%nat ∧ Forall (λ c, (c < 256)%N) (hmac k m).
Lemma key_stable c e t t' : keyOf fromISO addDays hmac c e t ≠ [] → keyOf fromISO addDays hmac c e t' ≠ [] →
  keyOf fromISO addDays hmac c e t = keyOf fromISO addDays hmac c e t'.
Proof.
  unfold keyOf, Credentials.key. destruct (Credentials.valid _ _ c t), (Credentials.valid _ _ c t'); done.
Qed.
Lemma authenticated_key now s : authenticated now s = true →
  List.length (keyOf fromISO addDays hmac (credentials s) (epochOf now) now) = 32%nat.
Proof. unfold Nearby.authenticated. intros H. bool_hyps. by apply Nat.eqb_eq. Qed.
Lemma proofOf_hex k o : hex (proofOf hmac k o) = true ∧ List.length (proofOf hmac k o) = 64%nat.
Proof.
  unfold proofOf. set (m := _ ++ _). destruct (hmac_digest k m) as [Hl Hb]. destruct (toHex_hex _ Hb) as [Hn Hc].
  unfold hex, qsize. rewrite Hn, Hl. split; [|done]. cbn [andb]. apply forallb_forall. intros c Hin%list_elem_of_In. by eapply Forall_forall in Hc.
Qed.
Lemma sign_verifies t s t' s' o : authenticated t s = true → authenticated t' s' = true → credentials s = credentials s' →
  epochOf t = epochOf t' → 0 ≤ t ≤ 2^62 → verify t' s' (sign t s o) = true.
Proof.
  intros Ha Ha' Hc He Ht. unfold Nearby.verify, Nearby.sign. rewrite Ha, Ha'. cbn [negb]. cbv zeta.
  pose proof (authenticated_key _ _ Ha) as K. pose proof (authenticated_key _ _ Ha') as K'.
  assert (0 ≤ epochOf t ≤ t) as Hr.
  { unfold epochOf. rewrite Z.quot_div_nonneg by lia. split; [apply Z.div_pos; lia|apply Z.div_le_upper_bound; lia]. }
  assert (toLongLong0 (numberStr (epochOf t)) = epochOf t) as Hn.
  { unfold toLongLong0. rewrite toLongLong_numberStr by (unfold int64_min, int64_max; lia). done. }
  jsimp. cbn [toStr]. rewrite Hn, <- He. rewrite bool_decide_true by done. cbn [negb andb].
  rewrite <- He, <- Hc in K'. rewrite <- Hc. rewrite (key_stable _ _ t' t); [|by intros E; rewrite E in *..]. rewrite K. cbn [Nat.eqb negb].
  set (key := keyOf _ _ _ _ _ _). set (o1 := jinsert (jremove o "proof") "epoch" _).
  assert (jremove (jinsert o1 "proof" (JStr (proofOf hmac key o1))) "proof" = o1) as ->.
  { rewrite jremove_jinsert. unfold o1, jremove. apply delete_id. rewrite jinsert_lookup_ne by done. apply lookup_delete_eq. }
  destruct (proofOf_hex key o1) as [H1 H2]. rewrite H1. cbn [negb].
  rewrite Credentials.hex_latin1 by done. apply N.eqb_eq. by apply Credentials.difference_spec.
Qed.

(** ** Resuming a host *)
Notation validRecord := (validRecord (PF := PF)).
Notation resumePacket := (resumePacket fromISO addDays hmac).
Notation readyPacket := (readyPacket fromISO addDays hmac).
(** The record was signed at [t], as [advertiseAuthentication] does. *)
Definition advertised (t : Z) (s : Nearby) : Prop :=
  ∃ s0 r, authenticated t s0 = true ∧ credentials s0 = credentials s ∧ m_record s = sign t s0 r.
Lemma advertise_advertised t s : active s = true → authenticated t s = true → advertised t (advertiseAuthentication t s).
Proof.
  intros Hb Ha. unfold Nearby.advertiseAuthentication. rewrite Hb, Ha. cbn [negb]. cbv zeta. set (r := sign t s _).
  destruct (bool_decide (r = m_record s)) eqn:E.
  - apply bool_decide_eq_true in E. exists s. eexists. by split_and!.
  - exists s. eexists. by split_and!.
Qed.
Lemma advertised_verifies t s t' s' : advertised t s → authenticated t' s' = true → credentials s = credentials s' →
  epochOf t = epochOf t' → 0 ≤ t ≤ 2^62 → verify t' s' (m_record s) = true.
Proof. intros (s0 & r & Ha & Hc & ->) Ha' Hc' He Ht. apply sign_verifies; congruence || done. Qed.
Lemma sign_value t s o k : k ≠ "epoch"%string → k ≠ "proof"%string → (sign t s o).[k] = o.[k].
Proof. intros H1 H2. unfold Nearby.sign. cbv zeta. by destruct (negb _); rewrite ?jvalue_jinsert_ne, ?jvalue_jremove_ne by done. Qed.
Lemma token_str v : token (toStr v) = true → v = JStr (toStr v).
Proof. by destruct v. Qed.
(** Sending only adds to what was done. *)
Lemma send_sent packet a p s : Z.of_nat (List.length (json packet)) ≤ 4096 → send packet a p s = { s with out := out s ++ [Sent (json packet) a p] }.
Proof. intros H. unfold send. cbv zeta. by destruct (Z.leb_spec (Z.of_nat (List.length (json packet))) 4096); [|lia]. Qed.
Lemma sends_sent packet l s : Z.of_nat (List.length (json packet)) ≤ 4096 → l ≠ [] →
  foldl (λ s v, send packet (routeAddress hostAddress v) (Z.modulo (routePort v) 65536) s) s l =
  { s with out := out s ++ map (λ v, Sent (json packet) (routeAddress hostAddress v) (Z.modulo (routePort v) 65536)) l }.
Proof.
  intros H. revert s. induction l as [|v l IH]; intros s Hl; [done|]. cbn [foldl]. rewrite send_sent by done.
  destruct l as [|w l]; [done|]. rewrite IH by done. destruct s. cbn. by rewrite <- app_assoc.
Qed.
Definition frame (s : Nearby) : jobj * jobj * option Z := (credentials s, m_record s, bound s).
(** Signals, and packets that end an invitation: no answer to a resumption. *)
Definition parting (x : Signal) : Prop :=
  ∀ b a p, x = Sent b a p → ∃ q, b = json q ∧ toStr q.["op"] ∈ [u "decline"; u "cancel"].
Definition parts (l l' : list Signal) : Prop := ∃ k, l' = l ++ k ∧ Forall parting k.
#[local] Instance parts_trans : Transitive parts.
Proof. intros a b c (k & -> & Hk) (k' & -> & Hk'). exists (k ++ k'). split; [by rewrite app_assoc|by apply Forall_app]. Qed.
Lemma parts_same l : parts l l.
Proof. exists []. split; [by rewrite app_nil_r|done]. Qed.
Lemma parts_told l k : Forall (λ x, ∀ b a p, x ≠ Sent b a p) k → parts l (l ++ k).
Proof. intros H. exists k. split; [done|]. eapply Forall_impl; [exact H|]. intros x Hx b a p E. by destruct (Hx b a p). Qed.
Definition grows (s s' : Nearby) : Prop :=
  parts (out s) (out s') ∧ endpoints s' = endpoints s ∧ frame s' = frame s ∧ seenRequests s' = seenRequests s.
#[local] Instance grows_trans : Transitive grows.
Proof. intros a b c (?&?&?&?) (?&?&?&?). split_and!; [by etransitivity|congruence..]. Qed.
Lemma grows_same s : grows s s.
Proof. split_and!; [apply parts_same|done..]. Qed.
Lemma grows_send packet a p s : toStr packet.["op"] ∈ [u "decline"; u "cancel"] → grows s (send packet a p s).
Proof.
  intros H. unfold send. cbv zeta. destruct (_ <=? _); [|apply grows_same]. split_and!; [|done..].
  exists [Sent (json packet) a p]. split; [done|]. apply Forall_singleton. intros b a' p' [= <- _ _]. by exists packet.
Qed.
Lemma reply_op now s p : (reply now s p "decline").["op"] = JS "decline".
Proof. unfold Nearby.reply. cbv zeta. destruct (bool_decide _); [rewrite sign_value by done|]; by jsimp. Qed.
Lemma grows_decline now s : grows s (decline now s).
Proof.
  unfold Nearby.decline. cbv zeta. destruct (endpoint _ _ _ _ _) as [e|]; [|split_and!; [by apply parts_told; repeat constructor|done..]].
  assert (toStr (reply now s (incoming s) "decline").["op"] ∈ [u "decline"; u "cancel"]) as Ho by (rewrite reply_op; left).
  destruct (grows_send _ (address e) (port e) s Ho) as (H1 & H2 & H3 & H4). unfold sendTo. revert H1 H2 H3 H4.
  generalize (send (reply now s (incoming s) "decline") (address e) (port e) s). intros x H1 H2 H3 H4.
  split_and!; [|done..]. etransitivity; [exact H1|]. by apply parts_told; repeat constructor.
Qed.
Lemma grows_cancel now s : grows s (cancel now s).
Proof.
  unfold Nearby.cancel. cbv zeta. etransitivity; [apply (grows_decline now)|]. set (s1 := decline now s). clearbody s1.
  match goal with |- grows _ (complete ?x) => assert (grows s1 x) as G; [|generalize dependent x] end.
  { destruct (endpoint _ _ _ _ _); [|apply grows_same]. apply grows_send. right.
    destruct (bool_decide _); [rewrite sign_value by done|]; jsimp; left. }
  intros x (H1 & H2 & H3 & H4). split_and!; [|exact H2|exact H3|exact H4]. etransitivity; [exact H1|]. by apply parts_told; repeat constructor.
Qed.
(** What discovery finds is in the table. *)
Lemma found_inserts now svc r a p s : active s = true → qsize svc ≤ 512 → validRecord r = true → p ≠ 0 → localAddress a = true →
  r.["scope"] = (m_record s).["scope"] → r.["id"] ≠ (m_record s).["id"] → (base.size (endpoints s) < 128)%nat →
  endpoints (found now svc r a p true s) !! (svc ++ u "/" ++ a) = Some (mkEndpoint svc r a p now)
  ∧ parts (out s) (out (found now svc r a p true s)) ∧ frame (found now svc r a p true s) = frame s
  ∧ seenRequests (found now svc r a p true s) = seenRequests s.
Proof.
  intros Hb Hq Hv Hp Hl Hs Hi Hn. unfold Nearby.found. rewrite Hb, Hv, Hl, (bool_decide_true _ Hs), (bool_decide_false _ Hi).
  destruct (Z.ltb_spec 512 (qsize svc)); [lia|]. destruct (Z.eqb_spec p 0); [lia|]. cbn [negb orb andb]. cbv zeta.
  set (kept := base.filter _ _). assert (base.size kept ≤ base.size (endpoints s))%nat as Hk.
  { apply map_subseteq_size, map_filter_subseteq. }
  destruct (Nat.leb_spec 128 (base.size kept)); [lia|]. rewrite andb_false_r. cbv iota.
  match goal with |- context [cancel now ?x] => set (s1 := x) end.
  assert (endpoints s1 !! (svc ++ u "/" ++ a) = Some (mkEndpoint svc r a p now) ∧ out s1 = out s ∧ frame s1 = frame s ∧ seenRequests s1 = seenRequests s)
    as (E1 & E2 & E3 & E4) by (split; [apply lookup_insert_eq|done]).
  clearbody s1 kept. destruct (_ && _).
  - destruct (grows_cancel now s1) as (G1 & G2 & G3 & G4). split_and!.
    + change (endpoints (cancel now s1) !! (svc ++ u "/" ++ a) = Some (mkEndpoint svc r a p now)). congruence.
    + rewrite <- E2. etransitivity; [exact G1|].
      change (parts (out (cancel now s1)) ((out (cancel now s1) ++ [InvitationEnded "The other device restarted. Reconnecting."]) ++ [Changed])).
      rewrite <- app_assoc. by apply parts_told; repeat constructor.
    + change (frame (cancel now s1) = frame s). congruence.
    + change (seenRequests (cancel now s1) = seenRequests s). congruence.
  - split_and!; [exact E1| |exact E3|exact E4]. rewrite <- E2. by apply parts_told; repeat constructor.
Qed.
Lemma verify_frame now s s' p : frame s' = frame s → verify now s' p = verify now s p.
Proof. intros [= Hc Hm Hb]. unfold Nearby.verify, Nearby.authenticated, active. by rewrite Hc, Hm, Hb. Qed.
Lemma endpoint_found now s key svc r addr p id : endpoints s !! key = Some (mkEndpoint svc r addr p now) → r.["id"] = JStr id →
  is_Some (endpoint now s id addr p).
Proof.
  intros Hk Hid. unfold Nearby.endpoint. destruct (find _ _) as [e|] eqn:E; [by eexists|]. exfalso.
  eapply find_none in E; [|apply list_elem_of_In; rewrite iterates; by apply elem_of_map_to_list].
  cbn in E. rewrite Hid, !bool_decide_true, Z.sub_diag, Z.eqb_refl, orb_true_r in E by done. cbn in E. by rewrite orb_true_r in E.
Qed.

(** Two devices of the account, the second of which is its host. *)
Record acquainted (c h : Nearby) : Prop := {
  aq_credentials : credentials c = credentials h;
  aq_scope : (m_record c).["scope"] = (m_record h).["scope"];
  aq_ids : deviceId c ≠ deviceId h;
  aq_valid : validRecord (m_record c) = true ∧ validRecord (m_record h) = true;
  aq_client : (m_record c).["host"] = JS "0" ∧ (m_record c).["primary"] = JStr (deviceId h);
  aq_host : (m_record h).["host"] = JS "1" ∧ (m_record h).["autoHost"] = JS "1" ∧ (m_record h).["primary"] = JStr (deviceId h)
}.
(** The device is due to ask for its host at an address that it remembers. *)
Record due (t : Z) (c : Nearby) (host addr : QString) (p : Z) : Prop := {
  du_host : resumeHost c = host;
  du_time : resumeAt c ≤ t;
  du_route : ∃ v, v ∈ resumeRoutes c ∧ routeAddress hostAddress v = addr ∧ routePort v = p;
  du_nonce : token (nonce (nonces c)) = true
}.
Lemma valid_id r : validRecord r = true → r.["id"] = JStr (toStr r.["id"]) ∧ qsize (toStr r.["id"]) ≤ 128.
Proof.
  unfold Nearby.validRecord. intros H. cbv zeta in H. bool_hyps. split; [by apply token_str|].
  match goal with K : token (toStr r.["id"]) = true |- _ => unfold token in K; bool_hyps; done end.
Qed.
Lemma client_asks t c addr p : authenticated t c = true → due t c (primaryHost c) addr p → 0 < p < 65536 →
  let packet := resumePacket t (asking nonce t c) in Z.of_nat (List.length (json packet)) ≤ 4096 →
  ∃ o, sendResume t c = { (asking nonce t c) with out := o } ∧ Sent (json packet) addr p ∈ o.
Proof.
  intros Ha [Hh Ht (v & Hv & Hva & Hvp) _] Hp packet Hl. unfold Nearby.sendResume. rewrite Ha, bool_decide_true by done.
  destruct (Z.ltb_spec t (resumeAt c)); [lia|]. destruct (resumeRoutes c) as [|w l] eqn:El; [by apply not_elem_of_nil in Hv|]. cbn [negb orb Nat.eqb List.length].
  cbv zeta. fold packet. change (resumeRoutes (asking nonce t c)) with (resumeRoutes c). rewrite El, sends_sent by done.
  eexists. split; [reflexivity|]. apply elem_of_app. right. apply list_elem_of_fmap. exists v. split; [|done]. rewrite Hva, Hvp, Z.mod_small by lia. done.
Qed.
Section resuming.
Variables (c h : Nearby) (t1 t2 t3 tc tr : Z) (ac ah : QString) (pc ph : Z).
Hypothesis same_account : acquainted c h.
Hypothesis is_due : due t1 c (deviceId h) ah ph.
Hypotheses (signed1 : authenticated t1 c = true) (signed2 : authenticated t2 h = true) (signed3 : authenticated t3 c = true).
Hypotheses (advertised1 : advertised tc c) (advertised2 : advertised tr h).
Hypotheses (epoch12 : epochOf t1 = epochOf t2) (epoch23 : epochOf t2 = epochOf t3) (epochc : epochOf tc = epochOf t1) (epochr : epochOf tr = epochOf t2).
Hypotheses (range1 : 0 ≤ t1 ≤ 2^61) (range2 : 0 ≤ t2 ≤ 2^61) (rangec : 0 ≤ tc ≤ 2^61) (ranger : 0 ≤ tr ≤ 2^61).
Hypotheses (intime2 : t1 - 1000 ≤ t2 < t1 + 5000) (intime3 : t1 ≤ t3 < t1 + 5000).
Hypotheses (places : localAddress ac = true ∧ 0 < pc ∧ localAddress ah = true ∧ 0 < ph < 65536).
Hypotheses (unseen : seenRequests h !! nonce (nonces c) = None ∧ (base.size (seenRequests h) < 128)%nat).
Hypotheses (room : (base.size (endpoints c) < 128)%nat ∧ (base.size (endpoints h) < 128)%nat).
Notation P := (resumePacket t1 (asking nonce t1 c)).
Notation R := (readyPacket t2 h P).
Hypotheses (smallP : Z.of_nat (List.length (json P)) ≤ 4096) (readP : fromJson (json P) = P).
Hypotheses (smallR : Z.of_nat (List.length (json R)) ≤ 4096) (readR : fromJson (json R) = R).
Lemma record_members : (toObj P.["record"]) = m_record c ∧ toStr P.["request"] = nonce (nonces c) ∧ P.["expires"] = jnum (t1 + 5000) ∧ expires P = t1 + 5000.
Proof.
  unfold Nearby.resumePacket, expires. rewrite !sign_value by done. jsimp. split_and!; try done.
  change (resumeDeadline (asking nonce t1 c)) with (t1 + 5000). unfold jlong, toLongLong0, jnum. cbn [toStr].
  rewrite toLongLong_numberStr by (unfold int64_min, int64_max; lia). done.
Qed.
Lemma verify_P : verify t2 h P = true ∧ verify t2 h (m_record c) = true.
Proof.
  destruct same_account as [Hc _ _ _ _ _]. split.
  - unfold Nearby.resumePacket. apply sign_verifies; try done. lia.
  - eapply (advertised_verifies tc); [done..|congruence|lia].
Qed.
(** A packet of a resumption is for no other handler. *)
Lemma receive_resume now p a prt s s' : Z.of_nat (List.length (json p)) ≤ 4096 → fromJson (json p) = p → localAddress a = true →
  receiveResume now p a prt s = (true, s') → receiveDatagram now (json p) a prt s = s'.
Proof.
  intros Hl Hp Ha E. unfold Nearby.receiveDatagram. rewrite Ha. destruct (Z.ltb_spec 4096 (Z.of_nat (List.length (json p)))); [lia|].
  cbn [orb negb]. cbv zeta. by rewrite Hp, E.
Qed.
Lemma host_hears : let s := { h with seenRequests := <[nonce (nonces c) := t1 + 5000]> (seenRequests h); out := out h ++ [Sent (json R) ac pc] } in
  receiveDatagram t2 (json P) ac pc h = found t2 (u "resume:" ++ deviceId c) (m_record c) ac pc true s.
Proof.
  cbv zeta. apply receive_resume; [done..|apply places|]. destruct same_account as [Hc Hs Hi [Vc Vh] [Hch Hcp] (Hhh & Hha & Hhp)]. destruct is_due as [Dh Dt Dr Dn].
  destruct record_members as (ER & EQ & EX & EZ). destruct verify_P as [VP VR]. destruct places as (La & Lp & Lh & Lq). destruct unseen as [U1 U2].
  destruct (valid_id _ Vc) as [Ic _]. unfold Nearby.receiveResume. cbv zeta. rewrite ER, EQ, EZ, VP, VR, Vc, Dn.
  assert (toStr P.["op"] = u "resume" ∧ P.["v"] = JS "1" ∧ P.["to"] = JStr (deviceId h) ∧ P.["scope"] = (m_record h).["scope"]
    ∧ (m_record c).["id"] = P.["from"]) as (-> & -> & -> & -> & ->).
  { unfold Nearby.resumePacket. rewrite !sign_value by done. jsimp. cbn [toStr].
    change (resumeHost (asking nonce t1 c)) with (resumeHost c). rewrite Dh. done. }
  rewrite Hs.
  replace (automaticHostAvailable h) with true by (unfold automaticHostAvailable, desktop; by rewrite Hhh, Hha).
  unfold primaryHost. rewrite Hhp, Hcp, Hch. cbn [toStr]. rewrite U1.
  assert (P.["from"] = JStr (deviceId c)) as -> by (unfold Nearby.resumePacket; rewrite !sign_value by done; by jsimp).
  destruct (Z.leb_spec (t1 + 5000) t2); [lia|]. destruct (Z.ltb_spec (t2 + 6000) (t1 + 5000)); [lia|].
  rewrite (bool_decide_false (JStr (deviceId c) = JStr (deviceId h))) by congruence.
  destruct (Nat.leb_spec 128 (base.size (seenRequests h))); [lia|].
  rewrite (bool_decide_false (is_Some None)) by (by intros []). rewrite (bool_decide_true (u "resume" = u "resume")) by done.
  cbn [negb andb]. cbv iota. rewrite !bool_decide_true by done. cbn [negb orb andb].
  rewrite send_sent by done. cbn [toStr]. done.
Qed.
Lemma client_hears o : let s := { (asking nonce t1 c) with out := o } in
  receiveDatagram t3 (json R) ah ph s = found t3 (u "resume:" ++ deviceId h) (m_record h) ah ph true { s with resumeChallenge := [] }.
Proof.
  cbv zeta. set (s := { (asking nonce t1 c) with out := o }). apply receive_resume; [done..|apply places|].
  destruct same_account as [Hc Hs Hi [Vc Vh] [Hch Hcp] (Hhh & Hha & Hhp)]. destruct is_due as [Dh Dt Dr Dn].
  destruct record_members as (ER & EQ & EX & EZ). destruct (valid_id _ Vh) as [Ih _]. destruct (valid_id _ Vc) as [Ic _].
  assert (verify t3 s R = true) as VP.
  { rewrite (verify_frame _ c s) by done. unfold Nearby.readyPacket. apply sign_verifies; try done. lia. }
  assert (verify t3 s (m_record h) = true) as VR.
  { rewrite (verify_frame _ c s) by done. eapply (advertised_verifies tr); [done..| |lia]. congruence. }
  unfold Nearby.receiveResume. cbv zeta.
  assert (toStr R.["op"] = u "resume-ready" ∧ R.["v"] = JS "1" ∧ R.["to"] = JStr (deviceId c) ∧ R.["scope"] = (m_record h).["scope"]
    ∧ R.["from"] = JStr (deviceId h) ∧ toStr R.["request"] = nonce (nonces c) ∧ R.["record"] = JObj (m_record h) ∧ expires R = t1 + 5000)
    as (-> & -> & -> & -> & -> & -> & -> & ->).
  { unfold expires in *. unfold Nearby.readyPacket. rewrite !sign_value by done. jsimp. rewrite ER, EQ, EX. rewrite EX in EZ. by split_and!. }
  cbn [toObj]. rewrite VP, VR, Vh, Dn.
  change (m_record s) with (m_record c). change (deviceId s) with (deviceId c). change (desktop s) with (desktop c).
  change (resumeHost s) with (resumeHost c). change (resumeChallenge s) with (nonce (nonces c)). change (resumeDeadline s) with (t1 + 5000).
  change (resumeRoutes s) with (resumeRoutes c). rewrite Hs, Dh, Hha, Hhp, Ih. fold (deviceId h).
  replace (desktop c) with false by (unfold desktop; by rewrite Hch).
  rewrite (bool_decide_false (JStr (deviceId h) = JStr (deviceId c))) by congruence.
  destruct (Z.leb_spec (t1 + 5000) t3); [lia|]. destruct (Z.ltb_spec (t3 + 6000) (t1 + 5000)); [lia|].
  rewrite (bool_decide_false (u "resume-ready" = u "resume")) by by_compute.
  assert (existsb (λ v, bool_decide (routeAddress hostAddress v = ah) && (routePort v =? ph)) (resumeRoutes c) = true) as ->.
  { destruct Dr as (v & Hv & Hva & Hvp). apply existsb_exists. exists v. split; [by apply list_elem_of_In|].
    by rewrite bool_decide_true, Hvp, Z.eqb_refl. }
  rewrite !bool_decide_true by done. by cbn [negb orb andb toStr].
Qed.
(** What each then has of the other: an endpoint at its address, seen now, with a record
    that is verified. *)
Definition reached (now : Z) (s : Nearby) (r : jobj) (a : QString) (p : Z) : Prop :=
  endpoints s !! (u "resume:" ++ toStr r.["id"] ++ u "/" ++ a) = Some (mkEndpoint (u "resume:" ++ toStr r.["id"]) r a p now)
  ∧ verify now s r = true ∧ is_Some (endpoint now s (toStr r.["id"]) a p).
Lemma found_reached now r a p s s0 : active s = true → validRecord r = true → 0 < p → localAddress a = true →
  r.["scope"] = (m_record s).["scope"] → r.["id"] ≠ (m_record s).["id"] → (base.size (endpoints s) < 128)%nat →
  frame s = frame s0 → verify now s0 r = true →
  reached now (found now (u "resume:" ++ toStr r.["id"]) r a p true s) r a p
  ∧ parts (out s) (out (found now (u "resume:" ++ toStr r.["id"]) r a p true s))
  ∧ seenRequests (found now (u "resume:" ++ toStr r.["id"]) r a p true s) = seenRequests s.
Proof.
  intros Hb Hv Hp Ha Hs Hi Hn Hf Hr. destruct (valid_id _ Hv) as [Hid Hq].
  destruct (found_inserts now (u "resume:" ++ toStr r.["id"]) r a p s) as (H1 & H2 & H3 & H4); try done; [|lia|].
  { unfold qsize in *. rewrite length_app. change (List.length (u "resume:")) with 7%nat. lia. }
  split; [|done]. rewrite <- app_assoc in H1. split_and!; [exact H1| |by eapply endpoint_found].
  rewrite (verify_frame _ s0); [done|]. by rewrite H3.
Qed.
Lemma authenticated_active now s : authenticated now s = true → active s = true.
Proof. unfold Nearby.authenticated. intros H. by bool_hyps. Qed.
(** A request that is remembered, or whose time is over, is not answered again. *)
Lemma replay_ignored t a p s : is_Some (seenRequests s !! nonce (nonces c)) ∨ t1 + 5000 ≤ t → receiveDatagram t (json P) a p s = s.
Proof.
  intros Hs. unfold Nearby.receiveDatagram. destruct (_ || _); [done|]. cbv zeta. rewrite readP.
  destruct record_members as (_ & EQ & _ & EZ). unfold Nearby.receiveResume. cbv zeta. rewrite EQ, EZ.
  assert (toStr P.["op"] = u "resume") as -> by (unfold Nearby.resumePacket; rewrite !sign_value by done; by jsimp).
  rewrite (bool_decide_true (u "resume" = u "resume")) by done. cbn [negb andb].
  destruct Hs as [Hs|Hs].
  - rewrite (bool_decide_true _ Hs), orb_true_r. cbn [orb].
    match goal with |- (let '(_, _) := if ?b then _ else _ in _) = _ => by destruct b end.
  - match goal with |- (let '(_, _) := if ?b then _ else _ in _) = _ => destruct b eqn:E; [done|] end. bool_hyps. lia.
Qed.
(** C12: A device finds its host again without discovery.  A device of the account that
    is due to ask the host it knows, at an address that it remembers, sends a signed
    packet there; the host hears it while the packet is valid by its own clock (which
    is at most a second behind the device's, so within five seconds), in the same
    epoch; it answers with its own record, sends no other answer (nothing more than
    packets that end an invitation of a process that is gone), knows the device from
    then on, and keeps the request: the same packet, from whatever address, changes
    nothing as long as the request is kept or after it has expired; and the device that
    hears the answer in time has the host among its endpoints, verified, at that
    address.  Assumed: both have the same credentials and have advertised themselves in
    this epoch; the host does not yet know the request; its table of requests and both
    tables of endpoints hold fewer than 128 entries, as a full one takes nothing new;
    and the JSON text of each packet fits a datagram and reads back. *)
Theorem resume_reconnects :
  let c1 := sendResume t1 c in
  let h1 := receiveDatagram t2 (json P) ac pc h in
  let c2 := receiveDatagram t3 (json R) ah ph c1 in
  Sent (json P) ah ph ∈ out c1
  ∧ (∃ k, out h1 = out h ++ Sent (json R) ac pc :: k ∧ Forall parting k)
  ∧ seenRequests h1 = <[nonce (nonces c) := t1 + 5000]> (seenRequests h)
  ∧ (∀ t a p h', is_Some (seenRequests h' !! nonce (nonces c)) ∨ t1 + 5000 ≤ t → receiveDatagram t (json P) a p h' = h')
  ∧ reached t2 h1 (m_record c) ac pc ∧ reached t3 c2 (m_record h) ah ph.
Proof.
  cbv zeta. destruct same_account as [Hc Hs Hi [Vc Vh] [Hch Hcp] (Hhh & Hha & Hhp)]. destruct places as (La & Lp & Lh & Lq). destruct room as [Rc Rh].
  destruct (client_asks t1 c ah ph) as (o & -> & Ho); [done|unfold primaryHost; rewrite Hcp; exact is_due|done|done|].
  rewrite host_hears, client_hears. assert ((m_record c).["id"] ≠ (m_record h).["id"]) as Hid by (intros E; apply Hi; unfold deviceId; by rewrite E).
  destruct (found_reached t2 (m_record c) ac pc { h with seenRequests := <[nonce (nonces c) := t1 + 5000]> (seenRequests h); out := out h ++ [Sent (json R) ac pc] } h)
    as (H1 & (k & Hk & Hp) & Hq); try done; [by apply (authenticated_active t2)|apply verify_P|].
  destruct (found_reached t3 (m_record h) ah ph { { (asking nonce t1 c) with out := o } with resumeChallenge := [] } c)
    as (H3 & _); try done; [by apply (authenticated_active t3)|lia| |].
  { eapply (advertised_verifies tr); [done..| |lia]. congruence. }
  split_and!; [exact Ho| |exact Hq|exact replay_ignored|exact H1|exact H3].
  exists k. split; [|exact Hp]. unfold deviceId in *. rewrite Hk.
  change ((out h ++ [Sent (json R) ac pc]) ++ k = out h ++ Sent (json R) ac pc :: k). by rewrite <- app_assoc.
Qed.
End resuming.
End nearby.

(** ** Two devices of an account, and an invitation *)
Module Examples.
Definition lan (a : QString) : bool := startsWith a (u "192.168.").
Definition draw (n : nat) : QString := u "n" ++ replicate (S n) 48%N.
Definition scope : QString := Credentials.demoSeed 97.
Definition clock : Z := 1728086400000.
Definition firstOf (m : gmap QString Z) : option QString := fst <$> head (map_to_list m).
Definition noJson (_ : list N) : jobj := ∅.
Definition place : QString := u "192.168.0.7".
Definition here : QString := u "192.168.0.8".
Notation demoHistory := (Nearby.history (PF := Demo.platform) toLongLong Credentials.demoDays Credentials.demoHmac draw noJson lan (λ _, false) (λ a, a) false
  (λ _, None) (λ _, []) map_to_list firstOf start).
Definition phone : Nearby := Eval vm_compute in demoHistory
  [(clock, SetIdentity scope (u "phone1") (u "Phone") (u "phone") false (inl 5000));
   (clock, SetCredentials Credentials.demoProof false (u "pc1"));
   (clock, Resume (u "pc1") [route place 6000])].
Definition desk : Nearby := Eval vm_compute in demoHistory
  [(clock, SetIdentity scope (u "pc1") (u "Desk") (u "pc") true (inl 6000));
   (clock, SetCredentials Credentials.demoProof true (u "pc1"))].
Notation packetOf := (resumePacket (PF := Demo.platform) toLongLong Credentials.demoDays Credentials.demoHmac (clock + 5000) (asking draw (clock + 5000) phone)).
Definition ask : jobj := Eval vm_compute in packetOf.
Definition answer : jobj := Eval vm_compute in readyPacket (PF := Demo.platform) toLongLong Credentials.demoDays Credentials.demoHmac (clock + 6000) desk packetOf.
Definition reads (data : list N) : jobj := if (List.length data =? List.length (Demo.toJson ask))%nat then ask else answer.
Lemma demo_digest k m : List.length (Credentials.demoHmac k m) = 32%nat ∧ Forall (λ c, (c < 256)%N) (Credentials.demoHmac k m).
Proof. split; [done|apply (sha256_bytes (PlatformLaws := Demo.platform_laws))]. Qed.
Lemma resume_reconnects_witness :
  let c2 := receiveDatagram (PF := Demo.platform) toLongLong Credentials.demoDays Credentials.demoHmac reads lan (λ _, false) (λ a, a) false
    (λ _, None) (λ _, []) map_to_list firstOf (clock + 7000) (Demo.toJson answer) place 6000
    (sendResume (PF := Demo.platform) toLongLong Credentials.demoDays Credentials.demoHmac draw (λ a, a) (clock + 5000) phone) in
  reached (PF := Demo.platform) toLongLong Credentials.demoDays Credentials.demoHmac map_to_list (clock + 7000) c2 (m_record desk) place 6000.
Proof.
  destruct (resume_reconnects (PF := Demo.platform) toLongLong Credentials.demoDays Credentials.demoHmac draw reads lan (λ _, false) (λ a, a) false
    (λ _, None) (λ _, []) map_to_list firstOf (λ m, reflexivity _) demo_digest phone desk (clock + 5000) (clock + 6000) (clock + 7000) clock clock here place 5000 6000)
    as (_ & _ & _ & _ & _ & H); [..|exact H].
  - split; [vm_compute; exact eq_refl|vm_compute; exact eq_refl|by vm_compute|split; vm_compute; exact eq_refl|split; vm_compute; exact eq_refl
           |split_and!; vm_compute; exact eq_refl].
  - split; [by vm_compute|by vm_compute| |by vm_compute]. exists (route place 6000). split_and!; [|by vm_compute..].
    assert (resumeRoutes phone = [route place 6000]) as -> by (vm_compute; reflexivity). by left.
  - by vm_compute.
  - by vm_compute.
  - by vm_compute.
  - exists phone, (jremove (jremove (m_record phone) "epoch") "proof"). split_and!; vm_compute; exact eq_refl.
  - exists desk, (jremove (jremove (m_record desk) "epoch") "proof"). split_and!; vm_compute; exact eq_refl.
  - done.
  - done.
  - done.
  - done.
  - done.
  - done.
  - done.
  - done.
  - done.
  - done.
  - split_and!; by vm_compute.
  - split; [by vm_compute|vm_compute; lia].
  - split; vm_compute; lia.
  - by vm_compute.
  - vm_compute; exact eq_refl.
  - by vm_compute.
  - vm_compute; exact eq_refl.
Defined.
(** The desk's record is found, and its invitation comes a second later. *)
Definition deskRecord : jobj :=
  obj [("v", JS "1"); ("scope", JStr scope); ("id", JS "pc1"); ("name", JS "Desk"); ("kind", JS "pc"); ("host", JS "1"); ("nonce", JS "n0")]%string.
Definition letter (_ : list N) : jobj :=
  obj [("v", JS "1"); ("op", JS "invite"); ("scope", JStr scope); ("from", JS "pc1"); ("to", JS "phone1"); ("nonce", JStr (draw 0));
       ("request", JS "r1"); ("link", JS "L")]%string.
Definition decodeLink (_ : QString) : option LanLink := Some (mkLink (u "pc1") [u "10.0.0.1"; place] (clock + 60000) []).
Definition encodeLink (k : LanLink) : QString := hostId k ++ u "@" ++ concat (addresses k).
Definition story : list (Z * Event) :=
  [(clock, SetIdentity scope (u "phone1") (u "Phone") (u "phone") false (inl 5000)); (clock, Found (u "pc") deskRecord place 6000);
   (clock + 1000, Datagram [] place 6000)].
Definition invited : Nearby := Nearby.history (PF := Demo.platform) toLongLong Credentials.demoDays Credentials.demoHmac draw letter lan (λ _, false) (λ a, a) false
  decodeLink encodeLink map_to_list firstOf start story.
Notation taken := (Nearby.accept (PF := Demo.platform) toLongLong Credentials.demoDays Credentials.demoHmac map_to_list (clock + 2000) invited).
Lemma invitation_vetted_witness : ∃ k addr, taken.1 = encodeLink { k with addresses := [addr] } ∧ clock + 2000 < expiresAt k.
Proof.
  destruct (invitation_vetted (PF := Demo.platform) toLongLong Credentials.demoDays Credentials.demoHmac draw letter lan (λ _, false) (λ a, a) false
    decodeLink encodeLink map_to_list firstOf (λ m, reflexivity _) eq_refl story (clock + 2000) taken.1 taken.2)
    as (_ & _ & _ & addr & _ & _ & _ & _ & _ & k & _ & _ & H & [H1 _]).
  - by repeat constructor.
  - exact (surjective_pairing taken).
  - by vm_compute.
  - exists k, addr. split; [exact H|exact H1].
Defined.
End Examples.
End NearbyFacts.
