(* ===== verification/Client.v ===== *)
(** The storage service of an application, src/Client/Client.cpp: requests to the drive of
    the account's host, the inspection of a file, the mirror of the host's catalog, and
    the session with the host. *)
From S2P Require Import Prelude Qt Records Base64.
From coqutil Require Import Datatypes.RecordSetters.
Import OCamlLikeNotations.
Open Scope Z_scope.

Module Client.
Import Records Base64.
(** ** What it keeps *)
(** A request that is out: [completion] is the function that gets its result; without one
    the result is for the application. The inspection and the snapshot that the functions
    refer to are named by the identifier and by the number they were made with. *)
Inductive Completion := Inspecting (id : QString) | Describing (k : nat) | Cataloguing (k : nat).
Record DriveRequest := mkRequest { envelope : jobj; completion : option Completion; transport : QString; pollDelay : Z }.
Record Inspection := mkInspection { path : QString; version : QString; token : QString; bytes : list N; size : Z }.
Record Snapshot := mkSnapshot { aliases : list jobj; shotSections : list jobj; keys : gset QString; revision : QString; cursor : QString }.
(** The arguments of the last Container::synchronize. *)
Record Mirror := mkMirror { mirrorId : QString; mirrorRoot : QString; rows : list jobj; available : bool; mirrorError : QString }.
(** The single shots of QTimer that are armed. *)
Inductive Timer := Transmit (id : QString) | Timeout (id : QString) | Inspect (id : QString) | InspectTimeout (id : QString)
  | Refresh | HostTimeout (id : QString).
Inductive Signal :=
| HostDriveResponse (id : QString) (result : jobj) | HostResponse (id : QString) (result : jobj) | Changed | Synchronized
| Sent (relayed : bool) (peer : QString) (payload : jobj)
| SyncReceive (id : QString) (result : jobj) | SyncOpen (container scope : QString) | SyncHostAccess (container scope : QString)
| SyncPeers (peers candidates : list QString) (host container : QString) | SyncClose | SyncNow
| NearbyClear | NearbyComplete | NearbyIdentity (scope id name kind : QString) | NearbyCredentials (primary : QString)
| NearbyResume (host : QString) (routes : list jval)
| PairingEnabled (enabled : bool) | RequestCredentials | RememberHost (host container : QString)
| LanStop | RelayStop | RelayStart (url peer name : QString) (credential : list N).
Record Client := mkClient {
  hasAccount : bool; hasNearby : bool; lease : bool;
  active : bool; online : bool; direct : bool; local : bool; refreshAgain : bool;
  container : QString; message : QString; registeredHost : QString; registeredContainer : QString;
  binding : jobj;
  server : QString; credential : list N;
  hostRequests : gset QString;
  driveRequests : gmap QString DriveRequest;
  driveTransports : gmap QString QString;
  inspections : gmap QString Inspection;
  snapshot : option (nat * Snapshot);
  sections : list jobj;
  mirror : Mirror;
  uuids : nat; snapshots : nat;
  timers : list Timer;
  out : list Signal
}.
Definition start (account : bool) : Client :=
  mkClient account false false false false false false false [] [] [] [] ∅ [] [] ∅ ∅ ∅ ∅ None [] (mkMirror [] [] [] false []) O O [] [].
(** What the other objects answer while a step runs: the account, the peers, the
    synchronization, the disk. [nextId] is the identifier that a transport gives to a
    request, empty when it refuses; [handled] the answer of Sync::Controller::handle. *)
Record View := mkView {
  signedIn : bool; storageScope : QString; driveHost : QString; driveContainer : QString;
  deviceId : QString; deviceName : QString; deviceType : QString; machineName : QString;
  pairingValid : bool; automaticPairing : bool; savedRoutes : list jval; relayCredential : list N;
  configured : QString; configuredValid : bool;
  lanConnected : bool; lanPaired : list QString; lanError : QString;
  relayReady : bool; relayPeers : list QString; relayError : QString;
  nearbyAuthenticated : bool; pairingStatus : QString;
  syncAvailable : bool; syncError : QString; handled : jobj; nextId : QString;
  locks : bool; opened : option QString; replicaBinding : jobj; hostDrive : option QString
}.
Definition driveError (e : QString) : jobj := obj [("ok", JBool false); ("error", JStr e)]%string.
Definition emit (x : Signal) (s : Client) : Client := { s with out := out s ++ [x] }.
Definition arm (t : Timer) (s : Client) : Client := { s with timers := timers s ++ [t] }.
Definition say (m : QString) (s : Client) : Client := emit Changed { s with message := m }.

Section client.
Context {PF : Platform}.
(** Replica::ChunkBytes, SharedStorage::maximumFileInformationBytes,
    Presentation::isControlFile, storeSectionName, QString::toLower, the text of a
    society URL with this path, QUuid::createUuid, QJsonDocument::fromJson. *)
Variables (ChunkBytes maximumFileInformationBytes : Z) (isControlFile : QString → bool) (sectionName toLower societyUrl : QString → QString).
Variables (uuid : nat → QString) (fromJson : list N → option jobj).
(** The identity of this object among the applications of the device. *)
Variable directPeerId : QString.
(** The order of a QHash. *)
Variables (iterateRequests : gmap QString DriveRequest → list (QString * DriveRequest))
          (iterateInspections : gmap QString Inspection → list (QString * Inspection)).

Definition drivePath (path : QString) (root : bool) : bool :=
  if isEmpty path then root else
  if (3500 <? qsize path) || negb (isValidUtf16 path) || containsChar 92 path || containsChar 58 path || containsChar 0 path then false else
  forallb (λ part, negb (isEmpty part || bool_decide (part = u ".") || bool_decide (part = u "..") || (220 <? utf8Size part)
                         || startsWith part (u ".society-") || startsWith part (u ".iiwebserver-") || isControlFile part)) (qsplit slash path)
  && bool_decide (sectionFirst slash path ∈ Records.sections.*1).
Definition inSection (path : QString) : bool := drivePath path false && containsChar slash path.

Section view.
Variable V : View.
Definition accountHost (s : Client) : QString := if hasAccount s && signedIn V then driveHost V else [].
Definition accountContainer (s : Client) : QString := if hasAccount s && signedIn V then driveContainer V else [].
Definition connected (s : Client) : bool :=
  active s && online s && hasAccount s && signedIn V && bool_decide (registeredHost s = accountHost s)
  && bool_decide (registeredContainer s = accountContainer s) && bool_decide (toStr (binding s).["scope"] = storageScope V).
Definition synchronize (id root : QString) (l : list jobj) (ok : bool) (e : QString) (s : Client) : Client :=
  { s with mirror := mkMirror id root l ok e }.

(** ** Requests to the drive *)
Definition requestDrive (m : jobj) (f : option Completion) (s : Client) : QString * Client :=
  if negb (connected s) || (16 <=? base.size (driveRequests s))%nat then ([], s) else
  let id := uuid (uuids s) in
  let r := mkRequest (obj [("op", JS "society.sync"); ("protocol", JNum 2); ("namespaceVersion", JNum 1); ("scope", JStr (storageScope V));
                           ("token", JStr (uuid (S (uuids s)))); ("message", JObj (jinsert m "container" (JStr (accountContainer s))))]%string)
                     f [] 10 in
  (id, arm (Timeout id) (arm (Transmit id) { s with uuids := S (S (uuids s)); driveRequests := <[id := r]> (driveRequests s) })).
Definition clearDrive (e : QString) (s : Client) : Client :=
  let pending := iterateRequests (driveRequests s) in
  let cancelled := iterateInspections (inspections s) in
  let s := synchronize [] [] [] false e
    { s with snapshot := None; refreshAgain := false; sections := []; driveRequests := ∅; driveTransports := ∅; inspections := ∅ } in
  let s := foldl (λ s r, match completion r.2 with None => emit (HostDriveResponse r.1 (driveError e)) s | Some _ => s end) s pending in
  foldl (λ s i, emit (HostDriveResponse i.1 (driveError e)) s) s cancelled.

(** *** The inspection of a file *)
Definition finishInspection (id : QString) (result : jobj) (s : Client) : Client :=
  match inspections s !! id with
  | None => s
  | Some _ => emit (HostDriveResponse id result) { s with inspections := delete id (inspections s) }
  end.
Definition inspectPage (id : QString) (s : Client) : Client :=
  match inspections s !! id with
  | None => s
  | Some i =>
      let m := obj [("action", JS "drive.inspect"); ("path", JStr (path i)); ("offset", jnum (Z.of_nat (List.length (bytes i))))]%string in
      let m := if isEmpty (version i) then m else jinsert (jinsert m "version" (JStr (version i))) "informationVersion" (JStr (token i)) in
      let '(request, s) := requestDrive m (Some (Inspecting id)) s in
      if isEmpty request then finishInspection id (driveError (u "host_request_capacity")) s else s
  end.
(** The bytes of a page, when it is the next of the document. *)
Definition informationChunk (i : Inspection) (result : jobj) : option (list N * Z) :=
  let encoded := toStr result.["data"] in
  if negb (isString result.["data"]) || ((ChunkBytes + 2) / 3 * 4 <? qsize encoded) then None else
  match toLongLong (toStr result.["offset"]), toLongLong (toStr result.["size"]), fromBase64 encoded with
  | Some offset, Some size_, Some decoded =>
      let n := Z.of_nat (List.length decoded) in
      let t := toStr result.["informationVersion"] in
      let v := toStr result.["version"] in
      if negb (offset =? Z.of_nat (List.length (bytes i))) || (size_ <=? 0) || (maximumFileInformationBytes <? size_)
         || ((0 <=? size i) && negb (size i =? size_)) || isEmpty decoded || (ChunkBytes <? n) || negb (bool_decide (toBase64 decoded = encoded))
         || (size_ <? offset + n) || negb (bool_decide (toStr result.["path"] = path i))
         || negb (bool_decide (result.["format"] = JS "iiFileProvider.FileInformation")) || negb (bool_decide (result.["schema"] = JNum 1))
         || negb (isBool result.["eof"]) || negb (Bool.eqb (toBool result.["eof"]) (offset + n =? size_)) || negb (hex t) || isEmpty v
         || (negb (isEmpty (version i)) && (negb (bool_decide (version i = v)) || negb (bool_decide (token i = t))))
      then None else Some (decoded, size_)
  | _, _, _ => None
  end.
(** The document, when it is one, of this file and container, with the digest announced. *)
Definition informationDocument (i : Inspection) (s : Client) : option jobj :=
  match fromJson (bytes i) with
  | None => None
  | Some information =>
      if negb (bool_decide (information.["format"] = JS "iiFileProvider.FileInformation")) || negb (bool_decide (information.["schema"] = JNum 1))
         || negb (bool_decide (toStr information.["path"] = path i)) || negb (bool_decide (toStr information.["container"] = accountContainer s))
         || negb (bool_decide (digest (bytes i) = token i))
      then None else Some information
  end.
Definition inspected (id : QString) (result : jobj) (s : Client) : Client :=
  match inspections s !! id with
  | None => s
  | Some i =>
      if negb (toBool result.["ok"]) then finishInspection id result s else
      match informationChunk i result with
      | None => finishInspection id (driveError (u "invalid_host_information_chunk")) s
      | Some (decoded, size_) =>
          let i := mkInspection (path i) (toStr result.["version"]) (toStr result.["informationVersion"]) (bytes i ++ decoded) size_ in
          let s := { s with inspections := <[id := i]> (inspections s) } in
          if negb (toBool result.["eof"]) then inspectPage id s else
          match informationDocument i s with
          | None => finishInspection id (driveError (u "invalid_host_information_document")) s
          | Some information =>
              finishInspection id (obj [("ok", JBool true); ("container", JStr (accountContainer s)); ("path", JStr (path i));
                ("version", JStr (version i)); ("informationVersion", JStr (token i)); ("information", JObj information)]%string) s
          end
      end
  end.

(** *** The mirror of the catalog *)
Definition remoteRoot (s : Client) : QString := societyUrl (u "/" ++ accountHost s ++ u "/" ++ accountContainer s).
(** [k] is still the snapshot that is taken. *)
Definition current (k : nat) (s : Client) : option Snapshot :=
  match snapshot s with Some (k', shot) => if (k =? k')%nat then Some shot else None | None => None end.
Definition finishSnapshot (k : nat) (e : QString) (s : Client) : Client :=
  match current k s with
  | None => s
  | Some shot =>
      let ok := isEmpty e in
      let s := { s with snapshot := None; sections := if ok then shotSections shot else [] } in
      let s := emit Changed (synchronize (accountContainer s) (remoteRoot s) (if ok then aliases shot else []) ok e s) in
      if refreshAgain s then arm Refresh { s with refreshAgain := false } else s
  end.
Definition catalogPage (k : nat) (s : Client) : Client :=
  match current k s with
  | None => s
  | Some shot =>
      let m := obj [("action", JS "drive.catalog")]%string in
      let m := if isEmpty (cursor shot) then m else jinsert (jinsert m "cursor" (JStr (cursor shot))) "revision" (JStr (revision shot)) in
      let '(id, s) := requestDrive m (Some (Cataloguing k)) s in
      if isEmpty id then finishSnapshot k (u "host_request_capacity") s else s
  end.
Definition imageSuffixes : list QString :=
  [u "png"; u "jpg"; u "jpeg"; u "webp"; u "bmp"; u "gif"; u "tif"; u "tiff"; u "avif"; u "heic"; u "heif"].
Definition alias (p kind : QString) (size_ : Z) (entry : jobj) (s : Client) : jobj :=
  let name := sectionLast slash p in
  let id := accountContainer s ++ u "/" ++ p in
  obj [("id", JStr id); ("containerId", JStr (accountContainer s)); ("key", JStr p);
       ("section", JStr (sectionFirst slash p)); ("relativePath", JStr (sectionTail slash p)); ("name", JStr name); ("kind", JStr kind);
       ("isDirectory", JBool (bool_decide (kind = u "directory"))); ("exists", JBool true); ("available", JBool false); ("source", JStr []);
       ("previewSource", JStr []); ("thumbnailSource", JStr []);
       ("isImage", JBool (bool_decide (kind = u "file") && bool_decide (toLower (sectionLast 46 name) ∈ imageSuffixes)));
       ("size", JNum size_); ("modified", match toLongLong (toStr entry.["modified"]) with Some t => JNum t | None => JNull end);
       ("version", JStr (toStr entry.["version"])); ("hash", JStr (toStr entry.["hash"]));
       ("informationAvailable", JBool (bool_decide ((toObj entry.["information"]).["provider"] = JS "iiFileProvider"))); ("informationKey", JStr p)]%string.
(** An entry of a page: nothing when it is refused. *)
Definition catalogEntry (s : Client) (shot : Snapshot) (v : jval) : option Snapshot :=
  let entry := toObj v in
  let p := toStr entry.["path"] in
  let kind := toStr entry.["kind"] in
  if negb (inSection p) || bool_decide (p ∈ keys shot) || (negb (bool_decide (kind = u "file")) && negb (bool_decide (kind = u "directory")))
     || isEmpty (toStr entry.["version"]) then None else
  match toLongLong (toStr entry.["size"]) with
  | Some n =>
      if n <? 0 then None else
      let shot := mkSnapshot (aliases shot) (shotSections shot) ({[p]} ∪ keys shot) (revision shot) (cursor shot) in
      Some (if bool_decide (kind = u "directory") then shot
            else mkSnapshot (aliases shot ++ [alias p kind n entry s]) (shotSections shot) (keys shot) (revision shot) (cursor shot))
  | None => None
  end.
Fixpoint catalogEntries (s : Client) (shot : Snapshot) (l : list jval) : option Snapshot :=
  match l with
  | [] => Some shot
  | v :: l => let? shot := catalogEntry s shot v in catalogEntries s shot l
  end.
(** A page of the catalog: the snapshot with its entries, or why it is refused. *)
Definition catalogued (s : Client) (shot : Snapshot) (result : jobj) : Snapshot + QString :=
  if negb (toBool result.["ok"]) then inr (toStrOr (u "host_catalog_unavailable") result.["error"]) else
  let rev := toStr result.["revision"] in
  let next := toStr result.["nextCursor"] in
  if isEmpty rev || (negb (isEmpty (revision shot)) && negb (bool_decide (rev = revision shot))) || negb (isArray result.["entries"])
     || negb (isString result.["nextCursor"])
     || (negb (isEmpty next) && (negb (drivePath next false) || negb (qlt (toUtf8 (cursor shot)) (toUtf8 next))))
  then inr (u "invalid_host_catalog") else
  let l := toArr result.["entries"] in
  if (128 <? List.length l)%nat || (100000 <? base.size (keys shot) + List.length l)%nat || (negb (isEmpty next) && (List.length l =? 0)%nat)
  then inr (u "host_catalog_limit") else
  match catalogEntries s shot l with
  | None => inr (u "invalid_host_catalog_entry")
  | Some shot => inl (mkSnapshot (aliases shot) (shotSections shot) (keys shot) rev next)
  end.
Definition catalogResult (k : nat) (result : jobj) (s : Client) : Client :=
  match current k s with
  | None => s
  | Some shot =>
      match catalogued s shot result with
      | inr e => finishSnapshot k e s
      | inl shot =>
          let s := { s with snapshot := Some (k, shot) } in
          if isEmpty (cursor shot) then finishSnapshot k [] s else catalogPage k s
      end
  end.
Definition describedSections (s : Client) : list jobj :=
  map (λ key, obj [("key", JStr key); ("name", JStr (sectionName key)); ("containerId", JStr (accountContainer s))]%string) Records.sections.*1.
Definition describeResult (k : nat) (result : jobj) (s : Client) : Client :=
  match current k s with
  | None => s
  | Some shot =>
      if negb (toBool result.["ok"]) then finishSnapshot k (toStrOr (u "host_drive_unavailable") result.["error"]) s else
      let values := toArr result.["sections"] in
      let found := list_to_set (map (λ v, toStr (toObj v).["key"]) values) : gset QString in
      if negb (bool_decide (result.["driveProtocol"] = JNum 1)) || negb (List.length values =? 9)%nat || negb (base.size found =? 9)%nat
      then finishSnapshot k (u "host_drive_protocol_required") s else
      if negb (forallb (λ key, bool_decide (key ∈ found)) Records.sections.*1) then finishSnapshot k (u "invalid_host_sections") s else
      catalogPage k { s with snapshot := Some (k, mkSnapshot (aliases shot) (shotSections shot ++ describedSections s) (keys shot) (revision shot) (cursor shot)) }
  end.
Definition refreshHost (s : Client) : Client :=
  if negb (connected s) then s else
  match snapshot s with
  | Some _ => { s with refreshAgain := true }
  | None =>
      let k := snapshots s in
      let s := { s with snapshot := Some (k, mkSnapshot [] [] ∅ [] []); snapshots := S k } in
      let '(id, s) := requestDrive (obj [("action", JS "drive.describe")]%string) (Some (Describing k)) s in
      if isEmpty id then finishSnapshot k (u "host_request_capacity") s else s
  end.

(** *** Results *)
Definition finishDrive (id : QString) (result : jobj) (s : Client) : Client :=
  match driveRequests s !! id with
  | None => s
  | Some r =>
      let s := { s with driveRequests := delete id (driveRequests s); driveTransports := delete (transport r) (driveTransports s) } in
      match completion r with
      | Some (Inspecting i) => inspected i result s
      | Some (Describing k) => describeResult k result s
      | Some (Cataloguing k) => catalogResult k result s
      | None =>
          let action := (toObj (envelope r).["message"]).["action"] in
          let s := if toBool result.["ok"] && (bool_decide (action = JS "drive.write") || bool_decide (action = JS "drive.mkdir"))
                   then refreshHost s else s in
          emit (HostDriveResponse id result) s
      end
  end.
Definition again (id : QString) (r : DriveRequest) (s : Client) : Client :=
  arm (Transmit id) { s with driveRequests := <[id := mkRequest (envelope r) (completion r) (transport r) (Z.min 250 (pollDelay r * 2))]> (driveRequests s) }.
Definition busy (failure : jobj) : bool :=
  let e := toStr failure.["error"] in bool_decide (e = u "sync_store_busy") || bool_decide (e = u "sync_endpoint_busy").
(** A rejected operation is retried with a fresh token. *)
Definition retry (id : QString) (r : DriveRequest) (s : Client) : Client :=
  again id (mkRequest (jinsert (envelope r) "token" (JStr (uuid (uuids s)))) (completion r) (transport r) (pollDelay r)) { s with uuids := S (uuids s) }.
Definition receiveDrive (id : QString) (response : jobj) (s : Client) : Client :=
  match driveRequests s !! id with
  | None => s
  | Some r =>
      let r := mkRequest (envelope r) (completion r) [] (pollDelay r) in
      let s := { s with driveRequests := <[id := r]> (driveRequests s) } in
      if negb (connected s) then finishDrive id (driveError (u "host_disconnected")) s else
      if negb (toBool response.["ok"]) then (if busy response then retry id r s else finishDrive id response s) else
      if toBool response.["pending"] && negb (jcontains response "result") then again id r s else
      let result := toObj response.["result"] in
      if negb (toBool result.["ok"]) && busy result then retry id r s else
      finishDrive id
        (if negb (isBool result.["ok"]) || (toBool result.["ok"] && negb (bool_decide (toStr result.["container"] = accountContainer s)))
         then driveError (u "host_drive_response_mismatch") else result) s
  end.
Definition transmitDrive (id : QString) (s : Client) : Client :=
  match driveRequests s !! id with
  | None => s
  | Some r =>
      if negb (connected s) then finishDrive id (driveError (u "host_disconnected")) s else
      if local s then receiveDrive id (handled V) s else
      let s := emit (Sent (negb (isEmpty (server s))) (accountHost s) (envelope r))
        { s with driveRequests := <[id := mkRequest (envelope r) (completion r) (nextId V) (pollDelay r)]> (driveRequests s) } in
      if isEmpty (nextId V) then finishDrive id (driveError (u "host_transport_unavailable")) s else
      { s with driveTransports := <[nextId V := id]> (driveTransports s) }
  end.
(** The slot of both transports. *)
Definition response (id : QString) (result : jobj) (s : Client) : Client :=
  let request := default [] (driveTransports s !! id) in
  let s := { s with driveTransports := delete id (driveTransports s) } in
  if negb (isEmpty request) then receiveDrive request result s else
  if bool_decide (id ∈ hostRequests s) then emit (HostResponse id result) { s with hostRequests := hostRequests s ∖ {[id]} }
  else emit (SyncReceive id result) s.

(** ** What an application calls *)
Definition listHostDirectory (p after v : QString) (s : Client) : QString * Client :=
  if negb (drivePath p true)
     || (negb (isEmpty after) && (containsChar slash after || negb (drivePath (p ++ u "/" ++ after) false) || isEmpty v)) then ([], s) else
  let m := obj [("action", JS "drive.list"); ("path", JStr p)]%string in
  let m := if isEmpty after then m else jinsert m "cursor" (JStr after) in
  requestDrive (if isEmpty v then m else jinsert m "version" (JStr v)) None s.
Definition statHostEntry (p : QString) (s : Client) : QString * Client :=
  if drivePath p false then requestDrive (obj [("action", JS "drive.stat"); ("path", JStr p)]%string) None s else ([], s).
Definition inspectHostFile (p : QString) (s : Client) : QString * Client :=
  if negb (inSection p) || negb (connected s) || (8 <=? base.size (inspections s))%nat then ([], s) else
  let id := uuid (uuids s) in
  (id, arm (InspectTimeout id) (arm (Inspect id)
    { s with uuids := S (uuids s); inspections := <[id := mkInspection p [] [] [] (-1)]> (inspections s) })).
Definition readHostFile (p : QString) (offset : Z) (v : QString) (s : Client) : QString * Client :=
  if negb (inSection p) || (offset <? 0) || (9007199254740991 <? offset) || (256 <? qsize v) then ([], s) else
  let m := obj [("action", JS "drive.read"); ("path", JStr p); ("offset", jnum offset)]%string in
  requestDrive (if isEmpty v then m else jinsert m "version" (JStr v)) None s.
Definition writeHostFile (p : QString) (data : list N) (s : Client) : QString * Client :=
  if negb (inSection p) || (ChunkBytes <? Z.of_nat (List.length data)) then ([], s) else
  requestDrive (obj [("action", JS "drive.write"); ("path", JStr p); ("data", JStr (toBase64 data))]%string) None s.
Definition createHostDirectory (p : QString) (s : Client) : QString * Client :=
  if inSection p then requestDrive (obj [("action", JS "drive.mkdir"); ("path", JStr p)]%string) None s else ([], s).
Definition requestHost (payload : jobj) (s : Client) : QString * Client :=
  if negb (connected s) || local s || (64 <=? base.size (hostRequests s))%nat || negb (bool_decide (payload.["op"] = JS "society.generation"))
  then ([], s) else
  let s := emit (Sent (negb (isEmpty (server s))) (accountHost s) payload) s in
  if isEmpty (nextId V) then ([], s) else
  (nextId V, arm (HostTimeout (nextId V)) { s with hostRequests := {[nextId V]} ∪ hostRequests s }).
Definition hostBinding (s : Client) : jobj :=
  if connected s then obj [("scope", JStr (storageScope V)); ("host", JStr (accountHost s)); ("container", JStr (accountContainer s))]%string else ∅.
End view.

(** ** The session
    [V] is what the other objects answer at first, [V'] what they answer once they were told
    what the step tells them. *)
Definition transportStop (s : Client) : Client :=
  let s := clearDrive (u "host_disconnected") { s with online := false } in
  let s := emit SyncClose { s with hostRequests := ∅ } in
  let s := if hasNearby s then emit NearbyClear s else s in
  { (emit RelayStop (emit LanStop s)) with server := []; credential := []; lease := false }.
(** The host, when the transport in use has it authenticated. *)
Definition authorized (V : View) (s : Client) : list QString :=
  let host := accountHost V s in
  let l := if isEmpty (server s) then (if nearbyAuthenticated V && lanConnected V && bool_decide (host ∈ lanPaired V) then [host] else [])
           else if relayReady V then List.filter (λ p, bool_decide (p = host)) (relayPeers V) else [] in
  if isEmpty host || isEmpty (accountContainer V s) then [] else l.
(** Going online or offline. *)
Definition turnOnline (V : View) (now : bool) (s : Client) : Client :=
  let was := online s in
  let s := { s with online := now } in
  let s := if was && negb now then clearDrive (u "host_disconnected") s else s in
  if negb was && now then refreshHost V s else s.
Definition peers (V : View) (s : Client) : Client :=
  if negb (active s) || negb (hasAccount s) || negb (signedIn V) || (negb (direct s) && negb (lease s)) then s else
  if local s then
    say (if syncAvailable V then u "Using the local Society host drive."
         else if isEmpty (syncError V) then u "Opening the local Society host drive." else syncError V) (turnOnline V (syncAvailable V) s)
  else
    let l := authorized V s in
    let none := (List.length l =? 0)%nat in
    let s := if direct s then s else emit (SyncPeers l l (accountHost V s) (accountContainer V s)) s in
    let s := turnOnline V (negb none) s in
    let s := if hasNearby s && online s then emit (NearbyResume [] []) s else s in
    say (if negb none then u "Connected to the Society host."
         else if isEmpty (server s) && negb (isEmpty (lanError V)) then lanError V
         else if negb (isEmpty (server s)) && negb (isEmpty (relayError V)) then relayError V
         else if isEmpty (server s) && hasNearby s then pairingStatus V
         else u "Waiting for the Society host.") s.
(** The connection through the local network, or through the account's server. *)
Definition connectLan (V : View) (scope peerId name : QString) (s : Client) : Client :=
  let s := if isEmpty (server s) then s else { (emit RelayStop s) with server := []; credential := [] } in
  let s := emit (NearbyCredentials (accountHost V s)) (emit (NearbyIdentity scope peerId name (deviceType V)) s) in
  let s := emit (PairingEnabled (automaticPairing V)) s in
  let s := if automaticPairing V && negb (lanConnected V) then emit (NearbyResume (accountHost V s) (savedRoutes V)) s else emit (NearbyResume [] []) s in
  emit RequestCredentials s.
Definition connectServer (V : View) (peerId name : QString) (s : Client) : option Client :=
  let s := emit NearbyClear (emit (PairingEnabled false) s) in
  if negb (configuredValid V) || (List.length (relayCredential V) =? 0)%nat then None else
  Some (if negb (bool_decide (server s = configured V)) || negb (bool_decide (credential s = relayCredential V)) then
          let s := emit RelayStop (emit LanStop s) in
          emit (RelayStart (configured V) peerId (qleft 128 name) (relayCredential V)) { s with server := configured V; credential := relayCredential V }
        else s).
Definition update (V V' : View) (s : Client) : Client :=
  if negb (active s) || negb (hasAccount s) then s else
  if negb (signedIn V) then say (u "Sign in to Society on this device to connect to its host.") (transportStop s) else
  let host := accountHost V s in
  let s := if bool_decide (registeredHost s = host) && bool_decide (registeredContainer s = accountContainer V s) then s
           else transportStop { s with registeredHost := host; registeredContainer := accountContainer V s } in
  let s := if lanConnected V && (negb (pairingValid V) || negb (bool_decide (host ∈ lanPaired V))) then emit LanStop s else s in
  let scope := storageScope V in
  if negb (bool_decide (scope = toStr (binding s).["scope"])) then say (u "The Society storage belongs to a different account.") (transportStop s) else
  let own := negb (isEmpty host) && bool_decide (host = deviceId V) in
  if negb (direct s) && own then say (u "Use connectHost() to access this device's registered Society drive.") (transportStop s) else
  if direct s && own then
    match hostDrive V with
    | None => say (u "The registered local Society host container is unavailable.") { (transportStop s) with local := true }
    | Some root =>
        let s := if local s && bool_decide (container s = root) then s else { (transportStop s) with local := true; container := root } in
        peers V' (emit (SyncPeers [u "local-application"] [] [] []) (emit (SyncHostAccess root scope) s))
    end
  else
  let s := if local s then { (transportStop s) with local := false; container := [] } else s in
  if negb (direct s) && negb (lease s) && negb (locks V) then say (u "Waiting for the other Society session to finish.") s else
  let s := if direct s then s else emit (SyncOpen (container s) scope) { s with lease := true } in
  let name := if isEmpty (deviceName V) then machineName V else deviceName V in
  let peerId := if direct s then directPeerId else deviceId V in
  if isEmpty (configured V) then peers V' (connectLan V scope peerId name s) else
  match connectServer V peerId name s with
  | None => say (u "The saved Society server session is unavailable.") (emit NearbyClear (emit (PairingEnabled false) s))
  | Some s => peers V' s
  end.
Definition initialize (s : Client) : Client := { s with hasAccount := true; hasNearby := true }.
Definition stop (s : Client) : Client := emit Changed (transportStop { s with active := false }).
(** As a replica, from now on. *)
Definition asReplica (s : Client) : Client := { s with direct := false; local := false }.
Definition openReplica (V V' : View) (s : Client) : bool * Client :=
  match opened V with
  | None => (false, say (u "Open the Society storage map on this device first.") s)
  | Some root =>
      let s := { s with container := root; binding := replicaBinding V } in
      if jempty (binding s) then (true, say (u "Using the local Society host storage.") s) else
      (true, update V V' (initialize { s with active := true }))
  end.
Definition startReplica (V V' : View) (c : QString) (s : Client) : bool * Client :=
  if active s && negb (direct s) && bool_decide (container s = c) then (true, s) else openReplica V V' (asReplica (stop s)).
Definition joinHost (V V' : View) (s : Client) : bool * Client :=
  if negb (signedIn V) || isEmpty (accountHost V s) || isEmpty (accountContainer V s)
  then (false, say (u "Sign in with an account that has a registered Society host.") s) else
  (true, update V V' { s with direct := true; container := []; binding := obj [("scope", JStr (storageScope V))]%string; active := true }).
Definition connectHost (V V' : View) (s : Client) : bool * Client :=
  if active s && direct s && hasAccount s && signedIn V && bool_decide (toStr (binding s).["scope"] = storageScope V) then (true, s) else
  joinHost V V' (initialize (stop s)).
Definition synchronizeNow (V V' : View) (s : Client) : Client :=
  let s := update V V' s in if direct s then refreshHost V' s else emit SyncNow s.

(** ** What happens to the object *)
Inductive Request :=
| List_ (p after v : QString) | Stat (p : QString) | InspectFile (p : QString) | Read (p : QString) (offset : Z) (v : QString)
| Write (p : QString) (data : list N) | MakeDirectory (p : QString).
Definition ask (V : View) (r : Request) : Client → QString * Client :=
  match r with
  | List_ p after v => listHostDirectory V p after v
  | Stat p => statHostEntry V p
  | InspectFile p => inspectHostFile V p
  | Read p offset v => readHostFile V p offset v
  | Write p data => writeHostFile V p data
  | MakeDirectory p => createHostDirectory V p
  end.
Inductive Event :=
| Ask (r : Request) | RequestHost (payload : jobj) | Refresh_ | Start (c : QString) | ConnectHost | Stop | SynchronizeNow
| Fire (i : nat) | Response (id : QString) (result : jobj)
| AccountChanged | SessionEnding | PeersChanged | SyncChanged | SyncDone | Paired (host : QString).
Definition expire (V : View) (t : Timer) (s : Client) : Client :=
  match t with
  | Transmit id => transmitDrive V id s
  | Timeout id => finishDrive V id (driveError (u "host_request_timeout")) s
  | Inspect id => inspectPage V id s
  | InspectTimeout id => finishInspection id (driveError (u "host_request_timeout")) s
  | Refresh => refreshHost V s
  | HostTimeout id => { s with hostRequests := hostRequests s ∖ {[id]} }
  end.
(** An event, with what the other objects answer. *)
Definition step (s : Client) (e : View * View * Event) : Client :=
  let V := e.1.1 in let V' := e.1.2 in
  match e.2 with
  | Ask r => (ask V r s).2
  | RequestHost payload => (requestHost V payload s).2
  | Refresh_ => refreshHost V s
  | Start c => (startReplica V V' c s).2
  | ConnectHost => (connectHost V V' s).2
  | Stop => stop s
  | SynchronizeNow => synchronizeNow V V' s
  | Fire i => match timers s !! i with Some t => let s := expire V t s in { s with timers := delete i (timers s) } | None => s end
  | Response id result => response V id result s
  | AccountChanged => update V V' s
  | SessionEnding => transportStop s
  | PeersChanged => peers V s
  | SyncChanged =>
      let s := if isEmpty (syncError V) then s else { s with message := syncError V } in
      if local s && active s then peers V s else emit Changed s
  | SyncDone => emit Synchronized (refreshHost V s)
  | Paired host =>
      let s := if hasAccount s && hasNearby s && bool_decide (host = accountHost V s) then emit (RememberHost host (accountContainer V s)) s else s in
      update V V' (if hasNearby s then emit NearbyComplete s else s)
  end.
Definition history (s : Client) (l : list (View * View * Event)) : Client := foldl step s l.
(** The identifiers that the application was given. *)
Fixpoint asked (s : Client) (l : list (View * View * Event)) : list QString :=
  match l with
  | [] => []
  | e :: l =>
      let id := match e.2 with Ask r => (ask e.1.1 r s).1 | _ => [] end in
      (if isEmpty id then [] else [id]) ++ asked (step s e) l
  end.
End client.
End Client.
