(* ===== verification/ClientFacts.v ===== *)
(** Every request of an application is answered once. *)
From S2P Require Import Prelude Qt Records Demo Base64 Client.
From coqutil Require Import Datatypes.RecordSetters.
Import OCamlLikeNotations.
Open Scope Z_scope.

Module ClientFacts.
Import Client.
Section client.
Context {PF : Platform}.
Context (ChunkBytes maximumFileInformationBytes : Z) (isControlFile : QString → bool) (sectionName toLower societyUrl : QString → QString).
Context (uuid : nat → QString) (fromJson : list N → option jobj) (directPeerId : QString).
Context (iterateRequests : gmap QString DriveRequest → list (QString * DriveRequest))
        (iterateInspections : gmap QString Inspection → list (QString * Inspection)).
(** Iterating over a QHash meets each of its entries once. *)
Hypothesis iterates : ∀ m, iterateRequests m ≡ₚ map_to_list m.
Hypothesis iterates' : ∀ m, iterateInspections m ≡ₚ map_to_list m.
(** Universally unique identifiers are. *)
Hypothesis unique : Inj eq eq uuid.
Hypothesis drawn : ∀ n, uuid n ≠ [].
Notation requestDrive := (requestDrive uuid).
Notation inspectPage := (inspectPage uuid).
Notation finishSnapshot := (finishSnapshot societyUrl).
Notation catalogPage := (catalogPage societyUrl uuid).
Notation refreshHost := (refreshHost societyUrl uuid).
Notation clearDrive := (clearDrive iterateRequests iterateInspections).
Notation finishDrive := (finishDrive ChunkBytes maximumFileInformationBytes isControlFile sectionName toLower societyUrl uuid fromJson).
Notation receiveDrive := (receiveDrive ChunkBytes maximumFileInformationBytes isControlFile sectionName toLower societyUrl uuid fromJson).
Notation transmitDrive := (transmitDrive ChunkBytes maximumFileInformationBytes isControlFile sectionName toLower societyUrl uuid fromJson).
Notation step := (step ChunkBytes maximumFileInformationBytes isControlFile sectionName toLower societyUrl uuid fromJson directPeerId iterateRequests iterateInspections).
Notation history := (history ChunkBytes maximumFileInformationBytes isControlFile sectionName toLower societyUrl uuid fromJson directPeerId iterateRequests iterateInspections).
Notation asked := (asked ChunkBytes maximumFileInformationBytes isControlFile sectionName toLower societyUrl uuid fromJson directPeerId iterateRequests iterateInspections).

(** ** The account of an identifier
    It is open while the application waits for it, and has so many answers. *)
Definition public (r : option DriveRequest) : nat := match r with Some r => match completion r with None => 1 | Some _ => 0 end | None => 0 end.
Definition open_ (s : Client) (id : QString) : nat := public (driveRequests s !! id) + (if inspections s !! id then 1 else 0).
Definition isAnswer (id : QString) (x : Signal) : bool := match x with HostDriveResponse id' _ => bool_decide (id' = id) | _ => false end.
Definition answers (s : Client) (id : QString) : nat := List.length (List.filter (isAnswer id) (out s)).
Definition tally (s : Client) (id : QString) : nat := open_ s id + answers s id.
(** Identifiers still to be drawn are in no table; whoever waits has a timer. *)
Record good (s : Client) : Prop := {
  gd_fresh n : (uuids s ≤ n)%nat → driveRequests s !! uuid n = None ∧ inspections s !! uuid n = None ∧ answers s (uuid n) = 0%nat;
  gd_request id : is_Some (driveRequests s !! id) → Timeout id ∈ timers s;
  gd_inspect id : is_Some (inspections s !! id) → InspectTimeout id ∈ timers s
}.
(** What an operation on behalf of nobody new does. *)
Record turned (s s' : Client) : Prop := {
  tn_good : good s';
  tn_tally id : tally s' id = tally s id;
  tn_gone id : driveRequests s !! id = None → (∀ n, (uuids s ≤ n)%nat → id ≠ uuid n) → driveRequests s' !! id = None;
  tn_absent id : inspections s !! id = None → inspections s' !! id = None;
  tn_uuids : (uuids s ≤ uuids s')%nat;
  tn_timers : timers s `prefix_of` timers s'
}.
Definition turns (s s' : Client) : Prop := good s → turned s s'.
#[local] Instance turns_refl : Reflexive turns.
Proof. intros s Hg. by split. Qed.
#[local] Instance turns_trans : Transitive turns.
Proof.
  intros a b c H1 H2 Hg. specialize (H1 Hg). specialize (H2 (tn_good _ _ H1)). pose proof (tn_uuids _ _ H1). pose proof (tn_uuids _ _ H2). split.
  - apply H2.
  - intros id. by rewrite (tn_tally _ _ H2), (tn_tally _ _ H1).
  - intros id Hn Hf. apply (tn_gone _ _ H2); [by apply (tn_gone _ _ H1)|]. intros n Hle. apply Hf. lia.
  - intros id Hn. by apply (tn_absent _ _ H2), (tn_absent _ _ H1).
  - lia.
  - etransitivity; [apply (tn_timers _ _ H1)|apply (tn_timers _ _ H2)].
Qed.
(** The parts of the state that the account depends on. *)
Definition books (s : Client) := (driveRequests s, inspections s, uuids s, timers s, out s).
Lemma turns_books s s' : books s' = books s → turns s s'.
Proof.
  intros [= H1 H2 H3 H4 H5] Hg. split.
  - destruct Hg as [G1 G2 G3]. split; unfold answers in *; rewrite ?H1, ?H2, ?H3, ?H4, ?H5; done.
  - intros id. unfold tally, open_, answers. by rewrite H1, H2, H5.
  - intros id ?. by rewrite H1.
  - intros id ?. by rewrite H2.
  - lia.
  - by rewrite H4.
Qed.
Definition silent (x : Signal) : Prop := match x with HostDriveResponse _ _ => False | _ => True end.
Lemma answers_emit x s id : silent x → answers (emit x s) id = answers s id.
Proof. intros Hx. unfold answers. cbn [emit out]. change (out (emit x s)) with (out s ++ [x]). rewrite List.filter_app, length_app. destruct x; done || cbn; lia. Qed.
Lemma answers_tell id' r s id : answers (emit (HostDriveResponse id' r) s) id = (answers s id + if bool_decide (id' = id) then 1 else 0)%nat.
Proof. unfold answers. change (out (emit ?x s)) with (out s ++ [x]). rewrite List.filter_app, length_app. cbn. by destruct (bool_decide _). Qed.
Lemma turns_emit x s : silent x → turns s (emit x s).
Proof.
  intros Hx [G1 G2 G3]. assert (∀ id, answers (emit x s) id = answers s id) as Ha by (intros; by apply answers_emit). split.
  - split; [intros n Hn; rewrite Ha; by apply G1|exact G2|exact G3].
  - intros id. unfold tally. by rewrite Ha.
  - done.
  - done.
  - done.
  - done.
Qed.
Lemma turns_arm t s : turns s (arm t s).
Proof.
  intros [G1 G2 G3]. split; try done; [|by eexists]. split; [exact G1| |].
  - intros id H. apply elem_of_app. left. by apply G2.
  - intros id H. apply elem_of_app. left. by apply G3.
Qed.
(** ** Operations *)
(** The parts of a state that was told or armed something are those of the state. *)
Ltac books_change :=
  repeat match goal with
  | |- context [uuids (emit ?a ?x)] => change (uuids (emit a x)) with (uuids x)
  | |- context [driveRequests (emit ?a ?x)] => change (driveRequests (emit a x)) with (driveRequests x)
  | |- context [inspections (emit ?a ?x)] => change (inspections (emit a x)) with (inspections x)
  | |- context [timers (emit ?a ?x)] => change (timers (emit a x)) with (timers x)
  | |- context [uuids (arm ?a ?x)] => change (uuids (arm a x)) with (uuids x)
  | |- context [driveRequests (arm ?a ?x)] => change (driveRequests (arm a x)) with (driveRequests x)
  | |- context [inspections (arm ?a ?x)] => change (inspections (arm a x)) with (inspections x)
  | |- context [timers (arm ?a ?x)] => change (timers (arm a x)) with (timers x ++ [a])
  | |- context [out (arm ?a ?x)] => change (out (arm a x)) with (out x)
  end.
(** An operation that gives the application the identifier [id], or none. *)
Record issued (s s' : Client) (id : QString) : Prop := {
  is_good : good s';
  is_tally id' : tally s' id' = (tally s id' + if bool_decide (id ≠ [] ∧ id' = id) then 1 else 0)%nat;
  is_new : id ≠ [] → ∃ n, id = uuid n ∧ (uuids s ≤ n < uuids s')%nat;
  is_uuids : (uuids s ≤ uuids s')%nat
}.
Lemma issued_none s : good s → issued s s [].
Proof. intros Hg. split; [done| |done|done]. intros id. rewrite bool_decide_false by (by intros []). lia. Qed.
Lemma request_spec V m f s : good s → let '(id, s') := requestDrive V m f s in
  (id = [] ∧ s' = s) ∨ id ≠ [] ∧ good s' ∧ uuids s' = S (S (uuids s)) ∧ id = uuid (uuids s)
    ∧ (∀ id', tally s' id' = tally s id' + if bool_decide (id' = id) then (match f with None => 1 | Some _ => 0 end) else 0)%nat
    ∧ (∀ id', id' ≠ id → driveRequests s' !! id' = driveRequests s !! id') ∧ inspections s' = inspections s ∧ timers s `prefix_of` timers s'.
Proof.
  intros [G1 G2 G3]. unfold Client.requestDrive. destruct (_ || _); [by left|]. cbv zeta. right.
  match goal with |- context [<[uuid (uuids s) := ?r]> _] => set (req := r) end.
  match goal with |- context [arm _ (arm _ ?x)] => set (s1 := x) end. set (id := uuid (uuids s)).
  assert (driveRequests s1 = <[id := req]> (driveRequests s) ∧ inspections s1 = inspections s ∧ out s1 = out s ∧ timers s1 = timers s
    ∧ uuids s1 = S (S (uuids s)) ∧ completion req = f) as (E1 & E2 & E3 & E4 & E5 & E6) by done.
  clearbody s1 req. destruct (G1 (uuids s) ltac:(lia)) as (F1 & F2 & F3). fold id in F1, F2, F3. split_and!; try done.
  - apply drawn.
  - split.
    + intros n. books_change. intros Hn. unfold answers. books_change. rewrite E1, E2, E3. rewrite lookup_insert_ne by (intros H%unique; lia). apply G1. lia.
    + books_change. rewrite E1.
      intros id'. destruct (decide (id' = id)) as [->|Hne]; [intros _; apply elem_of_app; right; by apply list_elem_of_singleton|].
      rewrite lookup_insert_ne by done. intros H. rewrite E4, !elem_of_app. left. left. by apply G2.
    + books_change. rewrite E2. intros id' H.
      rewrite E4, !elem_of_app. left. left. by apply G3.
  - intros id'. unfold tally, open_, answers. books_change. rewrite E1, E2, E3.
    destruct (bool_decide (id' = id)) eqn:Eb.
    + apply bool_decide_eq_true in Eb as ->. rewrite lookup_insert_eq, F1. cbn [public]. rewrite E6. destruct f; lia.
    + apply bool_decide_eq_false in Eb. rewrite lookup_insert_ne by done. lia.
  - intros id' Hne. books_change. rewrite E1. by rewrite lookup_insert_ne.
  - books_change. rewrite E4, <- app_assoc. by eexists.
Qed.
Lemma request_turns V m f s : turns s (requestDrive V m (Some f) s).2.
Proof.
  intros Hg. pose proof (request_spec V m (Some f) s Hg) as H. destruct (requestDrive V m (Some f) s) as [id s']. cbn [snd].
  destruct H as [[_ ->]|(_ & H1 & H2 & -> & H4 & H5 & H6 & H7)]; [by apply turns_refl|]. split; [done| | | |lia|done].
  - intros id'. rewrite H4. destruct (bool_decide _); lia.
  - intros id' Hn Hf. rewrite H5; [done|]. by apply Hf.
  - intros id'. by rewrite H6.
Qed.
Lemma request_issues V m s : good s → issued s (requestDrive V m None s).2 (requestDrive V m None s).1.
Proof.
  intros Hg. pose proof (request_spec V m None s Hg) as H. destruct (requestDrive V m None s) as [id s']. cbn [fst snd].
  destruct H as [[-> ->]|(Hne & H1 & H2 & H3 & H4 & _)]; [by apply issued_none|]. split; [done| | |lia].
  - intros id'. rewrite H4. by rewrite (bool_decide_ext (id' = id) (id ≠ [] ∧ id' = id)) by tauto.
  - intros _. exists (uuids s). split; [done|lia].
Qed.

(** A waiting application is answered. *)
Lemma turns_tell id r s s1 : driveRequests s1 = driveRequests s → inspections s !! id <> None → inspections s1 = delete id (inspections s) →
  uuids s1 = uuids s → timers s1 = timers s → out s1 = out s → turns s (emit (HostDriveResponse id r) s1).
Proof.
  intros E1 Hi E2 E3 E4 E5 [G1 G2 G3]. assert (∀ id', answers (emit (HostDriveResponse id r) s1) id' = (answers s id' + if bool_decide (id = id') then 1 else 0)%nat) as Ha.
  { intros id'. rewrite answers_tell. unfold answers. by rewrite E5. }
  split.
  - split.
    + intros n. books_change. intros Hn. rewrite Ha, E1, E2. rewrite E3 in Hn. destruct (G1 n Hn) as (F1 & F2 & F3).
      assert (id ≠ uuid n) by congruence. rewrite bool_decide_false, lookup_delete_ne by done. split_and!; try done. lia.
    + books_change. by rewrite E1, E4.
    + books_change. rewrite E2, E4.
      intros id' [i H]. apply lookup_delete_Some in H as [_ H]. apply G3. by exists i.
  - intros id'. unfold tally, open_. rewrite Ha. books_change. rewrite E1, E2. destruct (decide (id = id')) as [<-|Hne].
    + rewrite lookup_delete_eq, bool_decide_true by done. destruct (inspections s !! id); [lia|done].
    + rewrite lookup_delete_ne, bool_decide_false by done. lia.
  - intros id' H _. books_change. by rewrite E1.
  - intros id' H. books_change. rewrite E2. destruct (decide (id = id')) as [<-|]; [apply lookup_delete_eq|by rewrite lookup_delete_ne].
  - books_change. lia.
  - books_change. by rewrite E4.
Qed.
Lemma finishInspection_turns id r s : turns s (finishInspection id r s).
Proof. unfold finishInspection. destruct (inspections s !! id) eqn:E; [|done]. eapply turns_tell; done || congruence. Qed.
(** Changes of what is known of a request or of an inspection. *)
Lemma turns_update s s' : (∀ id, public (driveRequests s' !! id) = public (driveRequests s !! id)) →
  (∀ id, driveRequests s !! id = None → driveRequests s' !! id = None) → (∀ id, is_Some (inspections s' !! id) ↔ is_Some (inspections s !! id)) →
  (uuids s ≤ uuids s')%nat → timers s' = timers s → out s' = out s → turns s s'.
Proof.
  intros H1 H2 H3 H4 H5 H6 [G1 G2 G3]. assert (∀ id, inspections s !! id = None → inspections s' !! id = None) as H3'.
  { intros id. rewrite !eq_None_not_Some. by rewrite H3. }
  split; try done.
  - split.
    + intros n Hn. destruct (G1 n ltac:(lia)) as (F1 & F2 & F3). unfold answers. rewrite H6. split_and!; auto.
    + intros id Hid. rewrite H5. apply G2. destruct (driveRequests s !! id) eqn:E; [done|]. apply H2 in E. rewrite E in Hid. by destruct Hid.
    + intros id Hid. rewrite H5. apply G3. by apply H3.
  - intros id. unfold tally, open_, answers. rewrite H1, H6. specialize (H3 id).
    destruct (inspections s !! id), (inspections s' !! id); try done; exfalso; [by destruct (proj2 H3 ltac:(by eexists))|by destruct (proj1 H3 ltac:(by eexists))].
  - intros id Hn _. by apply H2.
  - by rewrite H5.
Qed.
Lemma turns_request id r r' s s' : driveRequests s !! id = Some r → completion r' = completion r → driveRequests s' = <[id := r']> (driveRequests s) →
  inspections s' = inspections s → (uuids s ≤ uuids s')%nat → timers s' = timers s → out s' = out s → turns s s'.
Proof.
  intros Hr Hc E1 E2 E3 E4 E5. apply turns_update; try done.
  - intros id'. rewrite E1. destruct (decide (id = id')) as [<-|]; [|by rewrite lookup_insert_ne]. rewrite lookup_insert_eq, Hr. cbn. by rewrite Hc.
  - intros id' Hn. rewrite E1, lookup_insert_ne; [done|congruence].
  - intros id'. by rewrite E2.
Qed.
Lemma finishSnapshot_turns V k e s : turns s (finishSnapshot V k e s).
Proof.
  unfold Client.finishSnapshot. destruct (current k s); [|done]. cbv zeta.
  match goal with |- context [emit Changed ?x] => set (s1 := x) end. assert (turns s s1) as H1 by (by apply turns_books). clearbody s1.
  etransitivity; [exact H1|]. etransitivity; [apply (turns_emit Changed); done|]. set (s2 := emit Changed s1). clearbody s2.
  destruct (refreshAgain s2); [|done]. etransitivity; [|apply turns_arm]. by apply turns_books.
Qed.
Lemma catalogPage_turns V k s : turns s (catalogPage V k s).
Proof.
  unfold Client.catalogPage. destruct (current k s); [|done]. cbv zeta. set (m := if isEmpty _ then _ else _). clearbody m.
  pose proof (request_turns V m (Cataloguing k) s) as H. destruct (requestDrive V m _ s) as [id s1]. cbn [snd] in H.
  destruct (isEmpty id); [|done]. etransitivity; [exact H|apply finishSnapshot_turns].
Qed.
Lemma catalogResult_turns V k r s : turns s (catalogResult isControlFile toLower societyUrl uuid V k r s).
Proof.
  unfold catalogResult. destruct (current k s) as [shot|]; [|done]. destruct (catalogued _ _ _ _ _ _) as [shot'|e]; [|apply finishSnapshot_turns]. cbv zeta.
  match goal with |- context [finishSnapshot V k [] ?x] => set (s1 := x) end. assert (turns s s1) as H1 by (by apply turns_books). clearbody s1.
  etransitivity; [exact H1|]. destruct (isEmpty _); [apply finishSnapshot_turns|apply catalogPage_turns].
Qed.
Lemma describeResult_turns V k r s : turns s (describeResult sectionName societyUrl uuid V k r s).
Proof.
  unfold describeResult. destruct (current k s) as [shot|]; [|done]. destruct (negb _); [apply finishSnapshot_turns|]. cbv zeta.
  destruct (_ || _ || _); [apply finishSnapshot_turns|]. destruct (negb _); [apply finishSnapshot_turns|].
  etransitivity; [|apply catalogPage_turns]. by apply turns_books.
Qed.
Lemma refreshHost_turns V s : turns s (refreshHost V s).
Proof.
  unfold Client.refreshHost. destruct (negb _); [done|]. destruct (snapshot s); [by apply turns_books|]. cbv zeta.
  match goal with |- context [requestDrive V ?m ?f ?x] => set (s1 := x); pose proof (request_turns V m (Describing (snapshots s)) s1) as H;
    destruct (requestDrive V m f s1) as [id s2] end. cbn [snd] in H. assert (turns s s1) as H1 by (by apply turns_books). clearbody s1.
  etransitivity; [exact H1|]. etransitivity; [exact H|]. destruct (isEmpty id); [apply finishSnapshot_turns|done].
Qed.
Lemma inspectPage_turns V id s : turns s (inspectPage V id s).
Proof.
  unfold Client.inspectPage. destruct (inspections s !! id); [|done]. cbv zeta. set (m := if isEmpty _ then _ else _). clearbody m.
  pose proof (request_turns V m (Inspecting id) s) as H. destruct (requestDrive V m _ s) as [r s1]. cbn [snd] in H.
  destruct (isEmpty r); [|done]. etransitivity; [exact H|apply finishInspection_turns].
Qed.
Lemma inspected_turns V id r s : turns s (inspected ChunkBytes maximumFileInformationBytes uuid fromJson V id r s).
Proof.
  unfold inspected. destruct (inspections s !! id) as [i|] eqn:Ei; [|done]. destruct (negb _); [apply finishInspection_turns|].
  destruct (informationChunk _ _ _ _) as [[decoded n]|]; [|apply finishInspection_turns]. cbv zeta. set (i' := mkInspection _ _ _ _ _).
  match goal with |- context [inspectPage V id ?x] => set (s1 := x) end.
  assert (turns s s1) as H1.
  { apply turns_update; try done. intros id'. change (inspections s1) with (<[id := i']> (inspections s)).
    destruct (decide (id = id')) as [<-|]; [rewrite lookup_insert_eq, Ei; split; intros; by eexists|by rewrite lookup_insert_ne]. }
  clearbody s1. etransitivity; [exact H1|]. destruct (negb _); [apply inspectPage_turns|].
  destruct (informationDocument _ _ _ _); apply finishInspection_turns.
Qed.
(** The state without a request that is finished. *)
Lemma deleted_good id r s s1 : driveRequests s !! id = Some r → driveRequests s1 = delete id (driveRequests s) →
  inspections s1 = inspections s → uuids s1 = uuids s → timers s1 = timers s → out s1 = out s → good s →
  good s1 ∧ ∀ n, (uuids s ≤ n)%nat → id ≠ uuid n.
Proof.
  intros Hr E1 E2 E3 E4 E5 [G1 G2 G3]. assert (∀ n, (uuids s ≤ n)%nat → id ≠ uuid n) as Hold. { intros n Hn ->. destruct (G1 n Hn) as [F _]. congruence. }
  split; [|done]. split.
  - intros n Hn. rewrite E3 in Hn. unfold answers. rewrite E1, E2, E5. destruct (G1 n Hn) as (F1 & F2 & F3). split_and!; try done.
    by rewrite lookup_delete_ne by (by apply Hold).
  - intros id' [x H]. rewrite E1 in H. apply lookup_delete_Some in H as [_ H]. rewrite E4. apply G2. by exists x.
  - rewrite E2, E4. exact G3.
Qed.
(** A request of the application is finished: while the rest goes on, its answer is due. *)
Lemma turns_answer id r res s s1 s2 : driveRequests s !! id = Some r → completion r = None → driveRequests s1 = delete id (driveRequests s) →
  inspections s1 = inspections s → uuids s1 = uuids s → timers s1 = timers s → out s1 = out s → turns s1 s2 →
  turns s (emit (HostDriveResponse id res) s2).
Proof.
  intros Hr Hc E1 E2 E3 E4 E5 Ht Hg. destruct (deleted_good id r s s1 Hr E1 E2 E3 E4 E5 Hg) as [Hg1 Hold].
  assert (∀ id', tally s id' = tally s1 id' + if bool_decide (id = id') then 1 else 0)%nat as T1.
  { intros id'. unfold tally, open_, answers. rewrite E1, E2, E5. destruct (decide (id = id')) as [<-|Hne].
    - rewrite lookup_delete_eq, bool_decide_true, Hr by done. cbn. rewrite Hc. lia.
    - rewrite lookup_delete_ne, bool_decide_false by done. lia. }
  destruct (Ht Hg1) as [[K1 K2 K3] T2 Tg Ta Tu Tt].
  assert (∀ id', answers (emit (HostDriveResponse id res) s2) id' = (answers s2 id' + if bool_decide (id = id') then 1 else 0)%nat) as Ha.
  { intros id'. by rewrite answers_tell. }
  split.
  - split.
    + intros n. books_change. intros Hn. rewrite Ha. destruct (K1 n Hn) as (F1 & F2 & F3).
      rewrite bool_decide_false by (apply Hold; lia). split_and!; try done. lia.
    + exact K2.
    + exact K3.
  - intros id'. rewrite T1, <- T2. unfold tally. rewrite Ha. change (open_ (emit (HostDriveResponse id res) s2) id') with (open_ s2 id'). lia.
  - intros id' Hn Hf. books_change. apply Tg.
    + rewrite E1. destruct (decide (id = id')) as [<-|]; [apply lookup_delete_eq|by rewrite lookup_delete_ne].
    + intros n. rewrite E3. apply Hf.
  - intros id' Hn. books_change. apply Ta. by rewrite E2.
  - books_change. lia.
  - books_change. by rewrite <- E4.
Qed.
Lemma finishDrive_turns V id res s : turns s (finishDrive V id res s).
Proof.
  unfold Client.finishDrive. destruct (driveRequests s !! id) as [r|] eqn:Er; [|done]. cbv zeta.
  match goal with |- context [inspected _ _ _ _ V _ res ?x] => set (s1 := x) end.
  assert (completion r ≠ None → turns s s1) as H1.
  { intros Hc. apply turns_update; try done.
    - intros id'. change (driveRequests s1) with (delete id (driveRequests s)). destruct (decide (id = id')) as [<-|]; [|by rewrite lookup_delete_ne].
      rewrite lookup_delete_eq, Er. cbn. by destruct (completion r).
    - intros id' Hn. change (driveRequests s1) with (delete id (driveRequests s)). destruct (decide (id = id')) as [<-|]; [apply lookup_delete_eq|by rewrite lookup_delete_ne]. }
  destruct (completion r) as [[i|k|k]|] eqn:Ec.
  - etransitivity; [by apply H1|apply inspected_turns].
  - etransitivity; [by apply H1|apply describeResult_turns].
  - etransitivity; [by apply H1|apply catalogResult_turns].
  - eapply (turns_answer id r res s s1); try done. destruct (_ && _); [apply refreshHost_turns|done].
Qed.
Lemma again_turns id r r' s : driveRequests s !! id = Some r → completion r' = completion r → turns s (again id r' s).
Proof. intros Hr Hc. unfold again. etransitivity; [|apply turns_arm].
  eapply (turns_request id r); [exact Hr| |reflexivity|done|done|done|done]. exact Hc.
Qed.
Lemma receiveDrive_turns V id res s : turns s (receiveDrive V id res s).
Proof.
  unfold Client.receiveDrive. destruct (driveRequests s !! id) as [r|] eqn:Er; [|done]. cbv zeta. set (r' := mkRequest _ _ [] _).
  match goal with |- context [finishDrive V id res ?x] => set (s1 := x) end.
  assert (turns s s1) as H1 by (by eapply (turns_request id r r')). assert (driveRequests s1 !! id = Some r') as E1 by apply lookup_insert_eq.
  assert (completion r' = completion r) as Hc by done. clearbody r' s1. etransitivity; [exact H1|]. clear H1 Er.
  assert (turns s1 (retry uuid id r' s1)) as Hretry.
  { unfold retry. etransitivity; [|eapply again_turns]; [|exact E1|done]. apply turns_update; try done. apply Nat.le_succ_diag_r. }
  destruct (negb _); [apply finishDrive_turns|]. destruct (negb (toBool res.["ok"])).
  - destruct (busy res); [exact Hretry|apply finishDrive_turns].
  - destruct (toBool res.["pending"] && _); [by eapply again_turns|]. destruct (_ && busy _); [exact Hretry|apply finishDrive_turns].
Qed.
Lemma transmitDrive_turns V id s : turns s (transmitDrive V id s).
Proof.
  unfold Client.transmitDrive. destruct (driveRequests s !! id) as [r|] eqn:Er; [|done].
  destruct (negb _); [apply finishDrive_turns|]. destruct (local s); [apply receiveDrive_turns|]. cbv zeta. set (r' := mkRequest _ _ _ _).
  match goal with |- context [emit (Sent ?a ?b ?c) ?x] => set (s0 := x); set (s1 := emit (Sent a b c) s0) end.
  assert (turns s s0) as H0 by (by eapply (turns_request id r r')). assert (turns s0 s1) as H1 by (by apply turns_emit).
  clearbody s1. clearbody s0. etransitivity; [exact H0|]. etransitivity; [exact H1|]. destruct (isEmpty _); [apply finishDrive_turns|]. by apply turns_books.
Qed.
Lemma response_turns V id res s :
  turns s (response ChunkBytes maximumFileInformationBytes isControlFile sectionName toLower societyUrl uuid fromJson V id res s).
Proof.
  unfold response. cbv zeta. set (q := default [] _). clearbody q.
  match goal with |- context [receiveDrive V q res ?x] => set (s1 := x) end. assert (turns s s1) as H1 by (by apply turns_books). clearbody s1.
  etransitivity; [exact H1|]. destruct (negb _); [apply receiveDrive_turns|]. destruct (bool_decide _); [|by apply turns_emit].
  etransitivity; [|by apply turns_emit]. by apply turns_books.
Qed.
(** ** Going offline answers whoever waits *)
Lemma count_perm {A} (P : A → bool) l l' : l ≡ₚ l' → List.length (List.filter P l) = List.length (List.filter P l').
Proof. induction 1; cbn; try congruence; [by destruct (P _); cbn; congruence|]. by destruct (P x), (P y). Qed.
Lemma count_key {A} (f : A → bool) (m : gmap QString A) id :
  List.length (List.filter (λ p, bool_decide (p.1 = id) && f p.2) (map_to_list m)) = match m !! id with Some a => if f a then 1%nat else 0%nat | None => 0%nat end.
Proof.
  assert (∀ l : list (QString * A), id ∉ l.*1 → List.length (List.filter (λ p, bool_decide (p.1 = id) && f p.2) l) = 0%nat) as Hnone.
  { induction l as [|[k a] l IH]; intros Hn; [done|]. cbn in *. apply not_elem_of_cons in Hn as [Hk Hn]. rewrite bool_decide_false by congruence. by apply IH. }
  destruct (m !! id) as [a|] eqn:E.
  - rewrite (count_perm _ _ ((id, a) :: map_to_list (delete id m))).
    + assert (id ∉ (map_to_list (delete id m)).*1) as H0%Hnone.
      { intros ((k & b) & -> & Hin)%list_elem_of_fmap. apply elem_of_map_to_list in Hin. cbn in Hin. by rewrite lookup_delete_eq in Hin. }
      cbn [List.filter fst snd]. rewrite bool_decide_true by done. cbn [andb]. destruct (f a); cbn [List.length]; by rewrite H0.
    + rewrite <- map_to_list_insert by apply lookup_delete_eq. by rewrite insert_delete_id.
  - apply Hnone. intros ((k & b) & -> & Hin)%list_elem_of_fmap. apply elem_of_map_to_list in Hin. cbn in E. congruence.
Qed.
Lemma tells_spec {A} (g : Client → A → Client) (P : QString → A → bool) l s :
  (∀ s x, driveRequests (g s x) = driveRequests s ∧ inspections (g s x) = inspections s ∧ uuids (g s x) = uuids s ∧ timers (g s x) = timers s
    ∧ ∀ id, answers (g s x) id = (answers s id + if P id x then 1 else 0)%nat) →
  let s' := foldl g s l in driveRequests s' = driveRequests s ∧ inspections s' = inspections s ∧ uuids s' = uuids s ∧ timers s' = timers s
    ∧ ∀ id, answers s' id = (answers s id + List.length (List.filter (P id) l))%nat.
Proof.
  intros Hg. cbv zeta. revert s. induction l as [|x l IH]; intros s; cbn [foldl List.filter List.length].
  - split_and!; try done; intros; lia.
  - destruct (IH (g s x)) as (-> & -> & -> & -> & Ha). destruct (Hg s x) as (-> & -> & -> & -> & Hx). split_and!; try done.
    intros id. rewrite Ha, Hx. destruct (P id x); cbn; lia.
Qed.
Definition isPublic (r : DriveRequest) : bool := match completion r with None => true | Some _ => false end.
Lemma clearDrive_turns e s : turns s (clearDrive e s).
Proof.
  unfold Client.clearDrive. cbv zeta. set (s0 := synchronize [] [] [] false e _).
  assert (driveRequests s0 = ∅ ∧ inspections s0 = ∅ ∧ uuids s0 = uuids s ∧ timers s0 = timers s ∧ ∀ id, answers s0 id = answers s id) as (A1 & A2 & A3 & A4 & A5) by done.
  clearbody s0. set (f := λ (s : Client) (r : QString * DriveRequest), _). set (g := λ (s : Client) (i : QString * Inspection), _).
  destruct (tells_spec f (λ id r, bool_decide (r.1 = id) && isPublic r.2) (iterateRequests (driveRequests s)) s0) as (B1 & B2 & B3 & B4 & B5).
  { intros s' [k r]. unfold f, isPublic. cbn [fst snd]. destruct (completion r).
    - split_and!; try done. intros id. rewrite andb_false_r. lia.
    - split_and!; try done. intros id. rewrite andb_true_r. apply answers_tell. }
  destruct (tells_spec g (λ id r, bool_decide (r.1 = id) && true) (iterateInspections (inspections s)) (foldl f s0 (iterateRequests (driveRequests s))))
    as (C1 & C2 & C3 & C4 & C5).
  { intros s' [k i]. split_and!; try done. intros id. rewrite andb_true_r. apply answers_tell. }
  set (s2 := foldl g _ _) in *. clearbody s2. rewrite A1 in B1. rewrite A2 in B2. rewrite A3 in B3. rewrite A4 in B4. rewrite B1 in C1. rewrite B2 in C2. rewrite B3 in C3. rewrite B4 in C4.
  assert (∀ id, answers s2 id = answers s id + open_ s id)%nat as Ha.
  { intros id. rewrite C5, B5, A5. rewrite (count_perm _ _ _ (iterates (driveRequests s))), (count_perm _ _ _ (iterates' (inspections s))).
    rewrite (count_key isPublic), (count_key (λ _, true)). unfold open_, public, isPublic.
    destruct (driveRequests s !! id) as [r|]; [destruct (completion r)|]; destruct (inspections s !! id); lia. }
  intros [G1 G2 G3]. split.
  - split.
    + intros n. rewrite C1, C2, C3, Ha, !lookup_empty. intros Hn. destruct (G1 n Hn) as (F1 & F2 & F3). split_and!; try done.
      unfold open_. by rewrite F1, F2, F3.
    + intros id. rewrite C1, lookup_empty. by intros [].
    + intros id. rewrite C2, lookup_empty. by intros [].
  - intros id. unfold tally. rewrite Ha. unfold open_ at 1. rewrite C1, C2, !lookup_empty. cbn [public]. lia.
  - intros id _ _. by rewrite C1, lookup_empty.
  - intros id _. by rewrite C2, lookup_empty.
  - by rewrite C3.
  - by rewrite C4.
Qed.
Lemma finish_gone V id res s : good s → driveRequests (finishDrive V id res s) !! id = None.
Proof.
  intros Hg. unfold Client.finishDrive. destruct (driveRequests s !! id) as [r|] eqn:Er; [|done]. cbv zeta.
  match goal with |- context [inspected _ _ _ _ V _ res ?x] => set (s1 := x) end.
  destruct (deleted_good id r s s1 Er) as [Hg1 Hold]; try done.
  assert (driveRequests s1 !! id = None) as Hn by apply lookup_delete_eq. assert (uuids s1 = uuids s) as Hu by done. clearbody s1.
  assert (∀ s2, turns s1 s2 → driveRequests s2 !! id = None) as H.
  { intros s2 Ht. apply (tn_gone _ _ (Ht Hg1)); [done|]. by rewrite Hu. }
  destruct (completion r) as [[i|k|k]|].
  - apply H, inspected_turns.
  - apply H, describeResult_turns.
  - apply H, catalogResult_turns.
  - books_change. destruct (_ && _); [apply H, refreshHost_turns|done].
Qed.

(** ** The session *)
Notation transportStop := (transportStop iterateRequests iterateInspections).
Notation turnOnline := (turnOnline societyUrl uuid iterateRequests iterateInspections).
Notation peers := (peers societyUrl uuid iterateRequests iterateInspections).
Notation update := (update societyUrl uuid directPeerId iterateRequests iterateInspections).
Notation stop := (stop iterateRequests iterateInspections).
Notation expire := (expire ChunkBytes maximumFileInformationBytes isControlFile sectionName toLower societyUrl uuid fromJson).
Notation ask := (ask ChunkBytes isControlFile uuid).
Lemma turns_say m s : turns s (say m s).
Proof. unfold say. etransitivity; [|by apply (turns_emit Changed)]. by apply turns_books. Qed.
(** Told something silent, with other things changed. *)
Lemma turns_told x s s1 : silent x → turns s s1 → turns s (emit x s1).
Proof. intros Hx H. etransitivity; [exact H|by apply turns_emit]. Qed.
Lemma transportStop_turns s : turns s (transportStop s).
Proof.
  unfold Client.transportStop. cbv zeta. set (s1 := clearDrive _ _).
  assert (turns s s1) as H1. { etransitivity; [|apply clearDrive_turns]. by apply turns_books. } clearbody s1. etransitivity; [exact H1|].
  set (s2 := emit SyncClose _). assert (turns s1 s2) as H2 by (apply turns_told; [done|by apply turns_books]). clearbody s2. etransitivity; [exact H2|].
  set (s3 := if hasNearby s2 then _ else _). assert (turns s2 s3) as H3 by (unfold s3; destruct (hasNearby s2); [by apply turns_emit|done]).
  clearbody s3. etransitivity; [exact H3|]. transitivity (emit RelayStop (emit LanStop s3)); [|by apply turns_books].
  by do 2 (apply turns_told; [done|]).
Qed.
Lemma turnOnline_turns V b s : turns s (turnOnline V b s).
Proof.
  unfold Client.turnOnline. cbv zeta. set (s1 := { s with online := b }). assert (turns s s1) as H1 by (by apply turns_books). clearbody s1. etransitivity; [exact H1|].
  set (s2 := if online s && negb b then _ else _). assert (turns s1 s2) as H2 by (unfold s2; destruct (_ && _); [apply clearDrive_turns|done]).
  clearbody s2. etransitivity; [exact H2|]. destruct (_ && _); [apply refreshHost_turns|done].
Qed.
Lemma peers_turns V s : turns s (peers V s).
Proof.
  unfold Client.peers. destruct (_ || _ || _ || _); [done|]. destruct (local s).
  - etransitivity; [apply turnOnline_turns|apply turns_say].
  - cbv zeta. set (l := authorized V s). set (m := if negb _ then _ else _). clearbody l. clearbody m.
    set (s1 := if direct s then s else _). assert (turns s s1) as H1 by (unfold s1; destruct (direct s); [done|by apply turns_emit]). clearbody s1.
    etransitivity; [exact H1|]. etransitivity; [apply turnOnline_turns|]. etransitivity; [|apply turns_say].
    destruct (_ && _); [by apply turns_emit|done].
Qed.
Lemma connectLan_turns V scope peer name s : turns s (connectLan V scope peer name s).
Proof.
  unfold connectLan. cbv zeta. set (s1 := if isEmpty (server s) then s else _).
  assert (turns s s1) as H1. { unfold s1. destruct (isEmpty _); [done|]. transitivity (emit RelayStop s); [by apply turns_emit|by apply turns_books]. }
  clearbody s1. apply turns_told; [done|]. etransitivity; [exact H1|]. destruct (_ && _); by do 4 (apply turns_told; [done|]).
Qed.
Lemma connectServer_turns V peer name s s1 : connectServer V peer name s = Some s1 → turns s s1.
Proof.
  unfold connectServer. cbv zeta. set (s2 := emit NearbyClear _). assert (turns s s2) as H2 by (by do 2 (apply turns_told; [done|])).
  clearbody s2. destruct (_ || _); [done|]. intros [= <-]. etransitivity; [exact H2|]. destruct (_ || _); [|done].
  apply turns_told; [done|]. transitivity (emit RelayStop (emit LanStop s2)); [by do 2 (apply turns_told; [done|])|by apply turns_books].
Qed.
Lemma update_turns V V' s : turns s (update V V' s).
Proof.
  unfold Client.update. destruct (_ || _); [done|]. destruct (negb (signedIn V)); [etransitivity; [apply transportStop_turns|apply turns_say]|]. cbv zeta.
  set (host := accountHost V s). set (s1 := if bool_decide _ && bool_decide _ then s else _).
  assert (turns s s1) as H1. { unfold s1. destruct (_ && _); [done|]. etransitivity; [|apply transportStop_turns]. by apply turns_books. }
  clearbody s1. etransitivity; [exact H1|]. set (s2 := if lanConnected V && _ then _ else s1).
  assert (turns s1 s2) as H2 by (unfold s2; destruct (_ && _); [by apply turns_emit|done]). clearbody s2. etransitivity; [exact H2|]. clearbody host. clear s s1 H1 H2.
  destruct (negb _); [etransitivity; [apply transportStop_turns|apply turns_say]|].
  destruct (_ && _); [etransitivity; [apply transportStop_turns|apply turns_say]|]. destruct (direct s2 && _).
  - destruct (hostDrive V) as [root|].
    + set (s3 := if local s2 && _ then s2 else _). assert (turns s2 s3) as H3.
      { unfold s3. destruct (_ && _); [done|]. etransitivity; [apply transportStop_turns|generalize (transportStop s2) as x; intros x; by apply turns_books]. }
      clearbody s3. etransitivity; [exact H3|]. etransitivity; [|apply peers_turns]. by do 2 (apply turns_told; [done|]).
    + etransitivity; [|apply turns_say]. etransitivity; [apply transportStop_turns|generalize (transportStop s2) as x; intros x; by apply turns_books].
  - set (s3 := if local s2 then _ else s2). assert (turns s2 s3) as H3.
    { unfold s3. destruct (local s2); [|done]. etransitivity; [apply transportStop_turns|generalize (transportStop s2) as x; intros x; by apply turns_books]. }
    clearbody s3. etransitivity; [exact H3|]. destruct (_ && _ && _); [apply turns_say|]. set (s4 := if direct s3 then s3 else _).
    assert (turns s3 s4) as H4 by (unfold s4; destruct (direct s3); [done|apply turns_told; [done|by apply turns_books]]). clearbody s4.
    etransitivity; [exact H4|]. destruct (isEmpty (configured V)); [etransitivity; [apply connectLan_turns|apply peers_turns]|].
    destruct (connectServer V _ _ s4) as [s5|] eqn:E; [etransitivity; [by eapply connectServer_turns|apply peers_turns]|].
    etransitivity; [|apply turns_say]. by do 2 (apply turns_told; [done|]).
Qed.
Lemma stop_turns s : turns s (stop s).
Proof. unfold Client.stop. apply turns_told; [done|]. etransitivity; [|apply transportStop_turns]. by apply turns_books. Qed.
Lemma initialize_turns s : turns s (initialize s).
Proof. by apply turns_books. Qed.
Lemma asReplica_turns s : turns s (asReplica s).
Proof. by apply turns_books. Qed.
Lemma openReplica_turns V V' s : turns s (openReplica societyUrl uuid directPeerId iterateRequests iterateInspections V V' s).2.
Proof.
  unfold openReplica. destruct (opened V) as [root|]; [|apply turns_say]. cbv zeta. destruct (jempty _); cbn [snd].
  - etransitivity; [|apply turns_say]. by apply turns_books.
  - etransitivity; [|apply update_turns]. by apply turns_books.
Qed.
Lemma startReplica_turns V V' c s : turns s (startReplica societyUrl uuid directPeerId iterateRequests iterateInspections V V' c s).2.
Proof.
  unfold startReplica. destruct (_ && _ && _); [done|]. etransitivity; [apply stop_turns|]. etransitivity; [apply asReplica_turns|apply openReplica_turns].
Qed.
Lemma joinHost_turns V V' s : turns s (joinHost societyUrl uuid directPeerId iterateRequests iterateInspections V V' s).2.
Proof.
  unfold joinHost. destruct (_ || _ || _); cbn [snd]; [apply turns_say|]. etransitivity; [|apply update_turns]. by apply turns_books.
Qed.
Lemma connectHost_turns V V' s : turns s (connectHost societyUrl uuid directPeerId iterateRequests iterateInspections V V' s).2.
Proof.
  unfold connectHost. destruct (_ && _ && _ && _ && _); [done|]. etransitivity; [apply stop_turns|]. etransitivity; [apply initialize_turns|apply joinHost_turns].
Qed.
Lemma expire_turns V t s : turns s (expire V t s).
Proof.
  destruct t; cbn [Client.expire]; [apply transmitDrive_turns|apply finishDrive_turns|apply inspectPage_turns|apply finishInspection_turns
    |apply refreshHost_turns|by apply turns_books].
Qed.
Lemma elem_of_delete_ne {A} (x t : A) (l : list A) (i : nat) : x ∈ l → l !! i = Some t → x ≠ t → x ∈ delete i l.
Proof.
  intros [j Hj]%list_elem_of_lookup Hi Hne. apply list_elem_of_lookup. destruct (decide (j < i)%nat).
  - exists j. by rewrite list_lookup_delete_lt.
  - assert (j ≠ i) by congruence. exists (j - 1)%nat. rewrite list_lookup_delete_ge by lia. by replace (S (j - 1)) with j by lia.
Qed.
(** A timer that fires is gone, and nobody waits for it. *)
Lemma fire_good V t i s : good s → timers s !! i = Some t →
  let s1 := expire V t s in good { s1 with timers := delete i (timers s1) } ∧ (∀ id, tally s1 id = tally s id) ∧ (uuids s ≤ uuids s1)%nat.
Proof.
  intros Hg Hi. cbv zeta. destruct (expire_turns V t s Hg) as [[G1 G2 G3] T Tg Ta Tu [k Hk]]. split_and!; try done.
  assert (driveRequests (expire V t s) !! (match t with Timeout id => id | _ => [] end) = None ∨ ∀ id, t ≠ Timeout id) as D1.
  { destruct t as [id|id|id|id| |id]; try (by right). left. apply (finish_gone _ id _ _ Hg). }
  assert ((∃ id, t = InspectTimeout id ∧ inspections (expire V t s) !! id = None) ∨ ∀ id, t ≠ InspectTimeout id) as D2.
  { destruct t as [id|id|id|id| |id]; try (by right). left. exists id. split; [done|]. cbn [Client.expire]. unfold finishInspection.
    destruct (inspections s !! id) eqn:E; [|done]. books_change. apply lookup_delete_eq. }
  assert (timers (expire V t s) !! i = Some t) as Hi'. { rewrite Hk. by apply lookup_app_l_Some. }
  set (s1 := expire V t s) in *. clearbody s1. split.
  - exact G1.
  - intros id H. change (timers { s1 with timers := delete i (timers s1) }) with (delete i (timers s1)). eapply elem_of_delete_ne; [by apply G2|exact Hi'|].
    intros <-. destruct D1 as [D1|D1]; [|by apply (D1 id)]. apply eq_None_not_Some in D1. by apply D1.
  - intros id H. change (timers { s1 with timers := delete i (timers s1) }) with (delete i (timers s1)). eapply elem_of_delete_ne; [by apply G3|exact Hi'|].
    intros <-. destruct D2 as [(id' & [= <-] & D2)|D2]; [|by apply (D2 id)]. apply eq_None_not_Some in D2. by apply D2.
Qed.
Lemma turned_issued s s' : good s → turns s s' → issued s s' [].
Proof.
  intros Hg Ht. destruct (Ht Hg) as [H1 H2 _ _ H3 _]. split; [done| |done|done]. intros id. rewrite H2, bool_decide_false by (by intros []). lia.
Qed.
Lemma ask_issues V r s : good s → issued s (ask V r s).2 (ask V r s).1.
Proof.
  intros Hg. destruct r; cbn [Client.ask].
  - unfold listHostDirectory. destruct (_ || _); [by apply issued_none|by apply request_issues].
  - unfold statHostEntry. destruct (drivePath _ _ _); [by apply request_issues|by apply issued_none].
  - unfold inspectHostFile. destruct (_ || _ || _); [by apply issued_none|]. cbv zeta. cbn [fst snd]. set (i := mkInspection _ _ _ _ _).
    match goal with |- context [arm _ (arm _ ?x)] => set (s1 := x) end. set (id := uuid (uuids s)).
    assert (driveRequests s1 = driveRequests s ∧ inspections s1 = <[id := i]> (inspections s) ∧ out s1 = out s ∧ timers s1 = timers s ∧ uuids s1 = S (uuids s))
      as (E1 & E2 & E3 & E4 & E5) by done. clearbody s1 i. destruct Hg as [G1 G2 G3]. destruct (G1 (uuids s) ltac:(lia)) as (F1 & F2 & F3). fold id in F1, F2, F3.
    split.
    + split.
      * intros n. books_change. intros Hn. unfold answers. books_change. rewrite E1, E2, E3. rewrite lookup_insert_ne by (intros H%unique; lia). apply G1. lia.
      * books_change. rewrite E1, E4. intros id' H. rewrite !elem_of_app. left. left. by apply G2.
      * books_change. rewrite E2, E4. intros id' H. rewrite !elem_of_app. destruct (decide (id' = id)) as [->|Hne]; [right; by apply list_elem_of_singleton|].
        rewrite lookup_insert_ne in H by done. left. left. by apply G3.
    + intros id'. unfold tally, open_, answers. books_change. rewrite E1, E2, E3. destruct (decide (id' = id)) as [->|Hne].
      * rewrite lookup_insert_eq, bool_decide_true by (split; [apply drawn|done]). rewrite F2. lia.
      * rewrite lookup_insert_ne, bool_decide_false by (done || by intros []). lia.
    + intros _. exists (uuids s). books_change. split; [done|lia].
    + books_change. lia.
  - unfold readHostFile. destruct (_ || _ || _ || _); [by apply issued_none|by apply request_issues].
  - unfold writeHostFile. destruct (_ || _); [by apply issued_none|by apply request_issues].
  - unfold createHostDirectory. destruct (inSection _ _); [by apply request_issues|by apply issued_none].
Qed.
Lemma step_issues s e : good s → issued s (step s e) (match e.2 with Ask r => (ask e.1.1 r s).1 | _ => [] end).
Proof.
  intros Hg. destruct e as [[V V'] e]. destruct e; cbn [Client.step fst snd].
  - by apply ask_issues.
  - apply turned_issued; [done|]. unfold requestHost. destruct (_ || _ || _ || _); [done|]. cbv zeta. set (s1 := emit _ s).
    assert (turns s s1) as H1 by (by apply turns_emit). clearbody s1. destruct (isEmpty _); [done|]. cbn [snd]. etransitivity; [exact H1|].
    etransitivity; [|apply turns_arm]. by apply turns_books.
  - apply turned_issued, refreshHost_turns; done.
  - apply turned_issued, startReplica_turns; done.
  - apply turned_issued, connectHost_turns; done.
  - apply turned_issued, stop_turns; done.
  - apply turned_issued; [done|]. unfold synchronizeNow. cbv zeta. etransitivity; [apply (update_turns V V')|]. destruct (direct _); [apply refreshHost_turns|by apply turns_emit].
  - destruct (timers s !! i) as [t|] eqn:Hi; [|by apply turned_issued]. destruct (fire_good V t i s Hg Hi) as (H1 & H2 & H3). split; [done| |done|done].
    intros id. rewrite bool_decide_false by (by intros []). rewrite Nat.add_0_r. apply H2.
  - apply turned_issued, response_turns; done.
  - apply turned_issued, update_turns; done.
  - apply turned_issued, transportStop_turns; done.
  - apply turned_issued, peers_turns; done.
  - apply turned_issued; [done|]. cbv zeta. set (s1 := if isEmpty _ then s else _). assert (turns s s1) as H1 by (unfold s1; destruct (isEmpty _); [done|by apply turns_books]).
    clearbody s1. etransitivity; [exact H1|]. destruct (_ && _); [apply peers_turns|by apply turns_emit].
  - apply turned_issued; [done|]. apply turns_told; [done|apply refreshHost_turns].
  - apply turned_issued; [done|]. cbv zeta. etransitivity; [|apply update_turns]. set (s1 := if _ && _ && _ then _ else s).
    assert (turns s s1) as H1 by (unfold s1; destruct (_ && _ && _); [by apply turns_emit|done]). clearbody s1. etransitivity; [exact H1|].
    destruct (hasNearby s1); [by apply turns_emit|done].
Qed.
(** ** What the application sees *)
Lemma start_good account : good (start account).
Proof.
  split.
  - intros n _. split_and!; [apply lookup_empty|apply lookup_empty|done].
  - intros id [x H]. change ((∅ : gmap QString DriveRequest) !! id = Some x) in H. by rewrite lookup_empty in H.
  - intros id [x H]. change ((∅ : gmap QString Inspection) !! id = Some x) in H. by rewrite lookup_empty in H.
Qed.
Lemma start_tally account id : tally (start account) id = 0%nat.
Proof.
  unfold tally, open_, answers, start. cbn [driveRequests inspections out]. rewrite (lookup_empty (M := gmap QString) (A := DriveRequest)).
  by rewrite (lookup_empty (M := gmap QString) (A := Inspection)).
Qed.
Lemma asked_snoc s l e : asked s (l ++ [e]) = asked s l ++ (let id := match e.2 with Ask r => (ask e.1.1 r (history s l)).1 | _ => [] end in if isEmpty id then [] else [id]).
Proof. revert s. induction l as [|x l IH]; intros s; cbn; [by rewrite app_nil_r|]. rewrite IH. by rewrite app_assoc. Qed.
Lemma history_last s l e : history s (l ++ [e]) = step (history s l) e.
Proof. unfold Client.history. by rewrite foldl_app. Qed.
Lemma history_tally account l : let s := history (start account) l in
  good s ∧ NoDup (asked (start account) l) ∧ (∀ id, tally s id = if bool_decide (id ∈ asked (start account) l) then 1 else 0)%nat
  ∧ ∀ id, id ∈ asked (start account) l → ∃ n, id = uuid n ∧ (n < uuids s)%nat.
Proof.
  cbv zeta. induction l as [|e l IH] using rev_ind.
  - split_and!; [apply start_good|apply NoDup_nil_2| |by intros id H%not_elem_of_nil]. intros id. rewrite bool_decide_false by apply not_elem_of_nil.
    apply start_tally.
  - rewrite history_last, asked_snoc. cbv zeta. set (s := history (start account) l) in *. clearbody s. destruct IH as (Hg & Hd & Ht & Hn).
    pose proof (step_issues s e Hg) as Hs. set (id := match e.2 with Ask r => _ | _ => _ end) in *. set (s' := step s e) in *. clearbody id s'.
    destruct Hs as [I1 I2 I3 I4]. split_and!.
    + exact I1.
    + destruct (isEmpty id) eqn:Ei; [by rewrite app_nil_r|]. unfold isEmpty in Ei. apply bool_decide_eq_false in Ei.
      apply NoDup_app. split_and!; [done| |apply NoDup_singleton]. intros x Hx Hin%list_elem_of_singleton. subst x. destruct (I3 Ei) as (n & -> & Hle & _).
      destruct (Hn _ Hx) as (m & E%unique & Hm). lia.
    + intros id'. rewrite I2, Ht. destruct (isEmpty id) eqn:Ei; unfold isEmpty in Ei.
      * apply bool_decide_eq_true in Ei as ->. rewrite app_nil_r. destruct (bool_decide (_ ∧ _)) eqn:E; [apply bool_decide_eq_true in E; by destruct E|lia].
      * apply bool_decide_eq_false in Ei. destruct (decide (id' = id)) as [->|Hne].
        -- rewrite (bool_decide_true (id ≠ [] ∧ id = id)) by done. rewrite (bool_decide_true (id ∈ _ ++ _)) by (apply elem_of_app; right; by apply list_elem_of_singleton).
           rewrite bool_decide_false; [done|]. intros Hx. destruct (I3 Ei) as (n & -> & Hle & _). destruct (Hn _ Hx) as (m & E%unique & Hm). lia.
        -- rewrite (bool_decide_false (id ≠ [] ∧ id' = id)) by (by intros []). rewrite (bool_decide_ext (id' ∈ asked _ _ ++ [id]) (id' ∈ asked (start account) l)); [lia|].
           rewrite elem_of_app, list_elem_of_singleton. tauto.
    + intros x [Hx|Hx]%elem_of_app.
      * destruct (Hn _ Hx) as (m & -> & Hm). exists m. split; [done|lia].
      * destruct (isEmpty id) eqn:Ei; [by apply not_elem_of_nil in Hx|]. apply list_elem_of_singleton in Hx as ->. unfold isEmpty in Ei.
        apply bool_decide_eq_false in Ei. destruct (I3 Ei) as (n & -> & _ & Hlt). by exists n.
Qed.
(** C9: An application gets one answer to what it asks.  Whatever happened, to the
    account, the transports and the application's other calls, the identifiers that it was
    given for requests to the host's drive and for inspections of files are all different;
    each of them either was answered exactly once, or is open and was not answered; no
    other identifier was answered.  And an open one has its timer armed: at the latest
    when that fires, it is answered, once, and closed. *)
Theorem drive_answered_once account l : let s := history (start account) l in
  NoDup (asked (start account) l)
  ∧ (∀ id, (open_ s id + answers s id)%nat = if bool_decide (id ∈ asked (start account) l) then 1%nat else 0%nat)
  ∧ (∀ id, open_ s id = 1%nat → ∃ i, ∀ V V', answers (step s (V, V', Fire i)) id = 1%nat ∧ open_ (step s (V, V', Fire i)) id = 0%nat).
Proof.
  cbv zeta. destruct (history_tally account l) as (Hg & Hd & Ht & _). set (s := history (start account) l) in *. split_and!; [done|exact Ht|].
  clearbody s. intros id Ho. assert (tally s id = 1)%nat as H1.
  { specialize (Ht id). unfold tally in *. destruct (bool_decide _); lia. }
  assert (∃ i t, timers s !! i = Some t ∧ (t = Timeout id ∧ inspections s !! id = None ∨ t = InspectTimeout id ∧ public (driveRequests s !! id) = 0%nat)) as (i & t & Hi & Hc).
  { unfold open_ in Ho. destruct (inspections s !! id) as [x|] eqn:Ei.
    - destruct (proj1 (list_elem_of_lookup _ _) (gd_inspect _ Hg id ltac:(by eexists))) as [i Hi]. exists i, (InspectTimeout id). split; [done|right]. split; [done|lia].
    - destruct (driveRequests s !! id) as [r|] eqn:Er; [|done].
      destruct (proj1 (list_elem_of_lookup _ _) (gd_request _ Hg id ltac:(by eexists))) as [i Hi]. exists i, (Timeout id). split; [done|by left]. }
  exists i. intros V V'. cbn [Client.step fst snd]. rewrite Hi. destruct (fire_good V t i s Hg Hi) as (_ & Hq & _). specialize (Hq id). rewrite H1 in Hq.
  change (answers { (expire V t s) with timers := delete i (timers (expire V t s)) } id) with (answers (expire V t s) id).
  change (open_ { (expire V t s) with timers := delete i (timers (expire V t s)) } id) with (open_ (expire V t s) id).
  assert (open_ (expire V t s) id = 0%nat) as Hz; [|unfold tally in Hq; lia]. unfold open_. destruct Hc as [[-> Hx]|[-> Hx]].
  - cbn [Client.expire]. rewrite (finish_gone V id _ s Hg). by rewrite (tn_absent _ _ (finishDrive_turns V id _ s Hg) _ Hx).
  - cbn [Client.expire]. unfold finishInspection. destruct (inspections s !! id) eqn:Ei; [|by rewrite Hx, Ei]. books_change.
    change (driveRequests { s with inspections := delete id (inspections s) }) with (driveRequests s).
    change (inspections { s with inspections := delete id (inspections s) }) with (delete id (inspections s)). by rewrite lookup_delete_eq, Hx.
Qed.
End client.

(** ** A phone that asks for a file of its host *)
Module Examples.
Definition draw (n : nat) : QString := replicate (S n) 48%N.
Lemma draw_inj : Inj eq eq draw.
Proof. intros a b H. apply (f_equal List.length) in H. unfold draw in H. rewrite !length_replicate in H. by injection H. Qed.
Lemma drawn_some n : draw n ≠ [].
Proof. done. Qed.
Lemma in_order {A} (m : gmap QString A) : map_to_list m ≡ₚ map_to_list m.
Proof. done. Qed.
Definition view : View :=
  mkView true (u "scope") (u "host") (u "container") (u "phone") (u "Phone") (u "phone") [] true true [] [] [] false
    true [u "host"] [] false [] [] true [] false [] ∅ [] false None ∅ None.
Notation demo f := (f 262144 1048576 (λ _, false) (λ k, k) (λ k, k) (λ k, k) draw (λ _, None) (u "me") map_to_list map_to_list).
Definition events : list (View * View * Event) := [(view, view, ConnectHost); (view, view, Ask (Stat (u "files/a")))].
Lemma drive_answered_once_witness : ∃ id i, ∀ V V',
  answers (demo (Client.step (PF := Demo.platform)) (demo (Client.history (PF := Demo.platform)) (start true) events) (V, V', Fire i)) id = 1%nat.
Proof.
  destruct (demo (drive_answered_once (PF := Demo.platform)) in_order in_order draw_inj drawn_some true events) as (_ & _ & H).
  destruct (H (draw 2) ltac:(by vm_compute)) as [i Hi]. exists (draw 2), i. intros V V'. exact (proj1 (Hi V V')).
Defined.
End Examples.
End ClientFacts.
