(* ===== verification/FileSystem.v ===== *)
(** An application's view of the drive, src/Files/FileSystem.cpp: the selection of a drive,
    the mirror of its files with the threads that scan it, and the operations on files. *)
From S2P Require Import Prelude Qt Records.
From coqutil Require Import Datatypes.RecordSetters.
Import OCamlLikeNotations.
Open Scope Z_scope.

(** QFileInfo of a path; [plain] is false for links and junctions. *)
Record FileInfo := mkInfo { exists_ : bool; isFile : bool; isDir : bool; plain : bool; canonicalFilePath : QString; fileName : QString;
  suffix : QString; infoSize : Z; lastModified : Z; absolutePath : QString }.
(** What the code takes from the container library, the file provider and Qt. Every
    reading is of the disk at a time, [world]; an operation that changes it gives the
    new one and what was thrown, if anything. *)
Class Library := {
  world : Type;
  Storage : Type;
  Storage_eq :: EqDecision Storage;
  identifier : Storage → QString;
  driveRoot : Storage → QString;
  openStorage : QString → world → Storage + QString;
  isValid : Storage → world → bool;
  isLocalAuthority : Storage → world → bool;
  mapObjects : Storage → world → list jobj;
  mapObject : Storage → QString → world → jobj;
  previewPath : Storage → jobj → world → QString;
  (* A path, or the error. *)
  filePath : Storage → QString → QString → world → QString * QString;
  ensureDirectory_ : Storage → QString → QString → world → (QString * QString) * world;
  sectionPath : Storage → QString → QString;
  (* QDirIterator over the plain files of a directory, below it too or not. *)
  walk : QString → bool → world → list QString;
  (* QDir::entryInfoList by name: each name and its native path. *)
  listing : QString → world → list (QString * QString);
  info : QString → world → FileInfo;
  physicalPath : QString → QString;
  relativeFilePath : QString → QString → QString;
  absoluteFilePath : QString → QString;
  (* iiFileProvider::File::absolutePath, which may throw. *)
  providerPath : QString → QString + QString;
  pathFrom : QString → QString → QString;
  containingDrive : QString → world → option Storage;
  isControlFile : QString → bool;
  samePathSpelling : QString → QString → bool;
  sectionName : QString → QString;
  toLower : QString → QString;
  toUpper : QString → QString;
  formattedDataSize : Z → QString;
  fromLocalFile : QString → QString;
  (* Reads of at most so many bytes, and writes under a ManagedFileOperation. *)
  fileHash : QString → Z → world → QString + QString;
  copyFile : QString → QString → world → option QString * world;
  removeFile_ : QString → world → (bool + QString) * world;
  writeFile : QString → list N → bool → world → option QString * world;
  removeRecursively : QString → world → bool * world
}.

Module FileSystem.
Section library.
Context {PF : Platform} {LB : Library}.

Definition providerControl (relative : QString) : bool := existsb isControlFile (qsplit slash relative).
Definition files := u "files".
Definition published_ := u "published".
Definition generationHistory := u "generation-history".
Definition middot : QString := [32; 183; 32]%N.
Definition imageSuffixes : list QString :=
  [u "png"; u "jpg"; u "jpeg"; u "webp"; u "bmp"; u "gif"; u "tif"; u "tiff"; u "avif"; u "heic"; u "heif"].
(** QVariant::toLongLong of a member, a number or a decimal text. *)
Definition variantLong (v : jval) : Z := match v with JNum n => n | _ => jlong v end.
Definition present (native : QString) (w : world) : bool :=
  isFile (info native w) && plain (info native w) && bool_decide (canonicalFilePath (info native w) = native).
Definition fileAlias (st : Storage) (section relative native : QString) (object : jobj) (w : world) : jobj :=
  let i := info native w in
  let available := present native w in
  let key := section ++ u "/" ++ relative in
  let id := identifier st ++ u "/" ++ key in
  let exists_ := available || (negb (jempty object) && bool_decide (toStr object.["kind"] = u "file")) in
  let size := if available then infoSize i else variantLong object.["size"] in
  let ext := toLower (suffix i) in
  let image := bool_decide (ext ∈ imageSuffixes) in
  let source := if available then fromLocalFile native else [] in
  let stamp := numberStr (lastModified i) ++ u ":" ++ numberStr (infoSize i) in
  let shown := if image && negb (isEmpty source) then source ++ u "?v=" ++ numberStr (lastModified i) ++ u "-" ++ numberStr (infoSize i) else [] in
  let remote := previewPath st object w in
  let shown := if negb available && negb (jempty object) then (if isEmpty remote then [] else fromLocalFile remote) else shown in
  let kindName := if image then u "Image" else if bool_decide (ext = u "iisc") then u "Canvas" else u "Document" in
  let description := sectionName section ++ middot ++ kindName in
  let metadata1 := toUpper ext ++ middot ++ formattedDataSize size in
  let metadata2 := u "Society / " ++ sectionName section in
  let o := obj [("id", JStr id); ("containerId", JStr (identifier st)); ("key", JStr key); ("informationKey", JStr key); ("informationAvailable", JBool exists_);
       ("section", JStr section); ("relativePath", JStr relative); ("name", JStr (fileName i)); ("exists", JBool exists_); ("available", JBool available);
       ("path", JStr (if available then native else [])); ("source", JStr source); ("previewSource", JStr shown); ("thumbnailSource", JStr shown);
       ("isImage", JBool image); ("size", JNum size); ("modified", JNum (lastModified i)); ("folderPath", JStr (absolutePath i));
       ("history", JBool (bool_decide (section = generationHistory)));
       ("iconName", JStr (if image then u "fileTypesimage" else if bool_decide (ext = u "iisc") then u "application" else u "fileTypestext"));
       ("description", JStr description); ("metadata1", JStr metadata1); ("metadata2", JStr metadata2)]%string in
  if available then jinsert o "version" (JStr stamp)
  else if negb (jempty object) then jinsert o "version" (JStr (toStr object.["version"])) else o.

(** ** A scan of the drive *)
Record MirrorSnapshot := mkSnapshot { id : QString; root : QString; scanError : QString; aliases : list jobj; available : bool }.
Definition limit : nat := 25000.
(** The files that are there, area by area: the rows and the keys of them. *)
Definition residentStep (st : Storage) (section directory : QString) (w : world) (acc : list jobj * gset QString) (native : QString)
    : list jobj * gset QString :=
  if (limit <=? List.length acc.1)%nat then acc else
  let relative := relativeFilePath directory native in
  if startsWith (fileName (info native w)) (u ".") || providerControl relative then acc else
  let logical := section ++ u "/" ++ relative in
  if isEmpty (physicalPath logical) then acc else
  if present native w then (acc.1 ++ [fileAlias st section relative native ∅ w], {[logical]} ∪ acc.2) else acc.
Definition residentSection (st : Storage) (w : world) (acc : list jobj * gset QString) (section : QString) : list jobj * gset QString :=
  let directory := (filePath st section [] w).1 in
  if isEmpty directory then acc else
  foldl (residentStep st section directory w) acc (walk directory (negb (bool_decide (section = generationHistory))) w).
(** What the replica's catalog declares and is not there. *)
Definition declaredStep (st : Storage) (w : world) (acc : list jobj * gset QString) (object : jobj) : list jobj * gset QString :=
  if (limit <=? List.length acc.1)%nat then acc else
  let key := toStr object.["path"] in
  let section := sectionFirst slash key in
  if negb (bool_decide (object.["kind"] = JS "file")) || bool_decide (key ∈ acc.2) || providerControl key || isEmpty (physicalPath key) then acc else
  if negb (bool_decide (section ∈ [files; published_; generationHistory])) then acc else
  let relative := qmid (qsize section + 1) key in
  (acc.1 ++ [fileAlias st section relative (pathFrom (sectionPath st section) relative) object w], {[key]} ∪ acc.2).
Definition unavailable (e : string) : MirrorSnapshot := mkSnapshot [] [] (u e) [] false.
(** [w'] is the disk when the scan ends. *)
Definition scanMirror (storage : option Storage) (w w' : world) : MirrorSnapshot :=
  match storage with
  | None => unavailable "The selected Society drive is unavailable or changed."
  | Some st =>
      if negb (isValid st w) then unavailable "The selected Society drive is unavailable or changed." else
      let acc := foldl (residentSection st w) ([], ∅) [files; published_; generationHistory] in
      let acc := if isLocalAuthority st w then acc else foldl (declaredStep st w) acc (mapObjects st w) in
      if isValid st w' then mkSnapshot (identifier st) (driveRoot st) [] acc.1 true
      else unavailable "The selected Society drive changed during synchronization."
  end.

(** ** The object *)
(** A scan that the mirror's worker was given, with the selection of the time. *)
Record Job := mkJob { jobEpoch : Z; jobStorage : option Storage; jobIntake : nat }.
(** What is queued for the owner's thread. *)
Inductive Reply :=
| Scanned (j : Job) (snapshot : MirrorSnapshot)
| IntakeError (epoch : Z) (e : QString)
| Monitored (epoch : Z) (value : jobj).
Inductive Signal :=
| ErrorChanged | StorageChanged | ContainerStateChanged | SynchronizationFinished (ok : bool)
| Published (drive : option Storage) (snapshot : MirrorSnapshot) | MonitorStart (root id : QString) (epoch : Z) | MonitorStop.
(** FileSystem::Private; [intake] numbers the present stop source (the others were
    stopped), [mirrored] the arguments of the last Container::synchronize. The epochs
    count selections and scans; their 64 bits do not wrap in the lifetime of a process.
    Slots connected to the signals run after the operation that sends them. *)
Record FileSystem := mkFileSystem {
  selection : QString; error : QString; storage : option Storage;
  mirrorEpoch : Z; mirrorInFlight : bool; mirrorPending : bool;
  synchronization : bool;
  containerState : jobj; monitorEpoch : Z; monitored : option (QString * QString);
  intake : nat;
  mirrorJobs : list Job; intakeJobs : list (Z * Storage * nat); replies : list Reply;
  mirrored : MirrorSnapshot;
  out : list Signal
}.
Definition start : FileSystem := mkFileSystem [] [] None 0 false false false ∅ 0 None O [] [] [] (mkSnapshot [] [] [] [] false) [].
Definition emit (x : Signal) (s : FileSystem) : FileSystem := { s with out := out s ++ [x] }.
Definition setError (e : QString) (s : FileSystem) : FileSystem :=
  if bool_decide (error s = e) then s else emit ErrorChanged { s with error := e }.
(** Container::synchronize, with the drive that was scanned. *)
Definition publish (drive : option Storage) (snap : MirrorSnapshot) (s : FileSystem) : FileSystem := emit (Published drive snap) { s with mirrored := snap }.
Definition nextEpoch (s : FileSystem) : FileSystem := { s with mirrorEpoch := mirrorEpoch s + 1 }.

(** *** The monitor *)
Definition stopMonitor (s : FileSystem) : FileSystem :=
  let s := emit MonitorStop { s with monitorEpoch := monitorEpoch s + 1; monitored := None; synchronization := true } in
  if jempty (containerState s) then s else emit ContainerStateChanged { s with containerState := ∅ }.
Definition startMonitor (s : FileSystem) : FileSystem :=
  match storage s with
  | None => s
  | Some st =>
      if bool_decide (monitored s = Some (driveRoot st, identifier st)) then s else
      let s := stopMonitor s in
      emit (MonitorStart (driveRoot st) (identifier st) (monitorEpoch s)) { s with monitored := Some (driveRoot st, identifier st) }
  end.

(** *** The mirror *)
(** At once, on the owner's thread. *)
Definition synchronize (w w' : world) (s : FileSystem) : bool * FileSystem :=
  let s := nextEpoch s in
  let snap := scanMirror (storage s) w w' in
  (available snap, publish (storage s) snap (setError (scanError snap) s)).
(** By the worker: one scan at a time, and one more afterwards when it was asked for
    meanwhile. *)
Definition requestSynchronization (s : FileSystem) : FileSystem :=
  if mirrorInFlight s then { s with mirrorPending := true } else
  { s with mirrorInFlight := true; mirrorJobs := mirrorJobs s ++ [mkJob (mirrorEpoch s) (storage s) (intake s)] }.
(** The worker scans; [thrown] is the exception that ended it. *)
Definition scanned (thrown : option QString) (w w' : world) (j : Job) : MirrorSnapshot :=
  match thrown with Some e => mkSnapshot [] [] e [] false | None => scanMirror (jobStorage j) w w' end.
Definition received (j : Job) (snap : MirrorSnapshot) (s : FileSystem) : FileSystem :=
  let s := { s with mirrorInFlight := false } in
  let current := jobEpoch j =? mirrorEpoch s in
  let s := if current then
             let s := publish (jobStorage j) snap (setError (scanError snap) s) in
             match jobStorage j with
             | Some st => if available snap && (jobIntake j =? intake s)%nat
                          then { s with intakeJobs := intakeJobs s ++ [(jobEpoch j, st, jobIntake j)] } else s
             | None => s
             end
           else s in
  let s := emit (SynchronizationFinished (current && available snap)) s in
  if mirrorPending s then requestSynchronization { s with mirrorPending := false } else s.
(** A state of the container that the monitor saw. *)
Definition monitorState (epoch : Z) (value : jobj) (w : world) (s : FileSystem) : FileSystem :=
  if negb (monitorEpoch s =? epoch) then s else
  let previous := containerState s in
  let local := match storage s with Some st => isLocalAuthority st w | None => false end in
  let up := toBool value.["available"] in
  let s := { s with containerState := value; synchronization := negb (toBool value.["daemonRunning"] && up && toBool value.["complete"] && local) } in
  let s := if up && (negb (bool_decide (previous.["revision"] = value.["revision"])) || negb (bool_decide (previous.["instanceId"] = value.["instanceId"])))
           then emit StorageChanged (requestSynchronization s) else s in
  emit ContainerStateChanged s.

(** *** The selection *)
Definition open (path : QString) (w w' : world) (s : FileSystem) : bool * FileSystem :=
  let s := { (nextEpoch s) with intake := S (intake s); selection := path } in
  let '(st, e) := match openStorage path w with inl st => (Some st, []) | inr e => (None, e) end in
  let s := { s with storage := st } in
  let ok := bool_decide (is_Some st) in
  let s := if ok then s else stopMonitor s in
  let s := (synchronize w w' (startMonitor (setError e s))).2 in
  (ok, emit StorageChanged s).
Definition refresh (w w' : world) (s : FileSystem) : bool * FileSystem := open (selection s) w w' s.
Definition isAvailable (w : world) (s : FileSystem) : bool := match storage s with Some st => isValid st w | None => false end.
Definition rootPath (w : world) (s : FileSystem) : QString := match storage s with Some st => if isValid st w then driveRoot st else [] | None => [] end.
Definition containerId (w : world) (s : FileSystem) : QString := match storage s with Some st => if isValid st w then identifier st else [] | None => [] end.
Definition openForSource (source : QString) (w w' : world) (s : FileSystem) : bool * FileSystem :=
  match containingDrive source w with Some st => open (driveRoot st) w w' s | None => refresh w w' s end.
(** What one object captures and another adopts. *)
Record PreparedStorage := mkPrepared { preparedSelection : QString; preparedStorage_ : option Storage; preparedError : QString; preparedMirror : MirrorSnapshot }.
Definition preparedStorage (s : FileSystem) : PreparedStorage := mkPrepared (selection s) (storage s) (error s) (mirrored s).
Definition adoptStorage (prepared : option PreparedStorage) (w : world) (s : FileSystem) : bool * FileSystem :=
  match prepared with
  | None => (false, setError (u "Capture a storage selection before adopting it.") s)
  | Some p =>
      if match preparedStorage_ p with Some st => negb (isValid st w) | None => false end
      then (false, setError (u "The prepared Society drive is unavailable or changed.") s) else
      let s := stopMonitor { (nextEpoch s) with mirrorPending := false } in
      let s := setError (preparedError p) { s with storage := preparedStorage_ p; selection := preparedSelection p } in
      let m := preparedMirror p in
      let s := publish (preparedStorage_ p) (mkSnapshot (id m) (root m) (preparedError p) (aliases m) (available m)) s in
      (true, emit StorageChanged (startMonitor s))
  end.
(** An object may start before there is a drive: each operation tries again. *)
Definition ready (w w' : world) (s : FileSystem) : bool * FileSystem :=
  match storage s with
  | None => open (selection s) w w' s
  | Some st =>
      if isValid st w then (true, s) else
      (false, emit StorageChanged (setError (u "The selected Society drive is unavailable or changed. Refresh its selection before accessing files.") s))
  end.

(** ** Files *)
Definition section (key : QString) (s : FileSystem) : bool * FileSystem :=
  if bool_decide (key ∈ Records.sections.*1) then (true, s) else (false, setError (u "Unknown Society area: " ++ key) s).
(** A section that is known, of a drive that is ready. *)
Definition reach (key : QString) (w w' : world) (s : FileSystem) : option Storage * FileSystem :=
  let '(known, s) := section key s in
  if negb known then (None, s) else
  let '(ok, s) := ready w w' s in
  ((if ok then storage s else None), s).
Definition path (key relative : QString) (w w' : world) (s : FileSystem) : QString * FileSystem :=
  match reach key w w' s with
  | (Some st, s) => let '(p, e) := filePath st key relative w' in (p, setError e s)
  | (None, s) => ([], s)
  end.
Definition url (key relative : QString) (w w' : world) (s : FileSystem) : QString * FileSystem :=
  let '(p, s) := path key relative w w' s in (if isEmpty p then [] else fromLocalFile p, s).
Definition ensureDirectory (key relative : QString) (w w' : world) (s : FileSystem) : QString * FileSystem * world :=
  match reach key w w' s with
  | (Some st, s) => let '((p, e), w') := ensureDirectory_ st key relative w' in (p, setError e s, w')
  | (None, s) => ([], s, w')
  end.
Definition sections (w : world) (s : FileSystem) : list (QString * QString) :=
  match storage s with
  | Some st => if isValid st w then map (λ key, (key, sectionPath st key)) Records.sections.*1 else []
  | None => []
  end.
Definition entry (st : Storage) (key : QString) (w : world) (e : QString * QString) : list jobj :=
  if isControlFile e.1 then [] else
  let relative := relativeFilePath (sectionPath st key) e.2 in
  let checked := (filePath st key relative w).1 in
  let i := info e.2 w in
  let informationKey := if isFile i then key ++ u "/" ++ relative else [] in
  if negb (isEmpty checked) && (isDir i || isFile i) then
    [obj [("name", JStr e.1); ("path", JStr checked); ("isDirectory", JBool (isDir i)); ("size", JNum (infoSize i));
          ("informationKey", JStr informationKey); ("informationAvailable", JBool (isFile i))]%string] else [].
Definition entries (key relative : QString) (w w' : world) (s : FileSystem) : list jobj * FileSystem :=
  match reach key w w' s with
  | (None, s) => ([], s)
  | (Some st, s) =>
      let '(directory, e) := filePath st key relative w' in
      if isEmpty directory || negb (isDir (info directory w'))
      then ([], setError (if isEmpty e then u "Society directory is unavailable." else e) s) else
      (flat_map (entry st key w') (listing directory w'), setError [] s)
  end.
Definition alias (key relative : QString) (w w' : world) (s : FileSystem) : jobj * FileSystem :=
  if providerControl relative then (∅, setError (u "Provider control documents are private.") s) else
  let '(known, s) := section key s in
  if negb known then (∅, s) else
  let '(native, s) := path key relative w w' s in
  match storage s with
  | None => (∅, s)
  | Some st =>
      let resident := negb (isEmpty native) && present native w' in
      let declared := if resident || isLocalAuthority st w' then ∅ else mapObject st (key ++ u "/" ++ relative) w' in
      let '(native, s) := if negb resident && isEmpty native && bool_decide (toStr declared.["kind"] = u "file")
                          then (pathFrom (sectionPath st key) relative, setError [] s) else (native, s) in
      if isEmpty native then (∅, s) else (fileAlias st key relative native declared w', s)
  end.
(** The version of a canvas is the digest of its bytes. *)
Definition canvasVersion (native : QString) (w : world) (value : jobj) (s : FileSystem) : jobj * FileSystem :=
  if bool_decide (toLower (suffix (info native w)) = u "iisc") then
    match fileHash native (512 * 1024 * 1024) w with
    | inl h => (jinsert value "version" (JStr h), s)
    | inr e => (∅, setError e s)
    end
  else (value, s).
Definition aliasForPath (source : QString) (w w' : world) (s : FileSystem) : jobj * FileSystem :=
  let absolute := absoluteFilePath source in
  let '(ok, s) := match storage s with
                  | Some st => if startsWith absolute (driveRoot st ++ u "/") then ready w w' s else (true, s)
                  | None => (true, s)
                  end in
  if negb ok then (∅, s) else
  match find (λ e, startsWith absolute (e.2 ++ u "/")) (sections w' s) with
  | Some (key, directory) =>
      let '(value, s) := alias key (relativeFilePath directory absolute) w' w' s in
      if toBool value.["available"] then canvasVersion absolute w' value s else (value, s)
  | None =>
      let i := info absolute w' in
      if negb (isFile i) || negb (plain i) || negb (samePathSpelling (canonicalFilePath i) absolute) then (∅, s) else
      let stamp := numberStr (lastModified i) ++ u ":" ++ numberStr (infoSize i) in
      canvasVersion absolute w'
        (obj [("path", JStr absolute); ("source", JStr (fromLocalFile absolute)); ("exists", JBool true); ("available", JBool true);
              ("name", JStr (fileName i)); ("size", JNum (infoSize i)); ("version", JStr stamp)]%string) s
  end.
Definition publishFile (source key relative : QString) (w w' : world) (s : FileSystem) : QString * FileSystem * world :=
  let '(destination, s) := path key relative w w' s in
  if isEmpty destination then ([], s, w') else
  if bool_decide (toLower (suffix (info relative w')) = u "iisc") && negb (bool_decide (key = files))
  then ([], setError (u "Society canvas documents belong to Files.") s, w') else
  match copyFile source destination w' with
  | (None, w') => (destination, (synchronize w' w' s).2, w')
  | (Some e, w') => ([], setError e s, w')
  end.
Definition removeFile (key relative : QString) (w w' : world) (s : FileSystem) : bool * FileSystem * world :=
  let '(selected, s) := alias key relative w w' s in
  if negb (toBool selected.["available"]) then (false, s, w') else
  match removeFile_ (toStr selected.["path"]) w' with
  | (inl removed, w') => (removed, (synchronize w' w' s).2, w')
  | (inr e, w') => (false, setError e s, w')
  end.
(** Whether a section of the drive has the path under its own name. *)
Fixpoint accepted (selected : QString) (l : list (QString * QString)) (w : world) (s : FileSystem) : bool * FileSystem :=
  match l with
  | [] => (false, s)
  | (key, directory) :: l =>
      if startsWith selected (directory ++ u "/") then
        let '(p, s) := path key (relativeFilePath directory selected) w w s in
        let '(ok, s) := accepted selected l w s in
        (samePathSpelling p selected || ok, s)
      else accepted selected l w s
  end.
Definition saveFile (destination : QString) (bytes : list N) (overwrite : bool) (w w' : world) (s : FileSystem) : jobj * FileSystem * world :=
  match providerPath destination with
  | inr e => (∅, setError e s, w')
  | inl selected =>
  if endsWith (toLower selected) (u ".iisc") then (∅, setError (u "Use saveCanvas for native documents.") s, w') else
  let '(refused, s) :=
    match containingDrive selected w with
    | None => (None, s)
    | Some drive =>
        let '(ok, s) := ready w w' s in
        if negb ok || negb (bool_decide (identifier drive = containerId w' s)) then (Some (u "The export belongs to another Society container."), s) else
        let '(ok, s) := accepted selected (sections w' s) w' s in
        ((if ok then None else Some (u "Choose a file in a Society section.")), s)
    end in
  match refused with
  | Some e => (∅, setError e s, w')
  | None =>
      match writeFile selected bytes overwrite w' with
      | (Some e, w') => (∅, setError e s, w')
      | (None, w') => let '(value, s) := aliasForPath selected w' w' (setError [] (synchronize w' w' s).2) in (value, s, w')
      end
  end
  end.
Definition removeGenerationInputs (directory : QString) (w w' : world) (s : FileSystem) : bool * FileSystem * world :=
  let '(base, s) := path files [] w w' s in
  if isEmpty base || negb (startsWith directory (base ++ u "/Dreamscapes/GenerationInputs/"))
  then (false, setError (u "Only owned generation input directories can be removed.") s, w') else
  let i := info directory w' in
  if negb (exists_ i) then (true, s, w') else
  if negb (isDir i) || negb (plain i) || negb (bool_decide (canonicalFilePath i = directory))
  then (false, setError (u "The input directory was redirected and has been preserved.") s, w') else
  let '(ok, w') := removeRecursively directory w' in
  if ok then (true, (synchronize w' w' s).2, w') else (false, setError (u "Cannot remove generation input files.") s, w').

(** *** What the storage library does for the drive that is ready
    [f] is its operation on the drive: the result and the error. *)
Definition forward {A} (none : A) (absent : option QString) (f : Storage → A * QString) (w w' : world) (s : FileSystem) : A * FileSystem :=
  let '(ok, s) := ready w w' s in
  if negb ok then (none, s) else
  match storage s with
  | None => (none, match absent with Some e => setError e s | None => s end)
  | Some st => let '(r, e) := f st in (r, setError e s)
  end.
(** models, ensureRuntimeDirectory, fileInformation. *)
Definition models {A} (f : Storage → list A * QString) : world → world → FileSystem → list A * FileSystem :=
  forward [] (Some (u "Native Society model inventory is unavailable for this storage provider.")) f.
Definition ensureRuntimeDirectory (f : Storage → QString * QString) : world → world → FileSystem → QString * FileSystem := forward [] None f.
Definition fileInformation (key : QString) (f : Storage → jobj * QString) (w w' : world) (s : FileSystem) : jobj * FileSystem :=
  let '(known, s) := section key s in
  if negb known then (∅, s) else forward ∅ (Some (u "Use the host inspection API for non-native storage.")) f w w' s.
(** resolveModel, requestFiles: an empty result without an error has the error of the object. *)
Definition resolved (f : Storage → QString * QString) (w w' : world) (s : FileSystem) : QString * FileSystem :=
  let '(ok, s) := ready w w' s in
  let '(r, e) := match storage s with Some st => if ok then f st else ([], []) | None => ([], []) end in
  (r, setError (if isEmpty e && isEmpty r then error s else e) s).
(** files, available, requestState, cancelFileRequest. *)
Definition queried {A} (none : A) (f : Storage → A) (w w' : world) (s : FileSystem) : A * FileSystem :=
  let '(ok, s) := ready w w' s in
  (match storage s with Some st => if ok then f st else none | None => none end, s).
Definition publishGeneratedImage (f : Storage → QString * QString) (w w' : world) (s : FileSystem) : QString * FileSystem :=
  let '(p, s) := forward [] (Some (u "Native PNG publication is unavailable for this storage provider.")) f w w' s in
  (p, if isEmpty p then s else (synchronize w' w' s).2).
(** [chosen] is what the library makes of the application or of the new default: the
    drive to open, or the error. *)
Definition openChosen (chosen : QString + QString) (w w' : world) (s : FileSystem) : bool * FileSystem :=
  match chosen with inl root => open root w w' s | inr e => (false, setError e s) end.

(** ** What happens to the object *)
Inductive Event :=
| Open (path : QString) | Refresh | OpenForSource (source : QString) | Adopt (prepared : option PreparedStorage)
| Synchronize | RequestSynchronization | Timer
| Scan (thrown : option QString) | Intake (e : QString) | Deliver
| MonitorSees (epoch : Z) (value : jobj)
| Path (key relative : QString) | EnsureDirectory (key relative : QString) | Entries (key relative : QString) | AliasForPath (source : QString)
| PublishFile (source key relative : QString) | RemoveFile (key relative : QString) | SaveFile (destination : QString) (bytes : list N) (overwrite : bool)
| RemoveInputs (directory : QString)
| OpenChosen (chosen : QString + QString) | Resolve (f : Storage → QString * QString) | Query (f : Storage → bool) | PublishImage (f : Storage → QString * QString)
| Information (key : QString) (f : Storage → jobj * QString) | Models (f : Storage → list jobj * QString) | RuntimeDirectory (f : Storage → QString * QString).
(** The disk may change at any time: a step is given what it is at first, [w], and later. *)
Definition step (s : FileSystem) (e : world * world * Event) : FileSystem :=
  let w := e.1.1 in let w' := e.1.2 in
  match e.2 with
  | Open path => (open path w w' s).2
  | Refresh => (refresh w w' s).2
  | OpenForSource source => (openForSource source w w' s).2
  | Adopt prepared => (adoptStorage prepared w s).2
  | Synchronize => (synchronize w w' s).2
  | RequestSynchronization => requestSynchronization s
  | Timer => if synchronization s then requestSynchronization s else s
  | Scan thrown =>
      match mirrorJobs s with
      | j :: rest => { s with mirrorJobs := rest; replies := replies s ++ [Scanned j (scanned thrown w w' j)] }
      | [] => s
      end
  | Intake e =>
      match intakeJobs s with
      | (epoch, st, token) :: rest =>
          let s := { s with intakeJobs := rest } in
          if (token =? intake s)%nat && negb (isEmpty e) then { s with replies := replies s ++ [IntakeError epoch e] } else s
      | [] => s
      end
  | Deliver =>
      match replies s with
      | [] => s
      | r :: rest =>
          let s := { s with replies := rest } in
          match r with
          | Scanned j snap => received j snap s
          | IntakeError epoch e => if epoch =? mirrorEpoch s then setError e s else s
          | Monitored epoch value => monitorState epoch value w s
          end
      end
  | MonitorSees epoch value => { s with replies := replies s ++ [Monitored epoch value] }
  | Path key relative => (path key relative w w' s).2
  | EnsureDirectory key relative => (ensureDirectory key relative w w' s).1.2
  | Entries key relative => (entries key relative w w' s).2
  | AliasForPath source => (aliasForPath source w w' s).2
  | PublishFile source key relative => (publishFile source key relative w w' s).1.2
  | RemoveFile key relative => (removeFile key relative w w' s).1.2
  | SaveFile destination bytes overwrite => (saveFile destination bytes overwrite w w' s).1.2
  | RemoveInputs directory => (removeGenerationInputs directory w w' s).1.2
  | OpenChosen chosen => (openChosen chosen w w' s).2
  | Resolve f => (resolved f w w' s).2
  | Query f => (queried false f w w' s).2
  | PublishImage f => (publishGeneratedImage f w w' s).2
  | Information key f => (fileInformation key f w w' s).2
  | Models f => (models f w w' s).2
  | RuntimeDirectory f => (ensureRuntimeDirectory f w w' s).2
  end.
Definition history (s : FileSystem) (l : list (world * world * Event)) : FileSystem := foldl step s l.
End library.
End FileSystem.
