(* ===== verification/FileSystemFacts.v ===== *)
(** What holds of an application's view of the drive after every history: the mirror is
    the selected drive's, and a request to synchronize ends with a scan that began after
    it. *)
From S2P Require Import Prelude Qt Records Demo FileSystem.
From coqutil Require Import Datatypes.RecordSetters.
Import OCamlLikeNotations.
Open Scope Z_scope.

Module FileSystemFacts.
Import FileSystem.
Section facts.
Context {PF : Platform} {LB : Library}.

(** ** A scan is of one drive *)
(** A snapshot that is available is of the drive: its name, its place, and rows of its
    container, as many as the limit allows. *)
Definition about (st : option Storage) (m : MirrorSnapshot) : Prop :=
  available m = true → ∃ d, st = Some d ∧ id m = identifier d ∧ root m = driveRoot d
    ∧ (List.length (aliases m) ≤ limit)%nat ∧ Forall (λ a : jobj, a.["containerId"] = JStr (identifier d)) (aliases m).
Definition rowsOf (d : Storage) (l : list jobj) : Prop :=
  (List.length l ≤ limit)%nat ∧ Forall (λ a : jobj, a.["containerId"] = JStr (identifier d)) l.
Lemma fileAlias_container d section relative native object w :
  (fileAlias d section relative native object w).["containerId"] = JStr (identifier d).
Proof.
  unfold fileAlias. cbv zeta. generalize (present native w). intros b. destruct b; [|destruct (negb (jempty object))];
    rewrite ?jvalue_jinsert_ne by done; rewrite jvalue_obj; reflexivity.
Qed.
Lemma rowsOf_app d l a : rowsOf d l → (limit <=? List.length l)%nat = false → a.["containerId"] = JStr (identifier d) → rowsOf d (l ++ [a]).
Proof.
  intros [H1 H2] Hl%Nat.leb_gt Ha. split; [rewrite length_app; cbn [List.length]; lia|]. apply Forall_app. split; [done|by apply Forall_singleton].
Qed.
Lemma rowsOf_residentStep d section directory w acc native :
  rowsOf d acc.1 → rowsOf d (residentStep d section directory w acc native).1.
Proof.
  intros H. unfold residentStep. destruct (limit <=? _)%nat eqn:El; [done|]. cbv zeta. destruct (_ || _); [done|].
  destruct (isEmpty _); [done|]. destruct (present native w); [|done]. apply rowsOf_app; [done..|]. apply fileAlias_container.
Qed.
Lemma rowsOf_foldl {A} (f : list jobj * gset QString → A → list jobj * gset QString) d l acc :
  (∀ acc x, rowsOf d acc.1 → rowsOf d (f acc x).1) → rowsOf d acc.1 → rowsOf d (foldl f acc l).1.
Proof. intros Hf. revert acc. induction l as [|x l IH]; intros acc H; [done|]. by apply IH, Hf. Qed.
Lemma rowsOf_residentSection d w acc section : rowsOf d acc.1 → rowsOf d (residentSection d w acc section).1.
Proof.
  intros H. unfold residentSection. cbv zeta. destruct (isEmpty _); [done|]. apply rowsOf_foldl; [|done]. intros. by apply rowsOf_residentStep.
Qed.
Lemma rowsOf_declaredStep d w acc object : rowsOf d acc.1 → rowsOf d (declaredStep d w acc object).1.
Proof.
  intros H. unfold declaredStep. destruct (limit <=? _)%nat eqn:El; [done|]. cbv zeta. destruct (_ || _); [done|].
  destruct (negb _); [done|]. apply rowsOf_app; [done..|]. apply fileAlias_container.
Qed.
Lemma scan_about st w w' : about st (scanMirror st w w').
Proof.
  unfold scanMirror, unavailable. destruct st as [d|]; [|done]. destruct (negb (isValid d w)); [done|]. cbv zeta.
  destruct (isValid d w'); [|done]. intros _. exists d. split; [done|]. split; [done|]. split; [done|].
  cbn [aliases]. assert (rowsOf d (foldl (residentSection d w) ([], ∅) [files; published_; generationHistory]).1) as H.
  { apply rowsOf_foldl; [intros; by apply rowsOf_residentSection|]. split; [cbn; lia|constructor]. }
  destruct (isLocalAuthority d w); [exact H|]. apply rowsOf_foldl; [|exact H]. intros. by apply rowsOf_declaredStep.
Qed.

(** ** The mirror is the selected drive's *)
(** A scan that is under way or done: one of the present epoch is of the present drive. *)
Definition timely (s : FileSystem) (j : Job) : Prop := jobEpoch j ≤ mirrorEpoch s ∧ (jobEpoch j = mirrorEpoch s → jobStorage j = storage s).
Definition fresh (s : FileSystem) (r : Reply) : Prop :=
  match r with Scanned j m => timely s j ∧ about (jobStorage j) m | _ => True end.
(** The work is in order, [mirrored] apart. *)
Record orderly (s : FileSystem) : Prop := {
  or_jobs : Forall (timely s) (mirrorJobs s);
  or_replies : Forall (fresh s) (replies s)
}.
Record faithful (s : FileSystem) : Prop := { fa_mirror : about (storage s) (mirrored s); fa_order : orderly s }.
(** What the state is about, and what an operation that only tells leaves alone. *)
Definition frame (s : FileSystem) := (storage s, mirrorEpoch s, mirrorJobs s, replies s, mirrored s).
Lemma frame_faithful s s' : frame s' = frame s → faithful s → faithful s'.
Proof.
  intros [= E1 E2 E3 E4 E5] [Hm [H1 H2]]. split; [by rewrite E1, E5|]. split.
  - rewrite E3. eapply Forall_impl; [exact H1|]. intros j Hj. unfold timely. by rewrite E1, E2.
  - rewrite E4. eapply Forall_impl; [exact H2|]. intros [j m| |] Hj; [|done..]. unfold fresh, timely. by rewrite E1, E2.
Qed.
Lemma frame_setError e s : frame (setError e s) = frame s.
Proof. unfold setError. by destruct (bool_decide _). Qed.
Lemma frame_stopMonitor s : frame (stopMonitor s) = frame s.
Proof. unfold stopMonitor. cbv zeta. by destruct (jempty _). Qed.
Lemma frame_startMonitor s : frame (startMonitor s) = frame s.
Proof. unfold startMonitor. destruct (storage s); [|done]. destruct (bool_decide _); [done|]. cbv zeta. by rewrite <- (frame_stopMonitor s). Qed.
Lemma frame_publish d m s st e j r m0 : frame s = (st, e, j, r, m0) → frame (publish d m s) = (st, e, j, r, m).
Proof. intros [= <- <- <- <- _]. done. Qed.
Lemma frame_select st s p st0 e j r m : frame s = (st0, e, j, r, m) → frame { s with storage := st; selection := p } = (st, e, j, r, m).
Proof. intros [= _ <- <- <- <-]. done. Qed.
Lemma frame_synchronize w w' s : frame (synchronize w w' s).2 = (storage s, mirrorEpoch s + 1, mirrorJobs s, replies s, scanMirror (storage s) w w').
Proof.
  unfold synchronize. cbv zeta. cbn [snd]. eapply frame_publish. by rewrite frame_setError.
Qed.
(** A new epoch leaves every scan of an earlier one behind. *)
Lemma later_orderly s s' : orderly s → mirrorEpoch s < mirrorEpoch s' → mirrorJobs s' = mirrorJobs s → replies s' = replies s → orderly s'.
Proof.
  intros [H1 H2] Hlt E1 E2. split.
  - rewrite E1. eapply Forall_impl; [exact H1|]. intros j [Hj _]. split; lia.
  - rewrite E2. eapply Forall_impl; [exact H2|]. intros [j m| |] Hj; [|done..]. destruct Hj as [[Hj _] Hm]. split; [split; lia|done].
Qed.
Lemma faithful_frame s st e m : orderly s → mirrorEpoch s < e → about st m →
  ∀ s', frame s' = (st, e, mirrorJobs s, replies s, m) → faithful s'.
Proof.
  intros Ho He Hm s' [= E1 E2 E3 E4 E5]. split; [by rewrite E1, E5|]. apply (later_orderly s); [done|lia|done..].
Qed.
Lemma faithful_setError e s : faithful s → faithful (setError e s).
Proof. apply frame_faithful, frame_setError. Qed.
Lemma faithful_emit x s : faithful s → faithful (emit x s).
Proof. by apply frame_faithful. Qed.
Lemma faithful_synchronize w w' s : faithful s → faithful (synchronize w w' s).2.
Proof. intros [_ Ho]. eapply (faithful_frame s); [done| |apply (scan_about (storage s) w w')|apply frame_synchronize]. lia. Qed.
Lemma faithful_request s : faithful s → faithful (requestSynchronization s).
Proof.
  intros [Hm [H1 H2]]. unfold requestSynchronization. destruct (mirrorInFlight s); [by split|].
  split; [done|]. split; [|exact H2]. apply Forall_app. split; [exact H1|]. by apply Forall_singleton.
Qed.
Lemma faithful_open path w w' s : faithful s → faithful (open path w w' s).2.
Proof.
  intros [_ Ho]. unfold open. set (s1 := { (nextEpoch s) with intake := S (intake s); selection := path }).
  assert (frame s1 = (storage s, mirrorEpoch s + 1, mirrorJobs s, replies s, mirrored s)) as F by done. clearbody s1.
  destruct (match openStorage path w with inl st => _ | inr e => _ end) as [st e]. cbv zeta.
  set (s2 := { s1 with storage := st }). assert (frame s2 = (st, mirrorEpoch s + 1, mirrorJobs s, replies s, mirrored s)) as F2.
  { revert F. unfold s2. by intros [= _ <- <- <- <-]. }
  clearbody s2. set (s3 := if bool_decide _ then s2 else stopMonitor s2).
  assert (frame s3 = frame s2) as F3 by (unfold s3; destruct (bool_decide _); [done|apply frame_stopMonitor]). clearbody s3. cbn [snd].
  pose proof (frame_synchronize w w' (startMonitor (setError e s3))) as F4.
  pose proof (frame_startMonitor (setError e s3)) as F5. rewrite frame_setError, F3, F2 in F5. injection F5 as E1 E2 E3 E4 _.
  rewrite E1, E2, E3, E4 in F4. apply (faithful_frame s st (mirrorEpoch s + 1 + 1) (scanMirror st w w')); [done|lia|apply scan_about|exact F4].
Qed.
(** What is adopted is of one drive; so is what an object captures. *)
Definition consistent (p : PreparedStorage) : Prop := about (preparedStorage_ p) (preparedMirror p).
Lemma captured_consistent s : faithful s → consistent (preparedStorage s).
Proof. by intros [H _]. Qed.
Lemma faithful_adopt p w s : (∀ p', p = Some p' → consistent p') → faithful s → faithful (adoptStorage p w s).2.
Proof.
  intros Hp Hs. unfold adoptStorage. destruct p as [p|]; [|by apply faithful_setError]. specialize (Hp p eq_refl).
  destruct (match preparedStorage_ p with Some _ => _ | None => _ end); [by apply faithful_setError|]. cbv zeta. cbn [snd].
  apply faithful_emit. eapply frame_faithful; [apply frame_startMonitor|].
  set (s1 := stopMonitor _). assert (frame s1 = (storage s, mirrorEpoch s + 1, mirrorJobs s, replies s, mirrored s)) as F by apply frame_stopMonitor. clearbody s1.
  set (s2 := { s1 with storage := preparedStorage_ p; selection := preparedSelection p }).
  assert (frame s2 = (preparedStorage_ p, mirrorEpoch s + 1, mirrorJobs s, replies s, mirrored s)) as F2.
  { by eapply frame_select. }
  clearbody s2. pose proof (frame_setError (preparedError p) s2) as F3. rewrite F2 in F3. set (s3 := setError _ s2) in *. clearbody s3.
  set (m := mkSnapshot _ _ _ _ _). apply (faithful_frame s (preparedStorage_ p) (mirrorEpoch s + 1) m); [apply Hs|lia|exact Hp|].
  by eapply frame_publish.
Qed.
Lemma faithful_received j m s : faithful s → timely s j → about (jobStorage j) m → faithful (received j m s).
Proof.
  intros Hs [Hle Heq] Hm. unfold received. cbv zeta. set (s1 := { s with mirrorInFlight := false }).
  assert (faithful s1) as H1 by (by apply (frame_faithful s)).
  match goal with |- context [emit (SynchronizationFinished _) ?x] => assert (faithful x) as H2; [|generalize dependent x] end.
  { change (mirrorEpoch s1) with (mirrorEpoch s). destruct (Z.eqb_spec (jobEpoch j) (mirrorEpoch s)) as [E|]; [|exact H1].
    specialize (Heq E). assert (faithful (publish (jobStorage j) m (setError (scanError m) s1))) as H2.
    { apply (faithful_setError (scanError m)) in H1. destruct H1 as [_ Ho]. pose proof (frame_setError (scanError m) s1) as F.
      set (s2 := setError _ s1) in *. clearbody s2. injection F as E1 _ _ _ _. split; [|destruct Ho; by split].
      change (about (storage s2) m). rewrite E1. change (about (storage s) m). by rewrite <- Heq. }
    destruct (jobStorage j); [|exact H2]. destruct (_ && _); [|exact H2]. by refine (frame_faithful _ _ _ H2). }
  intros x Hx. apply (faithful_emit (SynchronizationFinished ((jobEpoch j =? mirrorEpoch s1) && available m))) in Hx.
  set (y := emit _ x) in *. clearbody y. destruct (mirrorPending y); [|exact Hx]. apply faithful_request. by apply (frame_faithful y).
Qed.
Lemma faithful_monitorState epoch value w s : faithful s → faithful (monitorState epoch value w s).
Proof.
  intros Hs. unfold monitorState. destruct (negb _); [done|]. cbv zeta. apply faithful_emit.
  set (s1 := { s with containerState := value; synchronization := _ }). assert (faithful s1) as H1 by (by apply (frame_faithful s)). clearbody s1.
  destruct (_ && _); [|exact H1]. by apply faithful_emit, faithful_request.
Qed.

(** *** The operations on files only select again and synchronize *)
Hint Resolve faithful_setError faithful_emit faithful_synchronize faithful_request faithful_open : faithful.
(** Follows one operation: its guards, the other operations that it calls. *)
Ltac told := first [solve [auto with faithful] | match goal with |- faithful (match ?b with _ => _ end).2 => destruct b end; cbn [fst snd]; told].
Ltac follow1 :=
  match goal with
  | |- context [match ?g with (_, _) => _ end] =>
      lazymatch type of g with
      | (_ * _ * FileSystem)%type => fail
      | (_ * FileSystem)%type => let F := fresh "F" in assert (faithful g.2) as F by told; destruct g as [? ?]; cbn [fst snd] in F
      | _ => destruct g
      end
  | |- faithful (match ?g with _ => _ end) => destruct g
  | |- faithful (match ?g with _ => _ end).2 => destruct g
  | |- faithful (match ?g with _ => _ end).1.2 => destruct g
  | |- faithful (_, _).2 => cbn [snd]
  | |- faithful (_, _, _).1.2 => cbn [fst snd]
  end.
Ltac follow := repeat follow1; auto with faithful.
Lemma faithful_ready w w' s : faithful s → faithful (ready w w' s).2.
Proof. intros Hs. unfold ready. follow. Qed.
Lemma faithful_section key s : faithful s → faithful (section key s).2.
Proof. intros Hs. unfold section. follow. Qed.
Hint Resolve faithful_ready faithful_section : faithful.
Lemma faithful_reach key w w' s : faithful s → faithful (reach key w w' s).2.
Proof. intros Hs. unfold reach. follow. Qed.
Hint Resolve faithful_reach : faithful.
Lemma faithful_path key relative w w' s : faithful s → faithful (path key relative w w' s).2.
Proof. intros Hs. unfold path. follow. Qed.
Hint Resolve faithful_path : faithful.
Lemma faithful_ensureDirectory key relative w w' s : faithful s → faithful (ensureDirectory key relative w w' s).1.2.
Proof. intros Hs. unfold ensureDirectory. follow. Qed.
Lemma faithful_entries key relative w w' s : faithful s → faithful (entries key relative w w' s).2.
Proof. intros Hs. unfold entries. follow. Qed.
Lemma faithful_alias key relative w w' s : faithful s → faithful (alias key relative w w' s).2.
Proof. intros Hs. unfold alias. cbv zeta. follow. Qed.
Lemma faithful_canvasVersion native w value s : faithful s → faithful (canvasVersion native w value s).2.
Proof. intros Hs. unfold canvasVersion. follow. Qed.
Hint Resolve faithful_alias faithful_canvasVersion : faithful.
Lemma faithful_aliasForPath source w w' s : faithful s → faithful (aliasForPath source w w' s).2.
Proof. intros Hs. unfold aliasForPath. cbv zeta. follow. Qed.
Hint Resolve faithful_aliasForPath : faithful.
Lemma faithful_publishFile source key relative w w' s : faithful s → faithful (publishFile source key relative w w' s).1.2.
Proof. intros Hs. unfold publishFile. follow. Qed.
Lemma faithful_removeFile key relative w w' s : faithful s → faithful (removeFile key relative w w' s).1.2.
Proof. intros Hs. unfold removeFile. follow. Qed.
Lemma faithful_accepted selected l w s : faithful s → faithful (accepted selected l w s).2.
Proof. revert s. induction l as [|[k d] l IH]; intros s Hs; cbn [accepted]; [done|]. follow. Qed.
Hint Resolve faithful_accepted : faithful.
Lemma faithful_saveFile destination bytes overwrite w w' s : faithful s → faithful (saveFile destination bytes overwrite w w' s).1.2.
Proof. intros Hs. unfold saveFile. follow. Qed.
Lemma faithful_removeGenerationInputs directory w w' s : faithful s → faithful (removeGenerationInputs directory w w' s).1.2.
Proof. intros Hs. unfold removeGenerationInputs. cbv zeta. follow. Qed.
Lemma faithful_forward {A} (none : A) absent f w w' s : faithful s → faithful (forward none absent f w w' s).2.
Proof. intros Hs. unfold forward. follow. Qed.
Hint Resolve faithful_forward : faithful.
Lemma faithful_fileInformation key f w w' s : faithful s → faithful (fileInformation key f w w' s).2.
Proof. intros Hs. unfold fileInformation. follow. Qed.
Lemma faithful_resolved f w w' s : faithful s → faithful (resolved f w w' s).2.
Proof. intros Hs. unfold resolved. follow. Qed.
Lemma faithful_queried {A} (none : A) f w w' s : faithful s → faithful (queried none f w w' s).2.
Proof. intros Hs. unfold queried. follow. Qed.
Lemma faithful_publishGeneratedImage f w w' s : faithful s → faithful (publishGeneratedImage f w w' s).2.
Proof. intros Hs. unfold publishGeneratedImage. follow. Qed.
Lemma faithful_openForSource source w w' s : faithful s → faithful (openForSource source w w' s).2.
Proof. intros Hs. unfold openForSource, refresh. follow. Qed.
Lemma faithful_openChosen chosen w w' s : faithful s → faithful (openChosen chosen w w' s).2.
Proof. intros Hs. unfold openChosen. follow. Qed.
Hint Resolve faithful_ensureDirectory faithful_entries faithful_publishFile faithful_removeFile faithful_saveFile faithful_removeGenerationInputs
  faithful_fileInformation faithful_resolved faithful_queried faithful_publishGeneratedImage faithful_openForSource faithful_openChosen
  faithful_monitorState : faithful.
Lemma faithful_pop r rest s : replies s = r :: rest → faithful s → fresh { s with replies := rest } r ∧ faithful { s with replies := rest }.
Proof.
  intros E [Hm [H1 H2]]. rewrite E in H2. apply Forall_cons in H2 as [Hr H2]. split; [by destruct r|]. split; [done|]. split; [exact H1|exact H2].
Qed.
Lemma faithful_push r s : fresh s r → faithful s → faithful { s with replies := replies s ++ [r] }.
Proof. intros Hr [Hm [H1 H2]]. split; [done|]. split; [exact H1|]. apply Forall_app. split; [exact H2|]. by apply Forall_singleton. Qed.
Lemma scanned_about thrown w w' j : about (jobStorage j) (scanned thrown w w' j).
Proof. destruct thrown; [done|]. apply scan_about. Qed.
(** What an event brings from elsewhere: only an adopted selection comes with a mirror. *)
Definition sound (e : world * world * Event) : Prop :=
  match e.2 with Adopt (Some p) => consistent p | _ => True end.
Lemma faithful_step e s : sound e → faithful s → faithful (step s e).
Proof.
  destruct e as [[w w'] e]. unfold sound. cbn [snd]. intros He Hs.
  destruct e; unfold step, refresh, models, ensureRuntimeDirectory; cbn [fst snd]; auto with faithful.
  - apply faithful_adopt; [|done]. intros p' ->. exact He.
  - destruct (synchronization s); auto with faithful.
  - destruct (mirrorJobs s) as [|j rest] eqn:E; [done|]. destruct Hs as [Hm [H1 H2]]. rewrite E in H1. apply Forall_cons in H1 as [Hj H1].
    split; [done|]. split; [exact H1|]. apply Forall_app. split; [exact H2|]. apply Forall_singleton. split; [exact Hj|apply scanned_about].
  - destruct (intakeJobs s) as [|[[epoch st] token] rest]; [done|]. assert (faithful { s with intakeJobs := rest }) as H by (by apply (frame_faithful s)).
    destruct (_ && _); [|exact H]. by apply (faithful_push (IntakeError epoch e)) in H.
  - destruct (replies s) as [|r rest] eqn:E; [done|]. destruct (faithful_pop r rest s E Hs) as [Hr H]. destruct r; auto with faithful.
    + destruct Hr. by apply faithful_received.
    + destruct (_ =? _); auto with faithful.
  - by apply (faithful_push (Monitored epoch value)).
Qed.
Lemma faithful_history l s : Forall sound l → faithful s → faithful (history s l).
Proof. intros Hl. revert s. induction Hl as [|e l He Hl IH]; intros s Hs; [done|]. by apply IH, faithful_step. Qed.
Lemma faithful_start : faithful start.
Proof. split; [done|]. split; constructor. Qed.

(** After any history of selections, scans, deliveries, states of the container and
    operations on files, with the disk changing between and during them and with what
    is adopted having been captured of one drive: if the mirror shows a drive it is the
    one that is selected, by its name and at its place, with at most 25000 rows and each
    row of that drive's container. A scan that a change of the selection overtook is
    dropped, whatever it found. *)
Theorem mirror_of_selection l : Forall sound l →
  let s := history start l in
  available (mirrored s) = true →
  ∃ d, storage s = Some d ∧ id (mirrored s) = identifier d ∧ root (mirrored s) = driveRoot d
    ∧ (List.length (aliases (mirrored s)) ≤ limit)%nat ∧ Forall (λ a : jobj, a.["containerId"] = JStr (identifier d)) (aliases (mirrored s)).
Proof. intros Hl s. apply (fa_mirror _ (faithful_history l start Hl faithful_start)). Qed.
(** What an object captures may be adopted by another, so [sound] holds of what the
    program does. *)
Lemma captured_sound l w w' : Forall sound l → sound (w, w', Adopt (Some (preparedStorage (history start l)))).
Proof. intros Hl. apply captured_consistent, faithful_history; [exact Hl|exact faithful_start]. Qed.
End facts.

(** ** A disk with two drives: its files by their paths *)
Section drives.
Let slashed (a b : QString) : QString := a ++ u "/" ++ b.
Let stat (w : list QString) (p : QString) : FileInfo :=
  let there := bool_decide (p ∈ w) in mkInfo there there false true p (List.last (qsplit slash p) []) (u "png") 7 1000 p.
#[local] Instance drives : Library := {
  world := list QString; Storage := QString; identifier st := st; driveRoot st := st;
  openStorage p w := if isEmpty p then inr (u "none") else inl p; isValid _ _ := true; isLocalAuthority _ _ := true;
  mapObjects _ _ := []; mapObject _ _ _ := ∅; previewPath _ _ _ := [];
  filePath st section relative w := (if isEmpty relative then slashed st section else slashed (slashed st section) relative, []);
  ensureDirectory_ st section relative w := ((slashed (slashed st section) relative, []), w);
  sectionPath st section := slashed st section;
  walk directory _ w := List.filter (λ p, startsWith p (directory ++ u "/")) w; listing _ _ := [];
  info p w := stat w p; physicalPath p := p; relativeFilePath d p := skipn (S (List.length d)) p; absoluteFilePath p := p;
  providerPath := inl; pathFrom := slashed; containingDrive _ _ := None; isControlFile _ := false;
  samePathSpelling a b := bool_decide (a = b); sectionName p := p; toLower p := p; toUpper p := p; formattedDataSize := numberStr;
  fromLocalFile p := u "file://" ++ p; fileHash _ _ _ := inr []; copyFile _ d w := (None, d :: w);
  removeFile_ p w := (inl true, List.filter (λ x, negb (bool_decide (x = p))) w); writeFile p _ _ w := (None, p :: w);
  removeRecursively _ w := (true, w)
}.
Let disk : world := [u "/a/files/x.png"; u "/b/files/y.png"; u "/b/files/z.png"].
(** The first drive is scanned, the second selected, and only then the scan arrives. *)
Let overtaken : list (world * world * Event) :=
  [(disk, disk, Open (u "/a")); (disk, disk, RequestSynchronization); (disk, disk, Scan None); (disk, disk, Open (u "/b")); (disk, disk, Deliver)].
Example mirror_of_selection_witness :
  let s := history start overtaken in
  Forall sound overtaken ∧ available (mirrored s) = true ∧ id (mirrored s) = u "/b"
  ∧ map (λ a : jobj, a.["key"]) (aliases (mirrored s)) = [JStr (u "files/y.png"); JStr (u "files/z.png")]
  ∧ out s = out (history start (take 4 overtaken)) ++ [SynchronizationFinished false]
  ∧ ∃ d, storage s = Some d ∧ id (mirrored s) = identifier d ∧ root (mirrored s) = driveRoot d
    ∧ (List.length (aliases (mirrored s)) ≤ limit)%nat ∧ Forall (λ a : jobj, a.["containerId"] = JStr (identifier d)) (aliases (mirrored s)).
Proof.
  assert (Forall sound overtaken) as H by (repeat constructor). cbv zeta.
  split; [exact H|]. split; [vm_compute; reflexivity|]. split; [vm_compute; reflexivity|]. split; [vm_compute; reflexivity|].
  split; [vm_compute; reflexivity|]. apply (mirror_of_selection overtaken H). vm_compute. reflexivity.
Defined.
End drives.
End FileSystemFacts.
